(* ===== verification/_CoqProject ===== *)
-Q . S2P
Prelude.v
Ids.v
Schema.v
Registry.v
RegistryInv.v
RegistryRuns.v
RegistryOps.v
Reconciliation.v
RegistryQueries.v
QueryProps.v
JobQueue.v
JobQueueProps.v
Worker.v
Rca.v
CancelDispatch.v
CancelDispatchProps.v
ChainEvents.v
ChainEventsProps.v
ChainListener.v
ChainListenerProps.v
ChainReconcile.v
PendingCancels.v
Services.v
RowOps.v
Interleaving.v
Handlers.v
HandlerProps.v
Liveness.v
LivenessProps.v
CancelRetry.v
CancelRetryProps.v
Expiration.v
Selection.v
Reassess.v
SelectionProps.v
ReassessPlan.v
ReassessProps.v
ReassessPass.v
Reassignment.v
ReassignmentProps.v
DipsInfo.v
DipsInfoProps.v
Escrow.v
EscrowProps.v
AdminRpc.v
AdminRpcProps.v
SeenBlocks.v
SeenBlocksProps.v
RpcPool.v
RpcPoolProps.v
ChainRpc.v
ChainRpcProps.v
EventSweeps.v
EventSweepsProps.v
PollLoop.v
Producer.v
ProducerProps.v
Alerts.v
AlertsProps.v
Supervisor.v
Iisa.v
IisaProps.v
Caches.v
CachesProps.v
Domain.v
Startup.v
StartupProps.v
Config.v
ConfigProps.v
QueueListener.v
WorkerLoop.v
Cli.v
