(* ===== verification/Prelude.v ===== *)
(** * A verification of dipper

    Dipper is the gateway of The Graph's direct indexing payments: requesters
    ask for a number of indexers on a subgraph deployment, and dipper proposes
    indexing agreements to indexers, offers them on chain, follows what the
    chain says of them, cancels the ones no longer wanted and announces what
    happened.  Its parts, and how they interact:

    - the registry (dipper-pgregistry) keeps requests, agreements, pending
      cancellations, the listener's cursor and the DIPs info table in Postgres.
      Every other part reads and moves agreements through it;
    - the job queue (dipper-pgmq) keeps jobs in Postgres; the worker
      (bin/dipper-service/src/worker) pops them, runs their handler and settles
      them, woken by notifications or by its poll;
    - the cancel dispatch (cancel_dispatch.rs) marks an agreement, sends its
      on-chain cancel through the chain client and records the end;
    - the subgraph event source (network/service/chain_events.rs) reads pages
      of changed agreements, and the chain listener (chain_listener.rs) applies
      them to the registry and starts the cancels an accepted replacement
      releases;
    - the worker's handlers propose an agreement to its indexer, put its offer
      on chain, check a rejected one and reassess a request: ask IISA for
      indexers, register the agreements that fit and let go of the ones they
      replace;
    - timed services under bin/dipper-service/src/network/service retry cancels,
      check that indexers stay alive, expire overdue offers, queue
      reassessments, watch for indexers without DIPs info and collect what is
      due from escrow;
    - the chain client (chain_client/) reads and writes the contracts through a
      pool of endpoints, the admin RPC sets targets, the event producer
      (dipper-producer) announces what happened, and the supervisor, health
      probe and alerts watch over the process.

    ** Files

    - [Prelude]: results and the state-and-error monad the database code is
      written in, transactions, invariant preservation, machine widths, SQL's
      three-valued logic, [ORDER BY] and [LIMIT], tables as finite maps.
    - [Ids]: the agreement id's text and bytes (dipper-core/src/ids.rs) and
      [PgU64] (postgres/common.rs).
    - [Schema]: the tables, statuses, rows and constraints
      (indexing_agreement.rs, indexing_request.rs and the migrations), and SQL
      updates of one or many rows.
    - [Registry]: every write of [PgRegistry] (postgres.rs), transaction by
      transaction.  [RegistryQueries]: its reads.
    - [RegistryInv], [RegistryRuns]: the agreement lifecycle, the invariant of
      the database, the operations as steps, and what every reachable database
      satisfies.  [RegistryOps], [Reconciliation], [QueryProps], [RowOps]: what
      single operations, the reconciliation batch and the queries do.
      [Interleaving]: a service's run as turns of its own among the turns of
      the other tasks, and the rules that prove such runs.
    - [JobQueue], [JobQueueProps]: the queue with its row locks, and any
      interleaving of workers on it.  [Worker]: retry budgets, what becomes of
      a job that ran, re-subscription and its pacing (worker/result.rs,
      worker/service.rs).
    - [CancelDispatch], [CancelDispatchProps]: the dispatch against the classes
      [CancelRegistry] and [ChainClient], its guarantees for every registry
      that keeps [CancelRegistryLaws], and the instance on Postgres, whose
      connections may be lost before or after a statement.
    - [ChainEvents], [ChainEventsProps]: queries, parsing and pages.
    - [ChainListener], [ChainListenerProps]: a drain against the classes
      [ListenerRegistry], [ChainEventSource], [LiveCheckQueue] and the two
      above.  [ChainReconcile]: the drain's registry on Postgres (registry.rs)
      and what a page does to it.  [PendingCancels]: the two sweeps that start
      the cancels an accepted replacement releases.  [EventSweeps],
      [EventSweepsProps]: the announcements, with the broker's cooldown.
      [PollLoop]: a whole turn of the loop, of these four.
    - [Rca], [Services]: what the handlers and services share: the agreement as
      it is signed and its on-chain id (indexer_rpc_client.rs), the registry's
      facade (registry/*.rs), and the monad [S] in which they run.
    - [Selection], [SelectionProps]: the prices, declines and unresponsive
      breaker behind a selection (selection_context.rs,
      worker/unresponsive_breaker.rs) and IISA's interface.
    - [Handlers], [HandlerProps]: the proposal, offer and cancel-check jobs.
      [Reassess], [ReassessPlan], [ReassessProps], [ReassessPass]: the
      reassessment of a request, its arithmetic and its guarantees.
    - [Liveness], [LivenessProps]; [CancelRetry], [CancelRetryProps];
      [Expiration]; [Reassignment], [ReassignmentProps]; [DipsInfo],
      [DipsInfoProps]; [Escrow], [EscrowProps]: the services of the same names
      (liveness_checker.rs, cancel_retry.rs, expiration.rs, reassignment.rs,
      dips_info_watcher.rs, escrow_reconciler.rs).
    - [AdminRpc], [AdminRpcProps]: the methods of the admin server
      (admin_rpc_server/handlers).  [Cli]: the client that calls them
      (bin/dipper-cli) and the signed message between the two
      (dipper-rpc/src/admin/message.rs).
    - [SeenBlocks], [SeenBlocksProps]: the newest block seen and what moves it.
      [RpcPool], [RpcPoolProps]: the walk of the endpoints (rpc_provider.rs).
      [ChainRpc], [ChainRpcProps]: nonces, gas, submission, receipts and reads
      (client.rs, gas.rs), as an instance of the classes the services use.
    - [Producer], [ProducerProps]: the Kafka producer and the emitter behind the
      announcements, and the queue of diagnostic events.
    - [Alerts], [AlertsProps] (alerts.rs) and [Supervisor] (supervisor.rs,
      health.rs).
    - [Iisa], [IisaProps]: the HTTP client of IISA (dipper-iisa), as an instance
      of the interface the reassessment uses.  [Caches], [CachesProps]: the
      indexer URLs and entity counts read page by page from the subgraph
      (indexer_urls.rs, entity_count_cache.rs).  [Domain]: the signing domain,
      its refresh and the check of the signer's role (eip5267.rs,
      domain_refresh.rs, manager_role.rs).
    - [QueueListener]: the notification listener (dipper-pgmq/src/listener.rs).
      [WorkerLoop]: the dispatch of a job and the loops that share the queue
      (worker/service.rs), over [JobQueue], [Worker] and [Supervisor].
    - [Config], [ConfigProps]: the configuration's sections, defaults and
      validation (config.rs).  [Startup], [StartupProps]: the loops of the
      start, the sizing check, the task tree and the stop sequence (main.rs),
      under [Supervisor].

    ** How the code is modelled

    A registry operation is a function [Db -> result Error A * Db]; an error
    inside [transaction] restores the database.  The database's clock and fresh
    ids are arguments.  A statement is its effect on the rows its [WHERE]
    clause selects, with the unique indexes and checks of the migrations
    enforced on the result; the isolation of concurrent transactions is that of
    their order.  Integers are [Z] with their width written out where the code
    casts, checks or saturates; timestamps and durations are integers
    (microseconds in the database, nanoseconds elsewhere); an [f64] is an IEEE
    binary64 of [SpecFloat].  Ids, addresses and deployments are numbers; [Ids]
    shows that this keeps an id's equality and order.  Texts of errors, where
    the code reads them, are byte strings.

    Code outside the repository (Postgres, the chain, the subgraph, IISA,
    Kafka, the address parser, how hashes print) is a class or an argument;
    what a theorem needs of it is a named hypothesis.  Calls between services
    return errors as values, and every theorem about them covers the failing
    calls; a panic is [None]: rates past 128 bits, an age limit past 64 bits of
    seconds and poisoned locks in the reassessment among them.  Sums the release
    build leaves unchecked wrap.  The handlers and services run in the monad [S]
    of [Services]: the database, the job queue, an oracle of lost connections
    and of what the other tasks write between two statements, and a log of the
    calls out with their answers, in which the theorems speak of what was sent.
    The other tasks' writes are any registry step; they happen before a
    statement, not in the middle of a cancel dispatch.  A theorem either covers
    these writes (the proposal job, the expiration scan, the cancel retry and
    the offer job are stated turn by turn) or says that no other task writes
    while the operation runs ([alone]); the comment of each says which.  What
    IISA was asked and answered is logged in the reassessment's memory, and the
    head each endpoint reported in the chain client's log, so that a theorem
    speaks of the answer itself.  Orders the code leaves
    open (a hash set's, tasks that finish) are arguments, and so are stop
    messages and deadlines.

    Fuel: the listener's drain is bounded by the code's [MAX_PAGES_PER_DRAIN].
    [catch_up] of [Reassignment] gets as many steps as runs were missed, which
    is enough by [passes_keep_the_clock]; the polls of a receipt in [ChainRpc]
    get [RECEIPT_POLLS], enough by [polls_suffice].  The walks of pages in
    [Caches] get a number of pages; one for each thousand entries and one more
    are enough by [walk_reads_all].  Every other recursion is
    on a list or on the number of attempts the code itself counts.

    ** What the theorems show

    - Registry: every database the service can reach is well formed, whatever
      the sequence of operations, arguments and failures; agreements are never
      lost or altered and move only along the lifecycle; the reconciliation
      batch does row by row what reconciling each row alone does, fails only on
      the unique index and then changes nothing; targets, ends, checks, the
      cursor and each query meet their specifications on every branch.
    - Queue and worker: no job is lost or served twice, order and attempts are
      kept, retry budgets fill their window, and a failing listener connection
      cannot spin the loop.  The loops, in any interleaving of waits, pops,
      panics and stops, refine the queue's own machine; a stop drains them in a
      bounded number of steps, no row stays locked, and the worker reports a
      panic.  A broken notification connection is reported by its third
      reconnect within the window even if every wait is cancelled, and only
      then.
    - Cancels: the dispatch sends no cancel that is not recorded and just read
      live, by itself or, where it is told so, by its caller;
      an agreement is reported ended only on the chain's word, and reopened
      only on evidence.
    - Listener: a page never lets the cursor pass a row it did not deliver; the
      cursor and the chain time the listener remembers only move forward (the
      recorded row can lag after a lost reply, which is proved too); a page that fails is held
      ten minutes and then passed; a change is checked once; an applied page
      leaves each agreement in the status the module's table of transitions
      gives, except for an end that was never accepted, and reading it again
      settles.
    - Announcements: an agreement is stamped announced only after the broker
      confirmed, a healthy round announces exactly what is pending, the accept
      goes out before the end (save where a query is lost, which is proved
      too); what the broker holds is what was announced.
    - Handlers: a proposal settles its agreement on every answer; an offer is
      put on chain only for an agreement still wanted; a reassessment stays
      within the target and the caps among the indexers IISA answered with, keeps
      the coverage it promises, and panics only on the values named above.
    - Services: only an agreement that earned it is abandoned, only ended ones
      are confirmed, only overdue ones expire; the passes keep their schedule
      and queue exactly the requests that can be filled; the watcher blocks
      only indexers that were long missing; escrow is asked only for what is
      due, every agreement gets checked and no rebalance is lost to a failure.
    - Chain client: a manager call reports its own receipt, nonces of accepted
      transactions increase, an agreement is read at a block an endpoint
      reported, at least as new as the newest seen, which moves only within its
      limits.
    - Admin RPC: the answer of a target call says what was stored and queued;
      what the client prints as done is what the database holds, for the chain
      of the manifest's only network or the one a flag gives.
    - Supervision: the process exits cleanly exactly when it was asked to and
      every task ended well in time; an alert the queue cannot take is counted,
      and one message goes out per window.
    - Start and stop: a configuration that is not refused gives offers the
      collector takes, unless its deadline runs past 64 bits; the stop sequence
      ends within the grace period and stops every task that was spawned, and
      the process exits cleanly exactly when a signal asked for it and every
      spawned task then ends well.
    - Outside readings: IISA is asked again only after failures that may pass,
      with a request that tells the whole question; a reading of the subgraph
      that holds still ends and has every entry; the URLs in use are never
      replaced by an empty or partial reading (the counts can be, which is
      proved too); the signing domain in use is one the contract reported.

    ** Not modelled

    Loading and decoding the configuration file, the timers around the services
    and their stop channels, the building of the services in main.rs and the run
    of the migrations are left: they call libraries in a fixed order.  The HTTP,
    gRPC, Kafka and JSON-RPC exchanges, the JSON of messages, signing and EIP-712
    hashing, the text of queries, and the arguments and files of the command-line
    client are input and output around what is modelled. *)

From stdpp Require Export base list gmap sorting strings.
From Stdlib Require Export ZArith Lia.

Declare Scope dipper_scope.
Delimit Scope dipper_scope with dipper.
Local Open Scope Z_scope.

(** ** Results and the state-and-error monad

    Rust's [Result<A, E>], and a computation that threads a state and may
    return early with an error.  An early return keeps the state reached so
    far; a database transaction, which undoes it, is [transaction]. *)

Inductive result (E A : Type) : Type :=
| Ok (a : A)
| Err (e : E).
Arguments Ok {E A} _.
Arguments Err {E A} _.

Definition is_ok {E A} (r : result E A) : bool :=
  match r with Ok _ => true | Err _ => false end.

Definition SE (S E A : Type) : Type := S → result E A * S.

#[export] Instance SE_ret {S E} : MRet (SE S E) := λ A a s, (Ok a, s).
#[export] Instance SE_bind {S E} : MBind (SE S E) := λ A B k m s,
  match m s with
  | (Ok a, s') => k a s'
  | (Err e, s') => (Err e, s')
  end.

Definition throw {S E A} (e : E) : SE S E A := λ s, (Err e, s).

Definition get {S E} : SE S E S := λ s, (Ok s, s).

Definition put {S E} (s' : S) : SE S E () := λ _, (Ok tt, s').

(** [catch m]: run [m] and hand its result, error or not, to the caller. *)
Definition catch {S E A} (m : SE S E A) : SE S E (result E A) := λ s,
  let '(r, s') := m s in (Ok r, s').

(** A database transaction: an error rolls the state back. *)
Definition transaction {S E A} (m : SE S E A) : SE S E A := λ s,
  match m s with
  | (Ok a, s') => (Ok a, s')
  | (Err e, _) => (Err e, s)
  end.

Fixpoint for_each {S E A} (xs : list A) (f : A → SE S E ()) : SE S E () :=
  match xs with
  | [] => mret tt
  | x :: xs' => f x ;; for_each xs' f
  end.

(** [preserves P m]: whatever [m] returns, [P] still holds afterwards. *)
Definition preserves {S E A} (P : S → Prop) (m : SE S E A) : Prop :=
  ∀ s, P s → P (m s).2.

(** Hints for preservation proofs, and the rewriting base of the
    development. *)
Create HintDb preserves.
#[export] Hint Constants Opaque : preserves.

Section monad.
Context {S E : Type}.

Lemma bind_run {A B} (m : SE S E A) (k : A → SE S E B) s :
  (m ≫= k) s = match m s with
               | (Ok a, s') => k a s'
               | (Err e, s') => (Err e, s')
               end.
Proof. reflexivity. Qed.

Lemma bind_ok {A B} (m : SE S E A) (k : A → SE S E B) s b s'' :
  (m ≫= k) s = (Ok b, s'') ↔
  ∃ a s', m s = (Ok a, s') ∧ k a s' = (Ok b, s'').
Proof.
  rewrite bind_run. destruct (m s) as [[a|e] s']; naive_solver.
Qed.

Lemma transaction_err {A} (m : SE S E A) s e s' :
  transaction m s = (Err e, s') → s' = s ∧ ∃ s1, m s = (Err e, s1).
Proof. unfold transaction. destruct (m s) as [[]]; naive_solver. Qed.

Lemma transaction_ok {A} (m : SE S E A) s a s' :
  transaction m s = (Ok a, s') ↔ m s = (Ok a, s').
Proof. unfold transaction. destruct (m s) as [[]]; naive_solver. Qed.

Lemma preserves_ret {A} P (a : A) : preserves P (mret a : SE S E A).
Proof. by intros s. Qed.

Lemma preserves_throw {A} P e : preserves P (throw e : SE S E A).
Proof. by intros s. Qed.

Lemma preserves_get P : preserves P (get : SE S E S).
Proof. by intros s. Qed.

Lemma preserves_bind {A B} P (m : SE S E A) (k : A → SE S E B) :
  preserves P m → (∀ a, preserves P (k a)) → preserves P (m ≫= k).
Proof.
  intros Hm Hk s Hs. rewrite bind_run. specialize (Hm s Hs).
  destruct (m s) as [[a|e] s']; [by apply Hk|done].
Qed.

(** The continuation may use what [m] establishes about its result. *)
Lemma preserves_bind_dep {A B} P (m : SE S E A) (k : A → SE S E B) :
  (∀ s, P s → match m s with (Ok a, s') => P (k a s').2 | (Err _, s') => P s' end) →
  preserves P (m ≫= k).
Proof.
  intros H s Hs. rewrite bind_run. specialize (H s Hs).
  by destruct (m s) as [[]].
Qed.

Lemma preserves_catch {A} P (m : SE S E A) :
  preserves P m → preserves P (catch m).
Proof.
  intros Hm s Hs. unfold catch. specialize (Hm s Hs). by destruct (m s).
Qed.

Lemma preserves_transaction {A} P (m : SE S E A) :
  preserves P m → preserves P (transaction m).
Proof.
  intros Hm s Hs. unfold transaction. specialize (Hm s Hs).
  by destruct (m s) as [[]].
Qed.

Lemma preserves_for_each {A} P (xs : list A) (f : A → SE S E ()) :
  (∀ x, x ∈ xs → preserves P (f x)) → preserves P (for_each xs f).
Proof.
  induction xs as [|x xs IH]; intros Hf; simpl; [apply preserves_ret|].
  apply preserves_bind; [apply Hf; set_solver|intros _].
  apply IH. intros y Hy. apply Hf. set_solver.
Qed.

Lemma preserves_impl {A} (P Q : S → Prop) (m : SE S E A) :
  (∀ s, P s ↔ Q s) → preserves P m → preserves Q m.
Proof. intros HPQ Hm s Hs. apply HPQ, Hm, HPQ, Hs. Qed.
End monad.

#[export] Hint Resolve preserves_ret preserves_throw preserves_get
  preserves_bind preserves_catch preserves_transaction preserves_for_each
  : preserves.

(** ** Machine integers

    A [w]-bit integer is a [Z]; the casts the source writes ([as i64],
    [as u64]) wrap, the saturating operations clamp. *)

Definition u64_max : Z := 18446744073709551615.
Definition i64_max : Z := 9223372036854775807.
Definition i64_min : Z := -9223372036854775808.
Definition i32_max : Z := 2147483647.
Definition u32_max : Z := 4294967295.

(** [v as u64] *)
Definition as_u64 (v : Z) : Z := v mod 18446744073709551616.

(** [v as i64] *)
Definition as_i64 (v : Z) : Z :=
  let m := v mod 18446744073709551616 in
  if m <=? i64_max then m else m - 18446744073709551616.

Definition sat_add_u64 (a b : Z) : Z := Z.min (a + b) u64_max.
Definition sat_add_u32 (a b : Z) : Z := Z.min (a + b) u32_max.
Definition sat_sub (a b : Z) : Z := Z.max 0 (a - b).

Definition is_u64 (v : Z) : Prop := 0 ≤ v ≤ u64_max.
Definition is_i64 (v : Z) : Prop := i64_min ≤ v ≤ i64_max.
Definition is_u32 (v : Z) : Prop := 0 ≤ v ≤ u32_max.

Lemma as_i64_small v : 0 ≤ v ≤ i64_max → as_i64 v = v.
Proof.
  unfold as_i64, i64_max. intros. rewrite Z.mod_small by lia.
  by rewrite (proj2 (Z.leb_le _ _)) by lia.
Qed.

Lemma as_u64_small v : is_u64 v → as_u64 v = v.
Proof. unfold is_u64, as_u64, u64_max. intros. apply Z.mod_small. lia. Qed.

Lemma as_i64_range v : is_i64 (as_i64 v).
Proof.
  unfold is_i64, as_i64, i64_max, i64_min.
  pose proof (Z.mod_pos_bound v 18446744073709551616).
  case_match; lia.
Qed.

(** A [u64] stored in a [BIGINT] column and read back is unchanged. *)
Lemma as_u64_as_i64 v : is_u64 v → as_u64 (as_i64 v) = v.
Proof.
  unfold is_u64, as_u64, as_i64, u64_max, i64_max. intros.
  rewrite (Z.mod_small v) by lia. case_match.
  - apply Z.mod_small. lia.
  - symmetry. apply (Z.mod_unique _ _ (-1)); lia.
Qed.

(** ** SQL

    [NULL] makes a comparison neither true nor false; a [WHERE] clause and a
    [CASE WHEN] take a row only when it is true. *)

Definition tvl : Type := option bool.

Definition tand (a b : tvl) : tvl :=
  match a, b with
  | Some false, _ | _, Some false => Some false
  | Some true, Some true => Some true
  | _, _ => None
  end.

Definition tor (a b : tvl) : tvl :=
  match a, b with
  | Some true, _ | _, Some true => Some true
  | Some false, Some false => Some false
  | _, _ => None
  end.

Definition tnot (a : tvl) : tvl := negb <$> a.

Definition holds (a : tvl) : bool :=
  match a with Some b => b | None => false end.

Notation "a 'AND' b" := (tand a b) (at level 80, right associativity) : dipper_scope.
Notation "a 'OR' b" := (tor a b) (at level 85, right associativity) : dipper_scope.
Notation "'NOT' a" := (tnot a) (at level 75, right associativity) : dipper_scope.

Definition sql_lt (a b : option Z) : tvl :=
  match a, b with Some x, Some y => Some (x <? y) | _, _ => None end.
Definition sql_ge (a b : option Z) : tvl :=
  match a, b with Some x, Some y => Some (y <=? x) | _, _ => None end.
Definition sql_eq {A} `{EqDecision A} (a b : option A) : tvl :=
  match a, b with Some x, Some y => Some (bool_decide (x = y)) | _, _ => None end.
Definition sql_in {A} `{EqDecision A} (a : option A) (xs : list A) : tvl :=
  match a with Some x => Some (bool_decide (x ∈ xs)) | None => None end.

Definition is_null {A} (o : option A) : bool :=
  match o with Some _ => false | None => true end.
Definition coalesce {A} (a b : option A) : option A :=
  match a with Some _ => a | None => b end.

Lemma holds_tand a b : holds (tand a b) = holds a && holds b.
Proof. by destruct a as [[]|], b as [[]|]. Qed.

Lemma holds_tor a b : holds (tor a b) = holds a || holds b.
Proof. by destruct a as [[]|], b as [[]|]. Qed.

(** ** ORDER BY and LIMIT

    A sort key is a list of integers compared lexicographically, so one
    definition serves every [ORDER BY] of the queries; [nulls_first] is the
    key of a nullable column. *)

Fixpoint lex_leb (xs ys : list Z) : bool :=
  match xs, ys with
  | [], _ => true
  | _ :: _, [] => false
  | x :: xs', y :: ys' => (x <? y) || ((x =? y) && lex_leb xs' ys')
  end.

Definition nulls_first (o : option Z) : list Z :=
  match o with None => [0] | Some v => [1; v] end.

Section order_by.
Context {A : Type} (key : A → list Z).

Definition key_le (x y : A) : Prop := lex_leb (key x) (key y).

#[export] Instance key_le_dec : RelDecision key_le.
Proof. intros x y. unfold key_le. apply _. Defined.

Definition order_by (l : list A) : list A := merge_sort key_le l.
End order_by.

(** [LIMIT CASE WHEN n > 0 THEN n ELSE NULL END] *)
Definition limit_if_pos {A} (n : Z) (l : list A) : list A :=
  if 0 <? n then take (Z.to_nat n) l else l.

Lemma lex_leb_refl xs : lex_leb xs xs.
Proof. induction xs as [|x xs IH]; simpl; [done|]. rewrite Z.ltb_irrefl, Z.eqb_refl. done. Qed.

Lemma lex_leb_total xs ys : lex_leb xs ys ∨ lex_leb ys xs.
Proof.
  revert ys. induction xs as [|x xs IH]; intros [|y ys]; simpl; auto.
  destruct (Z.lt_trichotomy x y) as [H|[->|H]].
  - left. by rewrite (proj2 (Z.ltb_lt _ _) H).
  - rewrite Z.ltb_irrefl, Z.eqb_refl. simpl. apply IH.
  - right. by rewrite (proj2 (Z.ltb_lt _ _) H).
Qed.

Lemma lex_leb_trans xs ys zs : lex_leb xs ys → lex_leb ys zs → lex_leb xs zs.
Proof.
  revert ys zs. induction xs as [|x xs IH]; intros [|y ys] [|z zs]; simpl; try done.
  destruct (Z.ltb_spec x y), (Z.eqb_spec x y); try lia; simpl;
  destruct (Z.ltb_spec y z), (Z.eqb_spec y z); try lia; simpl; try done; intros.
  all: destruct (Z.ltb_spec x z), (Z.eqb_spec x z); try lia; simpl; eauto.
Qed.

#[export] Instance key_le_trans {A} (key : A → list Z) : Transitive (key_le key).
Proof. intros x y z. apply lex_leb_trans. Qed.
#[export] Instance key_le_total {A} (key : A → list Z) : Total (key_le key).
Proof. intros x y. apply lex_leb_total. Qed.

Section order_by_facts.
Context {A : Type} (key : A → list Z).

Lemma order_by_perm l : order_by key l ≡ₚ l.
Proof. apply merge_sort_Permutation. Qed.

Lemma order_by_sorted l : StronglySorted (key_le key) (order_by key l).
Proof. unfold order_by. apply StronglySorted_merge_sort; apply _. Qed.

Lemma elem_of_order_by l x : x ∈ order_by key l ↔ x ∈ l.
Proof. by rewrite order_by_perm. Qed.

Lemma limit_incl n (l : list A) x : x ∈ limit_if_pos n l → x ∈ l.
Proof.
  unfold limit_if_pos. case_match; [|done]. intros Hx.
  rewrite <-(take_drop (Z.to_nat n) l), elem_of_app. by left.
Qed.

(** What a limited, ordered query leaves out sorts after what it returns. *)
Lemma order_by_take_least n l x y :
  x ∈ take n (order_by key l) → y ∈ drop n (order_by key l) → key_le key x y.
Proof.
  intros Hx Hy. eapply (StronglySorted_app_1_elem_of (key_le key)); [|done..].
  rewrite take_drop. apply order_by_sorted.
Qed.

(** The head of an ordered query is a least element. *)
Lemma order_by_head_least l x xs y :
  order_by key l = x :: xs → y ∈ l → key_le key x y.
Proof.
  intros Hl Hy. rewrite <-elem_of_order_by, Hl, elem_of_cons in Hy.
  destruct Hy as [->|Hy]; [apply lex_leb_refl|].
  pose proof (order_by_sorted l) as Hs. rewrite Hl in Hs.
  apply StronglySorted_inv in Hs as [_ Hs]. by apply (Forall_forall _ _) with (x := y) in Hs.
Qed.
End order_by_facts.

Lemma StronglySorted_filter {A} (R : relation A) (P : A → Prop) `{!∀ x, Decision (P x)} l :
  StronglySorted R l → StronglySorted R (filter P l).
Proof.
  induction 1 as [|x l Hl IH Hx]; [constructor|].
  rewrite filter_cons. case_decide; [|done]. constructor; [done|].
  apply Forall_forall. intros y [_ Hy]%list_elem_of_filter.
  by eapply (proj1 (Forall_forall _ _) Hx).
Qed.

(** ** Tables

    A table is a finite map from its primary key to its rows. *)

Section table.
Context {R : Type} (p : R → bool).

(** The rows a [WHERE p] clause selects, in table order. *)
Definition select (m : gmap N R) : list R :=
  filter (λ r, p r = true) (map_to_list m).*2.

Lemma elem_of_select m r :
  r ∈ select m ↔ ∃ k, m !! k = Some r ∧ p r = true.
Proof.
  unfold select. rewrite list_elem_of_filter, list_elem_of_fmap. split.
  - intros [Hp ([k r'] & -> & Hk)]. exists k. split; [|done].
    by apply elem_of_map_to_list in Hk.
  - intros (k & Hk & Hp). split; [done|]. exists (k, r). split; [done|].
    by apply elem_of_map_to_list.
Qed.
End table.

Lemma select_fmap {R} (p : R → bool) (f : R → R) (m : gmap N R) :
  select p (f <$> m) = f <$> select (λ r, p (f r)) m.
Proof.
  unfold select. rewrite map_to_list_fmap.
  induction (map_to_list m) as [|[k r] l IH]; [done|]. csimpl. rewrite !filter_cons, IH.
  by case_decide.
Qed.

Lemma select_mapped {R} (p : R → bool) (f : R → R) (m : gmap N R) :
  (∀ r, p (f r) = p r) → select p (f <$> m) = f <$> select p m.
Proof.
  intros Hp. rewrite select_fmap. f_equal. apply list_filter_iff. intros r. by rewrite Hp.
Qed.

(** ** Filters *)

Lemma filter_all {A} (P : A → Prop) `{!∀ x, Decision (P x)} l : Forall P l → filter P l = l.
Proof.
  induction 1 as [|x l Hx _ IH]; [done|]. rewrite filter_cons, decide_True by done. by rewrite IH.
Qed.

Lemma filter_none {A} (P : A → Prop) `{!∀ x, Decision (P x)} l :
  Forall (λ x, ¬ P x) l → filter P l = [].
Proof. induction 1 as [|x l Hx _ IH]; [done|]. by rewrite filter_cons, decide_False. Qed.

(** Taking the first [n] of a list leaves the others. *)
Lemma filter_rest {A} (g : A → N) n (l : list A) :
  NoDup (g <$> l) →
  length (filter (λ x, g x ∉ g <$> take n l) l) = (length l - n)%nat.
Proof.
  intros Hn. trans (length (filter (λ x, g x ∉ g <$> take n l) (take n l ++ drop n l)));
    [by rewrite take_drop|]. rewrite filter_app.
  rewrite <-(take_drop n l), fmap_app in Hn. apply NoDup_app in Hn as (_ & Hd & _).
  rewrite (filter_none _ (take n l)), filter_all; [apply length_drop|..].
  - apply Forall_forall. intros x Hx Hin. by eapply Hd; [|apply list_elem_of_fmap_2].
  - apply Forall_forall. intros x Hx Hout. by apply Hout, list_elem_of_fmap_2.
Qed.

(** ** Tactics *)

(** Split the database statements and matches a run goes through. *)
Ltac run_step :=
  match goal with
  | H : (_, _) = (_, _) |- _ => injection H as H; simplify_eq
  | H : Ok _ = Ok _ |- _ => injection H as H; simplify_eq
  | H : Err _ = Err _ |- _ => injection H as H; simplify_eq
  | H : context [match ?x with _ => _ end] |- _ => destruct x eqn:?; simplify_eq/=
  end.
Ltac run := repeat (simplify_eq/=; run_step).
