(* ===== verification/Ids.v ===== *)
(** * Identifiers (dipper-core/src/ids.rs, dipper-pgregistry/src/postgres/common.rs)

    The on-chain agreement id: 16 bytes, printed as [0x] and 32 lower-case hex
    digits, parsed back from either case with or without the prefix.  Strings
    are modelled by their UTF-8 bytes, which is what the parser reads.

    The rest of the development uses an agreement id as the number [id_key]
    its bytes spell, most significant first: the map is one to one and keeps
    the order, so a finite map keyed by it and an [ORDER BY] on it say the
    same as one on the bytes. *)

From S2P Require Import Prelude.
Local Open Scope Z_scope.

Module Ids.

Definition is_byte (b : Z) : Prop := 0 ≤ b < 256.

(** [IndexingAgreementId([u8; 16])] *)
Definition agreement_id_wf (bytes : list Z) : Prop :=
  length bytes = 16%nat ∧ Forall is_byte bytes.

Inductive ParseAgreementIdError : Type :=
| ExpectedHexChars (got : Z)
| InvalidHexChar (c : Z).

(** Convert an ASCII hex character to its 4-bit value. *)
Definition hex_nibble (c : Z) : option Z :=
  if (48 <=? c) && (c <=? 57) then Some (c - 48)
  else if (97 <=? c) && (c <=? 102) then Some (c - 97 + 10)
  else if (65 <=? c) && (c <=? 70) then Some (c - 65 + 10)
  else None.

(** One lower-case hex digit, as [{:x}] prints it. *)
Definition hex_digit (n : Z) : Z := if n <? 10 then 48 + n else 97 + (n - 10).

(** [write!(f, "{byte:02x}")] *)
Definition byte_02x (b : Z) : list Z :=
  [hex_digit (Z.shiftr b 4); hex_digit (Z.land b 15)].

(** [impl Display for IndexingAgreementId] *)
Definition id_to_string (bytes : list Z) : list Z :=
  [48; 120] ++ flat_map byte_02x bytes.

(** [s.strip_prefix("0x").unwrap_or(s)] *)
Definition strip_0x (s : list Z) : list Z :=
  match s with
  | 48 :: 120 :: rest => rest
  | _ => s
  end.

(** The loop over [hex.as_bytes().chunks(2)]. *)
Fixpoint parse_chunks (hex : list Z) : result ParseAgreementIdError (list Z) :=
  match hex with
  | c0 :: c1 :: rest =>
      match hex_nibble c0 with
      | None => Err (InvalidHexChar c0)
      | Some hi =>
          match hex_nibble c1 with
          | None => Err (InvalidHexChar c1)
          | Some lo =>
              match parse_chunks rest with
              | Ok bytes => Ok (Z.lor (Z.shiftl hi 4) lo :: bytes)
              | Err e => Err e
              end
          end
      end
  | _ => Ok []
  end.

(** [impl FromStr for IndexingAgreementId] *)
Definition id_from_str (s : list Z) : result ParseAgreementIdError (list Z) :=
  let hex := strip_0x s in
  if bool_decide (length hex = 32%nat) then parse_chunks hex
  else Err (ExpectedHexChars (Z.of_nat (length hex))).

(** ASCII lower-casing of the hex letters, for the canonical form. *)
Definition lower (c : Z) : Z := if (65 <=? c) && (c <=? 70) then c + 32 else c.

(** [PgU64]: a [u64] stored as its 8 bytes, most significant first. *)
Fixpoint to_be_bytes (n : nat) (v : Z) : list Z :=
  match n with
  | O => []
  | S n' => Z.land (Z.shiftr v (8 * Z.of_nat n')) 255 :: to_be_bytes n' v
  end.

Fixpoint from_be_bytes (acc : Z) (bytes : list Z) : Z :=
  match bytes with
  | [] => acc
  | b :: rest => from_be_bytes (acc * 256 + b) rest
  end.

Definition pg_u64_encode (v : Z) : list Z := to_be_bytes 8 v.
Definition pg_u64_decode (bytes : list Z) : Z := from_be_bytes 0 bytes.

(** The number an id's bytes spell, most significant first. *)
Definition id_key (bytes : list Z) : Z := from_be_bytes 0 bytes.

(** ** Hex digits *)

Lemma lor_nibbles hi lo :
  0 ≤ lo < 16 → Z.lor (Z.shiftl hi 4) lo = hi * 16 + lo.
Proof.
  intros Hlo. pose proof (Z.add_lor_land (Z.shiftl hi 4) lo) as Hsum.
  assert (Z.land (Z.shiftl hi 4) lo = 0) as Hz.
  { apply Z.bits_inj'. intros n Hn. rewrite Z.land_spec, Z.bits_0.
    destruct (Z.lt_ge_cases n 4).
    - by rewrite Z.shiftl_spec_low by lia.
    - rewrite <-(Z.mod_small lo (2 ^ 4)) by lia.
      rewrite (Z.mod_pow2_bits_high lo 4 n) by lia. apply andb_false_r. }
  rewrite Z.shiftl_mul_pow2 in * by lia. change (2 ^ 4) with 16 in *. lia.
Qed.

Lemma byte_nibbles b :
  is_byte b → 0 ≤ Z.shiftr b 4 < 16 ∧ 0 ≤ Z.land b 15 < 16 ∧
  Z.lor (Z.shiftl (Z.shiftr b 4) 4) (Z.land b 15) = b.
Proof.
  unfold is_byte. intros Hb.
  change 15 with (Z.ones 4). rewrite Z.land_ones by lia.
  rewrite lor_nibbles by (apply Z.mod_pos_bound; lia).
  rewrite Z.shiftr_div_pow2 by lia. change (2 ^ 4) with 16.
  pose proof (Z.div_mod b 16). pose proof (Z.mod_pos_bound b 16).
  split_and!; lia.
Qed.

Lemma hex_nibble_digit n : 0 ≤ n < 16 → hex_nibble (hex_digit n) = Some n.
Proof.
  intros Hn. assert (n ∈ [0;1;2;3;4;5;6;7;8;9;10;11;12;13;14;15]) as Hin.
  { rewrite !elem_of_cons. lia. }
  repeat (apply elem_of_cons in Hin as [->|Hin]; [reflexivity|]). by apply not_elem_of_nil in Hin.
Qed.

Lemma hex_nibble_range c n : hex_nibble c = Some n → 0 ≤ n < 16.
Proof. unfold hex_nibble. repeat case_match; intros; simplify_eq; lia. Qed.

Lemma hex_digit_nibble c n : hex_nibble c = Some n → hex_digit n = lower c.
Proof.
  unfold hex_nibble, hex_digit, lower.
  destruct (Z.leb_spec 48 c), (Z.leb_spec c 57), (Z.leb_spec 97 c),
    (Z.leb_spec c 102), (Z.leb_spec 65 c), (Z.leb_spec c 70); simpl;
    intros; simplify_eq; case_match; lia.
Qed.

Lemma nibbles_of_byte hi lo :
  0 ≤ hi < 16 → 0 ≤ lo < 16 →
  is_byte (Z.lor (Z.shiftl hi 4) lo) ∧
  Z.shiftr (Z.lor (Z.shiftl hi 4) lo) 4 = hi ∧
  Z.land (Z.lor (Z.shiftl hi 4) lo) 15 = lo.
Proof.
  intros Hhi Hlo.
  rewrite lor_nibbles by lia.
  change 15 with (Z.ones 4). rewrite Z.land_ones, Z.shiftr_div_pow2 by lia.
  change (2 ^ 4) with 16. unfold is_byte. split_and!; try lia.
  - rewrite Z.div_add_l by lia. rewrite Z.div_small by lia. lia.
  - rewrite Z.add_comm, Z.mod_add by lia. apply Z.mod_small. lia.
Qed.

Lemma parse_chunks_print bytes :
  Forall is_byte bytes → parse_chunks (flat_map byte_02x bytes) = Ok bytes.
Proof.
  induction 1 as [|b bytes Hb _ IH]; [done|]. simpl.
  destruct (byte_nibbles b Hb) as (Hhi & Hlo & Heq).
  by rewrite !hex_nibble_digit, IH, Heq.
Qed.

Lemma parse_chunks_ok_inv n hex bytes :
  length hex = (2 * n)%nat → parse_chunks hex = Ok bytes →
  length bytes = n ∧ Forall is_byte bytes ∧ flat_map byte_02x bytes = map lower hex.
Proof.
  revert hex bytes. induction n as [|n IH]; intros hex bytes Hlen Hp.
  { destruct hex; simplify_eq/=. done. }
  destruct hex as [|c0 [|c1 rest]]; simpl in Hlen; try lia. simpl in Hp.
  destruct (hex_nibble c0) as [hi|] eqn:H0; [|done].
  destruct (hex_nibble c1) as [lo|] eqn:H1; [|done].
  destruct (parse_chunks rest) as [bs|] eqn:Hr; simplify_eq.
  destruct (IH rest bs) as (Hl & Hf & Hprint); [lia|done|].
  destruct (nibbles_of_byte hi lo) as (Hb & Hhi & Hlo);
    [by eapply hex_nibble_range..|].
  split_and!; [simpl; lia|by constructor|].
  simpl. rewrite Hhi, Hlo, Hprint. by rewrite (hex_digit_nibble _ _ H0), (hex_digit_nibble _ _ H1).
Qed.

(** ** Byte strings and numbers *)

Lemma from_be_bytes_app acc bs cs :
  from_be_bytes acc (bs ++ cs) = from_be_bytes (from_be_bytes acc bs) cs.
Proof. revert acc. induction bs; simpl; auto. Qed.

Lemma from_be_bytes_acc acc bs :
  from_be_bytes acc bs = acc * 256 ^ Z.of_nat (length bs) + from_be_bytes 0 bs.
Proof.
  revert acc. induction bs as [|b bs IH]; intros acc; cbn [from_be_bytes length]; [lia|].
  rewrite IH, (IH (0 * 256 + b)), Nat2Z.inj_succ, Z.pow_succ_r by lia. lia.
Qed.

Lemma from_be_bytes_range bs :
  Forall is_byte bs → 0 ≤ from_be_bytes 0 bs < 256 ^ Z.of_nat (length bs).
Proof.
  unfold is_byte. induction 1 as [|b bs Hb _ IH]; cbn [from_be_bytes length]; [lia|].
  rewrite from_be_bytes_acc, Nat2Z.inj_succ, Z.pow_succ_r by lia. nia.
Qed.

Lemma from_to_be_bytes n v :
  0 ≤ v → from_be_bytes 0 (to_be_bytes n v) = v mod 256 ^ Z.of_nat n.
Proof.
  intros Hv. induction n as [|n IH]; cbn [from_be_bytes to_be_bytes].
  { by rewrite Z.mod_1_r. }
  rewrite from_be_bytes_acc, IH.
  assert (∀ k v, length (to_be_bytes k v) = k) as ->.
  { intros k w. induction k; simpl; auto. }
  change 255 with (Z.ones 8). rewrite Z.land_ones, Z.shiftr_div_pow2 by lia.
  rewrite Z.pow_mul_r by lia. change (2 ^ 8) with 256.
  rewrite Nat2Z.inj_succ, Z.pow_succ_r by lia.
  rewrite (Z.mul_comm 256), Z.rem_mul_r by (try apply Z.pow_nonzero; lia). lia.
Qed.

Lemma to_be_bytes_byte n v : Forall is_byte (to_be_bytes n v).
Proof.
  induction n as [|n IH]; simpl; constructor; [|done].
  unfold is_byte. change 255 with (Z.ones 8).
  rewrite Z.land_ones by lia. apply Z.mod_pos_bound. lia.
Qed.

Lemma hex_nibble_lower c : hex_nibble (lower c) = hex_nibble c.
Proof.
  unfold lower. destruct ((65 <=? c) && (c <=? 70)) eqn:Hc; [|done].
  assert (c ∈ [65; 66; 67; 68; 69; 70]) as Hin by (rewrite !elem_of_cons; lia).
  repeat (apply elem_of_cons in Hin as [->|Hin]; [reflexivity|]). by apply not_elem_of_nil in Hin.
Qed.

Lemma parse_chunks_lower n hex bytes :
  length hex = (2 * n)%nat →
  parse_chunks (map lower hex) = Ok bytes → parse_chunks hex = Ok bytes.
Proof.
  revert hex bytes. induction n as [|n IH]; intros hex bytes Hlen.
  { by destruct hex. }
  destruct hex as [|c0 [|c1 hex]]; simpl in Hlen; try lia. simpl.
  rewrite !hex_nibble_lower. destruct (hex_nibble c0), (hex_nibble c1); try done.
  destruct (parse_chunks (map lower hex)) as [bs|] eqn:E; [|done].
  rewrite (IH hex bs) by (done || lia). done.
Qed.

Lemma flat_map_02x_length bytes : length (flat_map byte_02x bytes) = (2 * length bytes)%nat.
Proof. induction bytes as [|b bytes IH]; [done|]. simpl. rewrite IH. lia. Qed.

Lemma lower_hex_digit n : 0 ≤ n < 16 → lower (hex_digit n) = hex_digit n.
Proof. intros Hn. by rewrite <-(hex_digit_nibble _ _ (hex_nibble_digit n Hn)). Qed.

Lemma lower_printed bytes :
  Forall is_byte bytes → map lower (flat_map byte_02x bytes) = flat_map byte_02x bytes.
Proof.
  induction 1 as [|b bytes Hb _ IH]; [done|]. simpl.
  destruct (byte_nibbles b Hb) as (Hhi & Hlo & _).
  by rewrite !lower_hex_digit, IH.
Qed.

(** ** The properties of identifiers *)

Lemma id_from_str_iff s bytes :
  id_from_str s = Ok bytes ↔
  agreement_id_wf bytes ∧ id_to_string bytes = [48; 120] ++ map lower (strip_0x s).
Proof.
  unfold id_from_str, id_to_string, agreement_id_wf. split.
  - case_bool_decide as Hlen; [|done]. intros Hp.
    destruct (parse_chunks_ok_inv 16 _ _ Hlen Hp) as (? & ? & ->). done.
  - intros [[Hlen Hb] Heq]. apply (app_inv_head [48; 120]) in Heq.
    assert (length (strip_0x s) = 32%nat) as Hs.
    { rewrite <-(length_map lower), <-Heq, flat_map_02x_length. lia. }
    rewrite bool_decide_eq_true_2 by done. apply (parse_chunks_lower 16); [done|].
    rewrite <-Heq. by apply parse_chunks_print.
Qed.

(** C40: [from_str] accepts exactly the spellings of 16 bytes: 32 hex digits in
    either case, with or without the [0x] prefix, and what it returns prints as
    the lower-case spelling of its input. *)
Theorem id_from_str_exact s bytes :
  id_from_str s = Ok bytes ↔
  agreement_id_wf bytes ∧ id_to_string bytes = [48; 120] ++ map lower (strip_0x s).
Proof. apply id_from_str_iff. Qed.

(** Printing an id and parsing it back gives the id. *)
Theorem id_print_parse bytes :
  agreement_id_wf bytes → id_from_str (id_to_string bytes) = Ok bytes.
Proof.
  intros Hwf. apply id_from_str_iff. split; [done|].
  unfold id_to_string at 2. simpl. destruct Hwf as [_ Hb]. by rewrite lower_printed.
Qed.

(** On 16-byte ids, numeric order of [id_key] is the byte order Postgres
    and Rust sort by, so distinct ids have distinct keys. *)
Theorem id_key_order a b :
  agreement_id_wf a → agreement_id_wf b →
  (id_key a ≤ id_key b ↔ lex_leb a b = true) ∧ (id_key a = id_key b ↔ a = b).
Proof.
  unfold agreement_id_wf, id_key. intros [Ha Hfa] [Hb Hfb].
  assert (length a = length b) as Hlen by congruence. clear Ha Hb.
  revert b Hlen Hfb. induction Hfa as [|x a Hx Hfa IH]; intros [|y b] Hlen Hfb; try done.
  apply Forall_cons in Hfb as [Hy Hfb]. injection Hlen as Hlen.
  destruct (IH b Hlen Hfb) as [IHle IHeq]. cbn [from_be_bytes lex_leb].
  rewrite (from_be_bytes_acc (0 * 256 + x)), (from_be_bytes_acc (0 * 256 + y)), <-Hlen.
  pose proof (from_be_bytes_range a Hfa). pose proof (from_be_bytes_range b Hfb) as Hrb.
  rewrite <-Hlen in Hrb. set (P := 256 ^ _) in *.
  destruct (Z.lt_trichotomy x y) as [Hxy|[->|Hxy]].
  - rewrite (proj2 (Z.ltb_lt _ _) Hxy). simpl. split; [naive_solver nia|].
    split; [nia|]. intros [= -> _]. lia.
  - rewrite Z.ltb_irrefl, Z.eqb_refl. simpl. rewrite <-IHle. split; [lia|].
    split; [intros; f_equal; apply IHeq; lia|]. intros [= ->]. done.
  - rewrite (proj2 (Z.ltb_ge _ _)), (proj2 (Z.eqb_neq _ _)) by lia. simpl.
    split; [split; [nia|done]|]. split; [nia|]. intros [= -> _]. lia.
Qed.

(** A [u64] survives being stored in its 8-byte column. *)
Theorem pg_u64_roundtrip v :
  is_u64 v → pg_u64_decode (pg_u64_encode v) = v.
Proof.
  unfold is_u64, u64_max, pg_u64_decode, pg_u64_encode. intros Hv.
  rewrite from_to_be_bytes by lia. apply Z.mod_small. change (256 ^ Z.of_nat 8) with 18446744073709551616. lia.
Qed.

(** ** Witnesses *)

Definition sample_id : list Z :=
  [1; 35; 69; 103; 137; 171; 205; 239; 254; 220; 186; 152; 118; 84; 50; 16].

Lemma sample_id_wf : agreement_id_wf sample_id.
Proof. split; [done|]. repeat constructor; done. Qed.

Lemma id_print_parse_witness :
  agreement_id_wf sample_id ∧ id_from_str (id_to_string sample_id) = Ok sample_id.
Proof. split; [apply sample_id_wf|]. apply id_print_parse, sample_id_wf. Defined.

Lemma id_key_order_witness :
  id_key sample_id ≤ id_key (rev sample_id) ↔ lex_leb sample_id (rev sample_id) = true.
Proof.
  apply (id_key_order sample_id (rev sample_id)); [apply sample_id_wf|].
  split; [done|]. repeat constructor; done.
Defined.

Lemma pg_u64_roundtrip_witness :
  pg_u64_encode 42161 = [0; 0; 0; 0; 0; 0; 164; 177] ∧
  pg_u64_decode (pg_u64_encode 42161) = 42161.
Proof. split; [reflexivity|]. apply pg_u64_roundtrip. unfold is_u64, u64_max. lia. Defined.

End Ids.
