(* ===== verification/Schema.v ===== *)
(** * Tables and statements of the registry (dipper-pgregistry)

    The domain types of [indexing_agreement.rs] and [indexing_request.rs], the
    tables the migrations build with their indexes and constraints, and the
    SQL statements the registry's operations are made of.

    Times are microseconds since the epoch, as Postgres stores them; [now()]
    is the time the statement's transaction started, an argument of every
    operation that reads it, and the session runs in UTC, which is what
    [timezone('UTC', now())] stored in a [TIMESTAMPTZ] column assumes.
    Chain times ([accepted_at], [deadline], ...) are seconds.  Identifiers
    (ids, addresses, deployments) are numbers compared as their bytes are. *)

From S2P Require Import Prelude.
Local Open Scope Z_scope.

Module Schema.

(** ** Statuses *)

Inductive AgreementStatus : Type :=
| Created
| Unresponsive
| CanceledByRequester
| CanceledByIndexer
| Expired
| AcceptedOnChain
| Rejected
| AbandonedByIndexer
| Cancelling
| UnknownStatus.

#[export] Instance AgreementStatus_eq_dec : EqDecision AgreementStatus.
Proof. solve_decision. Defined.

(** [#[repr(i32)]] *)
Definition agreement_status_code (s : AgreementStatus) : Z :=
  match s with
  | Created => -1
  | Unresponsive => 1
  | CanceledByRequester => 3
  | CanceledByIndexer => 4
  | Expired => 5
  | AcceptedOnChain => 6
  | Rejected => 7
  | AbandonedByIndexer => 8
  | Cancelling => 9
  | UnknownStatus => i32_max
  end.

(** [impl From<i32> for Status]: [FromPrimitive::from_i32(..).unwrap_or(Unknown)] *)
Definition agreement_status_of_code (c : Z) : AgreementStatus :=
  if c =? -1 then Created else if c =? 1 then Unresponsive
  else if c =? 3 then CanceledByRequester else if c =? 4 then CanceledByIndexer
  else if c =? 5 then Expired else if c =? 6 then AcceptedOnChain
  else if c =? 7 then Rejected else if c =? 8 then AbandonedByIndexer
  else if c =? 9 then Cancelling else UnknownStatus.

Inductive RequestStatus : Type := Open | Canceled | UnknownRequestStatus.

#[export] Instance RequestStatus_eq_dec : EqDecision RequestStatus.
Proof. solve_decision. Defined.

Definition request_status_code (s : RequestStatus) : Z :=
  match s with Open => 0 | Canceled => 1 | UnknownRequestStatus => i32_max end.

(** [mod rejection_reason] *)
Definition PRICE_TOO_LOW : string := "PRICE_TOO_LOW".
Definition DEADLINE_EXPIRED : string := "DEADLINE_EXPIRED".
Definition SUBGRAPH_MANIFEST_UNAVAILABLE : string := "SUBGRAPH_MANIFEST_UNAVAILABLE".
Definition UNSUPPORTED_NETWORK : string := "UNSUPPORTED_NETWORK".
Definition UNEXPECTED_SERVICE_PROVIDER : string := "UNEXPECTED_SERVICE_PROVIDER".
Definition AGREEMENT_EXPIRED : string := "AGREEMENT_EXPIRED".
Definition UNSUPPORTED_METADATA_VERSION : string := "UNSUPPORTED_METADATA_VERSION".
Definition INVALID_SIGNATURE : string := "INVALID_SIGNATURE".
Definition SENDER_NOT_TRUSTED : string := "SENDER_NOT_TRUSTED".
Definition CAPACITY_EXCEEDED : string := "CAPACITY_EXCEEDED".
Definition MANIFEST_TOO_LARGE : string := "MANIFEST_TOO_LARGE".
Definition REPLAY_DETECTED : string := "REPLAY_DETECTED".
Definition INSUFFICIENT_ESCROW : string := "INSUFFICIENT_ESCROW".
Definition INDEXER_UNAVAILABLE : string := "INDEXER_UNAVAILABLE".
Definition UNSPECIFIED : string := "UNSPECIFIED".

(** ** Rows *)

(** [TermsMetadata]; [deployment] is [subgraph_deployment_id]. *)
Record TermsMetadata : Type := mkMetadata {
  tm_tokens_per_second : Z;
  tm_tokens_per_entity_per_second : Z;
  tm_deployment : N;
  tm_protocol_network : Z;
  tm_chain_id : Z;
  tm_proposed_at : Z }.

(** [Terms], the JSON of the [terms] column. *)
Record Terms : Type := mkTerms {
  t_payer : N;
  t_service_provider : N;
  t_data_service : N;
  t_deadline : Z;
  t_ends_at : Z;
  t_max_initial_tokens : Z;
  t_max_ongoing_tokens_per_second : Z;
  t_min_seconds_per_collection : Z;
  t_max_seconds_per_collection : Z;
  t_conditions : Z;
  t_metadata : TermsMetadata }.

(** A row of [dipper_reg_indexing_requests]. *)
Record RequestRow : Type := mkRequest {
  rq_id : N;
  rq_created_at : Z;
  rq_updated_at : Z;
  rq_status : RequestStatus;
  rq_requested_by : N;
  rq_deployment : N;
  rq_chain_id : Z;
  rq_num_candidates : Z;
  rq_shortfall_active : bool }.

(** A row of [dipper_reg_indexing_agreements]. *)
Record AgreementRow : Type := mkAgreement {
  ag_id : N;
  ag_nonce_uuid : N;
  ag_created_at : Z;
  ag_updated_at : Z;
  ag_status : AgreementStatus;
  ag_request : N;
  ag_deployment : N;
  ag_indexer : N;
  ag_indexer_url : string;
  ag_terms : Terms;
  ag_last_block_height : option Z;
  ag_last_progress_at : option Z;
  ag_rejection_reason : option string;
  ag_offer_tx_hash : option N;
  ag_terms_version_hash : option (list Z);
  ag_accepted_at : option Z;
  ag_accepted_tx : option string;
  ag_canceled_at : option Z;
  ag_canceled_by : option string;
  ag_canceled_tx : option string;
  ag_accepted_event_emitted_at : option Z;
  ag_terminated_event_emitted_at : option Z;
  ag_expired_event_emitted_at : option Z;
  ag_cancel_attempts : Z;
  ag_cancel_checked_at : option Z;
  ag_ended_seen_at : option Z;
  ag_abandoned : bool;
  ag_replacement_pending : bool }.

Definition set_updated_at (v : Z) (r : AgreementRow) : AgreementRow :=
  mkAgreement
    (ag_id r) (ag_nonce_uuid r) (ag_created_at r) v (ag_status r) (ag_request r)
    (ag_deployment r) (ag_indexer r) (ag_indexer_url r) (ag_terms r) (ag_last_block_height
    r) (ag_last_progress_at r) (ag_rejection_reason r) (ag_offer_tx_hash r)
    (ag_terms_version_hash r) (ag_accepted_at r) (ag_accepted_tx r) (ag_canceled_at r)
    (ag_canceled_by r) (ag_canceled_tx r) (ag_accepted_event_emitted_at r)
    (ag_terminated_event_emitted_at r) (ag_expired_event_emitted_at r) (ag_cancel_attempts
    r) (ag_cancel_checked_at r) (ag_ended_seen_at r) (ag_abandoned r)
    (ag_replacement_pending r).

Definition set_status (v : AgreementStatus) (r : AgreementRow) : AgreementRow :=
  mkAgreement
    (ag_id r) (ag_nonce_uuid r) (ag_created_at r) (ag_updated_at r) v (ag_request r)
    (ag_deployment r) (ag_indexer r) (ag_indexer_url r) (ag_terms r) (ag_last_block_height
    r) (ag_last_progress_at r) (ag_rejection_reason r) (ag_offer_tx_hash r)
    (ag_terms_version_hash r) (ag_accepted_at r) (ag_accepted_tx r) (ag_canceled_at r)
    (ag_canceled_by r) (ag_canceled_tx r) (ag_accepted_event_emitted_at r)
    (ag_terminated_event_emitted_at r) (ag_expired_event_emitted_at r) (ag_cancel_attempts
    r) (ag_cancel_checked_at r) (ag_ended_seen_at r) (ag_abandoned r)
    (ag_replacement_pending r).

Definition set_last_block_height (v : option Z) (r : AgreementRow) : AgreementRow :=
  mkAgreement
    (ag_id r) (ag_nonce_uuid r) (ag_created_at r) (ag_updated_at r) (ag_status r)
    (ag_request r) (ag_deployment r) (ag_indexer r) (ag_indexer_url r) (ag_terms r) v
    (ag_last_progress_at r) (ag_rejection_reason r) (ag_offer_tx_hash r)
    (ag_terms_version_hash r) (ag_accepted_at r) (ag_accepted_tx r) (ag_canceled_at r)
    (ag_canceled_by r) (ag_canceled_tx r) (ag_accepted_event_emitted_at r)
    (ag_terminated_event_emitted_at r) (ag_expired_event_emitted_at r) (ag_cancel_attempts
    r) (ag_cancel_checked_at r) (ag_ended_seen_at r) (ag_abandoned r)
    (ag_replacement_pending r).

Definition set_last_progress_at (v : option Z) (r : AgreementRow) : AgreementRow :=
  mkAgreement
    (ag_id r) (ag_nonce_uuid r) (ag_created_at r) (ag_updated_at r) (ag_status r)
    (ag_request r) (ag_deployment r) (ag_indexer r) (ag_indexer_url r) (ag_terms r)
    (ag_last_block_height r) v (ag_rejection_reason r) (ag_offer_tx_hash r)
    (ag_terms_version_hash r) (ag_accepted_at r) (ag_accepted_tx r) (ag_canceled_at r)
    (ag_canceled_by r) (ag_canceled_tx r) (ag_accepted_event_emitted_at r)
    (ag_terminated_event_emitted_at r) (ag_expired_event_emitted_at r) (ag_cancel_attempts
    r) (ag_cancel_checked_at r) (ag_ended_seen_at r) (ag_abandoned r)
    (ag_replacement_pending r).

Definition set_rejection_reason (v : option string) (r : AgreementRow) : AgreementRow :=
  mkAgreement
    (ag_id r) (ag_nonce_uuid r) (ag_created_at r) (ag_updated_at r) (ag_status r)
    (ag_request r) (ag_deployment r) (ag_indexer r) (ag_indexer_url r) (ag_terms r)
    (ag_last_block_height r) (ag_last_progress_at r) v (ag_offer_tx_hash r)
    (ag_terms_version_hash r) (ag_accepted_at r) (ag_accepted_tx r) (ag_canceled_at r)
    (ag_canceled_by r) (ag_canceled_tx r) (ag_accepted_event_emitted_at r)
    (ag_terminated_event_emitted_at r) (ag_expired_event_emitted_at r) (ag_cancel_attempts
    r) (ag_cancel_checked_at r) (ag_ended_seen_at r) (ag_abandoned r)
    (ag_replacement_pending r).

Definition set_offer_tx_hash (v : option N) (r : AgreementRow) : AgreementRow :=
  mkAgreement
    (ag_id r) (ag_nonce_uuid r) (ag_created_at r) (ag_updated_at r) (ag_status r)
    (ag_request r) (ag_deployment r) (ag_indexer r) (ag_indexer_url r) (ag_terms r)
    (ag_last_block_height r) (ag_last_progress_at r) (ag_rejection_reason r) v
    (ag_terms_version_hash r) (ag_accepted_at r) (ag_accepted_tx r) (ag_canceled_at r)
    (ag_canceled_by r) (ag_canceled_tx r) (ag_accepted_event_emitted_at r)
    (ag_terminated_event_emitted_at r) (ag_expired_event_emitted_at r) (ag_cancel_attempts
    r) (ag_cancel_checked_at r) (ag_ended_seen_at r) (ag_abandoned r)
    (ag_replacement_pending r).

Definition set_accepted_at (v : option Z) (r : AgreementRow) : AgreementRow :=
  mkAgreement
    (ag_id r) (ag_nonce_uuid r) (ag_created_at r) (ag_updated_at r) (ag_status r)
    (ag_request r) (ag_deployment r) (ag_indexer r) (ag_indexer_url r) (ag_terms r)
    (ag_last_block_height r) (ag_last_progress_at r) (ag_rejection_reason r)
    (ag_offer_tx_hash r) (ag_terms_version_hash r) v (ag_accepted_tx r) (ag_canceled_at r)
    (ag_canceled_by r) (ag_canceled_tx r) (ag_accepted_event_emitted_at r)
    (ag_terminated_event_emitted_at r) (ag_expired_event_emitted_at r) (ag_cancel_attempts
    r) (ag_cancel_checked_at r) (ag_ended_seen_at r) (ag_abandoned r)
    (ag_replacement_pending r).

Definition set_accepted_tx (v : option string) (r : AgreementRow) : AgreementRow :=
  mkAgreement
    (ag_id r) (ag_nonce_uuid r) (ag_created_at r) (ag_updated_at r) (ag_status r)
    (ag_request r) (ag_deployment r) (ag_indexer r) (ag_indexer_url r) (ag_terms r)
    (ag_last_block_height r) (ag_last_progress_at r) (ag_rejection_reason r)
    (ag_offer_tx_hash r) (ag_terms_version_hash r) (ag_accepted_at r) v (ag_canceled_at r)
    (ag_canceled_by r) (ag_canceled_tx r) (ag_accepted_event_emitted_at r)
    (ag_terminated_event_emitted_at r) (ag_expired_event_emitted_at r) (ag_cancel_attempts
    r) (ag_cancel_checked_at r) (ag_ended_seen_at r) (ag_abandoned r)
    (ag_replacement_pending r).

Definition set_canceled_at (v : option Z) (r : AgreementRow) : AgreementRow :=
  mkAgreement
    (ag_id r) (ag_nonce_uuid r) (ag_created_at r) (ag_updated_at r) (ag_status r)
    (ag_request r) (ag_deployment r) (ag_indexer r) (ag_indexer_url r) (ag_terms r)
    (ag_last_block_height r) (ag_last_progress_at r) (ag_rejection_reason r)
    (ag_offer_tx_hash r) (ag_terms_version_hash r) (ag_accepted_at r) (ag_accepted_tx r) v
    (ag_canceled_by r) (ag_canceled_tx r) (ag_accepted_event_emitted_at r)
    (ag_terminated_event_emitted_at r) (ag_expired_event_emitted_at r) (ag_cancel_attempts
    r) (ag_cancel_checked_at r) (ag_ended_seen_at r) (ag_abandoned r)
    (ag_replacement_pending r).

Definition set_canceled_by (v : option string) (r : AgreementRow) : AgreementRow :=
  mkAgreement
    (ag_id r) (ag_nonce_uuid r) (ag_created_at r) (ag_updated_at r) (ag_status r)
    (ag_request r) (ag_deployment r) (ag_indexer r) (ag_indexer_url r) (ag_terms r)
    (ag_last_block_height r) (ag_last_progress_at r) (ag_rejection_reason r)
    (ag_offer_tx_hash r) (ag_terms_version_hash r) (ag_accepted_at r) (ag_accepted_tx r)
    (ag_canceled_at r) v (ag_canceled_tx r) (ag_accepted_event_emitted_at r)
    (ag_terminated_event_emitted_at r) (ag_expired_event_emitted_at r) (ag_cancel_attempts
    r) (ag_cancel_checked_at r) (ag_ended_seen_at r) (ag_abandoned r)
    (ag_replacement_pending r).

Definition set_canceled_tx (v : option string) (r : AgreementRow) : AgreementRow :=
  mkAgreement
    (ag_id r) (ag_nonce_uuid r) (ag_created_at r) (ag_updated_at r) (ag_status r)
    (ag_request r) (ag_deployment r) (ag_indexer r) (ag_indexer_url r) (ag_terms r)
    (ag_last_block_height r) (ag_last_progress_at r) (ag_rejection_reason r)
    (ag_offer_tx_hash r) (ag_terms_version_hash r) (ag_accepted_at r) (ag_accepted_tx r)
    (ag_canceled_at r) (ag_canceled_by r) v (ag_accepted_event_emitted_at r)
    (ag_terminated_event_emitted_at r) (ag_expired_event_emitted_at r) (ag_cancel_attempts
    r) (ag_cancel_checked_at r) (ag_ended_seen_at r) (ag_abandoned r)
    (ag_replacement_pending r).

Definition set_accepted_event_emitted_at (v : option Z) (r : AgreementRow) : AgreementRow :=
  mkAgreement
    (ag_id r) (ag_nonce_uuid r) (ag_created_at r) (ag_updated_at r) (ag_status r)
    (ag_request r) (ag_deployment r) (ag_indexer r) (ag_indexer_url r) (ag_terms r)
    (ag_last_block_height r) (ag_last_progress_at r) (ag_rejection_reason r)
    (ag_offer_tx_hash r) (ag_terms_version_hash r) (ag_accepted_at r) (ag_accepted_tx r)
    (ag_canceled_at r) (ag_canceled_by r) (ag_canceled_tx r) v
    (ag_terminated_event_emitted_at r) (ag_expired_event_emitted_at r) (ag_cancel_attempts
    r) (ag_cancel_checked_at r) (ag_ended_seen_at r) (ag_abandoned r)
    (ag_replacement_pending r).

Definition set_terminated_event_emitted_at (v : option Z) (r : AgreementRow) : AgreementRow :=
  mkAgreement
    (ag_id r) (ag_nonce_uuid r) (ag_created_at r) (ag_updated_at r) (ag_status r)
    (ag_request r) (ag_deployment r) (ag_indexer r) (ag_indexer_url r) (ag_terms r)
    (ag_last_block_height r) (ag_last_progress_at r) (ag_rejection_reason r)
    (ag_offer_tx_hash r) (ag_terms_version_hash r) (ag_accepted_at r) (ag_accepted_tx r)
    (ag_canceled_at r) (ag_canceled_by r) (ag_canceled_tx r) (ag_accepted_event_emitted_at
    r) v (ag_expired_event_emitted_at r) (ag_cancel_attempts r) (ag_cancel_checked_at r)
    (ag_ended_seen_at r) (ag_abandoned r) (ag_replacement_pending r).

Definition set_expired_event_emitted_at (v : option Z) (r : AgreementRow) : AgreementRow :=
  mkAgreement
    (ag_id r) (ag_nonce_uuid r) (ag_created_at r) (ag_updated_at r) (ag_status r)
    (ag_request r) (ag_deployment r) (ag_indexer r) (ag_indexer_url r) (ag_terms r)
    (ag_last_block_height r) (ag_last_progress_at r) (ag_rejection_reason r)
    (ag_offer_tx_hash r) (ag_terms_version_hash r) (ag_accepted_at r) (ag_accepted_tx r)
    (ag_canceled_at r) (ag_canceled_by r) (ag_canceled_tx r) (ag_accepted_event_emitted_at
    r) (ag_terminated_event_emitted_at r) v (ag_cancel_attempts r) (ag_cancel_checked_at r)
    (ag_ended_seen_at r) (ag_abandoned r) (ag_replacement_pending r).

Definition set_cancel_attempts (v : Z) (r : AgreementRow) : AgreementRow :=
  mkAgreement
    (ag_id r) (ag_nonce_uuid r) (ag_created_at r) (ag_updated_at r) (ag_status r)
    (ag_request r) (ag_deployment r) (ag_indexer r) (ag_indexer_url r) (ag_terms r)
    (ag_last_block_height r) (ag_last_progress_at r) (ag_rejection_reason r)
    (ag_offer_tx_hash r) (ag_terms_version_hash r) (ag_accepted_at r) (ag_accepted_tx r)
    (ag_canceled_at r) (ag_canceled_by r) (ag_canceled_tx r) (ag_accepted_event_emitted_at
    r) (ag_terminated_event_emitted_at r) (ag_expired_event_emitted_at r) v
    (ag_cancel_checked_at r) (ag_ended_seen_at r) (ag_abandoned r) (ag_replacement_pending
    r).

Definition set_cancel_checked_at (v : option Z) (r : AgreementRow) : AgreementRow :=
  mkAgreement
    (ag_id r) (ag_nonce_uuid r) (ag_created_at r) (ag_updated_at r) (ag_status r)
    (ag_request r) (ag_deployment r) (ag_indexer r) (ag_indexer_url r) (ag_terms r)
    (ag_last_block_height r) (ag_last_progress_at r) (ag_rejection_reason r)
    (ag_offer_tx_hash r) (ag_terms_version_hash r) (ag_accepted_at r) (ag_accepted_tx r)
    (ag_canceled_at r) (ag_canceled_by r) (ag_canceled_tx r) (ag_accepted_event_emitted_at
    r) (ag_terminated_event_emitted_at r) (ag_expired_event_emitted_at r)
    (ag_cancel_attempts r) v (ag_ended_seen_at r) (ag_abandoned r) (ag_replacement_pending
    r).

Definition set_ended_seen_at (v : option Z) (r : AgreementRow) : AgreementRow :=
  mkAgreement
    (ag_id r) (ag_nonce_uuid r) (ag_created_at r) (ag_updated_at r) (ag_status r)
    (ag_request r) (ag_deployment r) (ag_indexer r) (ag_indexer_url r) (ag_terms r)
    (ag_last_block_height r) (ag_last_progress_at r) (ag_rejection_reason r)
    (ag_offer_tx_hash r) (ag_terms_version_hash r) (ag_accepted_at r) (ag_accepted_tx r)
    (ag_canceled_at r) (ag_canceled_by r) (ag_canceled_tx r) (ag_accepted_event_emitted_at
    r) (ag_terminated_event_emitted_at r) (ag_expired_event_emitted_at r)
    (ag_cancel_attempts r) (ag_cancel_checked_at r) v (ag_abandoned r)
    (ag_replacement_pending r).

Definition set_abandoned (v : bool) (r : AgreementRow) : AgreementRow :=
  mkAgreement
    (ag_id r) (ag_nonce_uuid r) (ag_created_at r) (ag_updated_at r) (ag_status r)
    (ag_request r) (ag_deployment r) (ag_indexer r) (ag_indexer_url r) (ag_terms r)
    (ag_last_block_height r) (ag_last_progress_at r) (ag_rejection_reason r)
    (ag_offer_tx_hash r) (ag_terms_version_hash r) (ag_accepted_at r) (ag_accepted_tx r)
    (ag_canceled_at r) (ag_canceled_by r) (ag_canceled_tx r) (ag_accepted_event_emitted_at
    r) (ag_terminated_event_emitted_at r) (ag_expired_event_emitted_at r)
    (ag_cancel_attempts r) (ag_cancel_checked_at r) (ag_ended_seen_at r) v
    (ag_replacement_pending r).

Definition set_replacement_pending (v : bool) (r : AgreementRow) : AgreementRow :=
  mkAgreement
    (ag_id r) (ag_nonce_uuid r) (ag_created_at r) (ag_updated_at r) (ag_status r)
    (ag_request r) (ag_deployment r) (ag_indexer r) (ag_indexer_url r) (ag_terms r)
    (ag_last_block_height r) (ag_last_progress_at r) (ag_rejection_reason r)
    (ag_offer_tx_hash r) (ag_terms_version_hash r) (ag_accepted_at r) (ag_accepted_tx r)
    (ag_canceled_at r) (ag_canceled_by r) (ag_canceled_tx r) (ag_accepted_event_emitted_at
    r) (ag_terminated_event_emitted_at r) (ag_expired_event_emitted_at r)
    (ag_cancel_attempts r) (ag_cancel_checked_at r) (ag_ended_seen_at r) (ag_abandoned r) v.

(** A row of [dipper_indexer_denylist], of
    [dipper_indexer_dips_info_missing] and of [dipper_chain_listener_state]. *)
Record DenyRow : Type := mkDeny { dn_expires_at : option Z }.

Record DipsInfoRow : Type := mkDipsInfo {
  di_missing_secs : Z;
  di_updated_at : Z;
  di_blocked_until : option Z }.

Record ListenerRow : Type := mkListener {
  ls_last_processed_block : Z;
  ls_last_processed_id : option N;
  ls_last_processed_block_timestamp : option Z }.

(** The registry's database. *)
Record Db : Type := mkDb {
  requests : gmap N RequestRow;
  agreements : gmap N AgreementRow;
  pending : gset (N * N);
  denylist : gmap N DenyRow;
  dips_missing : gmap N DipsInfoRow;
  listener : gmap Z ListenerRow }.

Definition empty_db : Db := mkDb ∅ ∅ ∅ ∅ ∅ ∅.

Definition set_requests (m : gmap N RequestRow) (d : Db) : Db :=
  mkDb m (agreements d) (pending d) (denylist d) (dips_missing d) (listener d).
Definition set_agreements (m : gmap N AgreementRow) (d : Db) : Db :=
  mkDb (requests d) m (pending d) (denylist d) (dips_missing d) (listener d).
Definition set_pending (p : gset (N * N)) (d : Db) : Db :=
  mkDb (requests d) (agreements d) p (denylist d) (dips_missing d) (listener d).
Definition set_dips_missing (m : gmap N DipsInfoRow) (d : Db) : Db :=
  mkDb (requests d) (agreements d) (pending d) (denylist d) m (listener d).
Definition set_listener (m : gmap Z ListenerRow) (d : Db) : Db :=
  mkDb (requests d) (agreements d) (pending d) (denylist d) (dips_missing d) m.

(** ** Errors *)

Inductive DbErrorKind : Type :=
| UniqueViolation
| ForeignKeyViolation
| CheckViolation
| NumericOutOfRange
| CardinalityViolation
| InvalidLimit
| ConnectionLost.

(** [dipper_pgregistry::Error] *)
Inductive Error : Type :=
| NoRecordsUpdated
| DbError (kind : DbErrorKind).

#[export] Instance DbErrorKind_eq_dec : EqDecision DbErrorKind.
Proof. solve_decision. Defined.
#[export] Instance Error_eq_dec : EqDecision Error.
Proof. solve_decision. Defined.

Notation DbM := (SE Db Error).

(** ** Indexes

    The partial unique indexes, with the status codes the migrations write:
    one active agreement per indexer and deployment, one open request per
    requester, deployment and chain. *)

Definition active (r : AgreementRow) : bool :=
  bool_decide (agreement_status_code (ag_status r) ∈ [-1; 6]).

Definition same_slot (r1 r2 : AgreementRow) : Prop :=
  ag_indexer r1 = ag_indexer r2 ∧ ag_deployment r1 = ag_deployment r2.

Definition unique_active (m : gmap N AgreementRow) : Prop :=
  map_Forall (λ i r1, map_Forall (λ j r2,
    active r1 = true → active r2 = true → same_slot r1 r2 → i = j) m) m.

Definition same_request_key (r1 r2 : RequestRow) : Prop :=
  rq_requested_by r1 = rq_requested_by r2 ∧ rq_deployment r1 = rq_deployment r2 ∧
  rq_chain_id r1 = rq_chain_id r2.

Definition is_open_request (r : RequestRow) : bool :=
  bool_decide (request_status_code (rq_status r) = 0).

Definition unique_open (m : gmap N RequestRow) : Prop :=
  map_Forall (λ i r1, map_Forall (λ j r2,
    is_open_request r1 = true → is_open_request r2 = true →
    same_request_key r1 r2 → i = j) m) m.

#[export] Instance unique_active_dec m : Decision (unique_active m).
Proof. unfold unique_active, same_slot. apply _. Defined.
#[export] Instance unique_open_dec m : Decision (unique_open m).
Proof. unfold unique_open, same_request_key. apply _. Defined.

(** [CAST(terms->>'deadline' AS bigint)], also the key of the index on
    [Created] rows: a deadline too large for it fails the statement. *)
Definition deadline_fits (r : AgreementRow) : bool :=
  t_deadline (ag_terms r) <=? i64_max.

(** ** Statements *)

(** Write the agreements table; the unique index refuses the statement. *)
Definition write_agreements (m : gmap N AgreementRow) : DbM () := λ d,
  if decide (unique_active m) then (Ok tt, set_agreements m d)
  else (Err (DbError UniqueViolation), d).

(** [UPDATE .. SET f WHERE id = $1 AND p RETURNING ..] *)
Definition update_one (id : N) (p : AgreementRow → bool)
    (f : AgreementRow → AgreementRow) : DbM (option AgreementRow) :=
  d ← get;
  match agreements d !! id with
  | Some r =>
      if p r then
        _ ← write_agreements (<[id := f r]> (agreements d)); mret (Some (f r))
      else mret None
  | None => mret None
  end.

(** [UPDATE .. SET f WHERE id = ANY($1) AND p RETURNING id] *)
Definition update_many (ids : list N) (p : AgreementRow → bool)
    (f : AgreementRow → AgreementRow) : DbM (list N) :=
  d ← get;
  let hit r := bool_decide (ag_id r ∈ ids) && p r in
  _ ← write_agreements ((λ r, if hit r then f r else r) <$> agreements d);
  mret (ag_id <$> select hit (agreements d)).

(** [status IN (..)] *)
Definition status_in (ss : list AgreementStatus) (r : AgreementRow) : bool :=
  bool_decide (ag_status r ∈ ss).
#[global] Arguments status_in : simpl never.

(** [LIMIT $n]: a negative limit is an error. *)
Definition sql_limit {A} (n : Z) (l : list A) : DbM (list A) :=
  if n <? 0 then throw (DbError InvalidLimit) else mret (take (Z.to_nat n) l).

Definition seconds (n : Z) : Z := n * 1000000.
Definition minutes (n : Z) : Z := n * 60000000.
Definition hours (n : Z) : Z := n * 3600000000.
Definition days (n : Z) : Z := n * 86400000000.

End Schema.
