(* ===== verification/Registry.v ===== *)
(** * The registry's writes (dipper-pgregistry/src/postgres.rs)

    Every operation of [PgRegistry] that changes the database, as the SQL
    statements and transactions it runs.  [now] is the database's clock. *)

From S2P Require Import Prelude Schema.
Import Schema.
Local Open Scope Z_scope.

Module Registry.

(** ** Indexing requests *)

Inductive SetTargetOutcome : Type :=
| TargetInserted (id : N)
| TargetUpdated (id : N) (new_num_candidates : Z)
| TargetNoOp (id : N)
| TargetCanceled (id : N)
| TargetNoOpAlreadyEmpty.

(** [CHECK (num_candidates >= 0)] and the unique index on open requests. *)
Definition write_request (id : N) (row : RequestRow) : DbM () := λ d,
  if rq_num_candidates row <? 0 then (Err (DbError CheckViolation), d)
  else
    let m := <[id := row]> (requests d) in
    if decide (unique_open m) then (Ok tt, set_requests m d)
    else (Err (DbError UniqueViolation), d).

Definition insert_request (row : RequestRow) : DbM () :=
  d ← get;
  match requests d !! rq_id row with
  | Some _ => throw (DbError UniqueViolation)
  | None => write_request (rq_id row) row
  end.

Definition update_request (id : N) (f : RequestRow → RequestRow) : DbM () :=
  d ← get;
  match requests d !! id with
  | Some r => write_request id (f r)
  | None => mret tt
  end.

Definition key_matches (requester dep : N) (chain : Z) (r : RequestRow) : bool :=
  bool_decide (rq_requested_by r = requester ∧ rq_deployment r = dep ∧
               rq_chain_id r = chain ∧ rq_status r = Open).

(** [new_id] is the fresh [IndexingRequestId::new()]. *)
Definition set_indexing_target_candidates (now : Z) (new_id : N)
    (requested_by deployment : N) (chain_id num_candidates : Z)
    : DbM SetTargetOutcome :=
  transaction (
    d ← get;
    match head (select (key_matches requested_by deployment chain_id) (requests d)) with
    | None =>
        if num_candidates =? 0 then mret TargetNoOpAlreadyEmpty
        else
          _ ← insert_request (mkRequest new_id now now Open requested_by deployment
                chain_id num_candidates false);
          mret (TargetInserted new_id)
    | Some existing =>
        let id := rq_id existing in
        if rq_num_candidates existing =? num_candidates then mret (TargetNoOp id)
        else if num_candidates =? 0 then
          _ ← update_request id (λ r, mkRequest (rq_id r) (rq_created_at r) now Canceled
                (rq_requested_by r) (rq_deployment r) (rq_chain_id r)
                (rq_num_candidates r) (rq_shortfall_active r));
          mret (TargetCanceled id)
        else
          _ ← update_request id (λ r, mkRequest (rq_id r) (rq_created_at r) now
                (rq_status r) (rq_requested_by r) (rq_deployment r) (rq_chain_id r)
                num_candidates (rq_shortfall_active r));
          mret (TargetUpdated id num_candidates)
    end).

Definition set_indexing_request_shortfall_active (id : N) (act : bool) : DbM bool :=
  d ← get;
  match requests d !! id with
  | Some r =>
      if bool_decide (rq_shortfall_active r ≠ act) then
        _ ← write_request id (mkRequest (rq_id r) (rq_created_at r) (rq_updated_at r)
              (rq_status r) (rq_requested_by r) (rq_deployment r) (rq_chain_id r)
              (rq_num_candidates r) act);
        mret true
      else mret false
  | None => mret false
  end.

(** ** Registering agreements *)

Record NewAgreementParams : Type := mkParams {
  na_agreement_id : N;
  na_nonce_uuid : N;
  na_request_id : N;
  na_deployment : N;
  na_indexer : N;
  na_indexer_url : string;
  na_terms : Terms;
  na_terms_version_hash : option (list Z) }.

(** The row the [INSERT] builds, with the column defaults of the schema. *)
Definition new_agreement_row (now : Z) (p : NewAgreementParams) : AgreementRow :=
  mkAgreement (na_agreement_id p) (na_nonce_uuid p) now now Created
    (na_request_id p) (na_deployment p) (na_indexer p) (na_indexer_url p) (na_terms p)
    None None None None (na_terms_version_hash p)
    None None None None None None None None 0 None None false false.

(** The insert fails on a used id, an unknown request, a deadline the index
    can't hold, or a second active agreement for the slot. *)
Definition register_new_indexing_agreement (now : Z) (p : NewAgreementParams) : DbM N :=
  d ← get;
  let row := new_agreement_row now p in
  match agreements d !! ag_id row, requests d !! ag_request row with
  | Some _, _ => throw (DbError UniqueViolation)
  | None, None => throw (DbError ForeignKeyViolation)
  | None, Some _ =>
      if deadline_fits row then
        _ ← write_agreements (<[ag_id row := row]> (agreements d)); mret (ag_id row)
      else throw (DbError NumericOutOfRange)
  end.

(** [INSERT INTO dipper_pending_cancellations .. ON CONFLICT DO NOTHING] *)
Definition insert_pending_cancellation (new_id old_id : N) : DbM () :=
  d ← get;
  match agreements d !! new_id, agreements d !! old_id with
  | Some _, Some _ => put (set_pending ({[ (new_id, old_id) ]} ∪ pending d) d)
  | _, _ => throw (DbError ForeignKeyViolation)
  end.

Definition register_agreement_with_pending_cancellation (now : Z)
    (p : NewAgreementParams) (old_agreement_id : N) : DbM N :=
  transaction (
    new_id ← register_new_indexing_agreement now p;
    _ ← insert_pending_cancellation new_id old_agreement_id;
    mret new_id).

Definition delete_pending_cancellations_by_new_agreement (new_id : N) : DbM () :=
  d ← get; put (set_pending (filter (λ p, p.1 ≠ new_id) (pending d)) d).

Definition delete_pending_cancellation (new_id old_id : N) : DbM () :=
  d ← get; put (set_pending (pending d ∖ {[ (new_id, old_id) ]}) d).

(** ** Status changes *)

Definition require_row {A} (m : DbM (option A)) : DbM A :=
  o ← m; match o with Some a => mret a | None => throw NoRecordsUpdated end.

Definition touch (now : Z) (s : AgreementStatus) (r : AgreementRow) : AgreementRow :=
  set_updated_at now (set_status s r).

Definition mark_indexing_agreement_as_unresponsive (now : Z) (id : N) : DbM () :=
  _ ← require_row (update_one id (status_in [Created]) (touch now Unresponsive));
  mret tt.

Definition mark_indexing_agreement_as_expired (now : Z) (id : N) : DbM () :=
  _ ← require_row (update_one id (status_in [Created]) (touch now Expired));
  mret tt.

Definition mark_indexing_agreement_as_rejected (now : Z) (id : N)
    (reason : option string) : DbM () :=
  _ ← require_row (update_one id (status_in [Created])
        (λ r, set_rejection_reason reason (touch now Rejected r)));
  mret tt.

Definition mark_indexing_agreement_as_abandoning (now : Z) (id : N) : DbM () :=
  _ ← require_row (update_one id (status_in [AcceptedOnChain])
        (λ r, set_replacement_pending true (set_abandoned true (touch now Cancelling r))));
  mret tt.

(** A [Cancelling] row keeps its [updated_at]. *)
Definition update_offer_tx_hash (now : Z) (id : N) (tx_hash : N) : DbM () :=
  _ ← require_row (update_one id (status_in [Created; AcceptedOnChain; Cancelling])
        (λ r, set_updated_at
                (if bool_decide (ag_status r = Cancelling) then ag_updated_at r else now)
                (set_offer_tx_hash (Some tx_hash) r)));
  mret tt.

(** [status_of] stands for the SQL expression that gives the new status. *)
Definition batch_set_status (now : Z) (ids : list N)
    (status_of : AgreementRow → AgreementStatus) (allowed_from : list AgreementStatus)
    : DbM (list N) :=
  match ids with
  | [] => mret []
  | _ => update_many ids (status_in allowed_from) (λ r, touch now (status_of r) r)
  end.

Definition batch_update_status_from (now : Z) (ids : list N)
    (new_status : AgreementStatus) (allowed_from : list AgreementStatus) : DbM (list N) :=
  batch_set_status now ids (λ _, new_status) allowed_from.

Definition update_status_from (now : Z) (id : N) (new_status : AgreementStatus)
    (allowed_from : list AgreementStatus) : DbM bool :=
  moved ← batch_update_status_from now [id] new_status allowed_from;
  mret (bool_decide (moved ≠ [])).

Definition set_status_from (now : Z) (id : N) (new_status : AgreementStatus)
    (allowed_from : list AgreementStatus) : DbM () :=
  updated ← transaction (update_status_from now id new_status allowed_from);
  if (updated : bool) then mret tt else throw NoRecordsUpdated.

Definition CANCEL_BY_REQUESTER_FROM : list AgreementStatus :=
  [Created; AcceptedOnChain; Rejected; Cancelling].
Definition CANCEL_BY_INDEXER_FROM : list AgreementStatus :=
  [AcceptedOnChain; Cancelling].

Definition mark_indexing_agreement_as_canceled_by_requester (now : Z) (id : N) : DbM () :=
  set_status_from now id CanceledByRequester CANCEL_BY_REQUESTER_FROM.

Definition mark_indexing_agreement_as_abandoned_by_indexer (now : Z) (id : N) : DbM () :=
  set_status_from now id AbandonedByIndexer [Cancelling].

Definition mark_indexing_agreement_as_cancelling (now : Z) (id : N) : DbM () :=
  set_status_from now id Cancelling [Created; AcceptedOnChain; Rejected; Expired].

(** ** Ends and their corrections *)

Record RecordedEnd : Type := mkEnd {
  re_canceled_at : option Z;
  re_canceled_by : option string;
  re_canceled_tx : option string }.

Record EndCorrection : Type := mkCorrection { ec_old : RecordedEnd; ec_new : RecordedEnd }.

(** [u64::try_from(at).ok()] *)
Definition u64_of_i64 (at_ : Z) : option Z := if at_ <? 0 then None else Some at_.

Definition recorded_end (r : AgreementRow) : RecordedEnd :=
  mkEnd (ag_canceled_at r ≫= u64_of_i64) (ag_canceled_by r) (ag_canceled_tx r).

(** [end_correction], on the row before and after the write. *)
Definition end_correction (old new : AgreementRow) : option EndCorrection :=
  if negb (is_null (ag_terminated_event_emitted_at old))
     && is_null (ag_terminated_event_emitted_at new)
  then Some (mkCorrection (recorded_end old) (recorded_end new))
  else None.

(** Run an update and compare the row before it with the row after it. *)
Definition update_end (id : N) (p : AgreementRow → bool)
    (f : AgreementRow → AgreementRow) : DbM (option (option EndCorrection)) :=
  d ← get;
  new ← update_one id p f;
  mret (match agreements d !! id, new with
        | Some old, Some r' => Some (end_correction old r')
        | _, _ => None
        end).

Definition reopen_row (now : Z) (seen_live : bool) (r : AgreementRow) : AgreementRow :=
  let r := set_ended_seen_at None (set_cancel_checked_at (Some now)
             (set_cancel_attempts 0 (touch now Cancelling r))) in
  if seen_live then
    set_terminated_event_emitted_at None (set_canceled_tx None
      (set_canceled_by None (set_canceled_at None r)))
  else r.

Definition reopen_indexing_agreement_cancel (now : Z) (id : N) (seen_live : bool)
    : DbM (option EndCorrection) :=
  require_row (update_end id (status_in [CanceledByRequester; Rejected])
    (reopen_row now seen_live)).

(** [replace_end]: the new end is from the accept on, and the end on record
    came before the accept or has no transaction while the new one does. *)
Definition replace_end (accepted_at canceled_at : option Z) (canceled_tx : option string)
    (new_at : Z) (new_tx : option string) : bool :=
  holds (sql_ge (Some new_at) accepted_at AND
         (sql_lt canceled_at accepted_at OR
          Some (is_null canceled_tx && negb (is_null new_tx))))%dipper.

Definition with_end (at_ : Z) (by_ : string) (tx : option string) (r : AgreementRow)
    : AgreementRow :=
  if replace_end (ag_accepted_at r) (ag_canceled_at r) (ag_canceled_tx r) at_ tx then
    set_terminated_event_emitted_at None (set_canceled_tx tx
      (set_canceled_by (Some by_) (set_canceled_at (Some at_) r)))
  else
    set_canceled_tx (coalesce (ag_canceled_tx r) tx)
      (set_canceled_by (coalesce (ag_canceled_by r) (Some by_))
        (set_canceled_at (coalesce (ag_canceled_at r) (Some at_)) r)).

Definition with_accept (at_ : Z) (tx : string) (r : AgreementRow) : AgreementRow :=
  set_accepted_tx (coalesce (ag_accepted_tx r) (Some tx))
    (set_accepted_at (coalesce (ag_accepted_at r) (Some at_)) r).

Definition record_accepted_audit (id : N) (accepted_at : Z) (accepted_tx : string) : DbM () :=
  _ ← update_one id (λ _, true) (with_accept (as_i64 accepted_at) accepted_tx);
  mret tt.

Definition record_cancel_audit (id : N) (canceled_at : Z) (canceled_by : string)
    (canceled_tx : option string) : DbM (option EndCorrection) :=
  row ← update_end id (λ _, true) (with_end (as_i64 canceled_at) canceled_by canceled_tx);
  mret (mjoin row).

(** One statement: the accept first, then the end judged against it, each
    column's new value read from the row before the write. *)
Definition with_accept_and_end (accepted_at : Z) (accepted_tx : string) (canceled_at : Z)
    (canceled_by : string) (canceled_tx : option string) (r : AgreementRow) : AgreementRow :=
  let acc := coalesce (ag_accepted_at r) (Some accepted_at) in
  let rep := replace_end acc (ag_canceled_at r) (ag_canceled_tx r) canceled_at canceled_tx in
  set_terminated_event_emitted_at (if rep then None else ag_terminated_event_emitted_at r)
  (set_canceled_tx (if rep then canceled_tx else coalesce (ag_canceled_tx r) canceled_tx)
  (set_canceled_by
    (if rep then Some canceled_by else coalesce (ag_canceled_by r) (Some canceled_by))
  (set_canceled_at
    (if rep then Some canceled_at else coalesce (ag_canceled_at r) (Some canceled_at))
  (set_accepted_tx (coalesce (ag_accepted_tx r) (Some accepted_tx))
  (set_accepted_at acc r))))).

Definition record_accept_and_cancel_audit (id : N) (accepted_at : Z) (accepted_tx : string)
    (canceled_at : Z) (canceled_by : string) (canceled_tx : option string)
    : DbM (option EndCorrection) :=
  row ← update_end id (λ _, true) (with_accept_and_end (as_i64 accepted_at) accepted_tx
          (as_i64 canceled_at) canceled_by canceled_tx);
  mret (mjoin row).

(** ** Checks of cancelling agreements *)

Definition checked_row (now failed_attempts : Z) (ended : option bool) (r : AgreementRow)
    : AgreementRow :=
  set_cancel_attempts (Z.min (ag_cancel_attempts r + failed_attempts) i32_max)
    (set_cancel_checked_at (Some now)
      (set_ended_seen_at
        (match ended with
         | None => ag_ended_seen_at r
         | Some true => coalesce (ag_ended_seen_at r) (Some now)
         | Some false => None
         end) r)).

(** [u32::try_from(attempts).unwrap_or_default()] *)
Definition record_cancel_check (now : Z) (id : N) (failed_attempts : Z)
    (ended : option bool) : DbM Z :=
  row ← require_row (update_one id (status_in [Cancelling])
          (checked_row now failed_attempts ended));
  mret (if ag_cancel_attempts row <? 0 then 0 else ag_cancel_attempts row).

(** ** Reconciliation with the chain *)

Inductive CancelKind : Type := ByRequester | ByIndexer.

Record ReconciliationOutcome : Type := mkOutcome { did_accept : bool; did_cancel : bool }.
Definition default_outcome : ReconciliationOutcome := mkOutcome false false.

Record ReconciliationAudit : Type := mkAudit {
  au_accepted_at : option Z;
  au_accepted_tx : option string;
  au_canceled_at : option Z;
  au_canceled_by : option string;
  au_canceled_tx : option string }.

Record ReconciliationItem : Type := mkItem {
  ri_agreement_id : N;
  ri_apply_accept : bool;
  ri_cancel : option CancelKind;
  ri_audit : ReconciliationAudit }.

(** The chain doesn't say why dipper cancelled: a row noted abandoned ends
    [AbandonedByIndexer]. *)
Definition batch_apply_cancel (now : Z) (ids : list N) (kind : CancelKind) : DbM (list N) :=
  match kind with
  | ByRequester =>
      batch_set_status now ids
        (λ r, if ag_abandoned r then AbandonedByIndexer else CanceledByRequester)
        CANCEL_BY_REQUESTER_FROM
  | ByIndexer =>
      batch_update_status_from now ids CanceledByIndexer CANCEL_BY_INDEXER_FROM
  end.

Definition apply_cancel (now : Z) (id : N) (kind : CancelKind) : DbM bool :=
  ended ← batch_apply_cancel now [id] kind;
  mret (bool_decide (ended ≠ [])).

Definition ACCEPT_FROM : list AgreementStatus := [Created; Expired].

Definition apply_reconciliation (now : Z) (id : N) (apply_accept : bool)
    (cancel : option CancelKind) : DbM ReconciliationOutcome :=
  transaction (
    acc ← (if apply_accept then update_status_from now id AcceptedOnChain ACCEPT_FROM
           else mret false);
    match cancel with
    | Some kind =>
        can ← apply_cancel now id kind;
        if (acc : bool) && negb (can : bool) then throw NoRecordsUpdated
        else mret (mkOutcome acc can)
    | None => mret (mkOutcome acc false)
    end).

Definition persist_accept_audit (id : N) (a : ReconciliationAudit) : DbM () :=
  if is_null (au_accepted_at a) && is_null (au_accepted_tx a) then mret tt
  else
    _ ← update_one id (λ _, true) (λ r,
          set_accepted_tx (coalesce (au_accepted_tx a) (ag_accepted_tx r))
          (set_accepted_at (coalesce (as_i64 <$> au_accepted_at a) (ag_accepted_at r)) r));
    mret tt.

Definition persist_cancel_audit (id : N) (a : ReconciliationAudit) : DbM () :=
  if is_null (au_canceled_at a) && is_null (au_canceled_by a) && is_null (au_canceled_tx a)
  then mret tt
  else
    _ ← update_one id (λ _, true) (λ r,
          set_canceled_tx (coalesce (au_canceled_tx a) (ag_canceled_tx r))
          (set_canceled_by (coalesce (au_canceled_by a) (ag_canceled_by r))
          (set_canceled_at (coalesce (as_i64 <$> au_canceled_at a) (ag_canceled_at r)) r)));
    mret tt.

(** [outcomes.entry(id).or_default().did_accept = true] and its twin. *)
Definition note_accepts (ids : list N) (o : gmap N ReconciliationOutcome)
    : gmap N ReconciliationOutcome :=
  foldl (λ m id, <[id := mkOutcome true (did_cancel (default default_outcome (m !! id)))]> m)
    o ids.
Definition note_cancels (ids : list N) (o : gmap N ReconciliationOutcome)
    : gmap N ReconciliationOutcome :=
  foldl (λ m id, <[id := mkOutcome (did_accept (default default_outcome (m !! id))) true]> m)
    o ids.

(** The items combining accept and cancel, one by one. *)
Fixpoint apply_paired (now : Z) (paired : list ReconciliationItem)
    (outcomes : gmap N ReconciliationOutcome) : DbM (gmap N ReconciliationOutcome) :=
  match paired with
  | [] => mret outcomes
  | item :: rest =>
      let id := ri_agreement_id item in
      let kind := default ByRequester (ri_cancel item) in
      acc ← update_status_from now id AcceptedOnChain ACCEPT_FROM;
      can ← apply_cancel now id kind;
      if (acc : bool) && negb (can : bool) then throw NoRecordsUpdated
      else apply_paired now rest (<[id := mkOutcome acc can]> outcomes)
  end.

Definition is_paired (i : ReconciliationItem) : bool :=
  ri_apply_accept i && negb (is_null (ri_cancel i)).
Definition is_accept_only (i : ReconciliationItem) : bool :=
  ri_apply_accept i && is_null (ri_cancel i).
Definition is_cancel_only (k : CancelKind) (i : ReconciliationItem) : bool :=
  negb (ri_apply_accept i) &&
  match ri_cancel i, k with
  | Some ByRequester, ByRequester | Some ByIndexer, ByIndexer => true
  | _, _ => false
  end.
Definition ids_of (p : ReconciliationItem → bool) (items : list ReconciliationItem) : list N :=
  ri_agreement_id <$> filter (λ i, p i = true) items.

Definition persist_audit (outcomes : gmap N ReconciliationOutcome) (i : ReconciliationItem)
    : DbM () :=
  let o := default default_outcome (outcomes !! ri_agreement_id i) in
  _ ← (if did_accept o then persist_accept_audit (ri_agreement_id i) (ri_audit i)
       else mret tt);
  if did_cancel o then persist_cancel_audit (ri_agreement_id i) (ri_audit i)
  else mret tt.

Definition apply_reconciliation_batch (now : Z) (items : list ReconciliationItem)
    : DbM (gmap N ReconciliationOutcome) :=
  let outcomes :=
    foldl (λ m i, <[ri_agreement_id i := default_outcome]> m) ∅ items in
  match items with
  | [] => mret outcomes
  | _ =>
      transaction (
        outcomes ← apply_paired now (filter (λ i, is_paired i = true) items) outcomes;
        accepted ← batch_update_status_from now (ids_of is_accept_only items)
                     AcceptedOnChain ACCEPT_FROM;
        by_req ← batch_apply_cancel now (ids_of (is_cancel_only ByRequester) items)
                   ByRequester;
        by_idx ← batch_apply_cancel now (ids_of (is_cancel_only ByIndexer) items)
                   ByIndexer;
        let outcomes := note_cancels by_idx (note_cancels by_req
                          (note_accepts accepted outcomes)) in
        _ ← for_each items (persist_audit outcomes);
        mret outcomes)
  end.

(** ** Emission markers, replacements and progress *)

Definition mark_terminated_event_emitted (now : Z) (id : N) : DbM () :=
  _ ← update_one id (λ _, true) (set_terminated_event_emitted_at (Some now)); mret tt.
Definition mark_accepted_event_emitted (now : Z) (id : N) : DbM () :=
  _ ← update_one id (λ _, true) (set_accepted_event_emitted_at (Some now)); mret tt.
Definition mark_expired_event_emitted (now : Z) (id : N) : DbM () :=
  _ ← update_one id (λ _, true) (set_expired_event_emitted_at (Some now)); mret tt.

Definition mark_replacement_queued (id : N) : DbM () :=
  _ ← update_one id (λ _, true) (set_replacement_pending false); mret tt.

Definition update_agreement_sync_progress (id : N) (block_height progress_at : Z) : DbM () :=
  _ ← update_one id (λ _, true) (λ r,
        set_last_progress_at (Some progress_at)
          (set_last_block_height (Some (as_i64 block_height)) r));
  mret tt.

(** ** The DIPs info watcher's table *)

Record DipsInfoChecks : Type := mkChecks {
  dc_missing : gmap N Z;
  dc_cleared : gmap N Z }.

(** Add [secs] for every missing indexer, or insert it.  The constraint is
    checked on the row proposed for insertion and on the row after the update. *)
Fixpoint upsert_missing (now : Z) (missing : list N) (secs : Z) : DbM () :=
  match missing with
  | [] => mret tt
  | id :: rest =>
      d ← get;
      let row := match dips_missing d !! id with
                 | Some r => mkDipsInfo (di_missing_secs r + secs) now (di_blocked_until r)
                 | None => mkDipsInfo secs now None
                 end in
      if secs <? 0 then throw (DbError CheckViolation)
      else if i64_max <? di_missing_secs row then throw (DbError NumericOutOfRange)
      else if di_missing_secs row <? 0 then throw (DbError CheckViolation)
      else
        _ ← put (set_dips_missing (<[id := row]> (dips_missing d)) d);
        upsert_missing now rest secs
  end.

Definition record_dips_info_checks (now : Z) (missing : list N) (added_secs : Z)
    : DbM DipsInfoChecks :=
  transaction (
    d ← get;
    let cleared := filter (λ kv, kv.1 ∉ missing) (dips_missing d) in
    _ ← put (set_dips_missing (filter (λ kv, kv.1 ∈ missing) (dips_missing d)) d);
    _ ← (if bool_decide (NoDup missing) then upsert_missing now missing added_secs
         else throw (DbError CardinalityViolation));
    d' ← get;
    mret (mkChecks (di_missing_secs <$> dips_missing d') (di_missing_secs <$> cleared))).

Definition block_missing_dips_info (now : Z) (ids : list N) (for_secs : Z)
    : DbM (list N) :=
  d ← get;
  _ ← put (set_dips_missing
        (map_imap (λ id r, Some (if bool_decide (id ∈ ids)
           then mkDipsInfo (di_missing_secs r) (di_updated_at r) (Some (now + seconds for_secs))
           else r)) (dips_missing d)) d);
  mret (fst <$> filter (λ kv, kv.1 ∈ ids ∧ di_blocked_until kv.2 = None)
                  (map_to_list (dips_missing d))).

(** ** The chain listener's cursor *)

Definition update_chain_listener_state (chain_id last_block : Z) (last_id : option N)
    (last_ts : option Z) : DbM () :=
  d ← get;
  put (set_listener (<[as_i64 chain_id :=
         mkListener (as_i64 last_block) last_id (as_i64 <$> last_ts)]> (listener d)) d).

(** What [get_chain_listener_state] returns. *)
Record ChainListenerStateRow : Type := mkListenerState {
  cl_chain_id : Z;
  cl_last_processed_block : Z;
  cl_last_processed_id : option N;
  cl_last_processed_block_timestamp : option Z }.

Definition get_chain_listener_state (chain_id : Z) : DbM (option ChainListenerStateRow) :=
  d ← get;
  mret ((λ r, mkListenerState (as_u64 (as_i64 chain_id)) (as_u64 (ls_last_processed_block r))
                (ls_last_processed_id r) (as_u64 <$> ls_last_processed_block_timestamp r))
        <$> listener d !! as_i64 chain_id).

End Registry.
