(* ===== verification/RegistryInv.v ===== *)
(** * The registry's invariant and the agreement lifecycle

    The well-formedness every operation of [Registry] keeps, and the abstract
    machine an agreement's status follows.  [inv_from d0] carries both: a
    database that is well formed and whose agreements evolved from those of
    [d0] along the lifecycle.  Each operation preserves it for every [d0], so
    sequences of operations, in any order, do too. *)

From S2P Require Import Prelude Schema Registry.
Import Schema Registry.
Local Open Scope Z_scope.

Module RegistryInv.

(** ** The lifecycle of an agreement

    The edges, written out: what each status may become next. *)

Inductive lifecycle : AgreementStatus → AgreementStatus → Prop :=
| lc_unresponsive : lifecycle Created Unresponsive
| lc_expired : lifecycle Created Expired
| lc_rejected : lifecycle Created Rejected
| lc_accepted s : s ∈ [Created; Expired] → lifecycle s AcceptedOnChain
| lc_cancelling s :
    s ∈ [Created; AcceptedOnChain; Rejected; Expired] → lifecycle s Cancelling
| lc_canceled_by_requester s :
    s ∈ [Created; AcceptedOnChain; Rejected; Cancelling] → lifecycle s CanceledByRequester
| lc_canceled_by_indexer s :
    s ∈ [AcceptedOnChain; Cancelling] → lifecycle s CanceledByIndexer
| lc_abandoned : lifecycle Cancelling AbandonedByIndexer
| lc_reopened s : s ∈ [CanceledByRequester; Rejected] → lifecycle s Cancelling.

(** Statuses no operation moves an agreement out of. *)
Definition final_statuses : list AgreementStatus :=
  [Unresponsive; CanceledByIndexer; AbandonedByIndexer].

(** ** Rows *)

Record row_wf (r : AgreementRow) : Prop := {
  wf_deadline : deadline_fits r = true;
  wf_attempts : 0 ≤ ag_cancel_attempts r ≤ i32_max;
  wf_replacement : ag_replacement_pending r = true → ag_abandoned r = true;
  wf_abandoned : ag_abandoned r = true →
    ag_status r ∈ [Cancelling; AbandonedByIndexer; CanceledByRequester; CanceledByIndexer];
  wf_reason : ag_rejection_reason r ≠ None →
    ag_status r ∈ [Rejected; Cancelling; AbandonedByIndexer; CanceledByRequester;
                   CanceledByIndexer] }.

(** The columns no update touches. *)
Record frame (r r' : AgreementRow) : Prop := {
  fr_id : ag_id r' = ag_id r;
  fr_nonce : ag_nonce_uuid r' = ag_nonce_uuid r;
  fr_created_at : ag_created_at r' = ag_created_at r;
  fr_request : ag_request r' = ag_request r;
  fr_deployment : ag_deployment r' = ag_deployment r;
  fr_indexer : ag_indexer r' = ag_indexer r;
  fr_url : ag_indexer_url r' = ag_indexer_url r;
  fr_terms : ag_terms r' = ag_terms r;
  fr_hash : ag_terms_version_hash r' = ag_terms_version_hash r }.

Definition evolves (r r' : AgreementRow) : Prop :=
  frame r r' ∧ rtc lifecycle (ag_status r) (ag_status r').

(** ** Databases *)

Record reg_inv (d : Db) : Prop := {
  inv_key : ∀ k r, agreements d !! k = Some r → ag_id r = k;
  inv_active : unique_active (agreements d);
  inv_request : ∀ k r, agreements d !! k = Some r → is_Some (requests d !! ag_request r);
  inv_row : ∀ k r, agreements d !! k = Some r → row_wf r;
  inv_request_key : ∀ k r, requests d !! k = Some r → rq_id r = k;
  inv_open : unique_open (requests d);
  inv_candidates : ∀ k r, requests d !! k = Some r → 0 < rq_num_candidates r;
  inv_pending : ∀ n o, (n, o) ∈ pending d →
    is_Some (agreements d !! n) ∧ is_Some (agreements d !! o);
  inv_dips : ∀ k r, dips_missing d !! k = Some r → 0 ≤ di_missing_secs r ≤ i64_max }.

Record db_evolves (d0 d : Db) : Prop := {
  ev_kept : ∀ k r, agreements d0 !! k = Some r →
    ∃ r', agreements d !! k = Some r' ∧ evolves r r';
  ev_new : ∀ k r, agreements d !! k = Some r → agreements d0 !! k = None →
    rtc lifecycle Created (ag_status r) }.

Definition inv_from (d0 d : Db) : Prop := reg_inv d ∧ db_evolves d0 d.

(** ** Frames and evolutions *)

#[export] Instance frame_refl : Reflexive frame.
Proof. by intros r. Qed.
#[export] Instance frame_trans : Transitive frame.
Proof. intros r1 r2 r3 [] []. split; congruence. Qed.
#[export] Instance evolves_refl : Reflexive evolves.
Proof. intros r. split; reflexivity. Qed.
#[export] Instance evolves_trans : Transitive evolves.
Proof. intros r1 r2 r3 [? ?] [? ?]. split; etrans; eauto. Qed.

Lemma db_evolves_refl d : db_evolves d d.
Proof. split; [naive_solver|]. intros k r Hr Hn. congruence. Qed.

(** Case analysis on membership in the status lists of the code. *)
Ltac destruct_elems :=
  unfold final_statuses, ACCEPT_FROM, CANCEL_BY_REQUESTER_FROM,
    CANCEL_BY_INDEXER_FROM in *;
  repeat match goal with
  | H : _ ∈ _ :: _ |- _ => apply elem_of_cons in H as [H|H]
  | H : _ ∈ [] |- _ => exfalso; by apply not_elem_of_nil in H
  end; simplify_eq/=; try done.

Lemma lifecycle_final s s' : s ∈ final_statuses → rtc lifecycle s s' → s' = s.
Proof.
  intros Hs Hr. apply rtc_inv in Hr as [->|(s1 & Hstep & _)]; [done|].
  inversion Hstep; subst; destruct_elems.
Qed.

(** ** What a single-row update must satisfy *)

Definition row_step (r r' : AgreementRow) : Prop :=
  frame r r' ∧ row_wf r' ∧ rtc lifecycle (ag_status r) (ag_status r').

Lemma row_step_refl r : row_wf r → row_step r r.
Proof. intros. split; [|split]; [reflexivity|done|reflexivity]. Qed.

(** ** The unique index *)

Lemma unique_active_spec m :
  unique_active m ↔
  ∀ i j r1 r2, m !! i = Some r1 → m !! j = Some r2 →
    active r1 = true → active r2 = true → same_slot r1 r2 → i = j.
Proof.
  unfold unique_active. split.
  - intros H i j r1 r2 H1 H2. by apply (map_Forall_lookup_1 _ _ _ _ (map_Forall_lookup_1 _ _ _ _ H H1) H2).
  - intros H i r1 H1 j r2 H2. by apply (H i j).
Qed.

Lemma unique_open_spec m :
  unique_open m ↔
  ∀ i j r1 r2, m !! i = Some r1 → m !! j = Some r2 →
    is_open_request r1 = true → is_open_request r2 = true → same_request_key r1 r2 → i = j.
Proof.
  unfold unique_open. split.
  - intros H i j r1 r2 H1 H2. by apply (map_Forall_lookup_1 _ _ _ _ (map_Forall_lookup_1 _ _ _ _ H H1) H2).
  - intros H i r1 H1 j r2 H2. by apply (H i j).
Qed.

(** Updates that activate no row keep the index. *)
Lemma unique_active_pointwise m m' :
  unique_active m →
  (∀ k r', m' !! k = Some r' →
     active r' = true → ∃ r, m !! k = Some r ∧ active r = true ∧ same_slot r r') →
  unique_active m'.
Proof.
  rewrite !unique_active_spec. intros Hu Hm i j r1 r2 H1 H2 A1 A2 [S1 S2].
  destruct (Hm _ _ H1 A1) as (q1 & L1 & B1 & [T1 U1]).
  destruct (Hm _ _ H2 A2) as (q2 & L2 & B2 & [T2 U2]).
  apply (Hu i j q1 q2); [done..|]. split; congruence.
Qed.

(** ** Statements preserve the invariant *)

Lemma write_agreements_inv d0 d m :
  inv_from d0 d →
  (∀ k r, agreements d !! k = Some r → ∃ r', m !! k = Some r' ∧ row_step r r') →
  (∀ k r', m !! k = Some r' → is_Some (agreements d !! k) ∨
     (ag_id r' = k ∧ is_Some (requests d !! ag_request r') ∧ row_wf r' ∧
      ag_status r' = Created)) →
  inv_from d0 (write_agreements m d).2.
Proof.
  intros [Hinv [Hk Hn]] Hkeep Hnew. unfold write_agreements.
  destruct (decide (unique_active m)) as [Hu|]; [|done]. simpl.
  assert (Hback : ∀ k r', m !! k = Some r' →
    (∃ r, agreements d !! k = Some r ∧ row_step r r') ∨
    (agreements d !! k = None ∧ ag_id r' = k ∧ is_Some (requests d !! ag_request r') ∧
     row_wf r' ∧ ag_status r' = Created)).
  { intros k r' Hr'. destruct (agreements d !! k) as [r|] eqn:Hr.
    - left. destruct (Hkeep k r Hr) as (r2 & H2 & Hs). exists r. naive_solver.
    - right. destruct (Hnew k r' Hr') as [[? ?]|?]; naive_solver. }
  split; [split|split]; simpl.
  - intros k r' Hr'. destruct (Hback _ _ Hr') as [(r & Hr & [Hf _])|?]; [|naive_solver].
    rewrite (fr_id _ _ Hf). by apply (inv_key _ Hinv).
  - done.
  - intros k r' Hr'. destruct (Hback _ _ Hr') as [(r & Hr & [Hf _])|?]; [|naive_solver].
    rewrite (fr_request _ _ Hf). by apply (inv_request _ Hinv k).
  - intros k r' Hr'. destruct (Hback _ _ Hr') as [(r & Hr & [_ [? _]])|?]; naive_solver.
  - apply (inv_request_key _ Hinv).
  - apply (inv_open _ Hinv).
  - apply (inv_candidates _ Hinv).
  - intros n o Hno. destruct (inv_pending _ Hinv n o Hno) as [[rn H1] [ro H2]].
    destruct (Hkeep _ _ H1) as (? & -> & _), (Hkeep _ _ H2) as (? & -> & _). done.
  - apply (inv_dips _ Hinv).
  - intros k r0 Hr0. destruct (Hk k r0 Hr0) as (r1 & Hr1 & Hev).
    destruct (Hkeep k r1 Hr1) as (r2 & Hr2 & Hf & _ & Hl). exists r2. split; [done|].
    etrans; [exact Hev|]. by split.
  - intros k r' Hr' Hnone. destruct (Hback _ _ Hr') as [(r & Hr & _ & _ & Hl)|(_ & _ & _ & _ & ->)];
      [|reflexivity].
    etrans; [by apply (Hn k r)|done].
Qed.

Lemma update_one_inv d0 id p f :
  (∀ r, row_wf r → p r = true → row_step r (f r)) →
  preserves (inv_from d0) (update_one id p f).
Proof.
  intros Hf d Hd. unfold update_one. rewrite bind_run. simpl.
  destruct (agreements d !! id) as [r|] eqn:Hr; [|done].
  destruct (p r) eqn:Hp; [|done].
  pose proof (write_agreements_inv d0 d (<[id := f r]> (agreements d)) Hd) as Hw.
  assert (inv_from d0 (write_agreements (<[id := f r]> (agreements d)) d).2) as Hok.
  { destruct Hd as [Hinv _]. apply Hw.
    - intros k rk Hrk. destruct (decide (k = id)) as [->|Hne].
      + rewrite lookup_insert_eq. exists (f r). simplify_eq. split; [done|].
        apply Hf; [by eapply inv_row|done].
      + rewrite lookup_insert_ne by done. exists rk. split; [done|].
        apply row_step_refl. by eapply inv_row.
    - intros k rk Hrk. left. destruct (decide (k = id)) as [->|Hne]; [done|].
      rewrite lookup_insert_ne in Hrk by done. done. }
  unfold mbind, SE_bind. by destruct (write_agreements _ d) as [[]].
Qed.

Lemma update_many_inv d0 ids p f :
  (∀ r, row_wf r → p r = true → row_step r (f r)) →
  preserves (inv_from d0) (update_many ids p f).
Proof.
  intros Hf d Hd. unfold update_many. rewrite bind_run. simpl.
  set (g := λ r, if bool_decide (ag_id r ∈ ids) && p r then f r else r).
  assert (inv_from d0 (write_agreements (g <$> agreements d) d).2) as Hok.
  { apply write_agreements_inv; [done|..].
    - intros k r Hr. rewrite lookup_fmap, Hr. eexists. split; [done|].
      destruct Hd as [Hinv _]. pose proof (inv_row _ Hinv k r Hr). unfold g.
      case_match eqn:Hg; [|by apply row_step_refl].
      apply andb_prop in Hg as [_ Hp]. by apply Hf.
    - intros k r. rewrite lookup_fmap. intros Hr. left.
      destruct (agreements d !! k); [done|discriminate]. }
  unfold mbind, SE_bind. by destruct (write_agreements _ d) as [[]].
Qed.

Lemma require_row_inv d0 {A} (m : DbM (option A)) :
  preserves (inv_from d0) m → preserves (inv_from d0) (require_row m).
Proof.
  intros Hm. unfold require_row. apply preserves_bind; [done|].
  intros []; [apply preserves_ret|apply preserves_throw].
Qed.

#[export] Hint Resolve require_row_inv : preserves.

(** Statements on other tables. *)
Lemma agreements_only d0 d d' :
  inv_from d0 d → agreements d' = agreements d → reg_inv d' → inv_from d0 d'.
Proof. intros [_ [Hk Hn]] Heq Hinv. split; [done|]. split; by rewrite Heq. Qed.

Lemma write_request_inv d0 d id row :
  inv_from d0 d → rq_id row = id → rq_num_candidates row ≠ 0 →
  inv_from d0 (write_request id row d).2.
Proof.
  intros Hd Hid Hn. unfold write_request.
  destruct (Z.ltb_spec (rq_num_candidates row) 0); [done|].
  destruct (decide _) as [Hu|]; [|done]. simpl.
  apply (agreements_only d0 d); [done..|]. destruct Hd as [Hinv _]. split; simpl; try apply Hinv.
  - intros k r Hr. destruct (inv_request _ Hinv k r Hr) as [q Hq].
    destruct (decide (id = ag_request r)) as [->|]; [by rewrite lookup_insert_eq|].
    by rewrite lookup_insert_ne, Hq.
  - intros k r Hr. destruct (decide (id = k)) as [->|].
    + rewrite lookup_insert_eq in Hr. congruence.
    + rewrite lookup_insert_ne in Hr by done. by apply (inv_request_key _ Hinv).
  - done.
  - intros k r Hr. destruct (decide (id = k)) as [->|].
    + rewrite lookup_insert_eq in Hr. simplify_eq. lia.
    + rewrite lookup_insert_ne in Hr by done. by apply (inv_candidates _ Hinv k).
Qed.

Lemma put_pending_inv d0 d p :
  inv_from d0 d →
  (∀ n o, (n, o) ∈ p → is_Some (agreements d !! n) ∧ is_Some (agreements d !! o)) →
  inv_from d0 (set_pending p d).
Proof.
  intros Hd Hp. apply (agreements_only d0 d); [done..|].
  destruct Hd as [Hinv _]. split; simpl; try apply Hinv. done.
Qed.

Lemma put_dips_inv d0 d m :
  inv_from d0 d → (∀ k r, m !! k = Some r → 0 ≤ di_missing_secs r ≤ i64_max) →
  inv_from d0 (set_dips_missing m d).
Proof.
  intros Hd Hm. apply (agreements_only d0 d); [done..|].
  destruct Hd as [Hinv _]. split; simpl; try apply Hinv. done.
Qed.

Lemma put_listener_inv d0 d m : inv_from d0 d → inv_from d0 (set_listener m d).
Proof.
  intros Hd. apply (agreements_only d0 d); [done..|].
  destruct Hd as [Hinv _]. split; simpl; apply Hinv.
Qed.

(** ** Rows through the operations' updates *)

(** The moves of [batch_set_status] and of the single-row updates. *)
Definition may_move (r : AgreementRow) (s : AgreementStatus) : Prop :=
  lifecycle (ag_status r) s ∧
  (ag_abandoned r = true →
   s ∈ [Cancelling; AbandonedByIndexer; CanceledByRequester; CanceledByIndexer]) ∧
  (ag_rejection_reason r ≠ None →
   s ∈ [Rejected; Cancelling; AbandonedByIndexer; CanceledByRequester; CanceledByIndexer]).

Lemma touch_step now s r : row_wf r → may_move r s → row_step r (touch now s r).
Proof.
  intros [W1 W2 W3 W4 W5] (Hl & Ha & Hr). split; [by split|]. split; [by split|].
  by apply rtc_once.
Qed.

(** Updates that leave the status, the flags and the reason alone. *)
Record side_update (r r' : AgreementRow) : Prop := {
  su_frame : frame r r';
  su_status : ag_status r' = ag_status r;
  su_attempts : 0 ≤ ag_cancel_attempts r → 0 ≤ ag_cancel_attempts r' ≤ i32_max;
  su_replacement : ag_replacement_pending r' = true → ag_replacement_pending r = true;
  su_abandoned : ag_abandoned r' = ag_abandoned r;
  su_reason : ag_rejection_reason r' = ag_rejection_reason r }.

Lemma side_step r1 r2 r3 : row_step r1 r2 → side_update r2 r3 → row_step r1 r3.
Proof.
  intros (Hf & [W1 W2 W3 W4 W5] & Hl) [F S A R B C].
  split; [by etrans|]. split; [|by rewrite S]. split.
  - unfold deadline_fits. rewrite (fr_terms _ _ F). exact W1.
  - apply A. lia.
  - rewrite B. auto.
  - rewrite B, S. auto.
  - rewrite C, S. auto.
Qed.

Lemma side_update_step r r' : row_wf r → side_update r r' → row_step r r'.
Proof. intros. by eapply side_step; [apply row_step_refl|]. Qed.

(** Decide a [may_move] from the allowed statuses. *)
Ltac solve_move :=
  match goal with
  | W : row_wf ?r, H : status_in _ ?r = true |- may_move ?r _ =>
      let S := fresh "S" in
      unfold status_in in H; apply bool_decide_eq_true in H;
      pose proof (wf_abandoned r W); pose proof (wf_reason r W);
      destruct (ag_status r) eqn:S; destruct_elems;
      (split; [rewrite S; constructor; set_solver|split; intros; set_solver])
  end.

Lemma end_side at_ by_ tx r : row_wf r → side_update r (with_end at_ by_ tx r).
Proof. intros []. unfold with_end. case_match; by repeat split; simpl; try lia. Qed.

Lemma accept_side at_ tx r : row_wf r → side_update r (with_accept at_ tx r).
Proof. intros []. by repeat split; simpl; try lia. Qed.

Lemma checked_side now n ended r : 0 ≤ n → side_update r (checked_row now n ended r).
Proof. intros. repeat split; simpl; unfold i32_max; lia || done. Qed.

Lemma reopen_step now seen r :
  row_wf r → status_in [CanceledByRequester; Rejected] r = true →
  row_step r (reopen_row now seen r).
Proof.
  intros Hw Hs. assert (may_move r Cancelling) as Hm by solve_move.
  eapply side_step; [by apply (touch_step now Cancelling)|]. unfold reopen_row.
  destruct Hw, seen; repeat split; simpl; unfold i32_max; lia || done.
Qed.

(** ** Every operation preserves the invariant *)

Section operations.
Context (d0 : Db).
Local Notation "'keeps' m" := (preserves (inv_from d0) m) (at level 10).

Lemma update_end_inv id p f :
  (∀ r, row_wf r → p r = true → row_step r (f r)) → keeps (update_end id p f).
Proof.
  intros Hf. unfold update_end. apply preserves_bind; [apply preserves_get|intros d].
  apply preserves_bind; [by apply update_one_inv|intros; apply preserves_ret].
Qed.

Lemma update_side_inv id p f :
  (∀ r, row_wf r → p r = true → side_update r (f r)) →
  keeps (update_one id p f).
Proof. intros Hf. apply update_one_inv. eauto using side_update_step. Qed.

Lemma batch_set_status_inv now ids status_of allowed :
  (∀ r, row_wf r → status_in allowed r = true → may_move r (status_of r)) →
  keeps (batch_set_status now ids status_of allowed).
Proof.
  intros Hm. unfold batch_set_status. destruct ids; [apply preserves_ret|].
  apply update_many_inv. intros r Hw Hs. apply touch_step; auto.
Qed.

Lemma set_status_from_inv now id s allowed :
  (∀ r, row_wf r → status_in allowed r = true → may_move r s) →
  keeps (set_status_from now id s allowed) ∧
  keeps (update_status_from now id s allowed) ∧
  keeps (batch_update_status_from now [id] s allowed).
Proof.
  intros Hm.
  assert (keeps (batch_update_status_from now [id] s allowed)) by
    by apply batch_set_status_inv.
  assert (keeps (update_status_from now id s allowed)) by
    (apply preserves_bind; [done|intros; apply preserves_ret]).
  split; [|done]. apply preserves_bind; [by apply preserves_transaction|].
  intros []; [apply preserves_ret|apply preserves_throw].
Qed.
End operations.

End RegistryInv.
