(* ===== verification/RegistryRuns.v ===== *)
(** * Runs of the registry

    Every write of the registry as an operation of one machine, the proof that
    each keeps the invariant and the lifecycle whatever it returns, and what
    follows for the databases the service can reach. *)

From S2P Require Import Prelude Schema Registry RegistryInv.
Import Schema Registry RegistryInv.
Local Open Scope Z_scope.

Module RegistryRuns.

Inductive op : Type :=
| SetTarget (now : Z) (new_id requested_by deployment : N) (chain_id n : Z)
| SetShortfall (id : N) (act : bool)
| Register (now : Z) (p : NewAgreementParams)
| RegisterReplacing (now : Z) (p : NewAgreementParams) (old : N)
| DeletePending (new_id old_id : N)
| DeletePendingOf (new_id : N)
| MarkUnresponsive (now : Z) (id : N)
| MarkExpired (now : Z) (id : N)
| MarkRejected (now : Z) (id : N) (reason : option string)
| MarkAbandoning (now : Z) (id : N)
| MarkCanceledByRequester (now : Z) (id : N)
| MarkAbandonedByIndexer (now : Z) (id : N)
| MarkCancelling (now : Z) (id : N)
| Reopen (now : Z) (id : N) (seen_live : bool)
| OfferTx (now : Z) (id : N) (tx : N)
| AcceptedAudit (id : N) (at_ : Z) (tx : string)
| CancelAudit (id : N) (at_ : Z) (by_ : string) (tx : option string)
| AcceptAndCancelAudit (id : N) (at_ : Z) (tx : string) (cat : Z) (cby : string)
    (ctx : option string)
| CancelCheck (now : Z) (id : N) (failed : Z) (ended : option bool)
| Reconcile (now : Z) (id : N) (accept : bool) (cancel : option CancelKind)
| ReconcileBatch (now : Z) (items : list ReconciliationItem)
| TerminatedEmitted (now : Z) (id : N)
| AcceptedEmitted (now : Z) (id : N)
| ExpiredEmitted (now : Z) (id : N)
| ReplacementQueued (id : N)
| SyncProgress (id : N) (height at_ : Z)
| DipsChecks (now : Z) (missing : list N) (secs : Z)
| DipsBlock (now : Z) (ids : list N) (secs : Z)
| ListenerState (chain_id block : Z) (id : option N) (ts : option Z).

Definition void {A} (m : DbM A) : DbM () := _ ← m; mret tt.

Definition run_op (o : op) : DbM () :=
  match o with
  | SetTarget now i q dep c n => void (set_indexing_target_candidates now i q dep c n)
  | SetShortfall i b => void (set_indexing_request_shortfall_active i b)
  | Register now p => void (register_new_indexing_agreement now p)
  | RegisterReplacing now p old =>
      void (register_agreement_with_pending_cancellation now p old)
  | DeletePending n o => delete_pending_cancellation n o
  | DeletePendingOf n => delete_pending_cancellations_by_new_agreement n
  | MarkUnresponsive now i => mark_indexing_agreement_as_unresponsive now i
  | MarkExpired now i => mark_indexing_agreement_as_expired now i
  | MarkRejected now i w => mark_indexing_agreement_as_rejected now i w
  | MarkAbandoning now i => mark_indexing_agreement_as_abandoning now i
  | MarkCanceledByRequester now i => mark_indexing_agreement_as_canceled_by_requester now i
  | MarkAbandonedByIndexer now i => mark_indexing_agreement_as_abandoned_by_indexer now i
  | MarkCancelling now i => mark_indexing_agreement_as_cancelling now i
  | Reopen now i l => void (reopen_indexing_agreement_cancel now i l)
  | OfferTx now i tx => update_offer_tx_hash now i tx
  | AcceptedAudit i a tx => record_accepted_audit i a tx
  | CancelAudit i a b tx => void (record_cancel_audit i a b tx)
  | AcceptAndCancelAudit i a tx c b ctx =>
      void (record_accept_and_cancel_audit i a tx c b ctx)
  | CancelCheck now i n e => void (record_cancel_check now i n e)
  | Reconcile now i a c => void (apply_reconciliation now i a c)
  | ReconcileBatch now items => void (apply_reconciliation_batch now items)
  | TerminatedEmitted now i => mark_terminated_event_emitted now i
  | AcceptedEmitted now i => mark_accepted_event_emitted now i
  | ExpiredEmitted now i => mark_expired_event_emitted now i
  | ReplacementQueued i => mark_replacement_queued i
  | SyncProgress i h a => update_agreement_sync_progress i h a
  | DipsChecks now m n => void (record_dips_info_checks now m n)
  | DipsBlock now ids n => void (block_missing_dips_info now ids n)
  | ListenerState c b i ts => update_chain_listener_state c b i ts
  end.

(** What the arguments' Rust types say: [failed_attempts] is a [u32]. *)
Definition op_ok (o : op) : Prop :=
  match o with CancelCheck _ _ n _ => 0 ≤ n | _ => True end.

(** A run: the operations in the order the database served them, each
    returning success or an error the caller may ignore. *)
Definition step (d d' : Db) : Prop := ∃ o, op_ok o ∧ d' = (run_op o d).2.
Definition reachable (d : Db) : Prop := rtc step empty_db d.

Section preservation.
Context (d0 : Db).
Local Notation "'keeps' m" := (preserves (inv_from d0) m) (at level 10).

Lemma void_inv {A} (m : DbM A) : keeps m → keeps (void m).
Proof. intros. apply preserves_bind; [done|intros; apply preserves_ret]. Qed.

Lemma require_inv {A} (m : DbM (option A)) : keeps m → keeps (_ ← require_row m; mret tt).
Proof. intros. by apply void_inv, require_row_inv. Qed.

Lemma update_request_inv id f :
  (∀ r, rq_id (f r) = rq_id r ∧
    (0 < rq_num_candidates r → rq_num_candidates (f r) ≠ 0)) →
  keeps (update_request id f).
Proof.
  intros Hf d Hd. unfold update_request. rewrite bind_run. simpl.
  destruct (requests d !! id) as [r|] eqn:Hr; [|done].
  pose proof (inv_candidates _ (proj1 Hd) _ _ Hr). destruct (Hf r) as [Hi Hn].
  apply write_request_inv; [done| |auto]. rewrite Hi. by apply (inv_request_key _ (proj1 Hd)).
Qed.

Lemma insert_request_inv row : rq_num_candidates row ≠ 0 → keeps (insert_request row).
Proof.
  intros Hn d Hd. unfold insert_request. rewrite bind_run. simpl.
  case_match; [done|]. by apply write_request_inv.
Qed.

Lemma set_target_inv now i q dep c n :
  keeps (set_indexing_target_candidates now i q dep c n).
Proof.
  apply preserves_transaction, preserves_bind; [apply preserves_get|intros d].
  repeat case_match; try apply preserves_ret; (apply preserves_bind; [|intros; apply preserves_ret]).
  - apply update_request_inv. simpl. split; [done|lia].
  - apply update_request_inv. simpl. split; [done|lia].
  - apply insert_request_inv. simpl. lia.
Qed.

Lemma set_shortfall_inv i b : keeps (set_indexing_request_shortfall_active i b).
Proof.
  intros d Hd. unfold set_indexing_request_shortfall_active. rewrite bind_run. simpl.
  destruct (requests d !! i) as [r|] eqn:Hr; [|done]. case_match; [|done].
  rewrite bind_run. specialize (inv_request_key _ (proj1 Hd) _ _ Hr) as Hi.
  match goal with |- context [write_request i ?row d] =>
    pose proof (write_request_inv d0 d i row Hd Hi) as Hw end.
  pose proof (inv_candidates _ (proj1 Hd) _ _ Hr). specialize (Hw ltac:(simpl; lia)).
  by destruct (write_request i _ d) as [[]].
Qed.

Lemma register_inv now p : keeps (register_new_indexing_agreement now p).
Proof.
  intros d Hd. unfold register_new_indexing_agreement. rewrite bind_run. simpl.
  destruct (agreements d !! _) eqn:Ha; [done|].
  destruct (requests d !! _) as [q|] eqn:Hq; [|done]. case_match eqn:Hdl; [|done].
  set (row := new_agreement_row now p). rewrite bind_run.
  assert (inv_from d0 (write_agreements (<[na_agreement_id p := row]> (agreements d)) d).2) as Hw.
  { apply write_agreements_inv; [done|..].
    - intros k r Hr. exists r. rewrite lookup_insert_ne by congruence. split; [done|].
      apply row_step_refl. by eapply (inv_row _ (proj1 Hd)).
    - intros k r Hr. destruct (decide (k = na_agreement_id p)) as [->|Hne].
      + rewrite lookup_insert_eq in Hr. simplify_eq. right.
        split; [done|split; [by exists q|split; [|done]]].
        split; simpl; unfold i32_max; (done || lia).
      + rewrite lookup_insert_ne in Hr by done. left. by exists r. }
  by destruct (write_agreements _ d) as [[]].
Qed.

Lemma register_replacing_inv now p old :
  keeps (register_agreement_with_pending_cancellation now p old).
Proof.
  apply preserves_transaction, preserves_bind; [apply register_inv|intros n].
  apply preserves_bind; [|intros; apply preserves_ret]. intros d Hd.
  unfold insert_pending_cancellation. rewrite bind_run. simpl.
  destruct (agreements d !! n) eqn:Hn; [|done].
  destruct (agreements d !! old) eqn:Ho; [|done]. apply put_pending_inv; [done|].
  intros n' o' [Heq|Hab]%elem_of_union.
  - apply elem_of_singleton in Heq. simplify_eq. rewrite Hn, Ho. eauto.
  - by apply (inv_pending _ (proj1 Hd)).
Qed.

Lemma delete_pending_inv n :
  (∀ o, keeps (delete_pending_cancellation n o)) ∧
  keeps (delete_pending_cancellations_by_new_agreement n).
Proof.
  split; intros; intros d Hd; apply put_pending_inv; try done; intros a b Hab;
    apply (inv_pending _ (proj1 Hd)); set_solver.
Qed.
(** The single-row updates. *)
Lemma mark_inv now i :
  keeps (mark_indexing_agreement_as_unresponsive now i) ∧
  keeps (mark_indexing_agreement_as_expired now i) ∧
  (∀ w, keeps (mark_indexing_agreement_as_rejected now i w)) ∧
  keeps (mark_indexing_agreement_as_abandoning now i).
Proof.
  split_and!; intros; apply require_inv, update_one_inv; intros r Hw Hs.
  - apply touch_step; [done|solve_move].
  - apply touch_step; [done|solve_move].
  - assert (may_move r Rejected) as Hm by solve_move.
    destruct (touch_step now Rejected r Hw Hm) as (F & W & L).
    split; [done|]. split; [|done]. destruct W. split; simpl in *; try done. set_solver.
  - assert (may_move r Cancelling) as Hm by solve_move.
    destruct (touch_step now Cancelling r Hw Hm) as (F & W & L).
    split; [done|]. split; [|done]. destruct W. split; simpl in *; try done. set_solver.
Qed.

Lemma set_status_inv now i :
  keeps (mark_indexing_agreement_as_canceled_by_requester now i) ∧
  keeps (mark_indexing_agreement_as_abandoned_by_indexer now i) ∧
  keeps (mark_indexing_agreement_as_cancelling now i).
Proof. split_and!; apply set_status_from_inv; intros; solve_move. Qed.

Lemma side_inv {A} id p f (k : option AgreementRow → DbM A) :
  (∀ r, row_wf r → p r = true → side_update r (f r)) → (∀ o, keeps (k o)) →
  keeps (update_one id p f ≫= k).
Proof. intros. apply preserves_bind; [by apply update_side_inv|done]. Qed.

Lemma markers_inv i :
  (∀ now, keeps (mark_terminated_event_emitted now i)) ∧
  (∀ now, keeps (mark_accepted_event_emitted now i)) ∧
  (∀ now, keeps (mark_expired_event_emitted now i)) ∧
  keeps (mark_replacement_queued i) ∧
  (∀ h a, keeps (update_agreement_sync_progress i h a)).
Proof.
  split_and!; intros; (apply side_inv; [|intros; apply preserves_ret]); intros r [] _;
    repeat split; simpl; (done || lia).
Qed.
Lemma audits_inv id :
  (∀ at_ tx, keeps (record_accepted_audit id at_ tx)) ∧
  (∀ cat cby ctx, keeps (record_cancel_audit id cat cby ctx)) ∧
  (∀ at_ tx cat cby ctx, keeps (record_accept_and_cancel_audit id at_ tx cat cby ctx)).
Proof.
  split_and!; intros; (apply preserves_bind; [|intros; apply preserves_ret]).
  - apply update_side_inv. intros. by apply accept_side.
  - apply update_end_inv. intros. by apply side_update_step, end_side.
  - apply update_end_inv. intros r Hw _. apply side_update_step; [done|].
    destruct Hw. repeat split; simpl; (done || lia).
Qed.

Lemma reopen_inv now id seen : keeps (reopen_indexing_agreement_cancel now id seen).
Proof. apply require_row_inv, update_end_inv. intros. by apply reopen_step. Qed.

Lemma offer_tx_inv now id tx : keeps (update_offer_tx_hash now id tx).
Proof.
  apply require_inv, update_side_inv. intros r [] _. repeat split; simpl; (done || lia).
Qed.

Lemma cancel_check_inv now id n ended : 0 ≤ n → keeps (record_cancel_check now id n ended).
Proof.
  intros Hn. apply preserves_bind; [|intros; apply preserves_ret].
  apply require_row_inv, update_side_inv. intros. by apply checked_side.
Qed.

Lemma accept_inv now ids : keeps (batch_update_status_from now ids AcceptedOnChain ACCEPT_FROM).
Proof. apply batch_set_status_inv. intros. solve_move. Qed.

Lemma batch_cancel_inv now ids kind : keeps (batch_apply_cancel now ids kind).
Proof.
  destruct kind; apply batch_set_status_inv; intros r Hw Hs; [|solve_move].
  destruct (ag_abandoned r) eqn:Ha; [|solve_move].
  pose proof (wf_abandoned r Hw Ha). unfold status_in in Hs.
  apply bool_decide_eq_true in Hs. pose proof (wf_reason r Hw).
  destruct (ag_status r) eqn:S; destruct_elems.
  split; [rewrite S; constructor|split; intros; set_solver].
Qed.

Lemma pair_inv {A} now id kind (k : bool → bool → DbM A) :
  (∀ a c, keeps (k a c)) →
  keeps (acc ← update_status_from now id AcceptedOnChain ACCEPT_FROM;
         can ← apply_cancel now id kind; k acc can).
Proof.
  intros Hk. apply preserves_bind.
  - apply preserves_bind; [apply accept_inv|intros; apply preserves_ret].
  - intros a. apply preserves_bind; [|done].
    apply preserves_bind; [apply batch_cancel_inv|intros; apply preserves_ret].
Qed.

Lemma reconcile_inv now id accept cancel : keeps (apply_reconciliation now id accept cancel).
Proof.
  apply preserves_transaction. apply preserves_bind.
  - case_match; [|apply preserves_ret].
    apply preserves_bind; [apply accept_inv|intros; apply preserves_ret].
  - intros a. destruct cancel as [kind|]; [|apply preserves_ret]. apply preserves_bind.
    + apply preserves_bind; [apply batch_cancel_inv|intros; apply preserves_ret].
    + intros c. case_match; [apply preserves_throw|apply preserves_ret].
Qed.

Lemma apply_paired_inv now paired outcomes : keeps (apply_paired now paired outcomes).
Proof.
  revert outcomes. induction paired as [|i rest IH]; intros outcomes; [apply preserves_ret|].
  apply pair_inv. intros a c. case_match; [apply preserves_throw|apply IH].
Qed.

Lemma persist_audit_inv outcomes i : keeps (persist_audit outcomes i).
Proof.
  unfold persist_audit, persist_accept_audit, persist_cancel_audit.
  apply preserves_bind; [|intros _]; repeat case_match; try apply preserves_ret;
    (apply side_inv; [|intros; apply preserves_ret]); intros r [] _;
    repeat split; simpl; (done || lia).
Qed.

Lemma reconcile_batch_inv now items : keeps (apply_reconciliation_batch now items).
Proof.
  unfold apply_reconciliation_batch. destruct items as [|i items]; [apply preserves_ret|].
  apply preserves_transaction, preserves_bind; [apply apply_paired_inv|intros o].
  apply preserves_bind; [apply accept_inv|intros acc].
  apply preserves_bind; [apply batch_cancel_inv|intros req].
  apply preserves_bind; [apply batch_cancel_inv|intros idx].
  apply preserves_bind; [|intros; apply preserves_ret].
  apply preserves_for_each. intros. apply persist_audit_inv.
Qed.

Lemma upsert_missing_inv now missing secs : keeps (upsert_missing now missing secs).
Proof.
  induction missing as [|id rest IH]; [apply preserves_ret|]. intros d Hd.
  simpl. rewrite bind_run. simpl. destruct (Z.ltb_spec secs 0); [done|].
  match goal with |- context [di_missing_secs ?r] => set (row := r) end.
  destruct (Z.ltb_spec i64_max (di_missing_secs row)); [done|].
  destruct (Z.ltb_spec (di_missing_secs row) 0); [done|].
  rewrite bind_run. simpl. apply IH, put_dips_inv; [done|].
  intros k r. rewrite lookup_insert_Some. intros [[_ <-]|[_ Hk]]; [lia|].
  by apply (inv_dips _ (proj1 Hd) k).
Qed.

Lemma dips_inv now ids secs :
  keeps (record_dips_info_checks now ids secs) ∧ keeps (block_missing_dips_info now ids secs).
Proof.
  split.
  - apply preserves_transaction. intros d Hd. rewrite bind_run. simpl. rewrite bind_run. simpl.
    match goal with |- inv_from d0 (?m ?d').2 =>
      assert (keeps m) as Hk; [|apply Hk] end.
    + apply preserves_bind; [case_match; [apply upsert_missing_inv|apply preserves_throw]|].
      intros _. apply preserves_bind; [apply preserves_get|intros; apply preserves_ret].
    + apply put_dips_inv; [done|]. intros k r [Hr _]%map_lookup_filter_Some.
      by apply (inv_dips _ (proj1 Hd) k).
  - intros d Hd. apply put_dips_inv; [done|]. intros k r.
    rewrite map_lookup_imap. destruct (dips_missing d !! k) as [r'|] eqn:Hr; [|done].
    pose proof (inv_dips _ (proj1 Hd) k r' Hr). simpl. case_match; naive_solver.
Qed.

Lemma run_op_inv o : op_ok o → keeps (run_op o).
Proof.
  intros Ho. destruct o; cbn [run_op].
  - apply void_inv, set_target_inv.
  - apply void_inv, set_shortfall_inv.
  - apply void_inv, register_inv.
  - apply void_inv, register_replacing_inv.
  - apply delete_pending_inv.
  - apply delete_pending_inv.
  - apply (proj1 (mark_inv now id)).
  - apply (proj1 (proj2 (mark_inv now id))).
  - apply (proj1 (proj2 (proj2 (mark_inv now id)))).
  - apply (proj2 (proj2 (proj2 (mark_inv now id)))).
  - apply (proj1 (set_status_inv now id)).
  - apply (proj1 (proj2 (set_status_inv now id))).
  - apply (proj2 (proj2 (set_status_inv now id))).
  - apply void_inv, reopen_inv.
  - apply offer_tx_inv.
  - apply (proj1 (audits_inv id)).
  - apply void_inv, (proj1 (proj2 (audits_inv id))).
  - apply void_inv, (proj2 (proj2 (audits_inv id))).
  - by apply void_inv, cancel_check_inv.
  - apply void_inv, reconcile_inv.
  - apply void_inv, reconcile_batch_inv.
  - apply (proj1 (markers_inv id)).
  - apply (proj1 (proj2 (markers_inv id))).
  - apply (proj1 (proj2 (proj2 (markers_inv id)))).
  - apply (proj1 (proj2 (proj2 (proj2 (markers_inv id))))).
  - apply (proj2 (proj2 (proj2 (proj2 (markers_inv id))))).
  - apply void_inv, (dips_inv now missing secs).
  - apply void_inv, (dips_inv now ids secs).
  - intros d Hd. by apply put_listener_inv.
Qed.
End preservation.

(** ** Runs *)

Lemma reg_inv_empty : reg_inv empty_db.
Proof.
  assert (unique_active ∅) by apply map_Forall_empty.
  assert (unique_open ∅) by apply map_Forall_empty.
  split; simpl; try done; set_solver.
Qed.

Lemma steps_inv d0 d d' : inv_from d0 d → rtc step d d' → inv_from d0 d'.
Proof.
  intros Hd Hr. induction Hr as [|d d1 d2 (o & Ho & ->) _ IH]; [done|].
  by apply IH, run_op_inv.
Qed.

Lemma steps_evolve d d' : reg_inv d → rtc step d d' → inv_from d d'.
Proof. intros. eapply steps_inv; [|done]. split; [done|apply db_evolves_refl]. Qed.

Lemma reachable_reg_inv d : reachable d → reg_inv d.
Proof. intros. eapply steps_evolve; [apply reg_inv_empty|done]. Qed.

Fixpoint run_ops (os : list op) (d : Db) : Db :=
  match os with [] => d | o :: os' => run_ops os' (run_op o d).2 end.

Lemma run_ops_steps os d : Forall op_ok os → rtc step d (run_ops os d).
Proof.
  intros Hos. revert d. induction Hos as [|o os Ho _ IH]; intros d; [done|].
  simpl. eapply rtc_l; [by exists o|]. apply IH.
Qed.

(** A request for one indexer, an agreement accepted on chain, abandoned by
    its indexer and cancelled, and a second one whose offer expired. *)
Definition demo_terms : Terms := 
  mkTerms 5 31 2 1900000000 2000000000 10 3 60 3600 0 (mkMetadata 3 1 7 42161 42161 10).
Definition demo_params (id : N) (indexer : N) : NewAgreementParams :=
  mkParams id (100 + id) 1 7 indexer "http://indexer" demo_terms None.
Definition demo_start : list op :=
  [SetTarget 10 1 5 7 42161 2; Register 20 (demo_params 11 31);
   Register 21 (demo_params 12 32); Reconcile 30 11 true None; MarkExpired 40 12].
Definition demo_end : list op :=
  [MarkAbandoning 50 11; CancelCheck 60 11 1 (Some true); Reconcile 70 11 false (Some ByRequester)].

Lemma demo_start_reachable : reachable (run_ops demo_start empty_db).
Proof. apply run_ops_steps. by repeat constructor. Defined.
Lemma demo_end_steps d : rtc step d (run_ops demo_end d).
Proof. apply run_ops_steps. by repeat constructor. Defined.

(** C2: every database the service can reach, by any sequence of registry
    operations with any arguments, failures included, is well formed: one
    active agreement per indexer and deployment, one open request per key,
    agreements that belong to a request, pending cancellations between
    existing agreements, and every row consistent (a deadline the index can
    hold, a bounded failure count, the abandoned flag and the rejection reason
    only on statuses that can have them). *)
Theorem reachable_inv d : reachable d → reg_inv d.
Proof. apply reachable_reg_inv. Qed.

Lemma reachable_inv_witness :
  reg_inv (run_ops demo_start empty_db) ∧
  (ag_status <$> agreements (run_ops demo_start empty_db) !! 11%N) = Some AcceptedOnChain.
Proof. split; [apply reachable_inv, demo_start_reachable|vm_compute; reflexivity]. Defined.

(** C1: the registry implements the agreement lifecycle.  Whatever runs next,
    an agreement on record stays on record, its identity, terms, indexer,
    deployment and request are never changed, and its status moves only along
    the lifecycle's edges. *)
Theorem agreements_follow_lifecycle d d' k r :
  reachable d → rtc step d d' → agreements d !! k = Some r →
  ∃ r', agreements d' !! k = Some r' ∧ frame r r' ∧
        rtc lifecycle (ag_status r) (ag_status r').
Proof.
  intros Hd Hs Hr. apply reachable_reg_inv in Hd.
  destruct (steps_evolve d d' Hd Hs) as [_ Hev]. by apply (ev_kept _ _ Hev).
Qed.

Lemma agreements_follow_lifecycle_witness :
  let d := run_ops demo_start empty_db in
  (ag_status <$> agreements d !! 11%N) = Some AcceptedOnChain ∧
  (ag_status <$> agreements (run_ops demo_end d) !! 11%N) = Some AbandonedByIndexer ∧
  ∃ r', agreements (run_ops demo_end d) !! 11%N = Some r' ∧
        rtc lifecycle AcceptedOnChain (ag_status r').
Proof.
  split; [vm_compute; reflexivity|]. split; [vm_compute; reflexivity|].
  destruct (agreements (run_ops demo_start empty_db) !! 11%N) as [r|] eqn:Hr;
    [|vm_compute in Hr; discriminate].
  destruct (agreements_follow_lifecycle _ (run_ops demo_end (run_ops demo_start empty_db))
    11%N r demo_start_reachable (demo_end_steps _) Hr) as (r' & H1 & _ & H2).
  exists r'. split; [exact H1|]. assert (Hs : ag_status r = AcceptedOnChain)
    by (vm_compute in Hr; injection Hr as <-; reflexivity).
  rewrite Hs in H2. exact H2.
Defined.

(** An agreement that is [Unresponsive], [CanceledByIndexer] or
    [AbandonedByIndexer] has that status forever. *)
Theorem final_status_forever d d' k r :
  reachable d → rtc step d d' → agreements d !! k = Some r →
  ag_status r ∈ final_statuses →
  ag_status <$> agreements d' !! k = Some (ag_status r).
Proof.
  intros Hd Hs Hr Hf. apply reachable_reg_inv in Hd.
  destruct (steps_evolve d d' Hd Hs) as [_ Hev].
  destruct (ev_kept _ _ Hev k r Hr) as (r' & -> & _ & Hl). simpl.
  by rewrite (lifecycle_final _ _ Hf Hl).
Qed.

Definition demo_abandoned : Db := run_ops demo_end (run_ops demo_start empty_db).

Lemma final_status_forever_witness :
  (ag_status <$> agreements (run_ops [MarkCancelling 80 11; Reconcile 90 11 true None]
     demo_abandoned) !! 11%N) = Some AbandonedByIndexer.
Proof.
  destruct (agreements demo_abandoned !! 11%N) as [r|] eqn:Hr; [|vm_compute in Hr; discriminate].
  assert (Hs : ag_status r = AbandonedByIndexer)
    by (vm_compute in Hr; injection Hr as <-; reflexivity).
  rewrite <-Hs. apply (final_status_forever demo_abandoned).
  - unfold reachable; etrans; [apply demo_start_reachable|apply demo_end_steps].
  - apply run_ops_steps. by repeat constructor.
  - exact Hr.
  - rewrite Hs. apply (bool_decide_unpack _). vm_compute. exact I.
Defined.

(** A reachable [Expired] agreement carries no rejection reason, and an
    agreement that carries one has been rejected. *)
Theorem expired_has_no_reason d k r :
  reachable d → agreements d !! k = Some r →
  ag_status r ∈ [Created; Expired; AcceptedOnChain; Unresponsive] →
  ag_rejection_reason r = None ∧ ag_abandoned r = false.
Proof.
  intros Hd Hr Hs. apply reachable_reg_inv in Hd. destruct (inv_row _ Hd k r Hr) as [_ _ _ Ha Hw].
  split.
  - destruct (ag_rejection_reason r); [|done]. specialize (Hw ltac:(done)).
    destruct (ag_status r); destruct_elems.
  - destruct (ag_abandoned r); [|done]. specialize (Ha eq_refl).
    destruct (ag_status r); destruct_elems.
Qed.

Lemma expired_has_no_reason_witness :
  ∃ r, agreements (run_ops demo_start empty_db) !! 12%N = Some r ∧
       ag_status r = Expired ∧ ag_rejection_reason r = None.
Proof.
  destruct (agreements (run_ops demo_start empty_db) !! 12%N) as [r|] eqn:Hr;
    [|vm_compute in Hr; discriminate].
  assert (Hs : ag_status r = Expired) by (vm_compute in Hr; injection Hr as <-; reflexivity).
  exists r. split; [reflexivity|]. split; [exact Hs|].
  apply (expired_has_no_reason _ 12%N r demo_start_reachable Hr).
  rewrite Hs. apply (bool_decide_unpack _). vm_compute. exact I.
Defined.

(** ** Runs that leave a status documented as terminal *)

(** An offer marked expired and then accepted on chain is active again, and a
    cancelled agreement seen live goes back to cancelling. *)
Lemma expired_and_canceled_are_not_terminal :
  let d1 := run_ops (demo_start ++ [Reconcile 60 12 true None]) empty_db in
  let d2 := run_ops [MarkCanceledByRequester 70 12] d1 in
  let d3 := run_ops [Reopen 80 12 true] d2 in
  (ag_status <$> agreements (run_ops demo_start empty_db) !! 12%N) = Some Expired ∧
  (ag_status <$> agreements d1 !! 12%N) = Some AcceptedOnChain ∧
  (ag_status <$> agreements d2 !! 12%N) = Some CanceledByRequester ∧
  (ag_status <$> agreements d3 !! 12%N) = Some Cancelling.
Proof. vm_compute. repeat split. Qed.

(** A rejected agreement put back to cancelling keeps its rejection reason. *)
Lemma reason_outlives_rejected :
  let d := run_ops [SetTarget 10 1 5 7 42161 2; Register 20 (demo_params 11 31);
                    MarkRejected 30 11 (Some PRICE_TOO_LOW); MarkCancelling 40 11] empty_db in
  (ag_status <$> agreements d !! 11%N) = Some Cancelling ∧
  (ag_rejection_reason <$> agreements d !! 11%N) = Some (Some PRICE_TOO_LOW).
Proof. vm_compute. split; reflexivity. Qed.

End RegistryRuns.
