(* ===== verification/RegistryOps.v ===== *)
(** * What the registry's operations do

    The functional behaviour of the operations of [Registry]: the request
    targets as an abstract map, the guarded status changes, the audit columns
    of an agreement's end, and reconciliation, in which the batch of one page
    of chain events is compared with the row-by-row reference. *)

From S2P Require Import Prelude Schema Registry RegistryInv RegistryRuns.
Import Schema Registry RegistryInv RegistryRuns.
Local Open Scope Z_scope.

Module RegistryOps.

(** ** Exact runs of the statements *)

(** An update that makes no row active and moves no row to another slot. *)
Definition quiet (r r' : AgreementRow) : Prop :=
  (active r' = true → active r = true) ∧ same_slot r r'.

Lemma write_quiet d m :
  unique_active (agreements d) →
  (∀ k r', m !! k = Some r' → ∃ r, agreements d !! k = Some r ∧ quiet r r') →
  write_agreements m d = (Ok tt, set_agreements m d).
Proof.
  intros Hu Hq. unfold write_agreements. rewrite decide_True; [done|].
  apply (unique_active_pointwise (agreements d)); [done|].
  intros k r' Hr' Ha. destruct (Hq k r' Hr') as (r & Hr & Hact & Hs). eauto.
Qed.

Lemma quiet_refl r : quiet r r.
Proof. by split. Qed.

Lemma update_one_quiet d id p f :
  unique_active (agreements d) →
  (∀ r, agreements d !! id = Some r → p r = true → quiet r (f r)) →
  update_one id p f d =
    match agreements d !! id with
    | Some r => if p r then (Ok (Some (f r)), set_agreements (<[id := f r]> (agreements d)) d)
                else (Ok None, d)
    | None => (Ok None, d)
    end.
Proof.
  intros Hu Hq. unfold update_one. rewrite bind_run. simpl.
  destruct (agreements d !! id) as [r|] eqn:Hr; [|done].
  destruct (p r) eqn:Hp; [|done]. rewrite bind_run, write_quiet; [done..|].
  intros k r' Hk. destruct (decide (k = id)) as [->|Hne].
  - rewrite lookup_insert_eq in Hk. simplify_eq. eauto.
  - rewrite lookup_insert_ne in Hk by done. eauto using quiet_refl.
Qed.

Lemma update_many_lookup d ids p f moved d' :
  (∀ k r, agreements d !! k = Some r → ag_id r = k) →
  update_many ids p f d = (Ok moved, d') →
  d' = set_agreements (agreements d') d ∧
  (∀ k, agreements d' !! k =
     (λ r, if bool_decide (k ∈ ids) && p r then f r else r) <$> agreements d !! k) ∧
  (∀ k, k ∈ moved ↔ k ∈ ids ∧ ∃ r, agreements d !! k = Some r ∧ p r = true).
Proof.
  intros Hkey. unfold update_many. rewrite bind_run. simpl. rewrite bind_run.
  unfold write_agreements. destruct (decide _); [|discriminate].
  intros Heq. injection Heq as <- <-. split; [reflexivity|]. split.
  - intros k. simpl. rewrite lookup_fmap.
    destruct (agreements d !! k) as [r|] eqn:Hr; [|done].
    simpl. by rewrite (Hkey k r Hr).
  - intros k. rewrite list_elem_of_fmap. split.
    + intros (r & -> & Hr). apply elem_of_select in Hr as (k & Hk & Hh).
      apply andb_prop in Hh as [Hin Hp]. rewrite bool_decide_eq_true in Hin.
      rewrite (Hkey k r Hk) in *. eauto.
    + intros (Hin & r & Hr & Hp). exists r. split; [by rewrite (Hkey k r Hr)|].
      apply elem_of_select. exists k. split; [done|].
      rewrite (Hkey k r Hr), Hp, bool_decide_eq_true_2 by done. done.
Qed.

Lemma update_many_quiet d ids p f :
  unique_active (agreements d) →
  (∀ k r, agreements d !! k = Some r → ag_id r ∈ ids → p r = true → quiet r (f r)) →
  ∃ moved d', update_many ids p f d = (Ok moved, d').
Proof.
  intros Hu Hq. unfold update_many. rewrite bind_run. simpl. rewrite bind_run, write_quiet; [eauto..|].
  intros k r'. rewrite lookup_fmap. destruct (agreements d !! k) as [r|] eqn:Hr; [|done].
  simpl. intros Heq. simplify_eq. exists r. split; [done|].
  case_match eqn:Hh; [|apply quiet_refl]. apply andb_prop in Hh as [Hin Hp].
  rewrite bool_decide_eq_true in Hin. eauto.
Qed.

(** ** Guarded status changes *)

Lemma touch_quiet now s r : active (touch now s r) = false → quiet r (touch now s r).
Proof. intros H. split; [by rewrite H|done]. Qed.

Lemma db_ext d m : agreements d = m → set_agreements m d = d.
Proof. destruct d; simpl. by intros ->. Qed.

(** One row: the batch statement behaves as the single-row update. *)
Lemma update_status_from_run now id s allowed d :
  reg_inv d → (∀ r, active (touch now s r) = false) →
  update_status_from now id s allowed d =
    match agreements d !! id with
    | Some r => if status_in allowed r
                then (Ok true, set_agreements (<[id := touch now s r]> (agreements d)) d)
                else (Ok false, d)
    | None => (Ok false, d)
    end.
Proof.
  intros Hd Hs. unfold update_status_from, batch_update_status_from, batch_set_status.
  rewrite bind_run.
  destruct (update_many_quiet d [id] (status_in allowed) (λ r, touch now s r)) as (moved & d' & Hrun).
  { apply Hd. } { intros. by apply touch_quiet. }
  rewrite Hrun. destruct (update_many_lookup _ _ _ _ _ _ (inv_key _ Hd) Hrun) as (Hd' & Hm & Hmv).
  assert (Hif : ∀ b, (∃ r, agreements d !! id = Some r ∧ status_in allowed r = true) ↔ b = true →
    bool_decide (moved ≠ []) = b).
  { intros b Hb. apply eq_true_iff_eq. rewrite bool_decide_eq_true, <-Hb. split.
    - destruct moved as [|k moved]; [done|]. intros _.
      destruct (proj1 (Hmv k) ltac:(set_solver)) as (Hk & Hr). by apply list_elem_of_singleton in Hk as ->.
    - intros Hr ->. by apply (not_elem_of_nil id), Hmv; split; [set_solver|]. }
  assert (Hne : ∀ k, k ≠ id → agreements d' !! k = agreements d !! k).
  { intros k Hk. rewrite Hm, bool_decide_eq_false_2 by set_solver. by destruct (agreements d !! k). }
  specialize (Hm id). rewrite bool_decide_eq_true_2 in Hm by set_solver.
  destruct (agreements d !! id) as [r|] eqn:Hr; [destruct (status_in allowed r) eqn:Hst|];
    simpl in Hm; rewrite ?Hst in Hm.
  - rewrite (Hif true) by naive_solver. rewrite Hd'. do 2 f_equal. apply map_eq. intros k.
    destruct (decide (k = id)) as [->|Hk]; [by rewrite lookup_insert_eq|].
    rewrite lookup_insert_ne by done. auto.
  - rewrite (Hif false) by naive_solver. rewrite Hd'. f_equal. apply db_ext, map_eq. intros k.
    destruct (decide (k = id)) as [->|Hk]; [by rewrite Hr, Hm|symmetry; auto].
  - rewrite (Hif false) by naive_solver. rewrite Hd'. f_equal. apply db_ext, map_eq. intros k.
    destruct (decide (k = id)) as [->|Hk]; [by rewrite Hr, Hm|symmetry; auto].
Qed.

Lemma set_status_from_run now id s allowed d :
  reg_inv d → s ∉ [Created; AcceptedOnChain] →
  set_status_from now id s allowed d =
    match agreements d !! id with
    | Some r => if status_in allowed r
                then (Ok tt, set_agreements (<[id := touch now s r]> (agreements d)) d)
                else (Err NoRecordsUpdated, d)
    | None => (Err NoRecordsUpdated, d)
    end.
Proof.
  intros Hd Hs. unfold set_status_from. rewrite bind_run. unfold transaction.
  rewrite update_status_from_run; [|done|].
  - destruct (agreements d !! id) as [r|]; [destruct (status_in allowed r)|]; reflexivity.
  - intros r. unfold active. simpl. destruct s; set_solver.
Qed.

(** Each mark that ends or cancels an agreement by [set_status_from]
    succeeds exactly when the agreement exists in one of the statuses the
    guard allows; it then changes the status and [updated_at] of that row
    only, and otherwise it returns [NoRecordsUpdated] and changes nothing. *)
Theorem set_status_from_spec now id s allowed d :
  reg_inv d → s ∉ [Created; AcceptedOnChain] →
  set_status_from now id s allowed d =
    match agreements d !! id with
    | Some r => if status_in allowed r
                then (Ok tt, set_agreements (<[id := touch now s r]> (agreements d)) d)
                else (Err NoRecordsUpdated, d)
    | None => (Err NoRecordsUpdated, d)
    end.
Proof. apply set_status_from_run. Qed.

Lemma set_status_from_spec_witness :
  let d := run_ops demo_start empty_db in
  (mark_indexing_agreement_as_cancelling 55 12 d).1 = Ok tt ∧
  mark_indexing_agreement_as_abandoned_by_indexer 55 12 d = (Err NoRecordsUpdated, d).
Proof.
  split.
  - unfold mark_indexing_agreement_as_cancelling. rewrite set_status_from_spec.
    + vm_compute. reflexivity.
    + apply reachable_reg_inv, demo_start_reachable.
    + apply (bool_decide_unpack _). vm_compute. exact I.
  - unfold mark_indexing_agreement_as_abandoned_by_indexer. rewrite set_status_from_spec.
    + vm_compute. reflexivity.
    + apply reachable_reg_inv, demo_start_reachable.
    + apply (bool_decide_unpack _). vm_compute. exact I.
Defined.

(** ** The end of an agreement *)

(** What the audit columns say once an end is recorded. *)
Definition end_recorded (r : AgreementRow) : Prop :=
  ∃ a c tx, ag_accepted_at r = Some a ∧ ag_canceled_at r = Some c ∧ a ≤ c ∧
    ag_canceled_by r ≠ None ∧ ag_canceled_tx r = Some tx.

Lemma with_end_stable at_ by_ tx r : end_recorded r → with_end at_ by_ tx r = r.
Proof.
  intros (a & c & tx0 & Ha & Hc & Hle & Hb & Ht). unfold with_end, replace_end.
  rewrite Ha, Hc, Ht. simpl. rewrite (proj2 (Z.ltb_ge c a)) by lia. simpl.
  destruct (ag_canceled_by r) as [b|] eqn:Eb; [|done].
  destruct (a <=? at_); simpl; destruct r; simpl in *; by simplify_eq.
Qed.

Lemma with_end_idem at_ by_ tx r :
  with_end at_ by_ tx (with_end at_ by_ tx r) = with_end at_ by_ tx r.
Proof.
  destruct r as [? ? ? ? ? ? ? ? ? ? ? ? ? ? ? acc ? cat cby ctx ? ? ? ? ? ? ? ?].
  unfold with_end, replace_end. simpl.
  destruct acc as [a|], cat as [c|], cby as [b|], ctx as [t|], tx as [t'|]; simpl;
    rewrite ?holds_tand, ?holds_tor; simpl; try done;
    destruct (Z.leb_spec a at_); simpl; try done;
    try (destruct (Z.ltb_spec c a); simpl); try done;
    try (destruct (Z.leb_spec a at_); simpl); try lia; try done;
    try (destruct (Z.ltb_spec at_ a); simpl); try lia; try done;
    try (destruct (Z.ltb_spec c a); simpl); try lia; try done.
Qed.

Lemma with_end_quiet at_ by_ tx r : quiet r (with_end at_ by_ tx r).
Proof. unfold with_end. by case_match. Qed.
Lemma with_accept_quiet at_ tx r : quiet r (with_accept at_ tx r).
Proof. by split. Qed.

Lemma record_cancel_audit_run id at_ by_ tx d :
  unique_active (agreements d) →
  record_cancel_audit id at_ by_ tx d =
    match agreements d !! id with
    | Some r => let r' := with_end (as_i64 at_) by_ tx r in
        (Ok (end_correction r r'), set_agreements (<[id := r']> (agreements d)) d)
    | None => (Ok None, d)
    end.
Proof.
  intros Hu. unfold record_cancel_audit, update_end. rewrite !bind_run. simpl.
  rewrite bind_run, update_one_quiet by (done || intros; apply with_end_quiet).
  by destruct (agreements d !! id).
Qed.

Lemma record_accepted_audit_run id at_ tx d :
  unique_active (agreements d) →
  record_accepted_audit id at_ tx d =
    (Ok tt, match agreements d !! id with
            | Some r => set_agreements
                (<[id := with_accept (as_i64 at_) tx r]> (agreements d)) d
            | None => d
            end).
Proof.
  intros Hu. unfold record_accepted_audit. rewrite bind_run.
  rewrite update_one_quiet by (done || intros; apply with_accept_quiet).
  by destruct (agreements d !! id).
Qed.

(** Recording a cancellation twice is recording it once: the second call
    reports no correction and leaves the database as the first left it, so a
    replayed chain event never re-emits a termination. *)
Theorem record_cancel_audit_idempotent id at_ by_ tx d :
  unique_active (agreements d) →
  let d' := (record_cancel_audit id at_ by_ tx d).2 in
  record_cancel_audit id at_ by_ tx d' = (Ok None, d').
Proof.
  intros Hu. rewrite record_cancel_audit_run by done.
  destruct (agreements d !! id) as [r|] eqn:Hr; simpl.
  - set (r' := with_end (as_i64 at_) by_ tx r).
    rewrite record_cancel_audit_run; simpl.
    + rewrite lookup_insert_eq. simpl. unfold r'. rewrite with_end_idem. f_equal.
      * unfold end_correction. destruct (ag_terminated_event_emitted_at _); done.
      * by rewrite insert_insert_eq.
    + apply (unique_active_pointwise (agreements d)); [done|].
      intros k q Hq Ha. destruct (decide (k = id)) as [->|Hne].
      * rewrite lookup_insert_eq in Hq. simplify_eq. exists r. split; [done|].
        destruct (with_end_quiet (as_i64 at_) by_ tx r). auto.
      * rewrite lookup_insert_ne in Hq by done. exists q. by split.
  - by rewrite record_cancel_audit_run, Hr.
Qed.

(** An accepted agreement with a recorded, transaction-backed end. *)
Definition demo_ended_row : AgreementRow :=
  with_end 500 "indexer" (Some "0xend"%string)
    (with_accept 400 "0xacc" (new_agreement_row 20 (demo_params 11 31))).
Definition demo_ended : Db :=
  set_agreements {[11%N := demo_ended_row]} (run_ops demo_start empty_db).

Lemma record_cancel_audit_idempotent_witness :
  let d := run_ops demo_start empty_db in
  let d' := (record_cancel_audit 11 700 "payer" None d).2 in
  record_cancel_audit 11 700 "payer" None d' = (Ok None, d').
Proof.
  apply (record_cancel_audit_idempotent 11 700 "payer" None (run_ops demo_start empty_db)).
  apply inv_active, reachable_reg_inv, demo_start_reachable.
Defined.

(** The first end that is not before the accept and names its transaction
    stands: whatever cancellation is recorded later, with any time, author or
    transaction, the database is unchanged and no correction is reported. *)
Theorem recorded_end_stands id at_ by_ tx d r :
  unique_active (agreements d) → agreements d !! id = Some r → end_recorded r →
  record_cancel_audit id at_ by_ tx d = (Ok None, d).
Proof.
  intros Hu Hr He. rewrite record_cancel_audit_run, Hr by done. simpl.
  rewrite with_end_stable by done. f_equal.
  - unfold end_correction. by destruct (ag_terminated_event_emitted_at r).
  - by apply db_ext; rewrite insert_id.
Qed.

Lemma recorded_end_stands_witness :
  record_cancel_audit 11 900 "payer" (Some "0xlater"%string) demo_ended = (Ok None, demo_ended).
Proof.
  apply (recorded_end_stands 11 900 "payer" _ demo_ended demo_ended_row).
  - apply (bool_decide_unpack _). vm_compute. exact I.
  - reflexivity.
  - exists 400, 500, "0xend"%string. split_and!; (reflexivity || discriminate || lia).
Defined.

Lemma accept_and_end_row at_ tx cat cby ctx r :
  with_accept_and_end at_ tx cat cby ctx r = with_end cat cby ctx (with_accept at_ tx r).
Proof.
  unfold with_accept_and_end, with_end.
  change (ag_accepted_at (with_accept at_ tx r)) with (coalesce (ag_accepted_at r) (Some at_)).
  change (ag_canceled_at (with_accept at_ tx r)) with (ag_canceled_at r).
  change (ag_canceled_tx (with_accept at_ tx r)) with (ag_canceled_tx r).
  by destruct (replace_end _ _ _ _ _).
Qed.

(** The combined audit is the accept's audit followed by the end's: the
    single statement writes the row the two would, and reports the same
    correction. *)
Theorem accept_and_cancel_audit_is_sequence id at_ tx cat cby ctx d :
  unique_active (agreements d) →
  record_accept_and_cancel_audit id at_ tx cat cby ctx d =
  (_ ← record_accepted_audit id at_ tx; record_cancel_audit id cat cby ctx) d.
Proof.
  intros Hu. rewrite bind_run, record_accepted_audit_run by done.
  unfold record_accept_and_cancel_audit, update_end. rewrite !bind_run. simpl.
  rewrite bind_run, update_one_quiet by done.
  destruct (agreements d !! id) as [r|] eqn:Hr; [|by rewrite record_cancel_audit_run, Hr].
  rewrite record_cancel_audit_run; simpl.
  - by rewrite lookup_insert_eq, insert_insert_eq, accept_and_end_row.
  - apply (unique_active_pointwise (agreements d)); [done|].
    intros k q Hq Ha. destruct (decide (k = id)) as [->|Hne].
    + rewrite lookup_insert_eq in Hq. simplify_eq. exists r. by split.
    + rewrite lookup_insert_ne in Hq by done. exists q. by split.
Qed.

Lemma accept_and_cancel_audit_is_sequence_witness :
  let d := run_ops demo_start empty_db in
  record_accept_and_cancel_audit 12 600 "0xa" 650 "indexer" (Some "0xc"%string) d =
  (_ ← record_accepted_audit 12 600 "0xa";
   record_cancel_audit 12 650 "indexer" (Some "0xc"%string)) d.
Proof.
  apply accept_and_cancel_audit_is_sequence.
  apply inv_active, reachable_reg_inv, demo_start_reachable.
Defined.

Lemma record_cancel_check_run now id n ended d :
  reg_inv d → 0 ≤ n →
  record_cancel_check now id n ended d =
    match agreements d !! id with
    | Some r =>
        if bool_decide (ag_status r = Cancelling) then
          (Ok (Z.min (ag_cancel_attempts r + n) i32_max),
           set_agreements (<[id := checked_row now n ended r]> (agreements d)) d)
        else (Err NoRecordsUpdated, d)
    | None => (Err NoRecordsUpdated, d)
    end.
Proof.
  intros Hd Hn. unfold record_cancel_check, require_row. rewrite !bind_run.
  rewrite update_one_quiet by (apply Hd || done).
  destruct (agreements d !! id) as [r|] eqn:Hr; [|done].
  pose proof (wf_attempts _ (inv_row _ Hd id r Hr)). unfold status_in.
  rewrite (bool_decide_ext (ag_status r ∈ [Cancelling]) (ag_status r = Cancelling)) by set_solver.
  case_bool_decide; [|done]. simpl. rewrite (proj2 (Z.ltb_ge _ _)); [done|].
  unfold i32_max. lia.
Qed.

(** A check of a cancelling agreement adds its failures to the count,
    which stays an [i32] however many there are, keeps the first time the
    agreement was found ended until it is found live, and returns the new
    count; any other agreement is refused and untouched. *)
Theorem record_cancel_check_spec now id n ended d :
  reg_inv d → 0 ≤ n →
  record_cancel_check now id n ended d =
    match agreements d !! id with
    | Some r =>
        if bool_decide (ag_status r = Cancelling) then
          (Ok (Z.min (ag_cancel_attempts r + n) i32_max),
           set_agreements (<[id := checked_row now n ended r]> (agreements d)) d)
        else (Err NoRecordsUpdated, d)
    | None => (Err NoRecordsUpdated, d)
    end.
Proof. apply record_cancel_check_run. Qed.

Lemma record_cancel_check_spec_witness :
  let d := run_ops (demo_start ++ [MarkAbandoning 50 11]) empty_db in
  (record_cancel_check 60 11 4294967295 (Some true) d).1 = Ok i32_max ∧
  record_cancel_check 60 12 1 None d = (Err NoRecordsUpdated, d).
Proof.
  assert (Hr : reg_inv (run_ops (demo_start ++ [MarkAbandoning 50 11]) empty_db)).
  { apply reachable_reg_inv, run_ops_steps. by repeat constructor. }
  split; (rewrite record_cancel_check_spec; [|exact Hr|lia]); vm_compute; reflexivity.
Defined.

(** The chain listener's cursor survives storage: every [u64] chain id,
    block and timestamp read back is the one written, although the columns
    hold signed 64-bit integers, and no other chain's cursor changes. *)
Theorem listener_state_roundtrip chain block id ts d chain' :
  is_u64 chain → is_u64 block → is_u64 chain' → (∀ t, ts = Some t → is_u64 t) →
  let d' := (update_chain_listener_state chain block id ts d).2 in
  (get_chain_listener_state chain d').1 = Ok (Some (mkListenerState chain block id ts)) ∧
  (chain' ≠ chain →
   (get_chain_listener_state chain' d').1 = (get_chain_listener_state chain' d).1).
Proof.
  intros Hc Hb Hc' Ht. simpl. split.
  - rewrite lookup_insert_eq. simpl. rewrite !as_u64_as_i64 by done.
    destruct ts as [t|]; simpl; [|done]. by rewrite as_u64_as_i64 by auto.
  - intros Hne. rewrite lookup_insert_ne; [done|]. intros Heq. apply Hne.
    by rewrite <-(as_u64_as_i64 chain'), <-Heq, as_u64_as_i64.
Qed.

Lemma listener_state_roundtrip_witness :
  let d' := (update_chain_listener_state u64_max 9223372036854775808 None (Some 5) empty_db).2 in
  (get_chain_listener_state u64_max d').1 =
    Ok (Some (mkListenerState u64_max 9223372036854775808 None (Some 5))).
Proof.
  apply (listener_state_roundtrip u64_max 9223372036854775808 None (Some 5) empty_db 1);
    unfold is_u64, u64_max; [lia..|]. intros t [= <-]. lia.
Defined.

(** ** Request targets

    The abstract state of the request table: the number of indexers each
    requester wants for a deployment on a chain, if it wants any. *)

Definition request_key : Type := N * N * Z.

Definition key_is (key : request_key) (r : RequestRow) : bool :=
  key_matches key.1.1 key.1.2 key.2 r.

Definition current (m : gmap N RequestRow) (key : request_key) : option RequestRow :=
  head (select (key_is key) m).

Definition target (d : Db) (key : request_key) : option Z :=
  rq_num_candidates <$> current (requests d) key.

Lemma key_is_spec key r :
  key_is key r = true ↔
  rq_status r = Open ∧ key = (rq_requested_by r, rq_deployment r, rq_chain_id r).
Proof.
  destruct key as [[q dep] c]. unfold key_is, key_matches. rewrite bool_decide_eq_true.
  simpl. split; [intros (-> & -> & -> & ->)|intros (-> & [= -> -> ->])]; done.
Qed.

Lemma open_request_iff r : is_open_request r = true ↔ rq_status r = Open.
Proof. unfold is_open_request. rewrite bool_decide_eq_true. by destruct (rq_status r). Qed.

Lemma current_Some m key r :
  unique_open m → current m key = Some r ↔ ∃ k, m !! k = Some r ∧ key_is key r = true.
Proof.
  rewrite unique_open_spec. intros Hu. unfold current. split.
  - intros Hh. apply elem_of_select. destruct (select _ _); simplify_eq/=. set_solver.
  - intros (k & Hk & Hr). assert (Hin : r ∈ select (key_is key) m) by (apply elem_of_select; eauto).
    destruct (select (key_is key) m) as [|r' l] eqn:Hl; [by apply not_elem_of_nil in Hin|].
    simpl. assert (r' ∈ select (key_is key) m) as Hr' by (rewrite Hl; set_solver).
    apply elem_of_select in Hr' as (k' & Hk' & Hr'). apply key_is_spec in Hr as [? ?], Hr' as [? ?].
    assert (k' = k); [|congruence]. apply (Hu _ _ _ _ Hk' Hk); [by apply open_request_iff..|].
    unfold same_request_key. naive_solver.
Qed.

Lemma current_None m key :
  current m key = None ↔ ∀ k r, m !! k = Some r → key_is key r = false.
Proof.
  unfold current. rewrite head_None. split.
  - intros Hs k r Hk. destruct (key_is key r) eqn:E; [|done].
    exfalso. apply (not_elem_of_nil r). rewrite <-Hs. apply elem_of_select. eauto.
  - intros H. destruct (select (key_is key) m) as [|r l] eqn:Hl; [done|].
    assert (Hr : r ∈ select (key_is key) m) by (rewrite Hl; set_solver).
    apply elem_of_select in Hr as (k & Hk & Hr). rewrite (H k r Hk) in Hr. done.
Qed.

(** Writing one row moves only the keys it or the row it replaces has. *)
Lemma current_insert m k row key :
  unique_open m → unique_open (<[k := row]> m) →
  current (<[k := row]> m) key =
    if key_is key row then Some row
    else if from_option (key_is key) false (m !! k) then None
    else current m key.
Proof.
  intros Hm Hm'. destruct (key_is key row) eqn:Hk.
  { apply current_Some; [done|]. exists k. by rewrite lookup_insert_eq. }
  destruct (from_option (key_is key) false (m !! k)) eqn:Hold.
  - destruct (m !! k) as [r|] eqn:Hr; [|done]. simpl in Hold. rename Hold into Hkr. apply current_None. intros k' r'.
    rewrite lookup_insert_Some. intros [[_ <-]|[Hne Hk']]; [done|].
    destruct (key_is key r') eqn:E; [|done]. exfalso.
    rewrite unique_open_spec in Hm. apply key_is_spec in E as [? ?], Hkr as [? ?].
    apply Hne, (Hm _ _ _ _ Hr Hk'); [by apply open_request_iff..|].
    unfold same_request_key. naive_solver.
  - destruct (current m key) as [r|] eqn:Hc.
    + apply current_Some in Hc as (k' & Hk' & Hr); [|done]. apply current_Some; [done|].
      exists k'. split; [|done]. rewrite lookup_insert_ne; [done|]. intros ->.
      rewrite Hk' in Hold. simpl in Hold. congruence.
    + apply current_None. intros k' r'. rewrite lookup_insert_Some.
      intros [[_ <-]|[_ Hk']]; [done|]. by apply (proj1 (current_None m key) Hc k').
Qed.

Lemma write_request_ok d id row :
  0 ≤ rq_num_candidates row → unique_open (<[id := row]> (requests d)) →
  write_request id row d = (Ok tt, set_requests (<[id := row]> (requests d)) d).
Proof.
  intros Hn Hu. unfold write_request. rewrite (proj2 (Z.ltb_ge _ _)) by lia.
  by rewrite decide_True.
Qed.

(** Replacing the only row of a key keeps the index. *)
Lemma unique_open_insert m k row :
  unique_open m →
  (rq_status row = Open →
   let key := (rq_requested_by row, rq_deployment row, rq_chain_id row) in
   ∀ k' r, m !! k' = Some r → key_is key r = true → k' = k) →
  unique_open (<[k := row]> m).
Proof.
  rewrite !unique_open_spec. intros Hu Hrow i j r1 r2. rewrite !lookup_insert_Some.
  intros [[-> <-]|[H1 L1]] [[-> <-]|[H2 L2]] O1 O2 (S1 & S2 & S3); [done|..|by apply (Hu i j r1 r2)].
  - apply open_request_iff in O1, O2. symmetry. apply (Hrow O1 _ r2 L2).
    apply key_is_spec. split; [done|]. congruence.
  - apply open_request_iff in O1, O2. apply (Hrow O2 _ r1 L1).
    apply key_is_spec. split; [done|]. congruence.
Qed.

Lemma target_insert d k row key :
  reg_inv d → unique_open (<[k := row]> (requests d)) →
  target (set_requests (<[k := row]> (requests d)) d) key =
    if key_is key row then Some (rq_num_candidates row)
    else if from_option (key_is key) false (requests d !! k) then None
    else target d key.
Proof.
  intros Hd Hu. unfold target. simpl. rewrite current_insert by (apply Hd || done).
  by repeat case_match.
Qed.

Definition row_key (r : RequestRow) : request_key :=
  (rq_requested_by r, rq_deployment r, rq_chain_id r).

(** Writing the one row a key may have assigns the key's target. *)
Lemma assign_row d k row :
  reg_inv d → 0 ≤ rq_num_candidates row →
  (∀ k' r, requests d !! k' = Some r → key_is (row_key row) r = true → k' = k) →
  (∀ r, requests d !! k = Some r → row_key r = row_key row) →
  let d' := set_requests (<[k := row]> (requests d)) d in
  write_request k row d = (Ok tt, d') ∧
  ∀ key, target d' key =
    if bool_decide (key = row_key row)
    then (if bool_decide (rq_status row = Open) then Some (rq_num_candidates row) else None)
    else target d key.
Proof.
  intros Hd Hn Honly Hsame.
  assert (unique_open (<[k := row]> (requests d))) as Hu.
  { apply unique_open_insert; [apply Hd|]. intros _. exact Honly. }
  split; [by apply write_request_ok|]. intros key. rewrite target_insert by done.
  destruct (key_is key row) eqn:Hk.
  { apply key_is_spec in Hk as [Ho ->]. by rewrite !bool_decide_eq_true_2. }
  case_bool_decide as Hkey.
  - rewrite (bool_decide_eq_false_2 (rq_status row = Open)).
    2:{ intros Ho. subst key. rewrite (proj2 (key_is_spec _ _)) in Hk; done. }
    case_match eqn:Hold; [done|]. unfold target.
    enough (current (requests d) key = None) as -> by done.
    apply current_None. intros k' r Hk'. destruct (key_is key r) eqn:E; [|done].
    subst key. rewrite (Honly k' r Hk' E) in Hk'. rewrite Hk' in Hold. simpl in Hold. congruence.
  - case_match eqn:Hold; [|done]. destruct (requests d !! k) as [r|] eqn:Hr; [|done].
    exfalso. apply Hkey. apply key_is_spec in Hold as [_ ->]. by apply Hsame.
Qed.

Lemma current_only d key k e :
  reg_inv d → requests d !! k = Some e → key_is key e = true →
  ∀ k' r, requests d !! k' = Some r → key_is key r = true → k' = k.
Proof.
  intros Hd Hk He k' r Hk' Hr.
  assert (Some e = Some r) as [= ->].
  { rewrite <-(proj2 (current_Some _ key e (inv_open _ Hd))) by eauto.
    by apply current_Some; [apply Hd|eauto]. }
  by rewrite <-(inv_request_key _ Hd _ _ Hk'), <-(inv_request_key _ Hd _ _ Hk).
Qed.

(** [set_indexing_target_candidates] never fails on a well-formed
    database and implements one assignment of the abstract target map: the
    key's target becomes the number asked for, or is removed when that is 0,
    every other key's target is unchanged, and no other table is touched. *)
Theorem set_target_refines now new_id q dep c n d :
  reg_inv d → requests d !! new_id = None → 0 ≤ n →
  ∃ out d', set_indexing_target_candidates now new_id q dep c n d = (Ok out, d') ∧
    d' = set_requests (requests d') d ∧
    ∀ key, target d' key =
      if bool_decide (key = (q, dep, c)) then (if n =? 0 then None else Some n)
      else target d key.
Proof.
  intros Hd Hnew Hn. unfold set_indexing_target_candidates, transaction. rewrite bind_run.
  cbn [get]. change (head _) with (current (requests d) (q, dep, c)).
  destruct (current (requests d) (q, dep, c)) as [e|] eqn:Hc.
  - pose proof Hc as Hc'. apply current_Some in Hc' as (k & Hk & He); [|apply Hd].
    pose proof (inv_request_key _ Hd k e Hk) as Hid.
    pose proof (inv_candidates _ Hd k e Hk) as Hpos.
    pose proof (current_only d _ k e Hd Hk He) as Honly.
    apply key_is_spec in He as [Ho Hkey]. injection Hkey as -> -> ->.
    rewrite Hid. destruct (Z.eqb_spec (rq_num_candidates e) n) as [Hsame|Hdiff].
    { eexists _, d. split; [done|]. split; [by destruct d|]. intros key.
      case_bool_decide as Hk0; [|done]. subst key. unfold target. rewrite Hc. simpl.
      destruct (Z.eqb_spec n 0); [lia|by rewrite Hsame]. }
    destruct (Z.eqb_spec n 0) as [Hz|Hz]; rewrite bind_run; unfold update_request;
      rewrite bind_run; cbn [get]; unfold get; rewrite Hk;
      match goal with |- context [write_request k ?row d] =>
        destruct (assign_row d k row) as [-> Ht]; simpl; [done|lia|exact Honly| |] end.
    1,3: intros r Hr; by simplify_eq.
    all: eexists _, _; split; [reflexivity|]; split; [done|]; intros key; rewrite Ht;
      unfold row_key; simpl; case_bool_decide; try done.
    by rewrite (bool_decide_eq_true_2 (rq_status e = Open)).
  - destruct (Z.eqb_spec n 0) as [Hz|Hz].
    { eexists _, d. split; [done|]. split; [by destruct d|]. intros key.
      case_bool_decide; [|done]. subst key. unfold target. by rewrite Hc. }
    rewrite bind_run. unfold insert_request. rewrite bind_run. cbn [get]. unfold get. simpl.
    rewrite Hnew. match goal with |- context [write_request new_id ?row d] =>
      destruct (assign_row d new_id row) as [-> Ht]; simpl; [done|lia| | |] end.
    + intros k' r Hk' Hr. pose proof (proj1 (current_None _ _) Hc k' r Hk') as Hf.
      unfold row_key in Hr. simpl in Hr. congruence.
    + by rewrite Hnew.
    + eexists _, _. split; [reflexivity|]. split; [done|]. intros key. by rewrite Ht.
Qed.

Lemma set_target_refines_witness :
  let d := run_ops demo_start empty_db in
  ∃ out d', set_indexing_target_candidates 90 2 5 7 42161 0 d = (Ok out, d') ∧
    target d (5%N, 7%N, 42161) = Some 2 ∧ target d' (5%N, 7%N, 42161) = None.
Proof.
  destruct (set_target_refines 90 2 5 7 42161 0 (run_ops demo_start empty_db)) as (out & d' & H1 & _ & H2).
  - apply reachable_reg_inv, demo_start_reachable.
  - vm_compute. reflexivity.
  - lia.
  - exists out, d'. split; [exact H1|]. split; [vm_compute; reflexivity|].
    rewrite H2. rewrite bool_decide_eq_true_2 by reflexivity. reflexivity.
Defined.

End RegistryOps.
