(* ===== verification/Reconciliation.v ===== *)
(** * Reconciliation of agreements with the chain

    [apply_reconciliation] and [apply_reconciliation_batch] against a
    reference that reconciles one row at a time. *)

From S2P Require Import Prelude Schema Registry RegistryInv RegistryRuns RegistryOps.
Import Schema Registry RegistryInv RegistryRuns RegistryOps.
Local Open Scope Z_scope.

Module Reconciliation.

(** ** The reference: one row *)

Definition accept_ref (now : Z) (r : AgreementRow) : bool * AgreementRow :=
  if status_in ACCEPT_FROM r then (true, touch now AcceptedOnChain r) else (false, r).

Definition cancel_from (kind : CancelKind) : list AgreementStatus :=
  match kind with
  | ByRequester => CANCEL_BY_REQUESTER_FROM
  | ByIndexer => CANCEL_BY_INDEXER_FROM
  end.

Definition end_status (kind : CancelKind) (r : AgreementRow) : AgreementStatus :=
  match kind with
  | ByRequester => if ag_abandoned r then AbandonedByIndexer else CanceledByRequester
  | ByIndexer => CanceledByIndexer
  end.

Definition cancel_ref (now : Z) (kind : CancelKind) (r : AgreementRow) : bool * AgreementRow :=
  if status_in (cancel_from kind) r then (true, touch now (end_status kind r) r)
  else (false, r).

Definition accept_if (now : Z) (accept : bool) (r : AgreementRow) : bool * AgreementRow :=
  if accept then accept_ref now r else (false, r).

Definition move_ref (now : Z) (accept : bool) (cancel : option CancelKind) (r : AgreementRow)
    : ReconciliationOutcome * AgreementRow :=
  let '(a, r1) := accept_if now accept r in
  let '(c, r2) := match cancel with Some kind => cancel_ref now kind r1 | None => (false, r1) end in
  (mkOutcome a c, r2).

Definition accept_audit_ref (a : ReconciliationAudit) (r : AgreementRow) : AgreementRow :=
  set_accepted_tx (coalesce (au_accepted_tx a) (ag_accepted_tx r))
    (set_accepted_at (coalesce (as_i64 <$> au_accepted_at a) (ag_accepted_at r)) r).

Definition cancel_audit_ref (a : ReconciliationAudit) (r : AgreementRow) : AgreementRow :=
  set_canceled_tx (coalesce (au_canceled_tx a) (ag_canceled_tx r))
    (set_canceled_by (coalesce (au_canceled_by a) (ag_canceled_by r))
      (set_canceled_at (coalesce (as_i64 <$> au_canceled_at a) (ag_canceled_at r)) r)).

Definition audit_ref (o : ReconciliationOutcome) (a : ReconciliationAudit) (r : AgreementRow)
    : AgreementRow :=
  let r1 := if did_accept o then accept_audit_ref a r else r in
  if did_cancel o then cancel_audit_ref a r1 else r1.

Definition reconcile_ref (now : Z) (i : ReconciliationItem) (r : AgreementRow)
    : ReconciliationOutcome * AgreementRow :=
  let '(o, r') := move_ref now (ri_apply_accept i) (ri_cancel i) r in
  (o, audit_ref o (ri_audit i) r').

(** An accept leaves a status both kinds of cancel accept. *)
Lemma accept_then_cancel now kind r :
  (accept_ref now r).1 = true → (cancel_ref now kind (accept_ref now r).2).1 = true.
Proof. unfold accept_ref. case_match; [|done]. by destruct kind. Qed.

(** ** Lookups through the statements *)

Definition keyed (d : Db) : Prop := ∀ k r, agreements d !! k = Some r → ag_id r = k.

(** [rows g d d']: a run that changed only agreements, each by [g]. *)
Definition rows (g : N → AgreementRow → AgreementRow) (d d' : Db) : Prop :=
  d' = set_agreements (agreements d') d ∧
  (∀ k, agreements d' !! k = g k <$> agreements d !! k) ∧
  (∀ k r, ag_id (g k r) = ag_id r).

Lemma rows_keyed g d d' : rows g d d' → keyed d → keyed d'.
Proof.
  intros (_ & Hl & Hg) Hk k r. rewrite Hl. destruct (agreements d !! k) as [r0|] eqn:E; [|done].
  intros [= <-]. rewrite Hg. by apply Hk.
Qed.

Lemma rows_refl d : rows (λ _ r, r) d d.
Proof. split; [by destruct d|]. split; [|done]. intros k. by destruct (agreements d !! k). Qed.

Lemma rows_trans g1 g2 d1 d2 d3 :
  rows g1 d1 d2 → rows g2 d2 d3 → rows (λ k r, g2 k (g1 k r)) d1 d3.
Proof.
  intros (E1 & L1 & I1) (E2 & L2 & I2). split; [|split].
  - rewrite E2, E1. done.
  - intros k. rewrite L2, L1. by destruct (agreements d1 !! k).
  - intros k r. by rewrite I2, I1.
Qed.

Lemma batch_set_status_rows now ids so al d moved d' :
  keyed d → batch_set_status now ids so al d = (Ok moved, d') →
  rows (λ k r, if bool_decide (k ∈ ids) && status_in al r then touch now (so r) r else r) d d' ∧
  ∀ k, k ∈ moved ↔ k ∈ ids ∧ ∃ r, agreements d !! k = Some r ∧ status_in al r = true.
Proof.
  intros Hk. unfold batch_set_status. destruct ids as [|i ids].
  - intros [= <- <-]. split; [|set_solver]. destruct (rows_refl d) as (E & L & I).
    split; [done|]. split; [|intros; by case_match].
    intros k. by destruct (agreements d !! k).
  - intros Hrun. apply update_many_lookup in Hrun as (E & L & M); [|done].
    split; [|done]. split; [done|]. split; [done|]. intros. by case_match.
Qed.

Lemma update_one_rows id p f d o d' :
  (∀ r, ag_id (f r) = ag_id r) → update_one id p f d = (Ok o, d') →
  rows (λ k r, if bool_decide (k = id) && p r then f r else r) d d'.
Proof.
  intros Hf. unfold update_one. rewrite bind_run. simpl.
  assert (Hsame : (∀ r, agreements d !! id = Some r → p r = false) →
    rows (λ k r, if bool_decide (k = id) && p r then f r else r) d d).
  { intros Hp. split; [by destruct d|]. split; [|intros; by case_match]. intros k.
    destruct (agreements d !! k) as [r|] eqn:Hr; [|done]. simpl. case_bool_decide; [|done].
    subst. by rewrite (Hp r Hr). }
  destruct (agreements d !! id) as [r|] eqn:Hr.
  2:{ intros [= <- <-]. by apply Hsame. }
  destruct (p r) eqn:Hp.
  2:{ intros [= <- <-]. apply Hsame. naive_solver. }
  rewrite bind_run. unfold write_agreements. destruct (decide _); [|discriminate].
  intros Hrun. injection Hrun as <- <-. split; [done|]. split; [|intros; by case_match].
  intros k. simpl. case_bool_decide as Hkid; [subst|].
  - rewrite lookup_insert_eq, Hr. simpl. by rewrite Hp.
  - rewrite lookup_insert_ne by done. by destruct (agreements d !! k).
Qed.

(** The function a step applies to row [k] when it touches only [id]. *)
Definition at_id (id : N) (f : AgreementRow → AgreementRow) (k : N) (r : AgreementRow)
    : AgreementRow := if bool_decide (k = id) then f r else r.

Lemma rows_ext g g' d d' : rows g d d' → (∀ k r, g k r = g' k r) → rows g' d d'.
Proof.
  intros (E & L & I) Hg. split; [done|]. split.
  - intros k. rewrite L. destruct (agreements d !! k); [|done]. simpl. by rewrite Hg.
  - intros. by rewrite <-Hg.
Qed.

Lemma single_rows now id so al d b d' :
  keyed d → (moved ← batch_set_status now [id] so al; mret (bool_decide (moved ≠ []))) d = (Ok b, d') →
  rows (at_id id (λ r, if status_in al r then touch now (so r) r else r)) d d' ∧
  b = from_option (status_in al) false (agreements d !! id).
Proof.
  intros Hk. rewrite bind_run.
  destruct (batch_set_status now [id] so al d) as [[moved|] d1] eqn:Hrun; [|discriminate].
  intros Heq. injection Heq as <- <-. apply batch_set_status_rows in Hrun as [Hr Hm]; [|done].
  split.
  - eapply rows_ext; [exact Hr|]. intros k r. unfold at_id.
    rewrite (bool_decide_ext (k ∈ [id]) (k = id)) by set_solver. by case_bool_decide.
  - apply eq_true_iff_eq. rewrite bool_decide_eq_true. split.
    + destruct moved as [|k moved]; [done|]. intros _.
      destruct (proj1 (Hm k) ltac:(set_solver)) as (Hkid & r & Hr' & Hs).
      apply list_elem_of_singleton in Hkid as ->. by rewrite Hr'.
    + destruct (agreements d !! id) as [r|] eqn:E; [|done]. simpl. intros Hs ->.
      apply (not_elem_of_nil id), Hm. split; [set_solver|eauto].
Qed.

Lemma accept_rows now id d b d' :
  keyed d → update_status_from now id AcceptedOnChain ACCEPT_FROM d = (Ok b, d') →
  rows (at_id id (λ r, (accept_ref now r).2)) d d' ∧
  b = from_option (λ r, (accept_ref now r).1) false (agreements d !! id).
Proof.
  intros Hk Hrun. apply single_rows in Hrun as [Hr ->]; [|done]. split.
  - eapply rows_ext; [exact Hr|]. intros. unfold at_id, accept_ref. by repeat case_match.
  - destruct (agreements d !! id) as [r|]; [|done]. simpl. unfold accept_ref. by case_match.
Qed.

Lemma apply_cancel_rows now id kind d b d' :
  keyed d → apply_cancel now id kind d = (Ok b, d') →
  rows (at_id id (λ r, (cancel_ref now kind r).2)) d d' ∧
  b = from_option (λ r, (cancel_ref now kind r).1) false (agreements d !! id).
Proof.
  intros Hk Hrun. unfold apply_cancel, batch_apply_cancel in Hrun.
  assert (rows (at_id id (λ r, if status_in (cancel_from kind) r
      then touch now (end_status kind r) r else r)) d d' ∧
    b = from_option (status_in (cancel_from kind)) false (agreements d !! id)) as [Hr ->].
  { destruct kind; by apply single_rows in Hrun. }
  split.
  - eapply rows_ext; [exact Hr|]. intros k r. unfold at_id, cancel_ref.
    by destruct (bool_decide _), (status_in (cancel_from kind) r).
  - destruct (agreements d !! id) as [r|]; [|done]. simpl. unfold cancel_ref.
    by destruct (status_in (cancel_from kind) r).
Qed.

Lemma move_ref_cancel now accept kind r :
  move_ref now accept (Some kind) r =
  (mkOutcome (accept_if now accept r).1 (cancel_ref now kind (accept_if now accept r).2).1,
   (cancel_ref now kind (accept_if now accept r).2).2).
Proof.
  unfold move_ref. destruct (accept_if now accept r) as [a r1]. simpl.
  by destruct (cancel_ref now kind r1).
Qed.

Lemma move_ref_no_cancel now accept r :
  move_ref now accept None r =
  (mkOutcome (accept_if now accept r).1 false, (accept_if now accept r).2).
Proof. unfold move_ref. by destruct (accept_if now accept r). Qed.

Lemma rows_lookup g d d' k : rows g d d' → agreements d' !! k = g k <$> agreements d !! k.
Proof. intros (_ & L & _). apply L. Qed.

(** One item of the batch that both accepts and cancels. *)
Lemma pair_rows now id kind d a d1 c d2 :
  keyed d → update_status_from now id AcceptedOnChain ACCEPT_FROM d = (Ok a, d1) →
  apply_cancel now id kind d1 = (Ok c, d2) →
  rows (at_id id (λ r, (move_ref now true (Some kind) r).2)) d d2 ∧
  mkOutcome a c = from_option (λ r, (move_ref now true (Some kind) r).1) default_outcome
                    (agreements d !! id).
Proof.
  intros Hk H1 H2. apply accept_rows in H1 as [R1 ->]; [|done].
  apply apply_cancel_rows in H2 as [R2 ->]; [|by eapply rows_keyed]. split.
  - eapply rows_ext; [by eapply rows_trans|]. intros k r. unfold at_id.
    rewrite move_ref_cancel. by case_bool_decide.
  - rewrite (rows_lookup _ _ _ id R1). destruct (agreements d !! id) as [r|]; [|done]. simpl.
    unfold at_id. rewrite bool_decide_eq_true_2, move_ref_cancel by done. done.
Qed.

(** ** Items by agreement *)

Fixpoint find_item (items : list ReconciliationItem) (k : N) : option ReconciliationItem :=
  match items with
  | [] => None
  | i :: rest => if bool_decide (ri_agreement_id i = k) then Some i else find_item rest k
  end.

Definition item_ids (items : list ReconciliationItem) : list N := ri_agreement_id <$> items.

Lemma find_item_Some items k i : find_item items k = Some i → i ∈ items ∧ ri_agreement_id i = k.
Proof.
  induction items as [|j rest IH]; simpl; [done|]. case_bool_decide; [intros [= ->]; set_solver|].
  intros [? ?]%IH. set_solver.
Qed.

Lemma find_item_None items k : find_item items k = None ↔ k ∉ item_ids items.
Proof.
  unfold item_ids. induction items as [|j rest IH]; simpl; [set_solver|].
  rewrite not_elem_of_cons. case_bool_decide; naive_solver.
Qed.

Lemma find_item_in items i :
  NoDup (item_ids items) → i ∈ items → find_item items (ri_agreement_id i) = Some i.
Proof.
  unfold item_ids. induction items as [|j rest IH]; simpl; [set_solver|].
  intros [Hj Hnd]%NoDup_cons [->|Hi]%elem_of_cons; [by rewrite bool_decide_eq_true_2|].
  rewrite bool_decide_eq_false_2; [auto|]. intros Heq. apply Hj. rewrite Heq.
  apply list_elem_of_fmap. eauto.
Qed.

Lemma find_item_filter (p : ReconciliationItem → bool) items k :
  NoDup (item_ids items) →
  find_item (filter (λ i, p i = true) items) k =
    match find_item items k with Some i => if p i then Some i else None | None => None end.
Proof.
  unfold item_ids. induction items as [|j rest IH]; simpl; [done|]. intros [Hj Hnd]%NoDup_cons.
  rewrite filter_cons. case_bool_decide as Hjk.
  - destruct (p j) eqn:Hp.
    + rewrite decide_True by done. simpl. by rewrite bool_decide_eq_true_2.
    + rewrite decide_False by congruence. rewrite IH by done. case_match eqn:Hf; [|done].
      apply find_item_Some in Hf as [Hin Hid]. exfalso. apply Hj. rewrite Hjk, <-Hid.
      apply list_elem_of_fmap. eauto.
  - case_decide; simpl; [rewrite bool_decide_eq_false_2 by done|]; auto.
Qed.

Lemma elem_of_ids_of p items k :
  NoDup (item_ids items) →
  k ∈ ids_of p items ↔ ∃ i, find_item items k = Some i ∧ p i = true.
Proof.
  intros Hnd. unfold ids_of. rewrite list_elem_of_fmap. split.
  - intros (i & -> & [Hp Hi]%list_elem_of_filter). eauto using find_item_in.
  - intros (i & Hf & Hp). apply find_item_Some in Hf as [Hi <-]. exists i.
    split; [done|]. by apply list_elem_of_filter.
Qed.

Lemma NoDup_filter_ids (p : ReconciliationItem → bool) items :
  NoDup (item_ids items) → NoDup (item_ids (filter (λ i, p i = true) items)).
Proof.
  unfold item_ids. induction items as [|j rest IH]; simpl; [done|]. intros [Hj Hnd]%NoDup_cons.
  rewrite filter_cons. case_decide; simpl; [|auto]. apply NoDup_cons. split; [|auto].
  intros (i & Hi & Hin)%list_elem_of_fmap. apply Hj. rewrite Hi. apply list_elem_of_fmap.
  exists i. split; [done|]. by apply list_elem_of_filter in Hin as [_ ?].
Qed.

(** ** The phases of the batch *)

(** The outcome of an item that runs on the row [o]. *)
Definition move_outcome (now : Z) (i : ReconciliationItem) (o : option AgreementRow)
    : ReconciliationOutcome :=
  from_option (λ r, (move_ref now (ri_apply_accept i) (ri_cancel i) r).1) default_outcome o.

(** What the items of a list do to row [k]. *)
Definition moved (now : Z) (items : list ReconciliationItem) (k : N) (r : AgreementRow)
    : AgreementRow :=
  match find_item items k with
  | Some i => (move_ref now (ri_apply_accept i) (ri_cancel i) r).2
  | None => r
  end.

Lemma apply_paired_rows now paired outs d outs' d' :
  keyed d → NoDup (item_ids paired) → (∀ i, i ∈ paired → is_paired i = true) →
  apply_paired now paired outs d = (Ok outs', d') →
  rows (moved now paired) d d' ∧
  ∀ k, outs' !! k = match find_item paired k with
                    | Some i => Some (move_outcome now i (agreements d !! k))
                    | None => outs !! k
                    end.
Proof.
  revert outs d. induction paired as [|i rest IH]; intros outs d Hk Hnd Hp.
  { intros [= <- <-]. split; [apply rows_refl|done]. }
  simpl. apply NoDup_cons in Hnd as [Hi Hnd]. rewrite bind_run.
  destruct (update_status_from _ _ _ _ d) as [[a|] d1] eqn:H1; [|discriminate].
  rewrite bind_run. destruct (apply_cancel _ _ _ d1) as [[c|] d2] eqn:H2; [|discriminate].
  destruct (a && negb c); [discriminate|]. intros Hrun.
  destruct (pair_rows _ _ _ _ _ _ _ _ Hk H1 H2) as [R Ho].
  specialize (Hp i ltac:(set_solver)) as Hpi. unfold is_paired in Hpi.
  apply andb_prop in Hpi as [Hacc Hcan]. destruct (ri_cancel i) as [kind|] eqn:Hc; [|done].
  simpl in R, Ho. apply IH in Hrun as [R2 O2]; [|by eapply rows_keyed|done|set_solver].
  assert (Hnone : find_item rest (ri_agreement_id i) = None) by by apply find_item_None.
  split.
  - eapply rows_ext; [by eapply rows_trans|]. intros k r. unfold moved, at_id. simpl.
    rewrite (bool_decide_ext (k = ri_agreement_id i) (ri_agreement_id i = k)) by naive_solver.
    case_bool_decide as Hik; [|done]. subst k. by rewrite Hnone, Hacc, Hc.
  - intros k. rewrite O2. simpl. case_bool_decide as Hik.
    + subst k. rewrite Hnone, lookup_insert_eq, Ho. unfold move_outcome. by rewrite Hacc, Hc.
    + rewrite lookup_insert_ne by done. rewrite (rows_lookup _ _ _ k R). unfold at_id.
      rewrite bool_decide_eq_false_2 by done. by destruct (agreements d !! k).
Qed.

Lemma note_accepts_lookup ids o k :
  note_accepts ids o !! k =
    if bool_decide (k ∈ ids)
    then Some (mkOutcome true (did_cancel (default default_outcome (o !! k)))) else o !! k.
Proof.
  unfold note_accepts. revert o. induction ids as [|i ids IH]; intros o; simpl; [done|].
  rewrite IH. destruct (decide (i = k)) as [->|Hne].
  - rewrite lookup_insert_eq. simpl. rewrite (bool_decide_eq_true_2 (k ∈ k :: ids)) by set_solver.
    by case_bool_decide.
  - rewrite lookup_insert_ne by done.
    by rewrite (bool_decide_ext (k ∈ i :: ids) (k ∈ ids)) by set_solver.
Qed.

Lemma note_cancels_lookup ids o k :
  note_cancels ids o !! k =
    if bool_decide (k ∈ ids)
    then Some (mkOutcome (did_accept (default default_outcome (o !! k))) true) else o !! k.
Proof.
  unfold note_cancels. revert o. induction ids as [|i ids IH]; intros o; simpl; [done|].
  rewrite IH. destruct (decide (i = k)) as [->|Hne].
  - rewrite lookup_insert_eq. simpl. rewrite (bool_decide_eq_true_2 (k ∈ k :: ids)) by set_solver.
    by case_bool_decide.
  - rewrite lookup_insert_ne by done.
    by rewrite (bool_decide_ext (k ∈ i :: ids) (k ∈ ids)) by set_solver.
Qed.

Lemma initial_outcomes_lookup items (m : gmap N ReconciliationOutcome) k :
  foldl (λ m i, <[ri_agreement_id i := default_outcome]> m) m items !! k =
    if bool_decide (k ∈ item_ids items) then Some default_outcome else m !! k.
Proof.
  unfold item_ids. revert m. induction items as [|i items IH]; intros m; simpl; [done|].
  rewrite IH. destruct (decide (ri_agreement_id i = k)) as [->|Hne].
  - rewrite lookup_insert_eq. rewrite (bool_decide_eq_true_2 (k ∈ k :: _)) by set_solver.
    by case_bool_decide.
  - rewrite lookup_insert_ne by done.
    by rewrite (bool_decide_ext (k ∈ _ :: _) (k ∈ ri_agreement_id <$> items)) by set_solver.
Qed.

(** The batched phases, in the form of [moved]. *)
Lemma accept_batch_rows now items d acc d' :
  keyed d → NoDup (item_ids items) →
  batch_update_status_from now (ids_of is_accept_only items) AcceptedOnChain ACCEPT_FROM d
    = (Ok acc, d') →
  rows (moved now (filter (λ i, is_accept_only i = true) items)) d d' ∧
  ∀ k, k ∈ acc ↔ ∃ i, find_item items k = Some i ∧ is_accept_only i = true ∧
                     did_accept (move_outcome now i (agreements d !! k)) = true.
Proof.
  intros Hk Hnd Hrun. apply batch_set_status_rows in Hrun as [R M]; [|done]. split.
  - eapply rows_ext; [exact R|]. intros k r. unfold moved. rewrite find_item_filter by done.
    pose proof (elem_of_ids_of is_accept_only items k Hnd) as Hin.
    destruct (find_item items k) as [i|] eqn:Hf; [destruct (is_accept_only i) eqn:Hp|].
    2,3: rewrite bool_decide_eq_false_2; [done|]; intros (j & Hj & Hpj)%Hin; congruence.
    rewrite bool_decide_eq_true_2 by (apply Hin; eauto). apply andb_prop in Hp as [-> Hc].
    destruct (ri_cancel i); [done|]. unfold move_ref, accept_if, accept_ref. by destruct (status_in ACCEPT_FROM r).
  - intros k. rewrite M, elem_of_ids_of by done.
    assert (Hm : ∀ i, is_accept_only i = true →
      did_accept (move_outcome now i (agreements d !! k)) = true ↔
      ∃ r, agreements d !! k = Some r ∧ status_in ACCEPT_FROM r = true).
    { intros i Hp. apply andb_prop in Hp as [Ha Hc]. unfold move_outcome. rewrite Ha.
      destruct (ri_cancel i); [done|]. destruct (agreements d !! k) as [r|]; simpl;
        [|split; [done|by intros (? & ? & _)]].
      unfold move_ref, accept_if, accept_ref. destruct (status_in ACCEPT_FROM r) eqn:E; simpl;
        (split; [intros ?; try done; eauto|intros (? & [= <-] & ?); done || congruence]). }
    naive_solver.
Qed.

Lemma cancel_batch_rows now kind items d can d' :
  keyed d → NoDup (item_ids items) →
  batch_apply_cancel now (ids_of (is_cancel_only kind) items) kind d = (Ok can, d') →
  rows (moved now (filter (λ i, is_cancel_only kind i = true) items)) d d' ∧
  ∀ k, k ∈ can ↔ ∃ i, find_item items k = Some i ∧ is_cancel_only kind i = true ∧
                     did_cancel (move_outcome now i (agreements d !! k)) = true.
Proof.
  intros Hk Hnd Hrun.
  assert (batch_set_status now (ids_of (is_cancel_only kind) items) (end_status kind)
    (cancel_from kind) d = (Ok can, d')) as Hrun' by by destruct kind.
  apply batch_set_status_rows in Hrun' as [R M]; [|done].
  assert (Hitem : ∀ i, is_cancel_only kind i = true →
    ri_apply_accept i = false ∧ ri_cancel i = Some kind).
  { intros i Hi. apply andb_prop in Hi as [Ha Hc]. apply negb_true_iff in Ha.
    destruct (ri_cancel i) as [[]|], kind; done. }
  split.
  - eapply rows_ext; [exact R|]. intros k r. unfold moved. rewrite find_item_filter by done.
    pose proof (elem_of_ids_of (is_cancel_only kind) items k Hnd) as Hin.
    destruct (find_item items k) as [i|] eqn:Hf; [destruct (is_cancel_only kind i) eqn:Hp|].
    2,3: rewrite bool_decide_eq_false_2; [done|]; intros (j & Hj & Hpj)%Hin; congruence.
    rewrite bool_decide_eq_true_2 by (apply Hin; eauto). destruct (Hitem i Hp) as [-> ->].
    unfold move_ref, accept_if, cancel_ref. by destruct (status_in (cancel_from kind) r).
  - intros k. rewrite M, elem_of_ids_of by done.
    assert (Hm : ∀ i, is_cancel_only kind i = true →
      did_cancel (move_outcome now i (agreements d !! k)) = true ↔
      ∃ r, agreements d !! k = Some r ∧ status_in (cancel_from kind) r = true).
    { intros i Hp. destruct (Hitem i Hp) as [Ha Hc]. unfold move_outcome. rewrite Ha, Hc.
      destruct (agreements d !! k) as [r|]; simpl; [|split; [done|by intros (? & ? & _)]].
      unfold move_ref, accept_if, cancel_ref. destruct (status_in (cancel_from kind) r) eqn:E; simpl;
        (split; [intros ?; try done; eauto|intros (? & [= <-] & ?); done || congruence]). }
    naive_solver.
Qed.

(** ** Audits *)

Lemma persist_accept_rows id a d u d' :
  persist_accept_audit id a d = (Ok u, d') → rows (at_id id (accept_audit_ref a)) d d'.
Proof.
  unfold persist_accept_audit. case_match eqn:Hnull.
  - intros [= <- <-]. eapply rows_ext; [apply rows_refl|]. intros k r. unfold at_id.
    apply andb_prop in Hnull as [H1 H2]. case_bool_decide; [|done].
    unfold accept_audit_ref. destruct (au_accepted_at a), (au_accepted_tx a); try done.
    by destruct r.
  - rewrite bind_run. destruct (update_one _ _ _ d) as [[o|] d1] eqn:H1; [|discriminate].
    intros [= <- <-]. apply update_one_rows in H1; [|done]. eapply rows_ext; [exact H1|].
    intros k r. unfold at_id, accept_audit_ref. by case_bool_decide.
Qed.

Lemma persist_cancel_rows id a d u d' :
  persist_cancel_audit id a d = (Ok u, d') → rows (at_id id (cancel_audit_ref a)) d d'.
Proof.
  unfold persist_cancel_audit. case_match eqn:Hnull.
  - intros [= <- <-]. eapply rows_ext; [apply rows_refl|]. intros k r. unfold at_id.
    apply andb_prop in Hnull as [[H1 H2]%andb_prop H3]. case_bool_decide; [|done].
    unfold cancel_audit_ref.
    destruct (au_canceled_at a), (au_canceled_by a), (au_canceled_tx a); try done.
    by destruct r.
  - rewrite bind_run. destruct (update_one _ _ _ d) as [[o|] d1] eqn:H1; [|discriminate].
    intros [= <- <-]. apply update_one_rows in H1; [|done]. eapply rows_ext; [exact H1|].
    intros k r. unfold at_id, cancel_audit_ref. by case_bool_decide.
Qed.

Definition outcome_of (outs : gmap N ReconciliationOutcome) (k : N) : ReconciliationOutcome :=
  default default_outcome (outs !! k).

Lemma persist_audit_rows outs i d u d' :
  persist_audit outs i d = (Ok u, d') →
  rows (at_id (ri_agreement_id i)
    (audit_ref (outcome_of outs (ri_agreement_id i)) (ri_audit i))) d d'.
Proof.
  unfold persist_audit. change (default default_outcome (outs !! ri_agreement_id i))
    with (outcome_of outs (ri_agreement_id i)).
  set (o := outcome_of outs (ri_agreement_id i)). rewrite bind_run.
  destruct ((if did_accept o then persist_accept_audit (ri_agreement_id i) (ri_audit i)
    else mret tt) d) as [[x|] d1] eqn:H1; [|discriminate]. intros H2.
  assert (R1 : rows (at_id (ri_agreement_id i)
    (λ r, if did_accept o then accept_audit_ref (ri_audit i) r else r)) d d1).
  { destruct (did_accept o); [by apply persist_accept_rows in H1|].
    injection H1 as <- <-. eapply rows_ext; [apply rows_refl|]. intros k r. unfold at_id.
    by destruct (bool_decide (k = ri_agreement_id i)). }
  assert (R2 : rows (at_id (ri_agreement_id i)
    (λ r, if did_cancel o then cancel_audit_ref (ri_audit i) r else r)) d1 d').
  { destruct (did_cancel o); [by apply persist_cancel_rows in H2|].
    injection H2 as <- <-. eapply rows_ext; [apply rows_refl|]. intros k r. unfold at_id.
    by destruct (bool_decide (k = ri_agreement_id i)). }
  eapply rows_ext; [by eapply rows_trans|]. intros k r. unfold at_id, audit_ref.
  by case_bool_decide.
Qed.

Definition audited (outs : gmap N ReconciliationOutcome) (items : list ReconciliationItem)
    (k : N) (r : AgreementRow) : AgreementRow :=
  match find_item items k with
  | Some i => audit_ref (outcome_of outs k) (ri_audit i) r
  | None => r
  end.

Lemma audits_rows outs items d u d' :
  NoDup (item_ids items) → for_each items (persist_audit outs) d = (Ok u, d') →
  rows (audited outs items) d d'.
Proof.
  revert d. induction items as [|i rest IH]; intros d Hnd; simpl.
  { intros [= <- <-]. apply rows_refl. }
  apply NoDup_cons in Hnd as [Hi Hnd]. rewrite bind_run.
  destruct (persist_audit outs i d) as [[x|] d1] eqn:H1; [|discriminate]. intros H2.
  apply persist_audit_rows in H1. apply IH in H2; [|done].
  eapply rows_ext; [by eapply rows_trans|]. intros k r. unfold audited, at_id. simpl.
  rewrite (bool_decide_ext (k = ri_agreement_id i) (ri_agreement_id i = k)) by naive_solver.
  case_bool_decide as Hik; [|done]. subst k. by rewrite (proj2 (find_item_None rest _) Hi).
Qed.

(** ** The whole batch *)

(** The phase an item belongs to. *)
Lemma item_cases i :
  (is_paired i = true ∧ is_accept_only i = false ∧
   is_cancel_only ByRequester i = false ∧ is_cancel_only ByIndexer i = false) ∨
  (is_paired i = false ∧ is_accept_only i = true ∧
   is_cancel_only ByRequester i = false ∧ is_cancel_only ByIndexer i = false ∧
   ∀ now o, did_cancel (move_outcome now i o) = false) ∨
  (is_paired i = false ∧ is_accept_only i = false ∧
   (is_cancel_only ByRequester i = true ∧ is_cancel_only ByIndexer i = false ∨
    is_cancel_only ByRequester i = false ∧ is_cancel_only ByIndexer i = true) ∧
   ∀ now o, did_accept (move_outcome now i o) = false) ∨
  (is_paired i = false ∧ is_accept_only i = false ∧
   is_cancel_only ByRequester i = false ∧ is_cancel_only ByIndexer i = false ∧
   (∀ now o, move_outcome now i o = default_outcome) ∧
   ∀ now r, (move_ref now (ri_apply_accept i) (ri_cancel i) r).2 = r).
Proof.
  destruct i as [id [] [[]|] a]; unfold is_paired, is_accept_only, is_cancel_only, move_outcome;
    simpl; [by left..| | | |]; right.
  - left. do 4 (split; [done|]). intros now [r|]; [|done]. simpl. unfold move_ref, accept_if.
    by destruct (accept_ref now r).
  - right. left. do 2 (split; [done|]). split; [by left|]. intros now [r|]; [|done]. simpl.
    unfold move_ref, accept_if. by destruct (cancel_ref now ByRequester r).
  - right. left. do 2 (split; [done|]). split; [by right|]. intros now [r|]; [|done]. simpl.
    unfold move_ref, accept_if. by destruct (cancel_ref now ByIndexer r).
  - right. right. do 4 (split; [done|]). split; [by intros now [r|]|done].
Qed.

Definition phase (p : ReconciliationItem → bool) (items : list ReconciliationItem)
    : list ReconciliationItem := filter (λ i, p i = true) items.

Lemma moved_phase now p items k r :
  NoDup (item_ids items) →
  moved now (phase p items) k r =
    match find_item items k with
    | Some i => if p i then (move_ref now (ri_apply_accept i) (ri_cancel i) r).2 else r
    | None => r
    end.
Proof.
  intros Hnd. unfold moved, phase. rewrite find_item_filter by done.
  destruct (find_item items k) as [i|]; [|done]. by destruct (p i).
Qed.

Lemma moved_phases now items k r :
  NoDup (item_ids items) →
  moved now (phase (is_cancel_only ByIndexer) items) k
    (moved now (phase (is_cancel_only ByRequester) items) k
      (moved now (phase is_accept_only items) k
        (moved now (phase is_paired items) k r))) = moved now items k r.
Proof.
  intros Hnd. rewrite !moved_phase by done. unfold moved.
  destruct (find_item items k) as [i|]; [|done].
  destruct (item_cases i) as [(-> & -> & -> & ->)|[(-> & -> & -> & -> & _)
    |[(-> & -> & [[-> ->]|[-> ->]] & _)|(-> & -> & -> & -> & _ & Hid)]]]; done || by rewrite Hid.
Qed.

(** The outcomes the batch reports, from the phases' results. *)
Lemma outcomes_lookup now items d d1 d2 d3 outs1 acc req idx k :
  NoDup (item_ids items) →
  agreements d1 !! k = moved now (phase is_paired items) k <$> agreements d !! k →
  agreements d2 !! k = moved now (phase is_accept_only items) k <$> agreements d1 !! k →
  agreements d3 !! k = moved now (phase (is_cancel_only ByRequester) items) k <$> agreements d2 !! k →
  outs1 !! k = match find_item (phase is_paired items) k with
               | Some i => Some (move_outcome now i (agreements d !! k))
               | None => if bool_decide (k ∈ item_ids items) then Some default_outcome else None
               end →
  (k ∈ acc ↔ ∃ i, find_item items k = Some i ∧ is_accept_only i = true ∧
     did_accept (move_outcome now i (agreements d1 !! k)) = true) →
  (k ∈ req ↔ ∃ i, find_item items k = Some i ∧ is_cancel_only ByRequester i = true ∧
     did_cancel (move_outcome now i (agreements d2 !! k)) = true) →
  (k ∈ idx ↔ ∃ i, find_item items k = Some i ∧ is_cancel_only ByIndexer i = true ∧
     did_cancel (move_outcome now i (agreements d3 !! k)) = true) →
  note_cancels idx (note_cancels req (note_accepts acc outs1)) !! k =
    (λ i, move_outcome now i (agreements d !! k)) <$> find_item items k.
Proof.
  intros Hnd L1 L2 L3 Ho Ha Hr Hi.
  rewrite !note_cancels_lookup, note_accepts_lookup. unfold phase in Ho.
  rewrite find_item_filter in Ho by done.
  assert (Hkeep : ∀ p i (o : option AgreementRow), find_item items k = Some i → p i = false →
    moved now (phase p items) k <$> o = o).
  { intros p i [r|] Hf Hp; [|done]. simpl. by rewrite moved_phase, Hf, Hp. }
  destruct (find_item items k) as [i|] eqn:Hf; simpl in *.
  2:{ rewrite !bool_decide_eq_false_2; [|naive_solver..]. rewrite Ho.
      by rewrite bool_decide_eq_false_2 by by apply find_item_None. }
  assert (Hmem : k ∈ item_ids items).
  { apply find_item_Some in Hf as [Hin <-]. apply list_elem_of_fmap. eauto. }
  rewrite (bool_decide_eq_true_2 (k ∈ item_ids items)) in Ho by done.
  assert (Hb : ∀ (l : list N) (p b : ReconciliationItem → bool),
    (k ∈ l ↔ ∃ j, Some i = Some j ∧ p j = true ∧ b j = true) →
    bool_decide (k ∈ l) = p i && b i).
  { intros l p b Hl. apply eq_true_iff_eq. rewrite bool_decide_eq_true, andb_true_iff, Hl.
    naive_solver. }
  rewrite (Hb acc is_accept_only _ Ha), (Hb req (is_cancel_only ByRequester) _ Hr),
    (Hb idx (is_cancel_only ByIndexer) _ Hi), Ho. clear Ha Hr Hi Hb Ho.
  destruct (item_cases i) as [(P & A & R & I)|[(P & A & R & I & Hc)
    |[(P & A & [[R I]|[R I]] & Hc)|(P & A & R & I & Hd & _)]]]; rewrite P, A, R, I; simpl.
  - done.
  - rewrite L1, (Hkeep is_paired i) by done. specialize (Hc now (agreements d !! k)).
    destruct (move_outcome _ _ _) as [[] []]; simpl in *; done.
  - rewrite L2, (Hkeep is_accept_only i), L1, (Hkeep is_paired i) by done.
    specialize (Hc now (agreements d !! k)).
    destruct (move_outcome _ _ _) as [[] []]; simpl in *; done.
  - rewrite L3, (Hkeep (is_cancel_only ByRequester) i), L2, (Hkeep is_accept_only i), L1,
      (Hkeep is_paired i) by done. specialize (Hc now (agreements d !! k)).
    destruct (move_outcome _ _ _) as [[] []]; simpl in *; done.
  - by rewrite Hd.
Qed.

Lemma audited_moved now items outs k o :
  NoDup (item_ids items) →
  outs !! k = (λ i, move_outcome now i o) <$> find_item items k →
  audited outs items k <$> (moved now items k <$> o) =
    match find_item items k with
    | Some i => (λ r, (reconcile_ref now i r).2) <$> o
    | None => o
    end.
Proof.
  intros Hnd Ho. destruct o as [r|]; [|by destruct (find_item items k)]. simpl.
  unfold audited, moved, outcome_of. rewrite Ho. destruct (find_item items k) as [i|]; [|done].
  simpl. unfold move_outcome, reconcile_ref. simpl. by destruct (move_ref _ _ _ r).
Qed.

(** The batch, row by row. *)
Lemma batch_rowwise now items d outs d' :
  reg_inv d → NoDup (item_ids items) →
  apply_reconciliation_batch now items d = (Ok outs, d') →
  d' = set_agreements (agreements d') d ∧
  ∀ k, match find_item items k with
       | Some i =>
           agreements d' !! k = (λ r, (reconcile_ref now i r).2) <$> agreements d !! k ∧
           outs !! k = Some (from_option (λ r, (reconcile_ref now i r).1) default_outcome
                               (agreements d !! k))
       | None => agreements d' !! k = agreements d !! k ∧ outs !! k = None
       end.
Proof.
  intros Hd Hnd Hrun.
  enough (d' = set_agreements (agreements d') d ∧ ∀ k,
    agreements d' !! k = audited outs items k <$> (moved now items k <$> agreements d !! k) ∧
    outs !! k = (λ i, move_outcome now i (agreements d !! k)) <$> find_item items k)
    as [HE HL].
  { split; [done|]. intros k. destruct (HL k) as [L O]. rewrite audited_moved in L by done.
    rewrite L, O. destruct (find_item items k) as [i|]; [|done]. split; [done|]. simpl. f_equal.
    unfold move_outcome, reconcile_ref. destruct (agreements d !! k) as [r|]; [|done].
    simpl. by destruct (move_ref _ _ _ r). }
  unfold apply_reconciliation_batch in Hrun. destruct items as [|i0 items0].
  { injection Hrun as <- <-. split; [by destruct d|]. intros k. split; [|done].
    by destruct (agreements d !! k). }
  set (items := i0 :: items0) in *. rewrite transaction_ok in Hrun.
  apply bind_ok in Hrun as (outs1 & d1 & H1 & Hrun).
  apply bind_ok in Hrun as (acc & d2 & H2 & Hrun).
  apply bind_ok in Hrun as (req & d3 & H3 & Hrun).
  apply bind_ok in Hrun as (idx & d4 & H4 & Hrun).
  apply bind_ok in Hrun as (u & d5 & H5 & Hrun). injection Hrun as <- <-.
  assert (K : keyed d) by exact (inv_key _ Hd).
  apply apply_paired_rows in H1 as [R1 O1];
    [|done|by apply NoDup_filter_ids|intros i Hi; by apply list_elem_of_filter in Hi as [? _]].
  assert (K1 : keyed d1) by by eapply rows_keyed.
  apply accept_batch_rows in H2 as [R2 M2]; [|done..].
  assert (K2 : keyed d2) by by eapply rows_keyed.
  apply cancel_batch_rows in H3 as [R3 M3]; [|done..].
  assert (K3 : keyed d3) by by eapply rows_keyed.
  apply cancel_batch_rows in H4 as [R4 M4]; [|done..].
  apply audits_rows in H5; [|done].
  pose proof (rows_trans _ _ _ _ _ (rows_trans _ _ _ _ _ (rows_trans _ _ _ _ _
    (rows_trans _ _ _ _ _ R1 R2) R3) R4) H5) as (E & L & _).
  split; [done|]. intros k. split.
  - rewrite L. destruct (agreements d !! k) as [r|]; [|done]. simpl. f_equal. f_equal.
    by apply moved_phases.
  - eapply (outcomes_lookup now items d d1 d2 d3); [done|by apply rows_lookup..| |done|done|done].
    rewrite O1. unfold phase. destruct (find_item _ k); [done|].
    by rewrite initial_outcomes_lookup, lookup_empty.
Qed.

(** C3: [apply_reconciliation_batch], which runs a page of items as paired
    updates and three set-based statements, does to every agreement what
    reconciling its row alone does, audit columns included, reports that row's
    outcome, and leaves every agreement the page does not name as it was. *)
Theorem reconciliation_batch_rowwise now items d outs d' :
  reg_inv d → NoDup (item_ids items) →
  apply_reconciliation_batch now items d = (Ok outs, d') →
  d' = set_agreements (agreements d') d ∧
  ∀ k, match find_item items k with
       | Some i =>
           agreements d' !! k = (λ r, (reconcile_ref now i r).2) <$> agreements d !! k ∧
           outs !! k = Some (from_option (λ r, (reconcile_ref now i r).1) default_outcome
                               (agreements d !! k))
       | None => agreements d' !! k = agreements d !! k ∧ outs !! k = None
       end.
Proof. apply batch_rowwise. Qed.

(** ** The batch succeeds, or changes nothing *)

(** The only error of the statements reconciliation runs. *)
Definition only_unique {A} (m : DbM A) (d : Db) : Prop :=
  ∀ e d', m d = (Err e, d') → e = DbError UniqueViolation.

Lemma only_unique_bind {A B} (m : DbM A) (k : A → DbM B) d :
  only_unique m d → (∀ a d', m d = (Ok a, d') → only_unique (k a) d') → only_unique (m ≫= k) d.
Proof.
  intros Hm Hk e d'. rewrite bind_run. destruct (m d) as [[a|e0] d1] eqn:E.
  - by apply (Hk a d1).
  - intros [= <- <-]. by apply (Hm e0 d1).
Qed.

Lemma only_unique_ret {A} (a : A) d : only_unique (mret a) d.
Proof. by intros e d'. Qed.

Lemma batch_set_status_unique now ids so al d : only_unique (batch_set_status now ids so al) d.
Proof.
  unfold batch_set_status. destruct ids; [apply only_unique_ret|]. intros e d'.
  unfold update_many. rewrite bind_run. simpl. rewrite bind_run. unfold write_agreements.
  destruct (decide _); [discriminate|]. by intros [= <- <-].
Qed.

Lemma update_one_unique id p f d : only_unique (update_one id p f) d.
Proof.
  intros e d'. unfold update_one. rewrite bind_run. simpl.
  destruct (agreements d !! id) as [r|]; [|discriminate]. destruct (p r); [|discriminate].
  rewrite bind_run. unfold write_agreements. destruct (decide _); [discriminate|].
  by intros [= <- <-].
Qed.

Lemma persist_audit_unique outs i d : only_unique (persist_audit outs i) d.
Proof.
  unfold persist_audit, persist_accept_audit, persist_cancel_audit.
  apply only_unique_bind; [|intros _ d' _]; repeat case_match; try apply only_unique_ret;
    (apply only_unique_bind; [apply update_one_unique|intros; apply only_unique_ret]).
Qed.

Lemma for_each_unique {A} (xs : list A) (f : A → DbM ()) d :
  (∀ x d', only_unique (f x) d') → only_unique (for_each xs f) d.
Proof.
  intros Hf. revert d. induction xs as [|x xs IH]; intros d; [apply only_unique_ret|].
  apply only_unique_bind; [apply Hf|auto].
Qed.

(** An accept is never undone for want of a cancel: after the accept the
    cancel's guard holds. *)
Lemma pair_never_half now id kind d a d1 c d2 :
  keyed d → update_status_from now id AcceptedOnChain ACCEPT_FROM d = (Ok a, d1) →
  apply_cancel now id kind d1 = (Ok c, d2) → a && negb c = false.
Proof.
  intros Hk H1 H2. destruct (pair_rows _ _ _ _ _ _ _ _ Hk H1 H2) as [_ Ho].
  destruct (agreements d !! id) as [r|]; simpl in Ho; [|by injection Ho as -> ->].
  rewrite move_ref_cancel in Ho. injection Ho as -> ->.
  pose proof (accept_then_cancel now kind r).
  destruct (accept_ref now r).1; simpl; [|done]. by rewrite H.
Qed.

Lemma apply_paired_unique now paired outs d : keyed d → only_unique (apply_paired now paired outs) d.
Proof.
  revert outs d. induction paired as [|i rest IH]; intros outs d Hk; [apply only_unique_ret|].
  simpl. apply only_unique_bind.
  { apply only_unique_bind; [apply batch_set_status_unique|intros; apply only_unique_ret]. }
  intros a d1 H1. apply only_unique_bind.
  { apply only_unique_bind; [|intros; apply only_unique_ret]. unfold batch_apply_cancel.
    destruct (default _ _); apply batch_set_status_unique. }
  intros c d2 H2. rewrite (pair_never_half _ _ _ _ _ _ _ _ Hk H1 H2).
  apply IH. eapply rows_keyed; [|exact Hk]. by destruct (pair_rows _ _ _ _ _ _ _ _ Hk H1 H2).
Qed.

(** C4: reconciling a page is all or nothing: when it fails the database is
    exactly as before, and the only failure is the index that allows one
    active agreement per indexer and deployment. *)
Theorem reconciliation_batch_atomic now items d e d' :
  reg_inv d → apply_reconciliation_batch now items d = (Err e, d') →
  d' = d ∧ e = DbError UniqueViolation.
Proof.
  intros Hd Hrun. unfold apply_reconciliation_batch in Hrun. destruct items as [|i items];
    [discriminate|]. apply transaction_err in Hrun as [-> (d1 & Hrun)]. split; [done|].
  match type of Hrun with ?m d = _ => assert (only_unique m d) as Hu end; [|by eapply Hu].
  apply only_unique_bind; [apply apply_paired_unique; exact (inv_key _ Hd)|intros outs d2 _].
    apply only_unique_bind; [apply batch_set_status_unique|intros acc d3 _].
    apply only_unique_bind; [apply batch_set_status_unique|intros req d4 _].
    apply only_unique_bind; [apply batch_set_status_unique|intros idx d5 _].
    apply only_unique_bind; [|intros; apply only_unique_ret].
    apply for_each_unique. intros. apply persist_audit_unique.
Qed.

(** [succeeds m d]: [m] returns, in a well-formed database. *)
Definition succeeds {A} (m : DbM A) (d : Db) : Prop :=
  ∃ a d', m d = (Ok a, d') ∧ reg_inv d'.

Lemma succeeds_bind {A B} (m : DbM A) (k : A → DbM B) d :
  succeeds m d → (∀ a d', m d = (Ok a, d') → reg_inv d' → succeeds (k a) d') →
  succeeds (m ≫= k) d.
Proof.
  intros (a & d1 & E & H1) Hk. destruct (Hk a d1 E H1) as (b & d2 & E2 & H2).
  exists b, d2. by rewrite bind_run, E.
Qed.

Lemma succeeds_ret {A} (a : A) d : reg_inv d → succeeds (mret a) d.
Proof. intros. by exists a, d. Qed.

Lemma succeeds_inv {A} (m : DbM A) d a d' :
  reg_inv d → (∀ d0, preserves (inv_from d0) m) → m d = (Ok a, d') → succeeds m d.
Proof.
  intros Hd Hm E. exists a, d'. split; [done|].
  pose proof (Hm d d (conj Hd (db_evolves_refl d))) as [H _]. by rewrite E in H.
Qed.

Lemma accept_succeeds now ids d :
  reg_inv d → (∀ k r, k ∈ ids → agreements d !! k = Some r → ag_status r ≠ Expired) →
  succeeds (batch_update_status_from now ids AcceptedOnChain ACCEPT_FROM) d.
Proof.
  intros Hd Hne. destruct ids as [|i ids]; [by apply succeeds_ret|].
  destruct (update_many_quiet d (i :: ids) (status_in ACCEPT_FROM)
    (λ r, touch now AcceptedOnChain r)) as (mv & d' & E); [apply Hd| |].
  - intros k r Hr Hin Hs. rewrite (inv_key _ Hd k r Hr) in Hin. split; [|done]. intros _.
    specialize (Hne k r Hin Hr). unfold status_in in Hs. apply bool_decide_eq_true in Hs.
    unfold active. destruct (ag_status r); destruct_elems.
  - eapply succeeds_inv; [done| |exact E]. intros d0. exact (accept_inv d0 now (i :: ids)).
Qed.

Lemma cancel_succeeds now ids kind d : reg_inv d → succeeds (batch_apply_cancel now ids kind) d.
Proof.
  intros Hd. destruct ids as [|i ids]; [destruct kind; by apply succeeds_ret|].
  destruct (update_many_quiet d (i :: ids) (status_in (cancel_from kind))
    (λ r, touch now (end_status kind r) r)) as (mv & d' & E); [apply Hd| |].
  - intros k r _ _ _. apply touch_quiet. unfold active, end_status. simpl.
    destruct kind; [|done]. by destruct (ag_abandoned r).
  - eapply succeeds_inv; [done| |]. { intros d0. exact (batch_cancel_inv d0 now (i :: ids) kind). }
    destruct kind; exact E.
Qed.

Lemma persist_audit_succeeds outs i d : reg_inv d → succeeds (persist_audit outs i) d.
Proof.
  intros Hd. unfold persist_audit, persist_accept_audit, persist_cancel_audit.
  assert (Hone : ∀ f d1, reg_inv d1 → (∀ r, quiet r (f r)) →
    (∀ r, row_wf r → side_update r (f r)) →
    succeeds (_ ← update_one (ri_agreement_id i) (λ _, true) f; mret tt) d1).
  { intros f d1 H1 Hq Hs.
    assert (∃ d2, (_ ← update_one (ri_agreement_id i) (λ _, true) f; mret tt) d1 = (Ok tt, d2))
      as [d2 E].
    { rewrite bind_run, update_one_quiet by (apply H1 || auto).
      destruct (agreements d1 !! ri_agreement_id i); by eexists. }
    eapply succeeds_inv; [done| |exact E].
    intros d0. apply side_inv; [auto|intros; apply preserves_ret]. }
  apply succeeds_bind; [|intros _ d1 _ H1]; repeat case_match; try by apply succeeds_ret.
  all: apply Hone; [done|by split|]; intros r [? [? ?] ? ? ?]; repeat split; simpl; (done || lia).
Qed.

Lemma audits_succeed outs items d : reg_inv d → succeeds (for_each items (persist_audit outs)) d.
Proof.
  revert d. induction items as [|i items IH]; intros d Hd; [by apply succeeds_ret|].
  apply succeeds_bind; [by apply persist_audit_succeeds|auto].
Qed.

(** The rows the items would accept are not [Expired] ones. *)
Definition no_late_accept (items : list ReconciliationItem) (d : Db) : Prop :=
  ∀ i r, i ∈ items → ri_apply_accept i = true →
    agreements d !! ri_agreement_id i = Some r → ag_status r ≠ Expired.

Lemma apply_paired_succeeds now paired outs d :
  reg_inv d → NoDup (item_ids paired) → (∀ i, i ∈ paired → is_paired i = true) →
  no_late_accept paired d → succeeds (apply_paired now paired outs) d.
Proof.
  revert outs d. induction paired as [|i rest IH]; intros outs d Hd Hnd Hp Hl.
  { by apply succeeds_ret. }
  apply NoDup_cons in Hnd as [Hi Hnd]. simpl.
  pose proof (Hp i ltac:(set_solver)) as Hpi. apply andb_prop in Hpi as [Ha _].
  apply succeeds_bind.
  { apply succeeds_bind; [|intros; by apply succeeds_ret]. apply accept_succeeds; [done|].
    intros k r ->%list_elem_of_singleton Hr. apply (Hl i r); [set_solver|done..]. }
  intros a d1 H1 Hd1. apply succeeds_bind.
  { apply succeeds_bind; [by apply cancel_succeeds|intros; by apply succeeds_ret]. }
  intros c d2 H2 Hd2.
  rewrite (pair_never_half _ _ _ _ _ _ _ _ (inv_key _ Hd : keyed d) H1 H2).
  apply IH; [done|done|set_solver|]. intros j r Hj Hja Hr.
  destruct (pair_rows _ _ _ _ _ _ _ _ (inv_key _ Hd : keyed d) H1 H2) as [R _].
  rewrite (rows_lookup _ _ _ _ R) in Hr. unfold at_id in Hr.
  rewrite bool_decide_eq_false_2 in Hr.
  - apply (Hl j r); [set_solver|done|]. by destruct (agreements d !! _).
  - intros Heq. apply Hi. rewrite <-Heq. apply list_elem_of_fmap. eauto.
Qed.

(** A page of chain changes is always applied, unless it accepts an
    agreement that had already expired: with no such item the whole batch
    succeeds and leaves a well-formed database. *)
Theorem reconciliation_batch_succeeds now items d :
  reg_inv d → NoDup (item_ids items) → no_late_accept items d →
  succeeds (apply_reconciliation_batch now items) d.
Proof.
  intros Hd Hnd Hl. unfold apply_reconciliation_batch. destruct items as [|i0 items0];
    [by apply succeeds_ret|]. set (items := i0 :: items0) in *.
  match goal with |- succeeds (transaction ?m) d => enough (succeeds m d) as (o & d' & E & H) end.
  { exists o, d'. split; [by apply transaction_ok|done]. }
  apply succeeds_bind.
  { apply apply_paired_succeeds; [done|by apply NoDup_filter_ids| |].
    - intros i Hi. by apply list_elem_of_filter in Hi as [? _].
    - intros i r Hi. apply Hl. by apply list_elem_of_filter in Hi as [_ ?]. }
  intros outs d1 H1 Hd1. apply succeeds_bind.
  { apply accept_succeeds; [done|]. intros k r Hk Hr. apply elem_of_ids_of in Hk as (i & Hf & Hp); [|done].
    apply apply_paired_rows in H1 as [R1 _]; [|exact (inv_key _ Hd)|by apply NoDup_filter_ids
      |intros j Hj; by apply list_elem_of_filter in Hj as [? _]].
    rewrite (rows_lookup _ _ _ k R1) in Hr. apply find_item_Some in Hf as Hfi.
    destruct Hfi as [Hi <-]. unfold moved in Hr. rewrite find_item_filter, Hf in Hr by done.
    pose proof (andb_prop _ _ Hp) as [Ha Hc].
    assert (is_paired i = false) as Hnp.
    { unfold is_paired. rewrite Hc, Ha. done. }
    rewrite Hnp in Hr. apply (Hl i r Hi Ha). by destruct (agreements d !! _). }
  intros acc d2 _ Hd2. apply succeeds_bind; [by apply cancel_succeeds|intros req d3 _ Hd3].
  apply succeeds_bind; [by apply cancel_succeeds|intros idx d4 _ Hd4].
  apply succeeds_bind; [by apply audits_succeed|intros; by apply succeeds_ret].
Qed.

(** A page with an accept, an accept paired with a cancel and a cancel. *)
Definition no_audit : ReconciliationAudit := mkAudit None None None None None.
Definition demo_open : list op :=
  [SetTarget 10 1 5 7 42161 2; Register 20 (demo_params 11 31);
   Register 21 (demo_params 12 32); Register 22 (demo_params 13 33);
   Reconcile 30 13 true None].
Definition demo_page : list ReconciliationItem :=
  [mkItem 11 true None (mkAudit (Some 400) (Some "0xa"%string) None None None);
   mkItem 12 true (Some ByIndexer) no_audit;
   mkItem 13 false (Some ByRequester) no_audit;
   mkItem 14 false (Some ByRequester) no_audit].

Lemma demo_open_inv : reg_inv (run_ops demo_open empty_db).
Proof. apply reachable_reg_inv, run_ops_steps. by repeat constructor. Defined.

Lemma reconciliation_batch_succeeds_witness :
  succeeds (apply_reconciliation_batch 50 demo_page) (run_ops demo_open empty_db).
Proof.
  apply reconciliation_batch_succeeds.
  - exact demo_open_inv.
  - apply (bool_decide_unpack _). vm_compute. exact I.
  - intros i r Hi _ Hr. unfold demo_page in Hi.
    repeat (apply elem_of_cons in Hi as [->|Hi]; [vm_compute in Hr; simplify_eq/=; done|]).
    by apply not_elem_of_nil in Hi.
Defined.

Lemma reconciliation_batch_rowwise_witness :
  ∃ outs d', apply_reconciliation_batch 50 demo_page (run_ops demo_open empty_db) = (Ok outs, d') ∧
    outs !! 12%N = Some (mkOutcome true true) ∧
    (ag_status <$> agreements d' !! 12%N) = Some CanceledByIndexer.
Proof.
  assert (∃ outs d', apply_reconciliation_batch 50 demo_page (run_ops demo_open empty_db) =
    (Ok outs, d')) as (outs & d' & Hrun) by (eexists _, _; vm_compute; reflexivity).
  exists outs, d'. split; [exact Hrun|].
  destruct (reconciliation_batch_rowwise 50 demo_page _ outs d' demo_open_inv
    ltac:(apply (bool_decide_unpack _); vm_compute; exact I) Hrun) as [_ H].
  specialize (H 12%N). destruct H as [H1 H2]. split.
  - etransitivity; [exact H2|]. vm_compute. reflexivity.
  - rewrite H1. vm_compute. reflexivity.
Defined.

(** The offer of agreement 12 expires, the same indexer is offered the same
    deployment again, and the chain then reports the first accept. *)
Definition demo_reoffered : list op :=
  demo_open ++ [MarkExpired 40 12; Register 41 (demo_params 15 32)].
Definition demo_late_page : list ReconciliationItem :=
  [mkItem 11 true None no_audit; mkItem 12 true None no_audit].

Lemma reconciliation_batch_atomic_witness :
  apply_reconciliation_batch 50 demo_late_page (run_ops demo_reoffered empty_db) =
    (Err (DbError UniqueViolation), run_ops demo_reoffered empty_db).
Proof.
  assert (∃ e d', apply_reconciliation_batch 50 demo_late_page (run_ops demo_reoffered empty_db) =
    (Err e, d')) as (e & d' & Hrun) by (eexists _, _; vm_compute; reflexivity).
  destruct (reconciliation_batch_atomic 50 demo_late_page (run_ops demo_reoffered empty_db) e d')
    as [Hd He].
  - apply reachable_reg_inv, run_ops_steps. by repeat constructor.
  - exact Hrun.
  - rewrite Hrun, Hd, He. reflexivity.
Defined.

(** ** One agreement *)

Lemma at_id_put id f d d' r :
  agreements d !! id = Some r → rows (at_id id f) d d' →
  d' = set_agreements (<[id := f r]> (agreements d)) d.
Proof.
  intros Hr (E & L & _). rewrite E. f_equal. apply map_eq. intros k. rewrite L. unfold at_id.
  case_bool_decide as Hkid; [subst; by rewrite lookup_insert_eq, Hr|].
  rewrite lookup_insert_ne by done. by destruct (agreements d !! k).
Qed.

Lemma accept_step now id (accept : bool) d r :
  reg_inv d → agreements d !! id = Some r → (accept = true → ag_status r ≠ Expired) →
  ∃ d1, (if accept then update_status_from now id AcceptedOnChain ACCEPT_FROM else mret false) d
          = (Ok (accept_if now accept r).1, d1) ∧
    rows (at_id id (λ q, (accept_if now accept q).2)) d d1 ∧ reg_inv d1.
Proof.
  intros Hd Hr Hne. unfold accept_if. destruct accept.
  - assert (succeeds (update_status_from now id AcceptedOnChain ACCEPT_FROM) d)
      as (a & d1 & E1 & Hd1).
    { apply succeeds_bind; [|intros; by apply succeeds_ret]. apply accept_succeeds; [done|].
      intros k q ->%list_elem_of_singleton Hq. simplify_eq. auto. }
    exists d1. rewrite E1. apply accept_rows in E1 as [R ->]; [|exact (inv_key _ Hd)].
    by rewrite Hr.
  - exists d. split; [done|]. split; [|done]. eapply rows_ext; [apply rows_refl|].
    intros k q. unfold at_id. by destruct (bool_decide (k = id)).
Qed.

(** [apply_reconciliation] of one agreement that is not an expired one
    being accepted never fails, moves exactly that row as the reference does,
    and reports what it did; in particular an accept and a cancel in one call
    are both applied. *)
Theorem apply_reconciliation_spec now id accept cancel d r :
  reg_inv d → agreements d !! id = Some r → (accept = true → ag_status r ≠ Expired) →
  ∃ d', apply_reconciliation now id accept cancel d =
          (Ok (move_ref now accept cancel r).1, d') ∧
    d' = set_agreements (<[id := (move_ref now accept cancel r).2]> (agreements d)) d.
Proof.
  intros Hd Hr Hne. unfold apply_reconciliation, transaction. rewrite bind_run.
  destruct (accept_step now id accept d r Hd Hr Hne) as (d1 & -> & R1 & Hd1).
  destruct cancel as [kind|].
  - rewrite bind_run, move_ref_cancel. set (ar := accept_if now accept r).
    assert (succeeds (apply_cancel now id kind) d1) as (c & d2 & E2 & Hd2).
    { apply succeeds_bind; [by apply cancel_succeeds|intros; by apply succeeds_ret]. }
    rewrite E2. apply apply_cancel_rows in E2 as [R2 ->]; [|exact (inv_key _ Hd1)].
    rewrite (rows_lookup _ _ _ id R1), Hr. unfold at_id at 1 2. cbn [fmap option_fmap option_map from_option].
    rewrite bool_decide_eq_true_2 by done. fold ar.
    assert (Hpair : ar.1 = true → (cancel_ref now kind ar.2).1 = true).
    { unfold ar, accept_if. destruct accept; [apply accept_then_cancel|done]. }
    replace (ar.1 && negb (cancel_ref now kind ar.2).1) with false
      by (destruct ar.1; [by rewrite Hpair|done]).
    exists d2. split; [done|].
    apply (at_id_put id (λ q, (cancel_ref now kind (accept_if now accept q).2).2) d d2 r Hr).
    eapply rows_ext; [exact (rows_trans _ _ _ _ _ R1 R2)|]. intros k q. unfold at_id.
    by destruct (bool_decide (k = id)).
  - exists d1. rewrite move_ref_no_cancel. split; [done|].
    by apply (at_id_put id (λ q, (accept_if now accept q).2)).
Qed.

Lemma apply_reconciliation_spec_witness :
  ∃ d', apply_reconciliation 60 11 true (Some ByRequester) (run_ops demo_open empty_db) =
    (Ok (mkOutcome true true), d') ∧
    (ag_status <$> agreements d' !! 11%N) = Some CanceledByRequester.
Proof.
  destruct (agreements (run_ops demo_open empty_db) !! 11%N) as [r|] eqn:Hr;
    [|vm_compute in Hr; discriminate].
  assert (Hs : ag_status r = Created ∧ ag_abandoned r = false)
    by (vm_compute in Hr; injection Hr as <-; split; reflexivity).
  destruct Hs as [Hs Ha].
  destruct (apply_reconciliation_spec 60 11 true (Some ByRequester) _ r demo_open_inv Hr)
    as (d' & E & ->); [rewrite Hs; discriminate|].
  vm_compute in Hr. injection Hr as <-. eexists. split; [exact E|]. vm_compute. reflexivity.
Defined.

End Reconciliation.
