(* ===== verification/RegistryQueries.v ===== *)
(** * The registry's queries (dipper-pgregistry/src/postgres.rs)

    Every read of [PgRegistry]: its [WHERE], [ORDER BY], [LIMIT], joins and
    groups, and the structs its rows are decoded into.  A query without an
    [ORDER BY] returns its rows in table order here; no theorem depends on
    that order.  [now] is the database's clock. *)

From S2P Require Import Prelude Schema Registry RegistryInv RegistryRuns RegistryOps.
Import Schema Registry RegistryInv RegistryRuns RegistryOps.
Local Open Scope Z_scope.

Module RegistryQueries.

(** ** Decoded rows *)

Record IndexingRequest : Type := mkIndexingRequest {
  ir_id : N;
  ir_created_at : Z;
  ir_updated_at : Z;
  ir_status : RequestStatus;
  ir_requested_by : N;
  ir_deployment_id : N;
  ir_deployment_chain_id : Z;
  ir_num_candidates : Z }.

Definition request_of_row (r : RequestRow) : IndexingRequest :=
  mkIndexingRequest (rq_id r) (rq_created_at r) (rq_updated_at r) (rq_status r)
    (rq_requested_by r) (rq_deployment r) (rq_chain_id r) (rq_num_candidates r).

Record Indexer : Type := mkIndexer { ix_id : N; ix_url : string }.

Record IndexingAgreement : Type := mkIndexingAgreement {
  ia_id : N;
  ia_nonce_uuid : N;
  ia_created_at : Z;
  ia_updated_at : Z;
  ia_status : AgreementStatus;
  ia_indexing_request_id : N;
  ia_indexer : Indexer;
  ia_terms : Terms;
  ia_last_block_height : option Z;
  ia_last_progress_at : option Z;
  ia_rejection_reason : option string;
  ia_terms_version_hash : option (list Z) }.

(** [last_block_height] is a [BIGINT] read as a [u64]. *)
Definition agreement_of_row (r : AgreementRow) : IndexingAgreement :=
  mkIndexingAgreement (ag_id r) (ag_nonce_uuid r) (ag_created_at r) (ag_updated_at r)
    (ag_status r) (ag_request r) (mkIndexer (ag_indexer r) (ag_indexer_url r)) (ag_terms r)
    (as_u64 <$> ag_last_block_height r) (ag_last_progress_at r) (ag_rejection_reason r)
    (ag_terms_version_hash r).

Record PendingTerminatedEvent : Type := mkTerminated {
  pt_agreement_id : N;
  pt_indexer_id : N;
  pt_deployment_id : N;
  pt_protocol_network : Z;
  pt_canceled_at : option Z;
  pt_canceled_by : option string;
  pt_canceled_tx : option string;
  pt_updated_at : Z }.

Definition terminated_of_row (r : AgreementRow) : PendingTerminatedEvent :=
  mkTerminated (ag_id r) (ag_indexer r) (tm_deployment (t_metadata (ag_terms r)))
    (tm_protocol_network (t_metadata (ag_terms r))) (as_u64 <$> ag_canceled_at r)
    (ag_canceled_by r) (ag_canceled_tx r) (ag_updated_at r).

Record PendingAcceptedEvent : Type := mkAccepted {
  pa_agreement_id : N;
  pa_indexer_id : N;
  pa_deployment_id : N;
  pa_protocol_network : Z;
  pa_accepted_at : Z;
  pa_accepted_tx : string;
  pa_ends_at : Z;
  pa_payer : N }.

(** A [NULL] [accepted_at] is a decode error; the query excludes it. *)
Definition accepted_of_row (r : AgreementRow) : option PendingAcceptedEvent :=
  a ← ag_accepted_at r;
  Some (mkAccepted (ag_id r) (ag_indexer r) (tm_deployment (t_metadata (ag_terms r)))
    (tm_protocol_network (t_metadata (ag_terms r))) (as_u64 a)
    (default EmptyString (ag_accepted_tx r)) (t_ends_at (ag_terms r)) (t_payer (ag_terms r))).

Record PendingExpiredEvent : Type := mkExpired {
  pe_agreement_id : N;
  pe_indexer_id : N;
  pe_deployment_id : N;
  pe_protocol_network : Z;
  pe_request_proposed_at : Z;
  pe_request_expired_at : Z }.

Definition expired_of_row (r : AgreementRow) : PendingExpiredEvent :=
  mkExpired (ag_id r) (ag_indexer r) (tm_deployment (t_metadata (ag_terms r)))
    (tm_protocol_network (t_metadata (ag_terms r)))
    (if tm_proposed_at (t_metadata (ag_terms r)) =? 0
     then as_u64 (Z.max (ag_created_at r / 1000000) 0)
     else tm_proposed_at (t_metadata (ag_terms r)))
    (t_deadline (ag_terms r)).

Record CancellingAgreement : Type := mkCancelling {
  ca_agreement : IndexingAgreement;
  ca_accepted_on_chain : bool;
  ca_ended_seen_at : option Z;
  ca_abandoned : bool }.

Definition cancelling_of_row (r : AgreementRow) : CancellingAgreement :=
  mkCancelling (agreement_of_row r) (negb (is_null (ag_accepted_at r))) (ag_ended_seen_at r)
    (ag_abandoned r).

(** ** Selections *)

(** Read-only: the rows of the table that satisfy [p]. *)
Definition agreements_where (p : AgreementRow → bool) : DbM (list AgreementRow) :=
  d ← get; mret (select p (agreements d)).
Definition requests_where (p : RequestRow → bool) : DbM (list RequestRow) :=
  d ← get; mret (select p (requests d)).

(** A statement that casts the JSON deadline.  The planner may evaluate the
    cast before the other conditions, so one row it fails on may fail the
    query. *)
Definition casts_deadline {A} (m : DbM A) : DbM A :=
  d ← get;
  if forallb deadline_fits (map_to_list (agreements d)).*2 then m
  else throw (DbError NumericOutOfRange).

Definition get_all_indexing_requests : DbM (list IndexingRequest) :=
  rows ← requests_where (λ _, true); mret (request_of_row <$> rows).

Definition get_indexing_request_by_id (id : N) : DbM (option IndexingRequest) :=
  d ← get; mret (request_of_row <$> requests d !! id).

Definition get_indexing_requests_by_deployment_id (dep : N) : DbM (list IndexingRequest) :=
  rows ← requests_where (λ r, bool_decide (rq_deployment r = dep));
  mret (request_of_row <$> rows).

Definition get_active_indexing_agreements_by_indexing_request_id (req : N)
    : DbM (list IndexingAgreement) :=
  rows ← agreements_where (λ r, bool_decide (ag_request r = req)
           && status_in [Created; AcceptedOnChain] r);
  mret (agreement_of_row <$> rows).

Definition count_accepted_agreements_by_deployment (dep : N) : DbM Z :=
  rows ← agreements_where (λ r, bool_decide (ag_deployment r = dep)
           && status_in [AcceptedOnChain] r);
  mret (Z.of_nat (length rows)).

Definition get_indexing_agreement_by_id (id : N) : DbM (option IndexingAgreement) :=
  d ← get; mret (agreement_of_row <$> agreements d !! id).

Definition get_indexing_agreements_by_ids (ids : list N) : DbM (gmap N IndexingAgreement) :=
  match ids with
  | [] => mret ∅
  | _ =>
      rows ← agreements_where (λ r, bool_decide (ag_id r ∈ ids));
      mret (list_to_map ((λ r, (ag_id r, agreement_of_row r)) <$> rows))
  end.

Definition get_indexing_agreements_by_deployment_id (dep : N) : DbM (list IndexingAgreement) :=
  rows ← agreements_where (λ r, bool_decide (ag_deployment r = dep));
  mret (agreement_of_row <$> rows).

Definition get_indexing_agreements_by_indexer_id (indexer : N) : DbM (list IndexingAgreement) :=
  rows ← agreements_where (λ r, bool_decide (ag_indexer r = indexer));
  mret (agreement_of_row <$> rows).

Definition get_indexing_agreements_by_indexing_request_id (req : N)
    : DbM (list IndexingAgreement) :=
  rows ← agreements_where (λ r, bool_decide (ag_request r = req));
  mret (agreement_of_row <$> rows).

(** [GROUP BY key] with [array_agg(value)]. *)
Definition group_rows {R} (key value : R → N) (rows : list R) : gmap N (list N) :=
  foldr (λ r m, <[key r := value r :: default [] (m !! key r)]> m) ∅ rows.

Definition get_pending_agreement_indexers_by_deployment (indexers : list N)
    : DbM (gmap N (list N)) :=
  match indexers with
  | [] => mret ∅
  | _ =>
      rows ← agreements_where (λ r, bool_decide (ag_indexer r ∈ indexers)
               && status_in [Created; AcceptedOnChain] r);
      mret (group_rows ag_deployment ag_indexer rows)
  end.

(** ** Who declined *)

Definition transient_reasons : list string :=
  [DEADLINE_EXPIRED; SUBGRAPH_MANIFEST_UNAVAILABLE; UNEXPECTED_SERVICE_PROVIDER;
   AGREEMENT_EXPIRED; UNSUPPORTED_METADATA_VERSION; CAPACITY_EXCEEDED; INDEXER_UNAVAILABLE;
   INVALID_SIGNATURE; REPLAY_DETECTED].
Definition uncertain_reasons : list string := [SENDER_NOT_TRUSTED; UNSPECIFIED].

(** The lookbacks the query takes, as durations. *)
Record Lookbacks : Type := mkLookbacks {
  lb_default_days : Z;
  lb_price_days : Z;
  lb_transient_minutes : Z;
  lb_uncertain_days : Z }.

Definition never_offered (r : AgreementRow) : bool :=
  status_in [Expired] r && is_null (ag_offer_tx_hash r) && is_null (ag_rejection_reason r).

(** The [WHERE] clause, as written. *)
Definition declined_clause (now : Z) (lb : Lookbacks) (r : AgreementRow) : bool :=
  let since w := Some (now - w <=? ag_updated_at r) in
  let reason := ag_rejection_reason r in
  holds (Some (status_in [CanceledByIndexer; Expired; Rejected; AbandonedByIndexer] r) AND
    ((sql_eq reason (Some PRICE_TOO_LOW) AND since (days (lb_price_days lb)))
     OR (sql_in reason transient_reasons AND since (minutes (lb_transient_minutes lb)))
     OR (sql_in reason uncertain_reasons AND since (days (lb_uncertain_days lb)))
     OR (Some (never_offered r) AND since (minutes (lb_transient_minutes lb)))
     OR (NOT (sql_in (coalesce reason (Some EmptyString))
                (PRICE_TOO_LOW :: transient_reasons ++ uncertain_reasons))
         AND NOT (Some (never_offered r)) AND since (days (lb_default_days lb)))))%dipper.

Definition get_declined_indexers_by_deployment (now : Z) (lb : Lookbacks)
    : DbM (gmap N (list N)) :=
  rows ← agreements_where (declined_clause now lb);
  mret (remove_dups <$> group_rows ag_deployment ag_indexer rows).

Definition get_unresponsive_indexers (now lookback_days chain_id : Z) : DbM (list N) :=
  d ← get;
  mret (remove_dups (ag_indexer <$>
    select (λ a, status_in [Unresponsive] a
                 && (now - days lookback_days <=? ag_updated_at a)
                 && match requests d !! ag_request a with
                    | Some r => bool_decide (rq_chain_id r = chain_id)
                    | None => false
                    end) (agreements d))).

(** ** Cancelling agreements *)

Definition past_deadline (now : Z) (r : AgreementRow) : bool :=
  seconds (t_deadline (ag_terms r)) <? now.

Definition due_for_check (now max_attempts min_age_minutes : Z) (r : AgreementRow) : bool :=
  holds (Some (status_in [Cancelling] r)
    AND (Some (ag_cancel_attempts r <? max_attempts)
         OR sql_lt (ag_cancel_checked_at r) (Some (now - hours 1)))
    AND (Some (negb (is_null (ag_cancel_checked_at r)))
         OR Some (ag_updated_at r <? now - minutes min_age_minutes)))%dipper.

Definition check_key (now : Z) (r : AgreementRow) : list Z :=
  [default (ag_updated_at r) (ag_cancel_checked_at r)
     - (if negb (is_null (ag_accepted_at r)) || past_deadline now r then hours 1 else 0);
   ag_updated_at r].

(** [i32::try_from(max_attempts).unwrap_or(i32::MAX)] *)
Definition get_cancelling_agreements (now batch_size max_attempts min_age_minutes : Z)
    : DbM (list CancellingAgreement) :=
  casts_deadline (
    rows ← agreements_where (due_for_check now (Z.min max_attempts i32_max) min_age_minutes);
    rows ← sql_limit batch_size (order_by (check_key now) rows);
    mret (cancelling_of_row <$> rows)).

(** ** Events still to emit *)

Definition TERMINATED_TX_WAIT_MINUTES : Z := 60.

Definition awaits_terminated (now : Z) (r : AgreementRow) : bool :=
  status_in [CanceledByRequester; CanceledByIndexer; AbandonedByIndexer] r
  && negb (is_null (ag_accepted_at r)) && is_null (ag_terminated_event_emitted_at r)
  && (negb (is_null (ag_canceled_tx r))
      || (ag_updated_at r <? now - minutes TERMINATED_TX_WAIT_MINUTES)).

Definition get_agreements_pending_terminated_emission (now limit : Z)
    : DbM (list PendingTerminatedEvent) :=
  rows ← agreements_where (awaits_terminated now);
  rows ← sql_limit limit (order_by (λ r, [ag_updated_at r]) rows);
  mret (terminated_of_row <$> rows).

Definition awaits_accepted (r : AgreementRow) : bool :=
  negb (is_null (ag_accepted_at r)) && is_null (ag_accepted_event_emitted_at r).

Definition get_agreements_pending_accepted_emission (limit : Z)
    : DbM (list PendingAcceptedEvent) :=
  rows ← agreements_where awaits_accepted;
  rows ← sql_limit limit (order_by (λ r, [default 0 (ag_accepted_at r)]) rows);
  mret (omap accepted_of_row rows).

Definition awaits_expired (r : AgreementRow) : bool :=
  status_in [Expired] r && is_null (ag_expired_event_emitted_at r).

Definition get_agreements_pending_expired_emission (limit : Z)
    : DbM (list PendingExpiredEvent) :=
  rows ← agreements_where awaits_expired;
  rows ← sql_limit limit (order_by (λ r, [ag_updated_at r]) rows);
  mret (expired_of_row <$> rows).

(** ** Requests to reassess *)

Definition get_open_indexing_requests_for_reassessment (now min_age_seconds batch_size : Z)
    : DbM (list IndexingRequest) :=
  rows ← requests_where (λ r, bool_decide (rq_status r = Open)
           && (rq_created_at r <? now - seconds min_age_seconds));
  mret (request_of_row <$> limit_if_pos batch_size (order_by (λ r, [rq_updated_at r]) rows)).

Definition get_short_requests_on_deployments_with_ended_agreements
    (now since_seconds batch_size : Z) : DbM (list IndexingRequest) :=
  d ← get;
  let ended r a := bool_decide (ag_deployment a = rq_deployment r)
                   && status_in [CanceledByRequester] a
                   && (now - seconds since_seconds <=? ag_updated_at a) in
  let rows := select (λ r, bool_decide (rq_status r = Open) && rq_shortfall_active r
                && existsb (ended r) (map_to_list (agreements d)).*2) (requests d) in
  rows ← sql_limit batch_size (order_by (λ r, [rq_updated_at r]) rows);
  mret (request_of_row <$> rows).

Definition get_short_open_indexing_requests (batch_size : Z) : DbM (list IndexingRequest) :=
  rows ← requests_where (λ r, bool_decide (rq_status r = Open) && rq_shortfall_active r);
  mret (request_of_row <$> limit_if_pos batch_size (order_by (λ r, [rq_updated_at r]) rows)).

(** ** Expiry and liveness *)

(** [chain_timestamp as i64] *)
Definition get_expired_created_agreements (batch_size chain_timestamp : Z)
    : DbM (list IndexingAgreement) :=
  casts_deadline (
    rows ← agreements_where (λ r, status_in [Created] r
             && (t_deadline (ag_terms r) <? as_i64 chain_timestamp));
    mret (agreement_of_row <$>
      limit_if_pos batch_size (order_by (λ r, [t_deadline (ag_terms r)]) rows))).

Definition progress_key (r : AgreementRow) : list Z := nulls_first (ag_last_progress_at r).

(** [SELECT DISTINCT ON (indexer_id) id .. ORDER BY indexer_id, ..]: the first
    row of each indexer. *)
Fixpoint distinct_on_indexer (seen : list N) (rows : list AgreementRow) : list AgreementRow :=
  match rows with
  | [] => []
  | r :: rest =>
      if bool_decide (ag_indexer r ∈ seen) then distinct_on_indexer seen rest
      else r :: distinct_on_indexer (ag_indexer r :: seen) rest
  end.

Definition get_accepted_on_chain_agreements (batch_size : Z) : DbM (list IndexingAgreement) :=
  d ← get;
  let accepted := select (status_in [AcceptedOnChain]) (agreements d) in
  let stalest := ag_id <$> limit_if_pos batch_size (order_by progress_key accepted) in
  let stalest_per_indexer := ag_id <$> distinct_on_indexer []
        (order_by (λ r, Z.of_N (ag_indexer r) :: progress_key r) accepted) in
  let rows := select (λ r, bool_decide (ag_id r ∈ stalest ++ stalest_per_indexer))
                (agreements d) in
  mret (agreement_of_row <$> order_by progress_key rows).

Definition get_agreements_pending_chain_cancel (batch_size : Z) : DbM (list IndexingAgreement) :=
  d ← get;
  let rows := select (λ a, status_in [AcceptedOnChain] a
                && match requests d !! ag_request a with
                   | Some r => bool_decide (rq_status r = Canceled)
                   | None => false
                   end) (agreements d) in
  mret (agreement_of_row <$> limit_if_pos batch_size (order_by (λ r, [ag_updated_at r]) rows)).

Definition get_ended_agreements_awaiting_replacement (batch_size : Z)
    : DbM (list IndexingAgreement) :=
  rows ← agreements_where (λ r, ag_replacement_pending r && negb (status_in [Cancelling] r));
  rows ← sql_limit batch_size (order_by (λ r, [ag_updated_at r]) rows);
  mret (agreement_of_row <$> rows).

Definition get_abandoned_indexers_holding_slots (req : N) : DbM (list N) :=
  rows ← agreements_where (λ r, bool_decide (ag_request r = req) && status_in [Cancelling] r
           && ag_replacement_pending r && is_null (ag_ended_seen_at r));
  mret (ag_indexer <$> rows).

(** ** Counts *)

(** [GROUP BY key] with [COUNT( * )]. *)
Definition count_rows {R} (key : R → N) (rows : list R) : gmap N Z :=
  foldr (λ r m, <[key r := default 0 (m !! key r) + 1]> m) ∅ rows.

Definition count_active_agreements_by_deployment : DbM (gmap N Z) :=
  rows ← agreements_where (status_in [Created; AcceptedOnChain]);
  mret (count_rows ag_deployment rows).

Definition in_flight (now : Z) (r : AgreementRow) : bool :=
  status_in [Created] r
  || (status_in [Cancelling] r && is_null (ag_accepted_at r)
      && (now <? seconds (t_deadline (ag_terms r)))).

(** [GROUPING SETS ((indexer_id), ())]: a count per indexer and the total. *)
Definition count_created_agreements_by_indexer (now : Z) : DbM (gmap N Z * Z) :=
  casts_deadline (
    rows ← agreements_where (in_flight now);
    mret (count_rows ag_indexer rows, Z.of_nat (length rows))).

Definition exists_active_agreements : DbM bool :=
  rows ← agreements_where (status_in [Created; AcceptedOnChain]);
  mret (bool_decide (rows ≠ [])).

(** ** Denied indexers and the watcher *)

Definition get_dips_info_blocks (now : Z) : DbM (list N) :=
  d ← get;
  mret (fst <$> filter (λ kv, holds (sql_lt (Some now) (di_blocked_until kv.2)) = true)
                  (map_to_list (dips_missing d))).

Definition get_indexer_denylist (now : Z) : DbM (list N) :=
  d ← get;
  let denied := fst <$> filter (λ kv, is_null (dn_expires_at kv.2)
                  || holds (sql_lt (Some now) (dn_expires_at kv.2)) = true)
                  (map_to_list (denylist d)) in
  let blocked := fst <$> filter (λ kv, holds (sql_lt (Some now) (di_blocked_until kv.2)) = true)
                  (map_to_list (dips_missing d)) in
  mret (remove_dups (denied ++ blocked)).

Definition get_indexers_with_accepted_agreements : DbM (list N) :=
  rows ← agreements_where (status_in [AcceptedOnChain]);
  mret (remove_dups (ag_indexer <$> rows)).

(** ** Pending cancellations *)

Definition get_pending_cancellations_by_new_agreement (new_id : N) : DbM (list N) :=
  d ← get; mret (snd <$> filter (λ p, p.1 = new_id) (elements (pending d))).

Definition list_executable_pending_cancellations (limit : Z) : DbM (list N) :=
  d ← get;
  let news := filter (λ n, from_option (status_in [AcceptedOnChain]) false
                             (agreements d !! n) = true)
                (remove_dups (fst <$> elements (pending d))) in
  sql_limit limit (order_by (λ n, [Z.of_N n]) news).

End RegistryQueries.
