(* ===== verification/QueryProps.v ===== *)
(** * What the registry's queries return *)

From S2P Require Import Prelude Schema Registry RegistryInv RegistryRuns RegistryOps RegistryQueries.
Import Schema Registry RegistryInv RegistryRuns RegistryOps RegistryQueries.
Local Open Scope Z_scope.

Module QueryProps.

(** ** Groups and counts *)

Lemma group_rows_lookup {R} (key value : R → N) rows k :
  default [] (group_rows key value rows !! k) = value <$> filter (λ r, key r = k) rows.
Proof.
  induction rows as [|r rows IH]; [done|]. simpl. rewrite filter_cons.
  case_decide as Hk.
  - subst k. rewrite lookup_insert_eq. simpl. by rewrite IH.
  - by rewrite lookup_insert_ne.
Qed.

Lemma count_rows_lookup {R} (key : R → N) rows k :
  default 0 (count_rows key rows !! k) = Z.of_nat (length (filter (λ r, key r = k) rows)).
Proof.
  induction rows as [|r rows IH]; [done|]. simpl. rewrite filter_cons.
  case_decide as Hk.
  - subst k. rewrite lookup_insert_eq. simpl. rewrite IH. lia.
  - by rewrite lookup_insert_ne.
Qed.

Lemma count_rows_total {R} (key : R → N) rows :
  map_fold (λ _ n acc, n + acc) 0 (count_rows key rows) = Z.of_nat (length rows).
Proof.
  induction rows as [|r rows IH]; [apply map_fold_empty|].
  change (count_rows key (r :: rows)) with
    (<[key r := default 0 (count_rows key rows !! key r) + 1]> (count_rows key rows)).
  set (m := count_rows key rows) in *. rewrite <-(insert_delete_eq m).
  rewrite map_fold_insert_L; [|intros; lia|apply lookup_delete_eq].
  change (Z.of_nat (length (r :: rows))) with (Z.of_nat (S (length rows))).
  destruct (m !! key r) as [n|] eqn:Hm; simpl.
  - rewrite <-(insert_delete_id m (key r) n Hm) in IH.
    rewrite map_fold_insert_L in IH; [|intros; lia|apply lookup_delete_eq]. lia.
  - rewrite delete_id by done. lia.
Qed.

(** ** Declined indexers *)

(** How long an agreement's end keeps its indexer from being picked again. *)
Definition exclusion_window (lb : Lookbacks) (r : AgreementRow) : Z :=
  match ag_rejection_reason r with
  | Some w =>
      if bool_decide (w = PRICE_TOO_LOW) then days (lb_price_days lb)
      else if bool_decide (w ∈ transient_reasons) then minutes (lb_transient_minutes lb)
      else if bool_decide (w ∈ uncertain_reasons) then days (lb_uncertain_days lb)
      else days (lb_default_days lb)
  | None =>
      if status_in [Expired] r && is_null (ag_offer_tx_hash r)
      then minutes (lb_transient_minutes lb) else days (lb_default_days lb)
  end.

Lemma reasons_disjoint w :
  (w = PRICE_TOO_LOW → w ∉ transient_reasons ∧ w ∉ uncertain_reasons) ∧
  (w ∈ transient_reasons → w ∉ uncertain_reasons).
Proof.
  assert (Hd : Forall (λ x, x ∉ uncertain_reasons) transient_reasons)
    by (apply (bool_decide_unpack _); vm_compute; exact I).
  split; [intros ->; split; apply (bool_decide_unpack _); vm_compute; exact I|].
  intros Hw. by apply (proj1 (Forall_forall _ _) Hd).
Qed.

Lemma empty_reason_is_other :
  bool_decide (EmptyString ∈ PRICE_TOO_LOW :: transient_reasons ++ uncertain_reasons) = false.
Proof. vm_compute. reflexivity. Qed.

Lemma declined_clause_window now lb r :
  declined_clause now lb r =
  status_in [CanceledByIndexer; Expired; Rejected; AbandonedByIndexer] r
  && (now - exclusion_window lb r <=? ag_updated_at r).
Proof.
  unfold declined_clause, exclusion_window, never_offered.
  repeat (rewrite ?holds_tand, ?holds_tor). f_equal.
  destruct (ag_rejection_reason r) as [w|]; cbn [sql_eq sql_in coalesce is_null tnot].
  - rewrite !andb_false_r. simpl.
    destruct (reasons_disjoint w) as [Hp Ht].
    rewrite (bool_decide_ext (w ∈ PRICE_TOO_LOW :: transient_reasons ++ uncertain_reasons)
      (w = PRICE_TOO_LOW ∨ w ∈ transient_reasons ∨ w ∈ uncertain_reasons))
      by (rewrite elem_of_cons, elem_of_app; done).
    repeat case_bool_decide; simpl; rewrite ?orb_false_r; tauto || done || (exfalso; tauto).
  - rewrite empty_reason_is_other. simpl. rewrite !andb_true_r.
    destruct (status_in [Expired] r && is_null (ag_offer_tx_hash r)); simpl;
      rewrite ?orb_false_r; done.
Qed.

(** The five-way condition of the declined query is one rule.  An indexer
    is excluded for a deployment exactly when one of its agreements there
    ended declined, expired, rejected or abandoned, within the window its
    reason earns, and the query returns each such indexer once. *)
Theorem declined_indexers_spec now lb dep ix d :
  ∃ m, get_declined_indexers_by_deployment now lb d = (Ok m, d) ∧
    NoDup (default [] (m !! dep)) ∧
    (ix ∈ default [] (m !! dep) ↔
     ∃ k r, agreements d !! k = Some r ∧ ag_deployment r = dep ∧ ag_indexer r = ix ∧
       ag_status r ∈ [CanceledByIndexer; Expired; Rejected; AbandonedByIndexer] ∧
       now - exclusion_window lb r ≤ ag_updated_at r).
Proof.
  eexists. split; [reflexivity|].
  set (rows := select (declined_clause now lb) (agreements d)).
  assert (Hl : default [] ((remove_dups <$> group_rows ag_deployment ag_indexer rows) !! dep) =
    remove_dups (ag_indexer <$> filter (λ r, ag_deployment r = dep) rows)).
  { rewrite <-group_rows_lookup, lookup_fmap. by destruct (_ !! dep). }
  rewrite Hl. split; [apply NoDup_remove_dups|].
  rewrite elem_of_remove_dups, list_elem_of_fmap. unfold rows. split.
  - intros (r & -> & [Hdep Hr]%list_elem_of_filter). apply elem_of_select in Hr as (k & Hk & Hc).
    rewrite declined_clause_window in Hc. apply andb_prop in Hc as [Hs Hw].
    exists k, r. unfold status_in in Hs. rewrite bool_decide_eq_true in Hs. apply Z.leb_le in Hw.
    done.
  - intros (k & r & Hk & Hdep & Hix & Hs & Hw). exists r. split; [done|].
    apply list_elem_of_filter. split; [done|]. apply elem_of_select. exists k. split; [done|].
    rewrite declined_clause_window. apply andb_true_intro. split; [|by apply Z.leb_le].
    unfold status_in. by apply bool_decide_eq_true.
Qed.

(** ** Ordered and limited selections *)

(** [rows] are the first of the rows [p] selects, in [key]'s order; [full]
    says when any are left out. *)
Definition first_rows {R} (key : R → list Z) (p : R → bool) (m : gmap N R) (full : Prop)
    (rows : list R) : Prop :=
  (∀ r, r ∈ rows → ∃ k, m !! k = Some r ∧ p r = true) ∧
  StronglySorted (key_le key) rows ∧
  (∀ k r, m !! k = Some r → p r = true → r ∉ rows →
     full ∧ ∀ r', r' ∈ rows → key_le key r' r).

Lemma take_first_rows {R} (key : R → list Z) p m n :
  let rows := take n (order_by key (select p m)) in
  first_rows key p m (length rows = n) rows.
Proof.
  set (l := order_by key (select p m)). simpl.
  assert (Hin : ∀ r, r ∈ l ↔ ∃ k, m !! k = Some r ∧ p r = true).
  { intros r. unfold l. by rewrite elem_of_order_by, elem_of_select. }
  assert (Hs : StronglySorted (key_le key) (take n l ++ drop n l)).
  { rewrite take_drop. apply order_by_sorted. }
  split; [|split].
  - intros r Hr. apply Hin. rewrite <-(take_drop n l), elem_of_app. by left.
  - by apply StronglySorted_app in Hs as (_ & ? & _).
  - intros k r Hk Hp Hout. assert (Hl : r ∈ l) by (apply Hin; eauto).
    rewrite <-(take_drop n l), elem_of_app in Hl. destruct Hl as [|Hd]; [done|]. split.
    + rewrite length_take. apply list_elem_of_lookup in Hd as (i & Hi%lookup_lt_Some).
      rewrite length_drop in Hi. lia.
    + intros r' Hr'. by apply (order_by_take_least key n (select p m)).
Qed.

Lemma limit_first_rows {R} (key : R → list Z) p m n :
  let rows := limit_if_pos n (order_by key (select p m)) in
  first_rows key p m (0 < n ∧ Z.of_nat (length rows) = n) rows.
Proof.
  simpl. unfold limit_if_pos. destruct (Z.ltb_spec 0 n).
  - destruct (take_first_rows key p m (Z.to_nat n)) as (H1 & H2 & H3).
    split; [done|]. split; [done|]. intros k r Hk Hp Hout. destruct (H3 k r Hk Hp Hout) as [Hl ?].
    split; [|done]. split; [done|]. lia.
  - split; [intros r Hr; by rewrite elem_of_order_by, elem_of_select in Hr|].
    split; [apply order_by_sorted|]. intros k r Hk Hp Hout. exfalso. apply Hout.
    apply elem_of_order_by, elem_of_select. eauto.
Qed.

Lemma casts_deadline_ok {A} (m : DbM A) d : reg_inv d → casts_deadline m d = m d.
Proof.
  intros Hd. unfold casts_deadline. rewrite bind_run. simpl.
  replace (forallb deadline_fits (map_to_list (agreements d)).*2) with true; [done|].
  symmetry. apply forallb_forall. intros r Hr. apply list_elem_of_In in Hr.
  apply list_elem_of_fmap in Hr as ([k r'] & -> & Hk). apply elem_of_map_to_list in Hk.
  by destruct (inv_row _ Hd k r' Hk).
Qed.

(** The expiry sweep never fails on a deadline and returns, earliest
    deadline first, exactly the offers still open past their deadline at the
    chain's time, up to the batch size: what it leaves out is due later and
    only when the batch is full. *)
Theorem expired_created_spec batch ts d :
  reg_inv d → 0 ≤ ts ≤ i64_max →
  ∃ rows, get_expired_created_agreements batch ts d = (Ok (agreement_of_row <$> rows), d) ∧
    first_rows (λ r, [t_deadline (ag_terms r)])
      (λ r, status_in [Created] r && (t_deadline (ag_terms r) <? ts)) (agreements d)
      (0 < batch ∧ Z.of_nat (length rows) = batch) rows.
Proof.
  intros Hd Hts. unfold get_expired_created_agreements. rewrite casts_deadline_ok by done.
  eexists. split; [reflexivity|]. rewrite as_i64_small by done. apply limit_first_rows.
Qed.

Lemma expired_created_spec_witness :
  ∃ rows, get_expired_created_agreements 1 1900000001
      (run_ops [SetTarget 10 1 5 7 42161 2; Register 20 (demo_params 11 31)] empty_db)
    = (Ok (agreement_of_row <$> rows),
       run_ops [SetTarget 10 1 5 7 42161 2; Register 20 (demo_params 11 31)] empty_db).
Proof.
  destruct (expired_created_spec 1 1900000001
    (run_ops [SetTarget 10 1 5 7 42161 2; Register 20 (demo_params 11 31)] empty_db))
    as (rows & H & _).
  - apply reachable_reg_inv, run_ops_steps. by repeat constructor.
  - unfold i64_max. lia.
  - exists rows. exact H.
Defined.

(** The check of cancelling agreements takes the rows that are due, in the
    order of when each was last checked (an agreement that may be paying
    counts as checked an hour earlier, one never checked as checked when it
    was marked): a row left out of a full batch was checked no earlier than
    every row in it, so no agreement is passed over for ever. *)
Theorem cancelling_agreements_spec now batch max_attempts min_age d :
  reg_inv d → 0 ≤ batch →
  ∃ rows, get_cancelling_agreements now batch max_attempts min_age d =
            (Ok (cancelling_of_row <$> rows), d) ∧
    first_rows (check_key now) (due_for_check now (Z.min max_attempts i32_max) min_age)
      (agreements d) (length rows = Z.to_nat batch) rows.
Proof.
  intros Hd Hb. unfold get_cancelling_agreements. rewrite casts_deadline_ok by done.
  eexists. split.
  - rewrite bind_run. cbn [agreements_where]. unfold agreements_where. rewrite bind_run. simpl.
    rewrite bind_run. unfold sql_limit. rewrite (proj2 (Z.ltb_ge _ _)) by lia. reflexivity.
  - apply take_first_rows.
Qed.

Lemma cancelling_agreements_spec_witness :
  ∃ rows, get_cancelling_agreements (hours 3) 5 3 10
      (run_ops (demo_start ++ [MarkAbandoning 50 11; CancelCheck 60 11 1 None]) empty_db) =
    (Ok (cancelling_of_row <$> rows),
     run_ops (demo_start ++ [MarkAbandoning 50 11; CancelCheck 60 11 1 None]) empty_db) ∧
    length rows = 1%nat.
Proof.
  destruct (cancelling_agreements_spec (hours 3) 5 3 10
    (run_ops (demo_start ++ [MarkAbandoning 50 11; CancelCheck 60 11 1 None]) empty_db))
    as (rows & H & _).
  - apply reachable_reg_inv, run_ops_steps. by repeat constructor.
  - lia.
  - exists rows. split; [exact H|].
    assert (Hl : match (get_cancelling_agreements (hours 3) 5 3 10
      (run_ops (demo_start ++ [MarkAbandoning 50 11; CancelCheck 60 11 1 None]) empty_db)).1 with
      Ok l => length l | Err _ => 0%nat end = 1%nat) by (vm_compute; reflexivity).
    rewrite H in Hl. simpl in Hl. rewrite length_fmap in Hl. exact Hl.
Defined.

(** ** In-flight offers *)

(** The in-flight counts offer pacing reads never fail, give every indexer
    the number of its offers that may still be accepted, and the total is the
    sum of the counts. *)
Theorem in_flight_counts now d :
  reg_inv d →
  ∃ per_indexer total,
    count_created_agreements_by_indexer now d = (Ok (per_indexer, total), d) ∧
    total = map_fold (λ _ n acc, n + acc) 0 per_indexer ∧
    ∀ ix, default 0 (per_indexer !! ix) =
      Z.of_nat (length (filter (λ r, ag_indexer r = ix) (select (in_flight now) (agreements d)))).
Proof.
  intros Hd. unfold count_created_agreements_by_indexer. rewrite casts_deadline_ok by done.
  eexists _, _. split; [reflexivity|]. split; [by rewrite count_rows_total|].
  intros ix. apply count_rows_lookup.
Qed.

Lemma in_flight_counts_witness :
  ∃ per_indexer total,
    count_created_agreements_by_indexer 25
      (run_ops [SetTarget 10 1 5 7 42161 2; Register 20 (demo_params 11 31);
                Register 21 (demo_params 12 32)] empty_db)
    = (Ok (per_indexer, total),
       run_ops [SetTarget 10 1 5 7 42161 2; Register 20 (demo_params 11 31);
                Register 21 (demo_params 12 32)] empty_db) ∧
    default 0 (per_indexer !! 31%N) = 1.
Proof.
  destruct (in_flight_counts 25 (run_ops [SetTarget 10 1 5 7 42161 2;
    Register 20 (demo_params 11 31); Register 21 (demo_params 12 32)] empty_db))
    as (m & total & H & _ & Hm).
  - apply reachable_reg_inv, run_ops_steps. by repeat constructor.
  - exists m, total. split; [exact H|]. rewrite Hm. vm_compute. reflexivity.
Defined.

(** ** Liveness checks reach every indexer *)

Definition indexer_progress_key (r : AgreementRow) : list Z :=
  Z.of_N (ag_indexer r) :: progress_key r.

Lemma distinct_on_indexer_first seen rows r :
  StronglySorted (key_le indexer_progress_key) rows → r ∈ rows → ag_indexer r ∉ seen →
  ∃ r', r' ∈ distinct_on_indexer seen rows ∧ r' ∈ rows ∧ ag_indexer r' = ag_indexer r ∧
    key_le indexer_progress_key r' r.
Proof.
  revert seen. induction rows as [|q rows IH]; intros seen Hs Hr Hn; [by apply not_elem_of_nil in Hr|].
  apply StronglySorted_inv in Hs as [Hs Hq]. simpl.
  apply elem_of_cons in Hr as [->|Hr].
  { rewrite bool_decide_eq_false_2 by done. exists q. split_and!; [set_solver|set_solver|done|].
    apply lex_leb_refl. }
  destruct (decide (ag_indexer q = ag_indexer r)) as [Heq|Hne].
  - rewrite bool_decide_eq_false_2 by (rewrite Heq; done). exists q.
    split_and!; [set_solver|set_solver|done|]. by apply (proj1 (Forall_forall _ _) Hq).
  - case_bool_decide.
    + destruct (IH seen Hs Hr Hn) as (r' & H1 & H2 & H3 & H4). exists r'. split_and!; [done|set_solver|done..].
    + destruct (IH (ag_indexer q :: seen) Hs Hr ltac:(set_solver)) as (r' & H1 & H2 & H3 & H4).
      exists r'. split_and!; [set_solver|set_solver|done..].
Qed.

Lemma same_indexer_key r r' :
  ag_indexer r' = ag_indexer r → key_le indexer_progress_key r' r → key_le progress_key r' r.
Proof.
  intros Heq. unfold key_le, indexer_progress_key. simpl. rewrite Heq.
  by rewrite Z.ltb_irrefl, Z.eqb_refl.
Qed.

(** Every liveness cycle asks about every indexer that holds an accepted
    agreement, whatever the batch size: for each accepted agreement the
    result has one of the same indexer that is at least as long without
    progress, and every agreement returned is accepted. *)
Theorem liveness_covers_every_indexer batch d :
  reg_inv d →
  ∃ rows, get_accepted_on_chain_agreements batch d = (Ok (agreement_of_row <$> rows), d) ∧
    (∀ r, r ∈ rows → ag_status r = AcceptedOnChain) ∧
    ∀ k r, agreements d !! k = Some r → ag_status r = AcceptedOnChain →
      ∃ r', r' ∈ rows ∧ ag_indexer r' = ag_indexer r ∧ key_le progress_key r' r.
Proof.
  intros Hd. eexists. split; [reflexivity|].
  set (accepted := select (status_in [AcceptedOnChain]) (agreements d)).
  set (per := distinct_on_indexer [] (order_by indexer_progress_key accepted)).
  assert (Hacc : ∀ r, r ∈ accepted ↔
    ∃ k, agreements d !! k = Some r ∧ ag_status r = AcceptedOnChain).
  { intros r. unfold accepted. rewrite elem_of_select. unfold status_in.
    setoid_rewrite bool_decide_eq_true. by setoid_rewrite list_elem_of_singleton. }
  assert (Hsub : ∀ seen rows r, r ∈ distinct_on_indexer seen rows → r ∈ rows).
  { intros seen rows. revert seen. induction rows as [|q rows IH]; intros seen r; simpl; [done|].
    case_bool_decide; rewrite ?elem_of_cons; naive_solver. }
  split.
  - intros r Hr. rewrite elem_of_order_by, elem_of_select in Hr. destruct Hr as (k & Hk & Hb).
    rewrite bool_decide_eq_true, elem_of_app, !list_elem_of_fmap in Hb.
    assert (∃ q, ag_id r = ag_id q ∧ q ∈ accepted) as (q & Hid & Hq).
    { destruct Hb as [(q & Hid & Hq)|(q & Hid & Hq)]; exists q; (split; [done|]).
      - apply limit_incl in Hq. by rewrite elem_of_order_by in Hq.
      - apply Hsub in Hq. by rewrite elem_of_order_by in Hq. }
    apply Hacc in Hq as (k' & Hk' & Hs).
    rewrite (inv_key _ Hd _ _ Hk), (inv_key _ Hd _ _ Hk') in Hid. subst. by simplify_eq.
  - intros k r Hk Hs.
    destruct (distinct_on_indexer_first [] (order_by indexer_progress_key accepted) r)
      as (r' & H1 & H2 & H3 & H4); [apply order_by_sorted| |set_solver|].
    { rewrite elem_of_order_by, Hacc. eauto. }
    exists r'. split; [|split; [done|by apply same_indexer_key]].
    rewrite elem_of_order_by in H2. apply Hacc in H2 as (k' & Hk' & _).
    rewrite elem_of_order_by, elem_of_select. exists k'. split; [done|].
    rewrite bool_decide_eq_true, elem_of_app, !list_elem_of_fmap. right. by exists r'.
Qed.

Lemma liveness_covers_every_indexer_witness :
  ∃ rows, get_accepted_on_chain_agreements 1 (run_ops demo_start empty_db) =
      (Ok (agreement_of_row <$> rows), run_ops demo_start empty_db) ∧
    ∀ r, r ∈ rows → ag_status r = AcceptedOnChain.
Proof.
  destruct (liveness_covers_every_indexer 1 (run_ops demo_start empty_db)) as (rows & H1 & H2 & _).
  - apply reachable_reg_inv, demo_start_reachable.
  - exists rows. split; [exact H1|exact H2].
Defined.

(** ** The DIPs info watcher *)

(** An indexer's row after a check found its info missing. *)
Definition still_missing (now secs : Z) (o : option DipsInfoRow) : DipsInfoRow :=
  match o with
  | Some r => mkDipsInfo (di_missing_secs r + secs) now (di_blocked_until r)
  | None => mkDipsInfo secs now None
  end.

Lemma upsert_missing_run now missing secs d :
  NoDup missing → 0 ≤ secs →
  (∀ id r, dips_missing d !! id = Some r → 0 ≤ di_missing_secs r) →
  (∀ id, id ∈ missing → di_missing_secs (still_missing now secs (dips_missing d !! id)) ≤ i64_max) →
  ∃ m, upsert_missing now missing secs d = (Ok tt, set_dips_missing m d) ∧
    ∀ id, m !! id = if bool_decide (id ∈ missing)
                    then Some (still_missing now secs (dips_missing d !! id))
                    else dips_missing d !! id.
Proof.
  intros Hnd Hs. revert d. induction missing as [|i rest IH]; intros d Hpos Hmax.
  { exists (dips_missing d). split; [by destruct d|]. done. }
  apply NoDup_cons in Hnd as [Hi Hnd]. simpl. rewrite bind_run. simpl.
  fold (still_missing now secs (dips_missing d !! i)).
  set (row := still_missing now secs (dips_missing d !! i)).
  assert (0 ≤ di_missing_secs row ≤ i64_max).
  { split; [|apply Hmax; set_solver]. unfold row, still_missing.
    destruct (dips_missing d !! i) as [r|] eqn:Hr; [|done]. simpl. specialize (Hpos i r Hr). lia. }
  rewrite (proj2 (Z.ltb_ge secs 0)), (proj2 (Z.ltb_ge i64_max _)), (proj2 (Z.ltb_ge _ 0)) by lia.
  rewrite bind_run. simpl.
  destruct (IH Hnd (set_dips_missing (<[i := row]> (dips_missing d)) d)) as (m & Hrun & Hm).
  - simpl. intros id r. rewrite lookup_insert_Some. intros [[_ <-]|[_ ?]]; [lia|eauto].
  - simpl. intros id Hid. rewrite lookup_insert_ne by (intros ->; done). apply Hmax. set_solver.
  - exists m. split; [done|]. intros id. rewrite Hm. simpl.
    destruct (decide (id = i)) as [->|Hne].
    + rewrite bool_decide_eq_false_2, lookup_insert_eq by done.
      by rewrite bool_decide_eq_true_2 by set_solver.
    + rewrite lookup_insert_ne by done.
      by rewrite (bool_decide_ext (id ∈ i :: rest) (id ∈ rest)) by set_solver.
Qed.

(** One cycle of DIPs info checks adds the time to every indexer still
    missing its info, keeps that indexer's block, forgets every other indexer,
    reports both, and leaves no indexer that answered blocked. *)
Theorem dips_info_checks_spec now missing secs d :
  reg_inv d → NoDup missing → 0 ≤ secs →
  (∀ id, id ∈ missing →
     di_missing_secs (still_missing now secs (dips_missing d !! id)) ≤ i64_max) →
  ∃ checks d', record_dips_info_checks now missing secs d = (Ok checks, d') ∧
    d' = set_dips_missing (dips_missing d') d ∧
    (∀ id, dips_missing d' !! id = if bool_decide (id ∈ missing)
             then Some (still_missing now secs (dips_missing d !! id)) else None) ∧
    dc_missing checks = di_missing_secs <$> dips_missing d' ∧
    (∀ id, dc_cleared checks !! id = if bool_decide (id ∈ missing) then None
             else di_missing_secs <$> dips_missing d !! id) ∧
    ∀ now' blocked, get_dips_info_blocks now' d' = (Ok blocked, d') →
      ∀ id, id ∉ missing → id ∉ blocked.
Proof.
  intros Hd Hnd Hs Hmax. unfold record_dips_info_checks, transaction.
  rewrite bind_run. simpl. rewrite bind_run. simpl. rewrite bool_decide_eq_true_2 by done.
  set (d1 := set_dips_missing (filter (λ kv, kv.1 ∈ missing) (dips_missing d)) d).
  assert (Hkeep : ∀ id, id ∈ missing → dips_missing d1 !! id = dips_missing d !! id).
  { intros id Hid. simpl. destruct (dips_missing d !! id) as [r|] eqn:Hr.
    - by apply map_lookup_filter_Some.
    - apply map_lookup_filter_None. by left. }
  destruct (upsert_missing_run now missing secs d1) as (m & Hrun & Hm); [done|done|..].
  { intros id r [Hr _]%map_lookup_filter_Some. by apply (inv_dips _ Hd) in Hr as [? _]. }
  { intros id Hid. rewrite Hkeep by done. auto. }
  rewrite bind_run, Hrun. simpl.
  assert (Hm' : ∀ id, m !! id = if bool_decide (id ∈ missing)
    then Some (still_missing now secs (dips_missing d !! id)) else None).
  { intros id. rewrite Hm. case_bool_decide as Hid; [by rewrite Hkeep|].
    apply map_lookup_filter_None. right. by intros r _. }
  eexists _, _. split; [reflexivity|]. split; [done|]. split; [done|]. split; [done|]. split.
  - intros id. simpl. rewrite lookup_fmap. case_bool_decide as Hid.
    + replace (filter _ (dips_missing d) !! id) with (@None DipsInfoRow); [done|]. symmetry.
      apply map_lookup_filter_None. right. intros r _. simpl. tauto.
    + f_equal. destruct (dips_missing d !! id) as [r|] eqn:Hr.
      * by apply map_lookup_filter_Some.
      * apply map_lookup_filter_None. by left.
  - intros now' blocked Hb id Hid. unfold get_dips_info_blocks in Hb. rewrite bind_run in Hb.
    injection Hb as <-. intros ([k r] & -> & [_ Hk]%list_elem_of_filter)%list_elem_of_fmap.
    apply elem_of_map_to_list in Hk. simpl in *. rewrite Hm', bool_decide_eq_false_2 in Hk by done.
    done.
Qed.

Lemma dips_info_checks_spec_witness :
  let d := (record_dips_info_checks 5 [31%N; 32%N] 60 empty_db).2 in
  let d' := (record_dips_info_checks 9 [31%N] 60 d).2 in
  (di_missing_secs <$> dips_missing d' !! 31%N) = Some 120 ∧ dips_missing d' !! 32%N = None.
Proof.
  cbv zeta.
  destruct (dips_info_checks_spec 9 [31%N] 60 (record_dips_info_checks 5 [31%N; 32%N] 60 empty_db).2)
    as (checks & d' & Hrun & _ & Hm & _).
  - apply (proj1 (dips_inv empty_db 5 [31%N; 32%N] 60) empty_db
      (conj reg_inv_empty (db_evolves_refl empty_db))).
  - apply (bool_decide_unpack _). vm_compute. exact I.
  - lia.
  - intros id ->%list_elem_of_singleton. vm_compute. discriminate.
  - rewrite Hrun. cbn [snd]. rewrite !Hm. vm_compute. split; reflexivity.
Defined.

End QueryProps.
