(* ===== verification/JobQueue.v ===== *)
(** * The job queue (dipper-pgmq)

    The table [pgmq_queue] as concurrent workers see it.  A pop runs in a
    transaction that stays open while the job is processed: the committed row
    stays [Queued] and locked, and the guard that holds the transaction ends
    it by removing the job, requeueing it, or dropping, which rolls back.
    [now] of a transaction is the time it started.  Times are microseconds. *)

From S2P Require Import Prelude.
Local Open Scope Z_scope.

Module JobQueue.

(** ** Priorities and statuses *)

Inductive JobPriority : Type := Sweep | Background | Interactive.

Definition priority_code (p : JobPriority) : Z :=
  match p with Sweep => -1 | Background => 0 | Interactive => 1 end.

(** [impl From<i16> for JobPriority] *)
Definition priority_of_code (v : Z) : JobPriority :=
  if v <? 0 then Sweep else if v =? 0 then Background else Interactive.

Inductive PgJobStatus : Type := Queued | Running | Failed.

#[export] Instance PgJobStatus_eq_dec : EqDecision PgJobStatus.
Proof. solve_decision. Defined.

Definition job_status_code (s : PgJobStatus) : Z :=
  match s with Queued => 0 | Running => -1 | Failed => 1 end.

(** [impl From<i32> for PgJobStatus] *)
Definition job_status_of_code (v : Z) : PgJobStatus :=
  if v <? 0 then Running else if v =? 0 then Queued else Failed.

(** ** Attempts *)

Definition DEFAULT_MAX_ATTEMPTS : Z := 3.

(** [value.saturating_add(1).try_into().unwrap_or(i32::MAX)] on a [u32]. *)
Definition with_max_retries (value : Z) : Z :=
  let v := sat_add_u32 value 1 in if v <=? i32_max then v else i32_max.

Section queue.
(** [D] is a stored descriptor, [T] the message it decodes to; [decode] is
    the deserializer. *)
Context {D T : Type} (decode : D → option T).

Record Job : Type := mkJob {
  jb_id : N;
  jb_created_at : Z;
  jb_updated_at : Z;
  jb_scheduled_for : Z;
  jb_status : PgJobStatus;
  jb_max_attempts : Z;
  jb_attempt_count : Z;
  jb_priority : JobPriority;
  jb_descriptor : D }.

(** The committed rows, and those an open transaction has locked. *)
Record Queue : Type := mkQueue { table : gmap N Job; locked : gset N }.

Definition empty_queue : Queue := mkQueue ∅ ∅.

Inductive QueueError : Type := DuplicateId | UndecodableDescriptor.

(** ** Pushing *)

Definition insert_job (j : Job) (q : Queue) : result QueueError N * Queue :=
  match table q !! jb_id j with
  | Some _ => (Err DuplicateId, q)
  | None => (Ok (jb_id j), mkQueue (<[jb_id j := j]> (table q)) (locked q))
  end.

(** [id] is the fresh [Uuid::now_v7()]. *)
Definition push (now : Z) (id : N) (desc : D) (max_attempts : Z) (p : JobPriority)
    : Queue → result QueueError N * Queue :=
  insert_job (mkJob id now now now Queued max_attempts 0 p desc).

Definition push_scheduled (now : Z) (id : N) (desc : D) (max_attempts scheduled_for : Z)
    (p : JobPriority) : Queue → result QueueError N * Queue :=
  insert_job (mkJob id now now scheduled_for Queued max_attempts 0 p desc).

Record JobBuilder : Type := mkBuilder {
  bd_desc : D;
  bd_max_attempts : option Z;
  bd_scheduled_for : option Z;
  bd_priority : JobPriority }.

Definition builder_new (desc : D) : JobBuilder := mkBuilder desc None None Background.
Definition builder_priority (p : JobPriority) (b : JobBuilder) : JobBuilder :=
  mkBuilder (bd_desc b) (bd_max_attempts b) (bd_scheduled_for b) p.
Definition builder_max_retries (value : Z) (b : JobBuilder) : JobBuilder :=
  mkBuilder (bd_desc b) (Some (with_max_retries value)) (bd_scheduled_for b) (bd_priority b).
Definition builder_schedule_at (at_ : Z) (b : JobBuilder) : JobBuilder :=
  mkBuilder (bd_desc b) (bd_max_attempts b) (Some at_) (bd_priority b).

(** [PgQueue::push]; the notification of an immediate job only wakes the
    workers earlier. *)
Definition queue_push (queue_max_attempts now : Z) (id : N) (b : JobBuilder) (q : Queue)
    : result QueueError N * Queue :=
  let max_attempts := default queue_max_attempts (bd_max_attempts b) in
  match bd_scheduled_for b with
  | None => push now id (bd_desc b) max_attempts (bd_priority b) q
  | Some at_ => push_scheduled now id (bd_desc b) max_attempts at_ (bd_priority b) q
  end.

(** ** Popping *)

(** [ORDER BY priority DESC, created_at, id] *)
Definition pop_key (j : Job) : list Z :=
  [- priority_code (jb_priority j); jb_created_at j; Z.of_N (jb_id j)].

(** [WHERE status = Queued AND scheduled_for <= now() .. FOR UPDATE SKIP
    LOCKED] *)
Definition poppable (now : Z) (q : Queue) (j : Job) : bool :=
  bool_decide (jb_status j = Queued) && (jb_scheduled_for j <=? now)
  && bool_decide (jb_id j ∉ locked q).

(** The update, visible only inside the transaction until it commits. *)
Definition run_job_row (now : Z) (j : Job) : Job :=
  mkJob (jb_id j) (jb_created_at j) now (jb_scheduled_for j) Running (jb_max_attempts j)
    (jb_attempt_count j) (jb_priority j) (jb_descriptor j).

(** [JobGuard]: the decoded job, the transaction's start time and the row as
    the transaction sees it. *)
Record JobGuard : Type := mkGuard { jg_desc : T; jg_now : Z; jg_row : Job }.

Definition jg_id (g : JobGuard) : N := jb_id (jg_row g).
(** [attempt_count as u32] *)
Definition failed_attempts (g : JobGuard) : Z := jb_attempt_count (jg_row g) mod 4294967296.
Definition guard_max_attempts (g : JobGuard) : Z := jb_max_attempts (jg_row g) mod 4294967296.

(** A descriptor that fails to decode is an error: the transaction is
    dropped, so the row stays as it was. *)
Definition pop (now : Z) (q : Queue) : result QueueError (option JobGuard) * Queue :=
  match order_by pop_key (select (poppable now q) (table q)) with
  | [] => (Ok None, q)
  | j :: _ =>
      match decode (jb_descriptor j) with
      | None => (Err UndecodableDescriptor, q)
      | Some m => (Ok (Some (mkGuard m now (run_job_row now j))),
                   mkQueue (table q) ({[ jb_id j ]} ∪ locked q))
      end
  end.

(** ** Settling a popped job *)

Definition unlock (g : JobGuard) (q : Queue) : gset N := locked q ∖ {[ jg_id g ]}.

Definition requeue_row (now scheduled_for : Z) (count_attempt : bool) (j : Job) : Job :=
  let exhausted := count_attempt && (jb_max_attempts j <=? jb_attempt_count j + 1) in
  mkJob (jb_id j) (jb_created_at j) now
    (if exhausted then jb_scheduled_for j else scheduled_for)
    (if exhausted then Failed else Queued)
    (jb_max_attempts j) (jb_attempt_count j + (if count_attempt then 1 else 0))
    (jb_priority j) (jb_descriptor j).

Definition requeue (g : JobGuard) (scheduled_for : Z) (count_attempt : bool) (q : Queue)
    : Queue :=
  mkQueue (<[jg_id g := requeue_row (jg_now g) scheduled_for count_attempt (jg_row g)]> (table q))
    (unlock g q).

Definition guard_remove (g : JobGuard) (q : Queue) : Queue :=
  mkQueue (delete (jg_id g) (table q)) (unlock g q).
(** [wall] is [OffsetDateTime::now_utc()] *)
Definition guard_mark_as_failed (wall : Z) (g : JobGuard) (q : Queue) : Queue :=
  requeue g wall true q.
Definition guard_mark_as_failed_and_reschedule (g : JobGuard) (schedule : Z) (q : Queue)
    : Queue := requeue g schedule true q.
Definition guard_reschedule (g : JobGuard) (schedule : Z) (q : Queue) : Queue :=
  requeue g schedule false q.
(** Dropping the guard, or a failed commit: the transaction rolls back. *)
Definition guard_drop (g : JobGuard) (q : Queue) : Queue :=
  mkQueue (table q) (unlock g q).

(** ** Reading and clearing *)

Definition unfinished_descriptors (q : Queue) : list D :=
  jb_descriptor <$> select (λ j, bool_decide (jb_status j ∈ [Queued; Running])) (table q).

(** [QueueImpl::unfinished]: what this release can't read is left out. *)
Definition unfinished (q : Queue) : list T := omap decode (unfinished_descriptors q).

(** [DELETE FROM pgmq_queue] waits for the rows open transactions hold. *)
Definition clear (q : Queue) : option Queue :=
  if bool_decide (locked q = ∅) then Some (mkQueue ∅ ∅) else None.
End queue.

Arguments Job : clear implicits.
Arguments Queue : clear implicits.
Arguments JobGuard : clear implicits.
Arguments JobBuilder : clear implicits.

End JobQueue.
