(* ===== verification/JobQueueProps.v ===== *)
(** * What the job queue promises its workers

    The workers and the queue as one machine: a configuration is the queue and
    the guards the workers hold; its invariant, and the service the queue
    gives: each job to one worker at a time, the first due job first, a
    bounded number of attempts, no attempt charged for a deferral. *)

From S2P Require Import Prelude JobQueue.
Import JobQueue.
Local Open Scope Z_scope.

Module JobQueueProps.

Section machine.
Context {D T : Type} (decode : D → option T).
Notation Queue := (Queue D).
Notation Job := (Job D).
Notation Guard := (JobGuard D T).

(** How a worker ends the transaction of a job it popped. *)
Inductive action : Type :=
| Remove
| FailNow (wall : Z)
| FailAt (at_ : Z)
| Defer (at_ : Z)
| Drop.

Definition settle (a : action) (g : Guard) (q : Queue) : Queue :=
  match a with
  | Remove => guard_remove g q
  | FailNow wall => guard_mark_as_failed wall g q
  | FailAt at_ => guard_mark_as_failed_and_reschedule g at_ q
  | Defer at_ => guard_reschedule g at_ q
  | Drop => guard_drop g q
  end.

Record config : Type := mkConfig { queue : Queue; held : list Guard }.

Inductive qstep : config → config → Prop :=
| step_push queue_max now id b c :
    1 ≤ default queue_max (bd_max_attempts b) ≤ i32_max →
    qstep c (mkConfig (queue_push queue_max now id b (queue c)).2 (held c))
| step_pop now c g q' :
    pop decode now (queue c) = (Ok (Some g), q') →
    qstep c (mkConfig q' (g :: held c))
| step_settle a g pre post q :
    qstep (mkConfig q (pre ++ g :: post)) (mkConfig (settle a g q) (pre ++ post))
| step_clear c q' :
    clear (queue c) = Some q' → qstep c (mkConfig q' (held c)).

Definition start : config := mkConfig empty_queue [].

(** A committed row is never [Running]: it waits with attempts to spare, or
    has used them all. *)
Definition job_wf (j : Job) : Prop :=
  1 ≤ jb_max_attempts j ≤ i32_max ∧ 0 ≤ jb_attempt_count j ∧
  ((jb_status j = Queued ∧ jb_attempt_count j < jb_max_attempts j) ∨
   (jb_status j = Failed ∧ jb_attempt_count j = jb_max_attempts j)).

Definition holds_row (q : Queue) (g : Guard) : Prop :=
  ∃ j, table q !! jg_id g = Some j ∧ jg_row g = run_job_row (jg_now g) j ∧
    jb_status j = Queued ∧ decode (jb_descriptor j) = Some (jg_desc g).

Record queue_inv (c : config) : Prop := {
  qi_key : ∀ k j, table (queue c) !! k = Some j → jb_id j = k;
  qi_row : ∀ k j, table (queue c) !! k = Some j → job_wf j;
  qi_locked : locked (queue c) = list_to_set (jg_id <$> held c);
  qi_once : NoDup (jg_id <$> held c);
  qi_held : ∀ g, g ∈ held c → holds_row (queue c) g }.

(** ** Choosing the next job *)

Lemma pop_key_inj (j j' : Job) : pop_key j = pop_key j' → jb_id j = jb_id j'.
Proof. unfold pop_key. intros [= _ _ H]. lia. Qed.

Lemma key_le_antisym (xs ys : list Z) : lex_leb xs ys → lex_leb ys xs → xs = ys.
Proof.
  revert ys. induction xs as [|x xs IH]; intros [|y ys]; simpl; try done.
  destruct (Z.ltb_spec x y), (Z.ltb_spec y x), (Z.eqb_spec x y), (Z.eqb_spec y x);
    simpl; try done; try lia. intros. subst. f_equal. auto.
Qed.

(** [j] is the job the queue must serve next. *)
Definition next_job (now : Z) (q : Queue) (j : Job) : Prop :=
  (∃ k, table q !! k = Some j) ∧ poppable now q j = true ∧
  ∀ k j', table q !! k = Some j' → poppable now q j' = true → key_le pop_key j j'.

Lemma pop_head now q :
  match order_by pop_key (select (poppable now q) (table q)) with
  | [] => ∀ k j, table q !! k = Some j → poppable now q j = false
  | j :: _ => next_job now q j
  end.
Proof.
  destruct (order_by _ _) as [|j l] eqn:Ho.
  - intros k j Hj. destruct (poppable now q j) eqn:Hp; [|done]. exfalso.
    apply (not_elem_of_nil j). rewrite <-Ho. apply elem_of_order_by, elem_of_select. eauto.
  - assert (Hj : j ∈ select (poppable now q) (table q)).
    { rewrite <-(elem_of_order_by pop_key), Ho. set_solver. }
    apply elem_of_select in Hj as (k & Hk & Hp). split; [eauto|]. split; [done|].
    intros k' j' Hk' Hp'. eapply order_by_head_least; [exact Ho|].
    apply elem_of_select. eauto.
Qed.

Lemma next_job_unique now q j j' :
  (∀ k i, table q !! k = Some i → jb_id i = k) →
  next_job now q j → next_job now q j' → j = j'.
Proof.
  intros Hkey ([k Hk] & Hp & Hl) ([k' Hk'] & Hp' & Hl').
  assert (jb_id j = jb_id j') as Hid.
  { apply pop_key_inj, key_le_antisym; [by eapply Hl|by eapply Hl']. }
  rewrite (Hkey _ _ Hk), (Hkey _ _ Hk') in Hid. congruence.
Qed.

(** ** The invariant *)

Lemma queue_inv_start : queue_inv start.
Proof. split; simpl; try done; [constructor|set_solver]. Qed.

Lemma poppable_spec now q (j : Job) :
  poppable now q j = true ↔
  jb_status j = Queued ∧ jb_scheduled_for j ≤ now ∧ jb_id j ∉ locked q.
Proof.
  unfold poppable. rewrite !andb_true_iff, !bool_decide_eq_true, Z.leb_le. tauto.
Qed.

Lemma push_inv qm now id (b : JobBuilder D) c :
  1 ≤ default qm (bd_max_attempts b) ≤ i32_max → queue_inv c →
  queue_inv (mkConfig (queue_push qm now id b (queue c)).2 (held c)).
Proof.
  intros Hm [K R L O H].
  assert (Hins : ∀ j : Job, job_wf j →
    queue_inv (mkConfig (insert_job j (queue c)).2 (held c))).
  { intros j Hj. unfold insert_job. destruct (table (queue c) !! jb_id j) eqn:E; [by split|].
    split; simpl; [| |done|done|].
    - intros k i. rewrite lookup_insert_Some. naive_solver.
    - intros k i. rewrite lookup_insert_Some. naive_solver.
    - intros g Hg. destruct (H g Hg) as (i & Hi & ?). exists i. split; [|done]. simpl.
      rewrite lookup_insert_ne by congruence. done. }
  unfold queue_push. destruct (bd_scheduled_for b); apply Hins;
    (split; [done|split; [done|left; simpl; split; [done|lia]]]).
Qed.

Lemma pop_inv now c g q' :
  pop decode now (queue c) = (Ok (Some g), q') → queue_inv c →
  queue_inv (mkConfig q' (g :: held c)).
Proof.
  intros Hp [K R L O H]. unfold pop in Hp. pose proof (pop_head now (queue c)) as Hh.
  destruct (order_by _ _) as [|j l]; [discriminate|].
  destruct (decode (jb_descriptor j)) as [m|] eqn:Hdec; [|discriminate].
  injection Hp as <- <-. destruct Hh as ([k Hk] & Hpop & _).
  apply poppable_spec in Hpop as (Hq & _ & Hfree). rewrite L, elem_of_list_to_set in Hfree.
  rewrite <-(K k j Hk) in Hk.
  split; simpl; [done|done|by rewrite L|by apply NoDup_cons|].
  intros g' [->|Hg']%elem_of_cons; [|by apply H]. exists j. simpl. done.
Qed.

Lemma settle_inv a g pre post q :
  queue_inv (mkConfig q (pre ++ g :: post)) →
  queue_inv (mkConfig (settle a g q) (pre ++ post)).
Proof.
  intros [K R L O H]. simpl in *.
  destruct (H g ltac:(set_solver)) as (j & Hj & Hrow & Hq & _).
  rewrite fmap_app, fmap_cons in L, O.
  assert (jg_id g ∉ jg_id <$> (pre ++ post)) as Hnot.
  { rewrite fmap_app. apply NoDup_app in O as (_ & Hd & [Hg _]%NoDup_cons).
    rewrite elem_of_app. intros [Hin|Hin]; [by apply (Hd _ Hin); set_solver|done]. }
  assert (NoDup (jg_id <$> (pre ++ post))) as Hnd.
  { rewrite fmap_app. apply NoDup_app in O as (? & Hd & [? ?]%NoDup_cons).
    apply NoDup_app. split_and!; [done| |done]. intros x Hx. specialize (Hd x Hx). set_solver. }
  assert (locked q ∖ {[jg_id g]} = list_to_set (jg_id <$> (pre ++ post))) as Hlock.
  { rewrite L, fmap_app, !list_to_set_app_L, list_to_set_cons.
    rewrite fmap_app, elem_of_app in Hnot. apply set_eq. intros x.
    rewrite elem_of_difference, !elem_of_union, !elem_of_list_to_set, elem_of_singleton.
    naive_solver. }
  assert (Hother : ∀ t, (∀ k, k ≠ jg_id g → t !! k = table q !! k) →
    ∀ g', g' ∈ pre ++ post → holds_row (mkQueue t (locked q ∖ {[jg_id g]})) g').
  { intros t Ht g' Hg'. destruct (H g') as (i & Hi & ?); [set_solver|]. exists i.
    split; [|done]. simpl. rewrite Ht; [done|]. intros Heq. apply Hnot. rewrite <-Heq.
    apply list_elem_of_fmap. eauto. }
  assert (Hreq : ∀ at_ count, queue_inv (mkConfig (requeue g at_ count q) (pre ++ post))).
  { intros at_ count. pose proof (K _ _ Hj) as Hid. pose proof (R _ _ Hj) as (? & ? & Hst).
    split; simpl; [..|done|done|].
    - intros k i. rewrite lookup_insert_Some. intros [[<- <-]|[_ ?]]; [|by apply K].
      rewrite Hrow. done.
    - intros k i. rewrite lookup_insert_Some. intros [[<- <-]|[_ ?]]; [|by apply (R k)].
      rewrite Hrow. split; [done|]. simpl. assert (jb_attempt_count j < jb_max_attempts j) by (destruct Hst as [[_ ?]|[? _]]; [done|congruence]).
      destruct count; simpl; [|split; [lia|left; split; [done|lia]]].
      split; [lia|]. destruct (Z.leb_spec (jb_max_attempts j) (jb_attempt_count j + 1)).
      + right. split; [done|lia].
      + left. split; [done|lia].
    - apply Hother. intros k Hk. by rewrite lookup_insert_ne. }
  destruct a; simpl; [|apply Hreq..|].
  - split; simpl; [..|done|done|].
    + intros k i [_ ?]%lookup_delete_Some. by apply K.
    + intros k i [_ ?]%lookup_delete_Some. by apply (R k).
    + apply Hother. intros k Hk. by rewrite lookup_delete_ne.
  - split; simpl; [done|done|done|done|]. by apply Hother.
Qed.

Lemma qstep_inv c c' : qstep c c' → queue_inv c → queue_inv c'.
Proof.
  intros Hs Hi. destruct Hs as [qm now id b c Hm|now c g q' Hp|a g pre post q|c q' Hc].
  - by apply push_inv.
  - by eapply pop_inv.
  - by apply settle_inv.
  - unfold clear in Hc. case_bool_decide as He; [|done]. injection Hc as <-.
    destruct Hi as [K R L O H]. destruct (held c) as [|g l] eqn:Hh.
    + split; simpl; try done; set_solver.
    + exfalso. rewrite L in He. set_solver.
Qed.
Lemma reach_inv c : rtc qstep start c → queue_inv c.
Proof.
  assert (∀ c0, queue_inv c0 → rtc qstep c0 c → queue_inv c) as H.
  { intros c0 H0 Hr. induction Hr; eauto using qstep_inv. }
  apply H, queue_inv_start.
Qed.

(** In every interleaving of pushes, pops, settlements, dropped guards and
    clears by any number of workers, no two workers hold the same job, every
    held job's row is still there, queued and unchanged for its guard to
    settle, no committed row is [Running], and a job has used at most its
    allowed attempts, all of them exactly when it is [Failed]. *)
Theorem queue_is_safe c : rtc qstep start c → queue_inv c.
Proof. apply reach_inv. Qed.

(** A pop serves the queue's order: it returns nothing exactly when no
    unlocked job is due; otherwise it takes the job of highest priority,
    oldest first, and when that job cannot be decoded it fails and leaves the
    queue as it was. *)
Theorem pop_serves_next now c :
  match pop decode now (queue c) with
  | (Ok None, q') => q' = queue c ∧ ∀ j, ~ next_job now (queue c) j
  | (Ok (Some g), q') =>
      ∃ j, next_job now (queue c) j ∧ jg_row g = run_job_row now j ∧
        decode (jb_descriptor j) = Some (jg_desc g) ∧
        q' = mkQueue (table (queue c)) ({[ jb_id j ]} ∪ locked (queue c))
  | (Err e, q') =>
      q' = queue c ∧ e = UndecodableDescriptor ∧
      ∃ j, next_job now (queue c) j ∧ decode (jb_descriptor j) = None
  end.
Proof.
  unfold pop. pose proof (pop_head now (queue c)) as Hh.
  destruct (order_by _ _) as [|j l].
  - split; [done|]. intros j ([k Hk] & Hp & _). rewrite (Hh k j Hk) in Hp. done.
  - destruct (decode (jb_descriptor j)) as [m|] eqn:Hd; [|eauto]. exists j. done.
Qed.

(** A job the service cannot decode at the head of the queue fails every
    pop while it is there: the pop returns the error and the row, rolled back,
    is the next one again. *)
Theorem undecodable_head_blocks now c j :
  rtc qstep start c → next_job now (queue c) j → decode (jb_descriptor j) = None →
  pop decode now (queue c) = (Err UndecodableDescriptor, queue c).
Proof.
  intros Hr Hn Hd. apply reach_inv in Hr as [K _ _ _ _]. unfold pop.
  pose proof (pop_head now (queue c)) as Hh. destruct (order_by _ _) as [|j' l].
  - destruct Hn as ([k Hk] & Hp & _). rewrite (Hh k j Hk) in Hp. done.
  - rewrite (next_job_unique now (queue c) j' j) by done. by rewrite Hd.
Qed.

(** The row a guard leaves behind. *)
Lemma settled_row c g at_ count :
  queue_inv c → g ∈ held c →
  ∃ j, table (queue c) !! jg_id g = Some j ∧ failed_attempts g = jb_attempt_count j ∧
    table (requeue g at_ count (queue c)) !! jg_id g =
      Some (requeue_row (jg_now g) at_ count (run_job_row (jg_now g) j)).
Proof.
  intros [K R L O H] Hg. destruct (H g Hg) as (j & Hj & Hrow & Hq & _).
  exists j. split; [done|]. split.
  - unfold failed_attempts. rewrite Hrow. simpl. apply Z.mod_small.
    destruct (R _ _ Hj) as (Hm & Ha & Hs). unfold i32_max in Hm. naive_solver lia.
  - simpl. by rewrite lookup_insert_eq, Hrow.
Qed.

(** Failing a job charges one attempt.  With attempts to spare it waits,
    queued, for the time given; its last attempt makes it [Failed], which no
    pop ever returns.  A deferral charges nothing and keeps the job's place:
    its priority, creation time and id, the keys of the queue's order. *)
Theorem settling_a_job c g at_ :
  rtc qstep start c → g ∈ held c →
  ∃ j, table (queue c) !! jg_id g = Some j ∧
    (failed_attempts g + 1 < jb_max_attempts j →
     ∃ j', table (guard_mark_as_failed_and_reschedule g at_ (queue c)) !! jg_id g = Some j' ∧
       jb_status j' = Queued ∧ jb_scheduled_for j' = at_ ∧
       jb_attempt_count j' = failed_attempts g + 1) ∧
    (failed_attempts g + 1 = jb_max_attempts j →
     ∃ j', table (guard_mark_as_failed_and_reschedule g at_ (queue c)) !! jg_id g = Some j' ∧
       jb_status j' = Failed ∧ ∀ now q, poppable now q j' = false) ∧
    ∃ j', table (guard_reschedule g at_ (queue c)) !! jg_id g = Some j' ∧
      jb_status j' = Queued ∧ jb_scheduled_for j' = at_ ∧
      jb_attempt_count j' = failed_attempts g ∧ pop_key j' = pop_key j.
Proof.
  intros Hr Hg. apply reach_inv in Hr.
  destruct (settled_row c g at_ true Hr Hg) as (j & Hj & Hf & Ht).
  destruct (settled_row c g at_ false Hr Hg) as (j2 & Hj2 & _ & Ht2).
  assert (j2 = j) as -> by congruence. rewrite Hf. exists j.
  split; [done|]. split; [|split].
  - intros Hlt. eexists. split; [exact Ht|]. simpl.
    rewrite (proj2 (Z.leb_gt _ _)) by lia. simpl. split_and!; lia || done.
  - intros Heq. eexists. split; [exact Ht|]. simpl.
    rewrite (proj2 (Z.leb_le _ _)) by lia. split; [done|].
    intros now q. unfold poppable. simpl. by rewrite (proj2 (Z.leb_le _ _)) by lia.
  - eexists. split; [exact Ht2|]. simpl. split_and!; lia || done.
Qed.
End machine.

(** ** A worked run *)

(** Messages are numbers; 0 is one this release cannot read. *)
Definition demo_decode (d : Z) : option Z := if d =? 0 then None else Some d.

Definition demo_pushed : config (D := Z) (T := Z) :=
  mkConfig (queue_push 3 100 1 (builder_new 7)
    (queue_push 3 90 2 (builder_priority Sweep (builder_new 8)) empty_queue).2).2 [].

Definition demo_guard : JobGuard Z Z :=
  mkGuard 7 200 (run_job_row 200 (mkJob 1 100 100 100 Queued 3 0 Background 7)).

Definition demo_held : config (D := Z) (T := Z) :=
  mkConfig (mkQueue (table (queue demo_pushed)) {[ 1%N ]}) [demo_guard].

Lemma demo_pushed_reach : rtc (qstep demo_decode) start demo_pushed.
Proof.
  eapply rtc_l; [apply (step_push demo_decode 3 90 2 (builder_priority Sweep (builder_new 8)))|].
  { simpl. unfold i32_max. lia. }
  eapply rtc_l; [apply (step_push demo_decode 3 100 1 (builder_new 7))|apply rtc_refl].
  simpl. unfold i32_max. lia.
Qed.

Lemma demo_held_reach : rtc (qstep demo_decode) start demo_held.
Proof.
  eapply rtc_r; [apply demo_pushed_reach|].
  apply (step_pop demo_decode 200 demo_pushed demo_guard). vm_compute. reflexivity.
Qed.

Lemma queue_is_safe_witness : queue_inv demo_decode demo_held ∧ held demo_held = [demo_guard].
Proof. split; [apply queue_is_safe, demo_held_reach|reflexivity]. Defined.

Definition demo_unreadable : Job Z := mkJob 9 50 50 50 Queued 3 0 Interactive 0.
Definition demo_blocked : config (D := Z) (T := Z) :=
  mkConfig (queue_push 3 50 9 (builder_priority Interactive (builder_new 0))
    (queue demo_pushed)).2 [].

Lemma undecodable_head_blocks_witness :
  pop demo_decode 200 (queue demo_blocked) = (Err UndecodableDescriptor, queue demo_blocked).
Proof.
  apply (undecodable_head_blocks demo_decode 200 demo_blocked demo_unreadable).
  - eapply rtc_r; [apply demo_pushed_reach|].
    apply (step_push demo_decode 3 50 9 (builder_priority Interactive (builder_new 0)) demo_pushed).
    simpl. unfold i32_max. lia.
  - pose proof (pop_head 200 (queue demo_blocked)) as Hh.
    assert (Ho : ∃ l, order_by pop_key (select (poppable 200 (queue demo_blocked))
      (table (queue demo_blocked))) = demo_unreadable :: l) by (eexists; vm_compute; reflexivity).
    destruct Ho as [l Ho]. rewrite Ho in Hh. exact Hh.
  - reflexivity.
Defined.

Lemma settling_a_job_witness :
  ∃ j', table (guard_reschedule demo_guard 900 (queue demo_held)) !! 1%N = Some j' ∧
    jb_attempt_count j' = 0 ∧ jb_scheduled_for j' = 900.
Proof.
  destruct (settling_a_job demo_decode demo_held demo_guard 900 demo_held_reach)
    as (j & _ & _ & _ & j' & H & _ & Hs & Ha & _).
  - apply list_elem_of_singleton. reflexivity.
  - exists j'. split; [exact H|]. split; [exact Ha|exact Hs].
Defined.

(** A retry budget is the attempts it says: [n] retries are [n + 1]
    attempts, never fewer than one, and at most the largest the column holds. *)
Theorem max_retries_attempts n :
  is_u32 n → with_max_retries n = Z.min (n + 1) i32_max ∧ 1 ≤ with_max_retries n ≤ i32_max.
Proof.
  unfold is_u32, with_max_retries, sat_add_u32, u32_max, i32_max. intros.
  destruct (Z.leb_spec (Z.min (n + 1) 4294967295) 2147483647); lia.
Qed.

Lemma max_retries_attempts_witness : with_max_retries 2 = 3 ∧ with_max_retries u32_max = i32_max.
Proof.
  split.
  - destruct (max_retries_attempts 2) as [-> _]; [unfold is_u32, u32_max; lia|reflexivity].
  - destruct (max_retries_attempts u32_max) as [-> _]; [unfold is_u32, u32_max; lia|reflexivity].
Defined.

End JobQueueProps.
