(* ===== verification/Worker.v ===== *)
(** * The worker loop (bin/dipper-service/src/worker)

    Retry delays and budgets ([result.rs]), what the loop does with a job's
    result, and the job-available subscription with its paced repair and
    warnings ([service.rs]).  Durations and instants are nanoseconds. *)

From S2P Require Import Prelude JobQueue JobQueueProps.
Import JobQueue JobQueueProps.
Local Open Scope Z_scope.

Module Worker.

(** ** Durations *)

(** [Duration::MAX] *)
Definition duration_max : Z := 18446744073709551616 * 1000000000 - 1.
Definition from_secs (s : Z) : Z := s * 1000000000.
(** [Duration::as_secs] *)
Definition as_secs (d : Z) : Z := d / 1000000000.
(** [now.saturating_duration_since(at_)] *)
Definition since (now at_ : Z) : Z := Z.max (now - at_) 0.
Definition dur_add (a b : Z) : Z := Z.min (a + b) duration_max.
Definition dur_mul (a n : Z) : Z := Z.min (a * n) duration_max.

(** ** Retries *)

Definition calculate_backoff_delay (base_delay attempt : Z) : Z :=
  if attempt <? 5 then dur_mul base_delay (2 ^ attempt) else from_secs 300.

Definition MAX_RETRIES_PER_WINDOW : Z := 64.

(** The loop over [0..MAX_RETRIES_PER_WINDOW], [todo] iterations from
    [retries] on. *)
Fixpoint retries_loop (window base_delay : Z) (todo : nat) (retries elapsed : Z) : Z :=
  match todo with
  | O => MAX_RETRIES_PER_WINDOW
  | S todo' =>
      let next := dur_add elapsed (calculate_backoff_delay base_delay retries) in
      if window <? next then retries
      else retries_loop window base_delay todo' (retries + 1) next
  end.

Definition retries_within_window (window base_delay : Z) : Z :=
  retries_loop window base_delay 64 0 0.

(** ** Job results *)

Inductive JobError : Type :=
| Retryable (base_delay : Z)
| Deferred (delay : Z)
| Fatal.

(** [JobResult<()>] *)
Definition JobResult : Type := result JobError ().

Definition JOB_TIMEOUT_RETRY_BASE_DELAY : Z := from_secs 30.

(** [run_job_with_timeout]: [None] is the backstop elapsing first. *)
Definition run_job_with_timeout (fut : option JobResult) : JobResult :=
  match fut with
  | Some res => res
  | None => Err (Retryable JOB_TIMEOUT_RETRY_BASE_DELAY)
  end.

(** The [match] of [run_loop] on a job's result; [wall] is [now_utc()], and a
    time is stored to the microsecond. *)
Definition disposition {D T} (wall : Z) (g : JobGuard D T) (res : JobResult) : action :=
  match res with
  | Ok tt => Remove
  | Err (Retryable base_delay) =>
      FailAt ((wall + calculate_backoff_delay base_delay (failed_attempts g)) / 1000)
  | Err (Deferred delay) => Defer ((wall + delay) / 1000)
  | Err Fatal => Remove
  end.

(** Settling a job, when the transaction commits and when it does not. *)
Definition finish_job {D T} (wall : Z) (g : JobGuard D T) (fut : option JobResult)
    (commits : bool) (q : Queue D) : Queue D :=
  settle (if commits then disposition wall g (run_job_with_timeout fut) else Drop) g q.

(** ** Re-subscribing *)

Definition RESUBSCRIBE_BASE_DELAY : Z := from_secs 1.
Definition RESUBSCRIBE_MAX_DELAY : Z := from_secs 30.
Definition RESUBSCRIBE_STABLE_PERIOD : Z := RESUBSCRIBE_MAX_DELAY.
Definition RESUBSCRIBE_MAX_DOUBLINGS : Z := 5.

Record ResubscribeBackoff : Type := mkBackoff {
  rb_failures : Z;
  rb_next_attempt : option Z;
  rb_subscribed_at : option Z }.

Definition default_backoff : ResubscribeBackoff := mkBackoff 0 None None.

Definition is_due (b : ResubscribeBackoff) (now : Z) : bool :=
  match rb_next_attempt b with None => true | Some at_ => at_ <=? now end.

Definition resubscribe_delay (failures : Z) : Z :=
  let doublings := Z.min (sat_sub failures 1) RESUBSCRIBE_MAX_DOUBLINGS in
  Z.min (RESUBSCRIBE_BASE_DELAY * Z.shiftl 1 doublings) RESUBSCRIBE_MAX_DELAY.

(** [now.duration_since(at)] is zero when [at] is later. *)
Definition backoff_failure (b : ResubscribeBackoff) (now : Z) : ResubscribeBackoff :=
  let was_stable := match rb_subscribed_at b with
                    | Some at_ => RESUBSCRIBE_STABLE_PERIOD <=? sat_sub now at_
                    | None => false
                    end in
  let failures := sat_add_u32 (if was_stable then 0 else rb_failures b) 1 in
  mkBackoff failures (Some (now + resubscribe_delay failures)) None.

Definition backoff_success (b : ResubscribeBackoff) (now : Z) : ResubscribeBackoff :=
  mkBackoff (rb_failures b) None (Some now).

Definition should_resubscribe (listener_present listener_failed_this_tick : bool)
    (backoff : ResubscribeBackoff) (now : Z) : bool :=
  negb listener_present && negb listener_failed_this_tick && is_due backoff now.

(** ** Warnings *)

Definition WARN_COOLDOWN : Z := from_secs 60.

Record WarnPacer : Type := mkPacer {
  wp_last_warned : option Z;
  wp_announced : bool;
  wp_failures_since_warning : Z;
  wp_failures_since_success : Z }.

Definition default_pacer : WarnPacer := mkPacer None false 0 0.

Definition warn_due (w : WarnPacer) (now : Z) : bool :=
  match wp_last_warned w with
  | None => true
  | Some last => WARN_COOLDOWN <=? sat_sub now last
  end.

Definition pacer_failure (w : WarnPacer) (now : Z) : option Z * WarnPacer :=
  let since_warning := sat_add_u32 (wp_failures_since_warning w) 1 in
  let since_success := sat_add_u32 (wp_failures_since_success w) 1 in
  if warn_due w now
  then (Some since_warning, mkPacer (Some now) true 0 since_success)
  else (None, mkPacer (wp_last_warned w) (wp_announced w) since_warning since_success).

Definition take_announced (w : WarnPacer) : option Z * WarnPacer :=
  (if wp_announced w then Some (wp_failures_since_success w) else None,
   mkPacer (wp_last_warned w) false (wp_failures_since_warning w) 0).

(** ** Ticks *)

Inductive Tick : Type :=
| Stop
| Poll (listener_failed : bool).

(** What the select of [await_next_tick] sees first.  A notification or a
    listener error needs a listener. *)
Inductive wait_event : Type :=
| StopRequested
| StopUnchanged
| Notified
| ListenerError
| PollElapsed.

Definition await_next_tick (ev : wait_event) (now : Z) (listener : bool) (w : WarnPacer)
    : option (Tick * bool * WarnPacer) :=
  match ev, listener with
  | StopRequested, _ => Some (Stop, listener, w)
  | StopUnchanged, _ | PollElapsed, _ => Some (Poll false, listener, w)
  | Notified, true => Some (Poll false, true, w)
  | ListenerError, true => Some (Poll true, false, (pacer_failure w now).2)
  | Notified, false | ListenerError, false => None
  end.

Record Subscription : Type := mkSubscription {
  sb_listener : bool;
  sb_warn_pacer : WarnPacer;
  sb_backoff : ResubscribeBackoff }.

(** [Subscription::start]; [ok] is whether [subscribe] succeeds. *)
Definition subscription_start (ok : bool) (now : Z) : Subscription :=
  if ok then mkSubscription true default_pacer (backoff_success default_backoff now)
  else mkSubscription false (pacer_failure default_pacer now).2
         (backoff_failure default_backoff now).

Definition resubscribe (ok : bool) (now : Z) (s : Subscription) : Subscription :=
  if ok then mkSubscription true (take_announced (sb_warn_pacer s)).2
               (backoff_success (sb_backoff s) now)
  else mkSubscription (sb_listener s) (pacer_failure (sb_warn_pacer s) now).2
         (backoff_failure (sb_backoff s) now).

(** [next_tick]: [None] when the event cannot happen, and otherwise whether
    the loop goes on. *)
Definition next_tick (ev : wait_event) (ok : bool) (now : Z) (s : Subscription)
    : option (bool * Subscription) :=
  match await_next_tick ev now (sb_listener s) (sb_warn_pacer s) with
  | None => None
  | Some (Stop, l, w) => Some (false, mkSubscription l w (sb_backoff s))
  | Some (Poll failed, l, w) =>
      let b := if failed then backoff_failure (sb_backoff s) now else sb_backoff s in
      let s' := mkSubscription l w b in
      Some (true, if should_resubscribe l failed b now then resubscribe ok now s' else s')
  end.

(** ** Retry budgets *)

(** The time the first [n] retries take. *)
Fixpoint backoff_total (base : Z) (n : nat) : Z :=
  match n with
  | O => 0
  | S n' => backoff_total base n' + calculate_backoff_delay base (Z.of_nat n')
  end.

Lemma delay_range base attempt :
  0 ≤ base → 0 ≤ attempt → 0 ≤ calculate_backoff_delay base attempt ≤ duration_max.
Proof.
  intros Hb Ha. unfold calculate_backoff_delay, dur_mul, from_secs, duration_max.
  pose proof (Z.pow_pos_nonneg 2 attempt). destruct (attempt <? 5); nia.
Qed.

Lemma backoff_total_nonneg base n : 0 ≤ base → 0 ≤ backoff_total base n.
Proof.
  intros Hb. induction n as [|n IH]; simpl; [lia|].
  pose proof (delay_range base (Z.of_nat n)). lia.
Qed.

Lemma retries_loop_spec window base todo done_ :
  0 ≤ base → 0 ≤ window < duration_max → (done_ + todo = 64)%nat →
  backoff_total base done_ ≤ window →
  let n := retries_loop window base todo (Z.of_nat done_) (backoff_total base done_) in
  0 ≤ n ≤ 64 ∧ backoff_total base (Z.to_nat n) ≤ window ∧
  (n < 64 → window < backoff_total base (S (Z.to_nat n))).
Proof.
  intros Hb Hw. revert done_. induction todo as [|todo IH]; intros done_ Hsum Hfit.
  { cbn [retries_loop]. unfold MAX_RETRIES_PER_WINDOW. split; [lia|]. split; [|lia].
    assert (done_ = Z.to_nat 64) as <- by lia. exact Hfit. }
  cbn [retries_loop]. set (delay := calculate_backoff_delay base (Z.of_nat done_)).
  pose proof (delay_range base (Z.of_nat done_) Hb ltac:(lia)) as Hd. fold delay in Hd.
  pose proof (backoff_total_nonneg base done_ Hb) as Ht. unfold dur_add.
  destruct (Z.ltb_spec window (Z.min (backoff_total base done_ + delay) duration_max)).
  - rewrite Nat2Z.id. split; [lia|]. split; [done|]. intros _. simpl. fold delay. lia.
  - rewrite Z.min_l by lia. replace (Z.of_nat done_ + 1) with (Z.of_nat (S done_)) by lia.
    apply (IH (S done_)); [lia|]. simpl. fold delay. lia.
Qed.

(** A retry budget is the most retries that fit the window: their waits
    add up to no more than the window, one more would pass it, and the budget
    never exceeds its cap, whatever the window and base delay. *)
Theorem retry_budget_is_maximal window base :
  0 ≤ base → 0 ≤ window < duration_max →
  let n := retries_within_window window base in
  0 ≤ n ≤ MAX_RETRIES_PER_WINDOW ∧ backoff_total base (Z.to_nat n) ≤ window ∧
  (n < MAX_RETRIES_PER_WINDOW → window < backoff_total base (S (Z.to_nat n))).
Proof.
  intros Hb Hw. unfold retries_within_window, MAX_RETRIES_PER_WINDOW.
  apply (retries_loop_spec window base 64 0); simpl; lia.
Qed.

Lemma retry_budget_is_maximal_witness :
  retries_within_window (from_secs 600) (from_secs 30) = 4 ∧
  backoff_total (from_secs 30) 4 ≤ from_secs 600.
Proof.
  split; [vm_compute; reflexivity|].
  apply (retry_budget_is_maximal (from_secs 600) (from_secs 30)); vm_compute; intuition discriminate.
Defined.

(** ** Jobs are not lost *)

(** C14: the loop loses no job.  Whatever a job's handler returns, and when it
    hangs past the backstop or the settling transaction fails, the job's row
    is removed only after success or a fatal error; a retryable failure
    charges one attempt and waits out the backoff for the attempts made so
    far, or is [Failed] for good on its last; a deferral charges none; and a
    failed commit leaves the row exactly as it was before the pop. *)
Theorem finish_job_keeps_jobs {D T} (decode : D → option T) c g wall fut commits :
  rtc (qstep decode) start c → g ∈ held c →
  ∃ j, table (queue c) !! jg_id g = Some j ∧
  let row := table (finish_job wall g fut commits (queue c)) !! jg_id g in
  match commits, run_job_with_timeout fut with
  | false, _ => row = Some j
  | true, Ok tt | true, Err Fatal => row = None
  | true, Err (Retryable base) =>
      ∃ j', row = Some j' ∧ jb_attempt_count j' = jb_attempt_count j + 1 ∧
        if jb_attempt_count j + 1 <? jb_max_attempts j
        then jb_status j' = Queued ∧
             jb_scheduled_for j' =
               (wall + calculate_backoff_delay base (jb_attempt_count j)) / 1000
        else jb_status j' = Failed
  | true, Err (Deferred delay) =>
      ∃ j', row = Some j' ∧ jb_attempt_count j' = jb_attempt_count j ∧
        jb_status j' = Queued ∧ jb_scheduled_for j' = (wall + delay) / 1000
  end.
Proof.
  intros Hr Hg. apply reach_inv in Hr.
  destruct (settled_row decode c g 0 true Hr Hg) as (j & Hj & Hf & _).
  exists j. split; [done|]. cbv zeta. unfold finish_job.
  assert (Hrow : ∀ at_ count, table (requeue g at_ count (queue c)) !! jg_id g =
    Some (requeue_row (jg_now g) at_ count (run_job_row (jg_now g) j))).
  { intros at_ count. destruct (settled_row decode c g at_ count Hr Hg) as (j' & Hj' & _ & ->).
    congruence. }
  destruct commits; [|exact Hj].
  destruct (run_job_with_timeout fut) as [[]|[base|delay|]];
    cbn [disposition settle guard_remove table]; [by rewrite lookup_delete_eq| | |by rewrite lookup_delete_eq].
  - eexists. split; [apply Hrow|]. rewrite Hf. cbn [requeue_row run_job_row jb_attempt_count
      jb_max_attempts jb_status jb_scheduled_for andb]. split; [done|].
    destruct (Z.ltb_spec (jb_attempt_count j + 1) (jb_max_attempts j)).
    + by rewrite (proj2 (Z.leb_gt _ _)) by lia.
    + by rewrite (proj2 (Z.leb_le _ _)) by lia.
  - eexists. split; [apply Hrow|]. cbn [requeue_row run_job_row jb_attempt_count
      jb_max_attempts jb_status jb_scheduled_for andb]. split; [lia|done].
Qed.

Lemma finish_job_keeps_jobs_witness :
  ∃ j', table (finish_job 1000000 demo_guard (Some (Err (Retryable (from_secs 5)))) true
          (queue demo_held)) !! 1%N = Some j' ∧
    jb_attempt_count j' = 1 ∧ jb_status j' = Queued ∧ jb_scheduled_for j' = 5001000.
Proof.
  destruct (finish_job_keeps_jobs demo_decode demo_held demo_guard 1000000
    (Some (Err (Retryable (from_secs 5)))) true demo_held_reach) as (j & Hj & H).
  - apply list_elem_of_singleton. reflexivity.
  - assert (j = mkJob 1 100 100 100 Queued 3 0 Background 7) as ->.
    { vm_compute in Hj. injection Hj as <-. reflexivity. }
    cbn beta zeta iota in H. destruct H as (j' & H1 & H2 & H3 & H4).
    exists j'. split; [exact H1|]. split; [exact H2|]. split; [exact H3|exact H4].
Defined.

(** ** The subscription *)

(** Re-subscription is paced between 1 and 30 seconds: the wait after a
    run of failures doubles from one second to its ceiling, never shrinks as
    failures mount, and no attempt is due until it has passed. *)
Theorem resubscribe_backoff_bounds b now t :
  0 ≤ rb_failures b →
  let b' := backoff_failure b now in
  from_secs 1 ≤ resubscribe_delay (rb_failures b') ≤ from_secs 30 ∧
  resubscribe_delay (rb_failures b') =
    Z.min (from_secs (2 ^ Z.min (rb_failures b' - 1) 5)) (from_secs 30) ∧
  (is_due b' t = true ↔ now + resubscribe_delay (rb_failures b') ≤ t).
Proof.
  intros Hb. cbv zeta. set (b' := backoff_failure b now).
  assert (Hf : 1 ≤ rb_failures b').
  { unfold b', backoff_failure, sat_add_u32, u32_max. simpl. repeat case_match; lia. }
  assert (Hd : resubscribe_delay (rb_failures b') =
    Z.min (from_secs (2 ^ Z.min (rb_failures b' - 1) 5)) (from_secs 30)).
  { unfold resubscribe_delay, sat_sub, RESUBSCRIBE_MAX_DOUBLINGS, RESUBSCRIBE_BASE_DELAY,
      RESUBSCRIBE_MAX_DELAY, from_secs.
    rewrite Z.max_r, Z.shiftl_1_l by lia. f_equal. lia. }
  split; [|split; [done|]].
  - rewrite Hd. unfold from_secs.
    assert (2 ^ 0 ≤ 2 ^ Z.min (rb_failures b' - 1) 5) by (apply Z.pow_le_mono_r; lia). lia.
  - unfold is_due, b', backoff_failure. simpl. apply Z.leb_le.
Qed.

Lemma resubscribe_backoff_bounds_witness :
  resubscribe_delay (rb_failures (backoff_failure (mkBackoff 2 None None) 0)) = from_secs 4 ∧
  is_due (backoff_failure (mkBackoff 2 None None) 0) (from_secs 3) = false.
Proof.
  destruct (resubscribe_backoff_bounds (mkBackoff 2 None None) 0 (from_secs 3)) as (_ & H & H').
  - simpl. lia.
  - split; [rewrite H; reflexivity|]. apply not_true_is_false. rewrite H'. vm_compute. intuition.
Defined.

(** A run of the subscription: each tick's event, time and subscribe result. *)
Record tick_input : Type := mkTick { ti_event : wait_event; ti_ok : bool; ti_now : Z }.

Fixpoint run_ticks (ticks : list tick_input) (s : Subscription) : option Subscription :=
  match ticks with
  | [] => Some s
  | t :: rest =>
      match next_tick (ti_event t) (ti_ok t) (ti_now t) s with
      | Some (true, s') => run_ticks rest s'
      | Some (false, _) | None => None
      end
  end.

(** The waits between two events of a run that did not sleep a poll period. *)
Definition no_sleep (ticks : list tick_input) : Prop :=
  Forall (λ t, ti_event t ≠ PollElapsed ∧ ti_event t ≠ StopUnchanged) ticks.

Lemma failure_drops_listener t s s' :
  ti_event t = ListenerError → next_tick (ti_event t) (ti_ok t) (ti_now t) s = Some (true, s') →
  sb_listener s' = false.
Proof.
  intros Ht. unfold next_tick, await_next_tick. rewrite Ht.
  destruct (sb_listener s); [|done]. unfold should_resubscribe. simpl.
  by intros [= <-].
Qed.

(** A listener that keeps failing cannot spin the loop: after it fails,
    no run of ticks reaches a second failure without first sleeping a poll
    period or being woken by the stop channel. *)
Theorem listener_failures_are_paced t1 mid t2 s s' :
  ti_event t1 = ListenerError → ti_event t2 = ListenerError →
  run_ticks (t1 :: mid ++ [t2]) s = Some s' → ~ no_sleep mid.
Proof.
  intros H1 H2 Hrun Hno. simpl in Hrun.
  destruct (next_tick _ _ _ s) as [[[] s1]|] eqn:E1; try done.
  pose proof (failure_drops_listener t1 s s1 H1 E1) as Hl. clear E1.
  destruct mid as [|t mid]; simpl in Hrun.
  - unfold next_tick, await_next_tick in Hrun. rewrite H2, Hl in Hrun. done.
  - apply Forall_cons in Hno as [[Hp Hs] _].
    unfold next_tick, await_next_tick in Hrun. rewrite Hl in Hrun.
    destruct (ti_event t); done.
Qed.

Lemma listener_failures_are_paced_witness :
  ∃ s', run_ticks [mkTick ListenerError true 0; mkTick PollElapsed true (from_secs 1);
                   mkTick ListenerError true (from_secs 1)]
          (subscription_start true 0) = Some s' ∧
    ~ no_sleep [mkTick PollElapsed true (from_secs 1)].
Proof.
  eexists. split; [vm_compute; reflexivity|].
  apply (listener_failures_are_paced (mkTick ListenerError true 0)
    [mkTick PollElapsed true (from_secs 1)] (mkTick ListenerError true (from_secs 1))
    (subscription_start true 0)
    (match run_ticks [mkTick ListenerError true 0; mkTick PollElapsed true (from_secs 1);
       mkTick ListenerError true (from_secs 1)] (subscription_start true 0) with
     Some s => s | None => subscription_start true 0 end)); vm_compute; reflexivity.
Defined.

(** ** Warnings *)

(** Failures at given times, in order: the times warned at. *)
Fixpoint warnings (times : list Z) (w : WarnPacer) : list Z :=
  match times with
  | [] => []
  | t :: rest =>
      match pacer_failure w t with
      | (Some _, w') => t :: warnings rest w'
      | (None, w') => warnings rest w'
      end
  end.

Lemma warnings_after times w last t :
  wp_last_warned w = Some last → t ∈ warnings times w → last + WARN_COOLDOWN ≤ t.
Proof.
  revert w last. induction times as [|x times IH]; intros w last Hw Ht; [by apply not_elem_of_nil in Ht|].
  simpl in Ht. unfold pacer_failure, warn_due in Ht. rewrite Hw in Ht.
  destruct (Z.leb_spec WARN_COOLDOWN (sat_sub x last)) as [Hd|Hd]; simpl in Ht.
  - assert (last + WARN_COOLDOWN ≤ x) as Hx
      by (unfold sat_sub, WARN_COOLDOWN, from_secs in *; lia).
    apply elem_of_cons in Ht as [->|Ht]; [done|].
    apply (IH _ x) in Ht; [|done]. unfold WARN_COOLDOWN, from_secs in *. lia.
  - by apply (IH _ last) in Ht.
Qed.

(** However fast the connection flaps, two warnings are at least the
    cooldown apart. *)
Theorem warnings_are_paced times w i j ti tj :
  (i < j)%nat → warnings times w !! i = Some ti → warnings times w !! j = Some tj →
  ti + WARN_COOLDOWN ≤ tj.
Proof.
  revert w i j. induction times as [|x times IH]; intros w i j Hij Hi Hj; [done|].
  simpl in Hi, Hj. destruct (pacer_failure w x) as [[n|] w'] eqn:E; [|by eapply IH].
  destruct i as [|i], j as [|j]; simpl in *; try lia; [|eapply IH; [|done..]; lia].
  injection Hi as <-. eapply (warnings_after times w' x).
  - unfold pacer_failure in E. destruct (warn_due w x); [|done]. by injection E as _ <-.
  - apply list_elem_of_lookup. eauto.
Qed.

Lemma warnings_are_paced_witness :
  warnings [0; from_secs 1; from_secs 61] default_pacer = [0; from_secs 61] ∧
  0 + WARN_COOLDOWN ≤ from_secs 61.
Proof.
  split; [reflexivity|].
  apply (warnings_are_paced [0; from_secs 1; from_secs 61] default_pacer 0 1);
    [lia|reflexivity|reflexivity].
Defined.

End Worker.
