(* ===== verification/Rca.v ===== *)
(** * Proposals to indexers (bin/dipper-service/src/indexer_rpc_client.rs)

    The agreement as the chain knows it, built from an agreement's stored
    terms, and the gRPC call that proposes it, with its retries.  The hash and
    the ABI encoding are libraries, and parameters here; so are the answers of
    the indexer. *)

From S2P Require Import Prelude Ids Schema.
Import Ids Schema.
Local Open Scope Z_scope.

Module Rca.

(** [sol::RecurringCollectionAgreement] *)
Record RecurringCollectionAgreement : Type := mkRca {
  rca_deadline : Z;
  rca_endsAt : Z;
  rca_payer : N;
  rca_dataService : N;
  rca_serviceProvider : N;
  rca_maxInitialTokens : Z;
  rca_maxOngoingTokensPerSecond : Z;
  rca_minSecondsPerCollection : Z;
  rca_maxSecondsPerCollection : Z;
  rca_conditions : Z;
  rca_nonce : Z;
  rca_metadata : list Z }.

Section rca.
(** [keccak256]; the ABI encodings of the identifying fields, of the pricing
    terms and of the acceptance metadata. *)
Context (keccak256 : list Z → list Z).
Context (abi_encode_key : N → N → N → Z → Z → list Z).
Context (abi_encode_terms : Z → Z → list Z).
Context (abi_encode_metadata : N → Z → list Z → list Z).

(** The first 16 bytes of the hash, big-endian. *)
Definition derive_agreement_id (rca : RecurringCollectionAgreement) : N :=
  Z.to_N (from_be_bytes 0 (take 16 (keccak256 (abi_encode_key (rca_payer rca) (rca_dataService rca)
    (rca_serviceProvider rca) (rca_deadline rca) (rca_nonce rca))))).

(** The 16 bytes of the UUID are the low bytes of the nonce, which is its
    number. *)
Definition into_sol_rca (nonce_uuid : N) (terms : Terms) : RecurringCollectionAgreement * N :=
  let m := t_metadata terms in
  let sol_terms := abi_encode_terms (tm_tokens_per_second m) (tm_tokens_per_entity_per_second m) in
  let metadata := abi_encode_metadata (tm_deployment m) 0 sol_terms in
  let rca := mkRca (t_deadline terms) (t_ends_at terms) (t_payer terms) (t_data_service terms)
    (t_service_provider terms) (t_max_initial_tokens terms)
    (t_max_ongoing_tokens_per_second terms) (t_min_seconds_per_collection terms)
    (t_max_seconds_per_collection terms) (t_conditions terms) (Z.of_N nonce_uuid) metadata in
  (rca, derive_agreement_id rca).

Definition compute_on_chain_id (nonce_uuid : N) (terms : Terms) : N :=
  (into_sol_rca nonce_uuid terms).2.
End rca.
#[global] Arguments into_sol_rca : simpl never.

(** ** The call *)

(** The gRPC codes [is_retryable_status] tells apart. *)
Inductive Code : Type :=
| Unavailable | ResourceExhausted | Aborted | DeadlineExceeded | OtherCode (c : Z).

Definition is_retryable_status (c : Code) : bool :=
  match c with
  | Unavailable | ResourceExhausted | Aborted | DeadlineExceeded => true
  | OtherCode _ => false
  end.

(** Milliseconds. *)
Definition calculate_retry_delay (attempt : Z) : Z :=
  Z.min (Z.min (1000 * 2 ^ Z.min attempt 5) u64_max) 30000.

Inductive DipsError : Type := ConnectionError | RequestError (c : Code) | SigningError.

Section retry.
(** [S] is the state of the network; [get_client] fails on a URL that makes no
    endpoint, [make_request] is one call. *)
Context {S T : Type} (get_client : option ()) (make_request : S → result Code T * S).

(** The attempts from [attempt] on, [left] retries being left; the delays slept
    are logged. *)
Fixpoint retry_loop (left : nat) (attempt : Z) (s : S) : result DipsError T * S * list Z :=
  match get_client with
  | None => (Err ConnectionError, s, [])
  | Some _ =>
      match make_request s with
      | (Ok a, s') => (Ok a, s', [])
      | (Err c, s') =>
          match left with
          | O => (Err (RequestError c), s', [])
          | Datatypes.S left' =>
              if is_retryable_status c then
                let '(r, s'', slept) := retry_loop left' (attempt + 1) s' in
                (r, s'', calculate_retry_delay attempt :: slept)
              else (Err (RequestError c), s', [])
          end
      end
  end.

Definition with_retry (max_retries : nat) : S → result DipsError T * S * list Z :=
  retry_loop max_retries 0.

(** ** What a call does *)

(** The first [k] answers and the state after them. *)
Fixpoint ask (k : nat) (s : S) : list (result Code T) * S :=
  match k with
  | O => ([], s)
  | Datatypes.S k' =>
      let '(a, s1) := make_request s in let '(rest, s2) := ask k' s1 in (a :: rest, s2)
  end.

Definition transient (a : result Code T) : Prop := ∃ c, a = Err c ∧ is_retryable_status c = true.

Lemma retry_loop_spec left attempt s r s' slept :
  get_client = Some () → retry_loop left attempt s = (r, s', slept) →
  ∃ k failed a, (k ≤ left)%nat ∧ ask (Datatypes.S k) s = (failed ++ [a], s') ∧ length failed = k ∧
    Forall transient failed ∧
    match r with
    | Ok t => a = Ok t
    | Err e => ∃ c, a = Err c ∧ e = RequestError c ∧ (k = left ∨ is_retryable_status c = false)
    end ∧ slept = calculate_retry_delay <$> seqZ attempt (Z.of_nat k).
Proof.
  intros Hc. revert attempt s r s' slept. induction left as [|left IH]; intros attempt s r s' slept;
    simpl; rewrite Hc; destruct (make_request s) as [a s1] eqn:Hm.
  - destruct a as [t|c]; intros [= <- <- <-].
    + exists 0%nat, [], (Ok t). simpl. rewrite ?Hm. by repeat split.
    + exists 0%nat, [], (Err c). simpl. rewrite ?Hm. repeat split; eauto.
  - destruct a as [t|c].
    { intros [= <- <- <-]. exists 0%nat, [], (Ok t). simpl. rewrite ?Hm. repeat split; [lia|done]. }
    destruct (is_retryable_status c) eqn:Hr.
    + destruct (retry_loop left (attempt + 1) s1) as [[r1 s2] sl] eqn:Hl. intros [= <- <- <-].
      destruct (IH _ _ _ _ _ Hl) as (k & failed & a & Hk & Hask & Hlen & Hf & Ha & ->).
      exists (Datatypes.S k), (Err c :: failed), a. split; [lia|]. split.
      { by rewrite Hask. }
      split; [simpl; congruence|]. split; [constructor; [by exists c|done]|]. split.
      * destruct r1 as [t|e]; [done|]. destruct Ha as (c' & ? & ? & [?|?]); exists c'; auto with lia.
      * rewrite Nat2Z.inj_succ, (seqZ_cons attempt) by lia. simpl. by rewrite Z.add_1_r, Z.pred_succ.
    + intros [= <- <- <-]. exists 0%nat, [], (Err c). simpl. rewrite ?Hm. repeat split; eauto with lia.
Qed.

Lemma retry_delay_bounds a : 0 ≤ a → 1000 ≤ calculate_retry_delay a ≤ 30000.
Proof.
  intros Ha. unfold calculate_retry_delay, u64_max.
  pose proof (Z.pow_le_mono_r 2 0 (Z.min a 5) ltac:(lia) ltac:(lia)). lia.
Qed.
End retry.

End Rca.
