(* ===== verification/CancelDispatch.v ===== *)
(** * Starting on-chain cancels (bin/dipper-service/src/cancel_dispatch.rs)

    The dispatch calls two components through interfaces: the registry, whose
    promises are the laws of [CancelRegistryLaws], and the chain client, about
    which nothing is assumed: any read or submission may fail or answer
    anything.  How a transaction hash prints is a parameter.  The theorems hold for every registry that keeps the laws;
    [PgCancelRegistry] is the one on Postgres, with connections that may be
    lost before or after a statement took effect. *)

From S2P Require Import Prelude Schema Registry RegistryInv RegistryRuns RegistryOps RegistryQueries.
From S2P Require Import Rca.
Import Rca.
Import Schema Registry RegistryInv RegistryRuns RegistryOps RegistryQueries.
Local Open Scope Z_scope.

Module CancelDispatch.

(** ** The chain client *)

Inductive ChainClientError : Type :=
| SubmitFailed
| ConfigError
| MissingTermsVersionHash (agreement_id : N)
| CancelNotConfirmed (agreement_id : N)
| RpcError
| TxDropped (tx_hash : N) (receipt_checked : bool)
| TxReverted (tx_hash : N)
| ContractRevert (selector : Z).

Inductive AgreementOnChain : Type := Live | EndedByIndexer | NotLive.

#[export] Instance AgreementOnChain_eq_dec : EqDecision AgreementOnChain.
Proof. solve_decision. Defined.

(** The two methods of [trait ChainClient] the dispatch uses, on the state [C]
    of the chain and its providers. *)
Class ChainClient (C : Type) : Type := {
  agreement_on_chain : N → C → result ChainClientError AgreementOnChain * C;
  cancel_via_manager : N → N → list Z → Z → C → result ChainClientError (option N) * C }.

(** What the offer job and the services that need the chain's time use of the
    same trait. *)
Class OfferClient (C : Type) : Type :=
  offer_via_manager : RecurringCollectionAgreement → C → result ChainClientError (option N) * C.

Class ChainClock (C : Type) : Type :=
  latest_block_timestamp : C → result ChainClientError Z * C.

(** ** The registry *)

(** The methods of [trait AgreementRegistry] the dispatch uses; [reg_status]
    is what the registry holds, not a method. *)
Class CancelRegistry (R : Type) : Type := {
  reg_ok : R → Prop;
  reg_status : R → N → option AgreementStatus;
  reg_mark_cancelling : N → R → result Error () * R;
  reg_mark_abandoning : N → R → result Error () * R;
  reg_mark_canceled_by_requester : N → R → result Error () * R;
  reg_mark_abandoned_by_indexer : N → R → result Error () * R;
  reg_record_cancel_audit : N → Z → string → option string → R → result Error () * R;
  reg_reopen : N → bool → R → result Error () * R }.

(** ** Data *)

Record IndexingAgreementConfig : Type := mkConfig {
  recurring_collector : N;
  recurring_agreement_manager : string }.

Inductive CancelReason : Type := NotWanted | Abandoned.

Definition ended_status (r : CancelReason) : AgreementStatus :=
  match r with NotWanted => CanceledByRequester | Abandoned => AbandonedByIndexer end.

Inductive CancelStarted : Type := StartedEnded | StartedNotLive | StartedMayBeLive.

Inductive LiveCancel : Type :=
| LcNotLive (by_indexer : bool)
| LcEnded (tx_hash : option N)
| LcReadFailed (err : ChainClientError)
| LcUnconfirmed (tx_hash : option N) (err : ChainClientError)
| LcCancelFailed (err : ChainClientError).

Inductive Reopen : Type :=
| Reopened
| Left
| Unread (err : ChainClientError).

Definition SCOPE_ACTIVE : Z := 1.
Definition SCOPE_PENDING : Z := 2.
Definition SCOPE_BOTH : Z := Z.lor SCOPE_ACTIVE SCOPE_PENDING.

(** [agreement.terms_version_hash.filter(|h| h.len() == 32)] *)
Definition cancel_hash (agreement : IndexingAgreement) : option (list Z) :=
  h ← ia_terms_version_hash agreement;
  if bool_decide (length h = 32%nat) then Some h else None.

Section dispatch.
Context {R C : Type} `{!CancelRegistry R} `{!ChainClient C}.
(** How a transaction hash prints. *)
Context (tx_string : N → string).

(** The calls made to the chain, oldest first; a cancel also notes the status
    the registry held when it went out.  The dispatch reads and cancels; the
    services around it also offer and read the time. *)
Inductive chain_call : Type :=
| CallRead (id : N) (answer : result ChainClientError AgreementOnChain)
| CallCancel (id collector : N) (hash : list Z) (options : Z) (held : option AgreementStatus)
| CallOffer (rca : RecurringCollectionAgreement) (answer : result ChainClientError (option N))
| CallTime (answer : result ChainClientError Z).

Record State : Type := mkState { st_reg : R; st_chain : C; st_log : list chain_call }.

(** Calls that return, with an error as a value. *)
Definition M (A : Type) : Type := State → A * State.
#[export] Instance M_ret : MRet M := λ A a s, (a, s).
#[export] Instance M_bind : MBind M := λ A B k m s, let '(a, s') := m s in k a s'.

Definition chain_read (id : N) : M (result ChainClientError AgreementOnChain) := λ s,
  let '(a, c) := agreement_on_chain id (st_chain s) in
  (a, mkState (st_reg s) c (st_log s ++ [CallRead id a])).

Definition chain_cancel (collector id : N) (hash : list Z) (options : Z)
    : M (result ChainClientError (option N)) := λ s,
  let '(a, c) := cancel_via_manager collector id hash options (st_chain s) in
  (a, mkState (st_reg s) c
        (st_log s ++ [CallCancel id collector hash options (reg_status (st_reg s) id)])).

Definition registry {A} (f : R → A * R) : M A := λ s,
  let '(a, r) := f (st_reg s) in (a, mkState r (st_chain s) (st_log s)).

(** ** Operations *)

Definition cancel_agreement_on_chain (config : IndexingAgreementConfig)
    (agreement : IndexingAgreement) : M LiveCancel :=
  match cancel_hash agreement with
  | None => mret (LcCancelFailed (MissingTermsVersionHash (ia_id agreement)))
  | Some version_hash =>
      sent ← chain_cancel (recurring_collector config) (ia_id agreement) version_hash SCOPE_BOTH;
      match sent with
      | Err err => mret (LcCancelFailed err)
      | Ok tx_hash =>
          read ← chain_read (ia_id agreement);
          mret (match read with
                | Ok NotLive => LcEnded tx_hash
                | Ok EndedByIndexer => LcNotLive true
                | Ok Live => LcCancelFailed (CancelNotConfirmed (ia_id agreement))
                | Err err => LcUnconfirmed tx_hash err
                end)
      end
  end.

Definition cancel_if_live (config : IndexingAgreementConfig) (agreement : IndexingAgreement)
    : M LiveCancel :=
  read ← chain_read (ia_id agreement);
  match read with
  | Err err => mret (LcReadFailed err)
  | Ok Live => cancel_agreement_on_chain config agreement
  | Ok ended => mret (LcNotLive (bool_decide (ended = EndedByIndexer)))
  end.

Definition mark_cancelling (agreement : IndexingAgreement) (reason : CancelReason)
    : M (result Error ()) :=
  match reason with
  | NotWanted => registry (reg_mark_cancelling (ia_id agreement))
  | Abandoned => registry (reg_mark_abandoning (ia_id agreement))
  end.

Definition mark_ended (agreement : IndexingAgreement) (reason : CancelReason)
    : M (result Error ()) :=
  match reason with
  | NotWanted => registry (reg_mark_canceled_by_requester (ia_id agreement))
  | Abandoned => registry (reg_mark_abandoned_by_indexer (ia_id agreement))
  end.

(** A failure is logged. *)
Definition record_cancel (config : IndexingAgreementConfig) (now_secs : Z)
    (agreement : IndexingAgreement) (tx_hash : option N) : M () :=
  _ ← registry (reg_record_cancel_audit (ia_id agreement) now_secs
        (recurring_agreement_manager config) (tx_string <$> tx_hash));
  mret tt.

Definition confirm_cancelled (config : IndexingAgreementConfig) (now_secs : Z)
    (agreement : IndexingAgreement) (reason : CancelReason) (tx_hash : option N) : M bool :=
  _ ← (if is_null tx_hash then mret tt else record_cancel config now_secs agreement tx_hash);
  marked ← mark_ended agreement reason;
  mret (match marked with
        | Ok tt => true
        | Err NoRecordsUpdated => true
        | Err _ => false
        end).

Definition finish_marked_cancel (config : IndexingAgreementConfig) (now_secs : Z)
    (agreement : IndexingAgreement) (reason : CancelReason) (cancel : LiveCancel)
    : M CancelStarted :=
  match cancel with
  | LcEnded tx_hash =>
      if bool_decide (ia_status agreement ≠ AcceptedOnChain) then mret StartedNotLive
      else
        confirmed ← confirm_cancelled config now_secs agreement reason tx_hash;
        mret (if confirmed : bool then StartedEnded else StartedNotLive)
  | LcNotLive _ => mret StartedNotLive
  | LcReadFailed _ | LcCancelFailed _ | LcUnconfirmed _ _ => mret StartedMayBeLive
  end.

Definition send_marked_cancel (config : IndexingAgreementConfig) (now_secs : Z)
    (agreement : IndexingAgreement) (reason : CancelReason) : M CancelStarted :=
  cancel ← cancel_if_live config agreement;
  finish_marked_cancel config now_secs agreement reason cancel.

Definition start_cancel (config : IndexingAgreementConfig) (now_secs : Z)
    (agreement : IndexingAgreement) (reason : CancelReason) : M (result Error CancelStarted) :=
  marked ← mark_cancelling agreement reason;
  match marked with
  | Err e => mret (Err e)
  | Ok _ =>
      started ← send_marked_cancel config now_secs agreement reason; mret (Ok started)
  end.

Definition start_cancel_seen_live (config : IndexingAgreementConfig) (now_secs : Z)
    (agreement : IndexingAgreement) (reason : CancelReason) : M (result Error CancelStarted) :=
  marked ← mark_cancelling agreement reason;
  match marked with
  | Err e => mret (Err e)
  | Ok _ =>
      cancel ← cancel_agreement_on_chain config agreement;
      started ← finish_marked_cancel config now_secs agreement reason cancel;
      mret (Ok started)
  end.

(** The registry's answer to a reopen. *)
Definition reopen_as (agreement : IndexingAgreement) (seen_live : bool)
    : M (result Error Reopen) :=
  answer ← registry (reg_reopen (ia_id agreement) seen_live);
  mret (match answer with
        | Ok _ => Ok Reopened
        | Err NoRecordsUpdated => Ok Left
        | Err err => Err err
        end).

Definition reopen_if_live (agreement : IndexingAgreement) : M (result Error Reopen) :=
  read ← chain_read (ia_id agreement);
  match read with
  | Ok Live => reopen_as agreement true
  | Ok _ => mret (Ok Left)
  | Err err =>
      if bool_decide (ia_status agreement ≠ Rejected) then mret (Ok (Unread err))
      else reopen_as agreement false
  end.

End dispatch.

Arguments State : clear implicits.
Arguments M : clear implicits.

End CancelDispatch.
