(* ===== verification/CancelDispatchProps.v ===== *)
(** * What the cancel dispatch guarantees

    Against any registry that keeps its laws and any chain whatever, and then
    for the registry on Postgres. *)

From S2P Require Import Prelude Schema Registry RegistryInv RegistryRuns RegistryOps RegistryQueries.
From S2P Require Import CancelDispatch.
Import Schema Registry RegistryInv RegistryRuns RegistryOps RegistryQueries CancelDispatch.
Local Open Scope Z_scope.

Module CancelDispatchProps.

(** ** What the registry promises *)

(** A mark that succeeds leaves the agreement in its status; one refused for
    want of a row changes nothing, and a [Cancelling] agreement is never
    refused its end; a mark whose answer is lost may have been applied;
    recording an end touches no status. *)
Class CancelRegistryLaws (R : Type) `{!CancelRegistry R} : Prop := {
  mark_cancelling_ok id r r' :
    reg_ok r → reg_mark_cancelling id r = (Ok tt, r') → reg_status r' id = Some Cancelling;
  mark_abandoning_ok id r r' :
    reg_ok r → reg_mark_abandoning id r = (Ok tt, r') → reg_status r' id = Some Cancelling;
  end_ok reason id r a r' :
    reg_ok r →
    match reason with
    | NotWanted => reg_mark_canceled_by_requester id r
    | Abandoned => reg_mark_abandoned_by_indexer id r
    end = (a, r') →
    match a with
    | Ok _ => reg_status r' id = Some (ended_status reason)
    | Err NoRecordsUpdated => reg_status r' id = reg_status r id ∧ reg_status r id ≠ Some Cancelling
    | Err _ => reg_status r' id = reg_status r id ∨ reg_status r' id = Some (ended_status reason)
    end;
  audit_status id at_ by_ tx r k :
    reg_ok r → reg_status (reg_record_cancel_audit id at_ by_ tx r).2 k = reg_status r k;
  reopen_status id seen r a r' :
    reg_ok r → reg_reopen id seen r = (a, r') →
    match a with
    | Ok _ => reg_status r' id = Some Cancelling
    | Err NoRecordsUpdated => reg_status r' id = reg_status r id
    | Err _ => reg_status r' id = reg_status r id ∨ reg_status r' id = Some Cancelling
    end;
  mark_cancelling_keeps id r : reg_ok r → reg_ok (reg_mark_cancelling id r).2;
  mark_abandoning_keeps id r : reg_ok r → reg_ok (reg_mark_abandoning id r).2;
  canceled_keeps id r : reg_ok r → reg_ok (reg_mark_canceled_by_requester id r).2;
  abandoned_keeps id r : reg_ok r → reg_ok (reg_mark_abandoned_by_indexer id r).2;
  audit_keeps id at_ by_ tx r : reg_ok r → reg_ok (reg_record_cancel_audit id at_ by_ tx r).2;
  reopen_keeps id seen r : reg_ok r → reg_ok (reg_reopen id seen r).2 }.

Section laws.
Context {R C : Type} `{!CancelRegistry R} `{!CancelRegistryLaws R} `{!ChainClient C}.
Context (tx_string : N → string) (config : IndexingAgreementConfig) (now_secs : Z).
Implicit Types (s : State R C) (ag : IndexingAgreement).

(** A successful mark leaves the agreement [Cancelling] and has asked the
    chain nothing. *)
Lemma mark_cancelling_spec ag reason s a s' :
  reg_ok (st_reg s) → mark_cancelling ag reason s = (a, s') →
  st_log s' = st_log s ∧ reg_ok (st_reg s') ∧
  (a = Ok tt → reg_status (st_reg s') (ia_id ag) = Some Cancelling).
Proof.
  intros Hok. unfold mark_cancelling, registry. destruct reason.
  - pose proof (mark_cancelling_keeps (ia_id ag) (st_reg s) Hok) as Hk.
    destruct (reg_mark_cancelling (ia_id ag) (st_reg s)) as [a' r'] eqn:E.
    intros [= <- <-]. split_and!; [done..|]. intros ->. exact (mark_cancelling_ok _ _ _ Hok E).
  - pose proof (mark_abandoning_keeps (ia_id ag) (st_reg s) Hok) as Hk.
    destruct (reg_mark_abandoning (ia_id ag) (st_reg s)) as [a' r'] eqn:E.
    intros [= <- <-]. split_and!; [done..|]. intros ->. exact (mark_abandoning_ok _ _ _ Hok E).
Qed.

(** The calls a cancel makes, and what they found. *)
Inductive cancel_trace (ag : IndexingAgreement) (held : option AgreementStatus)
    : list chain_call → LiveCancel → Prop :=
| trace_no_hash :
    cancel_hash ag = None →
    cancel_trace ag held [] (LcCancelFailed (MissingTermsVersionHash (ia_id ag)))
| trace_not_sent h err :
    cancel_hash ag = Some h →
    cancel_trace ag held [CallCancel (ia_id ag) (recurring_collector config) h SCOPE_BOTH held]
      (LcCancelFailed err)
| trace_sent h tx answer :
    cancel_hash ag = Some h →
    cancel_trace ag held
      [CallCancel (ia_id ag) (recurring_collector config) h SCOPE_BOTH held;
       CallRead (ia_id ag) answer]
      (match answer with
       | Ok NotLive => LcEnded tx
       | Ok EndedByIndexer => LcNotLive true
       | Ok Live => LcCancelFailed (CancelNotConfirmed (ia_id ag))
       | Err err => LcUnconfirmed tx err
       end).

Lemma cancel_agreement_trace ag s l s' :
  cancel_agreement_on_chain config ag s = (l, s') →
  st_reg s' = st_reg s ∧
  ∃ calls, st_log s' = st_log s ++ calls ∧
    cancel_trace ag (reg_status (st_reg s) (ia_id ag)) calls l.
Proof.
  unfold cancel_agreement_on_chain. destruct (cancel_hash ag) as [h|] eqn:Hh.
  2:{ intros [= <- <-]. split; [done|]. exists []. rewrite app_nil_r. by split; [|constructor]. }
  unfold mbind, M_bind, chain_cancel, chain_read, mret, M_ret.
  destruct (cancel_via_manager _ _ _ _ _) as [[tx|err] c] eqn:Ec; simpl.
  2:{ intros [= <- <-]. split; [done|]. eexists. split; [done|]. by constructor. }
  destruct (agreement_on_chain (ia_id ag) c) as [answer c'] eqn:Er. simpl.
  intros [= <- <-]. split; [done|]. eexists. split; [by rewrite <-app_assoc|]. by constructor.
Qed.

(** What [cancel_if_live] may do: read, and cancel only what it read live. *)
Lemma cancel_if_live_trace ag s l s' :
  cancel_if_live config ag s = (l, s') →
  st_reg s' = st_reg s ∧
  ∃ answer calls, st_log s' = st_log s ++ CallRead (ia_id ag) answer :: calls ∧
    match answer with
    | Ok Live => cancel_trace ag (reg_status (st_reg s) (ia_id ag)) calls l
    | Ok ended => calls = [] ∧ l = LcNotLive (bool_decide (ended = EndedByIndexer))
    | Err err => calls = [] ∧ l = LcReadFailed err
    end.
Proof.
  unfold cancel_if_live, mbind, M_bind, chain_read.
  destruct (agreement_on_chain (ia_id ag) (st_chain s)) as [answer c] eqn:Er. simpl.
  destruct answer as [[]|err].
  - intros Hrun. apply cancel_agreement_trace in Hrun as (Hr & calls & Hl & Ht). simpl in *.
    split; [done|]. exists (Ok Live), calls. by rewrite Hl, <-app_assoc.
  - intros [= <- <-]. split; [done|]. by exists (Ok EndedByIndexer), [].
  - intros [= <- <-]. split; [done|]. by exists (Ok NotLive), [].
  - intros [= <- <-]. split; [done|]. by exists (Err err), [].
Qed.

(** Confirming an end, from [Cancelling]. *)
Lemma confirm_spec ag reason tx s b s' :
  reg_ok (st_reg s) → reg_status (st_reg s) (ia_id ag) = Some Cancelling →
  confirm_cancelled tx_string config now_secs ag reason tx s = (b, s') →
  st_log s' = st_log s ∧
  if b then reg_status (st_reg s') (ia_id ag) = Some (ended_status reason)
  else reg_status (st_reg s') (ia_id ag) ∈ [Some Cancelling; Some (ended_status reason)].
Proof.
  intros Hok Hst. unfold confirm_cancelled, mbind, M_bind.
  set (m := if is_null tx then mret tt else record_cancel tx_string config now_secs ag tx).
  assert (Hm : ∃ s1, m s = (tt, s1) ∧ st_log s1 = st_log s ∧ reg_ok (st_reg s1) ∧
    reg_status (st_reg s1) (ia_id ag) = Some Cancelling).
  { unfold m. destruct tx as [t|]; [|by exists s]. simpl.
    unfold record_cancel, mbind, M_bind, registry.
    destruct (reg_record_cancel_audit _ _ _ _ _) as [a r'] eqn:E. eexists. split; [done|]. simpl.
    pose proof (audit_keeps (ia_id ag) now_secs (recurring_agreement_manager config)
      (tx_string <$> Some t) (st_reg s) Hok) as Hk.
    pose proof (audit_status (ia_id ag) now_secs (recurring_agreement_manager config)
      (tx_string <$> Some t) (st_reg s) (ia_id ag) Hok) as Hs.
    simpl in *. rewrite E in Hk, Hs. simpl in *. by rewrite Hs. }
  destruct Hm as (s1 & -> & Hl & Hok1 & Hst1). unfold mark_ended.
  assert (Hend : ∀ a r', match reason with
      | NotWanted => reg_mark_canceled_by_requester (ia_id ag) (st_reg s1)
      | Abandoned => reg_mark_abandoned_by_indexer (ia_id ag) (st_reg s1) end = (a, r') →
    match a with
    | Ok _ => reg_status r' (ia_id ag) = Some (ended_status reason)
    | Err NoRecordsUpdated => False
    | Err _ => reg_status r' (ia_id ag) ∈ [Some Cancelling; Some (ended_status reason)]
    end).
  { intros a r' E. pose proof (end_ok reason _ _ _ _ Hok1 E) as He. rewrite Hst1 in He.
    destruct a as [u|[|]]; [done|naive_solver|]. destruct He as [->| ->]; set_solver. }
  destruct reason; unfold registry;
    match goal with |- context [?f (ia_id ag) (st_reg s1)] =>
      destruct (f (ia_id ag) (st_reg s1)) as [a r'] eqn:E end;
    specialize (Hend a r' eq_refl);
    intros [= <- <-]; (split; [done|]); destruct a as [[]|[|]]; done.
Qed.

Lemma finish_spec ag reason l s st s' :
  reg_ok (st_reg s) → reg_status (st_reg s) (ia_id ag) = Some Cancelling →
  finish_marked_cancel tx_string config now_secs ag reason l s = (st, s') →
  st_log s' = st_log s ∧
  match st with
  | StartedEnded =>
      ia_status ag = AcceptedOnChain ∧ (∃ tx, l = LcEnded tx) ∧
      reg_status (st_reg s') (ia_id ag) = Some (ended_status reason)
  | StartedNotLive =>
      reg_status (st_reg s') (ia_id ag) ∈ [Some Cancelling; Some (ended_status reason)] ∧
      ((∃ tx, l = LcEnded tx) ∨ ∃ b, l = LcNotLive b)
  | StartedMayBeLive => reg_status (st_reg s') (ia_id ag) = Some Cancelling
  end.
Proof.
  intros Hok Hst. unfold finish_marked_cancel. destruct l as [b|tx|err|tx err|err].
  - intros [= <- <-]. rewrite Hst. split; [done|]. split; [set_solver|eauto].
  - case_bool_decide as Ha.
    + intros [= <- <-]. rewrite Hst. split; [done|]. split; [set_solver|eauto].
    + unfold mbind, M_bind. destruct (confirm_cancelled _ _ _ _ _ _ s) as [b s1] eqn:E.
      apply confirm_spec in E as [Hl Hb]; [|done..].
      intros [= <- <-]. destruct b; split; try done.
      * split; [done|]. split; [eauto|done].
      * eauto.
  - by intros [= <- <-].
  - by intros [= <- <-].
  - by intros [= <- <-].
Qed.

(** The pieces of a cancel that was started. *)
Lemma start_cancel_split ag reason s st s' :
  reg_ok (st_reg s) → start_cancel tx_string config now_secs ag reason s = (Ok st, s') →
  ∃ l s2, reg_status (st_reg s2) (ia_id ag) = Some Cancelling ∧ reg_ok (st_reg s2) ∧
    st_log s' = st_log s2 ∧
    (∃ answer calls, st_log s2 = st_log s ++ CallRead (ia_id ag) answer :: calls ∧
      match answer with
      | Ok Live => cancel_trace ag (Some Cancelling) calls l
      | Ok ended => calls = [] ∧ l = LcNotLive (bool_decide (ended = EndedByIndexer))
      | Err err => calls = [] ∧ l = LcReadFailed err
      end) ∧
    finish_marked_cancel tx_string config now_secs ag reason l s2 = (st, s').
Proof.
  intros Hok. unfold start_cancel, mbind, M_bind.
  destruct (mark_cancelling ag reason s) as [a s1] eqn:Em.
  apply mark_cancelling_spec in Em as (Hl & Hok1 & Hst); [|done].
  destruct a as [[]|e]; [|discriminate]. specialize (Hst eq_refl).
  unfold send_marked_cancel, mbind, M_bind.
  destruct (cancel_if_live config ag s1) as [l s2] eqn:Ec.
  apply cancel_if_live_trace in Ec as (Hr & answer & calls & Hlog & Ht).
  destruct (finish_marked_cancel _ _ _ _ _ l s2) as [st' s3] eqn:Ef. intros [= <- <-].
  exists l, s2. rewrite Hr, Hst in *. split; [done|]. split; [done|]. split.
  - eapply finish_spec; [| |exact Ef]; by rewrite Hr.
  - split; [|done]. exists answer, calls. by rewrite Hlog, Hl.
Qed.

(** What every cancel names: the agreement, the collector, the agreement's stored
    terms hash of 32 bytes and both scopes. *)
Definition cancel_args (ag : IndexingAgreement) (id collector : N) (h : list Z) (options : Z) : Prop :=
  id = ia_id ag ∧ collector = recurring_collector config ∧ options = 3 ∧
  ia_terms_version_hash ag = Some h ∧ length h = 32%nat.

Lemma cancel_hash_stored ag h :
  cancel_hash ag = Some h → ia_terms_version_hash ag = Some h ∧ length h = 32%nat.
Proof.
  unfold cancel_hash. destruct (ia_terms_version_hash ag); [|done]. simpl.
  by case_bool_decide; intros; simplify_eq.
Qed.

Lemma cancel_trace_sends ag held calls l i id collector h options held' :
  cancel_trace ag held calls l → calls !! i = Some (CallCancel id collector h options held') →
  i = 0%nat ∧ held' = held ∧ cancel_args ag id collector h options.
Proof.
  intros [Hn|h1 err Hh|h1 tx answer Hh] Hi; [done|..];
    (destruct i as [|[|i]]; simplify_eq/=; [|done..]); (split; [done|]); (split; [done|]);
    apply cancel_hash_stored in Hh as []; by split_and!.
Qed.

Lemma cancel_if_live_sends ag s l s' :
  cancel_if_live config ag s = (l, s') →
  ∃ calls, st_log s' = st_log s ++ calls ∧
    ∀ i id collector h options held,
      calls !! i = Some (CallCancel id collector h options held) →
      i = 1%nat ∧ calls !! 0%nat = Some (CallRead (ia_id ag) (Ok Live)) ∧
      held = reg_status (st_reg s) (ia_id ag) ∧ cancel_args ag id collector h options.
Proof.
  intros Hrun. apply cancel_if_live_trace in Hrun as (_ & answer & calls & Hl & Ht).
  exists (CallRead (ia_id ag) answer :: calls). split; [done|].
  intros [|i] id collector h options held Hi; [done|]. simpl in Hi.
  destruct answer as [[]|err]; try (destruct Ht as [-> _]; done).
  destruct (cancel_trace_sends _ _ _ _ _ _ _ _ _ _ Ht Hi) as (-> & ? & ?). done.
Qed.

(** A mark that failed leaves the chain alone. *)
Lemma unmarked_is_quiet ag reason s e s1 :
  reg_ok (st_reg s) → mark_cancelling ag reason s = (Err e, s1) →
  st_log s1 = st_log s ∧ st_chain s1 = st_chain s.
Proof.
  intros Hok Em. pose proof Em as Em'. apply mark_cancelling_spec in Em as (Hl & _); [|done].
  split; [done|]. unfold mark_cancelling, registry in Em'.
  destruct reason;
    [destruct (reg_mark_cancelling (ia_id ag) (st_reg s))
    |destruct (reg_mark_abandoning (ia_id ag) (st_reg s))]; by injection Em' as _ <-.
Qed.

(** C5: the three ways the dispatch sends a cancel.  [start_cancel] first records the
    agreement as [Cancelling] and does not touch the chain when that fails; then
    it sends at most one cancel, right after a read of its own that showed the
    agreement live, while the registry holds it as [Cancelling].
    [start_cancel_seen_live], for a caller that has just read it live, records
    the agreement in the same way and sends at most one cancel without reading
    again.  [cancel_if_live], for a caller that recorded it earlier, records
    nothing and sends at most one cancel, right after a read of its own that
    showed it live.  Each cancel is for that agreement, with its stored 32-byte
    terms hash and both scopes. *)
Theorem cancels_are_marked_and_live ag reason s :
  reg_ok (st_reg s) →
  (∀ a s', start_cancel tx_string config now_secs ag reason s = (a, s') →
   match a with
   | Err _ => st_log s' = st_log s ∧ st_chain s' = st_chain s
   | Ok _ =>
       ∃ calls, st_log s' = st_log s ++ calls ∧
       ∀ i id collector h options held,
         calls !! i = Some (CallCancel id collector h options held) →
         i = 1%nat ∧ calls !! 0%nat = Some (CallRead (ia_id ag) (Ok Live)) ∧
         held = Some Cancelling ∧ cancel_args ag id collector h options
   end) ∧
  (∀ a s', start_cancel_seen_live tx_string config now_secs ag reason s = (a, s') →
   match a with
   | Err _ => st_log s' = st_log s ∧ st_chain s' = st_chain s
   | Ok _ =>
       ∃ calls, st_log s' = st_log s ++ calls ∧
       ∀ i id collector h options held,
         calls !! i = Some (CallCancel id collector h options held) →
         i = 0%nat ∧ held = Some Cancelling ∧ cancel_args ag id collector h options
   end) ∧
  (∀ l s', cancel_if_live config ag s = (l, s') →
   st_reg s' = st_reg s ∧
   ∃ calls, st_log s' = st_log s ++ calls ∧
     ∀ i id collector h options held,
       calls !! i = Some (CallCancel id collector h options held) →
       i = 1%nat ∧ calls !! 0%nat = Some (CallRead (ia_id ag) (Ok Live)) ∧
       held = reg_status (st_reg s) (ia_id ag) ∧ cancel_args ag id collector h options).
Proof.
  intros Hok. split_and!.
  - intros a s'. unfold start_cancel, mbind, M_bind.
    destruct (mark_cancelling ag reason s) as [[[]|e] s1] eqn:Em.
    2:{ intros [= <- <-]. by eapply unmarked_is_quiet. }
    apply mark_cancelling_spec in Em as (Hl & Hok1 & Hst); [|done]. specialize (Hst eq_refl).
    unfold send_marked_cancel, mbind, M_bind.
    destruct (cancel_if_live config ag s1) as [l s2] eqn:Ec.
    pose proof Ec as Ec'. apply cancel_if_live_trace in Ec' as (Hr & _).
    apply cancel_if_live_sends in Ec as (calls & Hc & Hs).
    destruct (finish_marked_cancel _ _ _ _ _ l s2) as [st s3] eqn:Ef. intros [= <- <-].
    apply finish_spec in Ef as [Hf _]; [|by rewrite Hr..].
    exists calls. split; [by rewrite Hf, Hc, Hl|]. rewrite <-Hst. exact Hs.
  - intros a s'. unfold start_cancel_seen_live, mbind, M_bind.
    destruct (mark_cancelling ag reason s) as [[[]|e] s1] eqn:Em.
    2:{ intros [= <- <-]. by eapply unmarked_is_quiet. }
    apply mark_cancelling_spec in Em as (Hl & Hok1 & Hst); [|done]. specialize (Hst eq_refl).
    destruct (cancel_agreement_on_chain config ag s1) as [l s2] eqn:Ec.
    apply cancel_agreement_trace in Ec as (Hr & calls & Hc & Ht).
    destruct (finish_marked_cancel _ _ _ _ _ l s2) as [st s3] eqn:Ef. intros [= <- <-].
    apply finish_spec in Ef as [Hf _]; [|by rewrite Hr..].
    exists calls. split; [by rewrite Hf, Hc, Hl|]. intros i id collector h options held Hi.
    rewrite Hst in Ht. by eapply cancel_trace_sends.
  - intros l s' Hrun. split; [by apply cancel_if_live_trace in Hrun as [Hr _]|].
    by eapply cancel_if_live_sends.
Qed.

(** C6: an agreement reported ended by [start_cancel] was accepted, its cancel
    went out and the chain was then read to show it ended by dipper, and the
    registry holds the status its reason ends it in; whenever the chain may
    still show it live it stays [Cancelling], so the retry finishes it. *)
Theorem start_cancel_outcome ag reason s st s' :
  reg_ok (st_reg s) → start_cancel tx_string config now_secs ag reason s = (Ok st, s') →
  match st with
  | StartedEnded =>
      ia_status ag = AcceptedOnChain ∧
      reg_status (st_reg s') (ia_id ag) = Some (ended_status reason) ∧
      ∃ before h, st_log s' = before ++
        [CallCancel (ia_id ag) (recurring_collector config) h SCOPE_BOTH (Some Cancelling);
         CallRead (ia_id ag) (Ok NotLive)]
  | StartedNotLive =>
      reg_status (st_reg s') (ia_id ag) ∈ [Some Cancelling; Some (ended_status reason)] ∧
      ∃ before answer, st_log s' = before ++ [CallRead (ia_id ag) (Ok answer)] ∧ answer ≠ Live
  | StartedMayBeLive => reg_status (st_reg s') (ia_id ag) = Some Cancelling
  end.
Proof.
  intros Hok Hrun. apply start_cancel_split in Hrun as
    (l & s2 & Hst & Hok2 & Hlog & (answer & calls & Hcalls & Ht) & Hfin); [|done].
  apply finish_spec in Hfin as [_ Hfin]; [|done..]. destruct st; [| |done].
  - destruct Hfin as (Ha & (tx & ->) & He). split; [done|]. split; [done|].
    rewrite Hlog, Hcalls. destruct answer as [[]|err]; try (destruct Ht as [_ Ht]; discriminate).
    inversion Ht as [| |h tx' answer Hh Hc Hl]. destruct answer as [[]|]; try discriminate.
    exists (st_log s ++ [CallRead (ia_id ag) (Ok Live)]), h. by rewrite <-app_assoc.
  - destruct Hfin as [Hin Hl]. split; [done|]. rewrite Hlog, Hcalls.
    destruct answer as [[]|err].
    + inversion Ht as [Hn Hc Hl'|h err Hh Hc Hl'|h tx' answer Hh Hc Hl']; subst l.
      * naive_solver.
      * naive_solver.
      * exists (st_log s ++ [CallRead (ia_id ag) (Ok Live);
          CallCancel (ia_id ag) (recurring_collector config) h SCOPE_BOTH (Some Cancelling)]).
        destruct answer as [[]|]; [naive_solver| | |naive_solver].
        -- exists EndedByIndexer. by rewrite <-app_assoc.
        -- exists NotLive. by rewrite <-app_assoc.
    + destruct Ht as [-> _]. by exists (st_log s), EndedByIndexer.
    + destruct Ht as [-> _]. by exists (st_log s), NotLive.
    + destruct Ht as [_ ->]. naive_solver.
Qed.

Lemma reopen_as_spec ag seen s r s' :
  reg_ok (st_reg s) → reopen_as ag seen s = (r, s') →
  st_log s' = st_log s ∧
  match r with
  | Ok Reopened => reg_status (st_reg s') (ia_id ag) = Some Cancelling
  | Ok Left => reg_status (st_reg s') (ia_id ag) = reg_status (st_reg s) (ia_id ag)
  | Ok (Unread _) => False
  | Err _ => True
  end.
Proof.
  intros Hok. unfold reopen_as, mbind, M_bind, registry.
  destruct (reg_reopen _ _ _) as [a0 r'] eqn:Eo. simpl.
  pose proof (reopen_status _ _ _ _ _ Hok Eo) as Hs.
  intros [= <- <-]. split; [done|]. by destruct a0 as [|[|]].
Qed.

(** An agreement dipper ended is put back to cancelling only on evidence:
    the chain was read live, or the chain could not be read and it was a
    rejected one, whose indexer may be paid; in every other case its status is
    left alone, and an unreadable cancelled one is reported unread. *)
Theorem reopen_only_on_evidence ag s a s' :
  reg_ok (st_reg s) → reopen_if_live ag s = (a, s') →
  ∃ answer, st_log s' = st_log s ++ [CallRead (ia_id ag) answer] ∧
  match a with
  | Ok Reopened =>
      reg_status (st_reg s') (ia_id ag) = Some Cancelling ∧
      (answer = Ok Live ∨ (∃ err, answer = Err err) ∧ ia_status ag = Rejected)
  | Ok Left => reg_status (st_reg s') (ia_id ag) = reg_status (st_reg s) (ia_id ag)
  | Ok (Unread err) =>
      st_reg s' = st_reg s ∧ answer = Err err ∧ ia_status ag ≠ Rejected
  | Err _ => answer = Ok Live ∨ (∃ err, answer = Err err) ∧ ia_status ag = Rejected
  end.
Proof.
  intros Hok. unfold reopen_if_live, mbind, M_bind, chain_read.
  destruct (agreement_on_chain (ia_id ag) (st_chain s)) as [answer c] eqn:Er. simpl.
  destruct answer as [[]|err].
  - intros Hrun. exists (Ok Live). apply reopen_as_spec in Hrun as [Hl Hm]; [|done].
    split; [done|]. destruct a as [[]|]; try done; auto.
  - intros [= <- <-]. by eexists.
  - intros [= <- <-]. by eexists.
  - case_bool_decide as Hrej; [intros [= <- <-]; by eexists|].
    intros Hrun. exists (Err err). apply reopen_as_spec in Hrun as [Hl Hm]; [|done].
    split; [done|]. destruct a as [[]|]; try done; eauto.
Qed.

End laws.

(** ** The registry on Postgres *)

(** The connection may be lost before a statement runs, or after it took
    effect and before its answer arrived. *)
Inductive fault : Type := Fine | LostBefore | LostAfter.

Record PgState : Type := mkPg { pg_db : Db; pg_now : Z; pg_faults : list fault }.

Definition pg_call {A} (m : Z → DbM A) (s : PgState) : result Error A * PgState :=
  let '(r, d) := m (pg_now s) (pg_db s) in
  match pg_faults s with
  | LostBefore :: fs => (Err (DbError ConnectionLost), mkPg (pg_db s) (pg_now s) fs)
  | LostAfter :: fs => (Err (DbError ConnectionLost), mkPg d (pg_now s) fs)
  | Fine :: fs => (r, mkPg d (pg_now s) fs)
  | [] => (r, mkPg d (pg_now s) [])
  end.

Definition db_status (d : Db) (id : N) : option AgreementStatus :=
  ag_status <$> agreements d !! id.

#[export] Instance PgCancelRegistry : CancelRegistry PgState := {|
  reg_ok s := reg_inv (pg_db s);
  reg_status s id := db_status (pg_db s) id;
  reg_mark_cancelling id := pg_call (λ now, mark_indexing_agreement_as_cancelling now id);
  reg_mark_abandoning id := pg_call (λ now, mark_indexing_agreement_as_abandoning now id);
  reg_mark_canceled_by_requester id :=
    pg_call (λ now, mark_indexing_agreement_as_canceled_by_requester now id);
  reg_mark_abandoned_by_indexer id :=
    pg_call (λ now, mark_indexing_agreement_as_abandoned_by_indexer now id);
  reg_record_cancel_audit id at_ by_ tx :=
    pg_call (λ _, void (record_cancel_audit id at_ by_ tx));
  reg_reopen id seen := pg_call (λ now, void (reopen_indexing_agreement_cancel now id seen)) |}.

(** A call is the statement with its answer, or a lost connection that left
    the database as it was or as the statement left it. *)
Lemma pg_call_cases {A} (m : Z → DbM A) s a s' :
  pg_call m s = (a, s') →
  (m (pg_now s) (pg_db s) = (a, pg_db s')) ∨
  (a = Err (DbError ConnectionLost) ∧
   (pg_db s' = pg_db s ∨ pg_db s' = (m (pg_now s) (pg_db s)).2)).
Proof.
  unfold pg_call. destruct (m (pg_now s) (pg_db s)) as [r d].
  destruct (pg_faults s) as [|[] fs]; intros [= <- <-]; simpl; auto.
Qed.

Lemma pg_call_inv {A} (m : Z → DbM A) s :
  (∀ now d0, preserves (inv_from d0) (m now)) → reg_inv (pg_db s) →
  reg_inv (pg_db (pg_call m s).2).
Proof.
  intros Hm Hs. destruct (pg_call m s) as [a s'] eqn:E. simpl.
  pose proof (Hm (pg_now s) (pg_db s) (pg_db s) (conj Hs (db_evolves_refl _))) as [Hk _].
  destruct (pg_call_cases m s a s' E) as [Hc|[_ [->| ->]]]; [|done..].
  by rewrite Hc in Hk.
Qed.

(** Guarded updates of one row that make it inactive. *)
Definition guarded (id : N) (allowed : list AgreementStatus) (f : AgreementRow → AgreementRow)
    (d : Db) : result Error () * Db :=
  match agreements d !! id with
  | Some r => if status_in allowed r
              then (Ok tt, set_agreements (<[id := f r]> (agreements d)) d)
              else (Err NoRecordsUpdated, d)
  | None => (Err NoRecordsUpdated, d)
  end.

Lemma guarded_status id allowed f s d a d' :
  (∀ r, ag_status (f r) = s) → guarded id allowed f d = (a, d') →
  match a with
  | Ok _ => db_status d' id = Some s
  | Err e => e = NoRecordsUpdated ∧ d' = d ∧
             ∀ st, db_status d id = Some st → st ∉ allowed
  end.
Proof.
  intros Hf. unfold guarded, db_status. destruct (agreements d !! id) as [r|] eqn:Hr.
  - destruct (status_in allowed r) eqn:Hs; intros [= <- <-]; simpl.
    + rewrite lookup_insert_eq. simpl. by rewrite Hf.
    + split; [done|]. split; [done|]. rewrite ?Hr. intros st [= <-].
      unfold status_in in Hs. by apply bool_decide_eq_false in Hs.
  - intros [= <- <-]. split; [done|]. split; [done|]. by rewrite ?Hr.
Qed.

Lemma guarded_update_run id allowed f d :
  reg_inv d → (∀ r, quiet r (f r)) →
  (_ ← require_row (update_one id (status_in allowed) f); mret tt) d = guarded id allowed f d.
Proof.
  intros Hd Hq. unfold require_row, guarded.
  rewrite !bind_run, update_one_quiet by (apply Hd || auto).
  destruct (agreements d !! id) as [r|]; [|done]. by destruct (status_in allowed r).
Qed.

Lemma abandoning_run now id d :
  reg_inv d →
  mark_indexing_agreement_as_abandoning now id d =
  guarded id [AcceptedOnChain]
    (λ r, set_replacement_pending true (set_abandoned true (touch now Cancelling r))) d.
Proof. intros Hd. by apply guarded_update_run. Qed.

Lemma unresponsive_run now id d :
  reg_inv d →
  mark_indexing_agreement_as_unresponsive now id d = guarded id [Created] (touch now Unresponsive) d.
Proof. intros Hd. by apply guarded_update_run. Qed.

Lemma expired_run now id d :
  reg_inv d →
  mark_indexing_agreement_as_expired now id d = guarded id [Created] (touch now Expired) d.
Proof. intros Hd. by apply guarded_update_run. Qed.

Lemma rejected_run now id reason d :
  reg_inv d →
  mark_indexing_agreement_as_rejected now id reason d =
  guarded id [Created] (λ r, set_rejection_reason reason (touch now Rejected r)) d.
Proof. intros Hd. by apply guarded_update_run. Qed.

Lemma reopen_run now id seen d :
  reg_inv d →
  void (reopen_indexing_agreement_cancel now id seen) d =
  guarded id [CanceledByRequester; Rejected] (reopen_row now seen) d.
Proof.
  intros Hd. unfold reopen_indexing_agreement_cancel, void, require_row, update_end, guarded.
  rewrite !bind_run. simpl. rewrite bind_run.
  rewrite update_one_quiet by (apply Hd || (intros; unfold reopen_row; by destruct seen)).
  destruct (agreements d !! id) as [r|] eqn:Hr; [|done].
  by destruct (status_in [CanceledByRequester; Rejected] r).
Qed.

Lemma audit_db_status id at_ by_ tx d k :
  reg_inv d → db_status (void (record_cancel_audit id at_ by_ tx) d).2 k = db_status d k.
Proof.
  intros Hd. unfold void. rewrite bind_run, record_cancel_audit_run by apply Hd.
  destruct (agreements d !! id) as [r|] eqn:Hr; [|done]. simpl. unfold db_status. simpl.
  destruct (decide (k = id)) as [->|Hne]; [|by rewrite lookup_insert_ne].
  rewrite lookup_insert_eq, Hr. simpl. unfold with_end. by case_match.
Qed.

(** The statement that ends an agreement, for either reason. *)
Definition end_mark (reason : CancelReason) (id : N) (now : Z) : DbM () :=
  match reason with
  | NotWanted => mark_indexing_agreement_as_canceled_by_requester now id
  | Abandoned => mark_indexing_agreement_as_abandoned_by_indexer now id
  end.

Lemma end_mark_run reason id :
  ∃ allowed, Cancelling ∈ allowed ∧ ∀ now d, reg_inv d →
    end_mark reason id now d = guarded id allowed (touch now (ended_status reason)) d.
Proof.
  destruct reason.
  - exists CANCEL_BY_REQUESTER_FROM. split; [set_solver|]. intros now d Hd.
    unfold guarded, end_mark, mark_indexing_agreement_as_canceled_by_requester.
    by rewrite set_status_from_run by (done || set_solver).
  - exists [Cancelling]. split; [set_solver|]. intros now d Hd.
    unfold guarded, end_mark, mark_indexing_agreement_as_abandoned_by_indexer.
    by rewrite set_status_from_run by (done || set_solver).
Qed.

Lemma end_mark_law reason id r a r' :
  reg_inv (pg_db r) → pg_call (end_mark reason id) r = (a, r') →
  match a with
  | Ok _ => db_status (pg_db r') id = Some (ended_status reason)
  | Err NoRecordsUpdated =>
      db_status (pg_db r') id = db_status (pg_db r) id ∧
      db_status (pg_db r) id ≠ Some Cancelling
  | Err _ => db_status (pg_db r') id = db_status (pg_db r) id ∨
             db_status (pg_db r') id = Some (ended_status reason)
  end.
Proof.
  intros Hok E. destruct (end_mark_run reason id) as (allowed & Hall & Hg).
  apply pg_call_cases in E as [Hc|[-> [->|Hc]]].
  - rewrite Hg in Hc by done. apply (guarded_status id _ _ (ended_status reason)) in Hc; [|done].
    destruct a as [u|e]; [done|]. destruct Hc as (-> & -> & Hn). split; [done|].
    intros Hst. by apply (Hn _ Hst).
  - by left.
  - rewrite Hg in Hc by done.
    destruct (guarded id allowed (touch (pg_now r) (ended_status reason)) (pg_db r)) as [a d] eqn:Eg.
    apply (guarded_status id _ _ (ended_status reason)) in Eg; [|done]. simpl in Hc. subst d.
    destruct a as [u|e]; [by right|]. destruct Eg as (_ & -> & _). by left.
Qed.

#[export] Instance PgCancelRegistryLaws : CancelRegistryLaws PgState.
Proof.
  split; simpl.
  - intros id r r' Hok E. apply pg_call_cases in E as [E|[? _]]; [|done].
    unfold mark_indexing_agreement_as_cancelling in E.
    rewrite set_status_from_run in E by (done || set_solver).
    by apply (guarded_status id _ _ Cancelling) in E.
  - intros id r r' Hok E. apply pg_call_cases in E as [E|[? _]]; [|done].
    rewrite abandoning_run in E by done. by apply (guarded_status id _ _ Cancelling) in E.
  - intros reason id r a r' Hok E. apply end_mark_law; [done|]. by destruct reason.
  - intros id at_ by_ tx r k Hok.
    destruct (pg_call _ r) as [a r'] eqn:E. simpl.
    pose proof (audit_db_status id at_ by_ tx (pg_db r) k Hok) as Hs.
    apply pg_call_cases in E as [Hc|[_ [->| ->]]]; [|done|done]. by rewrite Hc in Hs.
  - intros id seen r a r' Hok E.
    apply pg_call_cases in E as [Hc|[-> [->|Hc]]]; [| by left|]; rewrite reopen_run in Hc by done.
    + apply (guarded_status id _ _ Cancelling) in Hc; [|intros; unfold reopen_row; by destruct seen].
      destruct a as [u|e]; [done|]. by destruct Hc as (-> & -> & _).
    + destruct (guarded _ _ _ _) as [a d] eqn:Eg.
      apply (guarded_status id _ _ Cancelling) in Eg; [|intros; unfold reopen_row; by destruct seen].
      simpl in Hc. subst d. destruct a as [u|e]; [by right|]. destruct Eg as (_ & -> & _). by left.
  - intros id r. apply pg_call_inv. intros now d0. apply set_status_inv.
  - intros id r. apply pg_call_inv. intros now d0. apply mark_inv.
  - intros id r. apply pg_call_inv. intros now d0. apply set_status_inv.
  - intros id r. apply pg_call_inv. intros now d0. apply set_status_inv.
  - intros id at_ by_ tx r. apply pg_call_inv. intros now d0. apply void_inv, audits_inv.
  - intros id seen r. apply pg_call_inv. intros now d0. apply void_inv, reopen_inv.
Qed.

(** ** Worked runs *)

(** A chain that answers from a script, and has nothing left to say as an
    error. *)
Record Script : Type := mkScript {
  sc_reads : list (result ChainClientError AgreementOnChain);
  sc_cancels : list (result ChainClientError (option N)) }.

#[export] Instance ScriptedChain : ChainClient Script := {|
  agreement_on_chain id c :=
    match sc_reads c with
    | [] => (Err RpcError, c)
    | a :: rest => (a, mkScript rest (sc_cancels c))
    end;
  cancel_via_manager collector id hash options c :=
    match sc_cancels c with
    | [] => (Err SubmitFailed, c)
    | a :: rest => (a, mkScript (sc_reads c) rest)
    end |}.

Definition demo_hashed : Db :=
  run_ops [SetTarget 10 1 5 7 42161 2;
    Register 20 (mkParams 11 111 1 7 31 "http://indexer" demo_terms (Some (replicate 32 7)));
    Reconcile 30 11 true None] empty_db.

Definition demo_agreement : IndexingAgreement :=
  mkIndexingAgreement 11 111 20 30 AcceptedOnChain 1 (mkIndexer 31 "http://indexer") demo_terms
    None None None (Some (replicate 32 7)).

Definition demo_config : IndexingAgreementConfig := mkConfig 77 "manager".

Definition demo_state (reads : list (result ChainClientError AgreementOnChain)) (fs : list fault)
    : State PgState Script :=
  mkState (mkPg demo_hashed 100 fs) (mkScript reads [Ok (Some 99%N)]) [].

Lemma demo_hashed_inv : reg_inv demo_hashed.
Proof. apply reachable_reg_inv, run_ops_steps. by repeat constructor. Qed.

Definition demo_start_cancel (reads : list (result ChainClientError AgreementOnChain))
    (fs : list fault) : result Error CancelStarted * State PgState Script :=
  start_cancel (λ _, "0x63"%string) demo_config 500 demo_agreement NotWanted (demo_state reads fs).

Lemma cancels_are_marked_and_live_witness :
  (∃ s', demo_start_cancel [Ok Live; Ok NotLive] [LostBefore] =
      (Err (DbError ConnectionLost), s') ∧ st_log s' = []) ∧
  ∃ s', demo_start_cancel [Ok Live; Ok NotLive] [] = (Ok StartedEnded, s') ∧
    ∃ calls, st_log s' = calls ∧
      calls !! 1%nat = Some (CallCancel 11 77 (replicate 32 7) 3 (Some Cancelling)) ∧
      calls !! 0%nat = Some (CallRead 11 (Ok Live)).
Proof.
  split.
  - destruct (demo_start_cancel [Ok Live; Ok NotLive] [LostBefore]) as [[st|e] s'] eqn:E;
      [vm_compute in E; discriminate|].
    pose proof (proj1 (cancels_are_marked_and_live (λ _, "0x63"%string) demo_config 500 demo_agreement
      NotWanted (demo_state [Ok Live; Ok NotLive] [LostBefore]) demo_hashed_inv) (Err e) s' E)
      as [Hl _].
    assert (He : e = DbError ConnectionLost) by (vm_compute in E; injection E as <- _; reflexivity).
    exists s'. split; [by rewrite He|exact Hl].
  - destruct (demo_start_cancel [Ok Live; Ok NotLive] []) as [[st|e] s'] eqn:E;
      [|vm_compute in E; discriminate].
    pose proof (proj1 (cancels_are_marked_and_live (λ _, "0x63"%string) demo_config 500 demo_agreement
      NotWanted (demo_state [Ok Live; Ok NotLive] []) demo_hashed_inv) (Ok st) s' E)
      as (calls & Hl & Hc).
    assert (Hs : st = StartedEnded ∧
      st_log s' !! 1%nat = Some (CallCancel 11 77 (replicate 32 7) 3 (Some Cancelling))).
    { vm_compute in E. injection E as <- <-. split; reflexivity. }
    destruct Hs as [-> Hs]. exists s'. split; [reflexivity|]. exists calls. split; [exact Hl|].
    rewrite Hl in Hs. simpl in Hs. split; [exact Hs|]. by apply Hc in Hs as (_ & ? & _).
Defined.

Lemma start_cancel_outcome_witness :
  ∃ s', demo_start_cancel [Ok Live; Ok NotLive] [] = (Ok StartedEnded, s') ∧
    reg_status (st_reg s') 11%N = Some CanceledByRequester.
Proof.
  destruct (demo_start_cancel [Ok Live; Ok NotLive] []) as [[st|e] s'] eqn:E;
    [|vm_compute in E; discriminate].
  assert (Hs : st = StartedEnded) by (vm_compute in E; injection E as <- _; reflexivity).
  subst st.
  pose proof (start_cancel_outcome (λ _, "0x63"%string) demo_config 500 demo_agreement
    NotWanted (demo_state [Ok Live; Ok NotLive] []) StartedEnded s' demo_hashed_inv E)
    as (_ & H & _).
  exists s'. split; [reflexivity|exact H].
Defined.

Definition demo_rejected : IndexingAgreement :=
  mkIndexingAgreement 12 112 20 40 Rejected 1 (mkIndexer 32 "http://indexer") demo_terms
    None None None None.
Definition demo_rejected_db : Db :=
  run_ops [SetTarget 10 1 5 7 42161 2; Register 21 (demo_params 12 32);
           MarkRejected 40 12 (Some PRICE_TOO_LOW)] empty_db.

Lemma reopen_only_on_evidence_witness :
  ∃ s', reopen_if_live demo_rejected
          (mkState (mkPg demo_rejected_db 100 []) (mkScript [Err RpcError] []) []) =
        (Ok Reopened, s') ∧
    reg_status (st_reg s') 12%N = Some Cancelling.
Proof.
  destruct (reopen_if_live demo_rejected
    (mkState (mkPg demo_rejected_db 100 []) (mkScript [Err RpcError] []) [])) as [a s'] eqn:E.
  assert (Ha : a = Ok Reopened) by (vm_compute in E; injection E as <- _; reflexivity).
  subst a.
  destruct (reopen_only_on_evidence demo_rejected
    (mkState (mkPg demo_rejected_db 100 []) (mkScript [Err RpcError] []) []) (Ok Reopened) s')
    as (answer & _ & H & _).
  - apply reachable_reg_inv, run_ops_steps. by repeat constructor.
  - exact E.
  - exists s'. split; [reflexivity|exact H].
Defined.

End CancelDispatchProps.
