(* ===== verification/ChainEvents.v ===== *)
(** * The subgraph event source (bin/dipper-service/src/network/service/chain_events.rs)

    What dipper does with the subgraph's answers: how a failed query is
    classified and retried, how an entity is parsed, and how far a page lets
    the cursor advance.  The HTTP exchange and the parser of an address (a
    library's) are parameters; strings are their UTF-8 bytes. *)

From S2P Require Import Prelude Ids.
Import Ids.
Local Open Scope Z_scope.

Module ChainEvents.

(** ** Data *)

Inductive AgreementState : Type :=
| NotAccepted
| Accepted
| CanceledByServiceProvider
| CanceledByPayer.

#[export] Instance AgreementState_eq_dec : EqDecision AgreementState.
Proof. solve_decision. Defined.

Definition is_canceled (s : AgreementState) : bool :=
  match s with CanceledByServiceProvider | CanceledByPayer => true | _ => false end.

Definition reached_accepted (s : AgreementState) : bool :=
  match s with NotAccepted => false | _ => true end.

Record Cursor : Type := mkCursor { cu_block : Z; cu_id : option N }.

#[export] Instance Cursor_eq_dec : EqDecision Cursor.
Proof. solve_decision. Defined.

Definition genesis : Cursor := mkCursor 0 None.
Definition at_block (block : Z) : Cursor := mkCursor block None.

(** The derived order: the block, then the id, [None] before any. *)
Definition cursor_key (c : Cursor) : list Z := cu_block c :: nulls_first (Z.of_N <$> cu_id c).
Definition cursor_le (a b : Cursor) : Prop := key_le cursor_key a b.
Definition cursor_lt (a b : Cursor) : Prop := ~ cursor_le b a.

#[export] Instance cursor_le_dec : RelDecision cursor_le.
Proof. intros a b. unfold cursor_le. apply _. Defined.
#[export] Instance cursor_lt_dec : RelDecision cursor_lt.
Proof. intros a b. unfold cursor_lt. apply _. Defined.

Record AgreementStateSnapshot : Type := mkSnapshot {
  sn_agreement_id : N;
  sn_indexer : N;
  sn_state : AgreementState;
  sn_canceled_by : N;
  sn_last_state_change_block : Z;
  sn_accepted_at : Z;
  sn_accepted_tx : string;
  sn_canceled_at : Z;
  sn_canceled_tx : string }.

(** [Cursor { block: s.last_state_change_block, id: Some(s.agreement_id) }] *)
Definition snapshot_cursor (s : AgreementStateSnapshot) : Cursor :=
  mkCursor (sn_last_state_change_block s) (Some (sn_agreement_id s)).

(** The messages only reach the log. *)
Inductive ChainEventError : Type := Transient | Permanent | RateLimited.

Definition is_transient (e : ChainEventError) : bool :=
  match e with Transient => true | _ => false end.

Record ChangedAgreementsResult : Type := mkPage {
  pg_snapshots : list AgreementStateSnapshot;
  pg_latest_block : Z;
  pg_latest_block_timestamp : option Z;
  pg_cursor : Cursor }.

(** ** The GraphQL response *)

Record IndexingAgreementEntity : Type := mkEntity {
  en_id : string;
  en_indexer : string;
  en_state : string;
  en_canceled_by : string;
  en_last_state_change_block : string;
  en_accepted_at : string;
  en_accepted_at_tx : string;
  en_canceled_at : string;
  en_canceled_at_tx : string }.

#[export] Instance IndexingAgreementEntity_eq_dec : EqDecision IndexingAgreementEntity.
Proof. solve_decision. Defined.

Record ChangedAgreementsResponse : Type := mkResponse {
  rs_indexing_agreements : list IndexingAgreementEntity;
  rs_block_number : Z;
  rs_block_timestamp : option Z }.

Record SubgraphEventSourceConfig : Type := mkSourceConfig {
  sc_max_retries : nat;
  sc_wall_clock_skew_tolerance_secs : Z;
  sc_bypass_chain_clock_defenses : bool }.

Definition SUBGRAPH_PAGE_SIZE : nat := 1000.

Fixpoint utf8 (s : string) : list Z :=
  match s with
  | EmptyString => []
  | String c rest => Z.of_N (Ascii.N_of_ascii c) :: utf8 rest
  end.

(** ** One query *)

(** What an HTTP exchange came to: no response, or a status with a body that
    did or did not parse as [{data, errors}]. *)
Inductive http_outcome (T : Type) : Type :=
| NoResponse (timeout_or_connect : bool)
| Responded (status : Z) (body : option (option T * option (list string))).
Arguments NoResponse {T}.
Arguments Responded {T}.

Definition contains (hay needle : string) : bool :=
  match String.index 0 needle hay with Some _ => true | None => false end.

Definition execute_query {T} (o : http_outcome T) : result ChainEventError T :=
  match o with
  | NoResponse timeout_or_connect => Err (if timeout_or_connect then Transient else Permanent)
  | Responded status body =>
      if status =? 429 then Err RateLimited
      else if (500 <=? status) && (status <=? 599) then Err Transient
      else if negb ((200 <=? status) && (status <=? 299)) then Err Permanent
      else match body with
           | None => Err Permanent
           | Some (_, Some messages) =>
               Err (if existsb (λ m, contains m "rate limit") messages then RateLimited
                    else if existsb (λ m, contains m "timeout"
                                          || contains m "temporarily unavailable") messages
                    then Transient else Permanent)
           | Some (data, None) =>
               match data with Some d => Ok d | None => Err Permanent end
           end
  end.

(** [for attempt in 0..=max_retries]; [answers] are the outcomes of the
    attempts in turn.  Also returns the number of attempts made. *)
Fixpoint query_loop {T} (answers : nat → http_outcome T) (attempt todo : nat)
    (last_error : option ChainEventError) : result ChainEventError T * nat :=
  match todo with
  | O => (Err (default Permanent last_error), attempt)
  | S todo' =>
      match execute_query (answers attempt) with
      | Ok r => (Ok r, S attempt)
      | Err e => if is_transient e then query_loop answers (S attempt) todo' (Some e)
                 else (Err e, S attempt)
      end
  end.

Definition query_with_retry {T} (config : SubgraphEventSourceConfig)
    (answers : nat → http_outcome T) : result ChainEventError T * nat :=
  query_loop answers 0 (S (sc_max_retries config)) None.

(** ** Parsing an entity *)

(** [str::parse::<u64>]: an optional [+], then one or more digits, in range. *)
Fixpoint parse_digits (acc : Z) (cs : list Z) : option Z :=
  match cs with
  | [] => Some acc
  | c :: rest =>
      if (48 <=? c) && (c <=? 57) then
        let acc' := acc * 10 + (c - 48) in
        if acc' <=? u64_max then parse_digits acc' rest else None
      else None
  end.

Definition parse_u64 (s : string) : option Z :=
  match utf8 s with
  | [] => None
  | 43 :: rest => if bool_decide (rest = []) then None else parse_digits 0 rest
  | cs => parse_digits 0 cs
  end.

Definition parse_bigint_timestamp (raw : string) : Z := default 0 (parse_u64 raw).

Definition parse_state (s : string) : option AgreementState :=
  if String.eqb s "NotAccepted" then Some NotAccepted
  else if String.eqb s "Accepted" then Some Accepted
  else if String.eqb s "CanceledByServiceProvider" then Some CanceledByServiceProvider
  else if String.eqb s "CanceledByPayer" then Some CanceledByPayer
  else None.

(** [entity.id.parse::<IndexingAgreementId>().ok()] *)
Definition parse_id (s : string) : option N :=
  match id_from_str (utf8 s) with Ok bytes => Some (Z.to_N (id_key bytes)) | Err _ => None end.

Definition validate_pair (prev cur : AgreementStateSnapshot) : bool :=
  bool_decide (cursor_lt (snapshot_cursor prev) (snapshot_cursor cur)).

(** [snapshots.windows(2)] *)
Fixpoint validate_sorted_keyset (snapshots : list AgreementStateSnapshot) : bool :=
  match snapshots with
  | prev :: (cur :: _) as rest => validate_pair prev cur && validate_sorted_keyset rest
  | _ => true
  end.

Definition check_pinned_block (pinned_block : option Z) (response_block : Z) : bool :=
  match pinned_block with Some pinned => pinned =? response_block | None => true end.

Definition check_subgraph_skew (ts now tolerance_secs : Z) : bool :=
  ts <=? sat_add_u64 now tolerance_secs.

Definition maybe_check_subgraph_skew (ts now tolerance_secs : Z) (bypass : bool) : bool :=
  bypass || check_subgraph_skew ts now tolerance_secs.

Section source.
(** [Address::from_str], of a library, and its zero. *)
Context (parse_address : string → option N).

Definition ZERO_ADDRESS : N := 0.

Definition parse_address_or_zero (s : string) : option N :=
  if (length (strip_0x (utf8 s)) <? 40)%nat then Some ZERO_ADDRESS else parse_address s.

Definition parse_snapshot (e : IndexingAgreementEntity) : option AgreementStateSnapshot :=
  agreement_id ← parse_id (en_id e);
  indexer ← parse_address (en_indexer e);
  state ← parse_state (en_state e);
  canceled_by ← parse_address_or_zero (en_canceled_by e);
  block ← parse_u64 (en_last_state_change_block e);
  Some (mkSnapshot agreement_id indexer state canceled_by block
          (parse_bigint_timestamp (en_accepted_at e)) (en_accepted_at_tx e)
          (parse_bigint_timestamp (en_canceled_at e)) (en_canceled_at_tx e)).

Definition parse_failure_cursor (e : IndexingAgreementEntity) : option Cursor :=
  block ← parse_u64 (en_last_state_change_block e);
  Some (mkCursor block (parse_id (en_id e))).

Definition cursor_min (a b : Cursor) : Cursor := if decide (cursor_le a b) then a else b.

(** The loop over the entities: the snapshots, the earliest failure with a
    position, and the number without one. *)
Fixpoint collect (entities : list IndexingAgreementEntity)
    (snapshots : list AgreementStateSnapshot) (earliest_failure : option Cursor)
    (unlocatable : nat) : list AgreementStateSnapshot * option Cursor * nat :=
  match entities with
  | [] => (snapshots, earliest_failure, unlocatable)
  | e :: rest =>
      match parse_snapshot e with
      | Some s => collect rest (snapshots ++ [s]) earliest_failure unlocatable
      | None =>
          match parse_failure_cursor e with
          | Some failed =>
              collect rest snapshots
                (Some (match earliest_failure with
                       | Some existing => cursor_min existing failed
                       | None => failed
                       end)) unlocatable
          | None => collect rest snapshots earliest_failure (S unlocatable)
          end
      end
  end.

Definition last_cursor (since : Cursor) (snapshots : list AgreementStateSnapshot) : Cursor :=
  from_option snapshot_cursor since (last snapshots).

(** The snapshots kept and the cursor to advance to. *)
Definition settle_page (since : Cursor) (latest_block : Z) (received : nat)
    (snapshots : list AgreementStateSnapshot) (earliest_failure : option Cursor)
    (unlocatable : nat) : list AgreementStateSnapshot * Cursor :=
  if (0 <? unlocatable)%nat then (snapshots, since)
  else match earliest_failure with
       | Some failed =>
           let kept := filter (λ s, cursor_lt (snapshot_cursor s) failed) snapshots in
           (kept, last_cursor since kept)
       | None =>
           if (SUBGRAPH_PAGE_SIZE <=? received)%nat
           then (snapshots, last_cursor since snapshots)
           else (snapshots, at_block (sat_add_u64 latest_block 1))
       end.

(** [get_changed_agreements] once the query has been answered. *)
Definition read_page (config : SubgraphEventSourceConfig) (now : Z) (since : Cursor)
    (pinned_block : option Z) (response : ChangedAgreementsResponse)
    : result ChainEventError ChangedAgreementsResult :=
  if negb (check_pinned_block pinned_block (rs_block_number response)) then Err Transient
  else if negb (from_option (λ ts, maybe_check_subgraph_skew ts now
                  (sc_wall_clock_skew_tolerance_secs config)
                  (sc_bypass_chain_clock_defenses config)) true (rs_block_timestamp response))
  then Err Transient
  else
    let '(snapshots, earliest_failure, unlocatable) :=
      collect (rs_indexing_agreements response) [] None 0 in
    if negb (validate_sorted_keyset snapshots) then Err Transient
    else
      let '(kept, cursor) :=
        settle_page since (rs_block_number response)
          (length (rs_indexing_agreements response)) snapshots earliest_failure unlocatable in
      Ok (mkPage kept (rs_block_number response) (rs_block_timestamp response) cursor).

Definition get_changed_agreements (config : SubgraphEventSourceConfig) (now : Z)
    (answers : nat → http_outcome ChangedAgreementsResponse) (since : Cursor)
    (pinned_block : option Z) : result ChainEventError ChangedAgreementsResult :=
  match (query_with_retry config answers).1 with
  | Err e => Err e
  | Ok response => read_page config now since pinned_block response
  end.

End source.

End ChainEvents.
