(* ===== verification/ChainEventsProps.v ===== *)
(** * What a page of the subgraph guarantees

    The cursor's order, how a query is retried, and that a page never lets
    the cursor pass a change it did not deliver. *)

From S2P Require Import Prelude Ids ChainEvents.
Import Ids ChainEvents.
Local Open Scope Z_scope.

Module ChainEventsProps.

(** ** The order of cursors *)

#[export] Instance cursor_le_refl : Reflexive cursor_le.
Proof. intros c. apply lex_leb_refl. Qed.
#[export] Instance cursor_le_trans : Transitive cursor_le.
Proof. intros a b c. apply lex_leb_trans. Qed.

Lemma cursor_le_total a b : cursor_le a b ∨ cursor_le b a.
Proof. apply lex_leb_total. Qed.

Lemma cursor_lt_le a b : cursor_lt a b → cursor_le a b.
Proof. intros H. by destruct (cursor_le_total a b). Qed.

Lemma cursor_lt_le_trans a b c : cursor_lt a b → cursor_le b c → cursor_lt a c.
Proof. intros Hab Hbc Hca. apply Hab. by trans c. Qed.

Lemma cursor_le_lt_trans a b c : cursor_le a b → cursor_lt b c → cursor_lt a c.
Proof. intros Hab Hbc Hca. apply Hbc. by trans a. Qed.

#[export] Instance cursor_lt_trans : Transitive cursor_lt.
Proof. intros a b c Hab Hbc. eapply cursor_lt_le_trans; [done|by apply cursor_lt_le]. Qed.

Lemma cursor_lt_irrefl a : ~ cursor_lt a a.
Proof. intros H. by apply H. Qed.

(** The order compares blocks first, then ids with none before any. *)
Lemma cursor_le_spec a b :
  cursor_le a b ↔ cu_block a < cu_block b ∨ cu_block a = cu_block b ∧
    match cu_id a, cu_id b with
    | None, _ => True
    | Some _, None => False
    | Some x, Some y => (x ≤ y)%N
    end.
Proof.
  unfold cursor_le, key_le, cursor_key. destruct a as [ab [ai|]], b as [bb [bi|]]; simpl;
    rewrite Is_true_true, ?orb_true_iff, ?andb_true_iff, ?Z.ltb_lt, ?Z.eqb_eq; simpl;
    rewrite ?orb_true_iff, ?andb_true_iff, ?Z.ltb_lt, ?Z.eqb_eq; simpl; intuition lia.
Qed.

Lemma cursor_min_le a b : cursor_le (cursor_min a b) a ∧ cursor_le (cursor_min a b) b.
Proof.
  unfold cursor_min. destruct (decide (cursor_le a b)) as [H|H]; [by split|].
  split; [by apply cursor_lt_le|done].
Qed.

(** ** Retrying a query *)

(** A query is retried only after a transient error and at most
    [max_retries] times: its answer is the first that is not transient, or the
    last one when every attempt was transient, and a rate limit is reported at
    once. *)
Theorem query_retry_spec {T} config (answers : nat → http_outcome T) :
  let '(r, made) := query_with_retry config answers in
  (1 ≤ made ≤ S (sc_max_retries config))%nat ∧
  r = execute_query (answers (made - 1)%nat) ∧
  (∀ i, (i < made - 1)%nat → execute_query (answers i) = Err Transient) ∧
  (r = Err Transient → made = S (sc_max_retries config)).
Proof.
  unfold query_with_retry.
  assert (H : ∀ todo attempt last,
    (∀ i, (i < attempt)%nat → execute_query (answers i) = Err Transient) →
    (todo = O → attempt ≠ O ∧ last = Some Transient) →
    let '(r, made) := query_loop answers attempt todo last in
    (1 ≤ made ≤ attempt + todo)%nat ∧ r = execute_query (answers (made - 1)%nat) ∧
    (∀ i, (i < made - 1)%nat → execute_query (answers i) = Err Transient) ∧
    (r = Err Transient → made = attempt + todo)%nat).
  { induction todo as [|todo IH]; intros attempt last Hb Hz; simpl.
    - destruct (Hz eq_refl) as [Hne ->]. simpl. split_and!; [lia|lia| | |lia].
      + rewrite Hb; [done|lia].
      + intros i Hi. apply Hb. lia.
    - destruct (execute_query (answers attempt)) as [v|e] eqn:E.
      + cbv beta iota. replace (S attempt - 1)%nat with attempt by lia. rewrite E. split_and!; [lia|lia|done| |done].
        intros i Hi. apply Hb. lia.
      + destruct e; cbn [is_transient].
        * specialize (IH (S attempt) (Some Transient)).
          replace (attempt + S todo)%nat with (S attempt + todo)%nat by lia.
          apply IH; [|by intros _].
          intros i Hi. destruct (decide (i = attempt)) as [->|]; [done|]. apply Hb. lia.
        * cbv beta iota. replace (S attempt - 1)%nat with attempt by lia. rewrite E. split_and!; [lia|lia|done| |done].
          intros i Hi. apply Hb. lia.
        * cbv beta iota. replace (S attempt - 1)%nat with attempt by lia. rewrite E. split_and!; [lia|lia|done| |done].
          intros i Hi. apply Hb. lia. }
  apply H; [lia|done].
Qed.

(** ** Reading a page *)

Section page.
Context (parse_address : string → option N).
Implicit Types (e : IndexingAgreementEntity) (s : AgreementStateSnapshot).

(** What the loop over the entities accumulates. *)
Lemma collect_spec es ss ef u ss' ef' u' :
  collect parse_address es ss ef u = (ss', ef', u') →
  ss' = ss ++ omap (parse_snapshot parse_address) es ∧ (u ≤ u')%nat ∧
  (∀ f, ef = Some f → ∃ f', ef' = Some f' ∧ cursor_le f' f) ∧
  (u' = u → ∀ e, e ∈ es → parse_snapshot parse_address e = None →
     ∃ p f', parse_failure_cursor e = Some p ∧ ef' = Some f' ∧ cursor_le f' p).
Proof.
  revert ss ef u. induction es as [|e es IH]; intros ss ef u; simpl.
  - intros [= <- <- <-]. rewrite app_nil_r. split_and!; [done|done|by intros f ->; exists f|].
    intros _ e He. by apply elem_of_nil in He.
  - destruct (parse_snapshot parse_address e) as [s|] eqn:Ep.
    + intros (-> & Hu & Hf & Hn)%IH. split_and!; [by rewrite <-app_assoc|done|done|].
      intros Hu' e' [->|He']%elem_of_cons Hp; [congruence|by apply Hn].
    + destruct (parse_failure_cursor e) as [p|] eqn:Ef.
      * intros (-> & Hu & Hf & Hn)%IH. destruct (Hf _ eq_refl) as (f' & Hf' & Hle).
        split_and!; [done|done| |].
        -- intros f ->. exists f'. split; [done|]. trans (cursor_min f p); [done|].
           apply cursor_min_le.
        -- intros Hu' e' [->|He']%elem_of_cons Hp; [|by apply Hn].
           exists p, f'. split_and!; [done|done|]. etrans; [exact Hle|].
           destruct ef; [apply cursor_min_le|done].
      * intros (-> & Hu & Hf & Hn)%IH. split_and!; [done|lia|done|lia].
Qed.

Lemma sorted_keyset ss :
  validate_sorted_keyset ss = true →
  StronglySorted (λ a b, cursor_lt (snapshot_cursor a) (snapshot_cursor b)) ss.
Proof.
  intros H. apply Sorted.Sorted_StronglySorted; [intros a b c; apply cursor_lt_trans|].
  induction ss as [|a [|b ss] IH]; [constructor|by repeat constructor|].
  simpl in H. apply andb_true_iff in H as [H1 H2]. constructor; [by apply IH|].
  constructor. by apply bool_decide_eq_true in H1.
Qed.

(** The subgraph's contents [graph], where each entity stands in the order of
    [(lastStateChangeBlock, id)], and what it documents: an entity prints its
    own block and id; a query returns the first rows past the cursor, all of
    them when they are fewer than the page size. *)
Record graph_answers (graph : list IndexingAgreementEntity)
    (pos : IndexingAgreementEntity → Cursor) (since : Cursor)
    (rows : list IndexingAgreementEntity) : Prop := {
  prints_block e p : e ∈ graph → parse_failure_cursor e = Some p →
    cu_block p = cu_block (pos e) ∧ (cu_id p ≠ None → cu_id p = cu_id (pos e));
  rows_in_graph e : e ∈ rows → e ∈ graph;
  first_page e : e ∈ graph → cursor_lt since (pos e) → e ∉ rows →
    (SUBGRAPH_PAGE_SIZE ≤ length rows)%nat ∧ ∀ e', e' ∈ rows → cursor_lt (pos e') (pos e) }.

Lemma parse_snapshot_cursor e s :
  parse_snapshot parse_address e = Some s → parse_failure_cursor e = Some (snapshot_cursor s).
Proof.
  unfold parse_snapshot, parse_failure_cursor. intros H.
  destruct (parse_id (en_id e)) as [i|]; [|done].
  destruct (parse_u64 (en_last_state_change_block e)) as [b|]; [|by simplify_option_eq].
  by simplify_option_eq.
Qed.

Lemma failure_cursor_le graph pos since rows e p :
  graph_answers graph pos since rows → e ∈ graph → parse_failure_cursor e = Some p →
  cursor_le p (pos e).
Proof.
  intros Hg He Hp. destruct (prints_block _ _ _ _ Hg e p He Hp) as [Hb Hi].
  apply cursor_le_spec. right. split; [done|].
  destruct (cu_id p) as [i|] eqn:Ei; [|done]. rewrite <-(Hi ltac:(done)). done.
Qed.

Lemma snapshot_pos graph pos since rows e s :
  graph_answers graph pos since rows → e ∈ graph →
  parse_snapshot parse_address e = Some s → snapshot_cursor s = pos e.
Proof.
  intros Hg He Hs. apply parse_snapshot_cursor in Hs.
  destruct (prints_block _ _ _ _ Hg e _ He Hs) as [Hb Hi]. simpl in *.
  specialize (Hi ltac:(done)). destruct (pos e) as [b i]. simpl in *. by subst.
Qed.

(** A page that is not refused for its cursor's sake ends at a row it
    delivered, before any it could not parse. *)
Lemma last_cursor_cases since ss :
  last_cursor since ss = since ∨ ∃ s, s ∈ ss ∧ last_cursor since ss = snapshot_cursor s.
Proof.
  unfold last_cursor. destruct (last ss) as [s|] eqn:E; [|by left].
  right. exists s. split; [|done]. by apply last_Some_elem_of.
Qed.

(** Every row between the two cursors is kept. *)
Lemma settled_page_complete graph pos since rows latest ss ef u kept cursor e :
  graph_answers graph pos since rows →
  ss = omap (parse_snapshot parse_address) rows →
  (u = O → ∀ e, e ∈ rows → parse_snapshot parse_address e = None →
     ∃ p f, parse_failure_cursor e = Some p ∧ ef = Some f ∧ cursor_le f p) →
  settle_page since latest (length rows) ss ef u = (kept, cursor) →
  e ∈ graph → cursor_lt since (pos e) → cursor_le (pos e) cursor →
  ∃ s, parse_snapshot parse_address e = Some s ∧ s ∈ kept.
Proof.
  intros Hg -> Hfail Hs He Hsince Hcur.
  assert (Hpast : ∀ ss', (∀ s, s ∈ ss' → ∃ e', e' ∈ rows ∧ snapshot_cursor s = pos e') →
            cursor = last_cursor since ss' →
            e ∈ rows ∧ ∃ s, s ∈ ss' ∧ cursor = snapshot_cursor s).
  { intros ss' Hin ->. destruct (last_cursor_cases since ss') as [Hl|(s & Hs' & Hl)];
      rewrite Hl in *; [by exfalso; apply Hsince|].
    destruct (Hin s Hs') as (e' & He' & Hpos). split; [|by eauto].
    destruct (decide (e ∈ rows)) as [|Hn]; [done|exfalso].
    destruct (first_page _ _ _ _ Hg e He Hsince Hn) as [_ Hlt].
    apply (Hlt e' He'). by rewrite <-Hpos. }
  assert (Hparsed : ∀ s, s ∈ omap (parse_snapshot parse_address) rows →
            ∃ e', e' ∈ rows ∧ snapshot_cursor s = pos e').
  { intros s (e' & He' & Hp)%list_elem_of_omap. exists e'. split; [done|].
    eapply snapshot_pos; [done| |done]. by apply (rows_in_graph _ _ _ _ Hg). }
  unfold settle_page in Hs. destruct (Nat.ltb_spec 0 u) as [Hu|Hu].
  { simplify_eq. by exfalso; apply Hsince. }
  specialize (Hfail ltac:(lia)). destruct ef as [f|].
  - simplify_eq. destruct (Hpast (filter (λ s, cursor_lt (snapshot_cursor s) f)
      (omap (parse_snapshot parse_address) rows))) as (Hin & s & Hs & Hc); [|done|].
    { intros s [_ Hs]%list_elem_of_filter. by apply Hparsed. }
    apply list_elem_of_filter in Hs as [Hsf _]. rewrite Hc in Hcur.
    destruct (parse_snapshot parse_address e) as [se|] eqn:Ep.
    + exists se. split; [done|]. apply list_elem_of_filter.
      rewrite (snapshot_pos _ _ _ _ _ _ Hg He Ep).
      split; [by eapply cursor_le_lt_trans|]. apply list_elem_of_omap. by eauto.
    + exfalso. destruct (Hfail e Hin Ep) as (p & f' & Hp & [= <-] & Hle).
      apply Hsf. trans p; [done|]. trans (pos e); [|done].
      by eapply failure_cursor_le.
  - assert (Hall : e ∈ rows → ∃ s, parse_snapshot parse_address e = Some s ∧
        s ∈ omap (parse_snapshot parse_address) rows).
    { intros Hin. destruct (parse_snapshot parse_address e) as [se|] eqn:Ep.
      - exists se. split; [done|]. apply list_elem_of_omap. by eauto.
      - by destruct (Hfail e Hin Ep) as (? & ? & _ & ? & _). }
    destruct (Nat.leb_spec SUBGRAPH_PAGE_SIZE (length rows)) as [Hfull|Hshort]; simplify_eq.
    + apply Hall. by eapply Hpast.
    + apply Hall. destruct (decide (e ∈ rows)) as [|Hn]; [done|].
      destruct (first_page _ _ _ _ Hg e He Hsince Hn). lia.
Qed.

(** C9: a page never lets the listener pass a change it was not given.  When
    the subgraph answers as documented, the page accepted is of the block
    asked for, no further ahead of the clock than the tolerance, in strict
    order, and every row of the subgraph between the cursor read from and the
    cursor returned is among its snapshots, however many rows failed to parse
    and whether or not the page was full. *)
Theorem page_skips_nothing config now since pinned graph pos response page :
  graph_answers graph pos since (rs_indexing_agreements response) →
  read_page parse_address config now since pinned response = Ok page →
  (∀ b, pinned = Some b → pg_latest_block page = b) ∧
  (∀ ts, sc_bypass_chain_clock_defenses config = false →
     pg_latest_block_timestamp page = Some ts →
     ts ≤ sat_add_u64 now (sc_wall_clock_skew_tolerance_secs config)) ∧
  StronglySorted (λ a b, cursor_lt (snapshot_cursor a) (snapshot_cursor b)) (pg_snapshots page) ∧
  ∀ e, e ∈ graph → cursor_lt since (pos e) → cursor_le (pos e) (pg_cursor page) →
    ∃ s, parse_snapshot parse_address e = Some s ∧ s ∈ pg_snapshots page.
Proof.
  intros Hg. unfold read_page.
  destruct (check_pinned_block pinned (rs_block_number response)) eqn:Hpin; [|done].
  destruct (from_option _ true (rs_block_timestamp response)) eqn:Hts; [|done].
  cbn [negb]. destruct (collect _ _ _ _ _) as [[ss ef] u] eqn:Hc.
  destruct (validate_sorted_keyset ss) eqn:Hv; [|done]. cbn [negb].
  destruct (settle_page _ _ _ _ _ _) as [kept cursor] eqn:Hs. intros [= <-]. simpl.
  split; [intros b ->; simpl in Hpin; lia|].
  split.
  { intros ts Hb Ht. rewrite Ht in Hts. simpl in Hts.
    unfold maybe_check_subgraph_skew, check_subgraph_skew in Hts. rewrite Hb in Hts. simpl in Hts. lia. }
  apply sorted_keyset in Hv. apply collect_spec in Hc as (Hss & Hu & _ & Hfail). simpl in Hss.
  split.
  - unfold settle_page in Hs. repeat case_match; simplify_eq; try done.
    by apply StronglySorted_filter.
  - intros e He Hsince Hcur. by eapply settled_page_complete.
Qed.

End page.

(** ** A page with a row that cannot be parsed *)

Definition demo_entity (id state block : string) : IndexingAgreementEntity :=
  mkEntity id "0xindexer" state "0x" block "1700" "0xaa" "0" "0x00".
Definition demo_good : IndexingAgreementEntity :=
  demo_entity "0x00000000000000000000000000000007" "Accepted" "100".
Definition demo_bad : IndexingAgreementEntity :=
  demo_entity "0x00000000000000000000000000000009" "Unheard" "101".
Definition demo_rows : list IndexingAgreementEntity := [demo_good; demo_bad].
Definition demo_read : result ChainEventError ChangedAgreementsResult :=
  read_page (λ _, Some 5%N) (mkSourceConfig 3 60 false) 2000 (mkCursor 99 None) (Some 120)
    (mkResponse demo_rows 120 (Some 2050)).

Lemma page_skips_nothing_witness :
  ∃ page, demo_read = Ok page ∧ pg_cursor page = mkCursor 100 (Some 7%N) ∧
    ∃ s, parse_snapshot (λ _, Some 5%N) demo_good = Some s ∧ s ∈ pg_snapshots page.
Proof.
  destruct demo_read as [page|e] eqn:E; [|vm_compute in E; discriminate].
  pose proof (page_skips_nothing (λ _, Some 5%N) (mkSourceConfig 3 60 false) 2000
    (mkCursor 99 None) (Some 120) demo_rows (λ e, default genesis (parse_failure_cursor e))
    (mkResponse demo_rows 120 (Some 2050)) page) as H.
  destruct H as (_ & _ & _ & H).
  - split.
    + intros e p _ Hp. rewrite Hp. by split.
    + done.
    + intros e He _ Hn. by destruct Hn.
  - exact E.
  - assert (Hc : pg_cursor page = mkCursor 100 (Some 7%N))
      by (vm_compute in E; injection E as <-; reflexivity).
    exists page. split; [done|]. split; [done|]. apply H.
    + by left.
    + vm_compute. by intros [].
    + rewrite Hc. vm_compute. exact I.
Defined.

End ChainEventsProps.
