(* ===== verification/ChainListener.v ===== *)
(** * The chain listener (bin/dipper-service/src/network/service/chain_listener.rs)

    One drain of the listener: page through the changed agreements, prepare
    and apply their reconciliation, start the cancels an accepted replacement
    releases, and move the cursor and the chain clock forward.

    The listener calls the registry, the chain client, the event source and
    the worker queue through interfaces, each a type class on the state of
    that component; any call may fail.  The clocks are read once per page:
    [clock n] is the monotonic instant and the wall-clock seconds at page [n].
    How addresses and transaction hashes print is a parameter. *)

From S2P Require Import Prelude Schema Registry RegistryInv RegistryRuns RegistryOps RegistryQueries.
From S2P Require Import CancelDispatch ChainEvents.
Import Schema Registry RegistryInv RegistryRuns RegistryOps RegistryQueries CancelDispatch.
Import ChainEvents.
Local Open Scope Z_scope.

Module ChainListener.

(** ** Interfaces *)

(** The methods of [AgreementRegistry], [PendingCancellationRegistry] and
    [ChainListenerStateRegistry] the listener uses beside the cancel
    dispatch's. *)
Class ListenerRegistry (R : Type) : Type := {
  reg_get_by_id : N → R → result Error (option IndexingAgreement) * R;
  reg_get_by_ids : list N → R → result Error (gmap N IndexingAgreement) * R;
  reg_apply_batch : list ReconciliationItem → R →
    result Error (gmap N ReconciliationOutcome) * R;
  reg_record_accepted_audit : N → Z → string → R → result Error () * R;
  reg_record_accept_and_cancel_audit : N → Z → string → Z → string → option string → R →
    result Error () * R;
  reg_pending_of : N → R → result Error (list N) * R;
  reg_delete_pending : N → N → R → result Error () * R;
  reg_executable_pending : Z → R → result Error (list N) * R;
  reg_pending_chain_cancel : Z → R → result Error (list IndexingAgreement) * R;
  reg_update_listener : Z → Cursor → option Z → R → result Error () * R }.

Record ChainAccept : Type := mkChainAccept { ca_at : Z; ca_tx : string }.

(** [WorkerQueue::cancel_rejected_agreement_on_chain]; [false] is an error. *)
Class LiveCheckQueue (W : Type) : Type :=
  push_live_check : N → option ChainAccept → W → bool * W.

Class ChainEventSource (E : Type) : Type :=
  source_get : Cursor → option Z → E → result ChainEventError ChangedAgreementsResult * E.

(** ** Pure parts *)

Definition MAX_CONSECUTIVE_FAILURES : Z := 10.
Definition MAX_PAGES_PER_DRAIN : nat := 1000.
(** [Duration::from_secs(600)], in nanoseconds, the unit of instants. *)
Definition MAX_CURSOR_HOLD : Z := 600 * 1000000000.
Definition SWEEP_BATCH_SIZE : Z := 1000.

Inductive FetchFailureLog : Type := LogWarn | LogAlert | LogError.

Definition fetch_failure_log (consecutive_failures : Z) : FetchFailureLog :=
  match consecutive_failures ?= MAX_CONSECUTIVE_FAILURES with
  | Lt => LogWarn | Eq => LogAlert | Gt => LogError
  end.

Record CursorHold : Type := mkHold { ch_cursor : Cursor; ch_since : Z }.

(** Whether to move past the page, and the hold after it. *)
Definition hold_expired (hold : option CursorHold) (cursor : Cursor) (now : Z)
    : bool * option CursorHold :=
  match hold with
  | Some held =>
      if bool_decide (ch_cursor held = cursor) then
        if sat_sub now (ch_since held) <? MAX_CURSOR_HOLD then (false, hold)
        else (true, None)
      else (false, Some (mkHold cursor now))
  | None => (false, Some (mkHold cursor now))
  end.

Definition apply_chain_ts_drift_cap (new_ts cached_ts now_secs tolerance : Z) (bypass : bool)
    : Z :=
  if bypass then new_ts
  else
    let max_allowed := sat_add_u64 now_secs tolerance in
    if max_allowed <? new_ts then Z.max max_allowed cached_ts else new_ts.

Definition ratchet_timestamp (new_ts cached : option Z) (now_secs tolerance : Z) (bypass : bool)
    : option Z :=
  match new_ts, cached with
  | Some new_ts, Some cached_ts =>
      if new_ts <? cached_ts then Some cached_ts
      else Some (apply_chain_ts_drift_cap new_ts cached_ts now_secs tolerance bypass)
  | Some new_ts, None => Some (apply_chain_ts_drift_cap new_ts 0 now_secs tolerance bypass)
  | None, cached => cached
  end.

(** Where a drain starts reading: the cursor backed off by the reorg buffer. *)
Definition effective_cursor (cursor : Cursor) (reorg_buffer_blocks : Z) : Cursor :=
  if (0 <? cu_block cursor) && (0 <? reorg_buffer_blocks)
     && (reorg_buffer_blocks <? cu_block cursor)
  then at_block (sat_sub (cu_block cursor) reorg_buffer_blocks)
  else cursor.

Definition ended_but_accepted (s : AgreementStateSnapshot) (a : IndexingAgreement) : bool :=
  bool_decide (ia_status a ∈ [Rejected; CanceledByRequester])
  && reached_accepted (sn_state s) && negb (is_canceled (sn_state s)).

Definition withdrawn_offer (s : AgreementStateSnapshot) : bool :=
  is_canceled (sn_state s) && (sn_accepted_at s =? 0).

Definition should_accept (s : AgreementStateSnapshot) (a : IndexingAgreement) : bool :=
  bool_decide (ia_status a ∈ [Created; Expired])
  && reached_accepted (sn_state s) && negb (withdrawn_offer s).

Definition already_terminal_cancel (a : IndexingAgreement) : bool :=
  bool_decide (ia_status a ∈ [CanceledByRequester; CanceledByIndexer; AbandonedByIndexer]).

Definition cancel_kind (s : AgreementStateSnapshot) (a : IndexingAgreement) : option CancelKind :=
  if is_canceled (sn_state s) && negb (already_terminal_cancel a) then
    match sn_state s with
    | CanceledByPayer => Some ByRequester
    | CanceledByServiceProvider => Some ByIndexer
    | NotAccepted | Accepted => None
    end
  else None.

(** What became of the cursor, the hold and the clock after one page. *)
Record Progress : Type := mkProgress {
  pr_cursor : Cursor;
  pr_hold : option CursorHold;
  pr_advance : bool;
  pr_write : option (Cursor * option Z) }.

Record ListenerConfig : Type := mkListenerConfig {
  lc_chain_id : Z;
  lc_reorg_buffer_blocks : Z;
  lc_chain_ts_drift_tolerance_secs : Z;
  lc_bypass_chain_clock_defenses : bool }.

(** [clean]: every change of the page was applied. *)
Definition page_progress (cfg : ListenerConfig) (cursor : Cursor) (hold : option CursorHold)
    (last_ts : option Z) (new_cursor : Cursor) (new_ts : option Z) (clean : bool)
    (now wall : Z) : Progress :=
  let ratchet := ratchet_timestamp new_ts last_ts wall (lc_chain_ts_drift_tolerance_secs cfg)
                   (lc_bypass_chain_clock_defenses cfg) in
  let '(skip, hold) := if clean then (false, None) else hold_expired hold cursor now in
  let advance := (clean || skip) && bool_decide (cursor_lt cursor new_cursor) in
  let cursor' := if advance then new_cursor else cursor in
  mkProgress cursor' hold advance
    (if advance || negb (bool_decide (ratchet = last_ts)) then Some (cursor', ratchet) else None).

(** ** State *)

Inductive ListenerError : Type :=
| QueueFailed
| RegistryFailed (e : Error)
| CancellationsFailed (n : Z).

Record DrainOutcome : Type := mkDrained {
  do_pages : nat; do_processed : Z; do_errors : Z; do_latest_block : Z; do_stopped : bool }.

Record PreparedReconciliation : Type := mkPrepared {
  pp_item : ReconciliationItem;
  pp_agreement : IndexingAgreement;
  pp_indexer : N }.

Section listener.
Context {R C E W : Type} `{!CancelRegistry R} `{!ListenerRegistry R} `{!ChainClient C}.
Context `{!ChainEventSource E} `{!LiveCheckQueue W}.
Context (tx_string address_string : N → string) (config : IndexingAgreementConfig).

(** The components the listener calls, its own long-lived variables, and two
    logs: the checks it queued and the cursors it wrote.  [ls_stop] is the
    number of [try_recv] calls before a stop message is seen. *)
Record LState : Type := mkLState {
  ls_dispatch : State R C;
  ls_source : E;
  ls_queue : W;
  ls_stop : option nat;
  ls_cursor : Cursor;
  ls_hold : option CursorHold;
  ls_ts : option Z;
  ls_head : Z;
  ls_stall : Z;
  ls_failures : Z;
  ls_queued : gset (N * Z);
  ls_checks : list (N * Z);
  ls_writes : list (Cursor * option Z) }.

Definition set_dispatch (v : State R C) (s : LState) : LState :=
  mkLState v (ls_source s) (ls_queue s) (ls_stop s) (ls_cursor s) (ls_hold s) (ls_ts s)
    (ls_head s) (ls_stall s) (ls_failures s) (ls_queued s) (ls_checks s) (ls_writes s).
Definition set_source (v : E) (s : LState) : LState :=
  mkLState (ls_dispatch s) v (ls_queue s) (ls_stop s) (ls_cursor s) (ls_hold s) (ls_ts s)
    (ls_head s) (ls_stall s) (ls_failures s) (ls_queued s) (ls_checks s) (ls_writes s).
Definition set_queue (v : W) (s : LState) : LState :=
  mkLState (ls_dispatch s) (ls_source s) v (ls_stop s) (ls_cursor s) (ls_hold s) (ls_ts s)
    (ls_head s) (ls_stall s) (ls_failures s) (ls_queued s) (ls_checks s) (ls_writes s).
Definition set_stop (v : option nat) (s : LState) : LState :=
  mkLState (ls_dispatch s) (ls_source s) (ls_queue s) v (ls_cursor s) (ls_hold s) (ls_ts s)
    (ls_head s) (ls_stall s) (ls_failures s) (ls_queued s) (ls_checks s) (ls_writes s).
Definition set_progress (cursor : Cursor) (hold : option CursorHold) (ts : option Z)
    (s : LState) : LState :=
  mkLState (ls_dispatch s) (ls_source s) (ls_queue s) (ls_stop s) cursor hold ts
    (ls_head s) (ls_stall s) (ls_failures s) (ls_queued s) (ls_checks s) (ls_writes s).
Definition set_health (head stall failures : Z) (s : LState) : LState :=
  mkLState (ls_dispatch s) (ls_source s) (ls_queue s) (ls_stop s) (ls_cursor s) (ls_hold s)
    (ls_ts s) head stall failures (ls_queued s) (ls_checks s) (ls_writes s).
Definition set_queued (queued : gset (N * Z)) (checks : list (N * Z)) (s : LState) : LState :=
  mkLState (ls_dispatch s) (ls_source s) (ls_queue s) (ls_stop s) (ls_cursor s) (ls_hold s)
    (ls_ts s) (ls_head s) (ls_stall s) (ls_failures s) queued checks (ls_writes s).
Definition set_writes (writes : list (Cursor * option Z)) (s : LState) : LState :=
  mkLState (ls_dispatch s) (ls_source s) (ls_queue s) (ls_stop s) (ls_cursor s) (ls_hold s)
    (ls_ts s) (ls_head s) (ls_stall s) (ls_failures s) (ls_queued s) (ls_checks s) writes.

(** Calls that return, with an error as a value. *)
Definition L (A : Type) : Type := LState → A * LState.
#[export] Instance L_ret : MRet L := λ A a s, (a, s).
#[export] Instance L_bind : MBind L := λ A B k m s, let '(a, s') := m s in k a s'.

Definition dispatch {A} (m : M R C A) : L A := λ s,
  let '(a, d) := m (ls_dispatch s) in (a, set_dispatch d s).
Definition reg {A} (f : R → A * R) : L A := dispatch (registry f).
Definition modify (f : LState → LState) : L () := λ s, (tt, f s).

(** [?] on a registry's answer *)
Definition try_reg {A B} (m : L (result Error A)) (k : A → L (result ListenerError B))
    : L (result ListenerError B) :=
  r ← m;
  match r with Ok a => k a | Err e => mret (Err (RegistryFailed e)) end.

(** ** Live checks *)

Definition queue_live_check (snapshot : AgreementStateSnapshot) : L (result ListenerError ()) :=
  λ s,
  let change := (sn_agreement_id snapshot, sn_last_state_change_block snapshot) in
  if bool_decide (change ∈ ls_queued s) then (Ok tt, s)
  else
    let accept := if sn_accepted_at snapshot =? 0 then None
                  else Some (mkChainAccept (sn_accepted_at snapshot) (sn_accepted_tx snapshot)) in
    let '(ok, q) := push_live_check (sn_agreement_id snapshot) accept (ls_queue s) in
    if ok then (Ok tt, set_queued ({[ change ]} ∪ ls_queued s) (ls_checks s ++ [change])
                         (set_queue q s))
    else (Err QueueFailed, set_queue q s).

Definition forget_before (block : Z) : L () :=
  modify (λ s, set_queued (filter (λ c, block ≤ c.2) (ls_queued s)) (ls_checks s) s).

(** ** Preparing a snapshot *)

Definition record_accept_of_cancelling (snapshot : AgreementStateSnapshot)
    (agreement : IndexingAgreement) : L (result ListenerError ()) :=
  if bool_decide (ia_status agreement ≠ Cancelling) || negb (reached_accepted (sn_state snapshot))
     || (sn_accepted_at snapshot =? 0)
  then mret (Ok tt)
  else try_reg (reg (reg_record_accepted_audit (ia_id agreement) (sn_accepted_at snapshot)
         (sn_accepted_tx snapshot))) (λ _, mret (Ok tt)).

Definition record_accept_and_cancel_from_chain (snapshot : AgreementStateSnapshot)
    (agreement : IndexingAgreement) : L (result ListenerError ()) :=
  if sn_accepted_at snapshot =? 0 then mret (Ok tt)
  else try_reg (reg (reg_record_accept_and_cancel_audit (ia_id agreement)
         (sn_accepted_at snapshot) (sn_accepted_tx snapshot) (sn_canceled_at snapshot)
         (address_string (sn_canceled_by snapshot)) (Some (sn_canceled_tx snapshot))))
         (λ _, mret (Ok tt)).

(** [accept.then_some(..)] *)
Definition then_some {A} (b : bool) (a : A) : option A := if b then Some a else None.

Definition reconciliation_item (snapshot : AgreementStateSnapshot)
    (agreement : IndexingAgreement) : option ReconciliationItem :=
  let accept := should_accept snapshot agreement in
  let cancel := cancel_kind snapshot agreement in
  if accept || negb (is_null cancel) then
    Some (mkItem (ia_id agreement) accept cancel
      (mkAudit (then_some accept (sn_accepted_at snapshot))
         (then_some accept (sn_accepted_tx snapshot))
         ((λ _, sn_canceled_at snapshot) <$> cancel)
         ((λ _, address_string (sn_canceled_by snapshot)) <$> cancel)
         ((λ _, sn_canceled_tx snapshot) <$> cancel)))
  else None.

(** The first error returns. *)
Definition and_then {A B} (m : L (result ListenerError A)) (k : A → L (result ListenerError B))
    : L (result ListenerError B) :=
  r ← m; match r with Ok a => k a | Err e => mret (Err e) end.

Definition prepare_reconciliation (snapshot : AgreementStateSnapshot)
    (agreement : option IndexingAgreement)
    : L (result ListenerError (option PreparedReconciliation)) :=
  match agreement with
  | None => mret (Ok None)
  | Some agreement =>
      and_then (if ended_but_accepted snapshot agreement then queue_live_check snapshot
                else mret (Ok tt)) (λ _,
      and_then (record_accept_of_cancelling snapshot agreement) (λ _,
      match reconciliation_item snapshot agreement with
      | Some item => mret (Ok (Some (mkPrepared item agreement (sn_indexer snapshot))))
      | None =>
          if already_terminal_cancel agreement && is_canceled (sn_state snapshot) then
            and_then (record_accept_and_cancel_from_chain snapshot agreement)
              (λ _, mret (Ok None))
          else mret (Ok None)
      end))
  end.

(** ** Cancelling what an accepted agreement replaces *)

(** [None] when the chain can't be read. *)
Definition expired_but_live (agreement : IndexingAgreement) : L (option bool) :=
  read ← dispatch (chain_read (ia_id agreement));
  mret (match read with
        | Ok on_chain => Some (bool_decide (on_chain = Live))
        | Err _ => None
        end).

Definition note_replaced_cancel (started : result Error CancelStarted) : bool :=
  match started with Ok _ => true | Err NoRecordsUpdated => true | Err _ => false end.

Definition start_replaced_cancel (now_secs : Z) (old_agreement_id : N)
    : L (result ListenerError bool) :=
  try_reg (reg (reg_get_by_id old_agreement_id)) (λ old,
  match old with
  | None => mret (Ok true)
  | Some old_agreement =>
      if bool_decide (ia_status old_agreement = Expired) then
        live ← expired_but_live old_agreement;
        match live with
        | Some true =>
            started ← dispatch (start_cancel_seen_live tx_string config now_secs old_agreement
                                  NotWanted);
            mret (Ok (note_replaced_cancel started))
        | Some false => mret (Ok true)
        | None => mret (Ok false)
        end
      else
        started ← dispatch (start_cancel tx_string config now_secs old_agreement NotWanted);
        mret (Ok (note_replaced_cancel started))
  end).

Fixpoint cancel_each (now_secs : Z) (new_id : N) (pending : list N) (failures : Z)
    : L (result ListenerError Z) :=
  match pending with
  | [] => mret (Ok failures)
  | old :: rest =>
      and_then (start_replaced_cancel now_secs old) (λ done,
      if (done : bool) then
        try_reg (reg (reg_delete_pending new_id old)) (λ _,
        cancel_each now_secs new_id rest failures)
      else cancel_each now_secs new_id rest (failures + 1))
  end.

Definition execute_pending_cancellations (now_secs : Z) (agreement_id : N)
    : L (result ListenerError ()) :=
  try_reg (reg (reg_pending_of agreement_id)) (λ pending,
  and_then (cancel_each now_secs agreement_id pending 0) (λ failures,
  mret (if 0 <? failures then Err (CancellationsFailed failures) else Ok tt))).

Definition finalize_reconciliation (now_secs : Z) (prep : PreparedReconciliation)
    (outcome : ReconciliationOutcome) : L (result ListenerError ()) :=
  if did_accept outcome
  then execute_pending_cancellations now_secs (ia_id (pp_agreement prep))
  else mret (Ok tt).

(** ** One page *)

(** [rx_stop.try_recv().is_ok()] *)
Definition try_recv : L bool := λ s,
  match ls_stop s with
  | None => (false, s)
  | Some O => (true, set_stop None s)
  | Some (S n) => (false, set_stop (Some n) s)
  end.

(** What preparing a page's snapshots gathers. *)
Record Gathered : Type := mkGathered {
  ga_prepared : list PreparedReconciliation;
  ga_unapplied : list N;
  ga_errors : Z }.

(** Also whether a stop was asked for, which leaves the rest unread. *)
Fixpoint prepare_each (snapshots : list AgreementStateSnapshot)
    (by_id : gmap N IndexingAgreement) (g : Gathered) : L (bool * Gathered) :=
  match snapshots with
  | [] => mret (false, g)
  | s :: rest =>
      stop ← try_recv;
      if (stop : bool) then mret (true, g)
      else
        r ← prepare_reconciliation s (by_id !! sn_agreement_id s);
        prepare_each rest (delete (sn_agreement_id s) by_id)
          (match r with
           | Ok (Some prep) =>
               mkGathered (ga_prepared g ++ [prep]) (ga_unapplied g) (ga_errors g)
           | Ok None => g
           | Err _ => mkGathered (ga_prepared g) (ga_unapplied g ++ [sn_agreement_id s])
                        (ga_errors g + 1)
           end)
  end.

Fixpoint finalize_each (now_secs : Z) (prepared : list PreparedReconciliation)
    (outcomes : gmap N ReconciliationOutcome) (processed errors : Z) : L (Z * Z) :=
  match prepared with
  | [] => mret (processed, errors)
  | prep :: rest =>
      match outcomes !! ia_id (pp_agreement prep) with
      | None => finalize_each now_secs rest outcomes processed errors
      | Some outcome =>
          r ← finalize_reconciliation now_secs prep outcome;
          match r with
          | Ok _ => finalize_each now_secs rest outcomes (processed + 1) errors
          | Err _ => finalize_each now_secs rest outcomes processed (errors + 1)
          end
      end
  end.

(** Apply what was prepared as one batch, unless there is nothing to apply. *)
Definition apply_gathered (g : Gathered) : L (Gathered * gmap N ReconciliationOutcome) :=
  let items := pp_item <$> ga_prepared g in
  match items with
  | [] => mret (g, ∅)
  | _ =>
      applied ← reg (reg_apply_batch items);
      mret (match applied with
            | Ok outcomes => (g, outcomes)
            | Err _ =>
                (mkGathered (ga_prepared g) (ga_unapplied g ++ (ri_agreement_id <$> items))
                   (ga_errors g + Z.of_nat (length items)), ∅)
            end)
  end.

(** Look up, prepare and apply the snapshots of a page: what was gathered,
    and the batch's outcomes, or [None] on a stop. *)
Definition reconcile_page (snapshots : list AgreementStateSnapshot)
    : L (Gathered * option (gmap N ReconciliationOutcome)) :=
  let ids := sn_agreement_id <$> snapshots in
  found ← reg (reg_get_by_ids ids);
  gathered ← match found with
             | Ok by_id => prepare_each snapshots by_id (mkGathered [] [] 0)
             | Err _ => prepare_each snapshots ∅ (mkGathered [] ids (Z.of_nat (length ids)))
             end;
  if (gathered.1 : bool) then mret (gathered.2, None)
  else applied ← apply_gathered gathered.2; mret (applied.1, Some applied.2).

(** Page 1 is the sample for stall detection. *)
Definition note_head (first : bool) (latest_block : Z) : L () :=
  modify (λ s,
    if first then
      let stall :=
        if (latest_block =? ls_head s) && (0 <? latest_block) then ls_stall s + 1
        else if (0 <? ls_stall s) && (ls_head s <? latest_block) then 0
        else ls_stall s in
      set_health latest_block stall (ls_failures s) s
    else s).

(** Persist the cursor and the clock; a write that fails leaves the clock's
    last value as it was, and the cursor moves in memory all the same. *)
Definition persist_progress (cfg : ListenerConfig) (p : Progress) : L () :=
  match pr_write p with
  | None => modify (λ s, set_progress (pr_cursor p) (pr_hold p) (ls_ts s) s)
  | Some (cursor, ts) =>
      _ ← modify (λ s, set_writes (ls_writes s ++ [(cursor, ts)]) s);
      written ← reg (reg_update_listener (lc_chain_id cfg) cursor ts);
      modify (λ s, set_progress (pr_cursor p) (pr_hold p)
        (match written with Ok _ => ts | Err _ => ls_ts s end) s)
  end.

Inductive PageEnd : Type := PageStopped | PageBreak | PageContinue.

(** One turn of the loop, after its fetch. *)
Definition drain_page (cfg : ListenerConfig) (now wall : Z) (page : ChangedAgreementsResult)
    (stats : DrainOutcome) : L (PageEnd * DrainOutcome) :=
  _ ← note_head (do_pages stats =? 0)%nat (pg_latest_block page);
  applied ← reconcile_page (pg_snapshots page);
  let '(g, outcomes) := applied in
  let errors := do_errors stats + ga_errors g in
  match outcomes with
  | None => mret (PageStopped, mkDrained (do_pages stats) (do_processed stats) errors
                    (pg_latest_block page) true)
  | Some outcomes =>
      counts ← finalize_each wall (ga_prepared g) outcomes (do_processed stats) errors;
      progress ← (λ s, (page_progress cfg (ls_cursor s) (ls_hold s) (ls_ts s) (pg_cursor page)
                          (pg_latest_block_timestamp page) (bool_decide (ga_unapplied g = []))
                          now wall, s));
      _ ← persist_progress cfg progress;
      let pages := S (do_pages stats) in
      mret (if negb (pr_advance progress) then PageBreak
            else if (length (pg_snapshots page) <? SUBGRAPH_PAGE_SIZE)%nat then PageBreak
            else if (MAX_PAGES_PER_DRAIN <=? pages)%nat then PageBreak
            else PageContinue,
            mkDrained pages counts.1 counts.2 (pg_latest_block page) false)
  end.

(** ** The drain *)

(** [None]: the fetch failed, [Err(())] in the source.  [todo] bounds the
    pages; the loop stops at [MAX_PAGES_PER_DRAIN] by itself. *)
Fixpoint drain_pages (cfg : ListenerConfig) (clock : nat → Z * Z) (todo : nat)
    (effective : Cursor) (pinned : option Z) (stats : DrainOutcome) : L (option DrainOutcome) :=
  match todo with
  | O => mret (Some stats)
  | S todo' =>
      fetched ← (λ s, let '(r, src) := source_get effective pinned (ls_source s) in
                      (r, set_source src s));
      match fetched with
      | Err _ =>
          _ ← modify (λ s, set_health (ls_head s) (ls_stall s)
                             (sat_add_u32 (ls_failures s) 1) s);
          mret None
      | Ok page =>
          _ ← modify (λ s, set_health (ls_head s) (ls_stall s) 0 s);
          let '(now, wall) := clock (do_pages stats) in
          ended ← drain_page cfg now wall page stats;
          match ended.1 with
          | PageStopped | PageBreak => mret (Some ended.2)
          | PageContinue =>
              drain_pages cfg clock todo' (pg_cursor page)
                (coalesce pinned (Some (pg_latest_block page))) ended.2
          end
      end
  end.

Definition drain_once (cfg : ListenerConfig) (clock : nat → Z * Z) : L (option DrainOutcome) :=
  effective ← (λ s, (effective_cursor (ls_cursor s) (lc_reorg_buffer_blocks cfg), s));
  _ ← forget_before (cu_block effective);
  drain_pages cfg clock MAX_PAGES_PER_DRAIN effective None (mkDrained 0 0 0 0 false).

(** ** The crash-recovery sweeps *)

Fixpoint sweep_each (now_secs : Z) (targets : list N) : L () :=
  match targets with
  | [] => mret tt
  | t :: rest => _ ← execute_pending_cancellations now_secs t; sweep_each now_secs rest
  end.

Definition sweep_executable_pending_cancellations (now_secs : Z) : L () :=
  targets ← reg (reg_executable_pending SWEEP_BATCH_SIZE);
  match targets with Ok ts => sweep_each now_secs ts | Err _ => mret tt end.

Fixpoint cancel_orphans (now_secs : Z) (orphans : list IndexingAgreement) : L () :=
  match orphans with
  | [] => mret tt
  | a :: rest =>
      _ ← dispatch (start_cancel tx_string config now_secs a NotWanted);
      cancel_orphans now_secs rest
  end.

Definition sweep_orphan_canceled_agreements (now_secs : Z) : L () :=
  orphans ← reg (reg_pending_chain_cancel SWEEP_BATCH_SIZE);
  match orphans with Ok os => cancel_orphans now_secs os | Err _ => mret tt end.

End listener.

Arguments LState : clear implicits.
Arguments L : clear implicits.

End ChainListener.
