(* ===== verification/ChainListenerProps.v ===== *)
(** * What a drain of the chain listener guarantees

    The cursor and the chain clock only move forward, a page that cannot be
    applied is held for the time set and no longer, and a change is checked
    once, whatever the registry, the chain, the subgraph and the queue answer. *)

From S2P Require Import Prelude Schema Registry RegistryInv RegistryRuns RegistryOps RegistryQueries.
From S2P Require Import CancelDispatch ChainEvents ChainEventsProps ChainListener.
Import Schema Registry RegistryInv RegistryRuns RegistryOps RegistryQueries CancelDispatch.
Import ChainEvents ChainEventsProps ChainListener.
Local Open Scope Z_scope.

Create HintDb listener.

Module ChainListenerProps.

(** ** The clock *)

(** A later or equal clock, [None] being none yet. *)
Definition ts_le (a b : option Z) : Prop :=
  match a, b with
  | None, _ => True
  | Some _, None => False
  | Some x, Some y => x ≤ y
  end.

#[export] Instance ts_le_preorder : PreOrder ts_le.
Proof.
  split; [intros [x|]; simpl; lia|].
  intros [x|] [y|] [z|]; simpl; try done; lia.
Qed.

Lemma ratchet_up new_ts cached wall tol bypass :
  ts_le cached (ratchet_timestamp new_ts cached wall tol bypass).
Proof.
  unfold ratchet_timestamp, apply_chain_ts_drift_cap.
  destruct new_ts as [n|], cached as [c|]; simpl; try done.
  destruct (Z.ltb_spec n c); [done|]. simpl. repeat case_match; lia.
Qed.

(** Without the bypass the clock is never taken past the wall clock and the
    tolerance. *)
Lemma ratchet_capped new_ts cached wall tol :
  0 ≤ sat_add_u64 wall tol →
  ts_le (ratchet_timestamp new_ts cached wall tol false)
    (Some (Z.max (default 0 cached) (sat_add_u64 wall tol))).
Proof.
  intros Hw. unfold ratchet_timestamp, apply_chain_ts_drift_cap.
  destruct new_ts as [n|], cached as [c|]; simpl; try done; try lia;
    repeat case_match; simpl; lia.
Qed.

(** ** The hold *)

(** The pages of successive polls, each with its cursor, whether its changes
    were applied, and when. *)
Record poll : Type := mkPoll { po_cursor : Cursor; po_clean : bool; po_at : Z }.

Definition poll_step (cfg : ListenerConfig) (st : Cursor * option CursorHold) (p : poll)
    : Cursor * option CursorHold :=
  let pr := page_progress cfg st.1 st.2 None (po_cursor p) None (po_clean p) (po_at p) 0 in
  (pr_cursor pr, pr_hold pr).

Definition failing (c : Cursor) (p : poll) : Prop :=
  po_clean p = false ∧ cursor_lt c (po_cursor p).

Lemma poll_step_held cfg c t0 p :
  failing c p → t0 ≤ po_at p →
  poll_step cfg (c, Some (mkHold c t0)) p =
    if po_at p - t0 <? MAX_CURSOR_HOLD then (c, Some (mkHold c t0)) else (po_cursor p, None).
Proof.
  intros [Hc Hlt] Ht. unfold poll_step, page_progress, hold_expired. rewrite Hc. simpl.
  rewrite bool_decide_eq_true_2 by done. unfold sat_sub. rewrite Z.max_r by lia.
  destruct (Z.ltb_spec (po_at p - t0) MAX_CURSOR_HOLD); simpl; [done|].
  by rewrite bool_decide_eq_true_2.
Qed.

(** A page whose changes fail to apply holds the cursor for ten minutes
    and not longer: from the first failure at that cursor every failing poll
    inside the limit leaves the cursor where it is, so the page is read again,
    and the first one at or past the limit moves on; a page that is applied
    moves on at once and ends the hold. *)
Theorem failing_page_is_held_then_passed cfg c hold first polls last :
  (∀ h, hold = Some h → ch_cursor h ≠ c) →
  failing c first → Forall (failing c) polls → failing c last →
  Forall (λ p, po_at first ≤ po_at p < po_at first + MAX_CURSOR_HOLD) polls →
  po_at first + MAX_CURSOR_HOLD ≤ po_at last →
  foldl (poll_step cfg) (c, hold) (first :: polls) = (c, Some (mkHold c (po_at first))) ∧
  foldl (poll_step cfg) (c, hold) (first :: polls ++ [last]) = (po_cursor last, None) ∧
  ∀ p, po_clean p = true → cursor_lt c (po_cursor p) →
    foldl (poll_step cfg) (c, hold) (first :: polls ++ [p]) = (po_cursor p, None).
Proof.
  intros Hh Hf Hp Hl Ht Htl.
  assert (Hheld : foldl (poll_step cfg) (c, hold) (first :: polls)
                  = (c, Some (mkHold c (po_at first)))).
  { simpl. replace (poll_step cfg (c, hold) first) with (c, Some (mkHold c (po_at first))).
    2:{ destruct Hf as [Hc _]. unfold poll_step, page_progress, hold_expired. rewrite Hc. simpl.
        destruct hold as [h|]; [|done]. by rewrite bool_decide_eq_false_2 by by apply Hh. }
    clear Hf Hh. induction polls as [|p polls IH]; [done|].
    apply Forall_cons in Hp as [Hp1 Hp], Ht as [Ht1 Ht]. simpl.
    rewrite poll_step_held by (done || lia).
    rewrite (proj2 (Z.ltb_lt _ _)) by lia. by apply IH. }
  split; [done|]. split.
  - rewrite app_comm_cons, foldl_app, Hheld. simpl.
    rewrite poll_step_held by (done || unfold MAX_CURSOR_HOLD in *; lia).
    by rewrite (proj2 (Z.ltb_ge _ _)) by lia.
  - intros p Hc Hlt. rewrite app_comm_cons, foldl_app, Hheld. simpl.
    unfold poll_step, page_progress. rewrite Hc. simpl. by rewrite bool_decide_eq_true_2.
Qed.

(** ** Drains *)

Section drains.
Context {R C E W : Type} `{!CancelRegistry R} `{!ListenerRegistry R} `{!ChainClient C}.
Context `{!ChainEventSource E} `{!LiveCheckQueue W}.
Context (tx_string address_string : N → string) (config : IndexingAgreementConfig).
Notation L := (L R C E W).
Notation LState := (LState R C E W).

(** A run that leaves a part of the state alone. *)
Definition frames {T A} (view : LState → T) (m : L A) : Prop := ∀ s, view (m s).2 = view s.

Lemma frames_ret {T A} (view : LState → T) (a : A) : frames view (mret a).
Proof. by intros s. Qed.

Lemma frames_bind {T A B} (view : LState → T) (m : L A) (k : A → L B) :
  frames view m → (∀ a, frames view (k a)) → frames view (m ≫= k).
Proof.
  intros Hm Hk s. unfold mbind, L_bind. specialize (Hm s). destruct (m s) as [a s'].
  simpl in Hm. rewrite <-Hm. apply Hk.
Qed.

Lemma frames_modify {T} (view : LState → T) f : (∀ s, view (f s) = view s) → frames view (modify f).
Proof. intros Hf s. apply Hf. Qed.

Lemma frames_read {T A} (view : LState → T) (f : LState → A) : frames view (λ s, (f s, s)).
Proof. by intros s. Qed.

(** The calls to the registry and the chain leave the listener's own
    variables alone. *)
Definition own (s : LState) :=
  ((ls_cursor s, ls_hold s, ls_ts s, ls_writes s), (ls_queued s, ls_checks s)).

Lemma own_dispatch {A} (m : M R C A) : frames own (dispatch m).
Proof. intros s. unfold dispatch. by destruct (m (ls_dispatch s)). Qed.

Lemma own_try_reg {A B} (m : L (result Error A)) (k : A → L (result ListenerError B)) :
  frames own m → (∀ a, frames own (k a)) → frames own (try_reg m k).
Proof. intros Hm Hk. apply frames_bind; [done|]. intros [a|e]; [done|apply frames_ret]. Qed.

Lemma own_and_then {A B} (view : LState → A) {X} (m : L (result ListenerError X))
    (k : X → L (result ListenerError B)) :
  frames view m → (∀ a, frames view (k a)) → frames view (and_then m k).
Proof. intros Hm Hk. apply frames_bind; [done|]. intros [a|e]; [done|apply frames_ret]. Qed.

Lemma own_reg {A} (f : R → A * R) : frames own (reg f).
Proof. apply own_dispatch. Qed.

Hint Resolve frames_ret frames_read own_dispatch own_reg : listener.
Hint Resolve frames_bind own_try_reg own_and_then : listener.

Lemma own_replaced now old : frames own (start_replaced_cancel tx_string config now old).
Proof.
  apply own_try_reg; [auto with listener|]. intros [a|]; [|auto with listener].
  case_match; [|auto with listener].
  apply frames_bind; [unfold expired_but_live; auto with listener|].
  intros [[]|]; auto with listener.
Qed.
Hint Resolve own_replaced : listener.

Lemma own_cancel_each now new_id pending n :
  frames own (cancel_each tx_string config now new_id pending n).
Proof.
  revert n. induction pending as [|o pending IH]; intros n; simpl; [auto with listener|].
  apply own_and_then; [auto with listener|]. intros []; auto with listener.
Qed.
Hint Resolve own_cancel_each : listener.

Lemma own_finalize_each now prepared outs p n :
  frames own (finalize_each tx_string config now prepared outs p n).
Proof.
  revert p n. induction prepared as [|x prepared IH]; intros p n; simpl; [auto with listener|].
  case_match; [|auto]. apply frames_bind.
  - unfold finalize_reconciliation, execute_pending_cancellations.
    case_match; auto 6 with listener.
  - intros [a|e]; auto.
Qed.

(** ** The cursor and the clock *)

Definition progress (s : LState) := (ls_cursor s, ls_hold s, ls_ts s, ls_writes s).

Lemma progress_of_own {A} (m : L A) : frames own m → frames progress m.
Proof. intros H s. exact (f_equal fst (H s)). Qed.

Lemma progress_live_check sn : frames progress (queue_live_check sn).
Proof.
  intros s. unfold queue_live_check. case_bool_decide; [done|].
  destruct (push_live_check _ _ _) as [[] q]; done.
Qed.

Lemma own_records sn a :
  frames own (record_accept_of_cancelling sn a) ∧
  frames own (record_accept_and_cancel_from_chain address_string sn a).
Proof.
  unfold record_accept_of_cancelling, record_accept_and_cancel_from_chain.
  split; case_match; auto with listener.
Qed.

Lemma progress_prepare sn a : frames progress (prepare_reconciliation address_string sn a).
Proof.
  destruct a as [a|]; [|apply frames_ret]. destruct (own_records sn a) as [H1 H2].
  apply own_and_then; [case_match; [apply progress_live_check|apply frames_ret]|]. intros _.
  apply own_and_then; [by apply progress_of_own|]. intros _.
  case_match; [apply frames_ret|]. case_match; [|apply frames_ret].
  apply own_and_then; [by apply progress_of_own|]. intros _. apply frames_ret.
Qed.

Lemma own_try_recv : frames own try_recv.
Proof. intros s. unfold try_recv. by destruct (ls_stop s) as [[]|]. Qed.

Lemma progress_prepare_each sns by_id g :
  frames progress (prepare_each address_string sns by_id g).
Proof.
  revert by_id g. induction sns as [|sn sns IH]; intros by_id g; simpl; [apply frames_ret|].
  apply frames_bind; [apply progress_of_own, own_try_recv|]. intros []; [apply frames_ret|].
  apply frames_bind; [apply progress_prepare|]. intros r. apply IH.
Qed.

Lemma progress_reconcile_page sns : frames progress (reconcile_page address_string sns).
Proof.
  apply frames_bind; [apply progress_of_own, own_reg|]. intros found.
  apply frames_bind; [destruct found; apply progress_prepare_each|]. intros [[] g]; simpl;
    [apply frames_ret|].
  apply frames_bind; [|intros; apply frames_ret]. unfold apply_gathered. cbv zeta.
  case_match; [apply frames_ret|].
  apply frames_bind; [apply progress_of_own, own_reg|intros; apply frames_ret].
Qed.

(** What pages may do to the cursor, the clock and what is on disk, [cap]
    bounding the wall clock and its tolerance. *)
Record moves (cfg : ListenerConfig) (cap : Z) (s s' : LState) : Prop := {
  mv_cursor : cursor_le (ls_cursor s) (ls_cursor s');
  mv_ts : ts_le (ls_ts s) (ls_ts s');
  mv_cap : lc_bypass_chain_clock_defenses cfg = false →
    ts_le (ls_ts s') (Some (Z.max (default 0 (ls_ts s)) cap));
  mv_writes : ∃ ws, ls_writes s' = ls_writes s ++ ws ∧
    ∀ c ts, (c, ts) ∈ ws → cursor_le (ls_cursor s) c ∧ cursor_le c (ls_cursor s') ∧
      ts_le (ls_ts s) ts }.

Lemma moves_still cfg cap s s' : progress s' = progress s → moves cfg cap s s'.
Proof.
  unfold progress. intros [= Hc _ Ht Hw]. split.
  - by rewrite Hc.
  - by rewrite Ht.
  - intros _. rewrite Ht. destruct (ls_ts s); simpl; [lia|done].
  - exists []. split; [by rewrite app_nil_r|]. intros c ts Hin. by apply elem_of_nil in Hin.
Qed.

Lemma moves_trans cfg cap s1 s2 s3 :
  0 ≤ cap → moves cfg cap s1 s2 → moves cfg cap s2 s3 → moves cfg cap s1 s3.
Proof.
  intros Hcap [C1 T1 K1 (w1 & W1 & B1)] [C2 T2 K2 (w2 & W2 & B2)]. split.
  - by trans (ls_cursor s2).
  - by trans (ls_ts s2).
  - intros Hb. specialize (K1 Hb). specialize (K2 Hb).
    destruct (ls_ts s3) as [t3|]; [|done]. destruct (ls_ts s2), (ls_ts s1); simpl in *; lia.
  - exists (w1 ++ w2). split; [by rewrite W2, W1, app_assoc|].
    intros c ts [Hin|Hin]%elem_of_app.
    + destruct (B1 c ts Hin) as (? & ? & ?). split_and!; [done| |done]. by trans (ls_cursor s2).
    + destruct (B2 c ts Hin) as (? & ? & ?). split_and!; [|done|]; by etrans.
Qed.

Lemma page_progress_spec cfg cursor hold ts new_cursor new_ts clean now wall :
  let p := page_progress cfg cursor hold ts new_cursor new_ts clean now wall in
  cursor_le cursor (pr_cursor p) ∧
  ∀ c t, pr_write p = Some (c, t) → c = pr_cursor p ∧
    t = ratchet_timestamp new_ts ts wall (lc_chain_ts_drift_tolerance_secs cfg)
          (lc_bypass_chain_clock_defenses cfg).
Proof.
  unfold page_progress. destruct (if clean then _ else _) as [skip h]. simpl. split.
  - case_match; [|done]. apply cursor_lt_le.
    apply andb_true_iff in H as [_ H]. by apply bool_decide_eq_true in H.
  - intros c t. case_match; [|done]. by intros [= <- <-].
Qed.

Lemma persist_moves cfg cap s new_cursor new_ts clean now wall :
  0 ≤ sat_add_u64 wall (lc_chain_ts_drift_tolerance_secs cfg) ≤ cap →
  moves cfg cap s (persist_progress cfg
    (page_progress cfg (ls_cursor s) (ls_hold s) (ls_ts s) new_cursor new_ts clean now wall) s).2.
Proof.
  intros Hcap. destruct (page_progress_spec cfg (ls_cursor s) (ls_hold s) (ls_ts s) new_cursor
    new_ts clean now wall) as [Hc Hw].
  set (p := page_progress _ _ _ _ _ _ _ _ _) in *. clearbody p. unfold persist_progress.
  destruct (pr_write p) as [[c t]|].
  2:{ split; simpl; [done|done| |].
      - intros _. destruct (ls_ts s); simpl; [lia|done].
      - exists []. split; [by rewrite app_nil_r|]. intros ?? Hin. by apply elem_of_nil in Hin. }
  destruct (Hw c t eq_refl) as [-> Ht]. clear Hw.
  pose proof (ratchet_up new_ts (ls_ts s) wall (lc_chain_ts_drift_tolerance_secs cfg)
    (lc_bypass_chain_clock_defenses cfg)) as Hup. rewrite <-Ht in Hup.
  assert (Hk : lc_bypass_chain_clock_defenses cfg = false →
    ts_le t (Some (Z.max (default 0 (ls_ts s)) cap))).
  { intros Hb. rewrite Hb in Ht. subst t. etrans; [apply ratchet_capped; lia|]. simpl. lia. }
  unfold mbind, L_bind, modify, reg, dispatch, registry. simpl.
  destruct (reg_update_listener _ _ _ _) as [[u|e] r]; simpl; split; simpl; try done.
  - exists [(pr_cursor p, t)]. split; [done|]. intros c ts Hin%list_elem_of_singleton. by simplify_eq.
  - intros _. destruct (ls_ts s); simpl; [lia|done].
  - exists [(pr_cursor p, t)]. split; [done|]. intros c ts Hin%list_elem_of_singleton. by simplify_eq.
Qed.

Lemma drain_page_moves cfg cap now wall page stats s :
  0 ≤ sat_add_u64 wall (lc_chain_ts_drift_tolerance_secs cfg) ≤ cap →
  moves cfg cap s (drain_page tx_string address_string config cfg now wall page stats s).2.
Proof.
  intros Hcap. unfold drain_page, note_head. unfold mbind at 1, L_bind at 1, modify at 1.
  set (s1 := if (_ =? _)%nat then _ else _).
  assert (H1 : progress s1 = progress s) by (unfold s1; by case_match).
  apply (moves_trans _ _ _ s1); [lia|by apply moves_still|]. clearbody s1. clear H1 s.
  unfold mbind at 1, L_bind at 1.
  pose proof (progress_reconcile_page (pg_snapshots page) s1) as H1.
  destruct (reconcile_page _ _ s1) as [[g outs] s2]. simpl in H1.
  apply (moves_trans _ _ _ s2); [lia|by apply moves_still|]. clear H1 s1.
  destruct outs as [outs|]; [|by apply moves_still].
  unfold mbind at 1, L_bind at 1.
  pose proof (progress_of_own _ (own_finalize_each wall (ga_prepared g) outs (do_processed stats)
    (do_errors stats + ga_errors g)) s2) as H1.
  destruct (finalize_each _ _ _ _ _ _ _ s2) as [counts s3]. simpl in H1.
  apply (moves_trans _ _ _ s3); [lia|by apply moves_still|]. clear H1 s2.
  unfold mbind, L_bind.
  pose proof (persist_moves cfg cap s3 (pg_cursor page) (pg_latest_block_timestamp page)
    (bool_decide (ga_unapplied g = [])) now wall Hcap) as H1.
  destruct (persist_progress _ _ s3) as [u s4]. exact H1.
Qed.

Lemma drain_pages_moves cfg cap clock todo eff pinned stats s :
  (∀ n, 0 ≤ sat_add_u64 (clock n).2 (lc_chain_ts_drift_tolerance_secs cfg) ≤ cap) →
  moves cfg cap s
    (drain_pages tx_string address_string config cfg clock todo eff pinned stats s).2.
Proof.
  intros Hcap. assert (0 ≤ cap) by (specialize (Hcap O); lia).
  revert eff pinned stats s. induction todo as [|todo IH]; intros eff pinned stats s; simpl.
  { by apply moves_still. }
  unfold mbind at 1, L_bind at 1. destruct (source_get _ _ _) as [[page|e] src]; simpl.
  2:{ by apply moves_still. }
  unfold mbind at 1, L_bind at 1, modify at 1.
  set (s1 := set_health _ _ _ _). apply (moves_trans _ _ _ s1); [done|by apply moves_still|].
  pose proof (Hcap (do_pages stats)) as Hc. destruct (clock (do_pages stats)) as [now wall].
  unfold mbind at 1, L_bind at 1.
  pose proof (drain_page_moves cfg cap now wall page stats s1 Hc) as H1.
  destruct (drain_page _ _ _ _ _ _ _ _ s1) as [[ended stats'] s2]. simpl in *.
  eapply moves_trans; [done|exact H1|]. destruct ended; [by apply moves_still..|apply IH].
Qed.

Lemma progress_forget b : frames progress (forget_before b).
Proof. by intros s. Qed.

Lemma drain_once_moves cfg cap clock s :
  (∀ n, 0 ≤ sat_add_u64 (clock n).2 (lc_chain_ts_drift_tolerance_secs cfg) ≤ cap) →
  moves cfg cap s (drain_once tx_string address_string config cfg clock s).2.
Proof.
  intros Hcap. unfold drain_once, mbind, L_bind.
  pose proof (progress_forget (cu_block (effective_cursor (ls_cursor s)
    (lc_reorg_buffer_blocks cfg))) s) as Hf.
  destruct (forget_before _ s) as [u s1]. simpl in Hf.
  apply (moves_trans _ _ _ s1); [specialize (Hcap O); lia|by apply moves_still|].
  by apply drain_pages_moves.
Qed.

(** C8: a drain only moves forward in what the listener holds.  Whatever the
    subgraph, the registry, the chain and the queue answer, neither its cursor nor
    the chain time it remembers as recorded moves back; without the bypass that
    time never passes the wall clock by more than the tolerance; and every cursor
    it sends to the database is one the drain had reached, no older than the one
    it started from, with a time no older than the one remembered at the start,
    so a restart from any of them reads every change again that was not yet
    passed.  The recorded row itself is not bounded here: a write whose reply was
    lost can leave it ahead of what the listener remembers until the next one. *)
Theorem drain_moves_forward cfg cap clock s r s' :
  (∀ n, 0 ≤ sat_add_u64 (clock n).2 (lc_chain_ts_drift_tolerance_secs cfg) ≤ cap) →
  drain_once tx_string address_string config cfg clock s = (r, s') →
  cursor_le (ls_cursor s) (ls_cursor s') ∧ ts_le (ls_ts s) (ls_ts s') ∧
  (lc_bypass_chain_clock_defenses cfg = false →
   ts_le (ls_ts s') (Some (Z.max (default 0 (ls_ts s)) cap))) ∧
  ∃ ws, ls_writes s' = ls_writes s ++ ws ∧
    ∀ c ts, (c, ts) ∈ ws → cursor_le (ls_cursor s) c ∧ cursor_le c (ls_cursor s') ∧
      ts_le (ls_ts s) ts.
Proof.
  intros Hcap Hr. pose proof (drain_once_moves cfg cap clock s Hcap) as H.
  rewrite Hr in H. by destruct H.
Qed.

(** ** Live checks *)

Definition checks_view (s : LState) := (ls_queued s, ls_checks s).

Lemma checks_of_own {A} (m : L A) : frames own m → frames checks_view m.
Proof. intros H s. exact (f_equal snd (H s)). Qed.

(** Every check made is remembered, down to block [b]. *)
Definition remembers (b : Z) (s : LState) : Prop :=
  NoDup (ls_checks s) ∧ ∀ ch, ch ∈ ls_checks s → b ≤ ch.2 → ch ∈ ls_queued s.

Lemma remembers_view b s s' : checks_view s' = checks_view s → remembers b s → remembers b s'.
Proof. unfold checks_view, remembers. by intros [= -> ->]. Qed.

Lemma remembers_weaken b b' s : b ≤ b' → remembers b s → remembers b' s.
Proof. intros Hb [H1 H2]. split; [done|]. intros ch Hc Hl. apply H2; [done|lia]. Qed.

Lemma remembers_check b sn s :
  b ≤ sn_last_state_change_block sn → remembers b s → remembers b (queue_live_check sn s).2.
Proof.
  intros Hb [H1 H2]. unfold queue_live_check. case_bool_decide as Hq; [done|].
  destruct (push_live_check _ _ _) as [[] q]; simpl; [|done]. split; simpl.
  - apply NoDup_app. split; [done|]. split; [|apply NoDup_singleton].
    intros ch Hch Heq%list_elem_of_singleton. subst ch. by apply Hq, H2.
  - intros ch [Hch|Hch%list_elem_of_singleton]%elem_of_app Hl; [|set_solver].
    apply elem_of_union_r. by apply H2.
Qed.

Lemma remembers_prepare b sn a s :
  b ≤ sn_last_state_change_block sn → remembers b s →
  remembers b (prepare_reconciliation address_string sn a s).2.
Proof.
  intros Hb Hs. destruct a as [a|]; [|done]. destruct (own_records sn a) as [H1 H2].
  apply checks_of_own in H1, H2. unfold prepare_reconciliation, and_then at 1.
  unfold mbind at 1, L_bind at 1.
  set (m := if ended_but_accepted sn a then queue_live_check sn else mret (Ok tt)).
  assert (Hm : remembers b (m s).2) by (unfold m; case_match; [by apply remembers_check|done]).
  destruct (m s) as [[u|e] s1]; [|done]. simpl in Hm.
  eapply remembers_view; [|exact Hm].
  apply own_and_then; [done|]. intros _. case_match; [apply frames_ret|].
  case_match; [|apply frames_ret]. apply own_and_then; [done|intros; apply frames_ret].
Qed.

Lemma remembers_prepare_each b sns by_id g s :
  (∀ sn, sn ∈ sns → b ≤ sn_last_state_change_block sn) → remembers b s →
  remembers b (prepare_each address_string sns by_id g s).2.
Proof.
  revert by_id g s. induction sns as [|sn sns IH]; intros by_id g s Hb Hs; simpl; [done|].
  unfold mbind at 1, L_bind at 1.
  pose proof (checks_of_own _ own_try_recv s) as Ht. destruct (try_recv s) as [[] s1]; simpl in Ht.
  { by eapply remembers_view. }
  unfold mbind at 1, L_bind at 1.
  assert (Hp : remembers b (prepare_reconciliation address_string sn
    (by_id !! sn_agreement_id sn) s1).2).
  { apply remembers_prepare; [apply Hb; by left|by eapply remembers_view]. }
  destruct (prepare_reconciliation _ _ _ s1) as [r s2]. apply IH; [|done].
  intros sn' Hin. apply Hb. by right.
Qed.

Lemma remembers_reconcile_page b sns s :
  (∀ sn, sn ∈ sns → b ≤ sn_last_state_change_block sn) → remembers b s →
  remembers b (reconcile_page address_string sns s).2.
Proof.
  intros Hb Hs. unfold reconcile_page. unfold mbind at 1, L_bind at 1.
  pose proof (checks_of_own _ (own_reg (reg_get_by_ids (sn_agreement_id <$> sns))) s) as H1.
  destruct (reg _ s) as [found s1]. simpl in H1.
  unfold mbind at 1, L_bind at 1.
  set (m := match found with Ok _ => _ | Err _ => _ end).
  assert (Hm : remembers b (m s1).2).
  { unfold m. destruct found; apply remembers_prepare_each; try done; by eapply remembers_view. }
  destruct (m s1) as [[[] g] s2]; [done|]. simpl in *.
  eapply remembers_view; [|exact Hm]. apply checks_of_own.
  apply frames_bind; [|intros; apply frames_ret].
  unfold apply_gathered. cbv zeta. case_match; auto with listener.
Qed.

Lemma checks_persist cfg p : frames checks_view (persist_progress cfg p).
Proof.
  unfold persist_progress. destruct (pr_write p) as [[c t]|]; [|by intros s].
  apply frames_bind; [by intros s|]. intros _.
  apply frames_bind; [apply checks_of_own, own_reg|]. intros w s. done.
Qed.

Lemma remembers_page b cfg now wall page stats s :
  (∀ sn, sn ∈ pg_snapshots page → b ≤ sn_last_state_change_block sn) → remembers b s →
  remembers b (drain_page tx_string address_string config cfg now wall page stats s).2.
Proof.
  intros Hb Hs. unfold drain_page, note_head. unfold mbind at 1, L_bind at 1, modify at 1.
  set (s1 := if (_ =? _)%nat then _ else _).
  assert (H1 : remembers b s1) by (unfold s1; by case_match).
  clearbody s1. clear Hs s. unfold mbind at 1, L_bind at 1.
  pose proof (remembers_reconcile_page b (pg_snapshots page) s1 Hb H1) as H2.
  destruct (reconcile_page _ _ s1) as [[g [outs|]] s2]; [|done]. simpl in H2.
  eapply remembers_view; [|exact H2].
  apply frames_bind; [apply checks_of_own, own_finalize_each|]. intros counts.
  apply frames_bind; [apply frames_read|]. intros pr.
  apply frames_bind; [apply checks_persist|]. intros _. apply frames_ret.
Qed.

(** The loop goes on only after the cursor moved to the page's. *)
Lemma drain_page_next cfg now wall page stats (s : LState) stats' (s' : LState) :
  drain_page tx_string address_string config cfg now wall page stats s =
    ((PageContinue, stats'), s') →
  ls_cursor s' = pg_cursor page.
Proof.
  unfold drain_page, mbind, L_bind. destruct (note_head _ _ s) as [u s1].
  destruct (reconcile_page _ _ s1) as [[g [outs|]] s2]; [|done].
  destruct (finalize_each _ _ _ _ _ _ _ s2) as [counts s3].
  destruct (persist_progress _ _ s3) as [u' s4] eqn:Hp. unfold mret, L_ret.
  intros [= H _ ->].
  assert (Ha : pr_advance (page_progress cfg (ls_cursor s3) (ls_hold s3) (ls_ts s3)
    (pg_cursor page) (pg_latest_block_timestamp page) (bool_decide (ga_unapplied g = []))
    now wall) = true).
  { destruct (pr_advance _); [done|]. by simpl in H. }
  assert (Hc : ∀ p, (persist_progress cfg p s3).2 = s' → ls_cursor s' = pr_cursor p).
  { intros p <-. unfold persist_progress. destruct (pr_write p) as [[c t]|]; [|done].
    unfold mbind, L_bind, modify. by destruct (reg _ _) as [[] ?]. }
  rewrite (Hc _ (f_equal snd Hp)). revert Ha. unfold page_progress.
  destruct (if bool_decide _ then _ else _) as [skip h]. simpl. by intros ->.
Qed.

(** The subgraph returns rows past the cursor asked for. *)
Definition source_past : Prop := ∀ c pinned (src : E) page src',
  source_get c pinned src = (Ok page, src') →
  ∀ sn, sn ∈ pg_snapshots page → cursor_lt c (snapshot_cursor sn).

Lemma cursor_lt_block a b : cursor_lt a b → cu_block a ≤ cu_block b.
Proof. intros H%cursor_lt_le%cursor_le_spec. lia. Qed.

Lemma remembers_pages b cfg cap clock todo eff pinned stats s :
  source_past →
  (∀ n, 0 ≤ sat_add_u64 (clock n).2 (lc_chain_ts_drift_tolerance_secs cfg) ≤ cap) →
  b ≤ cu_block eff → b ≤ cu_block (ls_cursor s) → remembers b s →
  remembers b (drain_pages tx_string address_string config cfg clock todo eff pinned stats s).2.
Proof.
  intros Hsrc Hcap. revert eff pinned stats s.
  induction todo as [|todo IH]; intros eff pinned stats s He Hb Hs; simpl; [done|].
  unfold mbind at 1, L_bind at 1.
  destruct (source_get eff pinned (ls_source s)) as [[page|e] src] eqn:Hget; simpl; [|done].
  unfold mbind at 1, L_bind at 1, modify at 1. set (s1 := set_health _ _ _ _).
  assert (H1 : remembers b s1) by done.
  assert (Hc1 : ls_cursor s1 = ls_cursor s) by done. clearbody s1.
  pose proof (Hcap (do_pages stats)) as Hc. destruct (clock (do_pages stats)) as [now wall].
  unfold mbind at 1, L_bind at 1.
  assert (H2 : remembers b (drain_page tx_string address_string config cfg now wall page stats s1).2).
  { apply remembers_page; [|done]. intros sn Hsn.
    pose proof (cursor_lt_block _ _ (Hsrc _ _ _ _ _ Hget sn Hsn)). simpl in *. lia. }
  pose proof (drain_page_moves cfg cap now wall page stats s1 Hc) as [Hle _ _ _].
  destruct (drain_page _ _ _ _ _ _ _ _ s1) as [[ended stats'] s2] eqn:Hd. simpl in *.
  apply cursor_le_spec in Hle. destruct ended; [done..|].
  pose proof (drain_page_next _ _ _ _ _ _ _ _ Hd) as Hn.
  apply IH; [rewrite <-Hn| |done]; rewrite Hc1 in Hle; lia.
Qed.

Lemma effective_block cfg c :
  0 ≤ lc_reorg_buffer_blocks cfg →
  cu_block (effective_cursor c (lc_reorg_buffer_blocks cfg)) ≤ cu_block c.
Proof. intros H. unfold effective_cursor, sat_sub. case_match; simpl; lia. Qed.

Lemma effective_mono cfg c c' :
  lc_reorg_buffer_blocks cfg = 0 ∨ 0 < lc_reorg_buffer_blocks cfg < cu_block c →
  cursor_le c c' →
  cu_block (effective_cursor c (lc_reorg_buffer_blocks cfg)) ≤
  cu_block (effective_cursor c' (lc_reorg_buffer_blocks cfg)).
Proof.
  intros H Hle%cursor_le_spec. unfold effective_cursor, sat_sub.
  repeat case_match; simpl; lia.
Qed.

(** The drains of successive polls. *)
Fixpoint run_drains (cfg : ListenerConfig) (clocks : list (nat → Z * Z)) (s : LState) : LState :=
  match clocks with
  | [] => s
  | clock :: rest =>
      run_drains cfg rest (drain_once tx_string address_string config cfg clock s).2
  end.

(** A change is checked once.  Over any number of drains, although the
    reorg buffer and a held cursor make them read a change again and again,
    the chain check of an agreement dipper ended is queued at most once per
    change, provided the cursor is past the reorg buffer. *)
Theorem live_checks_once cfg cap clocks s :
  source_past →
  (∀ clock n, clock ∈ clocks →
     0 ≤ sat_add_u64 (clock n).2 (lc_chain_ts_drift_tolerance_secs cfg) ≤ cap) →
  lc_reorg_buffer_blocks cfg = 0 ∨ 0 < lc_reorg_buffer_blocks cfg < cu_block (ls_cursor s) →
  ls_checks s = [] →
  NoDup (ls_checks (run_drains cfg clocks s)).
Proof.
  intros Hsrc Hcap Hbuf Hnil.
  assert (Hs : remembers (cu_block (effective_cursor (ls_cursor s) (lc_reorg_buffer_blocks cfg))) s).
  { split; rewrite Hnil; [constructor|]. intros ch Hin. by apply elem_of_nil in Hin. }
  clear Hnil. revert s Hbuf Hs. induction clocks as [|clock clocks IH]; intros s Hbuf Hs;
    [apply Hs|]. simpl.
  assert (Hc : ∀ n, 0 ≤ sat_add_u64 (clock n).2 (lc_chain_ts_drift_tolerance_secs cfg) ≤ cap)
    by (intros n; apply Hcap; by left).
  pose proof (drain_once_moves cfg cap clock s Hc) as [Hle _ _ _].
  apply IH.
  - intros clock' n Hin. apply Hcap. by right.
  - apply cursor_le_spec in Hle. lia.
  - eapply remembers_weaken; [by apply effective_mono|].
    unfold drain_once, mbind, L_bind.
    apply (remembers_pages _ cfg cap); [done|done|done| |].
    + simpl. apply effective_block. lia.
    + destruct Hs as [H1 H2]. split; [done|]. intros ch Hin Hl. simpl.
      apply elem_of_filter. split; [done|]. by apply H2.
Qed.

End drains.

End ChainListenerProps.
