(* ===== verification/ChainReconcile.v ===== *)
(** * Reconciling a page with the registry on Postgres

    The registry of the chain listener on Postgres, and what a page of
    changes does to it: the transitions the listener documents, row by row,
    and that reading a change again settles. *)

From S2P Require Import Prelude Schema Registry RegistryInv RegistryRuns RegistryOps RegistryQueries.
From S2P Require Import Reconciliation CancelDispatch CancelDispatchProps.
From S2P Require Import ChainEvents ChainEventsProps ChainListener ChainListenerProps.
Import Schema Registry RegistryInv RegistryRuns RegistryOps RegistryQueries Reconciliation.
Import CancelDispatch CancelDispatchProps ChainEvents ChainEventsProps ChainListener.
Import ChainListenerProps.
Local Open Scope Z_scope.

Module ChainReconcile.

(** ** The registry provider (bin/dipper-service/src/registry.rs) *)

(** [IndexingAgreement::try_from]: a status the service does not know is
    refused, and the provider leaves such an agreement out. *)
Definition known_agreement (a : IndexingAgreement) : option IndexingAgreement :=
  if bool_decide (ia_status a = UnknownStatus) then None else Some a.

Definition known_agreements (m : gmap N IndexingAgreement) : gmap N IndexingAgreement :=
  omap known_agreement m.

#[export] Instance PgListenerRegistry : ListenerRegistry PgState := {|
  reg_get_by_id id := pg_call (λ _, o ← get_indexing_agreement_by_id id;
                                    mret (o ≫= known_agreement));
  reg_get_by_ids ids := pg_call (λ _, m ← get_indexing_agreements_by_ids ids;
                                      mret (known_agreements m));
  reg_apply_batch items := pg_call (λ now, apply_reconciliation_batch now items);
  reg_record_accepted_audit id at_ tx := pg_call (λ _, record_accepted_audit id at_ tx);
  reg_record_accept_and_cancel_audit id at_ tx cat cby ctx :=
    pg_call (λ _, void (record_accept_and_cancel_audit id at_ tx cat cby ctx));
  reg_pending_of id := pg_call (λ _, get_pending_cancellations_by_new_agreement id);
  reg_delete_pending new old := pg_call (λ _, delete_pending_cancellation new old);
  reg_executable_pending limit := pg_call (λ _, list_executable_pending_cancellations limit);
  reg_pending_chain_cancel limit := pg_call (λ _, get_agreements_pending_chain_cancel limit);
  reg_update_listener chain cursor ts :=
    pg_call (λ _, update_chain_listener_state chain (cu_block cursor) (cu_id cursor) ts) |}.

(** ** What the chain makes of a status *)

(** The table of transitions in the module's documentation; [None] for a status and
    a state it has no line for.  A check it queues leaves the status. *)
Definition module_table (status : AgreementStatus) (remote : AgreementState)
    : option AgreementStatus :=
  match status, remote with
  | Created, Accepted | AcceptedOnChain, Accepted | Expired, Accepted => Some AcceptedOnChain
  | Created, CanceledByPayer | AcceptedOnChain, CanceledByPayer | Expired, CanceledByPayer =>
      Some CanceledByRequester
  | Created, CanceledByServiceProvider | AcceptedOnChain, CanceledByServiceProvider
  | Expired, CanceledByServiceProvider => Some CanceledByIndexer
  | Rejected, Accepted => Some Rejected
  | CanceledByRequester, _ => Some CanceledByRequester
  | CanceledByIndexer, _ => Some CanceledByIndexer
  | _, _ => None
  end.

(** What a reading makes of every status.  [went_live] is whether the snapshot has
    an accept time, [abandoned] the row's flag. *)
Definition after_chain (status : AgreementStatus) (remote : AgreementState)
    (went_live abandoned : bool) : AgreementStatus :=
  let ended := if abandoned then AbandonedByIndexer else CanceledByRequester in
  match remote, status with
  | Accepted, Created | Accepted, Expired => AcceptedOnChain
  | CanceledByPayer, Created | CanceledByPayer, AcceptedOnChain
  | CanceledByPayer, Rejected | CanceledByPayer, Cancelling => ended
  | CanceledByPayer, Expired => if went_live then ended else Expired
  | CanceledByServiceProvider, AcceptedOnChain
  | CanceledByServiceProvider, Cancelling => CanceledByIndexer
  | CanceledByServiceProvider, Created => if went_live then CanceledByIndexer else Created
  | CanceledByServiceProvider, Expired => if went_live then CanceledByIndexer else Expired
  | _, _ => status
  end.

Section effect.
Context (address_string : N → string).
Implicit Types (sn : AgreementStateSnapshot) (r : AgreementRow).

Definition live_time sn : bool := negb (sn_accepted_at sn =? 0).

(** What preparing a snapshot writes to its row. *)
Definition prepared_row sn r : AgreementRow :=
  let a := agreement_of_row r in
  if bool_decide (ag_status r = Cancelling) && reached_accepted (sn_state sn) && live_time sn
  then with_accept (as_i64 (sn_accepted_at sn)) (sn_accepted_tx sn) r
  else if already_terminal_cancel a && is_canceled (sn_state sn) && live_time sn
  then with_accept_and_end (as_i64 (sn_accepted_at sn)) (sn_accepted_tx sn)
         (as_i64 (sn_canceled_at sn)) (address_string (sn_canceled_by sn))
         (Some (sn_canceled_tx sn)) r
  else r.

(** What a whole page does to the row of one of its snapshots. *)
Definition effect (now : Z) sn r : AgreementRow :=
  match reconciliation_item address_string sn (agreement_of_row r) with
  | Some i => (reconcile_ref now i (prepared_row sn r)).2
  | None => prepared_row sn r
  end.

(** Every status against every state. *)
Ltac table sn r :=
  destruct (ag_status r) eqn:?, (sn_state sn) eqn:?, (sn_accepted_at sn =? 0) eqn:?; simpl.

Lemma prepared_status sn r :
  ag_status (prepared_row sn r) = ag_status r ∧ ag_abandoned (prepared_row sn r) = ag_abandoned r ∧
  ag_id (prepared_row sn r) = ag_id r.
Proof. unfold prepared_row. case_match; [done|]. by case_match. Qed.

Lemma effect_status now sn r :
  ag_status (effect now sn r) =
  after_chain (ag_status r) (sn_state sn) (live_time sn) (ag_abandoned r).
Proof.
  destruct (prepared_status sn r) as (Hs & Ha & _). unfold effect. set (p := prepared_row sn r) in *.
  clearbody p. unfold reconciliation_item, should_accept, cancel_kind, withdrawn_offer,
    already_terminal_cancel, live_time. simpl.
  table sn r; rewrite ?Heqb; simpl; try done; try congruence.
  all: unfold reconcile_ref, move_ref, accept_if, accept_ref, cancel_ref, status_in; simpl.
  all: rewrite ?Hs; simpl.
  all: rewrite ?Heqa, ?Hs; simpl; try congruence.
  all: try (rewrite Ha; by destruct (ag_abandoned r)).
  all: unfold audit_ref; simpl; congruence.
Qed.

(** A status the chain agrees with is not moved. *)
Lemma effect_fixed now sn r :
  after_chain (ag_status r) (sn_state sn) (live_time sn) (ag_abandoned r) = ag_status r →
  effect now sn r = prepared_row sn r.
Proof.
  destruct (prepared_status sn r) as (Hs & Ha & _). unfold effect. set (p := prepared_row sn r) in *.
  clearbody p. unfold reconciliation_item, should_accept, cancel_kind, withdrawn_offer,
    already_terminal_cancel, live_time. simpl.
  table sn r; rewrite ?Heqb; simpl; try done; destruct (ag_abandoned r); try done; intros _.
  all: unfold reconcile_ref, move_ref, accept_if, accept_ref, cancel_ref, status_in; simpl.
  all: rewrite ?Hs; simpl; rewrite ?Heqa; simpl; unfold audit_ref; simpl; done.
Qed.

Lemma after_chain_idem st remote live ab :
  after_chain (after_chain st remote live ab) remote live ab = after_chain st remote live ab.
Proof. by destruct remote, st, live, ab. Qed.

Lemma with_accept_idem at_ tx r : with_accept at_ tx (with_accept at_ tx r) = with_accept at_ tx r.
Proof. unfold with_accept. destruct r as [? ? ? ? ? ? ? ? ? ? ? ? ? ? ? [] []]; done. Qed.

(** Once an accept is on record another changes nothing. *)
Lemma with_accept_known at_ tx r :
  ag_accepted_at r ≠ None → ag_accepted_tx r ≠ None → with_accept at_ tx r = r.
Proof.
  unfold with_accept. destruct r as [? ? ? ? ? ? ? ? ? ? ? ? ? ? ? [] []]; done.
Qed.

Lemma with_accept_and_end_idem at_ tx cat cby ctx r :
  with_accept_and_end at_ tx cat cby ctx (with_accept_and_end at_ tx cat cby ctx r) =
  with_accept_and_end at_ tx cat cby ctx r.
Proof.
  rewrite !accept_and_end_row. rewrite (with_accept_known at_ tx (with_end _ _ _ _)).
  - apply with_end_idem.
  - unfold with_end. case_match; simpl; by destruct (ag_accepted_at r).
  - unfold with_end. case_match; simpl; by destruct (ag_accepted_tx r).
Qed.

Lemma prepared_row_idem sn r : prepared_row sn (prepared_row sn r) = prepared_row sn r.
Proof.
  destruct (prepared_status sn r) as (Hs & _). unfold prepared_row at 1.
  unfold already_terminal_cancel. simpl. rewrite Hs. unfold prepared_row, already_terminal_cancel.
  simpl. repeat case_match; try done.
  - apply with_accept_idem.
  - apply with_accept_and_end_idem.
Qed.

Lemma effect_abandoned now sn r : ag_abandoned (effect now sn r) = ag_abandoned r.
Proof.
  destruct (prepared_status sn r) as (_ & <- & _). unfold effect. case_match; [|done].
  unfold reconcile_ref, move_ref, accept_if, accept_ref, cancel_ref, audit_ref.
  by repeat case_match; simplify_eq.
Qed.

(** Reading the same change again moves no status, and from the second time
    on writes nothing. *)
Lemma effect_settles now1 now2 now3 sn r :
  let r1 := effect now1 sn r in
  let r2 := effect now2 sn r1 in
  ag_status r2 = ag_status r1 ∧ effect now3 sn r2 = r2.
Proof.
  intros r1 r2.
  assert (H1 : effect now2 sn r1 = prepared_row sn r1).
  { apply effect_fixed. unfold r1. rewrite effect_abandoned, effect_status. apply after_chain_idem. }
  destruct (prepared_status sn r1) as (Hs & Ha & _).
  assert (Hr2 : r2 = prepared_row sn r1) by exact H1. split; [by rewrite Hr2|].
  rewrite effect_fixed; rewrite Hr2; [apply prepared_row_idem|].
  rewrite Hs, Ha. unfold r1. rewrite effect_abandoned, effect_status. apply after_chain_idem.
Qed.

(** The columns of the accept and the end after a move. *)
Lemma effect_audit now sn r :
  let r' := effect now sn r in
  (ag_status r' ≠ ag_status r → is_canceled (sn_state sn) = true →
     ag_canceled_at r' = Some (as_i64 (sn_canceled_at sn)) ∧
     ag_canceled_by r' = Some (address_string (sn_canceled_by sn)) ∧
     ag_canceled_tx r' = Some (sn_canceled_tx sn)) ∧
  (ag_status r' ≠ ag_status r → ag_status r ∈ [Created; Expired] → withdrawn_offer sn = false →
     ag_accepted_at r' = Some (as_i64 (sn_accepted_at sn)) ∧
     ag_accepted_tx r' = Some (sn_accepted_tx sn)).
Proof.
  intros r'. unfold r' at 1 5. rewrite effect_status. unfold r', effect, live_time. clear r'.
  destruct (prepared_status sn r) as (Hs & Ha & _). set (p := prepared_row sn r) in *. clearbody p.
  unfold reconciliation_item, should_accept, cancel_kind, withdrawn_offer,
    already_terminal_cancel. simpl.
  table sn r; rewrite ?Heqb; simpl; try done; try (split; [done|set_solver]).
  all: unfold reconcile_ref, move_ref, accept_if, accept_ref, cancel_ref, status_in; simpl.
  all: rewrite ?Hs; simpl; rewrite ?Heqa, ?Hs; simpl; split; try done; set_solver.
Qed.

End effect.

(** ** A page on Postgres *)

Section page.
Context {C E W : Type} `{!ChainClient C} `{!ChainEventSource E} `{!LiveCheckQueue W}.
Context (address_string : N → string).
Notation LState := (LState PgState C E W).
Notation L := (L PgState C E W).
Notation prepared_row := (prepared_row address_string).
Notation effect := (effect address_string).
Notation item_of := (reconciliation_item address_string).

Definition db (s : LState) : Db := pg_db (st_reg (ls_dispatch s)).
Definition db_now (s : LState) : Z := pg_now (st_reg (ls_dispatch s)).

Lemma pg_call_now {A} (m : Z → DbM A) p a p' : pg_call m p = (a, p') → pg_now p' = pg_now p.
Proof.
  unfold pg_call. destruct (m _ _), (pg_faults _) as [|[] ?]; intros; simplify_eq; done.
Qed.

(** A call that answered ran. *)
Lemma reg_answered {A} (m : Z → DbM A) (s s' : LState) a :
  reg (pg_call m) s = (Ok a, s') → m (db_now s) (db s) = (Ok a, db s') ∧ db_now s' = db_now s.
Proof.
  unfold reg, dispatch, registry, db, db_now.
  destruct (pg_call m (st_reg (ls_dispatch s))) as [a' p] eqn:Hp.
  intros [= -> <-]. simpl. split.
  - by destruct (pg_call_cases m _ _ _ Hp) as [Hc|[? _]].
  - by apply pg_call_now in Hp.
Qed.

Lemma try_recv_db (s : LState) : ls_dispatch (try_recv s).2 = ls_dispatch s.
Proof. unfold try_recv. by destruct (ls_stop s) as [[]|]. Qed.

Lemma live_check_db sn (s : LState) : ls_dispatch (queue_live_check sn s).2 = ls_dispatch s.
Proof.
  unfold queue_live_check. case_bool_decide; [done|]. by destruct (push_live_check _ _ _) as [[] ?].
Qed.

Lemma maybe_check_db sn a (s : LState) :
  ls_dispatch ((if ended_but_accepted sn a then queue_live_check sn else mret (Ok tt)) s).2 =
  ls_dispatch s.
Proof. case_match; [apply live_check_db|done]. Qed.

Lemma keeps_inv {A} (m : DbM A) d r d' :
  (∀ d0, preserves (inv_from d0) m) → reg_inv d → m d = (r, d') → reg_inv d'.
Proof.
  intros Hm Hd Hrun. destruct (Hm d d (conj Hd (db_evolves_refl d))) as [Hk _].
  by rewrite Hrun in Hk.
Qed.

Lemma accepted_audit_rows id at_ tx d d' :
  reg_inv d → record_accepted_audit id at_ tx d = (Ok tt, d') →
  rows (at_id id (with_accept (as_i64 at_) tx)) d d' ∧ reg_inv d'.
Proof.
  intros Hd Hrun. split.
  - unfold record_accepted_audit in Hrun. apply bind_ok in Hrun as (o & d1 & H1 & Hrun).
    injection Hrun as <-. apply update_one_rows in H1; [|done].
    eapply rows_ext; [exact H1|]. intros k r. unfold at_id. by case_bool_decide.
  - eapply keeps_inv; [|exact Hd|exact Hrun]. intros d0. apply audits_inv.
Qed.

Lemma accept_and_cancel_audit_rows id at_ tx cat cby ctx d d' :
  reg_inv d → void (record_accept_and_cancel_audit id at_ tx cat cby ctx) d = (Ok tt, d') →
  rows (at_id id (with_accept_and_end (as_i64 at_) tx (as_i64 cat) cby ctx)) d d' ∧ reg_inv d'.
Proof.
  intros Hd Hrun. split.
  - unfold void in Hrun. apply bind_ok in Hrun as (o & d1 & H1 & Hrun). injection Hrun as <-.
    unfold record_accept_and_cancel_audit in H1. apply bind_ok in H1 as (o1 & d2 & H1 & H2).
    injection H2 as _ <-. unfold update_end in H1. apply bind_ok in H1 as (d3 & d4 & H0 & H1).
    injection H0 as <- <-. apply bind_ok in H1 as (o2 & d5 & H1 & H2). injection H2 as _ <-.
    apply update_one_rows in H1; [|done].
    eapply rows_ext; [exact H1|]. intros k r. unfold at_id. by case_bool_decide.
  - eapply keeps_inv; [|exact Hd|exact Hrun]. intros d0. apply void_inv, audits_inv.
Qed.

(** What a run made of the rows it found. *)
Record wrote (g : N → AgreementRow → AgreementRow) (s s' : LState) : Prop := {
  wr_only : db s' = set_agreements (agreements (db s')) (db s);
  wr_rows : ∀ k, agreements (db s') !! k = g k <$> agreements (db s) !! k;
  wr_inv : reg_inv (db s');
  wr_now : db_now s' = db_now s }.

Lemma wrote_refl s s' : ls_dispatch s' = ls_dispatch s → reg_inv (db s) → wrote (λ _ r, r) s s'.
Proof.
  intros Hd Hi. split; unfold db, db_now in *; rewrite ?Hd; try done.
  - by destruct (pg_db _).
  - intros k. by destruct (_ !! k).
Qed.

Lemma wrote_trans g1 g2 s1 s2 s3 :
  wrote g1 s1 s2 → wrote g2 s2 s3 → wrote (λ k r, g2 k (g1 k r)) s1 s3.
Proof.
  intros [O1 R1 _ N1] [O2 R2 I2 N2]. split; [|intros k|done|congruence].
  - by rewrite O2, O1.
  - rewrite R2, R1. by destruct (agreements (db s1) !! k).
Qed.

(** Only the rows found matter. *)
Lemma wrote_ext g g' s s' :
  wrote g s s' → (∀ k r, agreements (db s) !! k = Some r → g k r = g' k r) → wrote g' s s'.
Proof.
  intros [O R I N] Hg. split; [done| |done|done]. intros k. rewrite R.
  destruct (agreements (db s) !! k) eqn:Hk; [|done]. simpl. by rewrite (Hg k).
Qed.

Lemma wrote_one (m : DbM ()) id f s (s' : LState) :
  (∀ d d', reg_inv d → m d = (Ok tt, d') → rows (at_id id f) d d' ∧ reg_inv d') →
  reg_inv (db s) → reg (pg_call (λ _, m)) s = (Ok tt, s') → wrote (at_id id f) s s'.
Proof.
  intros Hm Hi [Hrun Hn]%reg_answered. destruct (Hm _ _ Hi Hrun) as [(O & R & _) I].
  by split.
Qed.

Lemma and_then_ok {A B} (m : L (result ListenerError A)) (k : A → L (result ListenerError B))
    s b s' :
  and_then m k s = (Ok b, s') → ∃ a s1, m s = (Ok a, s1) ∧ k a s1 = (Ok b, s').
Proof.
  unfold and_then, mbind, L_bind. destruct (m s) as [[a|e] s1]; [|done]. eauto.
Qed.

Lemma try_reg_ok {A B} (m : L (result Error A)) (k : A → L (result ListenerError B)) s b s' :
  try_reg m k s = (Ok b, s') → ∃ a s1, m s = (Ok a, s1) ∧ k a s1 = (Ok b, s').
Proof.
  unfold try_reg, mbind, L_bind. destruct (m s) as [[a|e] s1]; [|done]. eauto.
Qed.

Lemma record_accept_wrote sn r (s s' : LState) :
  reg_inv (db s) → ag_id r = sn_agreement_id sn →
  record_accept_of_cancelling sn (agreement_of_row r) s = (Ok tt, s') →
  wrote (at_id (sn_agreement_id sn) (λ r',
    if bool_decide (ag_status r = Cancelling) && reached_accepted (sn_state sn) && live_time sn
    then with_accept (as_i64 (sn_accepted_at sn)) (sn_accepted_tx sn) r' else r')) s s'.
Proof.
  intros Hi Hid. unfold record_accept_of_cancelling, live_time. simpl.
  rewrite bool_decide_not.
  destruct (bool_decide (ag_status r = Cancelling)), (reached_accepted (sn_state sn)),
    (sn_accepted_at sn =? 0); simpl;
    try (intros [= <-]; eapply wrote_ext; [by apply wrote_refl|];
         intros k q _; unfold at_id; by case_bool_decide).
  intros (u & s1 & H & Hr)%try_reg_ok. injection Hr as <-. destruct u. rewrite Hid in H.
  eapply wrote_one in H; [exact H| |done]. intros d d'. apply accepted_audit_rows.
Qed.

Lemma record_end_wrote sn r (s s' : LState) :
  reg_inv (db s) → ag_id r = sn_agreement_id sn →
  record_accept_and_cancel_from_chain address_string sn (agreement_of_row r) s = (Ok tt, s') →
  wrote (at_id (sn_agreement_id sn) (λ r', if live_time sn
    then with_accept_and_end (as_i64 (sn_accepted_at sn)) (sn_accepted_tx sn)
           (as_i64 (sn_canceled_at sn)) (address_string (sn_canceled_by sn))
           (Some (sn_canceled_tx sn)) r' else r')) s s'.
Proof.
  intros Hi Hid. unfold record_accept_and_cancel_from_chain, live_time. simpl.
  destruct (sn_accepted_at sn =? 0); simpl.
  { intros [= <-]. eapply wrote_ext; [by apply wrote_refl|].
    intros k q _. unfold at_id. by case_bool_decide. }
  intros (u & s1 & H & Hr)%try_reg_ok. injection Hr as <-. destruct u. rewrite Hid in H.
  eapply wrote_one in H; [exact H| |done]. intros d d'. apply accept_and_cancel_audit_rows.
Qed.

(** Preparing a snapshot of the agreement as the registry holds it. *)
Lemma prepare_wrote sn r (s : LState) o s' :
  reg_inv (db s) → agreements (db s) !! sn_agreement_id sn = Some r →
  prepare_reconciliation address_string sn (Some (agreement_of_row r)) s = (Ok o, s') →
  wrote (at_id (sn_agreement_id sn) (prepared_row sn)) s s' ∧
  o = (λ i, mkPrepared i (agreement_of_row r) (sn_indexer sn)) <$> item_of sn (agreement_of_row r).
Proof.
  intros Hi Hr. pose proof (inv_key _ Hi _ _ Hr) as Hid. unfold prepare_reconciliation.
  intros (u & s1 & H1 & H)%and_then_ok.
  assert (W1 : wrote (λ _ r, r) s s1).
  { apply wrote_refl; [|done]. pose proof (maybe_check_db sn (agreement_of_row r) s) as Hl.
    by rewrite H1 in Hl. }
  apply and_then_ok in H as (u2 & s2 & H2 & H). destruct u2.
  pose proof (record_accept_wrote sn r s1 s2 (wr_inv _ _ _ W1) Hid H2) as W2.
  pose proof (wrote_trans _ _ _ _ _ W1 W2) as W12. clear W1 W2 H1 H2.
  assert (Hat : ∀ f, (∀ q, q = r → f q = prepared_row sn q) →
    ∀ k q, agreements (db s) !! k = Some q →
      at_id (sn_agreement_id sn) f k q = at_id (sn_agreement_id sn) (prepared_row sn) k q).
  { intros f Hf k q Hq. unfold at_id.
    destruct (bool_decide_reflect (k = sn_agreement_id sn)) as [->|]; [|done].
    apply Hf. congruence. }
  destruct (item_of sn (agreement_of_row r)) as [i|] eqn:Hitem.
  - injection H as <- <-. split; [|done]. eapply wrote_ext; [exact W12|]. simpl.
    apply Hat. intros q ->. unfold ChainReconcile.prepared_row.
    destruct (bool_decide (ag_status r = Cancelling) && reached_accepted (sn_state sn)
              && live_time sn); [done|].
    destruct (already_terminal_cancel (agreement_of_row r)) eqn:Ht; [|done].
    exfalso. revert Hitem. unfold reconciliation_item, cancel_kind, should_accept.
    rewrite Ht, andb_false_r. unfold already_terminal_cancel in Ht. simpl in *.
    by destruct (ag_status r).
  - destruct (already_terminal_cancel (agreement_of_row r) && is_canceled (sn_state sn)) eqn:Ht.
    + apply and_then_ok in H as (u3 & s3 & H3 & H). injection H as <- <-. destruct u3.
      split; [|done]. pose proof (record_end_wrote sn r s2 s3 (wr_inv _ _ _ W12) Hid H3) as W3.
      eapply wrote_ext; [exact (wrote_trans _ _ _ _ _ W12 W3)|].
      intros k q Hq. unfold at_id.
      destruct (bool_decide_reflect (k = sn_agreement_id sn)) as [->|]; [|done]. simplify_eq.
      unfold ChainReconcile.prepared_row. rewrite Ht.
      apply andb_true_iff in Ht as [Ht _]. unfold already_terminal_cancel in Ht. simpl in Ht.
      by destruct (ag_status r), (live_time sn).
    + injection H as <- <-. split; [|done]. eapply wrote_ext; [exact W12|]. simpl.
      apply Hat. intros q ->. unfold ChainReconcile.prepared_row. by rewrite Ht.
Qed.

Fixpoint find_sn (sns : list AgreementStateSnapshot) (k : N) : option AgreementStateSnapshot :=
  match sns with
  | [] => None
  | sn :: rest => if bool_decide (sn_agreement_id sn = k) then Some sn else find_sn rest k
  end.

Lemma find_sn_Some sns k sn : find_sn sns k = Some sn → sn ∈ sns ∧ sn_agreement_id sn = k.
Proof.
  induction sns as [|x sns IH]; simpl; [done|]. case_bool_decide.
  - intros [= <-]. split; [by left|done].
  - intros [? ?]%IH. split; [by right|done].
Qed.

Lemma find_sn_None sns k : k ∉ sn_agreement_id <$> sns → find_sn sns k = None.
Proof.
  intros H. destruct (find_sn sns k) as [sn|] eqn:Ef; [|done].
  apply find_sn_Some in Ef as [Hin <-]. destruct H. by apply list_elem_of_fmap_2.
Qed.

Lemma prepared_unknown sn r : ag_status r = UnknownStatus → prepared_row sn r = r.
Proof.
  intros H. unfold ChainReconcile.prepared_row, already_terminal_cancel. simpl. by rewrite H.
Qed.

Lemma omap_agree {A B} (f g : A → option B) (l : list A) :
  (∀ x, x ∈ l → f x = g x) → omap f l = omap g l.
Proof.
  induction l as [|x l IH]; intros H; [done|]. csimpl. rewrite (H x) by by left.
  rewrite IH; [done|]. intros y Hy. apply H. by right.
Qed.

(** The agreement of row [k] as the provider gives it. *)
Definition provided (d : Db) (k : N) : option IndexingAgreement :=
  agreements d !! k ≫= λ r, known_agreement (agreement_of_row r).

Definition prepared_of (by_id : gmap N IndexingAgreement) (sn : AgreementStateSnapshot)
    : option PreparedReconciliation :=
  a ← by_id !! sn_agreement_id sn;
  (λ i, mkPrepared i a (sn_indexer sn)) <$> item_of sn a.

Lemma prepare_one_wrote sn (s : LState) o s' :
  reg_inv (db s) →
  prepare_reconciliation address_string sn (provided (db s) (sn_agreement_id sn)) s = (Ok o, s') →
  wrote (at_id (sn_agreement_id sn) (prepared_row sn)) s s' ∧
  o = (a ← provided (db s) (sn_agreement_id sn);
       (λ i, mkPrepared i a (sn_indexer sn)) <$> item_of sn a).
Proof.
  intros Hi. unfold provided.
  destruct (agreements (db s) !! sn_agreement_id sn) as [r|] eqn:Hr; simpl.
  - unfold known_agreement. case_bool_decide as Hu; simpl; [|by apply prepare_wrote].
    intros [= <- <-]. split; [|done]. eapply wrote_ext; [by apply wrote_refl|].
    intros k q Hq. unfold at_id.
    destruct (bool_decide_reflect (k = sn_agreement_id sn)) as [->|]; [|done]. simplify_eq.
    by rewrite prepared_unknown.
  - intros [= <- <-]. split; [|done]. eapply wrote_ext; [by apply wrote_refl|].
    intros k q Hq. unfold at_id.
    destruct (bool_decide_reflect (k = sn_agreement_id sn)) as [->|]; [congruence|done].
Qed.

Lemma unapplied_grows sns by_id g (s : LState) stopped g' s' :
  prepare_each address_string sns by_id g s = ((stopped, g'), s') →
  ga_unapplied g' = [] → ga_unapplied g = [].
Proof.
  revert by_id g s. induction sns as [|x sns IH]; intros by_id g s; simpl; [by intros [= _ -> _]|].
  unfold mbind at 1, L_bind at 1. destruct (try_recv s) as [[] s1]; [by intros [= _ -> _]|].
  unfold mbind, L_bind. destruct (prepare_reconciliation _ _ _ s1) as [[[o|]|e] s2];
    intros H Hu; apply IH in H; try done. simpl in H. by destruct (ga_unapplied g).
Qed.

Lemma prepare_each_wrote sns by_id g (s : LState) g' s' :
  reg_inv (db s) → NoDup (sn_agreement_id <$> sns) →
  (∀ sn, sn ∈ sns → by_id !! sn_agreement_id sn = provided (db s) (sn_agreement_id sn)) →
  prepare_each address_string sns by_id g s = ((false, g'), s') → ga_unapplied g' = [] →
  ga_unapplied g = [] ∧
  wrote (λ k r, from_option (λ sn, prepared_row sn r) r (find_sn sns k)) s s' ∧
  ga_prepared g' = ga_prepared g ++ omap (prepared_of by_id) sns.
Proof.
  revert by_id g s. induction sns as [|sn sns IH]; intros by_id g s Hi Hnd Hby; simpl.
  { intros [= <- <-] Hu. split; [done|]. split; [by apply wrote_refl|by rewrite app_nil_r]. }
  unfold mbind at 1, L_bind at 1. pose proof (try_recv_db s) as Ht.
  destruct (try_recv s) as [[] s1]; [done|]. simpl in Ht.
  assert (Hdb : db s1 = db s) by (unfold db; by rewrite Ht).
  unfold mbind at 1, L_bind at 1.
  rewrite (Hby sn) by by left. rewrite <-Hdb.
  destruct (prepare_reconciliation _ _ _ s1) as [r s2] eqn:Hp. intros H Hu.
  apply NoDup_cons in Hnd as [Hn Hnd].
  assert (Hstep : ∀ o, r = Ok o → wrote (at_id (sn_agreement_id sn) (prepared_row sn)) s s2 ∧
    o = prepared_of by_id sn).
  { intros o ->. apply prepare_one_wrote in Hp as [W1 ->]; [|by rewrite Hdb]. split.
    - apply (wrote_ext (λ k q, at_id (sn_agreement_id sn) (prepared_row sn) k ((λ _ q, q) k q)));
        [|done]. eapply wrote_trans; [by apply wrote_refl|done].
    - unfold prepared_of. by rewrite (Hby sn), Hdb by by left. }
  destruct r as [o|e].
  2:{ apply unapplied_grows in H; [|done]. simpl in H. by destruct (ga_unapplied g). }
  destruct (Hstep o eq_refl) as [W1 Ho]. clear Hstep.
  apply IH in H as (Hu1 & W2 & Hprep); [|by apply (wr_inv _ _ _ W1)|done| |done].
  - split; [by destruct o|]. split.
    + eapply wrote_ext; [exact (wrote_trans _ _ _ _ _ W1 W2)|]. intros k q Hq. simpl. unfold at_id.
      destruct (bool_decide_reflect (k = sn_agreement_id sn)) as [->|Hne].
      * rewrite find_sn_None by done. by rewrite bool_decide_eq_true_2.
      * by rewrite bool_decide_eq_false_2.
    + rewrite Hprep. csimpl. rewrite <-Ho. rewrite (omap_agree _ (prepared_of by_id)).
      * by destruct o; simpl; rewrite <-?app_assoc.
      * intros x Hx. unfold prepared_of. rewrite lookup_delete_ne; [done|].
        intros Heq. apply Hn. rewrite Heq. by apply list_elem_of_fmap_2.
  - intros x Hx. assert (Hne : sn_agreement_id x ≠ sn_agreement_id sn).
    { intros Heq. apply Hn. rewrite <-Heq. by apply list_elem_of_fmap_2. }
    rewrite lookup_delete_ne by done. rewrite (Hby x) by by right. unfold provided.
    rewrite (wr_rows _ _ _ W1). unfold at_id. rewrite bool_decide_eq_false_2 by done.
    by destruct (agreements (db s) !! sn_agreement_id x).
Qed.

Lemma by_ids_provided ids d m d' k :
  reg_inv d → (m ← get_indexing_agreements_by_ids ids; mret (known_agreements m)) d = (Ok m, d') →
  d' = d ∧ (k ∈ ids → m !! k = provided d k).
Proof.
  intros Hd Hrun. apply bind_ok in Hrun as (m0 & d0 & H0 & Hrun). injection Hrun as <- <-.
  unfold get_indexing_agreements_by_ids in H0. destruct ids as [|i ids].
  { injection H0 as <- <-. split; [done|]. intros H. by apply elem_of_nil in H. }
  unfold agreements_where in H0. apply bind_ok in H0 as (rows & d1 & H0 & H1).
  injection H1 as <- <-. injection H0 as <- <-. split; [done|]. intros Hk.
  unfold known_agreements, provided. rewrite lookup_omap.
  set (l := (λ r, (ag_id r, agreement_of_row r)) <$> _).
  assert (Hl : ∀ a, (k, a) ∈ l ↔ ∃ r, agreements d !! k = Some r ∧ a = agreement_of_row r).
  { intros a. unfold l. rewrite list_elem_of_fmap. split.
    - intros (r & [= -> ->] & (k' & Hr & _)%elem_of_select).
      rewrite (inv_key _ Hd _ _ Hr). eauto.
    - intros (r & Hr & ->). exists r. rewrite (inv_key _ Hd _ _ Hr). split; [done|].
      apply elem_of_select. exists k. split; [done|].
      rewrite (inv_key _ Hd _ _ Hr). by apply bool_decide_eq_true_2. }
  destruct (agreements d !! k) as [r|] eqn:Hr; simpl.
  - rewrite (elem_of_list_to_map_1' l k (agreement_of_row r)); [done| |].
    + intros y Hy. apply Hl in Hy as (r' & [= ->] & ->). done.
    + apply Hl. eauto.
  - rewrite not_elem_of_list_to_map_1; [done|].
    intros ((k' & a) & -> & Ha)%list_elem_of_fmap. apply Hl in Ha as (r' & Hr' & _). congruence.
Qed.

Lemma by_ids_reads ids (s : LState) r s' :
  reg (reg_get_by_ids ids) s = (r, s') → reg_inv (db s) →
  db s' = db s ∧ db_now s' = db_now s ∧
  ∀ m, r = Ok m → ∀ k, k ∈ ids → m !! k = provided (db s) k.
Proof.
  intros Hrun Hi. assert (Hread : ∀ d,
    ((m ← get_indexing_agreements_by_ids ids; mret (known_agreements m)) d).2 = d).
  { intros d. by destruct ids. }
  pose proof Hrun as Hrun'. revert Hrun. unfold reg, dispatch, registry, db, db_now. simpl.
  destruct (pg_call _ _) as [a p] eqn:Hp. intros [= -> <-]. simpl. split; [|split].
  - apply pg_call_cases in Hp as [Hc|[_ [->| ->]]]; [|done|apply Hread].
    specialize (Hread (pg_db (st_reg (ls_dispatch s)))). by rewrite Hc in Hread.
  - by apply pg_call_now in Hp.
  - intros m ->. intros k Hk.
    destruct (reg_answered (λ _, m ← get_indexing_agreements_by_ids ids; mret (known_agreements m))
      _ _ _ Hrun') as [Hq _].
    by apply (by_ids_provided ids (db s) m _ k Hi Hq).
Qed.

Lemma items_of m sns :
  (∀ sn p, sn ∈ sns → prepared_of m sn = Some p →
     ri_agreement_id (pp_item p) = sn_agreement_id sn) →
  NoDup (sn_agreement_id <$> sns) →
  let items := pp_item <$> omap (prepared_of m) sns in
  NoDup (item_ids items) ∧ (∀ k, k ∈ item_ids items → k ∈ sn_agreement_id <$> sns) ∧
  ∀ k, find_item items k = (sn ← find_sn sns k; pp_item <$> prepared_of m sn).
Proof.
  intros Hid. induction sns as [|sn sns IH]; [by repeat constructor|].
  intros [Hn Hnd]%NoDup_cons. destruct IH as (I1 & I2 & I3); [set_solver|done|].
  specialize (Hid sn). csimpl. destruct (prepared_of m sn) as [p|] eqn:Hp; csimpl.
  - specialize (Hid p ltac:(by left) eq_refl). split_and!.
    + unfold item_ids in *. csimpl. rewrite Hid. apply NoDup_cons. split; [|done].
      intros Hin. by apply Hn, I2.
    + intros k. unfold item_ids in *. csimpl. rewrite Hid, !elem_of_cons. naive_solver.
    + intros k. rewrite Hid. case_bool_decide as Hk; [csimpl; by rewrite Hp|apply I3].
  - split_and!; [done|intros k Hk; right; by apply I2|].
    intros k. case_bool_decide as Hk; [|apply I3]. csimpl. rewrite Hp. simpl.
    rewrite I3, find_sn_None; [done|]. by rewrite <-Hk.
Qed.

(** What applying the page does, once it was prepared. *)
Lemma apply_gathered_rows (s : LState) g g' outs s' :
  reg_inv (db s) → NoDup (item_ids (pp_item <$> ga_prepared g)) →
  apply_gathered g s = ((g', outs), s') → ga_unapplied g' = [] →
  wrote (λ k r, from_option (λ i, (reconcile_ref (db_now s) i r).2) r
           (find_item (pp_item <$> ga_prepared g) k)) s s'.
Proof.
  intros Hi Hnd. unfold apply_gathered. cbv zeta.
  destruct (pp_item <$> ga_prepared g) as [|i items] eqn:Hit.
  { intros [= <- <- <-] _. by apply wrote_refl. }
  unfold mbind, L_bind. destruct (reg _ s) as [[o|e] s1] eqn:Hr.
  2:{ intros [= <- <- <-]. simpl. by destruct (ga_unapplied g). }
  intros [= <- <- <-] _.
  destruct (reg_answered (λ now, apply_reconciliation_batch now (i :: items)) _ _ _ Hr)
    as [Hrun Hn].
  destruct (batch_rowwise _ _ _ _ _ Hi Hnd Hrun) as [Ho Hrows]. split; [done| | |done].
  - intros k. specialize (Hrows k). destruct (find_item (i :: items) k) as [j|]; [by destruct Hrows|].
    destruct Hrows as [-> _]. by destruct (agreements (db s) !! k).
  - eapply keeps_inv; [|exact Hi|exact Hrun]. intros d0. apply reconcile_batch_inv.
Qed.

Lemma apply_gathered_unapplied g (s : LState) g' o s' :
  apply_gathered g s = ((g', o), s') → ga_unapplied g' = [] → ga_unapplied g = [].
Proof.
  unfold apply_gathered. cbv zeta. destruct (pp_item <$> ga_prepared g); [by intros [= -> _ _]|].
  unfold mbind, L_bind. destruct (reg _ s) as [[] ?]; intros [= <- _ _]; [done|].
  simpl. by destruct (ga_unapplied g).
Qed.

(** A clean page was prepared to the end, then applied. *)
Lemma page_phases sns by_id g0 (s : LState) g r s' :
  (gathered ← prepare_each address_string sns by_id g0;
   if (gathered.1 : bool) then mret (gathered.2, None)
   else applied ← apply_gathered gathered.2; mret (applied.1, Some applied.2)) s =
     ((g, Some r), s') → ga_unapplied g = [] →
  ∃ g1 s1, prepare_each address_string sns by_id g0 s = ((false, g1), s1) ∧
    apply_gathered g1 s1 = ((g, r), s') ∧ ga_unapplied g1 = [].
Proof.
  unfold mbind, L_bind. destruct (prepare_each _ _ _ _ s) as [[[] g1] s1]; simpl; [done|].
  destruct (apply_gathered g1 s1) as [[g2 o] s2] eqn:Ha. simpl. intros [= <- <- <-] Hu.
  exists g1, s1. split_and!; [done|done|]. by eapply apply_gathered_unapplied.
Qed.

(** A page all of whose changes were applied did to each row it names what
    the reference does, and to no other. *)
Lemma reconcile_page_wrote sns (s : LState) g outs s' :
  reg_inv (db s) → NoDup (sn_agreement_id <$> sns) →
  reconcile_page address_string sns s = ((g, Some outs), s') → ga_unapplied g = [] →
  wrote (λ k r, from_option (λ sn, effect (db_now s) sn r) r (find_sn sns k)) s s'.
Proof.
  intros Hi Hnd. unfold reconcile_page. cbv zeta. unfold mbind at 1, L_bind at 1.
  destruct (reg _ s) as [found s1] eqn:Hg.
  destruct (by_ids_reads _ _ _ _ Hg Hi) as (Hdb & Hnow & Hby). clear Hg.
  destruct found as [m|e]; intros Hrun Hu;
    apply page_phases in Hrun as (g1 & s2 & Hp & Ha & Hu1); [|done| |done].
  2:{ pose proof (unapplied_grows _ _ _ _ _ _ _ Hp Hu1) as Hnil. simpl in Hnil.
      destruct sns; [|done]. injection Hp as <- <-. injection Ha as _ _ <-.
      split; simpl; unfold db, db_now in *; [|intros k|by rewrite Hdb|done]; rewrite Hdb.
      - by destruct (pg_db _).
      - by destruct (_ !! k). }
  destruct (prepare_each_wrote sns m (mkGathered [] [] 0) s1 g1 s2) as (_ & W1 & Hprep); [by rewrite Hdb|done| |done..|].
  { intros sn Hsn. rewrite Hdb. apply Hby; [done|]. by apply list_elem_of_fmap_2. }
  simpl in Hprep.
  assert (Hids : ∀ sn p, sn ∈ sns → prepared_of m sn = Some p →
    ri_agreement_id (pp_item p) = sn_agreement_id sn).
  { intros sn p Hsn. unfold prepared_of.
    rewrite (Hby m eq_refl (sn_agreement_id sn)) by by apply list_elem_of_fmap_2.
    unfold provided. destruct (agreements (db s) !! _) as [r|] eqn:Hr; [|done]. simpl.
    unfold known_agreement. case_bool_decide; [done|]. simpl. unfold reconciliation_item.
    case_match; [|done]. intros [= <-]. simpl. by apply (inv_key _ Hi). }
  destruct (items_of m sns Hids Hnd) as (J1 & _ & J3). rewrite <-Hprep in J1, J3.
  pose proof (apply_gathered_rows s2 g1 g outs s' (wr_inv _ _ _ W1) J1 Ha Hu) as W2.
  pose proof (wrote_trans _ _ _ _ _ W1 W2) as W3.
  assert (W4 : wrote (λ k r, from_option (λ sn, effect (db_now s) sn r) r (find_sn sns k)) s1 s').
  { eapply wrote_ext; [exact W3|]. rewrite Hdb. intros k r Hr. simpl. rewrite J3.
    rewrite (wr_now _ _ _ W1), Hnow.
    destruct (find_sn sns k) as [sn|] eqn:Hf; [|done]. simpl.
    apply find_sn_Some in Hf as [Hsn Hk]. unfold prepared_of.
    rewrite (Hby m eq_refl (sn_agreement_id sn)) by by apply list_elem_of_fmap_2.
    unfold provided. rewrite Hk, Hr. simpl. unfold known_agreement. case_bool_decide as Hst; simpl.
    - symmetry. apply effect_fixed. simpl in Hst. rewrite Hst. by destruct (sn_state sn).
    - unfold ChainReconcile.effect. by destruct (item_of sn (agreement_of_row r)). }
  destruct W4 as [O4 R4 I4 N4]. split; [|intros k|done|congruence].
  - rewrite O4, Hdb. done.
  - by rewrite R4, Hdb.
Qed.

(** Where the table has a line it gives the status, an offer that was withdrawn
    before it was accepted apart. *)
Lemma after_chain_table status remote went_live abandoned st :
  module_table status remote = Some st → abandoned = false →
  went_live = true ∨ remote = Accepted ∨ status ∉ [Created; Expired] →
  after_chain status remote went_live abandoned = st.
Proof.
  intros Ht -> Hl.
  assert (went_live = true ∨ remote = Accepted ∨ status ≠ Created ∧ status ≠ Expired) as Hl'.
  { destruct Hl as [?|[?|Hl]]; [by left|by right; left|right; right].
    split; intros ->; apply Hl; set_solver. }
  destruct status, remote; simplify_eq/=; try done; naive_solver.
Qed.

(** C7: a page of changes that was applied leaves every agreement it names in
    the status [after_chain] gives for the status it had and the state on chain.
    On every line of the table in the module's documentation, for an agreement
    not marked abandoned, that is the table's status, with one exception the code
    makes and the table does not: an end without an accept time (a withdrawn
    offer) ends a [Created] agreement only when the payer cancelled and otherwise
    leaves a [Created] or [Expired] one as it was.  An end the page records has the
    chain's time, author and transaction, an accept the chain's time and
    transaction, and nothing else in the database is touched, whatever connections
    were lost on the way. *)
Theorem clean_page_matches_chain sns (s : LState) g outs s' :
  reg_inv (db s) → NoDup (sn_agreement_id <$> sns) →
  reconcile_page address_string sns s = ((g, Some outs), s') → ga_unapplied g = [] →
  db s' = set_agreements (agreements (db s')) (db s) ∧
  ∀ k r, agreements (db s) !! k = Some r →
    match find_sn sns k with
    | None => agreements (db s') !! k = Some r
    | Some sn => ∃ r', agreements (db s') !! k = Some r' ∧
        ag_status r' = after_chain (ag_status r) (sn_state sn) (live_time sn) (ag_abandoned r) ∧
        (∀ st, module_table (ag_status r) (sn_state sn) = Some st → ag_abandoned r = false →
           (live_time sn = true ∨ sn_state sn = Accepted ∨ ag_status r ∉ [Created; Expired] →
            ag_status r' = st) ∧
           (live_time sn = false → ag_status r ∈ [Created; Expired] →
            is_canceled (sn_state sn) = true →
            ag_status r' = if bool_decide (ag_status r = Created ∧ sn_state sn = CanceledByPayer)
                           then CanceledByRequester else ag_status r)) ∧
        (ag_status r' ≠ ag_status r → is_canceled (sn_state sn) = true →
           ag_canceled_at r' = Some (as_i64 (sn_canceled_at sn)) ∧
           ag_canceled_by r' = Some (address_string (sn_canceled_by sn)) ∧
           ag_canceled_tx r' = Some (sn_canceled_tx sn)) ∧
        (ag_status r' ≠ ag_status r → ag_status r ∈ [Created; Expired] →
           withdrawn_offer sn = false →
           ag_accepted_at r' = Some (as_i64 (sn_accepted_at sn)) ∧
           ag_accepted_tx r' = Some (sn_accepted_tx sn))
    end.
Proof.
  intros Hi Hnd Hrun Hu. destruct (reconcile_page_wrote sns s g outs s' Hi Hnd Hrun Hu) as [O Rw _ _].
  split; [done|]. intros k r Hr. rewrite Rw, Hr. simpl.
  destruct (find_sn sns k) as [sn|]; [|done]. simpl. eexists. split; [done|].
  split; [apply effect_status|]. split; [|apply effect_audit].
  intros st Ht Hab. rewrite effect_status. split; [by apply after_chain_table|].
  intros -> Hst Hc. rewrite Hab. rewrite !elem_of_cons, elem_of_nil in Hst.
  destruct Hst as [-> |[-> |[]]], (sn_state sn); done.
Qed.

(** Reading a change again is harmless, as the reorg buffer and a held
    cursor do: a second reading of the same page moves no status, and from the
    third on nothing in the database changes. *)
Theorem rereading_settles sns (s s1 t1 s2 t2 s3 : LState) g1 o1 g2 o2 g3 o3 :
  reg_inv (db s) → NoDup (sn_agreement_id <$> sns) →
  reconcile_page address_string sns s = ((g1, Some o1), s1) → ga_unapplied g1 = [] →
  db t1 = db s1 →
  reconcile_page address_string sns t1 = ((g2, Some o2), s2) → ga_unapplied g2 = [] →
  db t2 = db s2 →
  reconcile_page address_string sns t2 = ((g3, Some o3), s3) → ga_unapplied g3 = [] →
  (∀ k, db_status (db s2) k = db_status (db s1) k) ∧ db s3 = db s2.
Proof.
  intros Hi Hnd H1 U1 T1 H2 U2 T2 H3 U3.
  apply reconcile_page_wrote in H1; [|done..]. pose proof (wr_inv _ _ _ H1) as I1.
  apply reconcile_page_wrote in H2; [|by rewrite T1|done|done]. pose proof (wr_inv _ _ _ H2) as I2.
  apply reconcile_page_wrote in H3; [|by rewrite T2|done|done].
  pose proof (wr_rows _ _ _ H1) as R1. pose proof (wr_rows _ _ _ H2) as R2.
  pose proof (wr_rows _ _ _ H3) as R3. rewrite T1 in R2. rewrite T2 in R3. split.
  - intros k. unfold db_status. rewrite R2, R1. destruct (agreements (db s) !! k) as [r|]; [|done].
    simpl. destruct (find_sn sns k) as [sn|]; [|done]. simpl. f_equal.
    apply (effect_settles address_string (db_now s) (db_now t1) 0).
  - rewrite (wr_only _ _ _ H3), T2. apply db_ext; try done. simpl. apply map_eq. intros k.
    rewrite R3, R2, R1. destruct (agreements (db s) !! k) as [r|]; [|done]. simpl.
    destruct (find_sn sns k) as [sn|]; [|done]. simpl. f_equal. symmetry. apply effect_settles.
Qed.

End page.

(** ** Worked runs *)

(** A subgraph that holds these rows, at block 200. *)
#[export] Instance GraphSource : ChainEventSource (list AgreementStateSnapshot) :=
  λ since _ graph,
    (Ok (mkPage (filter (λ sn, cursor_lt since (snapshot_cursor sn)) graph) 200 (Some 2050)
           (at_block 201)), graph).

#[export] Instance ListQueue : LiveCheckQueue (list (N * option ChainAccept)) :=
  λ id accept q, (true, q ++ [(id, accept)]).

Definition demo_snapshot (id : N) (state : AgreementState) (block : Z) : AgreementStateSnapshot :=
  mkSnapshot id 31 state 0 block 1700 "0xaa" 1800 "0xbb".

Definition demo_listener (d : Db) (graph : list AgreementStateSnapshot)
    : LState PgState Script (list AgreementStateSnapshot) (list (N * option ChainAccept)) :=
  mkLState (mkState (mkPg d 100 []) (mkScript [] []) []) graph [] None (at_block 150) None
    (Some 1900) 0 0 0 ∅ [] [].

Definition demo_cfg : ListenerConfig := mkListenerConfig 42161 100 60 false.
Definition demo_clock (n : nat) : Z * Z := (Z.of_nat n, 2000).

Lemma demo_clock_cap n : 0 ≤ sat_add_u64 (demo_clock n).2 60 ≤ 2060.
Proof. by vm_compute. Qed.

Definition demo_drain :=
  drain_once (λ _, "0x63"%string) (λ _, "0x64"%string) demo_config demo_cfg demo_clock
    (demo_listener demo_rejected_db [demo_snapshot 12 Accepted 120]).

Lemma drain_moves_forward_witness :
  ls_cursor demo_drain.2 = at_block 201 ∧ ls_ts demo_drain.2 = Some 2050 ∧
  cursor_le (at_block 150) (at_block 201).
Proof.
  destruct demo_drain as [r s'] eqn:Hd. pose proof Hd as Hrun. unfold demo_drain in Hrun.
  pose proof (drain_moves_forward (λ _, "0x63"%string) (λ _, "0x64"%string) demo_config demo_cfg
    2060 demo_clock (demo_listener demo_rejected_db [demo_snapshot 12 Accepted 120]) r s'
    demo_clock_cap Hrun) as (Hc & _). clear Hrun.
  vm_compute in Hd. injection Hd as <- <-. split; [reflexivity|]. split; [reflexivity|exact Hc].
Defined.

(** The recorded time can go back: a write that took effect but whose reply was
    lost is not remembered, and the next page may have an older time. *)
Definition demo_persist (ts : Z) :=
  persist_progress (E := list AgreementStateSnapshot) (W := list (N * option ChainAccept))
    (C := Script) demo_cfg (mkProgress (at_block 150) None false
      (Some (at_block 150, ratchet_timestamp (Some ts) (Some 1900) 2000 60 false))).

Example lost_reply_turns_the_recorded_time_back :
  let s := demo_listener demo_rejected_db [] in
  let lossy := set_dispatch (mkState (mkPg demo_rejected_db 100 [LostAfter]) (mkScript [] []) []) s in
  let s1 := (demo_persist 2000 lossy).2 in
  let s2 := (demo_persist 1950 s1).2 in
  ls_ts s1 = Some 1900 ∧
  ls_last_processed_block_timestamp <$> (listener (db s1) !! 42161) = Some (Some 2000) ∧
  ls_last_processed_block_timestamp <$> (listener (db s2) !! 42161) = Some (Some 1950).
Proof. vm_compute. split_and!; reflexivity. Qed.

Lemma live_checks_once_witness :
  let s := run_drains (λ _, "0x63"%string) (λ _, "0x64"%string) demo_config demo_cfg
             [demo_clock; demo_clock; demo_clock]
             (demo_listener demo_rejected_db [demo_snapshot 12 Accepted 120]) in
  ls_checks s = [(12%N, 120)] ∧ NoDup (ls_checks s).
Proof.
  split; [vm_compute; reflexivity|].
  apply (live_checks_once _ _ _ demo_cfg 2060).
  - intros c pinned src page src' H sn Hsn. injection H as <- _. simpl in Hsn.
    by apply list_elem_of_filter in Hsn as [? _].
  - intros clock n Hin. assert (Hc : clock = demo_clock) by set_solver. rewrite Hc.
    apply demo_clock_cap.
  - right. simpl. lia.
  - reflexivity.
Defined.

Definition demo_poll (clean : bool) (t : Z) : poll := mkPoll (at_block 201) clean (t * 1000000000).

Lemma failing_page_is_held_then_passed_witness :
  foldl (poll_step demo_cfg) (at_block 150, None)
    (demo_poll false 0 :: [demo_poll false 300; demo_poll false 599] ++ [demo_poll false 600]) =
  (at_block 201, None).
Proof.
  destruct (failing_page_is_held_then_passed demo_cfg (at_block 150) None (demo_poll false 0)
    [demo_poll false 300; demo_poll false 599] (demo_poll false 600)) as (_ & H & _).
  - done.
  - split; [reflexivity|vm_compute; by intros []].
  - repeat constructor; vm_compute; by intros [].
  - split; [reflexivity|vm_compute; by intros []].
  - repeat constructor; vm_compute; done.
  - vm_compute. done.
  - exact H.
Defined.

Definition demo_created : Db :=
  run_ops [SetTarget 10 1 5 7 42161 2; Register 20 (demo_params 11 31)] empty_db.

Lemma demo_created_inv : reg_inv demo_created.
Proof. apply reachable_reg_inv, run_ops_steps. by repeat constructor. Qed.

Definition demo_page_run (d : Db) (sn : AgreementStateSnapshot) :=
  reconcile_page (C := Script) (λ _, "0x64"%string) [sn] (demo_listener d []).

Lemma clean_page_matches_chain_witness :
  ∃ g outs s' r', demo_page_run demo_created (demo_snapshot 11 CanceledByPayer 120) =
      ((g, Some outs), s') ∧
    agreements (db s') !! 11%N = Some r' ∧ ag_status r' = CanceledByRequester.
Proof.
  destruct (demo_page_run demo_created (demo_snapshot 11 CanceledByPayer 120))
    as [[g [outs|]] s'] eqn:H; [|vm_compute in H; discriminate].
  assert (Hu : ga_unapplied g = []) by (vm_compute in H; injection H as <- _ _; reflexivity).
  destruct (clean_page_matches_chain (λ _, "0x64"%string) [demo_snapshot 11 CanceledByPayer 120]
    (demo_listener demo_created []) g outs s' demo_created_inv) as [_ Hrows];
    [repeat constructor; set_solver|exact H|exact Hu|].
  destruct (agreements demo_created !! 11%N) as [r|] eqn:Hr; [|vm_compute in Hr; discriminate].
  destruct (Hrows 11%N r Hr) as (r' & Hr' & Hst & _).
  exists g, outs, s', r'. split; [reflexivity|]. split; [exact Hr'|]. rewrite Hst.
  vm_compute in Hr. injection Hr as <-. reflexivity.
Defined.

Lemma rereading_settles_witness :
  ∃ s1 s2 s3,
    (demo_page_run demo_created (demo_snapshot 11 CanceledByPayer 120)).2 = s1 ∧
    (demo_page_run (db s1) (demo_snapshot 11 CanceledByPayer 120)).2 = s2 ∧
    (demo_page_run (db s2) (demo_snapshot 11 CanceledByPayer 120)).2 = s3 ∧
    db s3 = db s2 ∧ db_status (db s2) 11 = db_status (db s1) 11.
Proof.
  set (sn := demo_snapshot 11 CanceledByPayer 120).
  destruct (demo_page_run demo_created sn) as [[g1 [o1|]] s1] eqn:H1; [|vm_compute in H1; discriminate].
  destruct (demo_page_run (db s1) sn) as [[g2 [o2|]] s2] eqn:H2;
    [|vm_compute in H1; injection H1 as <- <- <-; vm_compute in H2; discriminate].
  destruct (demo_page_run (db s2) sn) as [[g3 [o3|]] s3] eqn:H3;
    [|vm_compute in H1; injection H1 as <- <- <-; vm_compute in H2; injection H2 as <- <- <-;
      vm_compute in H3; discriminate].
  destruct (rereading_settles (λ _, "0x64"%string) [sn] (demo_listener demo_created []) s1
    (demo_listener (db s1) []) s2 (demo_listener (db s2) []) s3 g1 o1 g2 o2 g3 o3) as [Hs Hd];
    try reflexivity; try exact H1; try exact H2; try exact H3.
  - exact demo_created_inv.
  - repeat constructor; set_solver.
  - vm_compute in H1; injection H1 as <- _ _; reflexivity.
  - vm_compute in H1; injection H1 as _ _ <-. vm_compute in H2; injection H2 as <- _ _; reflexivity.
  - vm_compute in H1; injection H1 as _ _ <-. vm_compute in H2; injection H2 as _ _ <-.
    vm_compute in H3; injection H3 as <- _ _; reflexivity.
  - exists s1, s2, s3. split; [reflexivity|]. split; [exact (f_equal snd H2)|].
    split; [exact (f_equal snd H3)|]. split; [exact Hd|exact (Hs 11%N)].
Defined.

(** A rejected agreement that was accepted and cancelled on chain is ended by
    the first reading without its accept, which only a second one records. *)
Lemma rejected_accept_waits_for_second_reading :
  let sn := demo_snapshot 12 CanceledByPayer 120 in
  let d1 := db (demo_page_run demo_rejected_db sn).2 in
  let d2 := db (demo_page_run d1 sn).2 in
  db_status d1 12 = Some CanceledByRequester ∧
  ag_accepted_at <$> agreements d1 !! 12%N = Some None ∧
  ag_accepted_at <$> agreements d2 !! 12%N = Some (Some 1700).
Proof. vm_compute. by repeat split. Qed.

End ChainReconcile.
