(* ===== verification/PendingCancels.v ===== *)
(** * What an accepted replacement releases

    When an agreement that replaces others is accepted, the listener cancels
    the ones it replaces ([execute_pending_cancellations]).  On Postgres, with
    connections that may be lost and a chain that may answer anything, a
    pending cancellation is only ever forgotten once its agreement no longer
    runs. *)

From S2P Require Import Prelude Schema Registry RegistryInv RegistryRuns RegistryOps RegistryQueries.
From S2P Require Import Reconciliation CancelDispatch CancelDispatchProps.
From S2P Require Import ChainEvents ChainListener ChainListenerProps ChainReconcile.
Import Schema Registry RegistryInv RegistryRuns RegistryOps RegistryQueries Reconciliation.
Import CancelDispatch CancelDispatchProps ChainEvents ChainListener ChainListenerProps.
Import ChainReconcile.
Local Open Scope Z_scope.

Module PendingCancels.

(** An agreement that is neither offered, accepted nor rejected: it is being
    cancelled, or has ended, or is gone. *)
Definition released (d : Db) (k : N) : Prop :=
  ∀ s, db_status d k = Some s → s ∉ [Created; AcceptedOnChain; Rejected].

(** A well-formed database with these pending cancellations and these
    agreements released. *)
Record keep (p : gset (N * N)) (K : list N) (d : Db) : Prop := {
  kp_inv : reg_inv d;
  kp_pending : pending d = p;
  kp_released : ∀ k, k ∈ K → released d k }.

(** ** Statements *)

Lemma set_status_keeps p K now id s allowed :
  (∀ d0, preserves (inv_from d0) (set_status_from now id s allowed)) →
  s ∉ [Created; AcceptedOnChain; Rejected] → preserves (keep p K) (set_status_from now id s allowed).
Proof.
  intros Hk Hs d [Hi Hp Hr]. destruct (set_status_from now id s allowed d) as [r d'] eqn:E.
  pose proof E as E'. rewrite set_status_from_run in E'; [|done|set_solver]. simpl.
  assert (Hd' : d' = d ∨ d' = set_agreements (agreements d') d ∧ ∀ k q,
    agreements d' !! k = Some q → ag_status q = s ∨ agreements d !! k = Some q).
  { destruct (agreements d !! id) as [q0|]; [|left; congruence].
    destruct (status_in allowed q0); [|left; congruence]. right. simplify_eq. split; [done|].
    simpl. intros k q. destruct (decide (k = id)) as [->|Hne].
    - rewrite lookup_insert_eq. intros [= <-]. by left.
    - rewrite lookup_insert_ne by done. by right. }
  destruct Hd' as [->|[Hd' Hq]]; [done|]. split.
  - by eapply keeps_inv.
  - by rewrite Hd'.
  - intros k Hin st. unfold db_status. destruct (agreements d' !! k) as [q|] eqn:Hq'; [|done].
    simpl. intros [= <-]. destruct (Hq k q Hq') as [->|Hold]; [done|].
    apply (Hr k Hin). unfold db_status. by rewrite Hold.
Qed.

Lemma marks_keep p K now id :
  preserves (keep p K) (mark_indexing_agreement_as_cancelling now id) ∧
  preserves (keep p K) (mark_indexing_agreement_as_canceled_by_requester now id).
Proof.
  split; apply set_status_keeps; try set_solver; intros d0; apply set_status_inv.
Qed.

Lemma audit_keeps_pending p K id at_ by_ tx :
  preserves (keep p K) (void (record_cancel_audit id at_ by_ tx)).
Proof.
  intros d [Hi Hp Hr].
  destruct (void (record_cancel_audit id at_ by_ tx) d) as [r d'] eqn:E. simpl. split.
  - eapply keeps_inv; [|exact Hi|exact E]. intros d0. apply void_inv, audits_inv.
  - unfold void in E. rewrite bind_run, record_cancel_audit_run in E by apply Hi.
    destruct (agreements d !! id) as [q|]; simpl in E; injection E as <- <-; done.
  - intros k Hin st. pose proof (audit_db_status id at_ by_ tx d k Hi) as Hs.
    rewrite E in Hs. simpl in Hs. rewrite Hs. by apply Hr.
Qed.

(** ** Calls *)

Section calls.
Context {C E W : Type} `{!ChainClient C} `{!ChainEventSource E} `{!LiveCheckQueue W}.
Context (tx_string : N → string) (config : IndexingAgreementConfig).
Notation LState := (LState PgState C E W).
Notation L := (L PgState C E W).

Definition pg_of (st : State PgState C) : Db := pg_db (st_reg st).

(** A dispatch that keeps a property of the database. *)
Definition holds_on {A} (P : Db → Prop) (m : M PgState C A) : Prop :=
  ∀ st, P (pg_of st) → P (pg_of (m st).2).

Lemma on_ret {A} P (a : A) : holds_on P (mret a).
Proof. by intros st. Qed.

Lemma on_bind {A B} P (m : M PgState C A) (k : A → M PgState C B) :
  holds_on P m → (∀ a, holds_on P (k a)) → holds_on P (m ≫= k).
Proof.
  intros Hm Hk st Hst. unfold mbind, M_bind. specialize (Hm st Hst).
  destruct (m st) as [a st']. by apply Hk.
Qed.

Lemma pg_call_keeps {A} P (m : Z → DbM A) s :
  (∀ now, preserves P (m now)) → P (pg_db s) → P (pg_db (pg_call m s).2).
Proof.
  intros Hm Hs. destruct (pg_call m s) as [a s'] eqn:Hc. simpl.
  specialize (Hm (pg_now s) (pg_db s) Hs).
  apply pg_call_cases in Hc as [Hc|[_ [->| ->]]]; [by rewrite Hc in Hm|done|done].
Qed.

Lemma on_registry {A} P (m : Z → DbM A) :
  (∀ now, preserves P (m now)) → holds_on P (registry (pg_call m)).
Proof.
  intros Hm st Hst. unfold registry, pg_of.
  pose proof (pg_call_keeps P m (st_reg st) Hm Hst) as H.
  by destruct (pg_call m (st_reg st)).
Qed.

Lemma on_chain P :
  (∀ id, holds_on P (chain_read id)) ∧
  (∀ c id h o, holds_on P (chain_cancel c id h o)).
Proof.
  split.
  - intros id st Hst. unfold chain_read. by destruct (agreement_on_chain _ _).
  - intros c id h o st Hst. unfold chain_cancel. by destruct (cancel_via_manager _ _ _ _ _).
Qed.

Hint Resolve on_ret on_bind : listener.

Lemma on_finish p K now a lc :
  holds_on (keep p K) (finish_marked_cancel tx_string config now a NotWanted lc).
Proof.
  destruct lc; simpl; auto with listener. case_bool_decide; auto with listener.
  apply on_bind; [|auto with listener]. unfold confirm_cancelled, record_cancel.
  apply on_bind; [case_match; [auto with listener|]|intros _].
  - apply on_bind; [|auto with listener]. apply on_registry. intros now'. apply audit_keeps_pending.
  - apply on_bind; [|auto with listener]. apply on_registry. intros now'. apply marks_keep.
Qed.

Lemma on_send p K a : holds_on (keep p K) (cancel_agreement_on_chain config a).
Proof.
  unfold cancel_agreement_on_chain. case_match; [|auto with listener].
  apply on_bind; [apply on_chain|]. intros []; [|auto with listener].
  apply on_bind; [apply on_chain|auto with listener].
Qed.

(** A mark that went through, or was refused, leaves the agreement released. *)
Lemma mark_releases p K a st m st' :
  keep p K (pg_of st) → mark_cancelling a NotWanted st = (m, st') →
  keep p K (pg_of st') ∧
  (m = Ok tt ∨ m = Err NoRecordsUpdated → keep p (ia_id a :: K) (pg_of st')).
Proof.
  intros Hk Hrun.
  pose proof (on_registry (keep p K) (λ n, mark_indexing_agreement_as_cancelling n (ia_id a))
    (λ n, proj1 (marks_keep p K n (ia_id a))) st Hk) as H.
  unfold mark_cancelling, registry in *. simpl in Hrun.
  destruct (pg_call _ (st_reg st)) as [m' r'] eqn:Hc. simplify_eq/=. split; [done|].
  intros Hm. destruct H as [Hi Hp Hr]. split; [done|done|]. intros k [->|Hin]%elem_of_cons;
    [|by apply Hr].
  apply pg_call_cases in Hc as [Hc|[-> _]]; [|by destruct Hm].
  unfold mark_indexing_agreement_as_cancelling in Hc.
  rewrite set_status_from_run in Hc; [|apply Hk|set_solver].
  apply (guarded_status (ia_id a) _ _ Cancelling) in Hc; [|done]. unfold pg_of. simpl.
  destruct m as [u|e].
  - intros s Hs. rewrite Hc in Hs. simplify_eq. set_solver.
  - destruct Hc as (_ & -> & Hn). intros s Hs Hin. apply (Hn s Hs). set_solver.
Qed.

(** A cancel that is marked and then sent keeps what was released, and unless
    the mark failed unexpectedly leaves its agreement released. *)
Lemma marked_spec p K a (k : M PgState C CancelStarted) st r st' :
  (∀ K', holds_on (keep p K') k) → keep p K (pg_of st) →
  (marked ← mark_cancelling a NotWanted;
   match marked with
   | Err e => mret (Err e)
   | Ok _ => c ← k; mret (Ok c)
   end) st = (r, st') →
  keep p K (pg_of st') ∧ (note_replaced_cancel r = true → keep p (ia_id a :: K) (pg_of st')).
Proof.
  intros Hk' Hk Hrun. unfold mbind, M_bind in Hrun.
  destruct (mark_cancelling a NotWanted st) as [m s1] eqn:Hm.
  destruct (mark_releases p K a st m s1 Hk Hm) as [H1 H2]. destruct m as [[]|e].
  - pose proof (Hk' K s1 H1) as J1. pose proof (Hk' (ia_id a :: K) s1 (H2 (or_introl eq_refl))) as J2.
    unfold mret, M_ret in Hrun. destruct (k s1) as [c s2]. simplify_eq/=. by split.
  - unfold mret, M_ret in Hrun. simplify_eq. split; [done|]. intros Hn. apply H2. right.
    by destruct e.
Qed.

Lemma start_cancel_spec p K now a st r st' :
  keep p K (pg_of st) → start_cancel tx_string config now a NotWanted st = (r, st') →
  keep p K (pg_of st') ∧ (note_replaced_cancel r = true → keep p (ia_id a :: K) (pg_of st')).
Proof.
  apply marked_spec. intros K'. apply on_bind; [|intros; apply on_finish].
  apply on_bind; [apply on_chain|]. intros [[]|]; auto using on_send, on_ret.
Qed.

Lemma start_cancel_seen_live_spec p K now a st r st' :
  keep p K (pg_of st) → start_cancel_seen_live tx_string config now a NotWanted st = (r, st') →
  keep p K (pg_of st') ∧ (note_replaced_cancel r = true → keep p (ia_id a :: K) (pg_of st')).
Proof.
  intros Hk Hrun. apply (marked_spec p K a (lc ← cancel_agreement_on_chain config a;
    finish_marked_cancel tx_string config now a NotWanted lc) st); [|done|].
  - intros K'. apply on_bind; [apply on_send|intros; apply on_finish].
  - rewrite <- Hrun. unfold start_cancel_seen_live, mbind, M_bind.
    destruct (mark_cancelling _ _ st) as [[]?]; [|done].
    by destruct (cancel_agreement_on_chain _ _ _).
Qed.

(** ** The listener's steps *)

Lemma dispatch_run {A} (m : M PgState C A) (s s' : LState) a :
  dispatch m s = (a, s') → ∃ st', m (ls_dispatch s) = (a, st') ∧ db s' = pg_of st'.
Proof.
  unfold dispatch. destruct (m (ls_dispatch s)) as [a' st']. intros [= -> <-]. by exists st'.
Qed.

Lemma reg_run {A} (m : Z → DbM A) (s s' : LState) a :
  reg (pg_call m) s = (a, s') →
  ∃ now, m now (db s) = (a, db s') ∨
    (a = Err (DbError ConnectionLost) ∧ (db s' = db s ∨ db s' = (m now (db s)).2)).
Proof.
  unfold reg. intros (st' & Hm & Hd)%dispatch_run. unfold registry in Hm.
  destruct (pg_call m _) as [a' r'] eqn:Hc. simplify_eq. apply pg_call_cases in Hc.
  exists (pg_now (st_reg (ls_dispatch s))). by rewrite Hd.
Qed.

(** Reading changes nothing. *)
Lemma reg_reads {A} (f : Db → result Error A) (s s' : LState) a :
  reg (pg_call (λ _ d, (f d, d))) s = (a, s') →
  db s' = db s ∧ (a = f (db s) ∨ a = Err (DbError ConnectionLost)).
Proof. intros (_ & [H|[-> [H|H]]])%reg_run; simplify_eq/=; auto. Qed.

Lemma dispatch_start p K a (m : M PgState C (result Error CancelStarted)) (s s' : LState) b :
  (∀ st r st', keep p K (pg_of st) → m st = (r, st') →
    keep p K (pg_of st') ∧ (note_replaced_cancel r = true → keep p (ia_id a :: K) (pg_of st'))) →
  keep p K (db s) →
  (started ← dispatch m; mret (Ok (note_replaced_cancel started))) s = (b, s') →
  keep p K (db s') ∧ (b = Ok (E := ListenerError) true → keep p (ia_id a :: K) (db s')).
Proof.
  intros Hm Hk Hrun. unfold mbind, L_bind in Hrun. destruct (dispatch m s) as [r s1] eqn:Hd.
  unfold mret, L_ret in Hrun. apply dispatch_run in Hd as (st' & Hd & Hdb).
  destruct (Hm _ _ _ Hk Hd) as [J1 J2]. simplify_eq. rewrite Hdb. split; [done|].
  intros [= Hn]. by apply J2.
Qed.

Lemma released_cons p K k d : keep p K d → released d k → keep p (k :: K) d.
Proof. intros [Hi Hp Hr] Hk. split; [done|done|]. by intros k' [->|Hin]%elem_of_cons; [|apply Hr]. Qed.

(** An agreement that was read as [Expired] and is not live, or that is gone,
    needs no cancel. *)
Lemma replaced_row_spec p K now q (s s' : LState) r :
  keep p K (db s) → agreements (db s) !! ag_id q = Some q →
  (if bool_decide (ag_status q = Expired) then
     live ← expired_but_live (agreement_of_row q);
     match live with
     | Some true =>
         started ← dispatch (start_cancel_seen_live tx_string config now (agreement_of_row q)
                               NotWanted);
         mret (Ok (note_replaced_cancel started))
     | Some false => mret (Ok true)
     | None => mret (Ok false)
     end
   else
     started ← dispatch (start_cancel tx_string config now (agreement_of_row q) NotWanted);
     mret (Ok (note_replaced_cancel started))) s = (r, s') →
  keep p K (db s') ∧ (r = Ok (E := ListenerError) true → keep p (ag_id q :: K) (db s')).
Proof.
  intros Hk Hq. case_bool_decide as Hst; intros Hrun.
  - unfold mbind at 1, L_bind in Hrun.
    destruct (expired_but_live _ s) as [live s1] eqn:Hl.
    assert (Hdb : db s1 = db s).
    { unfold expired_but_live, mbind, L_bind in Hl. destruct (dispatch _ s) as [x s2] eqn:Hd.
      injection Hl as _ <-. apply dispatch_run in Hd as (st' & Hd & ->). unfold chain_read in Hd.
      destruct (agreement_on_chain _ _). by injection Hd as _ <-. }
    rewrite <- Hdb in Hk. destruct live as [[]|].
    + by apply (dispatch_start p K (agreement_of_row q)) in Hrun;
        [|intros; eapply start_cancel_seen_live_spec|].
    + injection Hrun as <- <-. split; [done|]. intros _. apply released_cons; [done|].
      intros st. unfold db_status. rewrite Hdb, Hq. simpl. intros [= <-]. rewrite Hst. set_solver.
    + by injection Hrun as <- <-.
  - by apply (dispatch_start p K (agreement_of_row q)) in Hrun;
      [|intros; eapply start_cancel_spec|].
Qed.

Lemma start_replaced_spec p K now old (s s' : LState) r :
  keep p K (db s) → start_replaced_cancel tx_string config now old s = (r, s') →
  keep p K (db s') ∧ (r = Ok true → keep p (old :: K) (db s')).
Proof.
  intros Hk Hrun. unfold start_replaced_cancel, try_reg in Hrun. unfold mbind at 1, L_bind in Hrun.
  destruct (reg _ s) as [o s1] eqn:Hread.
  apply (reg_reads (λ d, Ok ((agreement_of_row <$> agreements d !! old) ≫= known_agreement)))
    in Hread as [Hdb Ho]. rewrite <- Hdb in Hk. destruct Ho as [->| ->]; [|by injection Hrun as <- <-].
  rewrite <- Hdb in Hrun. destruct (agreements (db s1) !! old) as [q|] eqn:Hq; simpl in Hrun.
  2:{ injection Hrun as <- <-. split; [done|]. intros _. apply released_cons; [done|].
      intros st. unfold db_status. by rewrite Hq. }
  assert (ag_id q = old) as <- by by eapply inv_key; [apply Hk|].
  unfold known_agreement in Hrun. simpl in Hrun. case_bool_decide as Hu.
  { injection Hrun as <- <-. split; [done|]. intros _. apply released_cons; [done|].
    intros st. unfold db_status. rewrite Hq. simpl. intros [= <-]. rewrite Hu. set_solver. }
  by apply (replaced_row_spec p K now q s1).
Qed.

(** A pending cancellation is deleted, or the connection was lost. *)
Lemma delete_spec p K new old (s s' : LState) r :
  keep p K (db s) → reg (reg_delete_pending new old) s = (r, s') →
  (r = Ok tt ∧ keep (p ∖ {[ (new, old) ]}) K (db s')) ∨
  ((∃ e, r = Err e) ∧ (keep p K (db s') ∨ keep (p ∖ {[ (new, old) ]}) K (db s'))).
Proof.
  intros Hk (now & Hrun)%(reg_run (λ _, delete_pending_cancellation new old)).
  assert (keep (p ∖ {[ (new, old) ]}) K (delete_pending_cancellation new old (db s)).2).
  { destruct Hk as [Hi Hp Hr]. split.
    - eapply keeps_inv; [|exact Hi|apply surjective_pairing]. intros d0.
      apply delete_pending_inv.
    - simpl. by rewrite Hp.
    - exact Hr. }
  destruct Hrun as [Hd|[-> [Hd|Hd]]].
  - left. injection Hd as <- <-. by split.
  - right. rewrite Hd. eauto.
  - right. rewrite Hd. eauto.
Qed.

(** What a run over the replaced agreements makes of the pending rows. *)
Record sweeps (new : N) (p : gset (N * N)) (d : Db) (p' : gset (N * N)) (K' : list N) : Prop := {
  sw_keep : keep p' K' d;
  sw_sub : p' ⊆ p;
  sw_gone : ∀ n o, (n, o) ∈ p → (n, o) ∉ p' → n = new ∧ o ∈ K' }.

Lemma removed_row (p : gset (N * N)) n o new old :
  (n, o) ∈ p → (n, o) ∉ p ∖ {[ (new, old) ]} → n = new ∧ o = old.
Proof.
  intros Hin Hn. destruct (decide ((n, o) = (new, old))) as [[= -> ->]|Hne]; [done|].
  destruct Hn. apply elem_of_difference. split; [done|]. by rewrite elem_of_singleton.
Qed.

Lemma cancel_each_spec now new olds : ∀ n p K (s s' : LState) r,
  keep p K (db s) → cancel_each tx_string config now new olds n s = (r, s') →
  ∃ p' K', sweeps new p (db s') p' K' ∧ K ⊆ K' ∧
    (∀ m, r = Ok m → n ≤ m ∧ (m = n → ∀ o, o ∈ olds → (new, o) ∉ p')).
Proof.
  induction olds as [|old rest IH]; simpl; intros n p K s s' r Hk Hrun.
  { injection Hrun as <- <-. exists p, K. split; [by split|]. split; [done|].
    intros m [= <-]. split; [lia|]. set_solver. }
  unfold and_then in Hrun. unfold mbind at 1, L_bind in Hrun.
  destruct (start_replaced_cancel _ _ _ _ s) as [x s1] eqn:Hs.
  apply start_replaced_spec with (p := p) (K := K) in Hs as [J1 J2]; [|done].
  destruct x as [[]|e].
  - unfold try_reg in Hrun. unfold mbind at 1, L_bind in Hrun. destruct (reg _ s1) as [y s2] eqn:Hdel.
    apply (delete_spec p (old :: K)) in Hdel; [|by apply J2].
    destruct Hdel as [[-> H2]|[[e ->] H2]].
    + destruct (IH _ _ _ _ _ _ H2 Hrun) as (p' & K' & [L1 L2 L3] & L4 & L5).
      exists p', K'. split; [split; [done|set_solver|]|split; [set_solver|]].
      * intros a b Hab Hn. destruct (decide ((a, b) = (new, old))) as [[= -> ->]|Hne].
        -- split; [done|]. apply L4. by left.
        -- apply L3; [|done]. apply elem_of_difference. split; [done|].
           by rewrite elem_of_singleton.
      * intros m Hm. destruct (L5 m Hm) as [? L6]. split; [done|]. intros Hmn o.
        intros [->|Ho]%elem_of_cons; [set_solver|by apply L6].
    + injection Hrun as <- <-. destruct H2 as [H2|H2].
      * exists p, (old :: K). split; [by split|]. split; [by right|done].
      * exists (p ∖ {[ (new, old) ]}), (old :: K). split; [split|split]; [done|..].
        -- by intros x [? _]%elem_of_difference.
        -- intros a b Hab Hn. destruct (removed_row _ _ _ _ _ Hab Hn) as [-> ->].
           split; [done|]. by left.
        -- by right.
        -- done.
  - destruct (IH _ _ _ _ _ _ J1 Hrun) as (p' & K' & L1 & L4 & L5). exists p', K'.
    split; [done|]. split; [done|]. intros m Hm. destruct (L5 m Hm). split; lia.
  - injection Hrun as <- <-. exists p, K. split; [by split|]. by split.
Qed.

(** C20: when an agreement is accepted, what it replaces is released before it
    is forgotten: whatever the chain answers and whenever the connection is
    lost, running its pending cancellations deletes only rows of this
    agreement, and a deleted row's agreement is no longer offered, accepted or
    rejected in the database; a run that reports success has left none of
    them, so a failed one is what the next sweep finds. *)
Theorem replaced_agreements_released now id (s s' : LState) r :
  reg_inv (db s) → execute_pending_cancellations tx_string config now id s = (r, s') →
  pending (db s') ⊆ pending (db s) ∧
  (∀ n o, (n, o) ∈ pending (db s) → (n, o) ∉ pending (db s') → n = id ∧ released (db s') o) ∧
  (r = Ok tt → ∀ o, (id, o) ∉ pending (db s')).
Proof.
  intros Hi Hrun. assert (Hk : keep (pending (db s)) [] (db s)) by (split; set_solver).
  unfold execute_pending_cancellations, try_reg in Hrun. unfold mbind at 1, L_bind in Hrun.
  destruct (reg _ s) as [olds s1] eqn:Hread.
  apply (reg_reads (λ d, Ok (snd <$> filter (λ p, p.1 = id) (elements (pending d)))))
    in Hread as [Hdb Ho]. destruct Ho as [->| ->].
  2:{ injection Hrun as <- <-. rewrite Hdb. by repeat split. }
  unfold and_then in Hrun. unfold mbind at 1, L_bind in Hrun.
  destruct (cancel_each _ _ _ _ _ _ s1) as [f s2] eqn:Hc. rewrite <- Hdb in Hk.
  destruct (cancel_each_spec _ _ _ _ _ _ _ _ _ Hk Hc) as (p' & K' & [L1 L2 L3] & _ & L5).
  assert (s' = s2) as -> by (destruct f; by injection Hrun). rewrite Hdb in *.
  rewrite (kp_pending _ _ _ L1). split; [done|]. split.
  - intros n o Hin Hn. destruct (L3 n o Hin Hn). split; [done|]. by apply L1.
  - intros ->. destruct f as [m|e]; [|done]. destruct (L5 m eq_refl) as [Hm L6].
    intros o Hin. injection Hrun. destruct (Z.ltb_spec 0 m); [done|]. intros _.
    apply (L6 ltac:(lia) o); [|done]. apply list_elem_of_fmap. exists (id, o). split; [done|].
    apply list_elem_of_filter. split; [done|]. apply elem_of_elements, L2, Hin.
Qed.

End calls.

(** Agreement 12, accepted, replaces the accepted agreement 11. *)
Definition demo_replacing : Db :=
  run_ops [RegisterReplacing 40 (demo_params 12 32) 11; Reconcile 50 12 true None] demo_hashed.

Lemma demo_replacing_inv : reg_inv demo_replacing.
Proof.
  apply reachable_reg_inv. unfold reachable. transitivity demo_hashed; apply run_ops_steps; by repeat constructor.
Qed.

Definition demo_replaced :=
  set_dispatch (mkState (mkPg demo_replacing 100 [])
      (mkScript [Ok Live; Ok NotLive] [Ok (Some 99%N)]) [])
    (demo_listener demo_replacing []).

Definition demo_release :=
  execute_pending_cancellations (λ _, "0x63"%string) demo_config 60 12 demo_replaced.

Lemma replaced_agreements_released_witness :
  ∃ s', demo_release = (Ok tt, s') ∧ (12%N, 11%N) ∈ pending demo_replacing ∧
    (12%N, 11%N) ∉ pending (db s') ∧ released (db s') 11.
Proof.
  destruct demo_release as [r s'] eqn:H.
  assert (Hr : r = Ok tt) by (vm_compute in H; injection H as <- _; reflexivity). subst r.
  destruct (replaced_agreements_released (λ _, "0x63"%string) demo_config 60 12 demo_replaced s' (Ok tt)
    demo_replacing_inv H) as (_ & Hgone & Hall).
  specialize (Hall eq_refl 11%N).
  assert (Hin : (12%N, 11%N) ∈ pending demo_replacing) by (apply (bool_decide_eq_true_1 _); vm_compute; reflexivity).
  exists s'. split; [reflexivity|]. split; [exact Hin|]. split; [exact Hall|].
  exact (proj2 (Hgone 12%N 11%N Hin Hall)).
Defined.

End PendingCancels.
