(* ===== verification/Services.v ===== *)
(** * What the services share

    The registry as the services see it (registry.rs over the Postgres
    registry), the worker's messages and the queue they are pushed to
    (worker/messages.rs, worker/service_queue.rs), and the monad the handlers
    and sweeps are written in: calls on Postgres, on the chain and on the
    queue, each of which may fail.  A call that times out is one whose
    connection is lost: it may have taken effect. *)

From S2P Require Import Prelude Schema Registry RegistryInv RegistryRuns RegistryOps RegistryQueries.
From S2P Require Import JobQueue Worker Rca CancelDispatch CancelDispatchProps.
From S2P Require Import ChainEvents ChainListener ChainReconcile.
Import Schema Registry RegistryInv RegistryRuns RegistryOps RegistryQueries.
Import JobQueue Worker Rca CancelDispatch CancelDispatchProps ChainEvents ChainListener.
Import ChainReconcile.
Local Open Scope Z_scope.

Create HintDb services.

Module Services.

(** ** The registry the services see *)

(** [IndexingRequest::try_from]: a stored status this release doesn't know is
    refused; [num_candidates as usize]. *)
Definition provider_request (r : IndexingRequest) : option IndexingRequest :=
  if bool_decide (ir_status r = UnknownRequestStatus) then None
  else Some (mkIndexingRequest (ir_id r) (ir_created_at r) (ir_updated_at r) (ir_status r)
    (ir_requested_by r) (ir_deployment_id r) (ir_deployment_chain_id r)
    (as_u64 (ir_num_candidates r))).

Definition provider_request_by_id (id : N) : DbM (option IndexingRequest) :=
  o ← get_indexing_request_by_id id; mret (o ≫= provider_request).

Definition provider_requests (m : DbM (list IndexingRequest)) : DbM (list IndexingRequest) :=
  l ← m; mret (omap provider_request l).

Definition provider_agreement_by_id (id : N) : DbM (option IndexingAgreement) :=
  o ← get_indexing_agreement_by_id id; mret (o ≫= known_agreement).

(** [.map(IndexingAgreement::try_from).filter_map(filter_map_with_logging)] *)
Definition provider_agreements (m : DbM (list IndexingAgreement)) : DbM (list IndexingAgreement) :=
  l ← m; mret (omap known_agreement l).

Definition known_cancelling (c : CancellingAgreement) : option CancellingAgreement :=
  a ← known_agreement (ca_agreement c);
  Some (mkCancelling a (ca_accepted_on_chain c) (ca_ended_seen_at c) (ca_abandoned c)).

Definition provider_cancelling (now batch_size max_attempts min_age_minutes : Z)
    : DbM (list CancellingAgreement) :=
  l ← get_cancelling_agreements now batch_size max_attempts min_age_minutes;
  mret (omap known_cancelling l).

(** ** Messages *)

Inductive Message : Type :=
| ReassessIndexingRequest (indexing_request_id deployment_id : N)
    (deployment_chain_id num_candidates : Z)
| SendIndexingAgreementProposal (indexer_url : string)
    (agreement_id indexing_request_id deployment_id : N) (deployment_chain_id : Z)
| CancelRejectedAgreementOnChain (agreement_id : N) (accept : option ChainAccept)
| SubmitOffer (agreement_id indexing_request_id : N) (indexer_url : string)
    (deployment_id : N) (deployment_chain_id : Z).

(** [trait Queue<Message>]; [false] and [None] are errors, [Some n] a retry
    budget of the job's own. *)
Class MessageQueue (W : Type) : Type := {
  mq_push : Message → JobPriority → option Z → W → bool * W;
  mq_unfinished : W → option (list Message) * W }.

(** ** The monad *)

Section services.
Context {C W : Type} `{!ChainClient C} `{!MessageQueue W}.

(** Postgres and the chain behind the cancel dispatch, the queue, the messages
    pushed to it with what it answered, and what the other tasks of the service
    write to the database before each of this one's statements. *)
Record SState : Type := mkSState {
  ss_dispatch : State PgState C;
  ss_queue : W;
  ss_pushes : list (Message * JobPriority * bool);
  ss_others : list (list op) }.

Definition S (A : Type) : Type := SState → A * SState.
#[export] Instance S_ret : MRet S := λ A a s, (a, s).
#[export] Instance S_bind : MBind S := λ A B k m s, let '(a, s') := m s in k a s'.

Definition on_dispatch {A} (m : M PgState C A) : S A := λ s,
  let '(a, d) := m (ss_dispatch s) in
  (a, mkSState d (ss_queue s) (ss_pushes s) (ss_others s)).

Definition let_others : S () := λ s,
  let d := ss_dispatch s in
  let p := st_reg d in
  (tt, mkSState (mkState (mkPg (run_ops (hd [] (ss_others s)) (pg_db p)) (pg_now p) (pg_faults p))
                   (st_chain d) (st_log d))
         (ss_queue s) (ss_pushes s) (tail (ss_others s))).

Definition statement {A} (m : Z → DbM A) : S (result Error A) :=
  on_dispatch (registry (pg_call m)).

(** One statement or transaction of the registry. *)
Definition pg {A} (m : Z → DbM A) : S (result Error A) := _ ← let_others; statement m.

Definition push_job (msg : Message) (p : JobPriority) (max_retries : option Z) : S bool := λ s,
  let '(ok, q) := mq_push msg p max_retries (ss_queue s) in
  (ok, mkSState (ss_dispatch s) q (ss_pushes s ++ [(msg, p, ok)]) (ss_others s)).

Definition unfinished_messages : S (option (list Message)) := λ s,
  let '(r, q) := mq_unfinished (ss_queue s) in (r, mkSState (ss_dispatch s) q (ss_pushes s) (ss_others s)).

Definition chain_offer `{!OfferClient C} (rca : RecurringCollectionAgreement)
    : S (result ChainClientError (option N)) := on_dispatch (λ s,
  let '(a, c) := offer_via_manager rca (st_chain s) in
  (a, mkState (st_reg s) c (st_log s ++ [CallOffer rca a]))).

Definition chain_timestamp `{!ChainClock C} : S (result ChainClientError Z) := on_dispatch (λ s,
  let '(a, c) := latest_block_timestamp (st_chain s) in
  (a, mkState (st_reg s) c (st_log s ++ [CallTime a]))).

(** [.map_err(f)?] *)
Definition try_or {E A B} (m : S (result E A)) (f : E → JobError)
    (k : A → S (result JobError B)) : S (result JobError B) :=
  r ← m; match r with Ok a => k a | Err e => mret (Err (f e)) end.

(** [?] on a job's own result *)
Definition try_job {A B} (m : S (result JobError A)) (k : A → S (result JobError B))
    : S (result JobError B) := try_or m id k.

(** [for x in xs { f(x) }] *)
Fixpoint each {A} (f : A → S ()) (xs : list A) : S () :=
  match xs with [] => mret tt | x :: rest => _ ← f x; each f rest end.

(** ** The queue facade (worker/service_queue.rs) *)

Definition queue_send_indexing_agreement_proposal (indexer_url : string)
    (agreement_id indexing_request_id deployment_id : N) (deployment_chain_id : Z)
    (priority : JobPriority) : S bool :=
  push_job (SendIndexingAgreementProposal indexer_url agreement_id indexing_request_id
    deployment_id deployment_chain_id) priority None.

Definition queue_reassess_indexing_request (indexing_request_id deployment_id : N)
    (deployment_chain_id num_candidates : Z) (priority : JobPriority) : S bool :=
  push_job (ReassessIndexingRequest indexing_request_id deployment_id deployment_chain_id
    num_candidates) priority None.

Definition queue_cancel_rejected_agreement_on_chain (agreement_id : N)
    (accept : option ChainAccept) (priority : JobPriority) : S bool :=
  push_job (CancelRejectedAgreementOnChain agreement_id accept) priority None.

Definition queue_submit_offer (submit_offer_max_retries : Z)
    (agreement_id indexing_request_id : N) (indexer_url : string) (deployment_id : N)
    (deployment_chain_id : Z) (priority : JobPriority) : S bool :=
  push_job (SubmitOffer agreement_id indexing_request_id indexer_url deployment_id
    deployment_chain_id) priority (Some submit_offer_max_retries).

Definition reassessed_request (m : Message) : option N :=
  match m with ReassessIndexingRequest id _ _ _ => Some id | _ => None end.

Definition queued_reassessments : S (option (gset N)) :=
  r ← unfinished_messages;
  mret (msgs ← r; Some (list_to_set (omap reassessed_request msgs))).

(** ** Reasoning about runs *)

Definition sdb (s : SState) : Db := pg_db (st_reg (ss_dispatch s)).
Definition slog (s : SState) : list chain_call := st_log (ss_dispatch s).
Definition snow (s : SState) : Z := pg_now (st_reg (ss_dispatch s)).

(** [wp m Q s]: from [s], [m] returns a value and a state in [Q]. *)
Definition wp {A} (m : S A) (Q : A → SState → Prop) (s : SState) : Prop :=
  Q (m s).1 (m s).2.

Lemma wp_run {A} (m : S A) Q s a s' : wp m Q s → m s = (a, s') → Q a s'.
Proof. unfold wp. intros H Hm. by rewrite Hm in H. Qed.

Lemma wp_ret {A} (a : A) (Q : A → SState → Prop) s : Q a s → wp (mret a) Q s.
Proof. done. Qed.

Lemma wp_bind {A B} (m : S A) (k : A → S B) Q s :
  wp m (λ a s', wp (k a) Q s') s → wp (m ≫= k) Q s.
Proof. unfold wp, mbind, S_bind. by destruct (m s). Qed.

Lemma wp_mono {A} (m : S A) (Q Q' : A → SState → Prop) s :
  wp m Q s → (∀ a s', Q a s' → Q' a s') → wp m Q' s.
Proof. unfold wp. auto. Qed.

Lemma wp_and {A} (m : S A) (Q Q' : A → SState → Prop) s :
  wp m Q s → wp m Q' s → wp m (λ a s', Q a s' ∧ Q' a s') s.
Proof. by split. Qed.

Lemma wp_try_or {E A B} (m : S (result E A)) f (k : A → S (result JobError B)) Q s :
  wp m (λ r s', match r with Ok a => wp (k a) Q s' | Err e => Q (Err (f e)) s' end) s →
  wp (try_or m f k) Q s.
Proof.
  intros H. apply wp_bind. eapply wp_mono; [exact H|]. by intros [a|e] s'.
Qed.

(** Everything but the database is as it was. *)
Record aside (s s' : SState) : Prop := {
  as_queue : ss_queue s' = ss_queue s;
  as_pushes : ss_pushes s' = ss_pushes s;
  as_chain : st_chain (ss_dispatch s') = st_chain (ss_dispatch s);
  as_log : slog s' = slog s;
  as_now : snow s' = snow s;
  as_others : ss_others s' = ss_others s }.

#[export] Instance aside_preorder : PreOrder aside.
Proof.
  split; [by split|]. intros s1 s2 s3 [] []. split; congruence.
Qed.

(** No other task writes to the database meanwhile. *)
Definition alone (s : SState) : Prop := ss_others s = [].

Lemma aside_alone s s' : aside s s' → alone s → alone s'.
Proof. intros [] Ha. unfold alone. congruence. Qed.

(** A statement with its answer, or a lost connection that left the database
    as it was or as the statement left it. *)
Lemma wp_statement {A} (m : Z → DbM A) (Q : result Error A → SState → Prop) s :
  (∀ r s', aside s s' → m (snow s) (sdb s) = (r, sdb s') → Q r s') →
  (∀ s', aside s s' → sdb s' = sdb s ∨ sdb s' = (m (snow s) (sdb s)).2 →
    Q (Err (DbError ConnectionLost)) s') →
  wp (statement m) Q s.
Proof.
  intros Hok Hlost. unfold wp, statement, on_dispatch, registry.
  destruct (pg_call m (st_reg (ss_dispatch s))) as [r p] eqn:Hc. simpl.
  assert (Hn : pg_now p = snow s) by (by apply pg_call_now in Hc).
  apply pg_call_cases in Hc as [Hc|[-> Hc]].
  - apply Hok; [by split|done].
  - apply Hlost; [by split|done].
Qed.

(** The state a statement finds: others may have written to the database. *)
Record interfered (s s' : SState) : Prop := {
  if_db : sdb s' = run_ops (hd [] (ss_others s)) (sdb s);
  if_queue : ss_queue s' = ss_queue s;
  if_pushes : ss_pushes s' = ss_pushes s;
  if_log : slog s' = slog s;
  if_now : snow s' = snow s;
  if_others : ss_others s' = tail (ss_others s) }.

Lemma wp_pg_shared {A} (m : Z → DbM A) (Q : result Error A → SState → Prop) s :
  (∀ s', interfered s s' → wp (statement m) Q s') → wp (pg m) Q s.
Proof. intros H. apply wp_bind. apply H. by split. Qed.

(** Others write what the registry's operations write. *)
Definition others_ok (s : SState) : Prop := Forall (Forall op_ok) (ss_others s).

Lemma interfered_inv s s' :
  interfered s s' → reg_inv (sdb s) → others_ok s → reg_inv (sdb s') ∧ others_ok s'.
Proof.
  intros [Hd _ _ _ _ Ho] Hi Hok. unfold others_ok in *. rewrite Hd, Ho.
  destruct (ss_others s) as [|os rest]; simpl; [done|]. apply Forall_cons in Hok as [H1 H2].
  split; [|done]. eapply steps_evolve; [exact Hi|]. by apply run_ops_steps.
Qed.

(** No connection is lost. *)
Definition fine (s : SState) : Prop := pg_faults (st_reg (ss_dispatch s)) = [].

Lemma wp_pg_fine {A} (m : Z → DbM A) (Q : result Error A → SState → Prop) s :
  fine s →
  (∀ s1 r s', interfered s s1 → aside s1 s' → fine s' → m (snow s1) (sdb s1) = (r, sdb s') →
    Q r s') → wp (pg m) Q s.
Proof.
  intros Hf H. apply wp_bind. unfold wp at 1. simpl.
  set (s1 := {| ss_dispatch := _ |}).
  assert (H1 : interfered s s1) by by split.
  unfold wp, statement, on_dispatch, registry, pg_call.
  destruct (m (pg_now (st_reg (ss_dispatch s1))) (pg_db (st_reg (ss_dispatch s1)))) as [r d] eqn:Hm.
  assert (Hf1 : pg_faults (st_reg (ss_dispatch s1)) = []) by done.
  rewrite Hf1. simpl. apply (H s1); [done|by split|done|done].
Qed.

(** A well-formed database that others keep well formed, no connection lost. *)
Record good (s : SState) : Prop := {
  gd_fine : fine s; gd_inv : reg_inv (sdb s); gd_others : others_ok s }.

Lemma wp_pg_good {A} (m : Z → DbM A) (Q : result Error A → SState → Prop) s :
  (∀ now d0, preserves (inv_from d0) (m now)) → good s →
  (∀ s1 r s', interfered s s1 → aside s1 s' → good s' → m (snow s1) (sdb s1) = (r, sdb s') →
    Q r s') → wp (pg m) Q s.
Proof.
  intros Hm [Hf Hi Ho] H. apply wp_pg_fine; [done|]. intros s1 r s' H1 As Hf' Hr.
  destruct (interfered_inv _ _ H1 Hi Ho) as [Hi1 Ho1]. apply (H s1); try done. split; [done|..].
  - eapply keeps_inv; [apply Hm|exact Hi1|exact Hr].
  - unfold others_ok. by rewrite (as_others _ _ As).
Qed.

Lemma wp_pg_alone {A} (m : Z → DbM A) (Q : result Error A → SState → Prop) s :
  alone s → wp (statement m) Q s → wp (pg m) Q s.
Proof.
  intros Ha H. destruct s as [[[d n f] c l] q p o]. unfold alone in Ha. simpl in Ha. by subst o.
Qed.

Lemma wp_pg {A} (m : Z → DbM A) (Q : result Error A → SState → Prop) s :
  alone s →
  (∀ r s', aside s s' → m (snow s) (sdb s) = (r, sdb s') → Q r s') →
  (∀ s', aside s s' → sdb s' = sdb s ∨ sdb s' = (m (snow s) (sdb s)).2 →
    Q (Err (DbError ConnectionLost)) s') →
  wp (pg m) Q s.
Proof. intros Ha H1 H2. by apply wp_pg_alone, wp_statement. Qed.

(** A read of the database, or a lost connection; nothing changes. *)
Lemma wp_read {A} (f : Z → Db → result Error A) (Q : result Error A → SState → Prop) s :
  (∀ r s', aside s s' → sdb s' = sdb s → r = f (snow s) (sdb s) ∨ r = Err (DbError ConnectionLost) →
    Q r s') →
  wp (statement (λ now d, (f now d, d))) Q s.
Proof.
  intros H. apply wp_statement.
  - intros r s' Ha [= <- Hd]. apply H; auto.
  - intros s' Ha Hd. apply H; [done| |by right]. by destruct Hd.
Qed.

(** A query whose answer is known, with what the service was asked kept. *)
Lemma wp_query {A} (m : Z → DbM A) (x : A) (Q : result Error A → SState → Prop) s :
  m (snow s) (sdb s) = (Ok x, sdb s) →
  (∀ s', aside s s' → sdb s' = sdb s → (fine s → fine s') → Q (Ok x) s') →
  (∀ s', aside s s' → sdb s' = sdb s → ¬ fine s → Q (Err (DbError ConnectionLost)) s') →
  wp (statement m) Q s.
Proof.
  intros Hm Hok Hlost. unfold wp, statement, on_dispatch, registry, pg_call, fine in *.
  unfold snow, sdb in Hm. rewrite Hm.
  destruct (pg_faults (st_reg (ss_dispatch s))) as [|[] fs] eqn:Hf; simpl.
  - by apply Hok.
  - by apply Hok.
  - apply Hlost; by try split.
  - apply Hlost; by try split.
Qed.

Lemma wp_dispatch {A} (m : M PgState C A) (Q : A → SState → Prop) s :
  (∀ a d s', m (ss_dispatch s) = (a, d) → ss_dispatch s' = d → ss_queue s' = ss_queue s →
    ss_pushes s' = ss_pushes s → ss_others s' = ss_others s → Q a s') → wp (on_dispatch m) Q s.
Proof.
  intros H. unfold wp, on_dispatch. destruct (m (ss_dispatch s)) as [a d] eqn:Hm.
  by eapply H.
Qed.

Lemma wp_push msg p n (Q : bool → SState → Prop) s :
  (∀ ok s', ss_dispatch s' = ss_dispatch s → ss_pushes s' = ss_pushes s ++ [(msg, p, ok)] →
    ss_others s' = ss_others s → Q ok s') → wp (push_job msg p n) Q s.
Proof.
  intros H. unfold wp, push_job. destruct (mq_push msg p n (ss_queue s)) as [ok q]. by apply H.
Qed.

(** *** Calls on the chain *)

(** The chain was asked these and nothing else happened. *)
Record asked (calls : list chain_call) (s s' : SState) : Prop := {
  ak_db : sdb s' = sdb s;
  ak_now : snow s' = snow s;
  ak_queue : ss_queue s' = ss_queue s;
  ak_pushes : ss_pushes s' = ss_pushes s;
  ak_others : ss_others s' = ss_others s;
  ak_faults : pg_faults (st_reg (ss_dispatch s')) = pg_faults (st_reg (ss_dispatch s));
  ak_log : slog s' = slog s ++ calls }.

Lemma asked_good calls s s' : asked calls s s' → good s → good s'.
Proof.
  intros [D _ _ _ O F _] [Hf Hi Ho]. split; [unfold fine; congruence|by rewrite D|].
  unfold others_ok. by rewrite O.
Qed.

Lemma asked_trans c1 c2 s1 s2 s3 : asked c1 s1 s2 → asked c2 s2 s3 → asked (c1 ++ c2) s1 s3.
Proof. intros [] []. split; try congruence. rewrite app_assoc. congruence. Qed.

(** The same, queries of the database among the calls. *)
Record consulted (calls : list chain_call) (s s' : SState) : Prop := {
  cs_db : sdb s' = sdb s;
  cs_now : snow s' = snow s;
  cs_pushes : ss_pushes s' = ss_pushes s;
  cs_others : ss_others s' = ss_others s;
  cs_fine : fine s → fine s';
  cs_log : slog s' = slog s ++ calls }.

Lemma asked_consulted calls s s' : asked calls s s' → consulted calls s s'.
Proof. intros []. split; try done. unfold fine. congruence. Qed.

Lemma query_consulted s s' :
  aside s s' → sdb s' = sdb s → (fine s → fine s') → consulted [] s s'.
Proof. intros [] D Hf. split; try done. by rewrite app_nil_r. Qed.

Lemma consulted_trans c1 c2 s1 s2 s3 :
  consulted c1 s1 s2 → consulted c2 s2 s3 → consulted (c1 ++ c2) s1 s3.
Proof. intros [] []. split; try congruence; [auto|]. rewrite app_assoc. congruence. Qed.

Lemma wp_on_bind {A B} (m : M PgState C A) (k : A → M PgState C B) Q s :
  wp (on_dispatch m) (λ a s', wp (on_dispatch (k a)) Q s') s → wp (on_dispatch (m ≫= k)) Q s.
Proof.
  unfold wp, on_dispatch, mbind, M_bind. destruct (m (ss_dispatch s)) as [a d]. simpl.
  by destruct (k a d).
Qed.

Lemma wp_on_ret {A} (a : A) (Q : A → SState → Prop) s : Q a s → wp (on_dispatch (mret a)) Q s.
Proof. by destruct s. Qed.

Lemma wp_chain_read id Q s :
  (∀ answer s', asked [CallRead id answer] s s' → Q answer s') →
  wp (on_dispatch (chain_read id)) Q s.
Proof.
  intros H. unfold wp, on_dispatch, chain_read. destruct (agreement_on_chain _ _). by apply H.
Qed.

Lemma wp_chain_cancel collector id h o Q s :
  (∀ answer s', asked [CallCancel id collector h o (db_status (sdb s) id)] s s' → Q answer s') →
  wp (on_dispatch (chain_cancel collector id h o)) Q s.
Proof.
  intros H. unfold wp, on_dispatch, chain_cancel. destruct (cancel_via_manager _ _ _ _ _).
  by apply H.
Qed.

Lemma wp_chain_offer `{!OfferClient C} rca Q s :
  (∀ answer s', asked [CallOffer rca answer] s s' → Q answer s') → wp (chain_offer rca) Q s.
Proof.
  intros H. unfold wp, chain_offer, on_dispatch. destruct (offer_via_manager _ _). by apply H.
Qed.

Lemma wp_chain_timestamp `{!ChainClock C} Q s :
  (∀ answer s', asked [CallTime answer] s s' → Q answer s') → wp chain_timestamp Q s.
Proof.
  intros H. unfold wp, chain_timestamp, on_dispatch. destruct (latest_block_timestamp _).
  by apply H.
Qed.

(** Reading the chain and, if it is live, cancelling it: the calls made and
    what they say. *)
Inductive cancel_calls (config : IndexingAgreementConfig) (a : IndexingAgreement)
    (held : option AgreementStatus) : list chain_call → LiveCancel → Prop :=
| CallsUnread err : cancel_calls config a held [CallRead (ia_id a) (Err err)] (LcReadFailed err)
| CallsNotLive st : st ≠ Live →
    cancel_calls config a held [CallRead (ia_id a) (Ok st)]
      (LcNotLive (bool_decide (st = EndedByIndexer)))
| CallsNoHash : cancel_hash a = None →
    cancel_calls config a held [CallRead (ia_id a) (Ok Live)]
      (LcCancelFailed (MissingTermsVersionHash (ia_id a)))
| CallsRefused h err : cancel_hash a = Some h →
    cancel_calls config a held
      [CallRead (ia_id a) (Ok Live);
       CallCancel (ia_id a) (recurring_collector config) h SCOPE_BOTH held]
      (LcCancelFailed err)
| CallsSent h tx answer : cancel_hash a = Some h →
    cancel_calls config a held
      [CallRead (ia_id a) (Ok Live);
       CallCancel (ia_id a) (recurring_collector config) h SCOPE_BOTH held;
       CallRead (ia_id a) answer]
      (match answer with
       | Ok NotLive => LcEnded tx
       | Ok EndedByIndexer => LcNotLive true
       | Ok Live => LcCancelFailed (CancelNotConfirmed (ia_id a))
       | Err err => LcUnconfirmed tx err
       end).

(** The last call shows the agreement gone from the chain. *)
Definition ends_not_live (id : N) (log : list chain_call) : Prop :=
  ∃ before st, log = before ++ [CallRead id (Ok st)] ∧ st ≠ Live.

(** A cancel goes out only for an agreement the registry holds as cancelling. *)
Definition marked_call (c : chain_call) : Prop :=
  match c with CallCancel _ _ _ _ held => held = Some Cancelling | _ => True end.

Lemma cancel_calls_marked config a calls l :
  cancel_calls config a (Some Cancelling) calls l → Forall marked_call calls.
Proof. by destruct 1; repeat constructor. Qed.

Lemma wp_cancel_if_live config a (Q : LiveCancel → SState → Prop) s :
  (∀ calls l s', cancel_calls config a (db_status (sdb s) (ia_id a)) calls l →
    asked calls s s' → Q l s') →
  wp (on_dispatch (cancel_if_live config a)) Q s.
Proof.
  intros H. unfold cancel_if_live. apply wp_on_bind, wp_chain_read. intros answer s1 A1.
  destruct answer as [st|err]; [|apply wp_on_ret; eapply H; [constructor|done]].
  destruct (decide (st = Live)) as [->|Hl].
  2:{ destruct st; [done|..]; apply wp_on_ret; (eapply H; [by apply CallsNotLive|done]). }
  unfold cancel_agreement_on_chain. destruct (cancel_hash a) as [h|] eqn:Hh.
  2:{ apply wp_on_ret. eapply H; [by constructor|done]. }
  apply wp_on_bind, wp_chain_cancel. intros sent s2 A2. rewrite (ak_db _ _ _ A1) in A2.
  destruct sent as [tx|err].
  2:{ apply wp_on_ret. eapply H; [by eapply CallsRefused|]. exact (asked_trans _ _ _ _ _ A1 A2). }
  apply wp_on_bind, wp_chain_read. intros answer s3 A3. apply wp_on_ret.
  eapply H; [by eapply (CallsSent config a _ h tx answer)|].
  exact (asked_trans _ _ _ _ _ A1 (asked_trans _ _ _ _ _ A2 A3)).
Qed.

(** *** Statements on one agreement *)

(** Only this agreement's row may differ. *)
Definition only_row (id : N) (d d' : Db) : Prop :=
  d' = set_agreements (agreements d') d ∧ ∀ k, k ≠ id → agreements d' !! k = agreements d !! k.

#[export] Instance only_row_preorder id : PreOrder (only_row id).
Proof.
  split; [by intros []|]. intros d1 d2 d3 [E1 H1] [E2 H2]. split; [by rewrite E2, E1|].
  intros k Hk. by rewrite H2, H1.
Qed.

Lemma only_row_insert id r d : only_row id d (set_agreements (<[id := r]> (agreements d)) d).
Proof. split; [done|]. intros k Hk. simpl. by rewrite lookup_insert_ne. Qed.

(** What a guarded mark may have done when its answer was lost. *)
Definition maybe_marked (id : N) (allowed : list AgreementStatus)
    (f : AgreementRow → AgreementRow) (d d' : Db) : Prop :=
  d' = d ∨ ∃ r, agreements d !! id = Some r ∧ ag_status r ∈ allowed ∧
    d' = set_agreements (<[id := f r]> (agreements d)) d.

Lemma guarded_cases id allowed f d a d' :
  guarded id allowed f d = (a, d') →
  (∃ r, agreements d !! id = Some r ∧ ag_status r ∈ allowed ∧ a = Ok tt ∧
    d' = set_agreements (<[id := f r]> (agreements d)) d) ∨
  (a = Err NoRecordsUpdated ∧ d' = d ∧
    ∀ r, agreements d !! id = Some r → ag_status r ∉ allowed).
Proof.
  unfold guarded. destruct (agreements d !! id) as [r|] eqn:Hr.
  - unfold status_in. case_bool_decide; intros [= <- <-]; [left; eauto|right; naive_solver].
  - intros [= <- <-]. right. naive_solver.
Qed.

Lemma wp_guarded_statement (m : Z → DbM ()) id allowed f (Q : result Error () → SState → Prop) s :
  (∀ d, reg_inv d → m (snow s) d = guarded id allowed f d) →
  (∀ d0, preserves (inv_from d0) (m (snow s))) → reg_inv (sdb s) →
  (∀ s' r, aside s s' → reg_inv (sdb s') → agreements (sdb s) !! id = Some r →
    ag_status r ∈ allowed → sdb s' = set_agreements (<[id := f r]> (agreements (sdb s))) (sdb s) →
    Q (Ok tt) s') →
  (∀ s', aside s s' → sdb s' = sdb s →
    (∀ r, agreements (sdb s) !! id = Some r → ag_status r ∉ allowed) →
    Q (Err NoRecordsUpdated) s') →
  (∀ s', aside s s' → reg_inv (sdb s') → maybe_marked id allowed f (sdb s) (sdb s') →
    Q (Err (DbError ConnectionLost)) s') →
  wp (statement m) Q s.
Proof.
  intros Hm Hp Hi Hok Hno Hlost.
  assert (Hi' : reg_inv (m (snow s) (sdb s)).2).
  { eapply keeps_inv; [exact Hp|exact Hi|apply surjective_pairing]. }
  destruct (m (snow s) (sdb s)) as [a d'] eqn:Ed. rewrite Hm in Ed by done. simpl in Hi'.
  apply guarded_cases in Ed as Hc.
  apply wp_statement; rewrite Hm, Ed by done; simpl.
  - intros r s' Ha [= <- Hd]. rewrite Hd in Hi'.
    destruct Hc as [(r & Hr & Hin & -> & ->)|(-> & -> & Hn)]; [eapply Hok|eapply Hno]; eauto.
  - intros s' Ha Hd. apply Hlost; [done|by destruct Hd as [->| ->]|].
    destruct Hd as [->| ->]; [by left|].
    destruct Hc as [(r & Hr & Hin & -> & ->)|(-> & -> & Hn)]; [right; eauto|by left].
Qed.

(** A property of the states a loop passes through. *)
Lemma wp_each {A} (f : A → S ()) xs (I : SState → Prop) s :
  (∀ x s, x ∈ xs → I s → wp (f x) (λ _, I) s) → I s → wp (each f xs) (λ _, I) s.
Proof.
  revert s. induction xs as [|x xs IH]; intros s Hf Hs; simpl; [done|].
  apply wp_bind. eapply wp_mono; [apply Hf; [by left|done]|].
  intros u s' Hs'. apply IH; [|done]. intros y s'' Hy. apply Hf. by right.
Qed.

End services.

Arguments SState : clear implicits.
Arguments S : clear implicits.

End Services.
