(* ===== verification/RowOps.v ===== *)
(** * Statements on one agreement's row

    Most of what the services write is one row of the agreements.  A row
    operation reads and rewrites that row and leaves the rest of the database,
    so a run of a service is followed row by row; a lost connection leaves the
    row as it was or as the statement left it. *)

From S2P Require Import Prelude Schema Registry RegistryInv RegistryRuns RegistryOps RegistryQueries.
From S2P Require Import JobQueue Worker Rca CancelDispatch CancelDispatchProps.
From S2P Require Import ChainEvents ChainListener ChainReconcile Services.
Import Schema Registry RegistryInv RegistryRuns RegistryOps RegistryQueries.
Import JobQueue Worker Rca CancelDispatch CancelDispatchProps ChainEvents ChainListener.
Import ChainReconcile Services.
Local Open Scope Z_scope.

Create HintDb rowops.

Module RowOps.

(** What a statement answers and leaves in the row; without a row it answers
    [none]. *)
Definition row_op {A} (id : N) (g : AgreementRow → result Error A * AgreementRow)
    (none : result Error A) (m : DbM A) : Prop :=
  ∀ d, reg_inv d → m d =
    match agreements d !! id with
    | Some r => ((g r).1, set_agreements (<[id := (g r).2]> (agreements d)) d)
    | None => (none, d)
    end.

Lemma set_same_row id r d :
  agreements d !! id = Some r → set_agreements (<[id := r]> (agreements d)) d = d.
Proof. intros Hr. rewrite insert_id by done. by destruct d. Qed.

Definition guard_row (allowed : list AgreementStatus) (f : AgreementRow → AgreementRow)
    (r : AgreementRow) : result Error () * AgreementRow :=
  if status_in allowed r then (Ok tt, f r) else (Err NoRecordsUpdated, r).

Lemma guarded_row_op id allowed f m :
  (∀ d, reg_inv d → m d = guarded id allowed f d) →
  row_op id (guard_row allowed f) (Err NoRecordsUpdated) m.
Proof.
  intros Hm d Hd. rewrite Hm by done. unfold guarded, guard_row.
  destruct (agreements d !! id) as [r|] eqn:Hr; [|done].
  destruct (status_in allowed r); simpl; [done|]. by rewrite set_same_row.
Qed.

Lemma abandoning_row_op now id :
  row_op id (guard_row [AcceptedOnChain]
      (λ r, set_replacement_pending true (set_abandoned true (touch now Cancelling r))))
    (Err NoRecordsUpdated) (mark_indexing_agreement_as_abandoning now id).
Proof. apply guarded_row_op. intros. by apply abandoning_run. Qed.

Lemma expired_row_op now id :
  row_op id (guard_row [Created] (touch now Expired)) (Err NoRecordsUpdated)
    (mark_indexing_agreement_as_expired now id).
Proof. apply guarded_row_op. intros. by apply expired_run. Qed.

Lemma unresponsive_row_op now id :
  row_op id (guard_row [Created] (touch now Unresponsive)) (Err NoRecordsUpdated)
    (mark_indexing_agreement_as_unresponsive now id).
Proof. apply guarded_row_op. intros. by apply unresponsive_run. Qed.

Definition end_from (reason : CancelReason) : list AgreementStatus :=
  match reason with NotWanted => CANCEL_BY_REQUESTER_FROM | Abandoned => [Cancelling] end.

Lemma end_mark_row_op reason now id :
  row_op id (guard_row (end_from reason) (touch now (ended_status reason))) (Err NoRecordsUpdated)
    (end_mark reason id now).
Proof.
  apply guarded_row_op. intros d Hd. destruct reason; unfold end_mark, guarded;
    [unfold mark_indexing_agreement_as_canceled_by_requester|
     unfold mark_indexing_agreement_as_abandoned_by_indexer];
    by rewrite set_status_from_run by (done || set_solver).
Qed.

Lemma cancel_audit_row_op id at_ by_ tx :
  row_op id (λ r, (Ok tt, with_end (as_i64 at_) by_ tx r)) (Ok tt)
    (void (record_cancel_audit id at_ by_ tx)).
Proof.
  intros d Hd. unfold void. rewrite bind_run, record_cancel_audit_run by apply Hd.
  by destruct (agreements d !! id).
Qed.

Lemma cancel_check_row_op now id n ended :
  0 ≤ n →
  row_op id (λ r, if bool_decide (ag_status r = Cancelling)
                  then (Ok (Z.min (ag_cancel_attempts r + n) i32_max), checked_row now n ended r)
                  else (Err NoRecordsUpdated, r)) (Err NoRecordsUpdated)
    (record_cancel_check now id n ended).
Proof.
  intros Hn d Hd. rewrite record_cancel_check_run by done.
  destruct (agreements d !! id) as [r|] eqn:Hr; [|done].
  case_bool_decide; simpl; [done|]. by rewrite set_same_row.
Qed.

Lemma replacement_queued_row_op id :
  row_op id (λ r, (Ok tt, set_replacement_pending false r)) (Ok tt) (mark_replacement_queued id).
Proof.
  intros d Hd. unfold mark_replacement_queued.
  rewrite bind_run, update_one_quiet by (apply Hd || done).
  by destruct (agreements d !! id).
Qed.

Lemma sync_progress_row_op id height at_ :
  row_op id (λ r, (Ok tt, set_last_progress_at (Some at_)
                     (set_last_block_height (Some (as_i64 height)) r))) (Ok tt)
    (update_agreement_sync_progress id height at_).
Proof.
  intros d Hd. unfold update_agreement_sync_progress.
  rewrite bind_run, update_one_quiet by (apply Hd || done).
  by destruct (agreements d !! id).
Qed.

Lemma end_by_indexer_row_op now id :
  row_op id (λ r, if status_in CANCEL_BY_INDEXER_FROM r
                  then (Ok (mkOutcome false true), touch now CanceledByIndexer r)
                  else (Ok (mkOutcome false false), r)) (Ok (mkOutcome false false))
    (apply_reconciliation now id false (Some ByIndexer)).
Proof.
  intros d Hd. unfold apply_reconciliation, transaction. rewrite !bind_run. simpl.
  change (apply_cancel now id ByIndexer)
    with (update_status_from now id CanceledByIndexer CANCEL_BY_INDEXER_FROM).
  rewrite bind_run, update_status_from_run by done.
  destruct (agreements d !! id) as [r|] eqn:Hr; [|done].
  destruct (status_in CANCEL_BY_INDEXER_FROM r); simpl; [done|]. by rewrite set_same_row.
Qed.

(** ** Listed rows *)

(** Rows a query lists: each is in the table, once, and satisfies [p]. *)
Record listed (p : AgreementRow → bool) (d : Db) (rows : list AgreementRow) : Prop := {
  li_rows : ∀ r, r ∈ rows → agreements d !! ag_id r = Some r ∧ p r = true;
  li_once : NoDup (ag_id <$> rows) }.

Lemma sublist_Forall {A} (P : A → Prop) l l' : l' `sublist_of` l → Forall P l → Forall P l'.
Proof. rewrite !Forall_forall. intros Hl H x Hx. apply H. by eapply elem_of_sublist. Qed.

Lemma fmap_sublist {A B} (f : A → B) l l' : l' `sublist_of` l → (f <$> l') `sublist_of` (f <$> l).
Proof. induction 1; simpl; by constructor. Qed.

Lemma listed_select p d : reg_inv d → listed p d (select p (agreements d)).
Proof.
  intros Hi. split.
  - intros r (k & Hk & Hp)%elem_of_select. split; [|done]. by rewrite (inv_key _ Hi k r Hk).
  - unfold select. eapply sublist_NoDup; [|apply fmap_sublist, sublist_filter].
    assert (Hk : ag_id <$> (map_to_list (agreements d)).*2 = (map_to_list (agreements d)).*1).
    { rewrite <- list_fmap_compose. apply list_fmap_ext. intros i [k r] Hk. simpl.
      apply (inv_key _ Hi), elem_of_map_to_list, (list_elem_of_lookup_2 _ i), Hk. }
    rewrite Hk. apply NoDup_fst_map_to_list.
Qed.

Lemma listed_perm p d l l' : l ≡ₚ l' → listed p d l → listed p d l'.
Proof. intros Hp [H1 H2]. split; [intros r; rewrite <- Hp; apply H1|by rewrite <- Hp]. Qed.

Lemma listed_sublist p d l l' : l' `sublist_of` l → listed p d l → listed p d l'.
Proof.
  intros Hs [H1 H2]. split; [intros r Hr; apply H1; by eapply elem_of_sublist|].
  eapply sublist_NoDup; [exact H2|]. by apply fmap_sublist.
Qed.

Lemma listed_first p d key n :
  reg_inv d → listed p d (take n (order_by key (select p (agreements d)))).
Proof.
  intros Hi. eapply listed_sublist; [apply sublist_take|].
  eapply listed_perm; [symmetry; apply order_by_perm|]. by apply listed_select.
Qed.

(** The agreements the services are shown of some rows. *)
Definition known_row (r : AgreementRow) : Prop := ag_status r ≠ UnknownStatus.
#[export] Instance known_row_dec r : Decision (known_row r).
Proof. unfold known_row. apply _. Defined.

Lemma known_rows (rows : list AgreementRow) :
  omap known_agreement (agreement_of_row <$> rows) = agreement_of_row <$> filter known_row rows.
Proof.
  induction rows as [|r rows IH]; [done|]. csimpl. rewrite filter_cons, IH.
  unfold known_agreement at 1. simpl. unfold known_row at 2.
  case_bool_decide as Hr; case_decide as Hk; done.
Qed.

(** ** Runs *)

Section rows.
Context {C W : Type} `{!ChainClient C} `{!MessageQueue W}.
Notation SState := (SState C W).

Definition srow (s : SState) (id : N) : option AgreementRow := agreements (sdb s) !! id.

Lemma db_status_row s id : db_status (sdb s) id = ag_status <$> srow s id.
Proof. done. Qed.

(** The row and the answer after a statement, unless the connection was lost. *)
Definition row_answer {A} (g : AgreementRow → result Error A * AgreementRow)
    (none : result Error A) (old : option AgreementRow) : result Error A * option AgreementRow :=
  match old with Some r => ((g r).1, Some (g r).2) | None => (none, None) end.

(** What a step that writes only [id]'s row leaves of the rest. *)
Record on_row (id : N) (s s' : SState) : Prop := {
  or_aside : aside s s';
  or_inv : reg_inv (sdb s');
  or_only : only_row id (sdb s) (sdb s');
  or_fine : fine s → fine s' }.

Lemma wp_row {A} (m : Z → DbM A) id g none (Q : result Error A → SState → Prop) s :
  row_op id g none (m (snow s)) → (∀ d0, preserves (inv_from d0) (m (snow s))) → reg_inv (sdb s) →
  (∀ a s', on_row id s s' → (a, srow s' id) = row_answer g none (srow s id) → Q a s') →
  (∀ s', on_row id s s' → ¬ fine s →
    (srow s' id = srow s id ∨ srow s' id = (row_answer g none (srow s id)).2) →
    Q (Err (DbError ConnectionLost)) s') →
  wp (statement m) Q s.
Proof.
  intros Hrow Hp Hi Hok Hlost.
  assert (Hi' : reg_inv (m (snow s) (sdb s)).2).
  { eapply keeps_inv; [exact Hp|exact Hi|apply surjective_pairing]. }
  assert (Hd : only_row id (sdb s) (m (snow s) (sdb s)).2 ∧
    ((m (snow s) (sdb s)).1, agreements (m (snow s) (sdb s)).2 !! id) =
      row_answer g none (srow s id)).
  { rewrite Hrow by done. unfold srow. destruct (agreements (sdb s) !! id) as [r|] eqn:Hr; simpl.
    - split; [apply only_row_insert|]. by rewrite lookup_insert_eq.
    - by rewrite Hr. }
  destruct Hd as [Ho Ha]. unfold wp, statement, on_dispatch, registry, pg_call, fine in *.
  set (p := st_reg (ss_dispatch s)) in *. unfold snow, sdb in Ho, Ha, Hi'. fold p in Ho, Ha, Hi'.
  destruct (m (pg_now p) (pg_db p)) as [a d] eqn:Hm. simpl in Ho, Ha, Hi'.
  assert (Hne : pg_faults p ≠ [] → ¬ fine s) by (intros Hn E; exact (Hn E)).
  destruct (pg_faults p) as [|[] fs] eqn:Hf; simpl; rewrite ?Hm; simpl;
    try (assert (Hnf : ¬ fine s) by by apply Hne).
  - apply Hok; [split; [by split|done..]|done].
  - apply Hok; [split; [by split|done..]|done].
  - apply Hlost; [split; [by split|done..]|done|by left].
  - apply Hlost; [split; [by split|done..]|done|].
    right. change (agreements d !! id = (row_answer g none (srow s id)).2). by rewrite <- Ha.
Qed.

Lemma on_row_trans id s1 s2 s3 : on_row id s1 s2 → on_row id s2 s3 → on_row id s1 s3.
Proof. intros [] []. split; [by etrans|done|by etrans|auto]. Qed.

Lemma on_row_refl id s : reg_inv (sdb s) → on_row id s s.
Proof. by split. Qed.

(** Only [id]'s row and the pending cancellations may differ. *)
Record touched (id : N) (s s' : SState) : Prop := {
  tc_inv : reg_inv (sdb s');
  tc_rows : ∀ k, k ≠ id → srow s' k = srow s k;
  tc_requests : requests (sdb s') = requests (sdb s);
  tc_pushes : ss_pushes s' = ss_pushes s;
  tc_others : ss_others s' = ss_others s;
  tc_log : slog s' = slog s;
  tc_now : snow s' = snow s }.

Lemma on_row_touched id s s' : on_row id s s' → touched id s s'.
Proof.
  intros [[] Hi [E Hr] _]. split; try done. by rewrite E.
Qed.

Lemma touched_trans id s1 s2 s3 : touched id s1 s2 → touched id s2 s3 → touched id s1 s3.
Proof.
  intros [] []. split; try congruence; try done. intros k Hk. rewrite tc_rows1 by done. auto.
Qed.

Lemma wp_delete_pending id (Q : result Error () → SState → Prop) s :
  alone s → reg_inv (sdb s) →
  (∀ x s', touched id s s' → srow s' id = srow s id → (∀ p, p ∈ pending (sdb s') → p ∈ pending (sdb s)) →
    (fine s → x = Ok tt ∧ fine s' ∧ pending (sdb s') = filter (λ p, p.1 ≠ id) (pending (sdb s))) →
    Q x s') →
  wp (pg (λ _, delete_pending_cancellations_by_new_agreement id)) Q s.
Proof.
  intros Ha Hi HQ. apply wp_pg_alone; [done|].
  assert (Hi' : reg_inv (set_pending (filter (λ p, p.1 ≠ id) (pending (sdb s))) (sdb s))).
  { eapply (keeps_inv (delete_pending_cancellations_by_new_agreement id) (sdb s) (Ok tt));
      [intros d0; apply delete_pending_inv|exact Hi|done]. }
  unfold wp, statement, on_dispatch, registry, pg_call, sdb, fine in *.
  destruct (pg_faults (st_reg (ss_dispatch s))) as [|[] fs] eqn:Hf; simpl; rewrite ?Hf; simpl.
  - apply HQ; [by split|done|set_solver|done].
  - apply HQ; [by split|done|set_solver|done].
  - by apply HQ.
  - apply HQ; [by split|done|set_solver|done].
Qed.

(** *** Ending a cancel *)

(** The status an ended cancel gets, or the one it had. *)
Definition moved_to (id : N) (st : AgreementStatus) (s s' : SState) : Prop :=
  db_status (sdb s') id = db_status (sdb s) id ∨ db_status (sdb s') id = Some st.

Lemma with_end_status at_ by_ tx r : ag_status (with_end at_ by_ tx r) = ag_status r.
Proof. unfold with_end. by case_match. Qed.

Lemma checked_row_status now n ended r : ag_status (checked_row now n ended r) = ag_status r.
Proof. done. Qed.

Lemma wp_cancel_audit id at_ by_ tx (Q : result Error () → SState → Prop) s :
  reg_inv (sdb s) →
  (∀ a s', on_row id s s' → db_status (sdb s') id = db_status (sdb s) id →
    a = Ok tt ∨ a = Err (DbError ConnectionLost) ∧ ¬ fine s → Q a s') →
  wp (statement (λ _, void (record_cancel_audit id at_ by_ tx))) Q s.
Proof.
  intros Hi HQ. eapply wp_row; [apply cancel_audit_row_op|intros; apply void_inv, audits_inv|done|..].
  - intros a s' Ho Ha. apply HQ; [done|..]; rewrite ?db_status_row;
      destruct (srow s id); injection Ha as -> Hs; rewrite ?Hs; simpl; rewrite ?with_end_status; auto.
  - intros s' Ho Hf Hr. apply HQ; [done| |by right]. rewrite !db_status_row.
    destruct Hr as [-> | ->]; [done|]. destruct (srow s id); simpl; by rewrite ?with_end_status.
Qed.

Lemma mark_ended_statement a reason :
  on_dispatch (C := C) (W := W) (mark_ended a reason) = statement (end_mark reason (ia_id a)).
Proof. by destruct reason. Qed.

Lemma wp_mark_ended reason a (Q : result Error () → SState → Prop) s :
  reg_inv (sdb s) →
  (∀ x s', on_row (ia_id a) s s' → moved_to (ia_id a) (ended_status reason) s s' →
    (x = Ok tt → db_status (sdb s') (ia_id a) = Some (ended_status reason)) →
    (x = Err NoRecordsUpdated → db_status (sdb s) (ia_id a) ≠ Some Cancelling) →
    (fine s → x = Ok tt ∨ x = Err NoRecordsUpdated) → Q x s') →
  wp (on_dispatch (mark_ended a reason)) Q s.
Proof.
  intros Hi HQ. rewrite mark_ended_statement.
  assert (Hc : ∀ r, ag_status r = Cancelling → status_in (end_from reason) r = true).
  { intros r Hr. unfold status_in. apply bool_decide_true. rewrite Hr.
    destruct reason; simpl; set_solver. }
  eapply wp_row; [apply end_mark_row_op| |done|..].
  { intros d0. destruct reason; apply set_status_inv. }
  - intros x s' Ho Ha. unfold moved_to in HQ. apply HQ; [done|..]; rewrite ?db_status_row;
      destruct (srow s (ia_id a)) as [r|]; simpl in *; unfold guard_row in Ha.
    all: try (destruct (status_in (end_from reason) r) eqn:Hs; simpl in Ha).
    all: injection Ha as -> Hr; rewrite ?Hr; simpl; auto; try done.
    intros _ [= E]. rewrite Hc in Hs; done.
  - intros s' Ho Hf Hr. unfold moved_to in HQ. apply HQ; [done|..]; try done; rewrite !db_status_row.
    destruct Hr as [-> | ->]; [by left|]. destruct (srow s (ia_id a)) as [r|]; [|by left].
    simpl. unfold guard_row. destruct (status_in _ r); simpl; auto.
Qed.

Lemma wp_confirm_cancelled tx_string config now_secs a reason tx
    (Q : bool → SState → Prop) s :
  reg_inv (sdb s) →
  (∀ b s', on_row (ia_id a) s s' → moved_to (ia_id a) (ended_status reason) s s' →
    (db_status (sdb s) (ia_id a) = Some Cancelling → b = true →
      db_status (sdb s') (ia_id a) = Some (ended_status reason)) →
    (fine s → b = true) → Q b s') →
  wp (on_dispatch (confirm_cancelled tx_string config now_secs a reason tx)) Q s.
Proof.
  intros Hi HQ. unfold confirm_cancelled. apply wp_on_bind.
  assert (Hmark : ∀ s1, on_row (ia_id a) s s1 →
    db_status (sdb s1) (ia_id a) = db_status (sdb s) (ia_id a) →
    wp (on_dispatch (marked ← mark_ended a reason;
        mret (match marked with
              | Ok tt => true | Err NoRecordsUpdated => true | Err _ => false end))) Q s1).
  { intros s1 O1 E1. apply wp_on_bind, wp_mark_ended; [apply O1|].
    intros x s2 O2 Hm Hok Hno Hfine. apply wp_on_ret, HQ.
    - by eapply on_row_trans.
    - unfold moved_to in *. by rewrite <- E1.
    - rewrite <- E1. intros Hc Hx. apply Hok. destruct x as [[]|[]]; try done. by destruct Hno.
    - intros Hf. destruct Hfine as [-> | ->]; [by apply O1|done..]. }
  destruct (is_null tx).
  - apply wp_on_ret, Hmark; [by apply on_row_refl|done].
  - apply wp_on_bind, wp_cancel_audit; [done|]. intros x s1 O1 E1 _. apply wp_on_ret. by apply Hmark.
Qed.

End rows.

(** ** Scripted runs *)

(** A queue that takes every job. *)
#[export] Instance ListedQueue : MessageQueue (list Message) := {|
  mq_push msg _ _ q := (true, q ++ [msg]);
  mq_unfinished q := (Some q, q) |}.

#[export] Instance ScriptedClock : ChainClock Script := λ c, (Ok 1900000001, c).

#[export] Instance ScriptedOffers : OfferClient Script := λ _ c, (Ok (Some 98%N), c).

Definition demo_run (d : Db) (reads : list (result ChainClientError AgreementOnChain))
    (others : list (list op)) : SState Script (list Message) :=
  mkSState (mkState (mkPg d 100 []) (mkScript reads [Ok (Some 99%N)]) []) [] [] others.

Lemma run_ops_inv os : Forall op_ok os → reg_inv (run_ops os empty_db).
Proof. intros H. by apply reachable_reg_inv, run_ops_steps. Defined.

End RowOps.
