(* ===== verification/Interleaving.v ===== *)
(** * Tasks that share the database

    Dipper's tasks write to one database: between two statements of a task,
    others run statements of theirs.  A run of a task is followed here as a
    sequence of turns, the others' as the state says they come and the task's
    own, each of which may only write what a relation allows of the database it
    finds at that moment.  What a task has read earlier may have changed by then;
    the columns no update touches have not. *)

From S2P Require Import Prelude Schema Registry RegistryInv RegistryRuns RegistryOps RegistryQueries.
From S2P Require Import JobQueue Worker Rca CancelDispatch CancelDispatchProps.
From S2P Require Import ChainEvents ChainListener ChainReconcile Services RowOps.
Import Schema Registry RegistryInv RegistryRuns RegistryOps RegistryQueries.
Import JobQueue Worker Rca CancelDispatch CancelDispatchProps ChainEvents ChainListener.
Import ChainReconcile Services RowOps.
Local Open Scope Z_scope.

Create HintDb reads.

Module Interleaving.

(** ** Queries *)

(** A query changes nothing. *)
Definition reads {A} (m : DbM A) : Prop := ∀ d, (m d).2 = d.

Lemma reads_ret {A} (a : A) : reads (mret a).
Proof. done. Qed.
Lemma reads_get : reads get.
Proof. done. Qed.
Lemma reads_throw {A} e : reads (throw e : DbM A).
Proof. done. Qed.
Lemma reads_bind {A B} (m : DbM A) (k : A → DbM B) :
  reads m → (∀ a, reads (k a)) → reads (m ≫= k).
Proof.
  intros Hm Hk d. rewrite bind_run. specialize (Hm d). destruct (m d) as [[a|e] d']; simpl in *;
    subst; [apply Hk|done].
Qed.
Lemma reads_if {A} (b : bool) (m m' : DbM A) : reads m → reads m' → reads (if b then m else m').
Proof. by destruct b. Qed.

#[export] Hint Resolve reads_ret reads_get reads_throw reads_bind reads_if : reads.

Ltac solve_reads := repeat (apply reads_bind; [|intros ?]); auto with reads.

Lemma reads_where p : reads (agreements_where p).
Proof. unfold agreements_where. solve_reads. Qed.
#[export] Hint Resolve reads_where : reads.

Lemma reads_casts {A} (m : DbM A) : reads m → reads (casts_deadline m).
Proof. intros Hm. unfold casts_deadline. solve_reads. Qed.
#[export] Hint Resolve reads_casts : reads.

Section turns.
Context {C W : Type} `{!ChainClient C} `{!MessageQueue W}.
Notation S := (S C W).
Notation SState := (SState C W).

(** A well-formed database that others keep well formed. *)
Record clean (s : SState) : Prop := {
  cn_inv : reg_inv (sdb s);
  cn_others : others_ok s }.

(** The task's own turn: by [P], given the time, or no write at all. *)
Record writes (P : Z → Db → Db → Prop) (s s' : SState) : Prop := {
  wr_others : ss_others s' = ss_others s;
  wr_now : snow s' = snow s;
  wr_inv : inv_from (sdb s) (sdb s');
  wr_db : sdb s' = sdb s ∨ P (snow s) (sdb s) (sdb s') }.

(** The others' turns, in the order the state has them, among the task's own. *)
Definition turns_of (P : Z → Db → Db → Prop) : SState → SState → Prop :=
  rtc (λ s s', interfered s s' ∨ writes P s s').

Context (P : Z → Db → Db → Prop).

Lemma interfered_evolves s s1 : interfered s s1 → clean s → inv_from (sdb s) (sdb s1) ∧ clean s1.
Proof.
  intros H [Hi Ho]. destruct (interfered_inv _ _ H Hi Ho) as [Hi1 Ho1].
  split; [|by split]. rewrite (if_db _ _ H). eapply steps_evolve; [exact Hi|].
  unfold others_ok in Ho. destruct (ss_others s) as [|os rest]; [done|].
  apply Forall_cons in Ho as [Ho _]. by apply run_ops_steps.
Qed.

Lemma writes_clean s s' : writes P s s' → clean s → clean s'.
Proof. intros [O _ [Hi _] _] [_ Ho]. split; [done|]. unfold others_ok. by rewrite O. Qed.

Lemma db_evolves_trans d1 d2 d3 : db_evolves d1 d2 → db_evolves d2 d3 → db_evolves d1 d3.
Proof.
  intros [K1 N1] [K2 N2]. split.
  - intros k r Hr. destruct (K1 k r Hr) as (r2 & H2 & E2), (K2 k r2 H2) as (r3 & H3 & E3).
    exists r3. split; [done|by etrans].
  - intros k r Hr Hn. destruct (agreements d2 !! k) as [r2|] eqn:H2; [|by eapply N2].
    destruct (K2 k r2 H2) as (r3 & H3 & [_ E3]). assert (r3 = r) as -> by congruence.
    etrans; [by eapply N1|done].
Qed.

(** Whoever's turn it is, rows keep their fixed columns and follow their
    lifecycle, and the time of the database does not change within a run. *)
Lemma turns_evolve s s' :
  turns_of P s s' → clean s → clean s' ∧ db_evolves (sdb s) (sdb s') ∧ snow s' = snow s.
Proof.
  induction 1 as [s|s s1 s' H _ IH]; intros Hc; [split; [done|split; [apply db_evolves_refl|done]]|].
  assert (H1 : clean s1 ∧ db_evolves (sdb s) (sdb s1) ∧ snow s1 = snow s).
  { destruct H as [H|H].
    - destruct (interfered_evolves _ _ H Hc) as [[_ He] Hc1]. split_and!; [done..|apply H].
    - split_and!; [by eapply writes_clean|apply H..]. }
  destruct H1 as (Hc1 & He1 & N1), (IH Hc1) as (Hc' & He' & N').
  split_and!; [done|by eapply db_evolves_trans|congruence].
Qed.

Lemma turns_row s s' k r :
  turns_of P s s' → clean s → srow s k = Some r → ∃ r', srow s' k = Some r' ∧ frame r r'.
Proof.
  intros H Hc Hr. destruct (turns_evolve _ _ H Hc) as (_ & He & _).
  destruct (ev_kept _ _ He k r Hr) as (r' & Hr' & Hf & _). by exists r'.
Qed.

(** [owp f Q s]: run from [s], [f] takes only turns by [P] and ends in [Q]. *)
Definition owp {A} (f : S A) (Q : A → SState → Prop) (s : SState) : Prop :=
  wp f (λ a s', turns_of P s s' ∧ Q a s') s.

Lemma owp_run {A} (f : S A) (Q : A → SState → Prop) s a s' :
  owp f Q s → f s = (a, s') → turns_of P s s' ∧ Q a s'.
Proof. unfold owp, wp. intros H E. by rewrite E in H. Qed.

Lemma owp_ret {A} (a : A) (Q : A → SState → Prop) s : Q a s → owp (mret a) Q s.
Proof. intros H. apply wp_ret. by split. Qed.

Lemma owp_bind {A B} (f : S A) (k : A → S B) (Q : B → SState → Prop) s :
  owp f (λ a s', owp (k a) Q s') s → owp (f ≫= k) Q s.
Proof.
  unfold owp. intros H. apply wp_bind. eapply wp_mono; [exact H|]. intros a s1 [T1 H1].
  eapply wp_mono; [exact H1|]. intros b s2 [T2 H2]. split; [|done]. by eapply rtc_trans.
Qed.

Lemma owp_mono {A} (f : S A) (Q Q' : A → SState → Prop) s :
  owp f Q s → (∀ a s', turns_of P s s' → Q a s' → Q' a s') → owp f Q' s.
Proof. unfold owp. intros H HQ. eapply wp_mono; [exact H|]. intros a s' [T Ha]. auto. Qed.

Lemma owp_try_or {E A B} (m : S (result E A)) (f : E → JobError) (k : A → S (result JobError B))
    (Q : result JobError B → SState → Prop) s :
  owp m (λ r s', match r with Ok a => owp (k a) Q s' | Err e => Q (Err (f e)) s' end) s →
  owp (try_or m f k) Q s.
Proof.
  intros H. apply owp_bind. eapply owp_mono; [exact H|]. intros [a|e] s' _ Hs; [done|].
  by apply owp_ret.
Qed.

(** A statement: others first, then what it does to the database it finds,
    unless the connection was lost before. *)
Lemma owp_pg {A} (m : Z → DbM A) (Q : result Error A → SState → Prop) s :
  clean s → (∀ now d0, preserves (inv_from d0) (m now)) →
  (∀ s1 d', interfered s s1 → clean s1 → d' = (m (snow s1) (sdb s1)).2 →
    d' = sdb s1 ∨ P (snow s1) (sdb s1) d') →
  (∀ r s1 s', interfered s s1 → clean s1 → aside s1 s' → turns_of P s s' →
    sdb s' = sdb s1 ∨ sdb s' = (m (snow s1) (sdb s1)).2 →
    (∀ a, r = Ok a → m (snow s1) (sdb s1) = (Ok a, sdb s')) → Q r s') →
  owp (pg m) Q s.
Proof.
  intros Hc Hm HP HQ. apply wp_pg_shared. intros s1 H1.
  destruct (interfered_evolves _ _ H1 Hc) as [_ Hc1].
  assert (Hown : ∀ s', aside s1 s' → sdb s' = sdb s1 ∨ sdb s' = (m (snow s1) (sdb s1)).2 →
    turns_of P s s').
  { intros s' As Hd. eapply rtc_l; [by left|]. apply rtc_once. right. split; try apply As.
    - destruct Hd as [-> | ->]; [split; [apply Hc1|apply db_evolves_refl]|].
      apply (Hm _ (sdb s1)). split; [apply Hc1|apply db_evolves_refl].
    - destruct Hd as [->|Hd]; [by left|]. eapply HP; [exact H1|exact Hc1|exact Hd]. }
  apply wp_statement.
  - intros r s' As E.
    assert (Hd : sdb s' = sdb s1 ∨ sdb s' = (m (snow s1) (sdb s1)).2) by (right; by rewrite E).
    split; [by apply Hown|]. apply (HQ r s1); auto. intros a ->. exact E.
  - intros s' As Hd. split; [by apply Hown|]. by apply (HQ _ s1); auto.
Qed.

(** A query writes nothing. *)
Lemma owp_query {A} (m : Z → DbM A) (Q : result Error A → SState → Prop) s :
  clean s → (∀ now, reads (m now)) →
  (∀ r s1 s', interfered s s1 → clean s1 → aside s1 s' → turns_of P s s' → sdb s' = sdb s1 →
    (∀ a, r = Ok a → m (snow s1) (sdb s1) = (Ok a, sdb s1)) → Q r s') →
  owp (pg m) Q s.
Proof.
  intros Hc Hm HQ. apply owp_pg; [done|..].
  - intros now d0 d Hd. by rewrite Hm.
  - intros s1 d' _ _ ->. left. apply Hm.
  - intros r s1 s' H1 Hc1 As T Hd Hr. rewrite Hm in Hd.
    assert (Hs : sdb s' = sdb s1) by by destruct Hd. rewrite Hs in Hr. by apply (HQ r s1).
Qed.

(** A step that does not touch the database or the others. *)
Lemma quiet_turn s s' :
  clean s → sdb s' = sdb s → ss_others s' = ss_others s → snow s' = snow s → turns_of P s s'.
Proof.
  intros Hc D O N'. apply rtc_once. right. split; [done..| |by left]. rewrite D.
  split; [apply Hc|apply db_evolves_refl].
Qed.

Lemma owp_push msg p n (Q : bool → SState → Prop) s :
  clean s → (∀ ok s', turns_of P s s' → Q ok s') → owp (push_job msg p n) Q s.
Proof.
  intros Hc HQ. apply wp_push. intros ok s' E _ O.
  assert (T : turns_of P s s') by (apply quiet_turn; unfold sdb, snow; by rewrite ?E). auto.
Qed.

(** Calls on the chain. *)
Lemma asked_turn calls s s' : clean s → asked calls s s' → turns_of P s s'.
Proof. intros Hc [D N' _ _ O _ _]. by apply quiet_turn. Qed.

(** A step that writes one row. *)
Lemma on_row_turn id s s' :
  clean s → on_row id s s' → inv_from (sdb s) (sdb s') →
  sdb s' = sdb s ∨ P (snow s) (sdb s) (sdb s') → turns_of P s s'.
Proof. intros Hc [[] _ _ _] Hi Hd. apply rtc_once. right. by split. Qed.

Lemma turns_trans s1 s2 s3 : turns_of P s1 s2 → turns_of P s2 s3 → turns_of P s1 s3.
Proof. apply rtc_trans. Qed.

Lemma turns_clean s s' : turns_of P s s' → clean s → clean s'.
Proof. intros H Hc. by destruct (turns_evolve _ _ H Hc). Qed.

(** A statement inside a dispatch, which others' statements do not divide. *)
Lemma owp_statement {A} (m : Z → DbM A) (Q : result Error A → SState → Prop) s :
  clean s → (∀ now d0, preserves (inv_from d0) (m now)) →
  (m (snow s) (sdb s)).2 = sdb s ∨ P (snow s) (sdb s) (m (snow s) (sdb s)).2 →
  (∀ r s', aside s s' → turns_of P s s' → Q r s') →
  owp (statement m) Q s.
Proof.
  intros Hc Hm HP HQ.
  assert (Hown : ∀ s', aside s s' → sdb s' = sdb s ∨ sdb s' = (m (snow s) (sdb s)).2 → turns_of P s s').
  { intros s' As Hd. apply rtc_once. right. split; try apply As.
    - destruct Hd as [-> | ->]; [split; [apply Hc|apply db_evolves_refl]|].
      apply (Hm _ (sdb s)). split; [apply Hc|apply db_evolves_refl].
    - destruct Hd as [->|Hd]; [by left|]. rewrite Hd. exact HP. }
  apply wp_statement.
  - intros r s' As E. assert (T : turns_of P s s') by (apply Hown; [done|right; by rewrite E]). auto.
  - intros s' As Hd. assert (T : turns_of P s s') by by apply Hown. auto.
Qed.

Lemma owp_on_bind {A B} (m : M PgState C A) (k : A → M PgState C B) (Q : B → SState → Prop) s :
  owp (on_dispatch m) (λ a s', owp (on_dispatch (k a)) Q s') s → owp (on_dispatch (m ≫= k)) Q s.
Proof.
  unfold owp. intros H. apply wp_on_bind. eapply wp_mono; [exact H|]. intros a s1 [T1 H1].
  eapply wp_mono; [exact H1|]. intros b s2 [T2 H2]. split; [|done]. by eapply rtc_trans.
Qed.

Lemma owp_on_ret {A} (a : A) (Q : A → SState → Prop) s : Q a s → owp (on_dispatch (mret a)) Q s.
Proof. intros H. apply wp_on_ret. by split. Qed.

(** The calls on the chain since [s] are among [K]. *)
Definition logged (K : chain_call → Prop) (s s' : SState) : Prop :=
  ∃ calls, slog s' = slog s ++ calls ∧ Forall K calls.

Lemma logged_same K s s' : slog s' = slog s → logged K s s'.
Proof. intros E. exists []. by rewrite E, app_nil_r. Qed.

Lemma logged_trans K s1 s2 s3 : logged K s1 s2 → logged K s2 s3 → logged K s1 s3.
Proof.
  intros (c1 & E1 & H1) (c2 & E2 & H2). exists (c1 ++ c2). rewrite E2, E1, app_assoc.
  split; [done|]. by apply Forall_app.
Qed.

(** [f] takes only turns by [P] and makes only calls of [K]. *)
Definition keeps_to {A} (K : chain_call → Prop) (f : S A) (s : SState) : Prop :=
  owp f (λ _ s', logged K s s') s.

Lemma keeps_to_ret {A} K (a : A) s : keeps_to K (mret a) s.
Proof. by apply owp_ret, logged_same. Qed.

Lemma keeps_to_bind {A B} K (f : S A) (k : A → S B) s :
  clean s → keeps_to K f s → (∀ a s', clean s' → turns_of P s s' → keeps_to K (k a) s') →
  keeps_to K (f ≫= k) s.
Proof.
  intros Hc Hf Hk. apply owp_bind. eapply owp_mono; [exact Hf|]. intros a s1 T1 L1.
  eapply owp_mono; [apply (Hk a s1); [by eapply turns_clean|done]|]. intros b s2 _ L2.
  exact (logged_trans K s s1 s2 L1 L2).
Qed.

Lemma keeps_to_pg {A} K (m : Z → DbM A) s :
  clean s → (∀ now d0, preserves (inv_from d0) (m now)) →
  (∀ s1 d', interfered s s1 → clean s1 → d' = (m (snow s1) (sdb s1)).2 →
    d' = sdb s1 ∨ P (snow s1) (sdb s1) d') → keeps_to K (pg m) s.
Proof.
  intros Hc Hm HP. apply owp_pg; [done..|]. intros r s1 s' H1 _ As _ _ _. apply logged_same.
  rewrite (as_log _ _ As). apply H1.
Qed.

End turns.

End Interleaving.
