(* ===== verification/Handlers.v ===== *)
(** * The worker's handlers (bin/dipper-service/src/worker/handlers)

    Proposing an agreement, submitting its offer on chain, and checking an
    agreement dipper ended that the chain shows accepted.  The indexer's answer
    to a proposal, the hash and the ABI encoding, the codes of rejection
    reasons (a protobuf enum of another repository) and the rewriting of a
    URL's port are parameters. *)

From S2P Require Import Prelude Schema Registry RegistryInv RegistryRuns RegistryOps RegistryQueries.
From S2P Require Import JobQueue Worker Rca CancelDispatch CancelDispatchProps.
From S2P Require Import ChainEvents ChainListener ChainReconcile Services.
Import Schema Registry RegistryInv RegistryRuns RegistryOps RegistryQueries.
Import JobQueue Worker Rca CancelDispatch CancelDispatchProps ChainEvents ChainListener.
Import ChainReconcile Services.
Local Open Scope Z_scope.

Module Handlers.

(** ** Data *)

(** [RejectReason] of the indexers' protocol. *)
Inductive RejectReason : Type :=
| Unspecified | PriceTooLow | DeadlineExpired | UnsupportedNetwork
| SubgraphManifestUnavailable | UnexpectedServiceProvider | AgreementExpired
| UnsupportedMetadataVersion | InvalidSignature | SenderNotTrusted | CapacityExceeded
| ManifestTooLarge | ReplayDetected | InsufficientEscrow | IndexerUnavailable.

Definition rejection_reason_str (r : option RejectReason) : string :=
  match r with
  | None | Some Unspecified => UNSPECIFIED
  | Some PriceTooLow => PRICE_TOO_LOW
  | Some DeadlineExpired => DEADLINE_EXPIRED
  | Some UnsupportedNetwork => UNSUPPORTED_NETWORK
  | Some SubgraphManifestUnavailable => SUBGRAPH_MANIFEST_UNAVAILABLE
  | Some UnexpectedServiceProvider => UNEXPECTED_SERVICE_PROVIDER
  | Some AgreementExpired => AGREEMENT_EXPIRED
  | Some UnsupportedMetadataVersion => UNSUPPORTED_METADATA_VERSION
  | Some InvalidSignature => INVALID_SIGNATURE
  | Some SenderNotTrusted => SENDER_NOT_TRUSTED
  | Some CapacityExceeded => CAPACITY_EXCEEDED
  | Some ManifestTooLarge => MANIFEST_TOO_LARGE
  | Some ReplayDetected => REPLAY_DETECTED
  | Some InsufficientEscrow => INSUFFICIENT_ESCROW
  | Some IndexerUnavailable => INDEXER_UNAVAILABLE
  end.

(** [SubmitAgreementProposalResponse.outcome]; a rejection carries its reason's
    code. *)
Inductive Outcome : Type := OutcomeAccepted | OutcomeRejected (reason : Z).

Definition DEFAULT_MAX_CANDIDATES : Z := 3.

Inductive NextStep : Type :=
| Offer (agreement : IndexingAgreement)
| Withdraw (agreement : IndexingAgreement)
| Skip.

Definition dipper_cancelled (status : AgreementStatus) : bool :=
  match status with Cancelling | CanceledByRequester => true | _ => false end.

Definition DROPPED_TX_RETRY_BASE : Z := from_secs 5.
Definition TRANSIENT_RETRY_BASE : Z := from_secs 30.
Definition RETRY_DELAY : Z := from_secs 30.
Definition CHAIN_READ_RETRY_DELAY : Z := from_secs 300.

(** What a submission's answer means for the job; [Ok] is an offer that is
    on chain, with the transaction to store if there is one. *)
Definition offer_answer (sent : result ChainClientError (option N)) : result JobError (option N) :=
  match sent with
  | Ok tx_hash => Ok tx_hash
  | Err (TxDropped _ _) => Err (Retryable DROPPED_TX_RETRY_BASE)
  | Err (ContractRevert _) => Err Fatal
  | Err _ => Err (Retryable TRANSIENT_RETRY_BASE)
  end.

Definition withdraw_answer (cancel : LiveCancel) : JobResult :=
  match cancel with
  | LcNotLive _ => Ok tt
  | LcEnded _ => Ok tt
  | LcCancelFailed (MissingTermsVersionHash _) => Err Fatal
  | LcUnconfirmed _ _ => Err (Retryable TRANSIENT_RETRY_BASE)
  | LcReadFailed _ | LcCancelFailed _ => Err (Retryable TRANSIENT_RETRY_BASE)
  end.

Section handlers.
Context {C W : Type} `{!ChainClient C} `{!OfferClient C} `{!MessageQueue W}.
Context (config : IndexingAgreementConfig) (submit_offer_max_retries : Z).
Context (keccak256 : list Z → list Z).
Context (abi_encode_key : N → N → N → Z → Z → list Z).
Context (abi_encode_terms : Z → Z → list Z).
Context (abi_encode_metadata : N → Z → list Z → list Z).
(** [url.set_port(Some(7602))], the indexer's answer to a proposal, and
    [RejectReason::try_from]. *)
Context (dips_url : string → string).
Context (send_proposal : string → N → Terms → N → result DipsError (option Outcome)).
Context (reject_reason_of : Z → option RejectReason).
Notation S := (S C W).
Notation SState := (SState C W).
Notation into_rca := (into_sol_rca keccak256 abi_encode_key abi_encode_terms abi_encode_metadata).

(** ** cancel_rejected_agreement_on_chain.rs *)

Definition live_check_reopen (agreement : IndexingAgreement) : S (result JobError bool) :=
  try_or (on_dispatch (reopen_if_live agreement)) (λ _, Deferred RETRY_DELAY) (λ r,
  mret (match r with
        | Reopened => Ok true
        | Left => Ok false
        | Unread _ => Err (Deferred CHAIN_READ_RETRY_DELAY)
        end)).

Definition live_check_handle (agreement_id : N) (accept : option ChainAccept) : S JobResult :=
  try_or (pg (λ _, provider_agreement_by_id agreement_id)) (λ _, Deferred RETRY_DELAY) (λ found,
  match found with
  | None => mret (Ok tt)
  | Some agreement =>
      try_job (match ia_status agreement with
               | Rejected | CanceledByRequester => live_check_reopen agreement
               | Cancelling => mret (Ok true)
               | _ => mret (Ok false)
               end) (λ cancelling,
      if (cancelling : bool) then
        match accept with
        | None => mret (Ok tt)
        | Some a =>
            try_or (pg (λ _, record_accepted_audit agreement_id (ca_at a) (ca_tx a)))
              (λ _, Deferred RETRY_DELAY) (λ _, mret (Ok tt))
        end
      else mret (Ok tt))
  end).

(** ** submit_offer.rs *)

Definition next_step (agreement_id : N) : S (result JobError NextStep) :=
  try_or (pg (λ _, provider_agreement_by_id agreement_id)) (λ _, Fatal) (λ agreement,
  mret (Ok (match agreement with
            | None => Skip
            | Some a =>
                if bool_decide (ia_status a = Created) then Offer a
                else if dipper_cancelled (ia_status a) then Withdraw a
                else Skip
            end))).

Definition withdraw_offer_if_stored (agreement : IndexingAgreement) : S JobResult :=
  cancel ← on_dispatch (cancel_if_live config agreement);
  mret (withdraw_answer cancel).

Definition cancelled_meanwhile (agreement_id : N) : S (option IndexingAgreement) :=
  r ← pg (λ _, provider_agreement_by_id agreement_id);
  mret (match r with
        | Ok (Some agreement) =>
            if dipper_cancelled (ia_status agreement) then Some agreement else None
        | Ok None => None
        | Err _ => None
        end).

(** Storing the transaction; a failure is logged. *)
Definition store_offer_tx (agreement_id : N) (tx_hash : option N) : S () :=
  match tx_hash with
  | None => mret tt
  | Some tx => _ ← pg (λ now, update_offer_tx_hash now agreement_id tx); mret tt
  end.

Definition submit_offer_handle (agreement_id : N) : S JobResult :=
  try_job (next_step agreement_id) (λ step,
  match step with
  | Withdraw agreement => withdraw_offer_if_stored agreement
  | Skip => mret (Ok tt)
  | Offer agreement =>
      let '(rca, derived_id) := into_rca (ia_nonce_uuid agreement) (ia_terms agreement) in
      if bool_decide (derived_id ≠ agreement_id) then mret (Err Fatal)
      else
        sent ← chain_offer rca;
        try_job (mret (offer_answer sent)) (λ tx_hash,
        _ ← store_offer_tx agreement_id tx_hash;
        cancelled ← cancelled_meanwhile agreement_id;
        match cancelled with
        | Some agreement => withdraw_offer_if_stored agreement
        | None => mret (Ok tt)
        end)
  end).

(** ** send_indexing_agreement_proposal.rs *)

Definition queue_reassessment (indexing_request_id deployment_id : N) (deployment_chain_id : Z)
    : S JobResult :=
  try_or (pg (λ _, provider_request_by_id indexing_request_id)) (λ _, Fatal) (λ request,
  let num_candidates := from_option ir_num_candidates DEFAULT_MAX_CANDIDATES request in
  queued ← queue_reassess_indexing_request indexing_request_id deployment_id
             deployment_chain_id num_candidates Background;
  mret (if (queued : bool) then Ok tt else Err Fatal)).

Definition mark_rejected_and_reassess (agreement_id indexing_request_id deployment_id : N)
    (deployment_chain_id : Z) (rejection_reason : option string) : S JobResult :=
  try_or (pg (λ now, mark_indexing_agreement_as_rejected now agreement_id rejection_reason))
    (λ _, Fatal) (λ _,
  try_or (pg (λ _, delete_pending_cancellations_by_new_agreement agreement_id)) (λ _, Fatal) (λ _,
  queue_reassessment indexing_request_id deployment_id deployment_chain_id)).

Definition mark_failed_and_reassess (agreement_id indexing_request_id deployment_id : N)
    (deployment_chain_id : Z) : S JobResult :=
  try_or (pg (λ now, mark_indexing_agreement_as_unresponsive now agreement_id)) (λ _, Fatal) (λ _,
  try_or (pg (λ _, delete_pending_cancellations_by_new_agreement agreement_id)) (λ _, Fatal) (λ _,
  queue_reassessment indexing_request_id deployment_id deployment_chain_id)).

Definition proposal_handle (indexer_url : string)
    (agreement_id indexing_request_id deployment_id : N) (deployment_chain_id : Z)
    : S JobResult :=
  let indexer_url := dips_url indexer_url in
  try_or (pg (λ _, provider_agreement_by_id agreement_id)) (λ _, Fatal) (λ found,
  match found with
  | None => mret (Ok tt)
  | Some agreement =>
      if bool_decide (ia_status agreement ≠ Created) then mret (Ok tt)
      else
        match send_proposal indexer_url agreement_id (ia_terms agreement)
                (ia_nonce_uuid agreement) with
        | Ok (Some OutcomeAccepted) =>
            queued ← queue_submit_offer submit_offer_max_retries agreement_id indexing_request_id
                       indexer_url deployment_id deployment_chain_id Background;
            mret (if (queued : bool) then Ok tt else Err Fatal)
        | Ok (Some (OutcomeRejected reason)) =>
            mark_rejected_and_reassess agreement_id indexing_request_id deployment_id
              deployment_chain_id (Some (rejection_reason_str (reject_reason_of reason)))
        | Ok None =>
            mark_rejected_and_reassess agreement_id indexing_request_id deployment_id
              deployment_chain_id (Some UNSPECIFIED)
        | Err _ =>
            mark_failed_and_reassess agreement_id indexing_request_id deployment_id
              deployment_chain_id
        end
  end).

End handlers.

End Handlers.
