(* ===== verification/HandlerProps.v ===== *)
(** * What the worker's handlers guarantee

    Against Postgres with connections that may be lost, any chain, any indexer
    and any queue. *)

From S2P Require Import Prelude Schema Registry RegistryInv RegistryRuns RegistryOps RegistryQueries.
From S2P Require Import JobQueue JobQueueProps Worker Rca CancelDispatch CancelDispatchProps.
From S2P Require Import ChainEvents ChainListener ChainReconcile Services RowOps Interleaving Handlers.
Import Schema Registry RegistryInv RegistryRuns RegistryOps RegistryQueries.
Import JobQueue JobQueueProps Worker Rca CancelDispatch CancelDispatchProps ChainEvents ChainListener.
Import ChainReconcile Services RowOps Interleaving Handlers.
Local Open Scope Z_scope.

Module HandlerProps.

(** The agreement as the services read it. *)
Definition seen (d : Db) (id : N) : option IndexingAgreement :=
  (agreement_of_row <$> agreements d !! id) ≫= known_agreement.

Lemma seen_status d id a :
  reg_inv d → seen d id = Some a → db_status d id = Some (ia_status a) ∧ ia_id a = id.
Proof.
  intros Hi. unfold seen, db_status. destruct (agreements d !! id) as [r|] eqn:Hr; [|done]. simpl.
  unfold known_agreement. case_bool_decide; [done|]. intros [= <-]. split; [done|].
  by eapply inv_key.
Qed.

Section facts.
Context {C W : Type} `{!ChainClient C} `{!MessageQueue W}.
Notation SState := (SState C W).
Notation S := (S C W).

Lemma wp_agreement_by_id id (Q : result Error (option IndexingAgreement) → SState → Prop) s :
  alone s →
  (∀ r s', aside s s' → sdb s' = sdb s → r = Ok (seen (sdb s) id) ∨ r = Err (DbError ConnectionLost) →
    Q r s') →
  wp (pg (λ _, provider_agreement_by_id id)) Q s.
Proof. intros Ha H. apply wp_pg_alone, (wp_read (λ _ d, Ok (seen d id)) Q s), H. done. Qed.

Lemma wp_agreement_shared id (Q : result Error (option IndexingAgreement) → SState → Prop) s :
  (∀ r s1 s', interfered s s1 → aside s1 s' → sdb s' = sdb s1 →
    r = Ok (seen (sdb s1) id) ∨ r = Err (DbError ConnectionLost) → Q r s') →
  wp (pg (λ _, provider_agreement_by_id id)) Q s.
Proof.
  intros H. apply wp_pg_shared. intros s1 Hs1. apply (wp_read (λ _ d, Ok (seen d id)) Q s1).
  intros r s'. by apply H.
Qed.

Lemma wp_request_by_id id (Q : result Error (option IndexingRequest) → SState → Prop) s :
  alone s →
  (∀ r s', aside s s' → sdb s' = sdb s →
    r = Ok ((request_of_row <$> requests (sdb s) !! id) ≫= provider_request) ∨
    r = Err (DbError ConnectionLost) → Q r s') →
  wp (pg (λ _, provider_request_by_id id)) Q s.
Proof.
  intros Ha H. apply wp_pg_alone; [done|].
  exact (wp_read (λ _ d, Ok ((request_of_row <$> requests d !! id) ≫= provider_request)) Q s H).
Qed.

(** Putting an ended agreement back to cancelling: on a live chain, or on an
    unreadable one for a rejected agreement; otherwise nothing is written. *)
Definition reopened (id : N) (seen_live : bool) (now : Z) (d d' : Db) : Prop :=
  ∃ r, agreements d !! id = Some r ∧ ag_status r ∈ [CanceledByRequester; Rejected] ∧
    d' = set_agreements (<[id := reopen_row now seen_live r]> (agreements d)) d.

Lemma wp_reopen_if_live a (Q : result Error Reopen → SState → Prop) s :
  reg_inv (sdb s) →
  (∀ r answer s', reg_inv (sdb s') → slog s' = slog s ++ [CallRead (ia_id a) answer] →
    ss_pushes s' = ss_pushes s → ss_queue s' = ss_queue s → snow s' = snow s →
    ss_others s' = ss_others s →
    (let evidence := answer = Ok Live ∨ (∃ err, answer = Err err) ∧ ia_status a = Rejected in
     match r with
     | Ok Reopened => evidence ∧ reopened (ia_id a) (is_ok answer) (snow s) (sdb s) (sdb s')
     | Ok Left => sdb s' = sdb s ∧ (answer = Ok Live → ∀ row,
         agreements (sdb s) !! ia_id a = Some row → ag_status row ∉ [CanceledByRequester; Rejected])
     | Ok (Unread _) => sdb s' = sdb s ∧ answer ≠ Ok Live
     | Err _ => evidence ∧ (sdb s' = sdb s ∨
         reopened (ia_id a) (is_ok answer) (snow s) (sdb s) (sdb s'))
     end) → Q r s') →
  wp (on_dispatch (reopen_if_live a)) Q s.
Proof.
  intros Hi HQ. unfold reopen_if_live. apply wp_on_bind, wp_chain_read. intros answer s1 A1.
  assert (Hi1 : reg_inv (sdb s1)) by by rewrite (ak_db _ _ _ A1).
  assert (Has : ∀ live : bool, live = is_ok answer →
    (answer = Ok Live ∨ (∃ err, answer = Err err) ∧ ia_status a = Rejected) →
    wp (on_dispatch (reopen_as a live)) Q s1).
  { intros live -> Hev. unfold reopen_as. apply wp_on_bind.
    destruct A1 as [D1 N1 Q1 P1 O1 _ L1].
    apply (wp_guarded_statement (λ now, void (reopen_indexing_agreement_cancel now (ia_id a) (is_ok answer)))
      (ia_id a) [CanceledByRequester; Rejected] (reopen_row (snow s1) (is_ok answer))); try done.
    - intros d Hd. by apply reopen_run.
    - intros d0. apply void_inv, reopen_inv.
    - intros s2 r [] Hi2 Hr Hin Hd. apply wp_on_ret, (HQ _ answer); try congruence.
      split; [done|]. exists r. rewrite <- D1, <- N1. done.
    - intros s2 [] Hd Hn. apply wp_on_ret, (HQ _ answer); try congruence.
      split; [congruence|]. intros _ row Hrow. apply Hn. by rewrite D1.
    - intros s2 [] Hi2 Hm. apply wp_on_ret, (HQ _ answer); try congruence.
      split; [done|]. destruct Hm as [Hm|(r & Hr & Hin & Hd)]; [left; congruence|right].
      exists r. rewrite <- D1, <- N1. done. }
  destruct A1 as [D1 N1 Q1 P1 O1 _ L1]. destruct answer as [st|err].
  - destruct (decide (st = Live)) as [->|Hl]; [apply Has; auto|].
    assert (HQ' : Q (Ok Left) s1) by (by eapply (HQ _ (Ok st)); [..|split; [|intros [=]]]).
    by destruct st; [|apply wp_on_ret..].
  - case_bool_decide as Hr.
    + apply wp_on_ret, (HQ _ (Err err)); done.
    + apply Has; [done|]. right. split; [eauto|]. by destruct (ia_status a).
Qed.

(** What a finished or deferred check leaves behind. *)
Record checked (id : N) (accept : option ChainAccept) (s : SState) (r : JobResult) (s' : SState)
    : Prop := {
  ck_inv : reg_inv (sdb s');
  ck_pushes : ss_pushes s' = ss_pushes s;
  ck_result : r = Ok tt ∨ r = Err (Deferred RETRY_DELAY) ∨ r = Err (Deferred CHAIN_READ_RETRY_DELAY);
  ck_row : only_row id (sdb s) (sdb s');
  ck_status : db_status (sdb s') id = db_status (sdb s) id ∨
    db_status (sdb s') id = Some Cancelling ∧
    ∃ answer, slog s' = slog s ++ [CallRead id answer] ∧
      (answer = Ok Live ∧ db_status (sdb s) id ∈ [Some CanceledByRequester; Some Rejected] ∨
       (∃ err, answer = Err err) ∧ db_status (sdb s) id = Some Rejected);
  ck_done : r = Ok tt →
    (slog s' = slog s ++ [CallRead id (Ok Live)] → db_status (sdb s') id = Some Cancelling) ∧
    (db_status (sdb s') id = Some Cancelling → accept ≠ None → ∃ row,
      agreements (sdb s') !! id = Some row ∧ ag_accepted_at row ≠ None) }.

(** Recording the accept, the last step of a check. *)
Lemma wp_record_accept id a (Q : JobResult → SState → Prop) s :
  alone s → reg_inv (sdb s) →
  (∀ r s', reg_inv (sdb s') → aside s s' → only_row id (sdb s) (sdb s') →
    db_status (sdb s') id = db_status (sdb s) id →
    (r = Ok tt ∧ (∀ row, agreements (sdb s') !! id = Some row → ag_accepted_at row ≠ None) ∨
     r = Err (Deferred RETRY_DELAY)) → Q r s') →
  wp (try_or (pg (λ _, record_accepted_audit id (ca_at a) (ca_tx a)))
        (λ _, Deferred RETRY_DELAY) (λ _, mret (Ok tt))) Q s.
Proof.
  intros Hal Hi HQ. apply wp_try_or.
  pose proof (record_accepted_audit_run id (ca_at a) (ca_tx a) (sdb s) (inv_active _ Hi)) as Hrun.
  set (d' := match agreements (sdb s) !! id with
             | Some r => set_agreements (<[id := with_accept (as_i64 (ca_at a)) (ca_tx a) r]>
                 (agreements (sdb s))) (sdb s)
             | None => sdb s
             end) in *.
  assert (Hi' : reg_inv d').
  { apply (keeps_inv (record_accepted_audit id (ca_at a) (ca_tx a)) (sdb s) (Ok tt));
      [intros d0; apply audits_inv|done|done]. }
  assert (Hd : only_row id (sdb s) d' ∧ db_status d' id = db_status (sdb s) id ∧
    ∀ row, agreements d' !! id = Some row → ag_accepted_at row ≠ None).
  { subst d'. unfold db_status. destruct (agreements (sdb s) !! id) as [r|] eqn:Hr.
    - split; [apply only_row_insert|]. simpl. rewrite lookup_insert_eq. split; [done|].
      intros row [= <-]. simpl. by destruct (ag_accepted_at r).
    - split; [done|]. by rewrite Hr. }
  destruct Hd as (Hd1 & Hd2 & Hd3). apply wp_pg; [done|..]; rewrite Hrun; simpl.
  - intros r s' As [= <- Hd]. apply wp_ret, HQ; rewrite <- ?Hd; auto.
  - intros s' As Hd. apply HQ; auto; destruct Hd as [->| ->]; done.
Qed.

Lemma not_reopened_status id live now d d' :
  reopened id live now d d' → only_row id d d' ∧ db_status d' id = Some Cancelling ∧
  db_status d id ∈ [Some CanceledByRequester; Some Rejected].
Proof.
  intros (r & Hr & Hin & ->). split; [apply only_row_insert|]. unfold db_status. simpl.
  rewrite lookup_insert_eq, Hr. simpl. split; [unfold reopen_row; by case_match|].
  apply elem_of_cons in Hin as [->|Hin]; [by left|]. apply list_elem_of_singleton in Hin as ->. right. by left.
Qed.

(** The end of a check that found the agreement cancelling, or put it back. *)
Lemma wp_finish_check id accept s s1 :
  alone s1 → reg_inv (sdb s1) → ss_pushes s1 = ss_pushes s → only_row id (sdb s) (sdb s1) →
  db_status (sdb s1) id = Some Cancelling →
  (db_status (sdb s) id = Some Cancelling ∨
    ∃ answer, slog s1 = slog s ++ [CallRead id answer] ∧
      (answer = Ok Live ∧ db_status (sdb s) id ∈ [Some CanceledByRequester; Some Rejected] ∨
       (∃ err, answer = Err err) ∧ db_status (sdb s) id = Some Rejected)) →
  wp (match accept with
      | None => mret (Ok tt)
      | Some a =>
          try_or (pg (λ _, record_accepted_audit id (ca_at a) (ca_tx a)))
            (λ _, Deferred RETRY_DELAY) (λ _, mret (Ok tt))
      end) (checked id accept s) s1.
Proof.
  intros Hal Hi Hp Ho Hc Hev. destruct accept as [a|].
  - apply wp_record_accept; [done..|]. intros r s2 Hi2 [Q2 P2 C2 L2 N2 O2] Ho2 Hs2 Hr.
    rewrite <- L2 in Hev. rewrite <- Hs2 in Hc. split; try done.
    + by rewrite P2.
    + destruct Hr as [[-> _]|Hr]; [by left|right; by left].
    + by transitivity (sdb s1).
    + destruct Hev as [Hev|Hev]; [left; congruence|by right].
    + intros ->. split; [done|]. intros _ _. destruct Hr as [[_ Hr]|[=]].
      unfold db_status in Hc. destruct (agreements (sdb s2) !! id) as [row|] eqn:E; [|done]. eauto.
  - apply wp_ret. split; try done; [by left|].
    destruct Hev as [Hev|Hev]; [left; congruence|by right].
Qed.

(** Putting the agreement back, where it ended. *)
Lemma wp_check_reopen a accept s s1 :
  alone s1 → reg_inv (sdb s) → sdb s1 = sdb s → ss_pushes s1 = ss_pushes s → slog s1 = slog s →
  ia_status a ∈ [Rejected; CanceledByRequester] →
  db_status (sdb s) (ia_id a) = Some (ia_status a) →
  wp (live_check_reopen a) (λ r s', match r with
    | Ok true =>
        alone s' ∧ reg_inv (sdb s') ∧ ss_pushes s' = ss_pushes s ∧ only_row (ia_id a) (sdb s) (sdb s') ∧
        db_status (sdb s') (ia_id a) = Some Cancelling ∧
        ∃ answer, slog s' = slog s ++ [CallRead (ia_id a) answer] ∧
          (answer = Ok Live ∧
           db_status (sdb s) (ia_id a) ∈ [Some CanceledByRequester; Some Rejected] ∨
           (∃ err, answer = Err err) ∧ db_status (sdb s) (ia_id a) = Some Rejected)
    | Ok false => checked (ia_id a) accept s (Ok tt) s'
    | Err e => checked (ia_id a) accept s (Err e) s'
    end) s1.
Proof.
  intros Hal Hi D1 P1 L1 Hin Hst. unfold live_check_reopen.
  apply wp_try_or, wp_reopen_if_live; [by rewrite D1|].
  intros r answer s2 Hi2 L2 P2 Q2 N2 O2 Hr. rewrite D1, L1 in *. rewrite P1 in P2. simpl in Hr.
  assert (Hlive : slog s2 = slog s ++ [CallRead (ia_id a) (Ok Live)] → answer = Ok Live).
  { rewrite L2. by intros [_ [= ->]]%app_inj_tail. }
  destruct r as [[| |err]|e].
  - destruct Hr as [Hev Hre]. apply not_reopened_status in Hre as (Ho & Hc & Ho').
    apply wp_ret. split_and!; try done; [by unfold alone; rewrite O2|]. exists answer. split; [done|].
    destruct Hev as [?|[? Hr]]; [left|right; rewrite Hst, Hr]; auto.
  - destruct Hr as [D2 Hn]. apply wp_ret. rewrite D2 in *.
    split; rewrite ?D2; auto; [done|]. intros _. rewrite Hst. split.
    + intros Hl. specialize (Hn (Hlive Hl)). unfold db_status in Hst.
      destruct (agreements (sdb s) !! ia_id a) as [row|]; [|done]. injection Hst as Hst.
      destruct (Hn row eq_refl). rewrite Hst. set_solver.
    + intros [= Hc]. rewrite Hc in Hin. set_solver.
  - destruct Hr as [D2 Hn]. apply wp_ret. split; rewrite ?D2; auto; done.
  - destruct Hr as [Hev Hre]. destruct Hre as [D2|Hre]; [split; rewrite ?D2; auto; done|].
    apply not_reopened_status in Hre as (Ho & Hc & Ho'). split; auto; [|done].
    right. split; [done|]. exists answer. split; [done|].
    destruct Hev as [?|[? Hr]]; [left|right; rewrite Hst, Hr]; auto.
Qed.

Lemma wp_live_check id accept s :
  alone s → reg_inv (sdb s) → wp (live_check_handle id accept) (checked id accept s) s.
Proof.
  intros Hal Hi. unfold live_check_handle. apply wp_try_or, wp_agreement_by_id; [done|].
  intros r s1 As D1 Hr. assert (Hal1 : alone s1) by by eapply aside_alone.
  destruct As as [Q1 P1 C1 L1 N1 O1].
  assert (Hsame : db_status (sdb s) id ≠ Some Cancelling → checked id accept s (Ok tt) s1).
  { intros Hn. split; rewrite ?D1; auto; [done|]. intros _. split; [|done].
    rewrite L1. intros Hl'. apply (f_equal length) in Hl'. rewrite length_app in Hl'.
    simpl in Hl'. lia. }
  destruct Hr as [-> | ->]; [|by split; rewrite ?D1; auto].
  destruct (seen (sdb s) id) as [a|] eqn:Ha.
  2:{ apply wp_ret, Hsame. intros Hc. unfold seen, db_status in *.
      destruct (agreements (sdb s) !! id) as [row|]; [|done]. simpl in *. injection Hc as Hc.
      unfold known_agreement in Ha. simpl in Ha. by rewrite Hc in Ha. }
  apply seen_status in Ha as [Hst Hid]; [|done]. subst id. apply wp_try_or.
  destruct (ia_status a) eqn:Hs; try (apply wp_ret; simpl; apply wp_ret, Hsame; congruence).
  - eapply wp_mono; [apply (wp_check_reopen a accept s s1); rewrite ?Hs; done || set_solver|].
    intros [[]|e] s2 H; [|done..]. destruct H as (H0 & H1 & H2 & H3 & H4 & H5).
    apply wp_finish_check; auto.
  - eapply wp_mono; [apply (wp_check_reopen a accept s s1); rewrite ?Hs; done || set_solver|].
    intros [[]|e] s2 H; [|done..]. destruct H as (H0 & H1 & H2 & H3 & H4 & H5).
    apply wp_finish_check; auto.
  - apply wp_ret. simpl. apply wp_finish_check; rewrite ?D1; auto; reflexivity.
Qed.

(** The check of an agreement dipper ended that was accepted anyway.  It
    touches that agreement alone, puts it back to [Cancelling] only when the
    chain shows it live, or when a rejected one cannot be read, and when it
    finishes with the chain having shown it live the agreement is [Cancelling]
    with the accept it was queued with on record.  It never gives up: a run
    that does not finish only defers, so settling its job keeps the row queued
    without charging an attempt. *)
Theorem live_check_settles id accept s r s' :
  alone s → reg_inv (sdb s) → live_check_handle id accept s = (r, s') →
  checked id accept s r s' ∧
  (r ≠ Ok tt → ∀ D T wall (g : JobGuard D T) q, ∃ j,
    table (finish_job wall g (Some r) true q) !! jg_id g = Some j ∧
    jb_status j = Queued ∧ jb_attempt_count j = jb_attempt_count (jg_row g)).
Proof.
  intros Ha Hi Hrun. pose proof (wp_run _ _ _ _ _ (wp_live_check id accept s Ha Hi) Hrun) as Hc.
  split; [done|]. intros Hr D T wall g q. destruct Hc as [_ _ Hres _ _ _].
  assert (Hd : ∃ delay, r = Err (Deferred delay)) by (destruct Hres as [|[]]; [done|eauto..]).
  destruct Hd as [delay ->]. unfold finish_job, settle. simpl. eexists.
  rewrite lookup_insert_eq. split; [done|]. simpl. split; [done|lia].
Qed.

End facts.

(** ** Offers *)

Section offers.
Context {C W : Type} `{!ChainClient C} `{!OfferClient C} `{!MessageQueue W}.
Context (config : IndexingAgreementConfig).
Context (keccak256 : list Z → list Z).
Context (abi_encode_key : N → N → N → Z → Z → list Z).
Context (abi_encode_terms : Z → Z → list Z).
Context (abi_encode_metadata : N → Z → list Z → list Z).
Notation SState := (SState C W).
Notation into_rca := (into_sol_rca keccak256 abi_encode_key abi_encode_terms abi_encode_metadata).
Notation submit id := (submit_offer_handle (W := W) config keccak256 abi_encode_key abi_encode_terms
  abi_encode_metadata id).

Definition is_offer (c : chain_call) : bool := match c with CallOffer _ _ => true | _ => false end.

Lemma cancel_calls_no_offer a held calls l :
  cancel_calls config a held calls l → Forall (λ c, is_offer c = false) calls.
Proof. by destruct 1; repeat constructor. Qed.

Lemma cancel_calls_not_live a held calls l log :
  cancel_calls config a held calls l → withdraw_answer l = Ok tt →
  ends_not_live (ia_id a) (log ++ calls).
Proof.
  intros [err|st Hs|Hh|h err Hh|h tx answer Hh]; simpl; try done.
  - intros _. by exists log, st.
  - by destruct err.
  - destruct answer as [[]|]; simpl; try done; intros _;
      eexists (log ++ [CallRead _ _; CallCancel _ _ _ _ _]), _; by rewrite <- app_assoc.
Qed.

Lemma wp_withdraw a (Q : JobResult → SState → Prop) s :
  (∀ calls l s', cancel_calls config a (db_status (sdb s) (ia_id a)) calls l → asked calls s s' →
    Q (withdraw_answer l) s') → wp (withdraw_offer_if_stored config a) Q s.
Proof.
  intros HQ. apply wp_bind, wp_cancel_if_live. intros calls l s' Hc Ha. apply wp_ret. by eapply HQ.
Qed.

(** What a run of the job may do, others writing to the database between its
    statements: [d] is the database its first statement found. *)
Record offered (id : N) (s : SState) (r : JobResult) (s' : SState) : Prop := {
  of_pushes : ss_pushes s' = ss_pushes s;
  of_calls : ∃ calls, slog s' = slog s ++ calls ∧
    (Forall (λ c, is_offer c = false) calls ∨
     ∃ rca answer rest a, calls = CallOffer rca answer :: rest ∧
       Forall (λ c, is_offer c = false) rest ∧
       seen (run_ops (hd [] (ss_others s)) (sdb s)) id = Some a ∧ ia_status a = Created ∧
       into_rca (ia_nonce_uuid a) (ia_terms a) = (rca, id) ∧
       (r = Ok tt → is_ok answer = true)) }.

Lemma wp_store_offer_tx id tx (Q : () → SState → Prop) s :
  (∀ s', ss_pushes s' = ss_pushes s → slog s' = slog s → Q tt s') →
  wp (store_offer_tx id tx) Q s.
Proof.
  intros HQ. unfold store_offer_tx. destruct tx as [tx|]; [|by apply wp_ret, HQ].
  apply wp_bind, wp_pg_shared. intros s1 H1.
  apply wp_statement; intros; apply wp_ret, HQ; destruct H1; destruct H; congruence.
Qed.

Lemma wp_submit_offer id s : wp (submit id) (offered id s) s.
Proof.
  unfold submit_offer_handle, try_job, next_step. apply wp_try_or, wp_try_or, wp_agreement_shared.
  intros r s1 s2 I1 As D2 Hr. destruct As as [_ P2 _ L2 _ _].
  assert (Hnone : ∀ r', offered id s r' s2).
  { intros r'. split; [rewrite P2; apply I1|]. exists []. rewrite L2, (if_log _ _ I1), app_nil_r. auto. }
  assert (P2s : ss_pushes s2 = ss_pushes s) by (rewrite P2; apply I1).
  assert (L2s : slog s2 = slog s) by (rewrite L2; apply I1).
  destruct Hr as [-> | ->]; [|exact (Hnone _)]. rewrite (if_db _ _ I1).
  destruct (seen _ id) as [a|] eqn:Ha; [|exact (Hnone _)]. apply wp_ret. cbv beta iota. case_bool_decide as Hs.
  - destruct (into_rca (ia_nonce_uuid a) (ia_terms a)) as [rca derived] eqn:Hrca. case_bool_decide as Hd; [exact (Hnone _)|].
    subst derived.
    apply wp_bind, wp_chain_offer. intros answer s3 [_ _ _ P3 _ _ L3].
    assert (Hoff : ∀ r' s4 rest, ss_pushes s4 = ss_pushes s3 → slog s4 = slog s3 ++ rest →
      Forall (λ c, is_offer c = false) rest → (r' = Ok tt → is_ok answer = true) →
      offered id s r' s4).
    { intros r' s4 rest P4 L4 Hrest Hok. split; [congruence|].
      exists (CallOffer rca answer :: rest). split; [by rewrite L4, L3, L2s, <- app_assoc|].
      right. exists rca, answer, rest, a. done. }
    apply wp_try_or, wp_ret. destruct (offer_answer answer) as [tx|e] eqn:Hans.
    2:{ apply (Hoff _ _ []); rewrite ?app_nil_r; done. }
    assert (Hok : is_ok answer = true) by (by destruct answer as [|[]]).
    apply wp_bind, wp_store_offer_tx. intros s4 P4 L4. apply wp_bind.
    unfold cancelled_meanwhile. apply wp_bind, wp_agreement_shared.
    intros r5 s5 s6 I5 [_ P6 _ L6 _ _] _ _. apply wp_ret.
    assert (P6s : ss_pushes s6 = ss_pushes s3) by (rewrite P6, (if_pushes _ _ I5); done).
    assert (L6s : slog s6 = slog s3) by (rewrite L6, (if_log _ _ I5); done).
    destruct (match r5 with Ok (Some _) => _ | _ => _ end) as [a'|].
    + apply wp_withdraw. intros calls l s7 Hc [_ _ _ P7 _ _ L7].
      apply (Hoff _ _ calls); [congruence|congruence|by eapply cancel_calls_no_offer|done].
    + apply wp_ret, (Hoff _ _ []); rewrite ?app_nil_r; done.
  - destruct (dipper_cancelled (ia_status a)); [|exact (Hnone _)].
    apply wp_withdraw. intros calls l s3 Hc [_ _ _ P3 _ _ L3]. split; [congruence|].
    exists calls. split; [congruence|]. left. by eapply cancel_calls_no_offer.
Qed.

(** A cancelled agreement whose offer was put up, or was found cancelled before
    that, is last seen off the chain. *)
Definition withdrawn (id : N) (r : JobResult) (s' : SState) : Prop :=
  r = Ok tt → db_status (sdb s') id ∈ [Some Cancelling; Some CanceledByRequester] →
  ends_not_live id (slog s').

Lemma dipper_cancelled_seen d id :
  db_status d id ∈ [Some Cancelling; Some CanceledByRequester] →
  ∃ a, seen d id = Some a ∧ dipper_cancelled (ia_status a) = true.
Proof.
  unfold db_status, seen. destruct (agreements d !! id) as [row|]; [|set_solver]. simpl. intros H.
  assert (Hs : ag_status row = Cancelling ∨ ag_status row = CanceledByRequester) by set_solver.
  exists (agreement_of_row row). unfold known_agreement. simpl. by destruct Hs as [-> | ->].
Qed.

Lemma wp_agreement_good id (Q : result Error (option IndexingAgreement) → SState → Prop) s :
  good s → (∀ s', good s' → slog s' = slog s → Q (Ok (seen (sdb s') id)) s') →
  wp (pg (λ _, provider_agreement_by_id id)) Q s.
Proof.
  intros Hg H. apply wp_pg_good; [|done|].
  - intros _ d0 d Hd. exact Hd.
  - intros s1 r s' H1 As Hg' [= <- Hd]. rewrite Hd. apply H; [done|].
    rewrite (as_log _ _ As). apply H1.
Qed.

Lemma wp_withdrawn id a s :
  ia_id a = id → wp (withdraw_offer_if_stored config a) (withdrawn id) s.
Proof.
  intros <-. apply wp_withdraw. intros calls l s' Hc Ha Hl _. rewrite (ak_log _ _ _ Ha).
  by eapply cancel_calls_not_live.
Qed.

Lemma wp_store_offer_good id tx (Q : () → SState → Prop) s :
  good s → (∀ s', good s' → Q tt s') → wp (store_offer_tx id tx) Q s.
Proof.
  intros Hg HQ. unfold store_offer_tx. destruct tx as [tx|]; [|by apply wp_ret, HQ].
  apply wp_bind, wp_pg_good; [intros; apply offer_tx_inv|done|]. intros; by apply wp_ret, HQ.
Qed.

Lemma wp_submit_withdrawn id s : good s → wp (submit id) (withdrawn id) s.
Proof.
  intros Hg. unfold submit_offer_handle, try_job, next_step. apply wp_try_or, wp_try_or.
  apply wp_agreement_good; [done|]. intros s1 Hg1 _. apply wp_ret. cbv beta iota.
  assert (Hno : ∀ s, (∀ a, seen (sdb s) id = Some a → dipper_cancelled (ia_status a) = false) →
    withdrawn id (Ok tt) s).
  { intros s2 Hs _ Hc. apply dipper_cancelled_seen in Hc as (a & Ha & Hd). rewrite Hs in Hd; done. }
  destruct (seen (sdb s1) id) as [a|] eqn:Ha; [|apply wp_ret, Hno; by rewrite Ha].
  destruct (seen_status _ _ _ (gd_inv _ Hg1) Ha) as [_ Hid]. case_bool_decide as Hs.
  - destruct (into_rca (ia_nonce_uuid a) (ia_terms a)) as [rca derived].
    case_bool_decide; [by apply wp_ret|]. apply wp_bind, wp_chain_offer. intros answer s2 A2.
    apply wp_try_or, wp_ret. destruct (offer_answer answer) as [tx|]; [|done].
    apply wp_bind, wp_store_offer_good; [by eapply asked_good|]. intros s3 Hg3. apply wp_bind.
    apply wp_bind, wp_agreement_good; [done|]. intros s4 Hg4 _. apply wp_ret.
    destruct (seen (sdb s4) id) as [a'|] eqn:Ha'; [|apply wp_ret, Hno; by rewrite Ha'].
    destruct (seen_status _ _ _ (gd_inv _ Hg4) Ha') as [_ Hid'].
    destruct (dipper_cancelled (ia_status a')) eqn:Hd; [by apply wp_withdrawn|].
    apply wp_ret, Hno. rewrite Ha'. by intros ? [= <-].
  - destruct (dipper_cancelled (ia_status a)) eqn:Hd; [by apply wp_withdrawn|].
    apply wp_ret, Hno. rewrite Ha. by intros ? [= <-].
Qed.

(** C17: what the offer job puts on chain.  It sends at most one offer, before
    any other call, and only for an agreement its first read found [Created]
    whose contract id, derived from the stored nonce and terms, is its own id;
    it pushes no job.  When it succeeds with no connection to the database lost,
    on a well-formed registry that other tasks keep well formed, whatever they
    wrote between its statements: an agreement that is cancelled or being
    cancelled by then is one whose last read shows no live offer, so a cancel
    that raced the offer does not leave it up.  (A lost connection breaks this:
    when the read after the offer fails, the job succeeds and leaves the offer
    as it is.) *)
Theorem offers_are_wanted id s r s' :
  submit id s = (r, s') → offered id s r s' ∧ (good s → withdrawn id r s').
Proof.
  intros Hrun. split; [exact (wp_run _ _ _ _ _ (wp_submit_offer id s) Hrun)|].
  intros Hg. exact (wp_run _ _ _ _ _ (wp_submit_withdrawn id s Hg) Hrun).
Qed.

End offers.

(** ** Proposals *)

Section proposals.
Context {C W : Type} `{!ChainClient C} `{!MessageQueue W}.
Context (submit_offer_max_retries : Z) (dips_url : string → string).
Context (send_proposal : string → N → Terms → N → result DipsError (option Outcome)).
Context (reject_reason_of : Z → option RejectReason).
Context (url : string) (id request_id deployment_id : N) (deployment_chain_id : Z).
Notation SState := (SState C W).
Notation propose := (proposal_handle (C := C) (W := W) submit_offer_max_retries dips_url
  send_proposal reject_reason_of url id request_id deployment_id deployment_chain_id).

(** The agreement settled as declined: its row marked, its replacements of
    other agreements forgotten. *)
Definition declined_db (f : AgreementRow → AgreementRow) (d d' : Db) : Prop :=
  ∃ row, agreements d !! id = Some row ∧ ag_status row = Created ∧
    d' = set_pending (filter (λ p, p.1 ≠ id) (pending d))
           (set_agreements (<[id := f row]> (agreements d)) d).

(** The request's target as it stands. *)
Definition current_target (d : Db) : Z :=
  from_option ir_num_candidates DEFAULT_MAX_CANDIDATES
    ((request_of_row <$> requests d !! request_id) ≫= provider_request).

Definition reassessment (d : Db) : Message :=
  ReassessIndexingRequest request_id deployment_id deployment_chain_id (current_target d).

(** How the agreement is marked when the indexer did not take it. *)
Definition declined_mark (answer : result DipsError (option Outcome))
    : option (Z → AgreementRow → AgreementRow) :=
  match answer with
  | Ok (Some OutcomeAccepted) => None
  | Ok (Some (OutcomeRejected reason)) => Some (λ now r, set_rejection_reason
      (Some (rejection_reason_str (reject_reason_of reason))) (touch now Rejected r))
  | Ok None => Some (λ now r, set_rejection_reason (Some UNSPECIFIED) (touch now Rejected r))
  | Err _ => Some (λ now, touch now Unresponsive)
  end.

(** What a run that marked the agreement leaves behind. *)
Record declined (f : AgreementRow → AgreementRow) (s : SState) (r : JobResult) (s' : SState)
    : Prop := {
  dc_inv : reg_inv (sdb s');
  dc_log : slog s' = slog s;
  dc_result : r = Ok tt ∨ r = Err Fatal;
  dc_rows : ∀ k, k ≠ id → agreements (sdb s') !! k = agreements (sdb s) !! k;
  dc_row : agreements (sdb s') !! id = agreements (sdb s) !! id ∨
    agreements (sdb s') !! id = f <$> agreements (sdb s) !! id;
  dc_done : r = Ok tt → declined_db f (sdb s) (sdb s') ∧
    ss_pushes s' = ss_pushes s ++ [(reassessment (sdb s), Background, true)] }.

Lemma wp_queue_reassessment f s s1 :
  alone s1 → reg_inv (sdb s1) → slog s1 = slog s → ss_pushes s1 = ss_pushes s →
  declined_db f (sdb s) (sdb s1) →
  wp (queue_reassessment request_id deployment_id deployment_chain_id) (declined f s) s1.
Proof.
  intros Ha Hi Hl Hp (row & Hrow & Hst & Hd).
  assert (Hrows : (∀ k, k ≠ id → agreements (sdb s1) !! k = agreements (sdb s) !! k) ∧
    agreements (sdb s1) !! id = f <$> agreements (sdb s) !! id).
  { rewrite Hd, Hrow. simpl. split; [|by rewrite lookup_insert_eq].
    intros k Hk. by rewrite lookup_insert_ne. }
  assert (Hreq : requests (sdb s1) = requests (sdb s)) by by rewrite Hd.
  destruct Hrows as [Hother Hown].
  apply wp_try_or, wp_request_by_id; [done|]. intros r s2 [Q2 P2 C2 L2 N2 O2] D2 Hr.
  destruct Hr as [-> | ->].
  - apply wp_bind, wp_push. intros ok s3 E3 P3 O3. apply wp_ret.
    assert (D3 : sdb s3 = sdb s1) by (unfold sdb in *; congruence).
    assert (L3 : slog s3 = slog s) by (unfold slog in *; congruence).
    split; rewrite ?D3; auto; [by destruct ok; auto|]. destruct ok; [|done].
    intros _. split; [by exists row|]. rewrite P3, P2, Hp. unfold reassessment, current_target.
    by rewrite Hreq.
  - split; rewrite ?D2; auto; [congruence|done].
Qed.

Lemma wp_decline (mark : Z → DbM ()) f s s1 :
  alone s1 → reg_inv (sdb s) → sdb s1 = sdb s → snow s1 = snow s → slog s1 = slog s →
  ss_pushes s1 = ss_pushes s →
  (∀ now d, reg_inv d → mark now d = guarded id [Created] (f now) d) →
  (∀ now d0, preserves (inv_from d0) (mark now)) →
  wp (try_or (pg mark) (λ _, Fatal) (λ _,
      try_or (pg (λ _, delete_pending_cancellations_by_new_agreement id)) (λ _, Fatal) (λ _,
      queue_reassessment request_id deployment_id deployment_chain_id)))
    (declined (f (snow s)) s) s1.
Proof.
  intros Ha Hi D1 N1 L1 P1 Hrun Hinv. apply wp_try_or, wp_pg_alone; [done|].
  apply (wp_guarded_statement mark id [Created] (f (snow s1))); rewrite ?D1, ?N1; auto.
  - intros s2 row As Hi2 Hr Hst Hd2. assert (Ha2 : alone s2) by by eapply aside_alone.
    destruct As as [Q2 P2 C2 L2 N2 O2]. apply list_elem_of_singleton in Hst.
    assert (Hi3 : reg_inv (set_pending (filter (λ p, p.1 ≠ id) (pending (sdb s2))) (sdb s2))).
    { apply (keeps_inv (delete_pending_cancellations_by_new_agreement id) (sdb s2) (Ok tt));
        [intros d0; apply delete_pending_inv|done|done]. }
    assert (Hdone : declined_db (f (snow s)) (sdb s)
      (set_pending (filter (λ p, p.1 ≠ id) (pending (sdb s2))) (sdb s2))).
    { exists row. by rewrite Hd2. }
    apply wp_try_or, wp_pg; [done|..]; simpl.
    + intros r s3 As3 [= <- Hd3]. assert (alone s3) by by eapply aside_alone.
      destruct As3. rewrite Hd3 in *. apply wp_queue_reassessment; auto; congruence.
    + intros s3 [Q3 P3 C3 L3 N3 O3] Hd3. split; [by destruct Hd3 as [-> | ->]|congruence|auto|..|done].
      * intros k Hk. destruct Hd3 as [-> | ->]; rewrite Hd2; simpl; by rewrite lookup_insert_ne.
      * right. rewrite Hr. destruct Hd3 as [-> | ->]; rewrite Hd2; simpl; by rewrite lookup_insert_eq.
  - intros s2 [Q2 P2 C2 L2 N2 O2] D2 _. split; rewrite ?D2; auto; [congruence|done].
  - intros s2 [Q2 P2 C2 L2 N2 O2] Hi2 [D2|(row & Hr & _ & D2)].
    + split; rewrite ?D2; auto; [congruence|done].
    + split; auto; [congruence|..|done]; rewrite D2; simpl.
      * intros k Hk. by rewrite lookup_insert_ne.
      * right. by rewrite Hr, lookup_insert_eq.
Qed.

Definition proposed (s : SState) (r : JobResult) (s' : SState) : Prop :=
  let idle := sdb s' = sdb s ∧ ss_pushes s' = ss_pushes s in
  match seen (sdb s) id with
  | Some a =>
      if bool_decide (ia_status a = Created) then
        match declined_mark (send_proposal (dips_url url) id (ia_terms a) (ia_nonce_uuid a)) with
        | Some f => declined (f (snow s)) s r s'
        | None => sdb s' = sdb s ∧ (r = Ok tt → ss_pushes s' = ss_pushes s ++
            [(SubmitOffer id request_id (dips_url url) deployment_id deployment_chain_id,
              Background, true)])
        end
      else idle
  | None => idle
  end.

Lemma wp_proposal s :
  alone s → reg_inv (sdb s) →
  wp propose (λ r s', (r = Ok tt ∨ r = Err Fatal) ∧ slog s' = slog s ∧
    (proposed s r s' ∨ r = Err Fatal ∧ sdb s' = sdb s ∧ ss_pushes s' = ss_pushes s)) s.
Proof.
  intros Ha Hi. unfold proposal_handle. apply wp_try_or, wp_agreement_by_id; [done|].
  intros r s1 As D1 Hr. assert (Ha1 : alone s1) by by eapply aside_alone.
  destruct As as [Q1 P1 C1 L1 N1 O1]. destruct Hr as [-> | ->]; [|by auto 7].
  unfold proposed. destruct (seen (sdb s) id) as [a|] eqn:Hseen; [|by apply wp_ret; auto].
  rewrite bool_decide_not. case_bool_decide as Hc; simpl; [|by apply wp_ret; auto].
  assert (Hdec : ∀ (mark : Z → DbM ()) f,
    (∀ now d, reg_inv d → mark now d = guarded id [Created] (f now) d) →
    (∀ now d0, preserves (inv_from d0) (mark now)) →
    wp (try_or (pg mark) (λ _, Fatal) (λ _,
        try_or (pg (λ _, delete_pending_cancellations_by_new_agreement id)) (λ _, Fatal) (λ _,
        queue_reassessment request_id deployment_id deployment_chain_id)))
      (λ r s', (r = Ok tt ∨ r = Err Fatal) ∧ slog s' = slog s ∧
        (declined (f (snow s)) s r s' ∨
         r = Err Fatal ∧ sdb s' = sdb s ∧ ss_pushes s' = ss_pushes s)) s1).
  { intros mark f H1 H2. eapply wp_mono; [by apply wp_decline|]. intros r s2 Hd.
    split_and!; [apply Hd..|by left]. }
  destruct (send_proposal (dips_url url) id (ia_terms a) (ia_nonce_uuid a))
    as [[[|reason]|]|e] eqn:Ho; cbv beta iota.
  - apply wp_bind, wp_push. intros ok s2 E2 P2 O2. apply wp_ret.
    split_and!; [by destruct ok; auto|by unfold slog in *; congruence|]. left.
    split; [unfold sdb in *; congruence|]. destruct ok; [|done]. intros _. by rewrite P2, P1.
  - refine (Hdec (λ now, mark_indexing_agreement_as_rejected now id _)
      (λ now r, set_rejection_reason _ (touch now Rejected r)) _ _); intros;
      [by apply rejected_run|apply mark_inv].
  - refine (Hdec (λ now, mark_indexing_agreement_as_rejected now id _)
      (λ now r, set_rejection_reason _ (touch now Rejected r)) _ _); intros;
      [by apply rejected_run|apply mark_inv].
  - refine (Hdec (λ now, mark_indexing_agreement_as_unresponsive now id)
      (λ now, touch now Unresponsive) _ _); intros; [by apply unresponsive_run|apply mark_inv].
Qed.

(** *** Other tasks writing meanwhile *)

Definition no_writes (now : Z) (d d' : Db) : Prop := False.

(** What the job may write once the indexer did not take the agreement: mark
    it, if it is still [Created], and forget what it was to replace. *)
Definition settling (f : Z → AgreementRow → AgreementRow) (now : Z) (d d' : Db) : Prop :=
  (∃ row, agreements d !! id = Some row ∧ ag_status row = Created ∧
     d' = set_agreements (<[id := f now row]> (agreements d)) d) ∨
  d' = set_pending (filter (λ p, p.1 ≠ id) (pending d)) d.

(** The job from the mark on, run from [s]: the agreement is marked only if it
    is [Created] when the statement runs; if another task has moved it on, the
    job is dropped with nothing written. *)
Definition settled_as (f : Z → AgreementRow → AgreementRow) (s : SState) (r : JobResult) (s' : SState)
    : Prop :=
  ∃ s1, interfered s s1 ∧
    (db_status (sdb s1) id = Some Created → turns_of (settling f) s1 s') ∧
    (db_status (sdb s1) id ≠ Some Created →
      r = Err Fatal ∧ turns_of no_writes s1 s' ∧ ss_pushes s' = ss_pushes s) ∧
    (r = Ok tt → ∃ s2, turns_of (settling f) s1 s2 ∧ turns_of no_writes s2 s' ∧
      ss_pushes s' = ss_pushes s ++ [(reassessment (sdb s2), Background, true)]).

Lemma quiet_aside P (s s' : SState) : clean s → aside s s' → sdb s' = sdb s → turns_of P s s'.
Proof. intros Hc [] D. by apply quiet_turn. Qed.

(** Queueing the reassessment. *)
Lemma wp_queue_shared (s : SState) :
  clean s →
  wp (queue_reassessment request_id deployment_id deployment_chain_id) (λ r s',
    (r = Ok tt ∨ r = Err Fatal) ∧ slog s' = slog s ∧ turns_of no_writes s s' ∧
    (r = Ok tt → ∃ s1, turns_of no_writes s s1 ∧ turns_of no_writes s1 s' ∧
      ss_pushes s' = ss_pushes s ++ [(reassessment (sdb s1), Background, true)])) s.
Proof.
  intros Hc. apply wp_try_or, wp_pg_shared. intros s1 H1.
  destruct (interfered_evolves _ _ H1 Hc) as [_ Hc1].
  apply (wp_read (λ _ d, Ok ((request_of_row <$> requests d !! request_id) ≫= provider_request))).
  intros x s2 As D2 Hx. pose proof (quiet_aside no_writes _ _ Hc1 As D2) as T2.
  assert (T : turns_of no_writes s s2) by (eapply rtc_l; [by left|done]).
  assert (L : slog s2 = slog s) by (rewrite (as_log _ _ As); apply H1).
  destruct Hx as [-> | ->]; [|split_and!; [by right|done..]]. apply wp_bind, wp_push. intros ok s3 E3 P3 O3. apply wp_ret.
  assert (T3 : turns_of no_writes s2 s3).
  { apply quiet_turn; [by eapply turns_clean|unfold sdb, snow; by rewrite ?E3..]. }
  split_and!; [by destruct ok; auto|unfold slog in *; by rewrite E3|by eapply turns_trans|].
  destruct ok; [|done]. intros _. exists s2. split_and!; [done..|]. rewrite P3, (as_pushes _ _ As).
  rewrite (if_pushes _ _ H1). unfold reassessment, current_target. by rewrite D2.
Qed.

Lemma no_writes_turns P (s s' : SState) : turns_of no_writes s s' → turns_of P s s'.
Proof.
  intros H. eapply rtc_subrel; [|exact H]. intros s1 s2 [H1|[O N' I' [D|[]]]]; [by left|right].
  by split; auto.
Qed.

Lemma wp_forget_shared f (s : SState) :
  clean s →
  wp (try_or (pg (λ _, delete_pending_cancellations_by_new_agreement id)) (λ _, Fatal) (λ _,
      queue_reassessment request_id deployment_id deployment_chain_id))
    (λ r s', (r = Ok tt ∨ r = Err Fatal) ∧ slog s' = slog s ∧ turns_of (settling f) s s' ∧
      (r = Ok tt → ∃ s1, turns_of (settling f) s s1 ∧ turns_of no_writes s1 s' ∧
        ss_pushes s' = ss_pushes s ++ [(reassessment (sdb s1), Background, true)])) s.
Proof.
  intros Hc. apply wp_try_or. apply (wp_mono _ (λ x s1, turns_of (settling f) s s1 ∧
    slog s1 = slog s ∧ ss_pushes s1 = ss_pushes s)).
  - apply (owp_pg (settling f)); [done|intros; apply delete_pending_inv|..].
    + intros s1 d' _ _ ->. right. by right.
    + intros r s1 s' H1 _ As T _ _. split; [rewrite (as_log _ _ As); apply H1|].
      rewrite (as_pushes _ _ As). apply H1.
  - intros x s1 (T1 & L1 & P1). destruct x as [[]|e].
    2:{ split_and!; [by right|done|done|done]. }
    eapply wp_mono; [apply wp_queue_shared; by eapply turns_clean|].
    intros r s2 (Hr & L2 & T2 & Hdone). split_and!; [done|congruence| |].
    + eapply turns_trans; [done|by apply no_writes_turns].
    + intros Hok. destruct (Hdone Hok) as (s3 & T3 & T4 & Hp). exists s3. split_and!; [|done|congruence].
      eapply turns_trans; [done|by apply no_writes_turns].
Qed.

(** The guarded mark: a [Created] agreement is marked, any other left. *)
Lemma mark_turn (mark : Z → DbM ()) f (s s' : SState) :
  clean s → (∀ now d, reg_inv d → mark now d = guarded id [Created] (f now) d) →
  (∀ now d0, preserves (inv_from d0) (mark now)) →
  aside s s' → sdb s' = (mark (snow s) (sdb s)).2 → db_status (sdb s) id = Some Created →
  turns_of (settling f) s s'.
Proof.
  intros Hc Hrun Hinv [Q2 P2 C2 L2 N2 O2] D2 Hst. apply rtc_once. right. split; [done..| |].
  - rewrite D2. apply (Hinv _ (sdb s)). split; [apply Hc|apply db_evolves_refl].
  - right. left. rewrite Hrun in D2 by apply Hc. unfold guarded in D2. unfold db_status in Hst.
    destruct (agreements (sdb s) !! id) as [row|]; [|done]. injection Hst as Hst.
    exists row. split_and!; [done..|]. unfold status_in in D2.
    rewrite bool_decide_true in D2 by (rewrite Hst; by left). done.
Qed.

Lemma mark_left (mark : Z → DbM ()) f now d :
  reg_inv d → (∀ now d, reg_inv d → mark now d = guarded id [Created] (f now) d) →
  db_status d id ≠ Some Created → mark now d = (Err NoRecordsUpdated, d).
Proof.
  intros Hi Hrun Hn. rewrite Hrun by done. unfold guarded, db_status in *.
  destruct (agreements d !! id) as [row|]; [|done]. unfold status_in.
  rewrite bool_decide_false; [done|]. intros Hin%list_elem_of_singleton. apply Hn. simpl. congruence.
Qed.

Lemma wp_settle_shared (mark : Z → DbM ()) f (s : SState) :
  clean s → (∀ now d, reg_inv d → mark now d = guarded id [Created] (f now) d) →
  (∀ now d0, preserves (inv_from d0) (mark now)) →
  wp (try_or (pg mark) (λ _, Fatal) (λ _,
      try_or (pg (λ _, delete_pending_cancellations_by_new_agreement id)) (λ _, Fatal) (λ _,
      queue_reassessment request_id deployment_id deployment_chain_id)))
    (λ r s', (r = Ok tt ∨ r = Err Fatal) ∧ slog s' = slog s ∧ settled_as f s r s') s.
Proof.
  intros Hc Hrun Hinv. apply wp_try_or, wp_pg_shared. intros s1 H1.
  destruct (interfered_evolves _ _ H1 Hc) as [_ Hc1]. pose proof (if_log _ _ H1) as L1.
  pose proof (if_pushes _ _ H1) as P1. pose proof (mark_left mark f (snow s1) (sdb s1) (cn_inv _ Hc1) Hrun)
    as Hleft.
  assert (Hdrop : ∀ s2, aside s1 s2 → (sdb s2 = sdb s1 ∨ sdb s2 = (mark (snow s1) (sdb s1)).2) →
    slog s2 = slog s ∧ settled_as f s (Err Fatal) s2).
  { intros s2 As D2. split; [rewrite (as_log _ _ As); done|]. exists s1. split_and!; [done|..|done].
    - intros Hst. destruct D2 as [D2|D2]; [by apply quiet_aside|by eapply mark_turn].
    - intros Hn. rewrite (Hleft Hn) in D2. split_and!; [done| |by rewrite (as_pushes _ _ As)].
      apply quiet_aside; [done..|]. by destruct D2. }
  apply wp_statement; [|intros s2 As D2; split; [by right|by apply Hdrop]].
  intros x s2 As E2. destruct x as [[]|e].
  2:{ split; [by right|]. apply Hdrop; [done|right; by rewrite E2]. }
  assert (Hst : db_status (sdb s1) id = Some Created).
  { destruct (decide (db_status (sdb s1) id = Some Created)) as [|Hn]; [done|].
    rewrite (Hleft Hn) in E2. done. }
  assert (T2 : turns_of (settling f) s1 s2) by (eapply mark_turn; try done; by rewrite E2).
  eapply wp_mono; [apply (wp_forget_shared f s2); by eapply turns_clean|].
  intros r s3 (Hr & L3 & T3 & Hdone). split_and!; [done|rewrite L3, (as_log _ _ As); done|].
  exists s1. split_and!; [done|..|done|].
  - intros _. by eapply turns_trans.
  - intros Hok. destruct (Hdone Hok) as (s4 & T4 & T5 & Hp). exists s4.
    split_and!; [by eapply turns_trans|done|]. by rewrite Hp, (as_pushes _ _ As), P1.
Qed.

(** The whole job, given the agreement its first read found. *)
Definition proposal_turns (s : SState) (r : JobResult) (s' : SState) : Prop :=
  ∃ s1, interfered s s1 ∧
    let idle := turns_of no_writes s1 s' ∧ ss_pushes s' = ss_pushes s in
    (r = Err Fatal ∧ idle ∨
     match seen (sdb s1) id with
     | Some a =>
         if bool_decide (ia_status a = Created) then
           match declined_mark (send_proposal (dips_url url) id (ia_terms a) (ia_nonce_uuid a)) with
           | Some f => ∃ s2, sdb s2 = sdb s1 ∧ ss_others s2 = ss_others s1 ∧
               ss_pushes s2 = ss_pushes s ∧ settled_as f s2 r s'
           | None => turns_of no_writes s1 s' ∧ (r = Ok tt → ss_pushes s' = ss_pushes s ++
               [(SubmitOffer id request_id (dips_url url) deployment_id deployment_chain_id,
                 Background, true)])
           end
         else idle
     | None => idle
     end).

Lemma wp_proposal_shared s :
  clean s →
  wp propose (λ r s', (r = Ok tt ∨ r = Err Fatal) ∧ slog s' = slog s ∧ proposal_turns s r s') s.
Proof.
  intros Hc. unfold proposal_handle. apply wp_try_or, wp_agreement_shared.
  intros x s1 s2 H1 As D2 Hx. destruct (interfered_evolves _ _ H1 Hc) as [_ Hc1].
  pose proof (quiet_aside no_writes _ _ Hc1 As D2) as T2. pose proof (turns_clean _ _ _ T2 Hc1) as Hc2.
  assert (L : slog s2 = slog s) by (rewrite (as_log _ _ As); apply H1).
  assert (Hp : ss_pushes s2 = ss_pushes s) by (rewrite (as_pushes _ _ As); apply H1).
  assert (O : ss_others s2 = ss_others s1) by apply As.
  destruct Hx as [-> | ->].
  2:{ split_and!; [by right|done|]. exists s1. split; [done|]. by left. }
  destruct (seen (sdb s1) id) as [a|] eqn:Hseen.
  2:{ apply wp_ret. split_and!; [by left|done|]. exists s1. split; [done|]. right. by rewrite Hseen. }
  rewrite bool_decide_not. destruct (bool_decide (ia_status a = Created)) eqn:Hcr; simpl.
  2:{ apply wp_ret. split_and!; [by left|done|]. exists s1. split; [done|]. right. by rewrite Hseen, Hcr. }
  assert (Hdec : ∀ (mark : Z → DbM ()) f,
    (∀ now d, reg_inv d → mark now d = guarded id [Created] (f now) d) →
    (∀ now d0, preserves (inv_from d0) (mark now)) →
    declined_mark (send_proposal (dips_url url) id (ia_terms a) (ia_nonce_uuid a)) = Some f →
    wp (try_or (pg mark) (λ _, Fatal) (λ _,
        try_or (pg (λ _, delete_pending_cancellations_by_new_agreement id)) (λ _, Fatal) (λ _,
        queue_reassessment request_id deployment_id deployment_chain_id)))
      (λ r s', (r = Ok tt ∨ r = Err Fatal) ∧ slog s' = slog s ∧ proposal_turns s r s') s2).
  { intros mark f Hm1 Hm2 Hf. eapply wp_mono; [by apply (wp_settle_shared mark f)|].
    intros r s3 (Hr & L3 & Hs). split_and!; [done|congruence|]. exists s1. split; [done|]. right.
    rewrite Hseen, Hcr, Hf. by exists s2. }
  destruct (send_proposal (dips_url url) id (ia_terms a) (ia_nonce_uuid a))
    as [[[|reason]|]|e] eqn:Ho; cbv beta iota.
  - apply wp_bind, wp_push. intros ok s3 E3 P3 O3. apply wp_ret.
    split_and!; [by destruct ok; auto|by unfold slog in *; congruence|]. exists s1. split; [done|].
    right. rewrite Hseen, Hcr, Ho. split.
    + eapply turns_trans; [exact T2|]. apply quiet_turn; [done|unfold sdb, snow; by rewrite ?E3..].
    + destruct ok; [|done]. intros _. by rewrite P3, Hp.
  - eapply Hdec; [intros; by apply rejected_run|intros; apply mark_inv|reflexivity].
  - eapply Hdec; [intros; by apply rejected_run|intros; apply mark_inv|reflexivity].
  - eapply Hdec; [intros; by apply unresponsive_run|intros; apply mark_inv|reflexivity].
Qed.


End proposals.

(** ** Witnesses *)

Lemma live_check_settles_witness :
  ∃ s', live_check_handle 12 (Some (mkChainAccept 1234 "0xaa")) (demo_run demo_rejected_db [Ok Live] []) =
      (Ok tt, s') ∧
    db_status (sdb s') 12 = Some Cancelling.
Proof.
  destruct (live_check_handle 12 (Some (mkChainAccept 1234 "0xaa")) (demo_run demo_rejected_db [Ok Live] []))
    as [r s'] eqn:E.
  assert (Hr : r = Ok tt ∧ slog s' = [CallRead 12 (Ok Live)]).
  { vm_compute in E. injection E as <- <-. split; reflexivity. }
  destruct Hr as [-> Hl].
  destruct (live_check_settles 12 (Some (mkChainAccept 1234 "0xaa")) (demo_run demo_rejected_db [Ok Live] [])
    (Ok tt) s') as [Hc _]; [reflexivity|apply run_ops_inv; by repeat constructor|exact E|].
  exists s'. split; [reflexivity|]. by apply (ck_done _ _ _ _ _ Hc).
Defined.

(** The agreement is cancelled while its offer is being sent. *)
Definition demo_submit :=
  submit_offer_handle (C := Script) (W := list Message) demo_config (λ _, replicate 15 0 ++ [11])
    (λ _ _ _ _ _, []) (λ _ _, []) (λ _ _ _, []) 11.
Definition demo_offered : Db :=
  run_ops [SetTarget 10 1 5 7 42161 2;
    Register 20 (mkParams 11 111 1 7 31 "http://indexer" demo_terms (Some (replicate 32 7)))] empty_db.
Definition demo_race : SState Script (list Message) :=
  demo_run demo_offered [Ok Live; Ok NotLive] [[]; []; [MarkCancelling 90 11]].

Lemma offers_are_wanted_witness :
  ∃ s', demo_submit demo_race = (Ok tt, s') ∧ db_status (sdb s') 11 = Some Cancelling ∧
    existsb is_offer (slog s') = true ∧ ends_not_live 11 (slog s').
Proof.
  destruct (demo_submit demo_race) as [r s'] eqn:E.
  assert (Hr : r = Ok tt ∧ db_status (sdb s') 11 = Some Cancelling ∧
    existsb is_offer (slog s') = true).
  { vm_compute in E. injection E as <- <-. split_and!; reflexivity. }
  destruct Hr as (-> & Hs & Ho). exists s'. split_and!; [reflexivity|done..|].
  apply (offers_are_wanted demo_config (λ _, replicate 15 0 ++ [11]) (λ _ _ _ _ _, [])
    (λ _ _, []) (λ _ _ _, []) 11 demo_race (Ok tt) s' E); [|reflexivity|rewrite Hs; by left].
  split; [reflexivity|apply run_ops_inv; by repeat constructor|by repeat constructor].
Defined.

(** An indexer that finds the price too low. *)
Definition demo_propose :=
  proposal_handle (C := Script) (W := list Message) 7 (λ url, url) (λ _ _ _ _, Ok (Some (OutcomeRejected 1)))
    (λ code, if code =? 1 then Some PriceTooLow else None) "http://indexer" 11 1 7 42161.

(** Another task takes the agreement back while the indexer is asked. *)
Definition demo_taken_back : SState Script (list Message) :=
  demo_run demo_created [] [[]; [MarkCancelling 90 11]].


End HandlerProps.
