(* ===== verification/Liveness.v ===== *)
(** * The liveness checker (bin/dipper-service/src/network/service/liveness_checker.rs)

    One cycle: the agreements to check, the answer of each indexer's status
    endpoint, the breaker that holds abandonment while too many can't be
    reached, and abandoning and replacing an agreement without progress.
    The HTTP exchange with an indexer and the network registry are a parameter;
    the reading of the answer's JSON is modelled.  Instants and durations are
    nanoseconds; a share is an IEEE 754 double. *)

From Stdlib Require Import SpecFloat.
From S2P Require Import Prelude Schema Registry RegistryInv RegistryRuns RegistryOps RegistryQueries.
From S2P Require Import JobQueue Worker Rca CancelDispatch CancelDispatchProps.
From S2P Require Import ChainEvents ChainListener ChainReconcile Services.
Import Schema Registry RegistryInv RegistryRuns RegistryOps RegistryQueries.
Import JobQueue Worker Rca CancelDispatch CancelDispatchProps ChainEvents ChainListener.
Import ChainReconcile Services.
Local Open Scope Z_scope.

Module Liveness.

(** A stored time, in microseconds, as an instant. *)
Definition instant (stored : Z) : Z := stored * 1000.
Definition duration_days (n : Z) : Z := n * 86400000000000.
Definition duration_hours (n : Z) : Z := n * 3600000000000.

(** ** Deciding *)

(** [count as u32]; a deployment not counted has 1 agreement. *)
Definition tolerance_duration (deployment_id : N) (active_counts : gmap N Z)
    (max_tolerance_days : Z) : Z :=
  let count := default 1 (active_counts !! deployment_id) in
  duration_days (Z.max (Z.min (count mod 2 ^ 32) max_tolerance_days) 1).

Inductive LivenessAction : Type :=
| InitializeTracking (block : Z)
| ResetProgress (block : Z)
| WithinTolerance
| CancelAndReassess.

Definition decide_liveness_action (last_block_height current_block last_progress_at : option Z)
    (now : Z) (deployment_id : N) (active_counts : gmap N Z) (max_tolerance_days : Z)
    : LivenessAction :=
  let waiting :=
    if tolerance_duration deployment_id active_counts max_tolerance_days
       <? now - default now last_progress_at
    then CancelAndReassess else WithinTolerance in
  match last_block_height, current_block with
  | None, Some block => InitializeTracking block
  | None, None => InitializeTracking 0
  | Some last, Some current => if negb (current =? last) then ResetProgress current else waiting
  | Some _, None => waiting
  end.

(** ** The breaker *)

Record LivenessCheckerConfig : Type := mkLivenessConfig {
  lc_max_tolerance_days : Z;
  lc_batch_size : Z;
  lc_unreachable_trip_fraction : spec_float;
  lc_unreachable_trip_min_indexers : Z }.

(** [n as f64] *)
Definition as_f64 (n : Z) : spec_float := binary_normalize 53 1024 n 0 false.
Definition f64_div : spec_float → spec_float → spec_float := SFdiv 53 1024.

Definition unreachable_trips (checked unreachable : Z) (trip_fraction : spec_float)
    (min_indexers : Z) : bool :=
  (0 <? checked) && (min_indexers <=? checked)
  && SFleb trip_fraction (f64_div (as_f64 unreachable) (as_f64 checked)).

Record HeldSpan : Type := mkSpan { hs_from : Z; hs_to : Z }.

Inductive UnreachablePolicy : Type :=
| Hold
| Judge (held : list HeldSpan) (max_grace : Z).

(** The time a span held an agreement whose clock started at [at_]. *)
Definition held_after (at_ : Z) (span : HeldSpan) : Z :=
  Z.max (hs_to span - Z.max (hs_from span) at_) 0.

Definition sum (l : list Z) : Z := foldr Z.add 0 l.

Definition progress_clock (policy : UnreachablePolicy) (last_progress_at : option Z) : option Z :=
  match policy with
  | Hold => last_progress_at
  | Judge held max_grace =>
      (λ at_, at_ + Z.min (sum (held_after at_ <$> held)) max_grace) <$> last_progress_at
  end.

Definition UNREACHABLE_CLEAR_CYCLES : Z := 3.
Definition UNREACHABLE_ALERT_REPEAT : Z := duration_hours 6.

Record UnreachableBreaker : Type := mkBreaker {
  ub_tripped_since : option Z;
  ub_quiet_cycles : Z;
  ub_held : list HeldSpan;
  ub_alerted_at : option Z }.
Definition default_breaker : UnreachableBreaker := mkBreaker None 0 [] None.

Definition note_trip (now : Z) (b : UnreachableBreaker) : UnreachableBreaker :=
  match ub_tripped_since b with
  | None => mkBreaker (Some now) 0 (ub_held b) None
  | Some since => mkBreaker (Some since) 0 (ub_held b) (ub_alerted_at b)
  end.

Definition note_quiet_cycle (b : UnreachableBreaker) : UnreachableBreaker :=
  let quiet := ub_quiet_cycles b + 1 in
  if quiet <? UNREACHABLE_CLEAR_CYCLES
  then mkBreaker (ub_tripped_since b) quiet (ub_held b) (ub_alerted_at b)
  else mkBreaker None 0 (ub_held b) (ub_alerted_at b).

Definition set_alerted (now : Z) (b : UnreachableBreaker) : UnreachableBreaker :=
  mkBreaker (ub_tripped_since b) (ub_quiet_cycles b) (ub_held b) (Some now).

(** Whether an operator is alerted, and the breaker after. *)
Definition report_hold (now : Z) (b : UnreachableBreaker) : bool * UnreachableBreaker :=
  if match ub_alerted_at b with
     | None => true
     | Some at_ => UNREACHABLE_ALERT_REPEAT <=? now - at_
     end
  then (true, set_alerted now b) else (false, b).

Definition breaker_gave_up (now max_hold : Z) (b : UnreachableBreaker) : bool * UnreachableBreaker :=
  match ub_tripped_since b, ub_alerted_at b with
  | None, _ => (false, b)
  | Some since, Some at_ =>
      if max_hold <? at_ - since then (false, b) else (true, set_alerted now b)
  | Some _, None => (true, set_alerted now b)
  end.

(** [held.last_mut()]: the span of the current trip grows, or starts. *)
Definition extend_held (since now : Z) (held : list HeldSpan) : list HeldSpan :=
  match last held with
  | Some span =>
      if hs_from span =? since then removelast held ++ [mkSpan (hs_from span) now]
      else held ++ [mkSpan since now]
  | None => held ++ [mkSpan since now]
  end.

Definition max_hold (config : LivenessCheckerConfig) : Z :=
  duration_days (Z.max (lc_max_tolerance_days config) 1).

Definition retain_held (now hold : Z) (held : list HeldSpan) : list HeldSpan :=
  filter (λ span, now - hs_to span ≤ hold + hold) held.

(** The policy, whether an operator is alerted, and the breaker after. *)
Definition evaluate (config : LivenessCheckerConfig) (checked unreachable now : Z)
    (b : UnreachableBreaker) : UnreachablePolicy * bool * UnreachableBreaker :=
  let trips := unreachable_trips checked unreachable (lc_unreachable_trip_fraction config)
                 (lc_unreachable_trip_min_indexers config) in
  let b := if trips then note_trip now b
           else if is_null (ub_tripped_since b) then b else note_quiet_cycle b in
  let hold := max_hold config in
  let b := mkBreaker (ub_tripped_since b) (ub_quiet_cycles b)
             (retain_held now hold (ub_held b)) (ub_alerted_at b) in
  let judge := Judge (ub_held b) hold in
  match ub_tripped_since b with
  | None => (judge, false, b)
  | Some since =>
      if hold <? now - since then
        let '(alert, b) := breaker_gave_up now hold b in (judge, alert, b)
      else
        let '(alert, b) := report_hold now b in
        (Hold, alert, mkBreaker (ub_tripped_since b) (ub_quiet_cycles b)
                        (extend_held since now (ub_held b)) (ub_alerted_at b))
  end.

(** ** What an indexer reports *)

(** [serde_json::Value]; a number is a [u64] or another one. *)
Inductive Json : Type :=
| JNull | JBool (b : bool) | JU64 (n : Z) | JOtherNumber
| JString (s : string) | JArray (l : list Json) | JObject (fields : list (string * Json)).

(** [Value::get] with a key, [as_str], [as_array]; of equal keys the last one
    is kept when the text is read. *)
Definition json_get (key : string) (j : Json) : option Json :=
  match j with
  | JObject fields => snd <$> last (filter (λ f, f.1 = key) fields)
  | _ => None
  end.
Definition as_str (j : Json) : option string := match j with JString s => Some s | _ => None end.
Definition as_array (j : Json) : option (list Json) :=
  match j with JArray l => Some l | _ => None end.

(** [latestBlock.number] of the first chain, as a string or a number. *)
Definition block_number (status : Json) : option Z :=
  chains ← json_get "chains" status; arr ← as_array chains; chain ← head arr;
  lb ← json_get "latestBlock" chain; n ← json_get "number" lb;
  match n with
  | JString s => parse_u64 s
  | JU64 n => Some n
  | _ => None
  end.

Definition status_heights (json : Json) : gmap string (option Z) :=
  match (d ← json_get "data" json; s ← json_get "indexingStatuses" d; as_array s) with
  | None => ∅
  | Some statuses =>
      foldl (λ result status,
        match (s ← json_get "subgraph" status; as_str s) with
        | None => result
        | Some subgraph => <[subgraph := block_number status]> result
        end) ∅ statuses
  end.

Inductive Probe : Type :=
| Reached (heights : gmap string (option Z))
| Unreachable.

(** The indexer is not in the network registry or its status call failed, or
    its answer. *)
Definition probe_of (answer : option Json) : Probe :=
  match answer with None => Unreachable | Some json => Reached (status_heights json) end.

(** The groups' agreements in the order they were read. *)
Definition group_by_indexer_id (agreements : list IndexingAgreement)
    : gmap N (list IndexingAgreement) :=
  foldl (λ groups a,
    let id := ix_id (ia_indexer a) in <[id := default [] (groups !! id) ++ [a]]> groups)
    ∅ agreements.

Section liveness.
Context {C W : Type} `{!ChainClient C} `{!MessageQueue W}.
Context (tx_string : N → string) (agreement_conf : IndexingAgreementConfig).
Context (deployment_string : N → string).
Notation S := (S C W).

Definition probe_block (probe : Probe) (a : IndexingAgreement) : option Z :=
  match probe with
  | Reached heights => mjoin (heights !! deployment_string (tm_deployment (t_metadata (ia_terms a))))
  | Unreachable => None
  end.

(** ** Replacing an abandoned agreement *)

Definition open_request (r : IndexingRequest) : option IndexingRequest :=
  if bool_decide (ir_status r = Open) then Some r else None.

(** [Err] is a read that failed. *)
Definition abandoned_request (a : IndexingAgreement) : S (result () (option IndexingRequest)) :=
  r ← pg (λ _, provider_request_by_id (ia_indexing_request_id a));
  mret (match r with
        | Ok (Some request) => Ok (open_request request)
        | Ok None => Ok None
        | Err _ => Err tt
        end).

Definition queue_replacement (a : IndexingAgreement) : S bool :=
  r ← abandoned_request a;
  match r with
  | Ok (Some request) =>
      queue_reassess_indexing_request (ia_indexing_request_id a)
        (tm_deployment (t_metadata (ia_terms a))) (tm_chain_id (t_metadata (ia_terms a)))
        (ir_num_candidates request) Background
  | Ok None => mret true
  | Err _ => mret false
  end.

Definition replace_abandoned (a : IndexingAgreement) : S () :=
  queued ← queue_replacement a;
  if (queued : bool) then _ ← pg (λ _, mark_replacement_queued (ia_id a)); mret tt
  else mret tt.

(** ** Abandoning an agreement *)

Definition mark_abandoning (a : IndexingAgreement) : S bool :=
  _ ← let_others;
  marked ← on_dispatch (mark_cancelling a Abandoned);
  mret (is_ok marked).

Definition start_abandoned_cancel (now_secs : Z) (a : IndexingAgreement) : S (option CancelStarted) :=
  marked ← mark_abandoning a;
  if (marked : bool) then
    started ← on_dispatch (send_marked_cancel tx_string agreement_conf now_secs a Abandoned);
    mret (Some started)
  else mret None.

Definition forget_replaced_agreement (a : IndexingAgreement) : S () :=
  _ ← pg (λ _, delete_pending_cancellations_by_new_agreement (ia_id a)); mret tt.

Definition note_seen_ended (a : IndexingAgreement) : S bool :=
  r ← pg (λ now, record_cancel_check now (ia_id a) 0 (Some true));
  mret (match r with Ok _ => true | Err NoRecordsUpdated => true | Err _ => false end).

(** [uncancellable.report] *)
Definition cancel_and_reassess (now_secs : Z) (a : IndexingAgreement) (uncancellable : gset N)
    : S (gset N) :=
  if is_null (cancel_hash a) then mret ({[ia_id a]} ∪ uncancellable)
  else
    started ← start_abandoned_cancel now_secs a;
    match started with
    | None => mret uncancellable
    | Some started =>
        _ ← forget_replaced_agreement a;
        ended ← match started with
                | StartedEnded => mret true
                | StartedMayBeLive => mret false
                | StartedNotLive => note_seen_ended a
                end;
        _ ← (if (ended : bool) then replace_abandoned a else mret tt);
        mret uncancellable
    end.

(** ** Checking *)

(** A failure is logged; [now] is stored to the microsecond. *)
Definition record_progress (a : IndexingAgreement) (block_height now : Z) : S () :=
  _ ← pg (λ _, update_agreement_sync_progress (ia_id a) block_height (now / 1000)); mret tt.

Definition is_hold (unreachable : option UnreachablePolicy) : bool :=
  match unreachable with Some Hold => true | _ => false end.

(** [now] is the wall clock. *)
Definition check_agreement (config : LivenessCheckerConfig) (active_counts : gmap N Z) (now : Z)
    (uncancellable : gset N) (a : IndexingAgreement) (current_block : option Z)
    (unreachable : option UnreachablePolicy) : S (gset N) :=
  let stored := instant <$> ia_last_progress_at a in
  let last_progress_at := match unreachable with
                          | None => stored
                          | Some policy => progress_clock policy stored
                          end in
  match decide_liveness_action (ia_last_block_height a) current_block last_progress_at now
          (tm_deployment (t_metadata (ia_terms a))) active_counts (lc_max_tolerance_days config) with
  | InitializeTracking block | ResetProgress block =>
      _ ← record_progress a block now; mret uncancellable
  | WithinTolerance => mret uncancellable
  | CancelAndReassess =>
      if is_hold unreachable then mret uncancellable
      else cancel_and_reassess (now / 1000000000) a uncancellable
  end.

Section cycle.
(** The wall clock when each agreement is looked at, what each indexer is
    found to answer, the order a [HashMap] is iterated in, and when a stop
    message is seen. *)
Context (clock : N → Z) (ask : N → list IndexingAgreement → option Json).
Context (iter : gmap N (list IndexingAgreement) → list (N * list IndexingAgreement)).
Context (stop : nat → bool).
Context (config : LivenessCheckerConfig).

Fixpoint check_indexer (active_counts : gmap N Z) (uncancellable : gset N)
    (agreements : list IndexingAgreement) (probe : Probe) (policy : UnreachablePolicy)
    : S (gset N) :=
  match agreements with
  | [] => mret uncancellable
  | a :: rest =>
      let unreachable := match probe with Unreachable => Some policy | Reached _ => None end in
      u ← check_agreement config active_counts (clock (ia_id a)) uncancellable a
            (probe_block probe a) unreachable;
      check_indexer active_counts u rest probe policy
  end.

(** [None] when a stop message is seen. *)
Fixpoint probe_groups (i : nat) (groups : list (N * list IndexingAgreement))
    : option (list (list IndexingAgreement * Probe)) :=
  match groups with
  | [] => Some []
  | (indexer, agreements) :: rest =>
      if stop i then None
      else probed ← probe_groups (Datatypes.S i) rest;
           Some ((agreements, probe_of (ask indexer agreements)) :: probed)
  end.

Fixpoint check_groups (i : nat) (active_counts : gmap N Z) (uncancellable : gset N)
    (probed : list (list IndexingAgreement * Probe)) (policy : UnreachablePolicy) : S (gset N) :=
  match probed with
  | [] => mret uncancellable
  | (agreements, probe) :: rest =>
      if stop i then mret uncancellable
      else u ← check_indexer active_counts uncancellable agreements probe policy;
           check_groups (Datatypes.S i) active_counts u rest policy
  end.

Definition is_unreachable (p : list IndexingAgreement * Probe) : bool :=
  match p.2 with Unreachable => true | Reached _ => false end.

(** One cycle of the loop, from the tick; [now] is the wall clock the breaker
    is asked at. *)
Definition liveness_cycle (now : Z) (breaker : UnreachableBreaker) (uncancellable : gset N)
    : S (UnreachableBreaker * gset N) :=
  listed ← pg (λ _, provider_agreements (get_accepted_on_chain_agreements (lc_batch_size config)));
  match listed with
  | Err _ | Ok [] => mret (breaker, uncancellable)
  | Ok agreements =>
      counted ← pg (λ _, count_active_agreements_by_deployment);
      match counted with
      | Err _ => mret (breaker, uncancellable)
      | Ok active_counts =>
          let groups := iter (group_by_indexer_id agreements) in
          match probe_groups 0 groups with
          | None => mret (breaker, uncancellable)
          | Some probed =>
              let unreachable := length (filter (λ p, is_unreachable p = true) probed) in
              let '(policy, _, breaker) :=
                evaluate config (Z.of_nat (length probed)) (Z.of_nat unreachable) now breaker in
              u ← check_groups (length groups) active_counts uncancellable probed policy;
              mret (breaker, u)
          end
      end
  end.

End cycle.

End liveness.

End Liveness.
