(* ===== verification/LivenessProps.v ===== *)
(** * What the liveness checker guarantees

    The breaker over any run of cycles, and abandoning and replacing an
    agreement against Postgres with connections that may be lost, any chain and
    any queue. *)

From Stdlib Require Import SpecFloat.
From S2P Require Import Prelude Schema Registry RegistryInv RegistryRuns RegistryOps RegistryQueries.
From S2P Require Import JobQueue Worker Rca CancelDispatch CancelDispatchProps.
From S2P Require Import ChainEvents ChainListener ChainReconcile Services RowOps Liveness.
Import Schema Registry RegistryInv RegistryRuns RegistryOps RegistryQueries.
Import JobQueue Worker Rca CancelDispatch CancelDispatchProps ChainEvents ChainListener.
Import ChainReconcile Services RowOps Liveness.
Local Open Scope Z_scope.

Module LivenessProps.

(** ** The breaker *)

Section breaker.
Context (config : LivenessCheckerConfig).
Notation hold := (max_hold config).

(** A cycle: indexers checked, how many of them unreachable, and when. *)
Record cycle : Type := mkCycle { cy_checked : Z; cy_unreachable : Z; cy_now : Z }.

Definition breaker_step (c : cycle) (b : UnreachableBreaker)
    : UnreachablePolicy * bool * UnreachableBreaker :=
  evaluate config (cy_checked c) (cy_unreachable c) (cy_now c) b.

Fixpoint run_breaker (cs : list cycle) (b : UnreachableBreaker) : UnreachableBreaker :=
  match cs with [] => b | c :: cs => run_breaker cs (breaker_step c b).2 end.

Definition trips (c : cycle) : bool :=
  unreachable_trips (cy_checked c) (cy_unreachable c) (lc_unreachable_trip_fraction config)
    (lc_unreachable_trip_min_indexers config).

(** Cycles follow one another in time, none before [t]. *)
Fixpoint in_time (t : Z) (cs : list cycle) : Prop :=
  match cs with [] => True | c :: cs => t ≤ cy_now c ∧ in_time (cy_now c) cs end.

Lemma hold_pos : 0 < hold.
Proof. unfold max_hold, duration_days. lia. Qed.

(** *** A breaker that forgets nothing *)

(** The breaker as documented, every span kept. *)
Definition step_keeping (c : cycle) (b : UnreachableBreaker)
    : UnreachablePolicy * UnreachableBreaker :=
  let b := if trips c then note_trip (cy_now c) b
           else if is_null (ub_tripped_since b) then b else note_quiet_cycle b in
  let judge := Judge (ub_held b) hold in
  match ub_tripped_since b with
  | None => (judge, b)
  | Some since =>
      if hold <? cy_now c - since then (judge, b)
      else (Hold, mkBreaker (ub_tripped_since b) (ub_quiet_cycles b)
                    (extend_held since (cy_now c) (ub_held b)) (ub_alerted_at b))
  end.

Fixpoint run_keeping (cs : list cycle) (b : UnreachableBreaker) : UnreachableBreaker :=
  match cs with [] => b | c :: cs => run_keeping cs (step_keeping c b).2 end.

(** The two breakers, at time [t]: the one that prunes is missing a prefix of
    spans that ended over two holds ago. *)
Record prunes (t : Z) (b k : UnreachableBreaker) : Prop := {
  pr_since : ub_tripped_since k = ub_tripped_since b;
  pr_quiet : ub_quiet_cycles k = ub_quiet_cycles b;
  pr_held : ∃ dropped, ub_held k = dropped ++ ub_held b ∧
    Forall (λ sp, hold + hold < t - hs_to sp) dropped;
  pr_spans : Forall (λ sp, hs_from sp ≤ hs_to sp ≤ t) (ub_held k);
  pr_sorted : StronglySorted (λ x y, hs_to x ≤ hs_to y) (ub_held k);
  pr_last : ∀ since, ub_tripped_since b = Some since → since ≤ t }.

(** Two policies that judge every agreement alike at or after [t]. *)
Definition same_judgement (t : Z) (p q : UnreachablePolicy) : Prop :=
  match p, q with
  | Hold, Hold => True
  | Judge _ _, Judge _ _ => ∀ now last block at_ dep counts, t ≤ now →
      decide_liveness_action last block (progress_clock p at_) now dep counts
        (lc_max_tolerance_days config) =
      decide_liveness_action last block (progress_clock q at_) now dep counts
        (lc_max_tolerance_days config)
  | _, _ => False
  end.

Lemma tolerance_bounds dep counts :
  0 < tolerance_duration dep counts (lc_max_tolerance_days config) ≤ hold.
Proof. unfold tolerance_duration, max_hold, duration_days. lia. Qed.

Lemma held_sum_nonneg at_ held : 0 ≤ sum (held_after at_ <$> held).
Proof. induction held as [|sp held IH]; [done|]. unfold sum in *. csimpl. unfold held_after at 1. lia. Qed.

Lemma sum_app l l' : sum (l ++ l') = sum l + sum l'.
Proof. induction l as [|x l IH]; simpl; [done|]. unfold sum in *. simpl. lia. Qed.

(** Spans that ended long ago don't move the clock of an agreement that is not
    past tolerance anyway. *)
Lemma dropped_spans at_ now dropped :
  Forall (λ sp, hold + hold < now - hs_to sp) dropped →
  sum (held_after at_ <$> dropped) = 0 ∨ hold + hold < now - at_.
Proof.
  induction 1 as [|sp dropped Hsp _ IH]; [by left|].
  destruct IH as [IH|IH]; [|by right]. unfold sum in *. csimpl. rewrite IH.
  destruct (Z.le_gt_cases (hs_to sp) at_); [left; unfold held_after|right]; lia.
Qed.

Lemma judge_alike t dropped held :
  Forall (λ sp, hold + hold < t - hs_to sp) dropped →
  same_judgement t (Judge held hold) (Judge (dropped ++ held) hold).
Proof.
  intros Hd now last block at_ dep counts Ht. simpl. pose proof hold_pos as Hp.
  destruct at_ as [at_|]; [|done]. simpl. rewrite fmap_app, sum_app.
  assert (Hd' : Forall (λ sp, hold + hold < now - hs_to sp) dropped)
    by (eapply Forall_impl; [exact Hd|]; simpl; intros; lia).
  pose proof (held_sum_nonneg at_ held) as H1. pose proof (held_sum_nonneg at_ dropped) as H2.
  pose proof (tolerance_bounds dep counts) as Htol.
  destruct (dropped_spans at_ now dropped Hd') as [E|Hlong].
  { by rewrite E. }
  unfold decide_liveness_action. simpl.
  rewrite (proj2 (Z.ltb_lt _ _)) by lia. rewrite (proj2 (Z.ltb_lt _ _)) by lia. done.
Qed.

Lemma retain_suffix now held :
  StronglySorted (λ x y, hs_to x ≤ hs_to y) held →
  ∃ dropped, held = dropped ++ retain_held now hold held ∧
    Forall (λ sp, hold + hold < now - hs_to sp) dropped.
Proof.
  unfold retain_held. induction 1 as [|sp held Hs IH Hle]; [by exists []|].
  rewrite filter_cons. case_decide as Hk.
  - exists []. split; [|done]. simpl. f_equal. symmetry. apply filter_all.
    eapply Forall_impl; [exact Hle|]. simpl. intros. lia.
  - destruct IH as (dropped & E & Hd). exists (sp :: dropped). split; [simpl; by f_equal|].
    constructor; [lia|done].
Qed.

(** The spans before the current one. *)
Definition before_span (since : Z) (held : list HeldSpan) : list HeldSpan :=
  match last held with
  | Some sp => if hs_from sp =? since then removelast held else held
  | None => held
  end.

Lemma extend_held_alt since now held :
  extend_held since now held = before_span since held ++ [mkSpan since now].
Proof.
  unfold extend_held, before_span. destruct (last held) as [sp|]; [|done].
  destruct (hs_from sp =? since) eqn:E; [|done]. apply Z.eqb_eq in E. by rewrite E.
Qed.

Lemma before_span_sublist since held : before_span since held `sublist_of` held.
Proof.
  unfold before_span. destruct (last held) as [sp|] eqn:E; [|done].
  destruct (hs_from sp =? since); [|done]. apply last_Some in E as [l ->].
  rewrite removelast_last. by apply sublist_inserts_r.
Qed.

Lemma before_span_app since now dropped held :
  Forall (λ sp, hold + hold < now - hs_to sp) dropped →
  Forall (λ sp, hs_from sp ≤ hs_to sp ≤ now) dropped → now - since ≤ hold →
  before_span since (dropped ++ held) = dropped ++ before_span since held.
Proof.
  intros Hd Hs Hh. pose proof hold_pos as Hp. unfold before_span.
  destruct (last held) as [sp|] eqn:E.
  - apply last_Some in E as [l ->]. rewrite app_assoc, last_snoc.
    destruct (hs_from sp =? since); [|by rewrite app_assoc].
    by rewrite !removelast_last.
  - apply last_None in E as ->. rewrite app_nil_r.
    destruct (last dropped) as [sp|] eqn:E; [|done]. apply last_Some in E as [l ->].
    rewrite (proj2 (Z.eqb_neq _ _)); [done|].
    apply Forall_app in Hd as [_ [Hd _]%Forall_cons]. apply Forall_app in Hs as [_ [Hs _]%Forall_cons].
    lia.
Qed.

Lemma sublist_sorted {A} (R : A → A → Prop) l l' :
  l' `sublist_of` l → StronglySorted R l → StronglySorted R l'.
Proof.
  induction 1 as [|x l' l Hl IH|x l' l Hl IH]; intros Hs; [done|..];
    apply StronglySorted_inv in Hs as [Hs Hx]; [|auto]. constructor; [auto|].
  by eapply sublist_Forall.
Qed.

Lemma snoc_sorted {A} (R : A → A → Prop) l x :
  StronglySorted R l → Forall (λ y, R y x) l → StronglySorted R (l ++ [x]).
Proof.
  induction 1 as [|y l Hs IH Hy]; intros Hx; simpl; [repeat constructor|].
  apply Forall_cons in Hx as [Hyx Hx]. constructor; [auto|]. apply Forall_app. by repeat constructor.
Qed.

(** Extending the current span keeps the spans ordered, up to now. *)
Lemma extend_held_spans since now t held :
  t ≤ now → since ≤ now → Forall (λ sp, hs_from sp ≤ hs_to sp ≤ t) held →
  StronglySorted (λ x y, hs_to x ≤ hs_to y) held →
  Forall (λ sp, hs_from sp ≤ hs_to sp ≤ now) (extend_held since now held) ∧
  StronglySorted (λ x y, hs_to x ≤ hs_to y) (extend_held since now held).
Proof.
  intros Ht Hs Hf Hso. rewrite extend_held_alt.
  assert (Hf' : Forall (λ sp, hs_from sp ≤ hs_to sp ≤ now) (before_span since held)).
  { eapply sublist_Forall; [apply before_span_sublist|].
    eapply Forall_impl; [exact Hf|]. simpl. lia. }
  split.
  - apply Forall_app. split; [done|]. constructor; [simpl; lia|done].
  - apply snoc_sorted; [eapply sublist_sorted; [apply before_span_sublist|done]|].
    eapply Forall_impl; [exact Hf'|]. simpl. lia.
Qed.

(** The trip and quiet counts, before any span is touched. *)
Definition noted (c : cycle) (b : UnreachableBreaker) : UnreachableBreaker :=
  if trips c then note_trip (cy_now c) b
  else if is_null (ub_tripped_since b) then b else note_quiet_cycle b.

Lemma noted_held c b : ub_held (noted c b) = ub_held b.
Proof.
  unfold noted, note_trip, note_quiet_cycle. destruct (trips c), (ub_tripped_since b); simpl;
    try done; by destruct (_ <? _).
Qed.

Lemma noted_since c b since :
  ub_tripped_since (noted c b) = Some since → ub_tripped_since b = Some since ∨ since = cy_now c.
Proof.
  unfold noted, note_trip, note_quiet_cycle.
  destruct (trips c), (ub_tripped_since b) as [x|] eqn:E; simpl.
  - intros [= <-]. by left.
  - intros [= <-]. by right.
  - destruct (_ <? _); simpl; [|done]. by left.
  - rewrite ?E; by left.
Qed.

Lemma noted_prunes t c b k :
  t ≤ cy_now c → prunes t b k → prunes (cy_now c) (noted c b) (noted c k).
Proof.
  intros Ht [Hs Hq (dropped & Hh & Hd) Hsp Hso Hl]. split; rewrite ?noted_held.
  - unfold noted, note_trip, note_quiet_cycle. rewrite Hs, Hq.
    repeat case_match; simpl; congruence.
  - unfold noted, note_trip, note_quiet_cycle. rewrite Hs, Hq.
    repeat case_match; simpl; congruence.
  - exists dropped. split; [done|]. eapply Forall_impl; [exact Hd|]. simpl. lia.
  - eapply Forall_impl; [exact Hsp|]. simpl. lia.
  - done.
  - intros since [H|H]%noted_since; [apply Hl in H|]; lia.
Qed.

Lemma gave_up_breaker now h b :
  ∃ alert x, breaker_gave_up now h b =
    (alert, mkBreaker (ub_tripped_since b) (ub_quiet_cycles b) (ub_held b) x).
Proof. destruct b as [[] q held []]; unfold breaker_gave_up; simpl; try case_match; by do 2 eexists. Qed.

Lemma report_hold_breaker now b :
  ∃ alert x, report_hold now b =
    (alert, mkBreaker (ub_tripped_since b) (ub_quiet_cycles b) (ub_held b) x).
Proof. destruct b as [since q held []]; unfold report_hold; simpl; try case_match; by do 2 eexists. Qed.

Lemma step_alike t c b k :
  t ≤ cy_now c → prunes t b k →
  same_judgement (cy_now c) (breaker_step c b).1.1 (step_keeping c k).1 ∧
  prunes (cy_now c) (breaker_step c b).2 (step_keeping c k).2.
Proof.
  intros Ht Hpr. apply (noted_prunes _ c) in Hpr; [|done].
  unfold breaker_step, evaluate, step_keeping. fold (trips c). fold (noted c b). fold (noted c k).
  generalize dependent (noted c k). generalize dependent (noted c b). clear b k. intros b k.
  intros [Hs Hq (dropped & Hh & Hd) Hsp Hso Hl]. rewrite Hh in Hso, Hsp. simpl.
  destruct (retain_suffix (cy_now c) (ub_held b)) as (more & Hm & Hmd).
  { apply (sublist_sorted _ (dropped ++ ub_held b)); [by apply sublist_inserts_l|done]. }
  set (R := retain_held (cy_now c) hold (ub_held b)) in *.
  assert (HD : Forall (λ sp, hold + hold < cy_now c - hs_to sp) (dropped ++ more))
    by by apply Forall_app.
  assert (Hk : ub_held k = (dropped ++ more) ++ R) by (rewrite Hh, Hm at 1; apply app_assoc).
  assert (Hsame : same_judgement (cy_now c) (Judge R hold) (Judge (ub_held k) hold))
    by (rewrite Hk; by apply judge_alike).
  assert (Hpr : ∀ x, prunes (cy_now c)
    (mkBreaker (ub_tripped_since b) (ub_quiet_cycles b) R x) k).
  { intros x. split; simpl; rewrite ?Hh; try done. exists (dropped ++ more). split; [by rewrite <- Hh|done]. }
  rewrite Hs. destruct (ub_tripped_since b) as [since|]; [|split; [exact Hsame|apply Hpr]].
  destruct (hold <? cy_now c - since) eqn:Hg; [|clear Hpr].
  { destruct (gave_up_breaker (cy_now c) hold (mkBreaker (Some since) (ub_quiet_cycles b) R
      (ub_alerted_at b))) as (alert & x & ->). split; [exact Hsame|apply Hpr]. }
  destruct (report_hold_breaker (cy_now c) (mkBreaker (Some since) (ub_quiet_cycles b) R
    (ub_alerted_at b))) as (alert & x & ->). simpl. split; [done|].
  apply Z.ltb_ge in Hg. rewrite <- Hh in Hsp, Hso. assert (Hle := Hl since eq_refl).
  destruct (extend_held_spans since (cy_now c) (cy_now c) (ub_held k)) as [H1 H2]; [lia..|done|done|].
  split; simpl; try done. exists (dropped ++ more). split; [|done].
  rewrite !extend_held_alt, Hk, (before_span_app since (cy_now c)); [by rewrite app_assoc|done| |done].
  rewrite Hk in Hsp. by apply Forall_app in Hsp as [? _].
Qed.

Lemma run_alike cs t b k :
  in_time t cs → prunes t b k →
  ∃ t', t ≤ t' ∧ (∀ c, in_time t (cs ++ [c]) → t' ≤ cy_now c) ∧
    prunes t' (run_breaker cs b) (run_keeping cs k).
Proof.
  revert t b k. induction cs as [|c cs IH]; intros t b k Ht Hp; simpl.
  { exists t. split_and!; [lia|by intros c [? _]|done]. }
  destruct Ht as [Ht Hcs]. destruct (step_alike t c b k Ht Hp) as [_ Hp'].
  destruct (IH _ _ _ Hcs Hp') as (t' & H1 & H2 & H3). exists t'. split_and!; [lia| |done].
  intros c' [_ H']. by apply H2.
Qed.

(** C21: forgetting old spans changes no decision.  Over any run of cycles from
    the start, the breaker that drops the spans that ended more than two holds
    ago holds in exactly the cycles in which one that kept every span would, and
    when it judges, it judges every agreement, whatever its last progress, just
    as that one would, at that moment and later in the cycle. *)
Theorem forgotten_spans_never_matter cs c t :
  in_time t (cs ++ [c]) →
  same_judgement (cy_now c) (breaker_step c (run_breaker cs default_breaker)).1.1
    (step_keeping c (run_keeping cs default_breaker)).1.
Proof.
  intros Ht. assert (Hcs : in_time t cs).
  { revert t Ht. induction cs as [|x cs IH]; intros t; [done|]. intros [? H]. split; auto. }
  destruct (run_alike cs t default_breaker default_breaker Hcs) as (t' & _ & Hc & Hp).
  - split; try done; [exists []; by split|constructor].
  - eapply step_alike; [|exact Hp]. by apply Hc.
Qed.

(** *** Holding ends *)

Lemma noted_since_trips c b since :
  ub_tripped_since (noted c b) = Some since →
  ub_tripped_since b = Some since ∨ since = cy_now c ∧ trips c = true.
Proof.
  intros H. destruct (trips c) eqn:Ht.
  - apply noted_since in H as [H|H]; auto.
  - left. unfold noted, note_quiet_cycle in H. rewrite Ht in H.
    destruct (is_null (ub_tripped_since b)); [done|]. by destruct (_ <? _).
Qed.

Lemma step_since c b :
  ub_tripped_since (breaker_step c b).2 = ub_tripped_since (noted c b).
Proof.
  unfold breaker_step, evaluate. fold (trips c). fold (noted c b). simpl.
  destruct (ub_tripped_since (noted c b)) as [since|] eqn:E; [|done].
  destruct (_ <? _).
  - destruct (gave_up_breaker (cy_now c) hold (mkBreaker (Some since)
      (ub_quiet_cycles (noted c b)) (retain_held (cy_now c) hold (ub_held (noted c b)))
      (ub_alerted_at (noted c b)))) as (alert & x & ->). done.
  - destruct (report_hold_breaker (cy_now c) (mkBreaker (Some since)
      (ub_quiet_cycles (noted c b)) (retain_held (cy_now c) hold (ub_held (noted c b)))
      (ub_alerted_at (noted c b)))) as (alert & x & ->). done.
Qed.

Lemma step_policy c b :
  match (breaker_step c b).1.1 with
  | Hold => ∃ since, ub_tripped_since (noted c b) = Some since ∧ cy_now c - since ≤ hold
  | Judge _ grace => grace = hold ∧
      ∀ since, ub_tripped_since (noted c b) = Some since → hold < cy_now c - since
  end.
Proof.
  unfold breaker_step, evaluate. fold (trips c). fold (noted c b). simpl.
  destruct (ub_tripped_since (noted c b)) as [since|]; [|done].
  destruct (hold <? cy_now c - since) eqn:E.
  - destruct (breaker_gave_up _ _ _). simpl. split; [done|]. intros ? [= <-]. by apply Z.ltb_lt.
  - destruct (report_hold _ _). simpl. exists since. split; [done|]. by apply Z.ltb_ge.
Qed.

(** A trip began in a cycle that tripped. *)
Lemma run_since cs b since :
  ub_tripped_since (run_breaker cs b) = Some since →
  ub_tripped_since b = Some since ∨ ∃ c0, c0 ∈ cs ∧ trips c0 = true ∧ cy_now c0 = since.
Proof.
  revert b. induction cs as [|c cs IH]; intros b; simpl; [by left|].
  intros [H|(c0 & H1 & H2)]%IH; [|right; exists c0; split; [by right|done]].
  rewrite step_since in H. apply noted_since_trips in H as [H|[-> H]]; [by left|right].
  exists c. split; [by left|done].
Qed.

(** While every cycle trips, the trip goes on. *)
Lemma noted_still c b since :
  trips c = true → ub_tripped_since b = Some since → ub_tripped_since (noted c b) = Some since.
Proof. intros Ht Hs. unfold noted, note_trip. by rewrite Ht, Hs. Qed.

Lemma run_still cs b since :
  Forall (λ c, trips c = true) cs → ub_tripped_since b = Some since →
  ub_tripped_since (run_breaker cs b) = Some since.
Proof.
  intros Ht. revert b. induction Ht as [|c cs Hc _ IH]; intros b Hb; simpl; [done|].
  apply IH. rewrite step_since. by apply noted_still.
Qed.

Lemma in_time_last t cs c c0 : in_time t (cs ++ [c]) → c0 ∈ cs ++ [c] → cy_now c0 ≤ cy_now c.
Proof.
  revert t c0. induction cs as [|x cs IH]; intros t c0; simpl.
  - intros _ ->%list_elem_of_singleton. lia.
  - intros [Hx H] [->|H0]%elem_of_cons; [|by eapply IH].
    destruct cs as [|y cs]; simpl in H; [lia|]. destruct H as [Hy H].
    transitivity (cy_now y); [done|]. apply (IH (cy_now x) y); [by split|by left].
Qed.

Lemma grace_bounds held at_ :
  at_ ≤ at_ + Z.min (sum (held_after at_ <$> held)) hold ≤ at_ + hold.
Proof. pose proof hold_pos. pose proof (held_sum_nonneg at_ held). lia. Qed.

(** The breaker gives way.  From the start and over any run of cycles it
    holds only within [max_hold] of a cycle in which enough indexers were
    unreachable.  When so many stay unreachable in every cycle, it stops holding
    [max_hold] after the first.  Whenever it judges, no agreement gets more grace
    than [max_hold], so one whose indexer is unreachable and made no progress for
    twice that is cancelled and replaced: indexers that are really gone are not
    kept for ever. *)
Theorem breaker_gives_way cs c t :
  in_time t (cs ++ [c]) →
  let policy := (breaker_step c (run_breaker cs default_breaker)).1.1 in
  match policy with
  | Hold =>
      (∃ c0, c0 ∈ cs ++ [c] ∧ trips c0 = true ∧ 0 ≤ cy_now c - cy_now c0 ≤ hold) ∧
      (Forall (λ c', trips c' = true) (cs ++ [c]) → ∀ c0, head (cs ++ [c]) = Some c0 →
        cy_now c - cy_now c0 ≤ hold)
  | Judge _ _ => ∀ now at_ last dep counts, hold + hold < now - at_ →
      decide_liveness_action (Some last) None (progress_clock policy (Some at_)) now dep counts
        (lc_max_tolerance_days config) = CancelAndReassess
  end.
Proof.
  intros Ht. simpl. pose proof (step_policy c (run_breaker cs default_breaker)) as Hp.
  destruct (breaker_step c (run_breaker cs default_breaker)).1.1 as [|held grace].
  - destruct Hp as (since & Hs & Hh). split.
    + apply noted_since_trips in Hs as [Hs|[-> Hs]].
      * apply run_since in Hs as [[=]|(c0 & H0 & H1 & <-)]. exists c0.
        assert (H0' : c0 ∈ cs ++ [c]) by (apply elem_of_app; by left).
        pose proof (in_time_last _ _ _ _ Ht H0'). split_and!; [done..|lia|lia].
      * exists c. pose proof hold_pos. split_and!; [apply elem_of_app; right; by left|done|lia|lia].
    + intros Hall c0 Hc0. apply Forall_app in Hall as [Hcs [Hc _]%Forall_cons].
      destruct cs as [|c1 cs]; simpl in Hc0; injection Hc0 as <-; [pose proof hold_pos; lia|].
      apply Forall_cons in Hcs as [Hc1 Hcs]. simpl in Hs.
      rewrite (noted_still _ _ (cy_now c1) Hc) in Hs; [by injection Hs as <-|].
      apply run_still; [done|]. rewrite step_since. unfold noted. by rewrite Hc1.
  - destruct Hp as [-> _]. intros now at_ last dep counts Hlong. simpl.
    pose proof (grace_bounds held at_). pose proof (tolerance_bounds dep counts).
    unfold decide_liveness_action. simpl. by rewrite (proj2 (Z.ltb_lt _ _)) by lia.
Qed.

End breaker.

(** ** Replacing an abandoned agreement *)

Section replacing.
Context {C W : Type} `{!ChainClient C} `{!MessageQueue W}.
Notation SState := (SState C W).

(** The reassessment that replaces [a], if its request is still open. *)
Definition replacement (d : Db) (a : IndexingAgreement) : option Message :=
  request ← (request_of_row <$> requests d !! ia_indexing_request_id a) ≫= provider_request;
  r ← open_request request;
  Some (ReassessIndexingRequest (ia_indexing_request_id a)
    (tm_deployment (t_metadata (ia_terms a))) (tm_chain_id (t_metadata (ia_terms a)))
    (ir_num_candidates r)).

(** What replacing [a] did: at most one job pushed, and the flag cleared only
    once it was taken by the queue, or when no one wants it any more. *)
Record replaced (a : IndexingAgreement) (s s' : SState) : Prop := {
  rp_inv : reg_inv (sdb s');
  rp_only : only_row (ia_id a) (sdb s) (sdb s');
  rp_log : slog s' = slog s;
  rp_now : snow s' = snow s;
  rp_others : ss_others s' = ss_others s;
  rp_fine : fine s → fine s';
  rp_done : ∃ pushed : option bool,
    ss_pushes s' = ss_pushes s ++
      match replacement (sdb s) a, pushed with
      | Some msg, Some ok => [(msg, Background, ok)]
      | _, _ => []
      end ∧
    (srow s' (ia_id a) = srow s (ia_id a) ∨
     srow s' (ia_id a) = set_replacement_pending false <$> srow s (ia_id a) ∧
     (replacement (sdb s) a = None ∨ pushed = Some true)) ∧
    (fine s → (replacement (sdb s) a = None ∨ pushed ≠ None) ∧
      (replacement (sdb s) a = None ∨ pushed = Some true →
       srow s' (ia_id a) = set_replacement_pending false <$> srow s (ia_id a))) }.

Lemma wp_mark_replacement a pushed s s1 :
  alone s1 → reg_inv (sdb s) → sdb s1 = sdb s → slog s1 = slog s → snow s1 = snow s →
  ss_others s1 = ss_others s → (fine s → fine s1) →
  ss_pushes s1 = ss_pushes s ++
    match replacement (sdb s) a, pushed with
    | Some msg, Some ok => [(msg, Background, ok)]
    | _, _ => []
    end →
  (replacement (sdb s) a = None ∨ pushed = Some true) →
  wp (_ ← pg (λ _, mark_replacement_queued (ia_id a)); mret tt) (λ _, replaced a s) s1.
Proof.
  intros Ha Hi D L N O F P Hp. apply wp_bind, wp_pg_alone; [done|].
  assert (Hsr : ∀ id, srow s1 id = srow s id) by (intros; unfold srow; by rewrite D).
  eapply wp_row; [apply replacement_queued_row_op|intros; apply markers_inv|by rewrite D|..].
  - intros x s2 [[Q2 P2 C2 L2 N2 O2] Hi2 Ho2 F2] Hx. rewrite D in Ho2. rewrite Hsr in Hx.
    apply wp_ret. split; try congruence; [auto|]. exists pushed. split; [congruence|].
    assert (E : srow s2 (ia_id a) = set_replacement_pending false <$> srow s (ia_id a)).
    { destruct (srow s (ia_id a)); by injection Hx. }
    split; [by right|]. intros _. split; [|done]. destruct Hp as [Hp| ->]; auto.
  - intros s2 [[Q2 P2 C2 L2 N2 O2] Hi2 Ho2 F2] Hf Hr. rewrite D in Ho2. rewrite !Hsr in Hr.
    apply wp_ret. split; try congruence; [auto|]. exists pushed. split; [congruence|]. split.
    + destruct Hr as [Hr|Hr]; [by left|right]. split; [|done]. rewrite Hr. by destruct (srow s (ia_id a)).
    + intros Hf'. destruct Hf. by apply F.
Qed.

Lemma wp_replace_abandoned a s :
  alone s → reg_inv (sdb s) → wp (replace_abandoned a) (λ _, replaced a s) s.
Proof.
  intros Ha Hi. unfold replace_abandoned, queue_replacement, abandoned_request.
  apply wp_bind, wp_bind, wp_bind, wp_pg_alone; [done|].
  apply (wp_query _ ((request_of_row <$> requests (sdb s) !! ia_indexing_request_id a)
    ≫= provider_request)); [done|..].
  2:{ intros s1 [Q1 P1 C1 L1 N1 O1] D1 Hf. apply wp_ret; simpl; apply wp_ret; simpl; apply wp_ret. split; rewrite ?D1; try done.
      exists None. rewrite P1. unfold srow. rewrite D1.
      split_and!; [by destruct (replacement _ _); rewrite app_nil_r|by left|done]. }
  intros s1 As D1 Hf1. assert (Ha1 : alone s1) by by eapply aside_alone.
  destruct As as [Q1 P1 C1 L1 N1 O1]. apply wp_ret.
  destruct (_ ≫= provider_request) as [request|] eqn:Hreq.
  2:{ apply wp_ret. eapply (wp_mark_replacement a None); try done.
      - rewrite P1. destruct (replacement _ _); by rewrite app_nil_r.
      - left. unfold replacement. by rewrite Hreq. }
  destruct (open_request request) as [r|] eqn:Hopen.
  2:{ apply wp_ret. eapply (wp_mark_replacement a None); try done.
      - rewrite P1. destruct (replacement _ _); by rewrite app_nil_r.
      - left. unfold replacement. rewrite Hreq. simpl. by rewrite Hopen. }
  assert (Hmsg : replacement (sdb s) a = Some (ReassessIndexingRequest (ia_indexing_request_id a)
    (tm_deployment (t_metadata (ia_terms a))) (tm_chain_id (t_metadata (ia_terms a)))
    (ir_num_candidates r))).
  { unfold replacement. rewrite Hreq. simpl. by rewrite Hopen. }
  apply wp_push. intros ok s2 E2 P2 O2.
  assert (Hsame : sdb s2 = sdb s ∧ slog s2 = slog s ∧ snow s2 = snow s ∧ (fine s → fine s2)).
  { unfold sdb, slog, snow, fine in *. rewrite E2. done. }
  destruct Hsame as (D2 & L2 & N2 & F2). destruct ok.
  - apply (wp_mark_replacement a (Some true)); try done; try congruence.
    + by rewrite Hmsg, P2, P1.
    + by right.
  - apply wp_ret. split; rewrite ?D2; try done; [congruence|]. exists (Some false).
    rewrite Hmsg, P2, P1. unfold srow. rewrite D2. split_and!; [done|by left|]. intros _.
    split; [by right|]. intros [[=]|[=]].
Qed.

(** ** Abandoning an agreement *)

Context (tx_string : N → string) (agreement_conf : IndexingAgreementConfig).

(** Sending a marked cancel: what it says of the chain and leaves of the row. *)
Record sent (a : IndexingAgreement) (s : SState) (started : CancelStarted) (s' : SState) : Prop := {
  sn_inv : reg_inv (sdb s');
  sn_only : only_row (ia_id a) (sdb s) (sdb s');
  sn_pushes : ss_pushes s' = ss_pushes s;
  sn_now : snow s' = snow s;
  sn_others : ss_others s' = ss_others s;
  sn_calls : ∃ calls, slog s' = slog s ++ calls ∧ Forall marked_call calls;
  sn_moved : moved_to (ia_id a) AbandonedByIndexer s s';
  sn_not_live : started ≠ StartedMayBeLive → ends_not_live (ia_id a) (slog s');
  sn_ended : started = StartedEnded → db_status (sdb s') (ia_id a) = Some AbandonedByIndexer }.

Lemma asked_sent a started calls s s1 :
  asked calls s s1 → reg_inv (sdb s) → Forall marked_call calls → started ≠ StartedEnded →
  (started ≠ StartedMayBeLive → ends_not_live (ia_id a) (slog s1)) → sent a s started s1.
Proof.
  intros [D N Q P O F L] Hi Hm Hs Hn. split; rewrite ?D; try done.
  - by exists calls.
  - left. by rewrite D.
Qed.

Lemma not_live_log id log pre st :
  st ≠ Live → ends_not_live id (log ++ pre ++ [CallRead id (Ok st)]).
Proof. intros Hs. exists (log ++ pre), st. by rewrite <- app_assoc. Qed.

Lemma wp_send_abandoned now_secs a s :
  reg_inv (sdb s) → ia_status a = AcceptedOnChain →
  db_status (sdb s) (ia_id a) = Some Cancelling →
  wp (on_dispatch (send_marked_cancel tx_string agreement_conf now_secs a Abandoned)) (sent a s) s.
Proof.
  intros Hi Hacc Hst. unfold send_marked_cancel. apply wp_on_bind, wp_cancel_if_live.
  intros calls l s1 Hc A1. rewrite Hst in Hc. pose proof (cancel_calls_marked _ _ _ _ Hc) as Hm.
  assert (Hquiet : ∀ started, started ≠ StartedEnded →
    (started ≠ StartedMayBeLive → ends_not_live (ia_id a) (slog s1)) → sent a s started s1).
  { intros started H1 H2. by eapply asked_sent. }
  assert (Hl : ∀ st, (∃ pre, calls = pre ++ [CallRead (ia_id a) (Ok st)]) → st ≠ Live →
    ends_not_live (ia_id a) (slog s1)).
  { intros st [pre ->] Hs. rewrite (ak_log _ _ _ A1). by apply not_live_log. }
  destruct Hc as [err|st Hs|Hh|h err Hh|h tx answer Hh]; simpl.
  - by apply wp_on_ret, Hquiet.
  - apply wp_on_ret, Hquiet; [done|]. intros _. apply (Hl st); [by exists []|done].
  - by apply wp_on_ret, Hquiet.
  - by apply wp_on_ret, Hquiet.
  - destruct answer as [[]|]; simpl; try (by apply wp_on_ret, Hquiet).
    + apply wp_on_ret, Hquiet; [done|]. intros _.
      apply (Hl EndedByIndexer); [by eexists [_; _]|done].
    + assert (Hnl : ends_not_live (ia_id a) (slog s1)).
      { apply (Hl NotLive); [by eexists [_; _]|done]. }
      rewrite Hacc. simpl. apply wp_on_bind, wp_confirm_cancelled; [by rewrite (ak_db _ _ _ A1)|].
      intros b s2 [[Q2 P2 C2 L2 N2 O2] Hi2 Ho2 F2] Hmv Hok _.
      destruct A1 as [D1 N1 Q1 P1 O1 F1 L1]. apply wp_on_ret.
      rewrite D1 in Ho2, Hok. split; try congruence; try done.
      * eexists. split; [by rewrite L2, L1|done].
      * unfold moved_to in *. by rewrite <- D1.
      * destruct b; [|done]. intros _. by apply Hok.
Qed.

Lemma mark_abandoning_statement a :
  on_dispatch (C := C) (W := W) (mark_cancelling a Abandoned) =
  statement (λ now, mark_indexing_agreement_as_abandoning now (ia_id a)).
Proof. done. Qed.

(** The row marked: cancelling, abandoned, awaiting its replacement. *)
Lemma wp_mark_abandoning a (Q : bool → SState → Prop) s :
  alone s → reg_inv (sdb s) →
  (∀ b s', on_row (ia_id a) s s' →
    let marked := db_status (sdb s) (ia_id a) = Some AcceptedOnChain ∧
      db_status (sdb s') (ia_id a) = Some Cancelling in
    db_status (sdb s') (ia_id a) = db_status (sdb s) (ia_id a) ∨ marked →
    (b = true → marked) → Q b s') →
  wp (mark_abandoning a) Q s.
Proof.
  intros Ha Hi HQ. unfold mark_abandoning. rewrite mark_abandoning_statement.
  change (wp (marked ← pg (λ now, mark_indexing_agreement_as_abandoning now (ia_id a));
              mret (is_ok marked)) Q s).
  apply wp_bind, wp_pg_alone; [done|].
  assert (Hin : ∀ r, status_in [AcceptedOnChain] r = true → ag_status r = AcceptedOnChain).
  { intros r. unfold status_in. rewrite bool_decide_eq_true. by intros ?%list_elem_of_singleton. }
  eapply wp_row; [apply abandoning_row_op|intros; apply mark_inv|done|..].
  - intros x s' Ho Hx. apply wp_ret, HQ; [done|..]; rewrite !db_status_row;
      destruct (srow s (ia_id a)) as [r|]; simpl in Hx; unfold guard_row in Hx.
    all: try (destruct (status_in [AcceptedOnChain] r) eqn:Hs).
    all: injection Hx as -> Hr; rewrite ?Hr; simpl; auto; try done.
    all: rewrite (Hin r) by done; auto.
  - intros s' Ho Hf Hr. apply wp_ret, HQ; [done| |done]. rewrite !db_status_row.
    destruct Hr as [-> | ->]; [by left|]. destruct (srow s (ia_id a)) as [r|]; [|by left].
    simpl. unfold guard_row. destruct (status_in _ r) eqn:Hs; [|by left]. right. by rewrite (Hin r).
Qed.

Lemma wp_forget a (Q : () → SState → Prop) s :
  alone s → reg_inv (sdb s) →
  (∀ s', touched (ia_id a) s s' → srow s' (ia_id a) = srow s (ia_id a) → Q tt s') →
  wp (forget_replaced_agreement a) Q s.
Proof.
  intros Ha Hi HQ. apply wp_bind, wp_delete_pending; [done..|]. intros x s' T E _ _. by apply wp_ret, HQ.
Qed.

Lemma wp_note_seen_ended a (Q : bool → SState → Prop) s :
  alone s → reg_inv (sdb s) →
  (∀ b s', touched (ia_id a) s s' → db_status (sdb s') (ia_id a) = db_status (sdb s) (ia_id a) →
    (b = true → ∀ r, srow s' (ia_id a) = Some r → ag_status r = Cancelling →
      ag_ended_seen_at r ≠ None) → Q b s') →
  wp (note_seen_ended a) Q s.
Proof.
  intros Ha Hi HQ. apply wp_bind, wp_pg_alone; [done|].
  eapply wp_row; [by apply cancel_check_row_op|intros; by apply cancel_check_inv|done|..].
  - intros x s' Ho Hx. apply wp_ret, HQ; [by apply on_row_touched|..].
    + rewrite !db_status_row. destruct (srow s (ia_id a)) as [r|]; simpl in Hx; [case_bool_decide|];
        by injection Hx as _ ->.
    + intros Hb r' Hr'. rewrite Hr' in Hx. destruct (srow s (ia_id a)) as [r|]; simpl in Hx; [|done].
      case_bool_decide as Hc; injection Hx as _ ->; [|done]. intros _. simpl.
      by destruct (ag_ended_seen_at r).
  - intros s' Ho Hf Hr. apply wp_ret, HQ; [by apply on_row_touched| |done]. rewrite !db_status_row.
    destruct Hr as [-> | ->]; [done|]. destruct (srow s (ia_id a)) as [r|]; [|done]. simpl.
    by case_bool_decide.
Qed.

(** What abandoning [a] may leave behind. *)
Record abandoned (a : IndexingAgreement) (s s' : SState) : Prop := {
  ab_inv : reg_inv (sdb s');
  ab_rows : ∀ k, k ≠ ia_id a → srow s' k = srow s k;
  ab_requests : requests (sdb s') = requests (sdb s);
  ab_status : db_status (sdb s') (ia_id a) = db_status (sdb s) (ia_id a) ∨
    cancel_hash a ≠ None ∧ db_status (sdb s) (ia_id a) = Some AcceptedOnChain ∧
    db_status (sdb s') (ia_id a) ∈ [Some Cancelling; Some AbandonedByIndexer];
  ab_calls : ∃ calls, slog s' = slog s ++ calls ∧ Forall marked_call calls ∧
    (cancel_hash a = None → calls = []);
  ab_pushes : ss_pushes s' = ss_pushes s ∨
    ∃ msg ok, replacement (sdb s) a = Some msg ∧
      ss_pushes s' = ss_pushes s ++ [(msg, Background, ok)] ∧
      db_status (sdb s) (ia_id a) = Some AcceptedOnChain ∧
      ends_not_live (ia_id a) (slog s') ∧
      (db_status (sdb s') (ia_id a) = Some AbandonedByIndexer ∨
       ∃ r, srow s' (ia_id a) = Some r ∧ ag_status r = Cancelling ∧ ag_ended_seen_at r ≠ None) }.

(** Nothing pushed: a state on the way. *)
Lemma touched_abandoned a s s2 s3 :
  cancel_hash a ≠ None → db_status (sdb s) (ia_id a) = Some AcceptedOnChain →
  ss_pushes s2 = ss_pushes s → requests (sdb s2) = requests (sdb s) →
  (∀ k, k ≠ ia_id a → srow s2 k = srow s k) →
  (∃ calls, slog s2 = slog s ++ calls ∧ Forall marked_call calls) →
  touched (ia_id a) s2 s3 →
  db_status (sdb s3) (ia_id a) ∈ [Some Cancelling; Some AbandonedByIndexer] → abandoned a s s3.
Proof.
  intros Hh Hacc P2 R2 Hr2 (calls & L2 & Hm) [] Hst. split; try done.
  - intros k Hk. rewrite tc_rows0 by done. auto.
  - congruence.
  - by right.
  - exists calls. split_and!; [congruence|done..].
  - left. congruence.
Qed.

(** Queueing the replacement, the last step: the row's status and the time its
    end was seen stay. *)
Lemma wp_replace_last a s s3 :
  cancel_hash a ≠ None → db_status (sdb s) (ia_id a) = Some AcceptedOnChain →
  alone s3 → abandoned a s s3 → ss_pushes s3 = ss_pushes s →
  db_status (sdb s3) (ia_id a) ∈ [Some Cancelling; Some AbandonedByIndexer] →
  ends_not_live (ia_id a) (slog s3) →
  (∀ r, srow s3 (ia_id a) = Some r → ag_status r = Cancelling → ag_ended_seen_at r ≠ None) →
  wp (replace_abandoned a) (λ _, abandoned a s) s3.
Proof.
  intros Hh Hacc Ha [Hi Hrows Hreq _ Hcalls _] Hp Hst Hn Hseen.
  eapply wp_mono; [by apply wp_replace_abandoned|].
  intros _ s4 [Hi4 [E4 Ho4] L4 N4 O4 F4 (pushed & P4 & Hrow & _)].
  assert (Hsame : ∀ r4, srow s4 (ia_id a) = Some r4 → ∃ r3, srow s3 (ia_id a) = Some r3 ∧
    ag_status r4 = ag_status r3 ∧ ag_ended_seen_at r4 = ag_ended_seen_at r3).
  { intros r4 Hr4. rewrite Hr4 in Hrow. destruct Hrow as [<-|[Hrow _]]; [by exists r4|].
    destruct (srow s3 (ia_id a)) as [r3|]; [|done]. injection Hrow as ->. by exists r3. }
  assert (Hst4 : db_status (sdb s4) (ia_id a) = db_status (sdb s3) (ia_id a)).
  { rewrite !db_status_row. destruct Hrow as [->|[-> _]]; [done|]. by destruct (srow s3 (ia_id a)). }
  split; [done|..].
  - intros k Hk. unfold srow. rewrite Ho4 by done. by apply Hrows.
  - rewrite E4. done.
  - right. by rewrite Hst4.
  - destruct Hcalls as (calls & L & Hm & _). exists calls. split_and!; [congruence|done..].
  - assert (Hrep : replacement (sdb s3) a = replacement (sdb s) a) by (unfold replacement; by rewrite Hreq).
    rewrite Hrep, Hp in P4. destruct (replacement (sdb s) a) as [msg|]; [|left; by rewrite app_nil_r in P4].
    destruct pushed as [ok|]; [right|left; by rewrite app_nil_r in P4].
    exists msg, ok. split_and!; [done..|by rewrite L4|]. rewrite Hst4.
    apply elem_of_cons in Hst as [Hst|Hst%list_elem_of_singleton]; [right|by left].
    rewrite <- Hst4, db_status_row in Hst. destruct (srow s4 (ia_id a)) as [r4|] eqn:Hr4; [|done].
    injection Hst as Hst. destruct (Hsame r4 eq_refl) as (r3 & Hr3 & E1 & E2).
    exists r4. split_and!; [done..|]. rewrite E2. apply (Hseen r3); congruence.
Qed.

Lemma unchanged_abandoned a s s' :
  touched (ia_id a) s s' → db_status (sdb s') (ia_id a) = db_status (sdb s) (ia_id a) → abandoned a s s'.
Proof.
  intros [] Hst. split; try done; [by left|..|by left].
  exists []. rewrite app_nil_r. split_and!; [done|constructor|done].
Qed.

Lemma wp_after_sent a started (u : gset N) s s2 :
  cancel_hash a ≠ None → db_status (sdb s) (ia_id a) = Some AcceptedOnChain → alone s2 →
  reg_inv (sdb s2) → ss_pushes s2 = ss_pushes s → requests (sdb s2) = requests (sdb s) →
  (∀ k, k ≠ ia_id a → srow s2 k = srow s k) →
  (∃ calls, slog s2 = slog s ++ calls ∧ Forall marked_call calls) →
  db_status (sdb s2) (ia_id a) ∈ [Some Cancelling; Some AbandonedByIndexer] →
  (started ≠ StartedMayBeLive → ends_not_live (ia_id a) (slog s2)) →
  (started = StartedEnded → db_status (sdb s2) (ia_id a) = Some AbandonedByIndexer) →
  wp (_ ← forget_replaced_agreement a;
      ended ← match started with
              | StartedEnded => mret true
              | StartedMayBeLive => mret false
              | StartedNotLive => note_seen_ended a
              end;
      _ ← (if (ended : bool) then replace_abandoned a else mret tt);
      mret u) (λ u' s', abandoned a s s' ∧ u' = u) s2.
Proof.
  intros Hh Hacc Ha Hi Hp Hreq Hrows Hcalls Hst Hnl Hend. apply wp_bind, wp_forget; [done..|].
  intros s3 T3 Hr3. assert (Ha3 : alone s3) by (unfold alone; by rewrite (tc_others _ _ _ T3)).
  assert (Hst3 : db_status (sdb s3) (ia_id a) = db_status (sdb s2) (ia_id a)).
  { by rewrite !db_status_row, Hr3. }
  assert (Hmid : ∀ s4, touched (ia_id a) s3 s4 →
    db_status (sdb s4) (ia_id a) = db_status (sdb s3) (ia_id a) →
    touched (ia_id a) s2 s4 ∧ abandoned a s s4 ∧ ss_pushes s4 = ss_pushes s ∧
    slog s4 = slog s2 ∧ alone s4).
  { intros s4 T4 E4. pose proof (touched_trans _ _ _ _ T3 T4) as T. split_and!; try done.
    - eapply touched_abandoned; [done..|]. by rewrite E4, Hst3.
    - by rewrite (tc_pushes _ _ _ T).
    - by rewrite (tc_log _ _ _ T).
    - unfold alone. by rewrite (tc_others _ _ _ T). }
  assert (T33 : touched (ia_id a) s3 s3) by (split; try done; apply T3).
  destruct (Hmid s3 T33 eq_refl) as (_ & A3 & P3 & L3 & _).
  assert (Hlast : ∀ s4, wp (replace_abandoned a) (λ _, abandoned a s) s4 →
    wp (_ ← replace_abandoned a; mret u) (λ u' s', abandoned a s s' ∧ u' = u) s4).
  { intros s4 H. apply wp_bind. eapply wp_mono; [exact H|]. intros x s5 Hs5. by apply wp_ret. }
  apply wp_bind. destruct started.
  - apply wp_ret, Hlast, wp_replace_last; try done; [by rewrite Hst3|rewrite L3; by apply Hnl|].
    intros r Hr Hc. exfalso. rewrite db_status_row, <- Hr3, Hr in Hend. simpl in Hend.
    specialize (Hend eq_refl). congruence.
  - apply wp_note_seen_ended; [done|apply T3|]. intros b s4 T4 E4 Hb.
    destruct (Hmid s4 T4 E4) as (_ & A4 & P4 & L4 & Ha4).
    destruct b; [|by apply wp_bind, wp_ret, wp_ret]. apply Hlast, wp_replace_last; try done.
    + by rewrite E4, Hst3.
    + rewrite L4. by apply Hnl.
    + by apply Hb.
  - by apply wp_ret, wp_bind, wp_ret, wp_ret.
Qed.

Lemma wp_cancel_and_reassess now_secs a uncancellable s :
  alone s → reg_inv (sdb s) → ia_status a = AcceptedOnChain →
  wp (cancel_and_reassess tx_string agreement_conf now_secs a uncancellable)
    (λ u s', abandoned a s s' ∧ (u = uncancellable ∨ cancel_hash a = None ∧ s' = s ∧
               u = {[ia_id a]} ∪ uncancellable)) s.
Proof.
  intros Ha Hi Hacc. unfold cancel_and_reassess.
  assert (T0 : touched (ia_id a) s s) by (by split).
  destruct (cancel_hash a) as [h|] eqn:Hh; simpl.
  2:{ apply wp_ret. split; [by apply unchanged_abandoned|by right]. }
  assert (Hh' : cancel_hash a ≠ None) by by rewrite Hh.
  apply wp_bind. unfold start_abandoned_cancel. apply wp_bind, wp_mark_abandoning; [done..|].
  intros b s1 O1 marked Hmv Hb. subst marked. pose proof (on_row_touched _ _ _ O1) as T1. destruct b.
  2:{ apply wp_ret, wp_ret. split; [|by left]. destruct Hmv as [E|[E1 E2]].
      - by apply unchanged_abandoned.
      - eapply (touched_abandoned a s s); try done; [|rewrite E2; by left].
        exists []. rewrite app_nil_r. split; [done|constructor]. }
  destruct (Hb eq_refl) as [E1 E2]. clear Hb Hmv.
  apply wp_bind. eapply wp_mono; [apply wp_send_abandoned; [apply T1|done..]|].
  intros started s2 [Hi2 [D2 Ho2] P2 N2 O2 (calls & L2 & Hm) Hmv Hnl Hend]. apply wp_ret.
  destruct T1 as [_ R1 Q1 P1 A1 L1 _].
  eapply wp_mono; [apply (wp_after_sent a started uncancellable s s2)|]; try done.
  - unfold alone in *. congruence.
  - congruence.
  - rewrite D2. done.
  - intros k Hk. unfold srow in *. rewrite Ho2 by done. by apply R1.
  - exists calls. split; [congruence|done].
  - unfold moved_to in Hmv. rewrite E2 in Hmv. destruct Hmv as [-> | ->]; [by left|right; by left].
  - intros u s' [H1 H2]. by split; [|left].
Qed.

(** Without progress past its tolerance: a block was seen before, none or the
    same one is seen now. *)
Definition stale (config : LivenessCheckerConfig) (active_counts : gmap N Z) (now : Z)
    (a : IndexingAgreement) (current_block last_progress_at : option Z) : Prop :=
  ∃ last since, ia_last_block_height a = Some last ∧
    (current_block = None ∨ current_block = Some last) ∧ last_progress_at = Some since ∧
    tolerance_duration (tm_deployment (t_metadata (ia_terms a))) active_counts
      (lc_max_tolerance_days config) < now - since.

Lemma decide_stale config active_counts now a current_block last_progress_at :
  decide_liveness_action (ia_last_block_height a) current_block last_progress_at now
    (tm_deployment (t_metadata (ia_terms a))) active_counts (lc_max_tolerance_days config) =
    CancelAndReassess ↔
  stale config active_counts now a current_block last_progress_at.
Proof.
  pose proof (tolerance_bounds config (tm_deployment (t_metadata (ia_terms a))) active_counts) as Ht.
  unfold decide_liveness_action, stale.
  destruct (ia_last_block_height a) as [last|], current_block as [b|]; try naive_solver.
  - destruct (Z.eqb_spec b last) as [->|]; simpl; [|naive_solver].
    destruct last_progress_at as [since|]; simpl.
    + case_match eqn:E; [apply Z.ltb_lt in E|apply Z.ltb_ge in E].
      * split; [|done]. intros _. exists last, since. auto.
      * split; [done|]. intros (? & ? & ? & ? & [= <-] & ?). lia.
    + rewrite (proj2 (Z.ltb_ge _ _)) by lia. naive_solver.
  - destruct last_progress_at as [since|]; simpl.
    + case_match eqn:E; [apply Z.ltb_lt in E|apply Z.ltb_ge in E].
      * split; [|done]. intros _. exists last, since. auto.
      * split; [done|]. intros (? & ? & ? & ? & [= <-] & ?). lia.
    + rewrite (proj2 (Z.ltb_ge _ _)) by lia. naive_solver.
Qed.

(** The clock a check counts from. *)
Definition check_clock (a : IndexingAgreement) (unreachable : option UnreachablePolicy) : option Z :=
  match unreachable with
  | None => instant <$> ia_last_progress_at a
  | Some policy => progress_clock policy (instant <$> ia_last_progress_at a)
  end.

Lemma wp_record_progress a block now (Q : () → SState → Prop) s :
  alone s → reg_inv (sdb s) →
  (∀ s', touched (ia_id a) s s' → db_status (sdb s') (ia_id a) = db_status (sdb s) (ia_id a) →
    Q tt s') → wp (record_progress a block now) Q s.
Proof.
  intros Ha Hi HQ. apply wp_bind, wp_pg_alone; [done|].
  eapply wp_row; [apply sync_progress_row_op|intros; apply markers_inv|done|..].
  - intros x s' Ho Hx. apply wp_ret, HQ; [by apply on_row_touched|]. rewrite !db_status_row.
    destruct (srow s (ia_id a)); by injection Hx as _ ->.
  - intros s' Ho _ Hr. apply wp_ret, HQ; [by apply on_row_touched|]. rewrite !db_status_row.
    destruct Hr as [-> | ->]; [done|]. by destruct (srow s (ia_id a)).
Qed.

Lemma wp_check_agreement config active_counts now u a block unreachable s :
  alone s → reg_inv (sdb s) → ia_status a = AcceptedOnChain →
  wp (check_agreement tx_string agreement_conf config active_counts now u a block unreachable)
    (λ _ s', abandoned a s s' ∧
      (stale config active_counts now a block (check_clock a unreachable) ∧
         is_hold unreachable = false ∨
       ss_pushes s' = ss_pushes s ∧ slog s' = slog s ∧
       db_status (sdb s') (ia_id a) = db_status (sdb s) (ia_id a))) s.
Proof.
  intros Ha Hi Hacc. unfold check_agreement. fold (check_clock a unreachable).
  pose proof (decide_stale config active_counts now a block (check_clock a unreachable)) as Hs.
  assert (Hno : ∀ s', touched (ia_id a) s s' →
    db_status (sdb s') (ia_id a) = db_status (sdb s) (ia_id a) → abandoned a s s' ∧
      (stale config active_counts now a block (check_clock a unreachable) ∧
         is_hold unreachable = false ∨
       ss_pushes s' = ss_pushes s ∧ slog s' = slog s ∧
       db_status (sdb s') (ia_id a) = db_status (sdb s) (ia_id a))).
  { intros s' T E. split; [by apply unchanged_abandoned|right]. destruct T. auto. }
  assert (T0 : touched (ia_id a) s s) by (by split).
  destruct (decide_liveness_action _ _ _ _ _ _ _) as [b|b| |].
  - apply wp_bind, wp_record_progress; [done..|]. intros s' T E. apply wp_ret. auto.
  - apply wp_bind, wp_record_progress; [done..|]. intros s' T E. apply wp_ret. auto.
  - apply wp_ret. auto.
  - destruct (is_hold unreachable) eqn:Hh; [apply wp_ret; auto|].
    eapply wp_mono; [by apply wp_cancel_and_reassess|]. intros u' s' [H _]. split; [done|].
    left. split; [by apply Hs|done].
Qed.

(** C18: abandoning an agreement, over any chain and with connections lost
    anywhere, with no other task writing to the database while the check runs.  A
    check asks the chain, queues a job or changes the status only for an agreement
    without progress past its tolerance, its indexer not held by the breaker; one
    that can never be cancelled is left as it is, no matter how stale.  Otherwise
    it goes from [AcceptedOnChain] to [Cancelling] or [AbandonedByIndexer], the
    mark made before any cancel is sent.  Its replacement, at most one, for a
    request still open, is queued only after the chain was read and no longer
    shows the agreement live, and it then no longer holds its slot: it is ended or
    its end is noted.  No other agreement's row changes. *)
Theorem abandonment_is_earned config active_counts now u a block unreachable s u' s' :
  alone s → reg_inv (sdb s) → ia_status a = AcceptedOnChain →
  check_agreement tx_string agreement_conf config active_counts now u a block unreachable s =
    (u', s') →
  abandoned a s s' ∧
  (stale config active_counts now a block (check_clock a unreachable) ∧ is_hold unreachable = false ∨
   ss_pushes s' = ss_pushes s ∧ slog s' = slog s ∧
   db_status (sdb s') (ia_id a) = db_status (sdb s) (ia_id a)).
Proof.
  intros Ha Hi Hacc Hrun.
  exact (wp_run _ _ _ _ _ (wp_check_agreement config active_counts now u a block unreachable s Ha Hi
    Hacc) Hrun).
Qed.

End replacing.

(** ** Witnesses *)

(** A breaker that trips when half of at least 3 indexers can't be reached. *)
Definition demo_liveness : LivenessCheckerConfig :=
  mkLivenessConfig 4 500 (f64_div (as_f64 1) (as_f64 2)) 3.
Definition demo_cycles : list cycle :=
  [mkCycle 4 2 (duration_hours 1); mkCycle 4 3 (duration_hours 40); mkCycle 4 2 (duration_hours 90)].

Lemma forgotten_spans_never_matter_witness :
  let c := mkCycle 4 1 (duration_hours 500) in
  (breaker_step demo_liveness c (run_breaker demo_liveness demo_cycles default_breaker)).1.1 =
    Judge [] (max_hold demo_liveness) ∧
  same_judgement demo_liveness (duration_hours 500)
    (breaker_step demo_liveness c (run_breaker demo_liveness demo_cycles default_breaker)).1.1
    (step_keeping demo_liveness c (run_keeping demo_liveness demo_cycles default_breaker)).1.
Proof.
  split; [vm_compute; reflexivity|].
  apply (forgotten_spans_never_matter demo_liveness demo_cycles (mkCycle 4 1 (duration_hours 500)) 0).
  vm_compute. repeat split; discriminate.
Defined.

(** Three of four indexers gone for good: held for 4 days, judged after. *)
Lemma breaker_gives_way_witness :
  let policy := (breaker_step demo_liveness (mkCycle 4 3 (duration_hours 120))
    (run_breaker demo_liveness demo_cycles default_breaker)).1.1 in
  (breaker_step demo_liveness (mkCycle 4 3 (duration_hours 90))
    (run_breaker demo_liveness (take 2 demo_cycles) default_breaker)).1.1 = Hold ∧
  decide_liveness_action (Some 7) None (progress_clock policy (Some 0)) (duration_hours 200) 7 ∅ 4 =
    CancelAndReassess.
Proof.
  split; [vm_compute; reflexivity|].
  pose proof (breaker_gives_way demo_liveness demo_cycles (mkCycle 4 3 (duration_hours 120)) 0) as H.
  assert (Hp : (breaker_step demo_liveness (mkCycle 4 3 (duration_hours 120))
    (run_breaker demo_liveness demo_cycles default_breaker)).1.1 =
    Judge [mkSpan (duration_hours 1) (duration_hours 90)] (max_hold demo_liveness))
    by (vm_compute; reflexivity).
  rewrite Hp in H |- *. cbv zeta iota in H.
  assert (Ht : in_time 0 (demo_cycles ++ [mkCycle 4 3 (duration_hours 120)]))
    by (vm_compute; repeat split; discriminate).
  apply (H Ht). vm_compute. reflexivity.
Defined.

(** An accepted agreement that stopped at block 7, its indexer answering. *)
Definition demo_stale : Db :=
  run_ops [SetTarget 10 1 5 7 42161 2;
    Register 20 (mkParams 11 111 1 7 31 "http://indexer" demo_terms (Some (replicate 32 7)));
    Reconcile 30 11 true None; SyncProgress 11 7 0] empty_db.
Definition demo_stale_agreement : IndexingAgreement :=
  mkIndexingAgreement 11 111 20 30 AcceptedOnChain 1 (mkIndexer 31 "http://indexer") demo_terms
    (Some 7) (Some 0) None (Some (replicate 32 7)).
Definition demo_check := check_agreement (C := Script) (W := list Message) (λ _, "0x63"%string)
  demo_config demo_liveness ∅ (duration_hours 25) ∅ demo_stale_agreement (Some 7) None.

Lemma abandonment_is_earned_witness :
  ∃ u s', demo_check (demo_run demo_stale [Ok Live; Ok NotLive] []) = (u, s') ∧
    length (ss_pushes s') = 1%nat ∧ ends_not_live 11 (slog s').
Proof.
  destruct (demo_check (demo_run demo_stale [Ok Live; Ok NotLive] [])) as [u s'] eqn:E.
  exists u, s'. split; [reflexivity|].
  assert (Hp : length (ss_pushes s') = 1%nat)
    by (vm_compute in E; injection E as _ <-; reflexivity).
  split; [exact Hp|].
  destruct (abandonment_is_earned (λ _, "0x63"%string) demo_config demo_liveness ∅
    (duration_hours 25) ∅ demo_stale_agreement (Some 7) None
    (demo_run demo_stale [Ok Live; Ok NotLive] []) u s') as [[_ _ _ _ _ Hpush] _];
    [reflexivity| |reflexivity|exact E|].
  - apply run_ops_inv. by repeat constructor.
  - destruct Hpush as [Hpush|(msg & ok & _ & _ & _ & Hn & _)]; [|exact Hn].
    rewrite Hpush in Hp. discriminate.
Defined.

End LivenessProps.
