(* ===== verification/CancelRetry.v ===== *)
(** * The cancel retry (bin/dipper-service/src/network/service/cancel_retry.rs)

    The sweep that finishes the cancels dipper started: re-sends each while the
    chain shows it live, then marks it ended; queues the replacement of the
    agreements an indexer abandoned once they ended, and the reassessment of
    requests an ended agreement may fill. *)

From S2P Require Import Prelude Schema Registry RegistryInv RegistryRuns RegistryOps RegistryQueries.
From S2P Require Import JobQueue Worker Rca CancelDispatch CancelDispatchProps.
From S2P Require Import ChainEvents ChainListener ChainReconcile Services Liveness.
Import Schema Registry RegistryInv RegistryRuns RegistryOps RegistryQueries.
Import JobQueue Worker Rca CancelDispatch CancelDispatchProps ChainEvents ChainListener.
Import ChainReconcile Services Liveness.
Local Open Scope Z_scope.

Module CancelRetry.

Definition MAX_CANCEL_ATTEMPTS : Z := 10.
Definition RETRY_BATCH_SIZE : Z := 50.
Definition FREED_WINDOW_SECS : Z := 2 * 300.
Definition FREED_BATCH_SIZE : Z := 500.
Definition SWEEP_BUDGET : Z := from_secs 30.
Definition SETTLE_MINUTES : Z := 8.
Definition LISTENER_GRACE : Z := duration_hours 1.

(** How many attempts a failed cancel uses up. *)
Definition cancel_failed_attempts (err : ChainClientError) : Z :=
  match err with
  | TxDropped _ false => 0
  | MissingTermsVersionHash _ => MAX_CANCEL_ATTEMPTS
  | _ => 1
  end.

(** The one failure that alerts an operator ([log_failed_cancel]). *)
Definition reached_limit (attempts failed : Z) : bool :=
  (MAX_CANCEL_ATTEMPTS <=? attempts) && (Z.max (attempts - failed) 0 <? MAX_CANCEL_ATTEMPTS).

Section retry.
Context {C W : Type} `{!ChainClient C} `{!ChainClock C} `{!MessageQueue W}.
Context (tx_string : N → string) (address_string : N → string).
Context (config : IndexingAgreementConfig).
Notation S := (S C W).

(** The alert is whether this check is the one that reaches the limit. *)
Definition note_check (row : CancellingAgreement) (failure : option ChainClientError)
    (ended : option bool) : S bool :=
  let failed_attempts := from_option cancel_failed_attempts 0 failure in
  r ← pg (λ now, record_cancel_check now (ia_id (ca_agreement row)) failed_attempts ended);
  mret (match r, failure with
        | Ok attempts, Some _ =>
            (0 <? failed_attempts) && reached_limit attempts failed_attempts
        | _, _ => false
        end).

Definition record_end_by_indexer (now_secs : Z) (a : IndexingAgreement) : S bool :=
  audited ← pg (λ _, void (record_cancel_audit (ia_id a) now_secs
                             (address_string (ix_id (ia_indexer a))) None));
  match audited with
  | Ok _ =>
      marked ← pg (λ now, apply_reconciliation now (ia_id a) false (Some ByIndexer));
      mret (is_ok marked)
  | Err _ => mret false
  end.

Definition past_grace (wall : Z) (row : CancellingAgreement) : bool :=
  match ca_ended_seen_at row with
  | Some seen => instant seen <? wall - LISTENER_GRACE
  | None => false
  end.

Definition can_confirm (wall : Z) (row : CancellingAgreement) (tx_hash : option N)
    (chain_now : option Z) : bool :=
  if ca_accepted_on_chain row then negb (is_null tx_hash) || past_grace wall row
  else match chain_now with
       | Some now => t_deadline (ia_terms (ca_agreement row)) <? now
       | None => false
       end.

(** [wall] is [now_utc()]. *)
Definition confirm_if_over (wall : Z) (row : CancellingAgreement) (tx_hash : option N)
    (by_indexer : bool) (chain_now : option Z) : S bool :=
  if negb (can_confirm wall row tx_hash chain_now) then mret false
  else if by_indexer then
    if past_grace wall row then record_end_by_indexer (wall / 1000000000) (ca_agreement row)
    else mret false
  else
    on_dispatch (confirm_cancelled tx_string config (wall / 1000000000) (ca_agreement row)
      (if ca_abandoned row then Abandoned else NotWanted) tx_hash).

Definition retry_cancel (wall : Z) (chain_now : option Z) (row : CancellingAgreement) : S bool :=
  let finish tx_hash by_indexer failure :=
    over ← (if is_null failure then confirm_if_over wall row tx_hash by_indexer chain_now
            else mret false);
    if (over : bool) then mret false
    else note_check row failure (Some (is_null failure)) in
  cancel ← on_dispatch (cancel_if_live config (ca_agreement row));
  match cancel with
  | LcReadFailed _ => note_check row None None
  | LcNotLive by_indexer => finish None by_indexer None
  | LcEnded tx_hash => finish tx_hash false None
  | LcCancelFailed err => finish None false (Some err)
  | LcUnconfirmed _ _ => note_check row None None
  end.

Definition chain_time : S (option Z) :=
  r ← chain_timestamp; mret (match r with Ok now => Some now | Err _ => None end).

(** [elapsed] is the time since the sweep started, [wall] the wall clock, when
    the i-th row is reached. *)
Fixpoint retry_each (elapsed wall : nat → Z) (i : nat) (chain_now : option Z)
    (rows : list CancellingAgreement) : S () :=
  match rows with
  | [] => mret tt
  | row :: rest =>
      if SWEEP_BUDGET <=? elapsed i then mret tt
      else _ ← retry_cancel (wall i) chain_now row;
           retry_each elapsed wall (Datatypes.S i) chain_now rest
  end.

Definition retry_cancelling_agreements (elapsed wall : nat → Z) : S () :=
  listed ← pg (λ now, provider_cancelling now RETRY_BATCH_SIZE MAX_CANCEL_ATTEMPTS SETTLE_MINUTES);
  match listed with
  | Err _ | Ok [] => mret tt
  | Ok cancelling =>
      chain_now ← (if existsb (λ row, negb (ca_accepted_on_chain row)) cancelling
                   then chain_time else mret None);
      retry_each elapsed wall 0 chain_now cancelling
  end.

Definition replace_ended_abandoned : S () :=
  listed ← pg (λ _, provider_agreements (get_ended_agreements_awaiting_replacement RETRY_BATCH_SIZE));
  match listed with
  | Err _ => mret tt
  | Ok ended => each replace_abandoned ended
  end.

Definition reassess_freed_requests : S () :=
  listed ← pg (λ now, provider_requests
             (get_short_requests_on_deployments_with_ended_agreements now FREED_WINDOW_SECS
               FREED_BATCH_SIZE));
  match listed with
  | Err _ => mret tt
  | Ok requests =>
      each (λ r, _ ← queue_reassess_indexing_request (ir_id r) (ir_deployment_id r)
                       (ir_deployment_chain_id r) (ir_num_candidates r) Background;
                 mret tt) requests
  end.

(** What the service does on each tick. *)
Definition retry_sweep (elapsed wall : nat → Z) : S () :=
  _ ← retry_cancelling_agreements elapsed wall;
  _ ← replace_ended_abandoned;
  reassess_freed_requests.

End retry.

End CancelRetry.
