(* ===== verification/CancelRetryProps.v ===== *)
(** * What the cancel retry guarantees

    Against Postgres with connections that may be lost, any chain and any
    queue. *)

From S2P Require Import Prelude Schema Registry RegistryInv RegistryRuns RegistryOps RegistryQueries.
From S2P Require Import JobQueue Worker Rca CancelDispatch CancelDispatchProps.
From S2P Require Import ChainEvents ChainListener ChainReconcile Services RowOps Interleaving QueryProps Liveness LivenessProps CancelRetry.
Import Schema Registry RegistryInv RegistryRuns RegistryOps RegistryQueries.
Import JobQueue Worker Rca CancelDispatch CancelDispatchProps ChainEvents ChainListener.
Import ChainReconcile Services RowOps Interleaving QueryProps Liveness LivenessProps CancelRetry.
Local Open Scope Z_scope.

Module CancelRetryProps.

Lemma due_status now m a r : due_for_check now m a r = true → ag_status r = Cancelling.
Proof.
  unfold due_for_check, status_in. case_bool_decide as Hs; [|by destruct (sql_lt _ _) as [[]|]].
  intros _. by apply list_elem_of_singleton in Hs.
Qed.

(** The batch of a sweep: rows of the table, each once, all cancelling. *)
Lemma cancelling_batch now batch max_attempts min_age d :
  reg_inv d → 0 ≤ batch →
  ∃ rows, provider_cancelling now batch max_attempts min_age d = (Ok (cancelling_of_row <$> rows), d) ∧
    listed (due_for_check now (Z.min max_attempts i32_max) min_age) d rows.
Proof.
  intros Hd Hb. unfold provider_cancelling, get_cancelling_agreements.
  rewrite bind_run, casts_deadline_ok by done.
  rewrite bind_run. cbn [agreements_where]. unfold agreements_where. rewrite bind_run. simpl.
  rewrite bind_run. unfold sql_limit. rewrite (proj2 (Z.ltb_ge _ _)) by lia. simpl.
  pose proof (listed_first (due_for_check now (Z.min max_attempts i32_max) min_age) d (check_key now)
    (Z.to_nat batch) Hd) as Hl.
  set (rows := take _ _) in *. exists rows. split; [|done].
  assert (Hrows : ∀ r, r ∈ rows → ag_status r = Cancelling).
  { intros r Hr. apply (li_rows _ _ _ Hl) in Hr as [_ Hp]. by apply due_status in Hp. }
  unfold mret, SE_ret. do 2 f_equal. clear Hl.
  clearbody rows. induction rows as [|r rows IH]; [done|]. csimpl.
  assert (Hk : known_cancelling (cancelling_of_row r) = Some (cancelling_of_row r)).
  { unfold known_cancelling, known_agreement. simpl. rewrite (Hrows r) by (by left). done. }
  rewrite Hk. f_equal. apply IH. intros r' Hr'. apply Hrows. by right.
Qed.

Section facts.
Context {C W : Type} `{!ChainClient C} `{!ChainClock C} `{!MessageQueue W}.
Context (tx_string : N → string) (address_string : N → string).
Context (config : IndexingAgreementConfig).
Notation SState := (SState C W).
Notation retry := (retry_cancel (W := W) tx_string address_string config).

Lemma failed_attempts_nonneg failure : 0 ≤ from_option cancel_failed_attempts 0 failure.
Proof. by destruct failure as [[| | | | |? []| |]|]. Qed.

Lemma wp_note_check row failure ended (Q : bool → SState → Prop) s :
  alone s → reg_inv (sdb s) →
  (∀ b s', on_row (ia_id (ca_agreement row)) s s' →
    db_status (sdb s') (ia_id (ca_agreement row)) = db_status (sdb s) (ia_id (ca_agreement row)) →
    (fine s → ∀ r, srow s (ia_id (ca_agreement row)) = Some r → ag_status r = Cancelling →
      srow s' (ia_id (ca_agreement row)) =
        Some (checked_row (snow s) (from_option cancel_failed_attempts 0 failure) ended r)) → Q b s') →
  wp (note_check row failure ended) Q s.
Proof.
  intros Ha Hi HQ. set (id := ia_id (ca_agreement row)) in *.
  pose proof (failed_attempts_nonneg failure) as Hn. apply wp_bind, wp_pg_alone; [done|].
  eapply wp_row; [by apply cancel_check_row_op|intros; by apply cancel_check_inv|done|..].
  - intros x s' Ho Hx. fold id in Hx. apply wp_ret, HQ; [done|..]; fold id.
    + rewrite !db_status_row. destruct (srow s id) as [r|]; simpl in Hx;
        [case_bool_decide|]; by injection Hx as _ ->.
    + intros _ r Hr Hc. rewrite Hr in Hx. simpl in Hx. rewrite bool_decide_true in Hx by done.
      by injection Hx as _ ->.
  - intros s' Ho Hf Hr. fold id in Hr. apply wp_ret, HQ; [done| |done]. fold id. rewrite !db_status_row.
    destruct Hr as [-> | ->]; [done|]. destruct (srow s id) as [r|]; [|done]. simpl.
    by case_bool_decide.
Qed.

Lemma wp_end_by_indexer now_secs a (Q : bool → SState → Prop) s :
  alone s → reg_inv (sdb s) →
  (∀ b s', on_row (ia_id a) s s' → moved_to (ia_id a) CanceledByIndexer s s' →
    (b = true → db_status (sdb s) (ia_id a) = Some Cancelling →
      db_status (sdb s') (ia_id a) = Some CanceledByIndexer) →
    (fine s → b = true) → Q b s') →
  wp (record_end_by_indexer address_string now_secs a) Q s.
Proof.
  intros Ha Hi HQ. apply wp_bind, wp_pg_alone, wp_cancel_audit; [done..|].
  intros x s1 O1 E1 Hx. assert (Ha1 : alone s1) by (eapply aside_alone; [apply O1|done]).
  destruct Hx as [-> |[-> Hf]].
  2:{ apply wp_ret, HQ; [done|by left|done|done]. }
  apply wp_bind, wp_pg_alone; [done|].
  eapply wp_row; [apply end_by_indexer_row_op|intros; apply reconcile_inv|apply O1|..].
  - intros y s2 O2 Hy. apply wp_ret, HQ; [by eapply on_row_trans|..]; unfold moved_to;
      rewrite <- ?E1, ?db_status_row; destruct (srow s1 (ia_id a)) as [r|]; simpl in Hy.
    all: try (destruct (status_in CANCEL_BY_INDEXER_FROM r) eqn:Hs).
    all: injection Hy as -> Hr; rewrite ?Hr; simpl; auto; try done.
    intros _ [= Hc]. unfold status_in in Hs. rewrite Hc in Hs. by vm_compute in Hs.
  - intros s2 O2 Hf Hr. apply wp_ret, HQ; [by eapply on_row_trans|..]; try done.
    2:{ intros Hf'. destruct Hf. by apply O1. }
    unfold moved_to. rewrite <- E1, !db_status_row. destruct Hr as [-> | ->]; [by left|].
    destruct (srow s1 (ia_id a)) as [r|]; [|by left]. simpl. destruct (status_in _ r); auto.
Qed.

(** What a check found that lets the retry end the agreement, and as what. *)
Definition ended_as (row : CancellingAgreement) (wall : Z) (chain_now : option Z)
    (l : LiveCancel) (st : AgreementStatus) : Prop :=
  let by_dipper := ended_status (if ca_abandoned row then Abandoned else NotWanted) in
  match l with
  | LcEnded tx => st = by_dipper ∧ can_confirm wall row tx chain_now = true
  | LcNotLive false => st = by_dipper ∧ can_confirm wall row None chain_now = true
  | LcNotLive true => st = CanceledByIndexer ∧ can_confirm wall row None chain_now = true ∧
      past_grace wall row = true
  | _ => False
  end.

(** What one check of a cancelling agreement leaves behind. *)
Record retried (row : CancellingAgreement) (wall : Z) (chain_now : option Z) (s s' : SState)
    : Prop := {
  rt_inv : reg_inv (sdb s');
  rt_only : only_row (ia_id (ca_agreement row)) (sdb s) (sdb s');
  rt_pushes : ss_pushes s' = ss_pushes s;
  rt_now : snow s' = snow s;
  rt_others : ss_others s' = ss_others s;
  rt_fine : fine s → fine s';
  rt_calls : ∃ calls l,
    cancel_calls config (ca_agreement row) (db_status (sdb s) (ia_id (ca_agreement row))) calls l ∧
    slog s' = slog s ++ calls ∧
    (db_status (sdb s') (ia_id (ca_agreement row)) = db_status (sdb s) (ia_id (ca_agreement row)) ∨
     ∃ st, db_status (sdb s') (ia_id (ca_agreement row)) = Some st ∧ ended_as row wall chain_now l st) ∧
    (fine s → db_status (sdb s) (ia_id (ca_agreement row)) = Some Cancelling → ∀ st,
      ended_as row wall chain_now l st → db_status (sdb s') (ia_id (ca_agreement row)) = Some st);
  rt_checked : fine s → ∀ r, srow s (ia_id (ca_agreement row)) = Some r → ag_status r = Cancelling →
    db_status (sdb s') (ia_id (ca_agreement row)) = Some Cancelling →
    ag_cancel_checked_at <$> srow s' (ia_id (ca_agreement row)) = Some (Some (snow s)) }.

(** A check that writes [id]'s row after the calls on the chain. *)
Lemma retried_row row wall chain_now calls l s s1 s2 :
  let id := ia_id (ca_agreement row) in
  cancel_calls config (ca_agreement row) (db_status (sdb s) id) calls l → asked calls s s1 →
  on_row id s1 s2 →
  (db_status (sdb s2) id = db_status (sdb s) id ∨
   ∃ st, db_status (sdb s2) id = Some st ∧ ended_as row wall chain_now l st) →
  (fine s → db_status (sdb s) id = Some Cancelling → ∀ st,
    ended_as row wall chain_now l st → db_status (sdb s2) id = Some st) →
  (fine s → ∀ r, srow s id = Some r → ag_status r = Cancelling →
    db_status (sdb s2) id = Some Cancelling →
    ag_cancel_checked_at <$> srow s2 id = Some (Some (snow s))) →
  retried row wall chain_now s s2.
Proof.
  intros id Hc [D1 N1 Q1 P1 O1 F1 L1] [[Q2 P2 C2 L2 N2 O2] Hi Ho Hf] Hst Hfin Hch.
  split; try congruence; try done.
  - by rewrite <- D1.
  - intros Hf0. apply Hf. unfold fine in *. congruence.
  - exists calls, l. split_and!; [done|congruence|done|done].
Qed.

(** Noting a check, after the calls on the chain and a mark that left the
    status alone. *)
Lemma wp_note_retried row wall chain_now calls l failure ended s s1 s2 :
  let id := ia_id (ca_agreement row) in
  cancel_calls config (ca_agreement row) (db_status (sdb s) id) calls l → asked calls s s1 →
  on_row id s1 s2 → alone s2 →
  (db_status (sdb s2) id = db_status (sdb s) id ∨
   ∃ st, db_status (sdb s2) id = Some st ∧ ended_as row wall chain_now l st) →
  (fine s → db_status (sdb s) id = Some Cancelling → ∀ st,
    ended_as row wall chain_now l st → db_status (sdb s2) id = Some st) →
  wp (note_check row failure ended) (λ _, retried row wall chain_now s) s2.
Proof.
  intros id Hc A1 O2 Ha Hst Hfin. apply wp_note_check; [done|apply O2|]. fold id.
  intros b s3 O3 E3 Hch. eapply retried_row; [exact Hc|exact A1|by eapply on_row_trans|..]; fold id;
    rewrite E3; auto.
  intros Hf r Hr Hs Hcan. destruct (srow s2 id) as [r2|] eqn:Hr2.
  2:{ rewrite db_status_row, Hr2 in Hcan. done. }
  rewrite db_status_row, Hr2 in Hcan. injection Hcan as Hcan.
  assert (Hf2 : fine s2) by (apply O2; unfold fine in *; by rewrite (ak_faults _ _ _ A1)).
  rewrite (Hch Hf2 r2 eq_refl Hcan).
  simpl. rewrite (as_now _ _ (or_aside _ _ _ O2)), (ak_now _ _ _ A1). done.
Qed.

Lemma wp_confirm_if_over row wall chain_now tx (by_indexer : bool) (Q : bool → SState → Prop) s :
  let l := if by_indexer then LcNotLive true else LcEnded tx in
  let id := ia_id (ca_agreement row) in
  (by_indexer = true → tx = None) → alone s → reg_inv (sdb s) →
  (∀ b s', on_row id s s' →
    (db_status (sdb s') id = db_status (sdb s) id ∨
     ∃ st, db_status (sdb s') id = Some st ∧ ended_as row wall chain_now l st) →
    (b = true → db_status (sdb s) id = Some Cancelling → db_status (sdb s') id ≠ Some Cancelling) →
    (fine s → ∀ st, ended_as row wall chain_now l st → b = true ∧
      (db_status (sdb s) id = Some Cancelling → db_status (sdb s') id = Some st)) → Q b s') →
  wp (confirm_if_over tx_string address_string config wall row tx by_indexer chain_now) Q s.
Proof.
  intros l id Htx Ha Hi HQ. subst id. unfold confirm_if_over.
  destruct (can_confirm wall row tx chain_now) eqn:Hcc; simpl.
  2:{ apply wp_ret, HQ; [by apply on_row_refl|by left|done|]. intros _ st. subst l.
      destruct by_indexer; [rewrite Htx in Hcc by done|]; simpl; rewrite Hcc; intros H;
        by destruct_and?. }
  destruct by_indexer.
  - rewrite Htx in Hcc by done. destruct (past_grace wall row) eqn:Hg.
    2:{ apply wp_ret, HQ; [by apply on_row_refl|by left|done|]. intros _ st. simpl. rewrite Hg.
        intros H. by destruct_and?. }
    apply wp_end_by_indexer; [done..|]. intros b s' Ho Hm Hok Hf. apply HQ; [done|..].
    + destruct Hm as [Hm|Hm]; [by left|right]. eexists. by split.
    + intros Hb Hc. rewrite (Hok Hb Hc). done.
    + intros Hf' st (-> & _). split; [by apply Hf|]. intros. apply Hok; auto.
  - assert (Hl : ∀ st, ended_as row wall chain_now l st ↔
      st = ended_status (if ca_abandoned row then Abandoned else NotWanted)).
    { intros st. simpl. rewrite Hcc. naive_solver. }
    apply wp_confirm_cancelled; [done|]. intros b s' Ho Hm Hok Hf. apply HQ; [done|..].
    + destruct Hm as [Hm|Hm]; [by left|right]. eexists. split; [done|]. by apply Hl.
    + intros Hb Hc. rewrite (Hok Hc Hb). by destruct (ca_abandoned row).
    + intros Hf' st ->%Hl. split; [by apply Hf|]. intros. apply Hok; auto.
Qed.

Lemma wp_retry_cancel row wall chain_now s :
  alone s → reg_inv (sdb s) →
  wp (retry wall chain_now row) (λ _, retried row wall chain_now s) s.
Proof.
  intros Ha Hi. unfold retry_cancel. apply wp_bind, wp_cancel_if_live. intros calls l s1 Hc A1.
  assert (Ha1 : alone s1) by (unfold alone; by rewrite (ak_others _ _ _ A1)).
  assert (Hi1 : reg_inv (sdb s1)) by (by rewrite (ak_db _ _ _ A1)).
  pose proof (on_row_refl (ia_id (ca_agreement row)) s1 Hi1) as O1.
  assert (Hnone : ∀ failure ended, (∀ st, ¬ ended_as row wall chain_now l st) →
    wp (note_check row failure ended) (λ _, retried row wall chain_now s) s1).
  { intros failure ended Hn. eapply wp_note_retried; [exact Hc|done..| |].
    - left. by rewrite (ak_db _ _ _ A1).
    - intros _ _ st Hst. by destruct (Hn st). }
  assert (Hover : ∀ tx (by_indexer : bool), (by_indexer = true → tx = None) →
    (∀ st, ended_as row wall chain_now l st ↔
       ended_as row wall chain_now (if by_indexer then LcNotLive true else LcEnded tx) st) →
    wp (over ← confirm_if_over tx_string address_string config wall row tx by_indexer chain_now;
        if (over : bool) then mret false else note_check row None (Some true))
      (λ _, retried row wall chain_now s) s1).
  { intros tx by_indexer Htx Hl. apply wp_bind, wp_confirm_if_over; [done..|].
    intros b s2 O2 Hst Hb Hfin. rewrite (ak_db _ _ _ A1) in Hst, Hb, Hfin.
    assert (Ha2 : alone s2) by (eapply aside_alone; [apply O2|done]).
    assert (Hst' : db_status (sdb s2) (ia_id (ca_agreement row)) =
        db_status (sdb s) (ia_id (ca_agreement row)) ∨
      ∃ st, db_status (sdb s2) (ia_id (ca_agreement row)) = Some st ∧ ended_as row wall chain_now l st).
    { destruct Hst as [Hst|(st & Hst & He)]; [by left|right]. exists st. by rewrite Hl. }
    assert (Hfin' : fine s → ∀ st, ended_as row wall chain_now l st → b = true ∧
      (db_status (sdb s) (ia_id (ca_agreement row)) = Some Cancelling →
       db_status (sdb s2) (ia_id (ca_agreement row)) = Some st)).
    { intros Hf st He. apply Hfin; [unfold fine in *; by rewrite (ak_faults _ _ _ A1)|]. by apply Hl. }
    destruct b.
    - apply wp_ret. eapply retried_row; [exact Hc|done..| |].
      + intros Hf Hcan st He. by apply Hfin'.
      + intros Hf r Hr Hs Hcan. destruct (Hb eq_refl); [|done]. unfold srow in Hr.
        unfold db_status. by rewrite Hr, <- Hs.
    - eapply wp_note_retried; [exact Hc|done..|].
      intros Hf Hcan st He. by destruct (Hfin' Hf st He). }
  destruct l as [[]|tx|err|tx err|err]; simpl; try (by apply Hnone; auto).
  - by apply (Hover None true).
  - by apply (Hover None false).
  - by apply (Hover tx false).
Qed.

(** What a check of [id] in [calls] showed, that let it be ended as [st]. *)
Definition ended_in (batch : list CancellingAgreement) (wall : nat → Z) (chain_now : option Z)
    (calls : list chain_call) (id : N) (st : AgreementStatus) : Prop :=
  ∃ row i l c before after, row ∈ batch ∧ ia_id (ca_agreement row) = id ∧
    calls = before ++ c ++ after ∧ cancel_calls config (ca_agreement row) (Some Cancelling) c l ∧
    ended_as row (wall i) chain_now l st.

Record swept (elapsed : nat → Z) (batch : list CancellingAgreement) (wall : nat → Z)
    (chain_now : option Z) (s s' : SState) : Prop := {
  sw_inv : reg_inv (sdb s');
  sw_pushes : ss_pushes s' = ss_pushes s;
  sw_now : snow s' = snow s;
  sw_others : ss_others s' = ss_others s;
  sw_rows : ∀ id, id ∉ ia_id ∘ ca_agreement <$> batch → srow s' id = srow s id;
  sw_calls : ∃ calls, slog s' = slog s ++ calls ∧ Forall marked_call calls ∧
    ∀ id, db_status (sdb s') id = db_status (sdb s) id ∨
      ∃ st, db_status (sdb s') id = Some st ∧ ended_in batch wall chain_now calls id st;
  sw_checked : fine s → (∀ j, elapsed j < SWEEP_BUDGET) → ∀ row, row ∈ batch →
    db_status (sdb s') (ia_id (ca_agreement row)) = Some Cancelling →
    ag_cancel_checked_at <$> srow s' (ia_id (ca_agreement row)) = Some (Some (snow s)) }.

Lemma swept_nil elapsed wall chain_now s : reg_inv (sdb s) → swept elapsed [] wall chain_now s s.
Proof.
  intros Hi. split; try done.
  - exists []. rewrite app_nil_r. split_and!; [done|done|]. by left.
  - intros _ _ row Hrow. by apply not_elem_of_nil in Hrow.
Qed.

Lemma swept_cut elapsed batch wall chain_now s :
  reg_inv (sdb s) → (∃ j, SWEEP_BUDGET ≤ elapsed j) → swept elapsed batch wall chain_now s s.
Proof.
  intros Hi [j Hj]. split; try done.
  - exists []. rewrite app_nil_r. split_and!; [done|done|]. by left.
  - intros _ Hall. specialize (Hall j). lia.
Qed.

Lemma other_row id k (s s' : SState) :
  only_row id (sdb s) (sdb s') → k ≠ id → srow s' k = srow s k.
Proof. intros [_ H] Hk. by apply H. Qed.

Lemma other_status id k (s s' : SState) :
  only_row id (sdb s) (sdb s') → k ≠ id → db_status (sdb s') k = db_status (sdb s) k.
Proof. intros H Hk. rewrite !db_status_row. by erewrite other_row. Qed.

Lemma swept_cons elapsed wall chain_now row rest i s s1 s2 :
  ia_id (ca_agreement row) ∉ ia_id ∘ ca_agreement <$> rest →
  db_status (sdb s) (ia_id (ca_agreement row)) = Some Cancelling →
  retried row (wall i) chain_now s s1 → swept elapsed rest wall chain_now s1 s2 →
  swept elapsed (row :: rest) wall chain_now s s2.
Proof.
  intros Hn Hst [Hi1 Ho1 Hp1 Hn1 Hot1 Hf1 (c & l & Hc & L1 & Hst1 & _) Hck1]
    [Hi2 Hp2 Hn2 Hot2 Hr2 (calls & L2 & Hm2 & Hst2) Hck2].
  rewrite Hst in Hc. assert (Hown : srow s2 (ia_id (ca_agreement row)) = srow s1 (ia_id (ca_agreement row)))
    by by apply Hr2.
  split; try congruence.
  - intros id Hid. rewrite fmap_cons in Hid. apply not_elem_of_cons in Hid as [H1 H2].
    rewrite (Hr2 _ H2). by eapply other_row.
  - exists (c ++ calls). split_and!; [by rewrite L2, L1, app_assoc|..].
    + apply Forall_app. split; [by eapply (cancel_calls_marked config)|done].
    + intros id. destruct (decide (id = ia_id (ca_agreement row))) as [->|Hid].
      * rewrite (db_status_row s2), Hown, <- (db_status_row s1).
        destruct Hst1 as [Hst1|(st & Hst1 & He)]; [by left|right]. exists st. split; [done|].
        exists row, i, l, c, [], calls. split_and!; [by left|done..].
      * rewrite <- (other_status _ id _ _ Ho1 Hid).
        destruct (Hst2 id) as [H|(st & H & r & j & l' & c' & b & a & Hr & E1 & -> & E3)]; [by left|right].
        exists st. split; [done|]. exists r, j, l', c', (c ++ b), a.
        split_and!; [by right|done|by rewrite <- app_assoc|apply E3..].
  - intros Hf Hall r [->|Hr]%elem_of_cons Hcan.
    + rewrite Hown. rewrite db_status_row, Hown in Hcan. unfold db_status in Hst.
      destruct (agreements (sdb s) !! ia_id (ca_agreement row)) as [r0|] eqn:Hr0; [|done].
      injection Hst as Hst. by eapply Hck1.
    + rewrite <- Hn1. apply Hck2; auto.
Qed.

Lemma wp_retry_each elapsed wall chain_now rows i s :
  alone s → reg_inv (sdb s) → NoDup (ia_id ∘ ca_agreement <$> rows) →
  (∀ row, row ∈ rows → db_status (sdb s) (ia_id (ca_agreement row)) = Some Cancelling) →
  wp (retry_each tx_string address_string config elapsed wall i chain_now rows)
    (λ _, swept elapsed rows wall chain_now s) s.
Proof.
  revert i s. induction rows as [|row rows IH]; intros i s Ha Hi Hnd Hcan; simpl.
  { apply wp_ret. by apply swept_nil. }
  rewrite fmap_cons in Hnd. apply NoDup_cons in Hnd as [Hn Hnd].
  destruct (SWEEP_BUDGET <=? elapsed i) eqn:Hb.
  { apply wp_ret. apply swept_cut; [done|]. exists i. by apply Z.leb_le. }
  apply wp_bind. eapply wp_mono; [by apply wp_retry_cancel|]. intros b s1 R1.
  eapply wp_mono; [apply IH|].
  - unfold alone. by rewrite (rt_others _ _ _ _ _ R1).
  - apply R1.
  - done.
  - intros r Hr. rewrite (other_status (ia_id (ca_agreement row)) _ s s1).
    + apply Hcan. by right.
    + apply R1.
    + intros E. apply Hn. apply list_elem_of_fmap. exists r. split; [by symmetry|done].
  - intros u s2 R2. eapply swept_cons; [exact Hn|apply Hcan; by left|exact R1|exact R2].
Qed.

(** What the chain was seen to say of an agreement the sweep ended as [st]. *)
Definition chain_ended (wall : nat → Z) (calls : list chain_call) (r : AgreementRow)
    (st : AgreementStatus) : Prop :=
  let grace_over := ∃ i seen, ag_ended_seen_at r = Some seen ∧ instant seen < wall i - LISTENER_GRACE in
  ∃ before after seen, calls = before ++ CallRead (ag_id r) (Ok seen) :: after ∧
    (seen = EndedByIndexer ∧ st = CanceledByIndexer ∧ grace_over ∨
     seen = NotLive ∧ st = ended_status (if ag_abandoned r then Abandoned else NotWanted)) ∧
    match ag_accepted_at r with
    | Some _ => grace_over ∨ ∃ hash, last before =
        Some (CallCancel (ag_id r) (recurring_collector config) hash SCOPE_BOTH (Some Cancelling))
    | None => ∃ t, CallTime (Ok t) ∈ calls ∧ t_deadline (ag_terms r) < t
    end.

Lemma past_grace_row (wall : nat → Z) i r :
  past_grace (wall i) (cancelling_of_row r) = true →
  ∃ i seen, ag_ended_seen_at r = Some seen ∧ instant seen < wall i - LISTENER_GRACE.
Proof.
  unfold past_grace. simpl. destruct (ag_ended_seen_at r) as [seen|]; [|done]. intros H.
  exists i, seen. split; [done|]. by apply Z.ltb_lt.
Qed.

(** The three shapes of a check that ends an agreement. *)
Lemma ended_check r c l (wall : nat → Z) i chain_now st :
  cancel_calls config (agreement_of_row r) (Some Cancelling) c l →
  ended_as (cancelling_of_row r) (wall i) chain_now l st →
  ∃ pre seen tx, c = pre ++ [CallRead (ag_id r) (Ok seen)] ∧
    can_confirm (wall i) (cancelling_of_row r) tx chain_now = true ∧
    (seen = EndedByIndexer ∧ st = CanceledByIndexer ∧
       past_grace (wall i) (cancelling_of_row r) = true ∨
     seen = NotLive ∧ st = ended_status (if ag_abandoned r then Abandoned else NotWanted)) ∧
    (tx = None ∨ ∃ hash, last pre =
       Some (CallCancel (ag_id r) (recurring_collector config) hash SCOPE_BOTH (Some Cancelling))).
Proof.
  intros [err|seen Hs|Hh|h err Hh|h tx answer Hh]; simpl; try done.
  - destruct seen; [done|..]; simpl.
    + intros (-> & Hc & Hg). exists [], EndedByIndexer, None. simpl. naive_solver.
    + intros (-> & Hc). exists [], NotLive, None. simpl. naive_solver.
  - destruct answer as [[]|]; simpl; try done.
    + intros (-> & Hc & Hg).
      eexists [CallRead (ag_id r) (Ok Live); CallCancel _ _ _ _ _], EndedByIndexer, None. simpl.
      naive_solver.
    + intros (-> & Hc).
      eexists [CallRead (ag_id r) (Ok Live); CallCancel _ _ _ _ _], NotLive, tx. simpl.
      naive_solver.
Qed.

Lemma ended_in_row rows wall chain_now calls id st d p :
  listed p d rows → (∀ t, chain_now = Some t → CallTime (Ok t) ∈ calls) →
  ∀ calls', (∃ pre, calls = pre ++ calls') →
  ended_in (cancelling_of_row <$> rows) wall chain_now calls' id st →
  ∃ r, agreements d !! id = Some r ∧ p r = true ∧ chain_ended wall calls r st.
Proof.
  intros Hl Ht calls' [pre ->] (row & i & l & c & before & after & Hrow & <- & -> & Hc & He).
  apply list_elem_of_fmap in Hrow as (r & -> & Hr). exists r.
  destruct (li_rows _ _ _ Hl _ Hr) as [Hr1 Hr2]. split_and!; [done..|].
  destruct (ended_check r c l wall i chain_now st Hc He) as (cpre & seen & tx & -> & Hcc & Hs & Htx).
  exists (pre ++ before ++ cpre), after, seen. split; [by rewrite <- !app_assoc|]. split.
  - destruct Hs as [(? & ? & Hg)|?]; [left|by right]. split_and!; [done..|]. by eapply past_grace_row.
  - unfold can_confirm in Hcc. simpl in Hcc. destruct (ag_accepted_at r); simpl in Hcc.
    + destruct tx as [tx|]; [|left; exact (past_grace_row wall i r Hcc)].
      destruct Htx as [[=]|[hash Htx]]. right. exists hash.
      destruct cpre as [|x cpre]; [done|]. by rewrite !last_app, Htx.
    + destruct chain_now as [t|]; [|done]. exists t. split; [by apply Ht|]. by apply Z.ltb_lt.
Qed.

(** What a sweep may have done. *)
Record sweep_ok (elapsed wall : nat → Z) (s s' : SState) : Prop := {
  so_inv : reg_inv (sdb s');
  so_pushes : ss_pushes s' = ss_pushes s;
  so_calls : ∃ calls, slog s' = slog s ++ calls ∧ Forall marked_call calls ∧
    ∀ id, db_status (sdb s') id = db_status (sdb s) id ∨
      ∃ r st, agreements (sdb s) !! id = Some r ∧ ag_status r = Cancelling ∧
        db_status (sdb s') id = Some st ∧ chain_ended wall calls r st;
  so_checked : fine s → (∀ j, elapsed j < SWEEP_BUDGET) → ∃ rows,
    provider_cancelling (snow s) RETRY_BATCH_SIZE MAX_CANCEL_ATTEMPTS SETTLE_MINUTES (sdb s) =
      (Ok (cancelling_of_row <$> rows), sdb s) ∧
    ∀ r, r ∈ rows → db_status (sdb s') (ag_id r) = Some Cancelling →
      ag_cancel_checked_at <$> srow s' (ag_id r) = Some (Some (snow s)) }.

Lemma wp_retry_listed rows elapsed wall chain_now pre s s1 :
  listed (due_for_check (snow s) (Z.min MAX_CANCEL_ATTEMPTS i32_max) SETTLE_MINUTES) (sdb s) rows →
  provider_cancelling (snow s) RETRY_BATCH_SIZE MAX_CANCEL_ATTEMPTS SETTLE_MINUTES (sdb s) =
    (Ok (cancelling_of_row <$> rows), sdb s) →
  consulted pre s s1 → alone s → reg_inv (sdb s) → Forall marked_call pre →
  (∀ t, chain_now = Some t → CallTime (Ok t) ∈ pre) →
  wp (retry_each tx_string address_string config elapsed wall 0 chain_now (cancelling_of_row <$> rows))
    (λ _, sweep_ok elapsed wall s) s1.
Proof.
  intros Hl Hrun [D1 N1 P1 O1 F1 L1] Ha Hi Hpre Ht.
  eapply wp_mono; [apply wp_retry_each|].
  - unfold alone. congruence.
  - by rewrite D1.
  - rewrite <- list_fmap_compose. apply Hl.
  - intros row (r & -> & Hr)%list_elem_of_fmap. apply (li_rows _ _ _ Hl) in Hr as [Hr Hdue].
    rewrite D1. unfold db_status. simpl. rewrite Hr. simpl. f_equal. by eapply due_status.
  - intros u s2 [Hi2 P2 N2 O2 R2 (calls & L2 & Hm & Hst) Hck]. split; [done|congruence|..].
    + exists (pre ++ calls). split_and!; [by rewrite L2, L1, app_assoc|by apply Forall_app|].
      intros id. rewrite <- D1. destruct (Hst id) as [H|(st & H & He)]; [by left|right].
      eapply (ended_in_row _ _ _ (pre ++ calls)) in He as (r & Hr & Hp & Hc);
        [|exact Hl| |by exists pre].
      2:{ intros t Ht'. apply elem_of_app. left. auto. }
      rewrite D1. exists r, st. split_and!; try done. by eapply due_status.
    + intros Hf Hall. exists rows. split; [done|]. intros r Hr Hcan.
      assert (Hrow : cancelling_of_row r ∈ cancelling_of_row <$> rows) by (by apply list_elem_of_fmap_2).
      rewrite <- N1. exact (Hck (F1 Hf) Hall _ Hrow Hcan).
Qed.

Lemma sweep_idle elapsed wall s s1 :
  aside s s1 → sdb s1 = sdb s → reg_inv (sdb s) →
  (¬ fine s ∨
   provider_cancelling (snow s) RETRY_BATCH_SIZE MAX_CANCEL_ATTEMPTS SETTLE_MINUTES (sdb s) =
     (Ok [], sdb s)) → sweep_ok elapsed wall s s1.
Proof.
  intros [_ P _ L _ _] D Hi Hr. split; rewrite ?D; auto.
  - exists []. rewrite L, app_nil_r. split_and!; [done..|]. by left.
  - intros Hf _. destruct Hr as [Hr|Hr]; [done|]. exists []. split; [done|].
    intros r Hr'. by apply not_elem_of_nil in Hr'.
Qed.

Lemma wp_retry_sweep elapsed wall s :
  alone s → reg_inv (sdb s) →
  wp (retry_cancelling_agreements tx_string address_string config elapsed wall)
    (λ _, sweep_ok elapsed wall s) s.
Proof.
  intros Ha Hi. unfold retry_cancelling_agreements.
  destruct (cancelling_batch (snow s) RETRY_BATCH_SIZE MAX_CANCEL_ATTEMPTS SETTLE_MINUTES (sdb s))
    as (rows & Hrun & Hl); [done|done|].
  apply wp_bind, wp_pg_alone; [done|].
  apply (wp_query _ (cancelling_of_row <$> rows)); [done|..].
  2:{ intros s1 As D1 Hf. apply wp_ret, sweep_idle; auto. }
  intros s1 As D1 Hf1. destruct rows as [|r0 rest]; [apply wp_ret, sweep_idle; auto|].
  pose proof (query_consulted s s1 As D1 Hf1) as C1. apply wp_bind.
  destruct (existsb _ _).
  - apply wp_bind, wp_chain_timestamp. intros answer s2 A2. apply wp_ret.
    apply (wp_retry_listed (r0 :: rest) elapsed wall _ ([] ++ [CallTime answer])); try done.
    + eapply consulted_trans; [exact C1|by apply asked_consulted].
    + by repeat constructor.
    + intros t. destruct answer as [t'|]; [|done]. intros [= ->]. by left.
  - apply wp_ret. by apply (wp_retry_listed (r0 :: rest) elapsed wall None []).
Qed.

(** *** Other tasks writing meanwhile *)

Definition batch_ids (batch : list CancellingAgreement) : list N := ia_id ∘ ca_agreement <$> batch.

Definition cancel_reason (row : CancellingAgreement) : CancelReason :=
  if ca_abandoned row then Abandoned else NotWanted.

(** What a sweep over [batch] may write to the database it finds at that
    moment: one row of the batch, whose status stays, or moves to its end from a
    status the end's mark may leave. *)
Definition retrying (batch : list CancellingAgreement) (now : Z) (d d' : Db) : Prop :=
  ∃ row r r', row ∈ batch ∧ agreements d !! ia_id (ca_agreement row) = Some r ∧
    d' = set_agreements (<[ia_id (ca_agreement row) := r']> (agreements d)) d ∧
    (ag_status r' = ag_status r ∨
     ag_status r ∈ end_from (cancel_reason row) ∧
       r' = touch now (ended_status (cancel_reason row)) r ∨
     ag_status r ∈ CANCEL_BY_INDEXER_FROM ∧ r' = touch now CanceledByIndexer r).

(** What it may ask the chain: the time, and about the batch. *)
Definition batch_call (batch : list CancellingAgreement) (c : chain_call) : Prop :=
  match c with
  | CallTime _ => True
  | CallRead id _ | CallCancel id _ _ _ _ => id ∈ batch_ids batch
  | _ => False
  end.

Section shared.
Context (batch : list CancellingAgreement) (row : CancellingAgreement) (Hrow : row ∈ batch).
Notation P := (retrying batch).
Notation K := (batch_call batch).
Notation id := (ia_id (ca_agreement row)).

(** A statement on the row's own row. *)
Lemma retrying_row {A} (m : DbM A) g none now d :
  row_op id g none m → reg_inv d →
  (∀ r, let r' := (g r).2 in
    ag_status r' = ag_status r ∨
    ag_status r ∈ end_from (cancel_reason row) ∧
      r' = touch now (ended_status (cancel_reason row)) r ∨
    ag_status r ∈ CANCEL_BY_INDEXER_FROM ∧ r' = touch now CanceledByIndexer r) →
  (m d).2 = d ∨ P now d (m d).2.
Proof.
  intros Hop Hi Hg. rewrite Hop by done.
  destruct (agreements d !! id) as [r|] eqn:Hr; [right|by left].
  exists row, r, (g r).2. simpl. by split_and!.
Qed.

Lemma guard_row_ends now allowed st r :
  (guard_row allowed (touch now st) r).2 = r ∨
  ag_status r ∈ allowed ∧ (guard_row allowed (touch now st) r).2 = touch now st r.
Proof.
  unfold guard_row, status_in. case_bool_decide as Hs; simpl; [right|by left]. done.
Qed.

Lemma keeps_note_check failure ended (s : SState) :
  clean s → keeps_to P K (note_check row failure ended) s.
Proof.
  intros Hc. pose proof (failed_attempts_nonneg failure) as Hn. apply keeps_to_bind; [done| |].
  - apply keeps_to_pg; [done|intros; by apply cancel_check_inv|]. intros s1 d' _ [Hi1 _] ->.
    eapply retrying_row; [by apply cancel_check_row_op|done|]. intros r. left.
    case_bool_decide; [|done]. reflexivity.
  - intros x s1 _ _. apply keeps_to_ret.
Qed.

Lemma keeps_end_by_indexer now_secs (s : SState) :
  clean s → keeps_to P K (record_end_by_indexer address_string now_secs (ca_agreement row)) s.
Proof.
  intros Hc. apply keeps_to_bind; [done| |].
  - apply keeps_to_pg; [done|intros; apply void_inv, audits_inv|]. intros s1 d' _ [Hi1 _] ->.
    eapply retrying_row; [apply cancel_audit_row_op|done|]. intros r. left. apply with_end_status.
  - intros [[]|e] s1 Hc1 _; [|apply keeps_to_ret]. apply keeps_to_bind; [done| |].
    + apply keeps_to_pg; [done|intros; apply reconcile_inv|]. intros s2 d' _ [Hi2 _] ->.
      eapply retrying_row; [apply end_by_indexer_row_op|done|]. intros r.
      unfold status_in. case_bool_decide as Hs; simpl; [|by left]. right. right. done.
    + intros x s2 _ _. apply keeps_to_ret.
Qed.

Lemma keeps_confirm_cancelled now_secs tx (s : SState) :
  clean s →
  keeps_to P K (on_dispatch
    (confirm_cancelled tx_string config now_secs (ca_agreement row) (cancel_reason row) tx)) s.
Proof.
  intros Hc. unfold confirm_cancelled. apply owp_on_bind.
  assert (Hend : ∀ s1 : SState, clean s1 → slog s1 = slog s → owp P (on_dispatch
      (marked ← mark_ended (ca_agreement row) (cancel_reason row);
       mret (match marked with
             | Ok tt => true | Err NoRecordsUpdated => true | Err _ => false end)))
    (λ _ s', logged K s s') s1).
  { intros s1 Hc1 L1. apply owp_on_bind. rewrite mark_ended_statement. apply owp_statement; [done|..].
    - intros now d0. destruct (cancel_reason row); apply set_status_inv.
    - eapply retrying_row; [apply end_mark_row_op|apply Hc1|]. intros r.
      destruct (guard_row_ends (snow s1) (end_from (cancel_reason row))
        (ended_status (cancel_reason row)) r) as [->|[Hs ->]]; [by left|right; by left].
    - intros x s2 As _. apply owp_on_ret, logged_same. rewrite (as_log _ _ As). done. }
  destruct (is_null tx); [by apply owp_on_ret, Hend|].
  unfold record_cancel. apply owp_on_bind.
  change (on_dispatch (C := C) (W := W) (registry (reg_record_cancel_audit id now_secs
      (recurring_agreement_manager config) (tx_string <$> tx))))
    with (statement (C := C) (W := W) (λ _, void (record_cancel_audit id now_secs
      (recurring_agreement_manager config) (tx_string <$> tx)))).
  apply owp_statement; [done|intros; apply void_inv, audits_inv|..].
  - eapply retrying_row; [apply cancel_audit_row_op|apply Hc|]. intros r. left. apply with_end_status.
  - intros x s1 As T1. apply owp_on_ret, Hend; [by eapply turns_clean|apply As].
Qed.

Lemma keeps_retry_cancel wall chain_now (s : SState) :
  clean s → keeps_to P K (retry wall chain_now row) s.
Proof.
  intros Hc. unfold retry_cancel. apply keeps_to_bind; [done| |].
  { apply wp_cancel_if_live. intros calls l s1 Hcalls A1. split; [by eapply asked_turn|].
    exists calls. split; [apply A1|]. assert (Hid : id ∈ batch_ids batch).
    { apply list_elem_of_fmap. by exists row. }
    destruct Hcalls; by repeat constructor. }
  intros l s1 Hc1 _.
  assert (Hfinish : ∀ tx (by_indexer : bool), keeps_to P K
    (over ← confirm_if_over tx_string address_string config wall row tx by_indexer chain_now;
     if (over : bool) then mret false else note_check row None (Some true)) s1).
  { intros tx by_indexer. apply keeps_to_bind; [done| |].
    - unfold confirm_if_over. destruct (negb _); [apply keeps_to_ret|]. destruct by_indexer.
      + destruct (past_grace wall row); [by apply keeps_end_by_indexer|apply keeps_to_ret].
      + by apply keeps_confirm_cancelled.
    - intros [] s2 Hc2 _; [apply keeps_to_ret|by apply keeps_note_check]. }
  destruct l as [by_indexer|tx|err|tx err|err]; simpl; try by apply keeps_note_check.
  - apply Hfinish.
  - apply Hfinish.
Qed.
End shared.

Lemma keeps_retry_each batch elapsed wall chain_now rows i (s : SState) :
  clean s → rows ⊆ batch →
  keeps_to (retrying batch) (batch_call batch)
    (retry_each tx_string address_string config elapsed wall i chain_now rows) s.
Proof.
  revert i s. induction rows as [|row rows IH]; intros i s Hc Hsub; simpl; [apply keeps_to_ret|].
  destruct (SWEEP_BUDGET <=? elapsed i); [apply keeps_to_ret|].
  apply keeps_to_bind; [done|apply keeps_retry_cancel; [apply Hsub; by left|done]|].
  intros b s1 Hc1 _. apply IH; [done|]. intros x Hx. apply Hsub. by right.
Qed.

(** A sweep among others' writes: the batch it listed, all [Cancelling] then. *)
Definition sweep_turns (s s' : SState) : Prop :=
  ∃ s1 batch, interfered s s1 ∧
    (∀ id, id ∈ batch_ids batch → db_status (sdb s1) id = Some Cancelling) ∧
    turns_of (retrying batch) s1 s' ∧ logged (batch_call batch) s s'.

Lemma wp_sweep_turns elapsed wall (s : SState) :
  clean s →
  wp (retry_cancelling_agreements tx_string address_string config elapsed wall)
    (λ _, sweep_turns s) s.
Proof.
  intros Hc. unfold retry_cancelling_agreements. apply wp_bind, wp_pg_shared. intros s1 H1.
  destruct (interfered_evolves _ _ H1 Hc) as [_ Hc1].
  destruct (cancelling_batch (snow s1) RETRY_BATCH_SIZE MAX_CANCEL_ATTEMPTS SETTLE_MINUTES (sdb s1))
    as (rows & Hrun & Hl); [apply Hc1|done|].
  assert (Hids : ∀ id, id ∈ batch_ids (cancelling_of_row <$> rows) →
    db_status (sdb s1) id = Some Cancelling).
  { intros id (r0 & -> & (r & -> & Hr)%list_elem_of_fmap)%list_elem_of_fmap. simpl.
    apply (li_rows _ _ _ Hl) in Hr as [Hr Hd]. unfold db_status. rewrite Hr. simpl. f_equal.
    by eapply due_status. }
  assert (Hq : ∀ s2, aside s1 s2 → sdb s2 = sdb s1 →
    turns_of (retrying (cancelling_of_row <$> rows)) s1 s2).
  { intros s2 [] D. by apply quiet_turn. }
  assert (Hstop : ∀ s2, aside s1 s2 → sdb s2 = sdb s1 → sweep_turns s s2).
  { intros s2 As D. exists s1, (cancelling_of_row <$> rows). split_and!; [done..|by apply Hq|].
    apply logged_same. rewrite (as_log _ _ As). apply H1. }
  apply (wp_query _ (cancelling_of_row <$> rows)); [done|..].
  2:{ intros s2 As D2 _. by apply wp_ret, Hstop. }
  intros s2 As D2 _. pose proof (Hq s2 As D2) as T2. pose proof (turns_clean _ _ _ T2 Hc1) as Hc2.
  assert (L2 : slog s2 = slog s) by (rewrite (as_log _ _ As); apply H1).
  assert (Hrest : keeps_to (retrying (cancelling_of_row <$> rows)) (batch_call (cancelling_of_row <$> rows))
    (chain_now ← (if existsb (λ row, negb (ca_accepted_on_chain row)) (cancelling_of_row <$> rows)
                  then chain_time else mret None);
     retry_each tx_string address_string config elapsed wall 0 chain_now (cancelling_of_row <$> rows)) s2).
  { apply keeps_to_bind; [done| |intros x s3 Hc3 _; by apply keeps_retry_each].
    destruct (existsb _ _); [|apply keeps_to_ret]. apply wp_bind, wp_chain_timestamp.
    intros answer s3 A3. apply wp_ret. split; [by eapply asked_turn|].
    exists [CallTime answer]. split; [apply A3|by repeat constructor]. }
  destruct (cancelling_of_row <$> rows) as [|c0 rest] eqn:Hb; [by apply wp_ret, Hstop|].
  unfold keeps_to, owp in Hrest. eapply wp_mono; [exact Hrest|]. intros u s3 [T3 L3]. exists s1, (c0 :: rest).
  split_and!; [done..|by eapply turns_trans|]. destruct L3 as (calls & E & H). exists calls.
  by rewrite E, L2.
Qed.


(** ** Replacing what was abandoned *)

Definition awaiting (r : AgreementRow) : bool :=
  ag_replacement_pending r && negb (status_in [Cancelling] r).

(** The ended agreements a sweep takes on. *)
Lemma awaiting_batch batch d :
  reg_inv d → 0 ≤ batch →
  ∃ rows, provider_agreements (get_ended_agreements_awaiting_replacement batch) d =
      (Ok (agreement_of_row <$> rows), d) ∧ listed awaiting d rows.
Proof.
  intros Hd Hb. unfold provider_agreements, get_ended_agreements_awaiting_replacement.
  rewrite !bind_run. cbn [agreements_where]. unfold agreements_where. rewrite bind_run. simpl.
  rewrite bind_run. unfold sql_limit. rewrite (proj2 (Z.ltb_ge _ _)) by lia. simpl.
  unfold mret, SE_ret. rewrite known_rows. eexists. split; [reflexivity|].
  eapply listed_sublist; [apply sublist_filter|]. by apply listed_first.
Qed.

(** The messages queued for some rows, each with the queue's answer. *)
Definition queued_for (d : Db) (pushed : list (AgreementRow * bool)) : list (Message * JobPriority * bool) :=
  omap (λ p, msg ← replacement d (agreement_of_row p.1); Some (msg, Background, p.2)) pushed.

Record replaced_all (rows : list AgreementRow) (s s' : SState) : Prop := {
  ra_inv : reg_inv (sdb s');
  ra_log : slog s' = slog s;
  ra_rows : ∀ k, k ∉ ag_id <$> rows → srow s' k = srow s k;
  ra_pushed : ∃ pushed, ss_pushes s' = ss_pushes s ++ queued_for (sdb s) pushed ∧
    pushed.*1 = filter (λ r, is_Some (replacement (sdb s) (agreement_of_row r))) rows ∧
    ∀ r, r ∈ rows →
      (r, false) ∈ pushed ∧ srow s' (ag_id r) = Some r ∨
      (r, false) ∉ pushed ∧ srow s' (ag_id r) = Some (set_replacement_pending false r) }.

(** One more row replaced before the others. *)
Lemma replaced_cons r rows (s s1 s2 : SState) more pushed :
  ag_id r ∉ ag_id <$> rows → srow s (ag_id r) = Some r → reg_inv (sdb s2) → slog s2 = slog s →
  (∀ a, replacement (sdb s1) a = replacement (sdb s) a) →
  (∀ k, k ≠ ag_id r → srow s1 k = srow s k) → (∀ k, k ∉ ag_id <$> rows → srow s2 k = srow s1 k) →
  srow s1 (ag_id r) = Some r ∨
    srow s1 (ag_id r) = set_replacement_pending false <$> srow s (ag_id r) ∧
    (replacement (sdb s) (agreement_of_row r) = None ∨ pushed = Some true) →
  (replacement (sdb s) (agreement_of_row r) = None ∨ pushed ≠ None) ∧
    (replacement (sdb s) (agreement_of_row r) = None ∨ pushed = Some true →
     srow s1 (ag_id r) = set_replacement_pending false <$> srow s (ag_id r)) →
  ss_pushes s2 = (ss_pushes s ++
    match replacement (sdb s) (agreement_of_row r), pushed with
    | Some msg, Some ok => [(msg, Background, ok)]
    | _, _ => []
    end) ++ queued_for (sdb s1) more →
  more.*1 = filter (λ r, is_Some (replacement (sdb s1) (agreement_of_row r))) rows →
  (∀ r', r' ∈ rows →
      (r', false) ∈ more ∧ srow s2 (ag_id r') = Some r' ∨
      (r', false) ∉ more ∧ srow s2 (ag_id r') = Some (set_replacement_pending false r')) →
  replaced_all (r :: rows) s s2.
Proof.
  intros Hn Hr0 Hi2 L2 Hrep Ho1 Ho2 Hrow [Hp Hclear] P2 Hfst Hflag.
  assert (Hq : queued_for (sdb s1) more = queued_for (sdb s) more).
  { clear -Hrep. unfold queued_for. induction more as [|p more IH]; [done|]. csimpl. by rewrite Hrep, IH. }
  assert (Hfst' : more.*1 = filter (λ r, is_Some (replacement (sdb s) (agreement_of_row r))) rows).
  { rewrite Hfst. apply list_filter_iff. intros x. by rewrite Hrep. }
  assert (Hmore : ∀ ok, (r, ok) ∉ more).
  { intros ok Hin. apply Hn. apply (list_elem_of_fmap_2 fst) in Hin. rewrite Hfst' in Hin.
    apply list_elem_of_filter in Hin as [_ Hin]. by apply (list_elem_of_fmap_2 ag_id) in Hin. }
  assert (Hne : ∀ r', r' ∈ rows → r' ≠ r).
  { intros r' Hr' ->. apply Hn. by apply list_elem_of_fmap_2. }
  rewrite Hq in P2. split; [done|done|..].
  { intros k Hk. rewrite fmap_cons in Hk. apply not_elem_of_cons in Hk as [H1 H2].
    rewrite Ho2 by done. by apply Ho1. }
  destruct (replacement (sdb s) (agreement_of_row r)) as [msg|] eqn:Hm.
  - destruct pushed as [ok|]; [|by destruct Hp]. exists ((r, ok) :: more). split_and!.
    + rewrite P2. unfold queued_for. simpl. rewrite Hm. simpl. by rewrite <- app_assoc.
    + rewrite filter_cons, decide_True by (rewrite Hm; eauto). simpl. by f_equal.
    + intros r' [->|Hr']%elem_of_cons.
      * rewrite Ho2 by done. destruct ok; [right|left].
        -- split; [|by rewrite Hclear, Hr0; auto]. intros [[=]|Hin]%elem_of_cons. by apply (Hmore false).
        -- split; [by left|]. destruct Hrow as [Hrow|[_ [[=]|[=]]]]. done.
      * specialize (Hne r' Hr'). destruct (Hflag r' Hr') as [[H1 H2]|[H1 H2]]; [left|right].
        -- split; [by right|done].
        -- split; [|done]. intros [[= E]|Hin]%elem_of_cons; done.
  - exists more. split_and!.
    + rewrite P2. by rewrite app_nil_r.
    + rewrite filter_cons, decide_False by (rewrite Hm; by intros [? [=]]). done.
    + intros r' [->|Hr']%elem_of_cons; [right|by apply Hflag].
      split; [apply Hmore|]. rewrite Ho2, Hclear, Hr0 by auto. done.
Qed.

Lemma wp_replace_each rows s :
  alone s → fine s → reg_inv (sdb s) →
  NoDup (ag_id <$> rows) → (∀ r, r ∈ rows → srow s (ag_id r) = Some r) →
  wp (each replace_abandoned (agreement_of_row <$> rows)) (λ _, replaced_all rows s) s.
Proof.
  revert s. induction rows as [|r rows IH]; intros s Ha Hf Hi Hnd Hrows; simpl.
  { apply wp_ret. split; try done. exists []. rewrite app_nil_r. split_and!; try done.
    intros r Hr. by apply not_elem_of_nil in Hr. }
  rewrite fmap_cons in Hnd. apply NoDup_cons in Hnd as [Hn Hnd].
  apply wp_bind. eapply wp_mono; [by apply wp_replace_abandoned|].
  intros u s1 [Hi1 [D1 Ho1] L1 N1 O1 F1 (pushed & P1 & Hrow & Hdone)].
  assert (Hreq1 : requests (sdb s1) = requests (sdb s)) by by rewrite D1.
  assert (Hrep : ∀ a, replacement (sdb s1) a = replacement (sdb s) a)
    by (intros; unfold replacement; by rewrite Hreq1).
  assert (Hr0 : srow s (ag_id r) = Some r) by (apply Hrows; by left).
  eapply wp_mono; [apply IH|]; try done.
  - unfold alone. by rewrite O1.
  - by apply F1.
  - intros r' Hr'. unfold srow. rewrite Ho1.
    + apply Hrows. by right.
    + simpl. intros E. apply Hn. rewrite <- E. by apply list_elem_of_fmap_2.
  - intros u' s2 [Hi2 L2 Hrows2 (more & P2 & Hfst & Hflag)].
    eapply (replaced_cons r rows s s1 s2 more pushed); eauto.
    + congruence.
    + rewrite <- Hr0. exact Hrow.
    + by rewrite P2, P1.
Qed.

Lemma wp_replace_ended s :
  alone s → fine s → reg_inv (sdb s) →
  wp replace_ended_abandoned (λ _ s', ∃ rows,
    provider_agreements (get_ended_agreements_awaiting_replacement RETRY_BATCH_SIZE) (sdb s) =
      (Ok (agreement_of_row <$> rows), sdb s) ∧
    listed awaiting (sdb s) rows ∧ replaced_all rows s s') s.
Proof.
  intros Ha Hf Hi. destruct (awaiting_batch RETRY_BATCH_SIZE (sdb s)) as (rows & Hrun & Hl); [done|done|].
  apply wp_bind, wp_pg_alone; [done|]. apply (wp_query _ (agreement_of_row <$> rows)); [done|..|done].
  intros s1 As D1 Hf1. assert (Ha1 : alone s1) by by eapply aside_alone.
  destruct As as [Q1 P1 C1 L1 N1 O1].
  eapply wp_mono; [apply (wp_replace_each rows); rewrite ?D1; auto|].
  - apply Hl.
  - intros r Hr. unfold srow. rewrite D1. by apply Hl.
  - intros u s2 [Hi2 L2 Hr2 Hp2]. exists rows. split_and!; [done..|]. split; [done|congruence|..].
    + intros k Hk. rewrite Hr2 by done. unfold srow. by rewrite D1.
    + rewrite <- P1, <- D1. done.
Qed.

(** Agreements an indexer abandoned are replaced once, whatever ended them.
    With no connection lost, the sweep takes the ended agreements that await
    their replacement, oldest first, and for each whose request is still open
    queues exactly one reassessment with the request's current target; the
    agreement stops awaiting it unless the queue refused the job, so a refused
    one is tried again by the next sweep and an accepted one is not queued
    twice.  No other agreement's row changes. *)
Theorem abandoned_are_replaced_once s s' :
  alone s → fine s → reg_inv (sdb s) → replace_ended_abandoned s = (tt, s') →
  ∃ rows,
    provider_agreements (get_ended_agreements_awaiting_replacement RETRY_BATCH_SIZE) (sdb s) =
      (Ok (agreement_of_row <$> rows), sdb s) ∧
    listed awaiting (sdb s) rows ∧ replaced_all rows s s'.
Proof.
  intros Ha Hf Hi Hrun. exact (wp_run _ _ _ _ _ (wp_replace_ended s Ha Hf Hi) Hrun).
Qed.

End facts.

(** ** Witnesses *)

(** An accepted agreement being cancelled, and one whose offer was withdrawn and
    never accepted. *)
Definition demo_cancelling : Db :=
  run_ops [SetTarget 10 1 5 7 42161 2;
    Register 20 (mkParams 11 111 1 7 31 "http://indexer" demo_terms (Some (replicate 32 7)));
    Reconcile 30 11 true None; AcceptedAudit 11 25 "0xaa"; Register 35 (demo_params 12 32);
    MarkCancelling 40 11; MarkCancelling 41 12] empty_db.

Definition demo_sweep := retry_cancelling_agreements (C := Script) (W := list Message)
  (λ _, "0x63"%string) (λ _, "0x1f"%string) demo_config (λ _, 0) (λ _, 0).
Definition demo_sweep_state : SState Script (list Message) :=
  mkSState (mkState (mkPg demo_cancelling (hours 1) [])
    (mkScript [Ok Live; Ok NotLive; Ok NotLive] [Ok (Some 99%N)]) []) [] [] [].


(** The abandoned agreement of an open request, ended. *)
Definition demo_awaiting : SState Script (list Message) := demo_run demo_abandoned [] [].

Lemma abandoned_are_replaced_once_witness :
  ∃ s', replace_ended_abandoned demo_awaiting = (tt, s') ∧
    ss_pushes s' = [(ReassessIndexingRequest 1 7 42161 2, Background, true)] ∧
    ∃ rows, listed awaiting (sdb demo_awaiting) rows ∧ replaced_all rows demo_awaiting s'.
Proof.
  destruct (replace_ended_abandoned demo_awaiting) as [[] s'] eqn:E. exists s'.
  split; [reflexivity|].
  assert (Hp : ss_pushes s' = [(ReassessIndexingRequest 1 7 42161 2, Background, true)])
    by (vm_compute in E; injection E as <-; reflexivity).
  split; [exact Hp|].
  assert (Hi : reg_inv (sdb demo_awaiting)).
  { apply reachable_reg_inv. eapply rtc_trans; [apply demo_start_reachable|apply demo_end_steps]. }
  assert (Ha : alone demo_awaiting) by reflexivity.
  assert (Hf : fine demo_awaiting) by reflexivity.
  destruct (abandoned_are_replaced_once demo_awaiting s' Ha Hf Hi E) as (rows & _ & Hl & Hr).
  exists rows. split; [exact Hl|exact Hr].
Defined.

End CancelRetryProps.
