(* ===== verification/Expiration.v ===== *)
(** * Expiring offers (bin/dipper-service/src/network/service/expiration.rs)

    One scan: the offers still [Created] whose deadline is further in the past
    than the grace period, by the chain's time the listener recorded, are marked
    [Expired] and their requests reassessed. *)

From S2P Require Import Prelude Schema Registry RegistryInv RegistryRuns RegistryOps RegistryQueries.
From S2P Require Import JobQueue Worker Rca CancelDispatch CancelDispatchProps.
From S2P Require Import ChainEvents ChainListener ChainReconcile Services RowOps Interleaving QueryProps.
Import Schema Registry RegistryInv RegistryRuns RegistryOps RegistryQueries.
Import JobQueue Worker Rca CancelDispatch CancelDispatchProps ChainEvents ChainListener.
Import ChainReconcile Services RowOps Interleaving QueryProps.
Local Open Scope Z_scope.

Module Expiration.

Record ExpirationConfig : Type := mkExpirationConfig {
  ex_batch_size : Z;
  ex_grace_secs : Z }.

Section expiration.
Context {C W : Type} `{!ChainClient C} `{!MessageQueue W}.
Notation S := (S C W).
Notation SState := (SState C W).

(** Queueing the reassessment of an expired agreement's request; a failure is
    logged. *)
Definition reassess_expired (a : IndexingAgreement) : S () :=
  request ← pg (λ _, provider_request_by_id (ia_indexing_request_id a));
  match request with
  | Ok (Some r) =>
      _ ← queue_reassess_indexing_request (ia_indexing_request_id a)
            (tm_deployment (t_metadata (ia_terms a))) (tm_chain_id (t_metadata (ia_terms a)))
            (ir_num_candidates r) Background;
      mret tt
  | Ok None | Err _ => mret tt
  end.

(** The body of the loop over expired agreements. *)
Definition expire_agreement (a : IndexingAgreement) : S () :=
  marked ← pg (λ now, mark_indexing_agreement_as_expired now (ia_id a));
  match marked with
  | Err _ => mret tt
  | Ok _ =>
      _ ← pg (λ _, delete_pending_cancellations_by_new_agreement (ia_id a));
      reassess_expired a
  end.

(** [stop i]: a stop message is seen before the i-th agreement. *)
Fixpoint expire_each (stop : nat → bool) (i : nat) (expired : list IndexingAgreement) : S () :=
  match expired with
  | [] => mret tt
  | a :: rest =>
      if stop i then mret tt
      else _ ← expire_agreement a; expire_each stop (Datatypes.S i) rest
  end.

Definition chain_ts (chain_id : option Z) : S (option Z) :=
  match chain_id with
  | None => mret None
  | Some cid =>
      r ← pg (λ _, get_chain_listener_state cid);
      mret (match r with
            | Ok (Some state) => cl_last_processed_block_timestamp state
            | Ok None | Err _ => None
            end)
  end.

(** [chain_ts.saturating_sub(grace)] *)
Definition expiry_threshold (config : ExpirationConfig) (ts : Z) : Z :=
  Z.max (ts - ex_grace_secs config) 0.

(** One scan, from the tick, with the cycles without a chain time so far. *)
Definition expiration_scan (config : ExpirationConfig) (chain_id : option Z) (stop : nat → bool)
    (dormant_cycles : Z) : S Z :=
  ts ← chain_ts chain_id;
  match ts with
  | None => mret (dormant_cycles + 1)
  | Some ts =>
      listed ← pg (λ _, provider_agreements
                 (get_expired_created_agreements (ex_batch_size config) (expiry_threshold config ts)));
      match listed with
      | Err _ | Ok [] => mret 0
      | Ok expired => _ ← expire_each stop 0 expired; mret 0
      end
  end.

(** ** What a scan does *)

(** The reassessment of an agreement's request, with its current target. *)
Definition expired_message (d : Db) (a : IndexingAgreement) : option Message :=
  request ← (request_of_row <$> requests d !! ia_indexing_request_id a) ≫= provider_request;
  Some (ReassessIndexingRequest (ia_indexing_request_id a)
    (tm_deployment (t_metadata (ia_terms a))) (tm_chain_id (t_metadata (ia_terms a)))
    (ir_num_candidates request)).

Lemma omap_ext_in_rows d1 d2 (rows : list AgreementRow) :
  (∀ a, expired_message d1 a = expired_message d2 a) →
  omap (λ r, expired_message d1 (agreement_of_row r)) rows =
  omap (λ r, expired_message d2 (agreement_of_row r)) rows.
Proof. intros H. induction rows as [|r rows IH]; [done|]. csimpl. by rewrite H, IH. Qed.

Record expired_one (a : IndexingAgreement) (s s' : SState) : Prop := {
  eo_inv : reg_inv (sdb s');
  eo_rows : ∀ k, k ≠ ia_id a → srow s' k = srow s k;
  eo_requests : requests (sdb s') = requests (sdb s);
  eo_others : ss_others s' = ss_others s;
  eo_log : slog s' = slog s;
  eo_now : snow s' = snow s;
  eo_fine : fine s → fine s';
  eo_pending : ∀ p, p ∈ pending (sdb s') → p ∈ pending (sdb s);
  eo_done : ∃ news, ss_pushes s' = ss_pushes s ++ news ∧
    (srow s' (ia_id a) = srow s (ia_id a) ∧ news = [] ∨
     ∃ r, srow s (ia_id a) = Some r ∧ ag_status r = Created ∧
       srow s' (ia_id a) = Some (touch (snow s) Expired r) ∧
       (news = [] ∨ ∃ msg ok, expired_message (sdb s) a = Some msg ∧ news = [(msg, Background, ok)]));
  eo_all : fine s → ∀ r, srow s (ia_id a) = Some r → ag_status r = Created →
    srow s' (ia_id a) = Some (touch (snow s) Expired r) ∧
    (∀ o, (ia_id a, o) ∉ pending (sdb s')) ∧
    ∃ news, ss_pushes s' = ss_pushes s ++ news ∧ (fst <$> (fst <$> news)) =
      match expired_message (sdb s) a with Some msg => [msg] | None => [] end }.

Lemma wp_reassess_expired a (Q : () → SState → Prop) s :
  alone s →
  (∀ s' news, sdb s' = sdb s → slog s' = slog s → snow s' = snow s → ss_others s' = ss_others s →
    (fine s → fine s') → ss_pushes s' = ss_pushes s ++ news →
    (news = [] ∨ ∃ msg ok, expired_message (sdb s) a = Some msg ∧ news = [(msg, Background, ok)]) →
    (fine s → (fst <$> (fst <$> news)) =
      match expired_message (sdb s) a with Some msg => [msg] | None => [] end) → Q tt s') →
  wp (reassess_expired a) Q s.
Proof.
  intros Ha HQ. unfold reassess_expired. apply wp_bind, wp_pg_alone; [done|].
  apply (wp_query _ ((request_of_row <$> requests (sdb s) !! ia_indexing_request_id a)
    ≫= provider_request)); [done|..].
  - intros s1 [Q1 P1 C1 L1 N1 O1] D1 Hf1.
    destruct (_ ≫= provider_request) as [r|] eqn:Hr.
    2:{ apply wp_ret, (HQ _ []); try done; [by rewrite app_nil_r|by left|]. intros _.
        unfold expired_message. by rewrite Hr. }
    apply wp_bind, wp_push. intros ok s2 E2 P2 O2. apply wp_ret.
    assert (Hmsg : expired_message (sdb s) a = Some (ReassessIndexingRequest (ia_indexing_request_id a)
      (tm_deployment (t_metadata (ia_terms a))) (tm_chain_id (t_metadata (ia_terms a)))
      (ir_num_candidates r))) by (unfold expired_message; by rewrite Hr).
    eapply HQ; try (unfold sdb, slog, snow, fine in *; rewrite ?E2; congruence).
    + unfold fine in *. by rewrite E2.
    + by rewrite P2, P1.
    + right. eauto.
    + intros _. by rewrite Hmsg.
  - intros s1 [Q1 P1 C1 L1 N1 O1] D1 Hf. apply wp_ret, (HQ _ []); try done;
      [by rewrite app_nil_r|by left].
Qed.

Lemma wp_expire_agreement a s :
  alone s → reg_inv (sdb s) → wp (expire_agreement a) (λ _, expired_one a s) s.
Proof.
  intros Ha Hi. unfold expire_agreement. apply wp_bind, wp_pg_alone; [done|].
  assert (Hin : ∀ r, status_in [Created] r = true ↔ ag_status r = Created).
  { intros r. unfold status_in. rewrite bool_decide_eq_true. apply list_elem_of_singleton. }
  eapply wp_row; [apply expired_row_op|intros; apply mark_inv|done|..].
  2:{ intros s1 [[Q1 P1 C1 L1 N1 O1] Hi1 [D1 Ho1] F1] Hf Hr. apply wp_ret.
      split; try done; try (by rewrite D1).
      exists []. rewrite app_nil_r. split; [done|]. destruct Hr as [Hr|Hr]; [by left|].
      destruct (srow s (ia_id a)) as [r|]; [|by left]. simpl in Hr. unfold guard_row in Hr.
      destruct (status_in [Created] r) eqn:Hs; [right|by left]. exists r. rewrite Hin in Hs. auto 6. }
  intros x s1 [As Hi1 [D1 Ho1] F1] Hx. assert (Ha1 : alone s1) by by eapply aside_alone.
  destruct As as [Q1 P1 C1 L1 N1 O1]. destruct (srow s (ia_id a)) as [r|] eqn:Hr; simpl in Hx.
  2:{ injection Hx as -> Hx. apply wp_ret. split; try done; try (by rewrite D1).
      - exists []. rewrite app_nil_r. split; [done|]. left. by rewrite Hr.
      - intros _ r'. by rewrite Hr. }
  unfold guard_row in Hx. destruct (status_in [Created] r) eqn:Hs.
  2:{ injection Hx as -> Hx. apply wp_ret. split; try done; try (by rewrite D1).
      - exists []. rewrite app_nil_r. split; [done|]. left. by rewrite Hr.
      - intros _ r'. rewrite Hr. intros [= <-] Hc. apply Hin in Hc. congruence. }
  injection Hx as -> Hx. rewrite Hin in Hs.
  apply wp_bind, wp_delete_pending; [done..|]. intros y s2 [Hi2 R2 Rq2 P2 O2 L2 N2] Hr2 Hsub Hdel.
  assert (Hreq : requests (sdb s2) = requests (sdb s)) by (rewrite Rq2, D1; done).
  assert (Hmsg : expired_message (sdb s2) a = expired_message (sdb s) a)
    by (unfold expired_message; by rewrite Hreq).
  apply wp_reassess_expired; [unfold alone in *; congruence|].
  intros s3 news D3 L3 N3 O3 F3 P3 Hnews Hall. rewrite Hmsg in Hnews, Hall.
  assert (Hrow3 : srow s3 (ia_id a) = Some (touch (snow s) Expired r)).
  { unfold srow in *. by rewrite D3, Hr2. }
  assert (F2 : fine s → fine s2) by (intros Hf; by apply Hdel, F1).
  assert (Hd : ∀ p, p ∈ pending (sdb s3) → p ∈ pending (sdb s)).
  { intros p Hp. rewrite D3 in Hp. apply Hsub in Hp. rewrite D1 in Hp. done. }
  assert (P3' : ss_pushes s3 = ss_pushes s ++ news) by congruence.
  split; try congruence; try (by rewrite D3); [|auto|done|..].
  - intros k Hk. unfold srow in *. rewrite D3. rewrite R2 by done. by apply Ho1.
  - exists news. split; [done|]. right. exists r. auto.
  - intros Hf r'. rewrite Hr. intros [= <-] _. split_and!; [done|..].
    + intros o Ho. rewrite D3 in Ho. destruct (Hdel (F1 Hf)) as (_ & _ & E). rewrite E in Ho.
      apply elem_of_filter in Ho as [Ho _]. by apply Ho.
    + exists news. split; [done|]. by apply Hall, F2.
Qed.

(** What a loop over the agreements of [rows] leaves behind. *)
Record expired_all (stop : nat → bool) (rows : list AgreementRow) (s s' : SState) : Prop := {
  ea_inv : reg_inv (sdb s');
  ea_log : slog s' = slog s;
  ea_requests : requests (sdb s') = requests (sdb s);
  ea_pending : ∀ p, p ∈ pending (sdb s') → p ∈ pending (sdb s);
  ea_rows : ∀ k, srow s' k = srow s k ∨
    ∃ r, r ∈ rows ∧ ag_id r = k ∧ srow s' k = Some (touch (snow s) Expired r);
  ea_pushes : ∃ news, ss_pushes s' = ss_pushes s ++ news ∧
    Forall (λ n, n.1.2 = Background ∧ ∃ r, r ∈ rows ∧
      srow s' (ag_id r) = Some (touch (snow s) Expired r) ∧
      expired_message (sdb s) (agreement_of_row r) = Some n.1.1) news;
  ea_all : fine s → (∀ j, stop j = false) →
    (∀ r, r ∈ rows → srow s' (ag_id r) = Some (touch (snow s) Expired r) ∧
      ∀ o, (ag_id r, o) ∉ pending (sdb s')) ∧
    ∃ news, ss_pushes s' = ss_pushes s ++ news ∧ (fst <$> (fst <$> news)) =
      omap (λ r, expired_message (sdb s) (agreement_of_row r)) rows }.

Lemma expired_none stop rows (s : SState) :
  reg_inv (sdb s) → rows = [] ∨ (∃ j, stop j = true) → expired_all stop rows s s.
Proof.
  intros Hi Hr. split; try done.
  - by left.
  - exists []. by rewrite app_nil_r.
  - intros _ Hstop. destruct Hr as [->|[j Hj]]; [|by rewrite Hstop in Hj]. split.
    + intros r Hr. by apply not_elem_of_nil in Hr.
    + exists []. by rewrite app_nil_r.
Qed.

Lemma expired_cons stop r rows (s s1 s2 : SState) :
  ag_id r ∉ ag_id <$> rows → srow s (ag_id r) = Some r → ag_status r = Created →
  expired_one (agreement_of_row r) s s1 → expired_all stop rows s1 s2 →
  expired_all stop (r :: rows) s s2.
Proof.
  intros Hn Hr Hc [Hi1 R1 Q1 O1 L1 N1 F1 P1 (news & E1 & Hd1) Ha1]
    [Hi2 L2 Q2 P2 R2 (more & E2 & Hm2) Ha2]. simpl in *.
  assert (Hmsg : ∀ a, expired_message (sdb s1) a = expired_message (sdb s) a)
    by (intros; unfold expired_message; by rewrite Q1).
  assert (Hown : srow s2 (ag_id r) = srow s1 (ag_id r)).
  { destruct (R2 (ag_id r)) as [|(r' & Hr' & E & _)]; [done|]. destruct Hn. rewrite <- E.
    by apply list_elem_of_fmap_2. }
  rewrite N1 in *. split; try congruence; [auto|..].
  - intros k. destruct (decide (k = ag_id r)) as [->|Hk].
    + rewrite Hown. destruct Hd1 as [[Hd1 _]|(r' & Hr' & _ & Hd1 & _)]; [left; congruence|right].
      exists r. assert (r' = r) as -> by congruence. split_and!; [by left|done..].
    + rewrite <- (R1 k Hk). destruct (R2 k) as [|(r' & Hr' & E & E')]; [by left|right].
      exists r'. split_and!; [by right|done..].
  - exists (news ++ more). split; [by rewrite E2, E1, app_assoc|]. apply Forall_app. split.
    + destruct Hd1 as [[_ ->]|(r' & Hr' & _ & Hd1 & Hn1)]; [done|].
      destruct Hn1 as [->|(msg & ok & Hmsg1 & ->)]; [done|]. constructor; [|done].
      split; [done|]. exists r. assert (r' = r) as -> by congruence.
      split_and!; [by left|by rewrite Hown|done].
    + eapply Forall_impl; [exact Hm2|]. intros n [H1 (r' & H2 & H3 & H4)]. split; [done|].
      exists r'. rewrite <- Hmsg. split_and!; [by right|done..].
  - intros Hf Hstop. destruct (Ha1 Hf r Hr Hc) as (H1 & H2 & news' & E3 & H3).
    destruct (Ha2 (F1 Hf) Hstop) as (H4 & more' & E4 & H5). split.
    + intros r' [->|Hr']%elem_of_cons; [|by apply H4]. rewrite Hown. split; [done|].
      intros o Ho. by apply (H2 o), P2.
    + exists (news' ++ more'). split; [by rewrite E4, E3, app_assoc|].
      rewrite !fmap_app, H3, H5. csimpl.
      rewrite (omap_ext_in_rows _ _ rows Hmsg).
      by destruct (expired_message (sdb s) (agreement_of_row r)).
Qed.

Lemma wp_expire_each stop i rows s :
  alone s → reg_inv (sdb s) → NoDup (ag_id <$> rows) →
  (∀ r, r ∈ rows → srow s (ag_id r) = Some r ∧ ag_status r = Created) →
  wp (expire_each stop i (agreement_of_row <$> rows)) (λ _, expired_all stop rows s) s.
Proof.
  revert i s. induction rows as [|r rows IH]; intros i s Ha Hi Hnd Hrows; simpl.
  { apply wp_ret, expired_none; auto. }
  rewrite fmap_cons in Hnd. apply NoDup_cons in Hnd as [Hn Hnd].
  destruct (stop i) eqn:Hstop; [apply wp_ret, expired_none; eauto|].
  destruct (Hrows r) as [Hr Hc]; [by left|].
  apply wp_bind. eapply wp_mono; [by apply wp_expire_agreement|]. intros u s1 E1.
  eapply wp_mono; [apply IH|].
  - unfold alone. by rewrite (eo_others _ _ _ E1).
  - apply E1.
  - done.
  - intros r' Hr'. destruct (Hrows r') as [H1 H2]; [by right|]. split; [|done].
    rewrite (eo_rows _ _ _ E1); [done|]. simpl. intros E. apply Hn. rewrite <- E.
    by apply list_elem_of_fmap_2.
  - intros u' s2 E2. by apply (expired_cons stop r rows s s1 s2).
Qed.

Definition overdue (threshold : Z) (r : AgreementRow) : bool :=
  status_in [Created] r && (t_deadline (ag_terms r) <? as_i64 threshold).

Lemma listed_limit p d key n :
  reg_inv d → listed p d (limit_if_pos n (order_by key (select p (agreements d)))).
Proof.
  intros Hi. unfold limit_if_pos. destruct (0 <? n); [by apply listed_first|].
  eapply listed_perm; [symmetry; apply order_by_perm|]. by apply listed_select.
Qed.

Lemma overdue_batch batch threshold d :
  reg_inv d →
  ∃ rows, provider_agreements (get_expired_created_agreements batch threshold) d =
      (Ok (agreement_of_row <$> rows), d) ∧ listed (overdue threshold) d rows ∧
    rows = limit_if_pos batch
      (order_by (λ r, [t_deadline (ag_terms r)]) (select (overdue threshold) (agreements d))).
Proof.
  intros Hd. unfold provider_agreements, get_expired_created_agreements.
  rewrite bind_run, casts_deadline_ok by done. rewrite bind_run. unfold agreements_where.
  rewrite bind_run. simpl. unfold mret, SE_ret. rewrite known_rows.
  pose proof (listed_limit (overdue threshold) d (λ r, [t_deadline (ag_terms r)]) batch Hd) as Hl.
  fold (overdue threshold). set (rows := limit_if_pos _ _) in *.
  exists rows. split_and!; [|done|done]. do 3 f_equal. apply filter_all.
  apply Forall_forall. intros r Hr. apply (li_rows _ _ _ Hl) in Hr as [_ Hr].
  unfold overdue, status_in in Hr. apply andb_true_iff in Hr as [Hr _].
  apply bool_decide_eq_true, list_elem_of_singleton in Hr. unfold known_row. by rewrite Hr.
Qed.

(** The chain time the listener recorded. *)
Definition recorded_ts (chain_id : option Z) (d : Db) : option Z :=
  cid ← chain_id; row ← listener d !! as_i64 cid; ts ← ls_last_processed_block_timestamp row;
  Some (as_u64 ts).

Lemma expired_consulted stop rows (s s1 s2 : SState) :
  consulted [] s s1 → expired_all stop rows s1 s2 → expired_all stop rows s s2.
Proof.
  intros [D N P O F L] [H1 H2 H3 H4 H5 H6 H7]. rewrite app_nil_r in L.
  assert (Hr : ∀ k, srow s1 k = srow s k) by (intros; unfold srow; by rewrite D).
  rewrite D, N, P in *. split; try done; [congruence| |auto].
  intros k. rewrite <- Hr. apply H5.
Qed.

(** What a scan found to expire, and did. *)
Definition scan_ok (config : ExpirationConfig) (chain_id : option Z) (stop : nat → bool)
    (s s' : SState) : Prop :=
  ∃ rows, expired_all stop rows s s' ∧
    match recorded_ts chain_id (sdb s) with
    | Some ts =>
        listed (overdue (expiry_threshold config ts)) (sdb s) rows ∧
        (fine s → rows = limit_if_pos (ex_batch_size config)
          (order_by (λ r, [t_deadline (ag_terms r)])
            (select (overdue (expiry_threshold config ts)) (agreements (sdb s)))))
    | None => rows = []
    end.

Lemma scan_idle config chain_id stop s s1 :
  consulted [] s s1 → reg_inv (sdb s) → recorded_ts chain_id (sdb s) = None ∨ ¬ fine s →
  scan_ok config chain_id stop s s1.
Proof.
  intros C1 Hi Hr. exists []. split.
  - eapply expired_consulted; [exact C1|]. apply expired_none; [by rewrite (cs_db _ _ _ C1)|by left].
  - destruct Hr as [-> |Hf]; [done|]. destruct (recorded_ts _ _); [|done]. split; [|done].
    split; [|constructor]. intros r Hr. by apply not_elem_of_nil in Hr.
Qed.

Lemma wp_chain_ts chain_id (Q : option Z → SState → Prop) s :
  alone s → reg_inv (sdb s) →
  (∀ ts s', consulted [] s s' → alone s' →
    (ts = recorded_ts chain_id (sdb s) ∨ ts = None ∧ ¬ fine s) → Q ts s') →
  wp (chain_ts chain_id) Q s.
Proof.
  intros Ha Hi HQ. unfold chain_ts. destruct chain_id as [cid|].
  2:{ apply wp_ret, HQ; [split; by rewrite ?app_nil_r|done|by left]. }
  apply wp_bind, wp_pg_alone; [done|]. eapply wp_query; [reflexivity|..].
  - intros s1 As D1 Hf1. apply wp_ret, HQ; [by apply query_consulted|by eapply aside_alone|left].
    unfold recorded_ts. simpl. destruct (listener (sdb s) !! as_i64 cid) as [row|]; [|done]. simpl.
    by destruct (ls_last_processed_block_timestamp row).
  - intros s1 As D1 Hf. apply wp_ret, HQ; [by apply query_consulted|by eapply aside_alone|by right].
Qed.

Lemma wp_expiration_scan config chain_id stop dormant s :
  alone s → reg_inv (sdb s) →
  wp (expiration_scan config chain_id stop dormant) (λ _, scan_ok config chain_id stop s) s.
Proof.
  intros Ha Hi. unfold expiration_scan. apply wp_bind, wp_chain_ts; [done..|].
  intros ts s1 C1 Ha1 Hts. assert (D1 := cs_db _ _ _ C1).
  destruct ts as [ts|].
  2:{ apply wp_ret, scan_idle; [done..|]. destruct Hts as [<-|[_ Hf]]; auto. }
  destruct Hts as [Hts|[[=] _]].
  destruct (overdue_batch (ex_batch_size config) (expiry_threshold config ts) (sdb s))
    as (rows & Hrun & Hl & Hrows); [done|].
  apply wp_bind, wp_pg_alone; [done|].
  apply (wp_query _ (agreement_of_row <$> rows)); [by rewrite D1|..].
  2:{ intros s2 As2 D2 Hf. assert (Hf' : ¬ fine s) by (intros Hf'; by apply Hf, C1).
      apply wp_ret, scan_idle; [|done|by right]. eapply (consulted_trans [] []); [exact C1|].
      apply query_consulted; [done..|]. by intros. }
  intros s2 As2 D2 F2. pose proof (query_consulted _ _ As2 D2 F2) as C2.
  assert (Ha2 : alone s2) by by eapply aside_alone.
  pose proof (consulted_trans [] [] _ _ _ C1 C2) as C12.
  assert (Hfin : ∀ s3, expired_all stop rows s2 s3 → scan_ok config chain_id stop s s3).
  { intros s3 H3. exists rows. split; [by eapply expired_consulted|]. by rewrite <- Hts. }
  assert (Hi2 : reg_inv (sdb s2)) by by rewrite D2, D1.
  destruct rows as [|r0 rest]; [apply wp_ret, Hfin, expired_none; auto|].
  apply wp_bind. eapply wp_mono; [apply (wp_expire_each stop 0 (r0 :: rest)); [done..| |]|].
  - apply Hl.
  - intros r Hr. apply (li_rows _ _ _ Hl) in Hr as [Hr Hp]. unfold srow. rewrite D2, D1.
    split; [done|]. unfold overdue, status_in in Hp. apply andb_true_iff in Hp as [Hp _].
    by apply bool_decide_eq_true, list_elem_of_singleton in Hp.
  - intros u s3 H3. by apply wp_ret, Hfin.
Qed.

(** ** Other tasks writing meanwhile *)

(** What a scan may write to the database it finds at that moment: an offer
    that is [Created] and overdue becomes [Expired]; what an overdue one was to
    replace is forgotten. *)
Definition expiring (threshold now : Z) (d d' : Db) : Prop :=
  ∃ r, agreements d !! ag_id r = Some r ∧ t_deadline (ag_terms r) < as_i64 threshold ∧
    (ag_status r = Created ∧
       d' = set_agreements (<[ag_id r := touch now Expired r]> (agreements d)) d ∨
     d' = set_pending (filter (λ p, p.1 ≠ ag_id r) (pending d)) d).

Definition past_due (threshold : Z) (id : N) (s : SState) : Prop :=
  ∃ r, srow s id = Some r ∧ t_deadline (ag_terms r) < as_i64 threshold.

Lemma past_due_turns threshold id P s s' :
  clean s → turns_of P s s' → past_due threshold id s → past_due threshold id s'.
Proof.
  intros Hc T (r & Hr & Hd). destruct (turns_row _ _ _ _ _ T Hc Hr) as (r' & Hr' & Hf).
  exists r'. by rewrite (fr_terms _ _ Hf).
Qed.

Lemma owp_expire_agreement threshold a s :
  clean s → past_due threshold (ia_id a) s →
  owp (expiring threshold) (expire_agreement a) (λ _ _, True) s.
Proof.
  intros Hc Hp. assert (Hfound : ∀ s1, interfered s s1 → clean s1 → ∃ r,
    agreements (sdb s1) !! ag_id r = Some r ∧ ag_id r = ia_id a ∧
    t_deadline (ag_terms r) < as_i64 threshold).
  { intros s1 H1 Hc1. destruct (past_due_turns threshold (ia_id a) (λ _ _ _, False) s s1)
      as (r & Hr & Hd); [done|apply rtc_once; by left|done|].
    pose proof (inv_key _ (cn_inv _ Hc1) _ _ Hr) as Hk. exists r. by rewrite Hk. }
  unfold expire_agreement. apply owp_bind, owp_pg; [done|intros; apply mark_inv|..].
  { intros s1 d' H1 Hc1 ->. destruct (Hfound s1 H1 Hc1) as (r & Hr & Hid & Hd).
    rewrite expired_row_op by apply Hc1. rewrite <- Hid, Hr. unfold guard_row.
    destruct (status_in [Created] r) eqn:Hs; simpl; [right|left; by apply set_same_row].
    exists r. split_and!; [done..|]. left. split; [|done]. unfold status_in in Hs.
    by apply bool_decide_eq_true, list_elem_of_singleton in Hs. }
  intros marked s1 s2 _ _ _ T2 _ _. destruct marked as [[]|e]; [|by apply owp_ret].
  pose proof (turns_clean _ _ _ T2 Hc) as Hc2.
  pose proof (past_due_turns _ _ _ _ _ Hc T2 Hp) as Hp2. clear Hfound T2 s1 Hp Hc s.
  apply owp_bind, owp_pg; [done|intros; apply delete_pending_inv|..].
  { intros s3 d' H3 Hc3 ->. right.
    destruct (past_due_turns threshold (ia_id a) (λ _ _ _, False) s2 s3) as (r & Hr & Hd);
      [done|apply rtc_once; by left|done|].
    pose proof (inv_key _ (cn_inv _ Hc3) _ _ Hr) as Hk. exists r. rewrite Hk. split_and!; [done..|].
    by right. }
  intros deleted s3 s4 _ _ _ T4 _ _. pose proof (turns_clean _ _ _ T4 Hc2) as Hc4.
  apply owp_bind, owp_query; [done|done|]. intros [[request|]|e] s5 s6 _ _ _ T6 _ _;
    [|by apply owp_ret..].
  apply owp_bind, owp_push; [by eapply turns_clean|]. intros ok s7 _. by apply owp_ret.
Qed.

Lemma owp_expire_each threshold stop i listed s :
  clean s → (∀ a, a ∈ listed → past_due threshold (ia_id a) s) →
  owp (expiring threshold) (expire_each stop i listed) (λ _ _, True) s.
Proof.
  revert i s. induction listed as [|a rest IH]; intros i s Hc Hl; simpl; [by apply owp_ret|].
  destruct (stop i); [by apply owp_ret|]. apply owp_bind.
  eapply owp_mono; [apply owp_expire_agreement; [done|apply Hl; by left]|]. intros u s1 T1 _.
  apply IH; [by eapply turns_clean|]. intros a' Ha. eapply past_due_turns; [done..|].
  apply Hl. by right.
Qed.

(** The time the scan went by, and what it wrote since. *)
Definition scan_turns (config : ExpirationConfig) (chain_id : option Z) (s s' : SState) : Prop :=
  ∃ s1, (s1 = s ∨ interfered s s1) ∧
    turns_of (match recorded_ts chain_id (sdb s1) with
           | Some ts => expiring (expiry_threshold config ts)
           | None => λ _ _ _, False
           end) s1 s'.

(** Listing and expiring, once the chain's time is known. *)
Lemma owp_expire_listed config stop ts s :
  clean s →
  owp (expiring (expiry_threshold config ts))
    (listed ← pg (λ _, provider_agreements
               (get_expired_created_agreements (ex_batch_size config) (expiry_threshold config ts)));
     match listed with
     | Err _ | Ok [] => mret 0
     | Ok expired => _ ← expire_each stop 0 expired; mret 0
     end) (λ _ _, True) s.
Proof.
  intros Hc. set (thr := expiry_threshold config ts).
  apply owp_bind, owp_query; [done|intros; unfold provider_agreements, get_expired_created_agreements;
    solve_reads|]. intros l s1 s2 H1 Hc1 As T2 D2 Hl.
  pose proof (turns_clean _ _ _ T2 Hc) as Hc2. destruct l as [l|e]; [|by apply owp_ret].
  specialize (Hl l eq_refl).
  destruct (overdue_batch (ex_batch_size config) thr (sdb s1)) as (rows & Hrun & Hrows & _);
    [apply Hc1|]. rewrite Hrun in Hl. injection Hl as <-.
  assert (Hdue : ∀ a, a ∈ agreement_of_row <$> rows → past_due thr (ia_id a) s2).
  { intros a (r & -> & Hr)%list_elem_of_fmap. apply (li_rows _ _ _ Hrows) in Hr as [Hr Ho].
    exists r. unfold srow. rewrite D2. split; [done|]. unfold overdue in Ho.
    by apply andb_true_iff in Ho as [_ Ho%Z.ltb_lt]. }
  destruct (agreement_of_row <$> rows) as [|a rest]; [by apply owp_ret|].
  apply owp_bind. eapply owp_mono; [by apply owp_expire_each|]. intros u s3 _ _. by apply owp_ret.
Qed.

Lemma wp_scan_turns config chain_id stop dormant s :
  clean s →
  wp (expiration_scan config chain_id stop dormant) (λ _, scan_turns config chain_id s) s.
Proof.
  intros Hc. unfold expiration_scan, chain_ts. apply wp_bind. destruct chain_id as [cid|].
  2:{ apply wp_ret, wp_ret. exists s. split; [by left|]. done. }
  apply wp_bind, wp_pg_shared. intros s1 H1. destruct (interfered_evolves _ _ H1 Hc) as [_ Hc1].
  assert (Hq : ∀ P s2, aside s1 s2 → sdb s2 = sdb s1 → turns_of P s1 s2).
  { intros P s2 [] D. by apply quiet_turn. }
  eapply wp_query; [reflexivity|..].
  - intros s2 As D2 _. apply wp_ret.
    match goal with |- wp (match ?x with Some _ => _ | None => _ end) _ _ =>
      replace x with (recorded_ts (Some cid) (sdb s1)) end.
    2:{ unfold recorded_ts. simpl. destruct (listener (sdb s1) !! as_i64 cid) as [row|]; [|done].
        simpl. by destruct (ls_last_processed_block_timestamp row). }
    destruct (recorded_ts (Some cid) (sdb s1)) as [ts|] eqn:Hts.
    2:{ apply wp_ret. exists s1. split; [by right|]. rewrite Hts. by apply Hq. }
    eapply wp_mono; [apply (owp_expire_listed config stop ts s2)|].
    { eapply turns_clean; [by apply (Hq (λ _ _ _, False))|done]. }
    intros u s3 [T3 _]. exists s1. split; [by right|]. rewrite Hts.
    eapply turns_trans; [by apply Hq|done].
  - intros s2 As D2 _. apply wp_ret, wp_ret. exists s1. split; [by right|]. by apply Hq.
Qed.

(** C23: a scan, with connections lost anywhere.  Whatever other tasks write to
    the database between its statements, each write of the scan's own finds the
    agreement [Created] at that moment, with a deadline more than the grace period
    behind the chain time the listener had recorded when the scan read it, and
    makes it [Expired]; or it forgets what such an overdue agreement was to
    replace.  It never goes by the wall clock, and without a recorded chain time
    it writes nothing.  With no other task writing while it runs: only the status
    and the time of the update of such agreements change; the jobs it queues are
    reassessments, with the request's current target, of agreements it expired;
    and with no connection lost and no stop either, every overdue agreement of the
    batch, the earliest deadlines first, is expired, no longer replaces another
    agreement, and has its request reassessed, exactly once each. *)
Theorem expires_only_overdue config chain_id stop dormant s n s' :
  clean s → expiration_scan config chain_id stop dormant s = (n, s') →
  scan_turns config chain_id s s' ∧
  (alone s →
   scan_ok config chain_id stop s s' ∧
   ∀ k, srow s' k = srow s k ∨ ∃ r ts, recorded_ts chain_id (sdb s) = Some ts ∧
     srow s k = Some r ∧ ag_status r = Created ∧
     t_deadline (ag_terms r) < as_i64 (Z.max (ts - ex_grace_secs config) 0) ∧
     srow s' k = Some (touch (snow s) Expired r)).
Proof.
  intros Hc Hrun. split; [exact (wp_run _ _ _ _ _ (wp_scan_turns config chain_id stop dormant s Hc) Hrun)|].
  intros Ha. pose proof (cn_inv _ Hc) as Hi.
  pose proof (wp_run _ _ _ _ _ (wp_expiration_scan config chain_id stop dormant s Ha Hi) Hrun) as Hs.
  split; [done|]. destruct Hs as (rows & He & Hl). intros k.
  destruct (ea_rows _ _ _ _ He k) as [|(r & Hr & <- & Hk)]; [by left|right].
  destruct (recorded_ts chain_id (sdb s)) as [ts|]; [|rewrite Hl in Hr; by apply not_elem_of_nil in Hr].
  destruct Hl as [Hl _]. apply (li_rows _ _ _ Hl) in Hr as [Hr Hp]. exists r, ts.
  unfold overdue, status_in in Hp. apply andb_true_iff in Hp as [H1 H2].
  apply bool_decide_eq_true, list_elem_of_singleton in H1. apply Z.ltb_lt in H2. done.
Qed.

End expiration.

(** ** Witness *)

Definition demo_overdue : Db :=
  run_ops [SetTarget 10 1 5 7 42161 2; Register 20 (demo_params 11 31);
    ListenerState 42161 900 None (Some 1900000600)] empty_db.

(** Another task has the listener's acceptance of 11 recorded between the
    listing and the mark: the scan leaves it alone. *)
Definition demo_raced : SState Script (list Message) :=
  demo_run demo_overdue [] [[]; []; [Reconcile 50 11 true None]].

Lemma expires_only_overdue_witness :
  (∃ s', expiration_scan (mkExpirationConfig 100 300) (Some 42161) (λ _, false) 0
      (demo_run demo_overdue [] []) = (0, s') ∧
    db_status (sdb s') 11 = Some Expired ∧
    scan_ok (mkExpirationConfig 100 300) (Some 42161) (λ _, false) (demo_run demo_overdue [] []) s') ∧
  (∃ s', expiration_scan (mkExpirationConfig 100 300) (Some 42161) (λ _, false) 0 demo_raced = (0, s') ∧
    db_status (sdb s') 11 = Some AcceptedOnChain ∧
    scan_turns (mkExpirationConfig 100 300) (Some 42161) demo_raced s').
Proof.
  assert (Hi : reg_inv demo_overdue) by (apply run_ops_inv; by repeat constructor).
  split.
  - destruct (expiration_scan (mkExpirationConfig 100 300) (Some 42161) (λ _, false) 0
      (demo_run demo_overdue [] [])) as [n s'] eqn:E. exists s'.
    assert (Hn : n = 0 ∧ db_status (sdb s') 11 = Some Expired)
      by (vm_compute in E; injection E as <- <-; split; reflexivity).
    destruct Hn as [-> Hs]. split; [reflexivity|]. split; [exact Hs|].
    assert (Hc : clean (demo_run demo_overdue [] [])) by (split; [exact Hi|by repeat constructor]).
    exact (proj1 (proj2 (expires_only_overdue (mkExpirationConfig 100 300) (Some 42161) (λ _, false) 0
      (demo_run demo_overdue [] []) 0 s' Hc E) eq_refl)).
  - destruct (expiration_scan (mkExpirationConfig 100 300) (Some 42161) (λ _, false) 0 demo_raced)
      as [n s'] eqn:E. exists s'.
    assert (Hn : n = 0 ∧ db_status (sdb s') 11 = Some AcceptedOnChain)
      by (vm_compute in E; injection E as <- <-; split; reflexivity).
    destruct Hn as [-> Hs]. split; [reflexivity|]. split; [exact Hs|].
    assert (Hc : clean demo_raced) by (split; [exact Hi|by repeat constructor]).
    exact (proj1 (expires_only_overdue (mkExpirationConfig 100 300) (Some 42161) (λ _, false) 0
      demo_raced 0 s' Hc E)).
Defined.

End Expiration.
