(* ===== verification/Selection.v ===== *)
(** * Choosing indexers (worker/handlers/selection_context.rs,
    worker/handlers/selection_helpers.rs, worker/unresponsive_breaker.rs)

    What dipper tells the selection service (IISA, dipper-iisa/src/api.rs), the
    price it would offer a pick, and the breaker that suspects dipper itself
    when many indexers go unresponsive at once.  IISA is behind a class, and
    nothing is assumed of its answers; the networks registry and the RFC 3339
    parser are parameters.  [f64] is binary64 as the Standard Library specifies
    it, so the conversions compute. *)

From S2P Require Import Prelude Schema Registry RegistryInv RegistryRuns RegistryOps RegistryQueries.
From S2P Require Import JobQueue Worker Rca CancelDispatch CancelDispatchProps.
From S2P Require Import ChainEvents ChainListener ChainReconcile Services Liveness.
From Stdlib Require Import SpecFloat.
From stdpp Require Import pretty.
Import Schema Registry RegistryInv RegistryRuns RegistryOps RegistryQueries.
Import JobQueue Worker Rca CancelDispatch CancelDispatchProps ChainEvents ChainListener.
Import ChainReconcile Services Liveness.
Local Open Scope Z_scope.

Create HintDb reads.

Module Selection.

(** ** Floating point *)

Definition f64 : Type := spec_float.
Definition f64_mul : f64 → f64 → f64 := SFmul 53 1024.
Definition f64_add : f64 → f64 → f64 := SFadd 53 1024.
Definition f64_zero : f64 := S754_zero false.

Definition u128_max : Z := 340282366920938463463374607431768211455.

(** [x as u128]: truncated, clamped, and 0 for NaN. *)
Definition f64_to_u128 (x : f64) : Z :=
  match x with
  | S754_nan | S754_zero _ | S754_infinity true | S754_finite true _ _ => 0
  | S754_infinity false => u128_max
  | S754_finite false m e =>
      Z.min (if 0 <=? e then Z.pos m * 2 ^ e else Z.pos m / 2 ^ (- e)) u128_max
  end.

Definition is_finite (x : f64) : bool :=
  match x with S754_zero _ | S754_finite _ _ _ => true | _ => false end.

(** [u128::div_ceil] *)
Definition div_ceil (a b : Z) : Z := (a + b - 1) / b.

(** ** What IISA is asked and answers *)

Record PriceCeilings : Type := mkCeilings {
  pc_max_grt_per_30_days : option f64;
  pc_max_grt_per_billion_entities_per_30_days : option f64 }.

Record SelectedIndexer : Type := mkSelected {
  si_id : N;
  si_min_grt_per_30_days : option f64;
  si_min_grt_per_billion_entities_per_30_days : option f64 }.

Record SelectionContext : Type := mkContext {
  sx_existing_indexers : list N;
  sx_pending_agreements : gmap N (list N);
  sx_indexer_denylist : list N;
  sx_declined_indexers : gmap N (list N);
  sx_chain_id : option string;
  sx_max_grt_per_30_days : option f64;
  sx_max_grt_per_billion_entities_per_30_days : option f64;
  sx_optimistic_dips_fees : gmap N f64 }.

Record DipsAcceptingSnapshot : Type := mkSnapshot {
  ds_computed_at : option string;
  ds_indexers : list N }.

Inductive SelectionError : Type :=
| IisaServiceUnavailable
| IisaRejected (status : Z) (body : string)
| SelectionFailed.

Class CandidateSelection (I : Type) : Type := {
  select_indexers : N → Z → SelectionContext → I → result SelectionError (list SelectedIndexer) * I;
  dips_accepting_indexers :
    string → PriceCeilings → I → result SelectionError DipsAcceptingSnapshot * I }.

(** ** Prices (selection_helpers.rs) *)

Definition SECONDS_PER_30_DAYS : Z := 2592000.
Definition WEI_PER_GRT : Z := 1000000000000000000.

Definition grt_per_30_days_to_wei_per_second (grt : f64) : Z :=
  div_ceil (f64_to_u128 (f64_mul grt (as_f64 WEI_PER_GRT))) SECONDS_PER_30_DAYS.

Definition grt_per_billion_entities_per_30_days_to_wei_per_entity_per_second (grt : f64) : Z :=
  div_ceil (f64_to_u128 (f64_div (f64_mul grt (as_f64 WEI_PER_GRT)) (as_f64 1000000000)))
    SECONDS_PER_30_DAYS.

(** [cap.is_none_or(|cap| price <= cap)] *)
Definition within_cap (price : f64) (cap : option f64) : bool :=
  is_finite price && SFleb f64_zero price
  && match cap with None => true | Some c => SFleb price c end.

Record IndexingAgreementChainPrices : Type := mkPrices {
  cp_tokens_per_second : Z;
  cp_tokens_per_entity_per_second : Z }.

Definition resolve_pricing (selected : SelectedIndexer) (ceilings : PriceCeilings)
    (fallback_prices : option IndexingAgreementChainPrices) : option (Z * Z) :=
  match si_min_grt_per_30_days selected with
  | Some grt_per_30d =>
      let grt_per_billion := si_min_grt_per_billion_entities_per_30_days selected in
      if negb (within_cap grt_per_30d (pc_max_grt_per_30_days ceilings))
         || match grt_per_billion with
            | Some price =>
                negb (within_cap price (pc_max_grt_per_billion_entities_per_30_days ceilings))
            | None => false
            end
      then None
      else Some (grt_per_30_days_to_wei_per_second grt_per_30d,
                 from_option grt_per_billion_entities_per_30_days_to_wei_per_entity_per_second
                   0 grt_per_billion)
  | None =>
      (λ p, (cp_tokens_per_second p, cp_tokens_per_entity_per_second p)) <$> fallback_prices
  end.

(** [get_network_by_caip2_id] answers a network's id. *)
Definition resolve_chain_name (get_network_by_caip2_id : string → option string)
    (additional_networks : gmap Z string) (chain_id : Z) : option string :=
  match get_network_by_caip2_id ("eip155:" +:+ pretty chain_id) with
  | Some id => Some id
  | None => additional_networks !! chain_id
  end.

(** ** The selection context (selection_context.rs) *)

Definition is_active_agreement (status : AgreementStatus) : bool :=
  match status with Created | AcceptedOnChain => true | _ => false end.

(** [for x in xs { if !l.contains(&x) { l.push(x) } }] *)
Definition push_missing (xs l : list N) : list N :=
  foldl (λ l x, if bool_decide (x ∈ l) then l else l ++ [x]) l xs.

Definition indexer_of (a : IndexingAgreement) : N := ix_id (ia_indexer a).

Definition exclude_cancelling_indexers (declined : gmap N (list N)) (deployment_id : N)
    (agreements : list IndexingAgreement) : gmap N (list N) :=
  let cancelling := indexer_of <$> filter (λ a, ia_status a = Cancelling) agreements in
  match cancelling with
  | [] => declined
  | _ => <[deployment_id := push_missing cancelling (default [] (declined !! deployment_id))]> declined
  end.

Definition offerable_indexers (pool : list N) (deployment_id : N)
    (agreements : list IndexingAgreement) (declined : gmap N (list N))
    (denylist unresponsive held : list N) : list N :=
  let excluded : gset N :=
    list_to_set (indexer_of <$> filter (λ a, is_active_agreement (ia_status a) = true
                                          ∨ ia_status a = Cancelling) agreements)
    ∪ list_to_set (default [] (declined !! deployment_id))
    ∪ list_to_set (denylist ++ unresponsive ++ held) in
  filter (λ id, id ∉ excluded) pool.

Record AgreementFeeRate : Type := mkFeeRate {
  fr_indexer_id : N;
  fr_deployment_id : N;
  fr_tokens_per_second : f64;
  fr_tokens_per_entity_per_second : f64 }.

(** [U256::to::<u128>()] panics past the width: [None]. *)
Definition to_u128 (v : Z) : option Z := if v <=? u128_max then Some v else None.

Definition fee_rate (r : AgreementRow) : option AgreementFeeRate :=
  let meta := t_metadata (ag_terms r) in
  base ← to_u128 (tm_tokens_per_second meta);
  entity ← to_u128 (tm_tokens_per_entity_per_second meta);
  Some (mkFeeRate (ag_indexer r) (tm_deployment meta) (as_f64 base) (as_f64 entity)).

Definition get_agreement_fee_rates : DbM (option (list AgreementFeeRate)) :=
  rows ← agreements_where (status_in [Created; AcceptedOnChain; Cancelling]);
  mret (mapM fee_rate rows).

Definition SECONDS_PER_28_DAYS : Z := 86400 * 28.

Definition wei_per_second_to_grt_per_28d (wei_per_second : f64) : f64 :=
  f64_div (f64_mul wei_per_second (as_f64 SECONDS_PER_28_DAYS)) (as_f64 WEI_PER_GRT).

Definition rate_with_entities (entity_counts : gmap (N * N) Z) (rate : AgreementFeeRate) : f64 :=
  match entity_counts !! (fr_indexer_id rate, fr_deployment_id rate) with
  | Some entities =>
      f64_add (fr_tokens_per_second rate)
        (f64_mul (fr_tokens_per_entity_per_second rate) (as_f64 entities))
  | None => fr_tokens_per_second rate
  end.

Definition sum_fee_rates (rates : list AgreementFeeRate) (entity_counts : gmap (N * N) Z)
    : gmap N f64 :=
  wei_per_second_to_grt_per_28d <$>
    foldl (λ fees rate,
      <[fr_indexer_id rate :=
          f64_add (default f64_zero (fees !! fr_indexer_id rate))
            (rate_with_entities entity_counts rate)]> fees) ∅ rates.

(** ** The mass-unresponsive breaker *)

Section breaker.
(** [OffsetDateTime::parse(.., &Rfc3339)], in nanoseconds. *)
Context (parse_rfc3339 : string → option Z).

Definition UnresponsiveBreaker : Type := gmap string bool.

(** [time::Duration::hours], in nanoseconds; it panics when the seconds do not
    fit their 64 bits. *)
Definition time_hours (hours : Z) : option Z :=
  let seconds := hours * 3600 in
  if (i64_min <=? seconds) && (seconds <=? i64_max) then Some (seconds * 1000000000) else None.

(** The fraction of the pool that is unresponsive, if the snapshot can be
    trusted; [None] around it is a panic. *)
Definition unresponsive_fraction (now_utc : Z) (unresponsive : list N)
    (snapshot : option DipsAcceptingSnapshot) (max_age_hours : Z) : option (option f64) :=
  match (snap ← snapshot;
         text ← ds_computed_at snap;
         computed_at ← parse_rfc3339 text;
         Some (snap, computed_at)) with
  | None => Some None
  | Some (snap, computed_at) =>
      max_age ← time_hours max_age_hours;
      Some (
        if max_age <? now_utc - computed_at then None
        else
          let pool : gset N := list_to_set (ds_indexers snap) in
          if bool_decide (pool = ∅) then None
          else
            let benched := length (filter (λ id, id ∈ pool) unresponsive) in
            Some (f64_div (as_f64 (Z.of_nat benched)) (as_f64 (Z.of_nat (size pool)))))
  end.

(** [UnresponsiveBreaker::evaluate]; it panics when its mutex is poisoned. *)
Definition breaker_evaluate (now_utc : Z) (chain : string) (unresponsive : list N)
    (snapshot : option DipsAcceptingSnapshot) (trip reset : f64) (max_age_hours : Z)
    (poisoned : bool) (state : UnresponsiveBreaker) : option (bool * UnresponsiveBreaker) :=
  usable ← unresponsive_fraction now_utc unresponsive snapshot max_age_hours;
  match usable with
  | None => Some (false, state)
  | Some fraction =>
      if poisoned then None
      else
        let tripped := default false (state !! chain) in
        Some (
          if negb tripped && SFltb trip fraction then (true, <[chain := true]> state)
          else if tripped && SFltb fraction reset then (false, <[chain := false]> state)
          else (tripped, state))
  end.

(** An age limit within its width and a mutex that is not poisoned. *)
Lemma breaker_evaluate_runs now_utc chain unresponsive snapshot trip reset max_age_hours state :
  is_Some (time_hours max_age_hours) →
  is_Some (breaker_evaluate now_utc chain unresponsive snapshot trip reset max_age_hours false state).
Proof.
  intros [h Hh]. unfold breaker_evaluate.
  assert (Hf : is_Some (unresponsive_fraction now_utc unresponsive snapshot max_age_hours)).
  { unfold unresponsive_fraction. rewrite Hh. simpl. by repeat case_match. }
  destruct Hf as [[f|] ->]; simpl; by eexists.
Qed.
End breaker.

(** When each chain's snapshot was fetched, by the monotonic clock. *)
Definition DipsAcceptingCache : Type := gmap string (Z * DipsAcceptingSnapshot).

(** A cached snapshot that is still within the cache's time to live. *)
Definition cached (ttl looked_at : Z) (chain : string) (cache : DipsAcceptingCache)
    : option DipsAcceptingSnapshot :=
  entry ← cache !! chain;
  if looked_at - entry.1 <? ttl then Some entry.2 else None.

(** [DipsAcceptingCache::get_or_fetch]; the cache is read at [looked_at] and
    filled at [stored_at]. *)
Definition get_or_fetch {I} `{!CandidateSelection I} (ttl looked_at stored_at : Z) (chain : string)
    (ceilings : PriceCeilings) (cache : DipsAcceptingCache) (iisa : I)
    : option DipsAcceptingSnapshot * DipsAcceptingCache * I :=
  match cached ttl looked_at chain cache with
  | Some snapshot => (Some snapshot, cache, iisa)
  | None =>
      match dips_accepting_indexers chain ceilings iisa with
      | (Ok snapshot, iisa') => (Some snapshot, <[chain := (stored_at, snapshot)]> cache, iisa')
      | (Err _, iisa') => (None, cache, iisa')
      end
  end.

End Selection.
