(* ===== verification/Reassess.v ===== *)
(** * Reassessing a request (worker/handlers/reassess_indexing_request.rs)

    A pass compares the request's agreements with the group IISA wants for it,
    registers agreements for the picks it can offer to and the caps admit,
    pairs each with an agreement it replaces, and ends the agreements nothing
    replaces.  A pass runs alone under the reassess lock; the memory the jobs
    share (the lock, the breaker, the snapshot cache), what is announced and
    the wake-up of the chain listener are the state of a job around the
    services' own, with a record of what IISA was asked and answered.  A panic is
    [None].  The network topology, fresh nonces, the
    clocks, the order a hash set is iterated in, the hashes and the ABI
    encoding are parameters. *)

From S2P Require Import Prelude Schema Registry RegistryInv RegistryRuns RegistryOps RegistryQueries.
From S2P Require Import JobQueue Worker Rca CancelDispatch CancelDispatchProps.
From S2P Require Import ChainEvents ChainListener ChainReconcile Services Liveness Selection.
From Stdlib Require Import SpecFloat.
Import Schema Registry RegistryInv RegistryRuns RegistryOps RegistryQueries.
Import JobQueue Worker Rca CancelDispatch CancelDispatchProps ChainEvents ChainListener.
Import ChainReconcile Services Liveness Selection.
Local Open Scope Z_scope.

Module Reassess.

(** ** Data *)

(** The lifecycle events a pass produces. *)
Inductive LifecycleEvent : Type :=
| NIndexersUnavailable (deployment_id : N) (network agreements_requested candidates_returned : Z)
| Proposed (deployment_id : N) (network : Z) (candidates : list N) (request_expires_at : Z).

(** The part of [IndexingAgreementConfig] only a pass reads, and the cancel
    dispatch's part. *)
Record OfferConfig : Type := mkOfferConfig {
  oc_agreement_conf : IndexingAgreementConfig;
  oc_data_service : N;
  oc_recurring_agreement_manager : N;
  oc_max_agreement_grt_per_30_days : f64;
  oc_max_seconds_per_collection : Z;
  oc_min_seconds_per_collection : Z;
  oc_duration_seconds : Z;
  oc_deadline_seconds : Z;
  oc_max_grt_per_30_days : gmap string f64;
  oc_fallback_max_grt_per_30_days : f64;
  oc_max_grt_per_billion_entities_per_30_days : f64;
  oc_lookbacks : Lookbacks;
  oc_unresponsive_indexer_lookback_days : Z;
  oc_mass_unresponsive_trip_fraction : f64;
  oc_mass_unresponsive_reset_fraction : f64;
  oc_dips_accepting_snapshot_max_age_hours : Z;
  oc_dips_accepting_cache_ttl : Z;
  oc_max_in_flight_offers_per_indexer : option Z;
  oc_max_in_flight_offers_total : option Z }.

Definition max_grt_per_30_days_for (conf : OfferConfig) (chain : string) : f64 :=
  default (oc_fallback_max_grt_per_30_days conf) (oc_max_grt_per_30_days conf !! chain).

Definition CONDITION_AGREEMENT_OWNER : Z := Z.shiftl 1 1.

Record NewOffer : Type := mkNewOffer {
  no_indexer : Indexer;
  no_tokens_per_second : Z;
  no_tokens_per_entity_per_second : Z }.

Inductive Unpaired : Type :=
| Moved (status : AgreementStatus)
| AlreadyEnding
| UnpairedFailed.

(** ** Deciding *)

Definition reserved_cancel_count (cancels total_adds admitted_adds : Z) : Z :=
  Z.min cancels total_adds - Z.min cancels admitted_adds.

Definition should_defer_saturated (global_in_flight : Z) (global_cap : option Z)
    (num_candidates active_count : Z) : bool :=
  match global_cap with
  | Some cap => (cap <=? global_in_flight) && (active_count <? num_candidates)
  | None => false
  end.

(** The bytes of a UUID. *)
Fixpoint uuid_bytes (n : nat) (id : Z) : list Z :=
  match n with O => [] | Datatypes.S n' => id mod 256 :: uuid_bytes n' (id / 256) end.

Definition pacing_defer_delay (indexing_request_id : N) : Z :=
  from_secs (12 + sum (uuid_bytes 16 (Z.of_N indexing_request_id)) mod 7).

(** One turn of the loop: the admitted so far, how many per indexer, and in
    all. *)
Definition admit_one (in_flight_per_indexer : gmap N Z) (global_in_flight : Z)
    (per_indexer_cap global_cap : option Z)
    (acc : list N * gmap N Z * Z) (id : N) : list N * gmap N Z * Z :=
  let '(admitted, per_indexer, total) := acc in
  if match global_cap with Some cap => cap <=? global_in_flight + total | None => false end
  then acc
  else if match per_indexer_cap with
          | Some cap => cap <=? default 0 (in_flight_per_indexer !! id)
                                + default 0 (per_indexer !! id)
          | None => false
          end
  then acc
  else (admitted ++ [id], <[id := default 0 (per_indexer !! id) + 1]> per_indexer, total + 1).

Definition plan_capped_additions (candidates : list N) (in_flight_per_indexer : gmap N Z)
    (global_in_flight : Z) (per_indexer_cap global_cap : option Z) : list N * Z :=
  let '(admitted, _, _) :=
    foldl (admit_one in_flight_per_indexer global_in_flight per_indexer_cap global_cap)
      ([], ∅, 0) (order_by (λ id, [Z.of_N id]) candidates) in
  (admitted, Z.of_nat (length candidates) - Z.of_nat (length admitted)).

(** [NetworkProviderService::get_indexer_by_id], over the topology's URLs. *)
Definition get_indexer_by_id (get_indexer_url : N → option string) (indexer_id : N)
    : option Indexer :=
  mkIndexer indexer_id <$> get_indexer_url indexer_id.

Definition new_offer (get_indexer_url : N → option string) (pick : SelectedIndexer)
    (ceilings : PriceCeilings) (fallback_prices : option IndexingAgreementChainPrices)
    : option NewOffer :=
  indexer ← get_indexer_by_id get_indexer_url (si_id pick);
  prices ← resolve_pricing pick ceilings fallback_prices;
  Some (mkNewOffer indexer prices.1 prices.2).

(** The offers to the new picks, and how many picks have none. *)
Definition gather_offers (offer : SelectedIndexer → option NewOffer) (current_ids held : gset N)
    (target_selected : list SelectedIndexer) : gmap N NewOffer * Z :=
  foldl (λ acc pick, match offer pick with
                     | Some o => (<[si_id pick := o]> acc.1, acc.2)
                     | None => (acc.1, acc.2 + 1)
                     end) (∅, 0)
    (filter (λ s, si_id s ∉ current_ids ∧ si_id s ∉ held) target_selected).

Definition ids_of_agreements (active : list IndexingAgreement) : gset N :=
  list_to_set (indexer_of <$> active).

(** What the agreements kept and the held slots leave of the target. *)
Definition room (num_candidates : Z) (current_ids held target_ids : gset N) : Z :=
  sat_sub num_candidates (Z.of_nat (size held + size (current_ids ∩ target_ids))).

Definition picks_to_add (target_selected : list SelectedIndexer) (offers : gmap N NewOffer)
    (room : Z) : gset N :=
  list_to_set (take (Z.to_nat room)
    (filter (λ id, is_Some (offers !! id)) (si_id <$> target_selected))).

(** [as i32] *)
Definition as_i32 (v : Z) : Z :=
  let m := v mod 4294967296 in if m <=? i32_max then m else m - 4294967296.

(** ** A job's state *)

(** What IISA was asked for a request, and its answer. *)
Record Asked : Type := mkAsked {
  as_deployment : N;
  as_num_candidates : Z;
  as_context : SelectionContext;
  as_answer : result SelectionError (list SelectedIndexer) }.

(** The breaker's mutex and the lock of the RCA domain: whether a task that
    held it has panicked. *)
Record Locks : Type := mkLocks {
  lk_breaker_poisoned : bool;
  lk_domain_poisoned : bool }.

Section reassess.
Context {C W I : Type} `{!ChainClient C} `{!ChainClock C} `{!MessageQueue W}.
Context `{!CandidateSelection I}.
Notation S := (S C W).
Notation SState := (SState C W).

Record Memory : Type := mkMemory {
  me_iisa : I;
  me_locked : bool;
  me_breaker : UnresponsiveBreaker;
  me_cache : DipsAcceptingCache;
  me_events : list LifecycleEvent;
  me_notified : bool;
  me_asked : list Asked;
  me_locks : Locks }.

Definition Task (A : Type) : Type := Memory → S (option A * Memory).
#[export] Instance Task_ret : MRet Task := λ A a m, mret (Some a, m).
#[export] Instance Task_bind : MBind Task := λ A B k f m,
  r ← f m;
  match r with
  | (Some a, m') => k a m'
  | (None, m') => mret (None, m')
  end.

Definition panic {A} : Task A := λ m, mret (None, m).
Definition lift {A} (f : S A) : Task A := λ m, a ← f; mret (Some a, m).
Definition remember (f : Memory → Memory) : Task () := λ m, mret (Some tt, f m).
Definition recall {A} (f : Memory → A) : Task A := λ m, mret (Some (f m), m).

(** [.map_err(f)?] *)
Definition try_lift {E A B} (f : S (result E A)) (on_err : E → JobError)
    (k : A → Task (result JobError B)) : Task (result JobError B) :=
  r ← lift f; match r with Ok a => k a | Err e => mret (Err (on_err e)) end.

(** [?] on a result of the job's own *)
Definition try_own {A B} (f : Task (result JobError A)) (k : A → Task (result JobError B))
    : Task (result JobError B) :=
  r ← f; match r with Ok a => k a | Err e => mret (Err e) end.

Definition emit (e : LifecycleEvent) : Task () :=
  remember (λ m, mkMemory (me_iisa m) (me_locked m) (me_breaker m) (me_cache m)
                   (me_events m ++ [e]) (me_notified m) (me_asked m) (me_locks m)).

Definition notify_one : Task () :=
  remember (λ m, mkMemory (me_iisa m) (me_locked m) (me_breaker m) (me_cache m)
                   (me_events m) true (me_asked m) (me_locks m)).

Definition set_locked (b : bool) : Task () :=
  remember (λ m, mkMemory (me_iisa m) b (me_breaker m) (me_cache m) (me_events m) (me_notified m)
                   (me_asked m) (me_locks m)).

(** The lock's guard, dropped however [f] ends. *)
Definition releasing {A} (f : Task A) : Task A := λ m,
  r ← f m;
  mret (r.1, mkMemory (me_iisa r.2) false (me_breaker r.2) (me_cache r.2) (me_events r.2)
               (me_notified r.2) (me_asked r.2) (me_locks r.2)).

(** ** The parameters of a pass *)

Context (tx_string : N → string).
Context (keccak256 : list Z → list Z).
Context (abi_encode_key : N → N → N → Z → Z → list Z).
Context (abi_encode_terms : Z → Z → list Z).
Context (abi_encode_metadata : N → Z → list Z → list Z).
(** [eip712_signing_hash] under the configured domain. *)
Context (eip712_signing_hash : RecurringCollectionAgreement → list Z).
(** The network topology's URL of an indexer. *)
Context (get_indexer_url : N → option string).
Context (get_network_by_caip2_id : string → option string).
Context (parse_rfc3339 : string → option Z).
(** The [i]-th fresh UUID of the pass, and the order the set of additions is
    iterated in. *)
Context (now_v7 : nat → N) (hash_order : gset N → list N).
(** The wall clock in seconds and nanoseconds, and the monotonic clock when the
    cache is read and filled. *)
Context (now_secs now_utc looked_at stored_at : Z).
Context (conf : OfferConfig) (chain_price : gmap Z IndexingAgreementChainPrices).
Context (additional_networks : gmap Z string) (entity_counts : gmap (N * N) Z).
Context (signer_chain_id : Z).
Context (bypass_chain_clock_defenses : bool) (chain_listener_chain_id : option Z).
Notation into_rca := (into_sol_rca keccak256 abi_encode_key abi_encode_terms abi_encode_metadata).

(** It panics when the lock of the domain is poisoned. *)
Definition compute_terms_version_hash (domain_poisoned : bool) (nonce_uuid : N) (terms : Terms)
    : option (list Z) :=
  if domain_poisoned then None else Some (eip712_signing_hash (into_rca nonce_uuid terms).1).

(** ** The selection context *)

Definition compute_optimistic_dips_fees : Task (result JobError (gmap N f64)) :=
  try_lift (pg (λ _, get_agreement_fee_rates)) (λ _, Fatal) (λ rates,
  match rates with
  | None => panic
  | Some rates => mret (Ok (sum_fee_rates rates entity_counts))
  end).

Definition gather_selection_context (deployment_id : N) (deployment_chain_id : Z)
    : Task (result JobError (SelectionContext * list N)) :=
  try_lift (pg (λ _, provider_agreements (get_indexing_agreements_by_deployment_id deployment_id)))
    (λ _, Fatal) (λ agreements,
  let existing_indexers :=
    indexer_of <$> filter (λ a, is_active_agreement (ia_status a) = true) agreements in
  try_lift (pg (λ _, get_pending_agreement_indexers_by_deployment existing_indexers))
    (λ _, Fatal) (λ pending_agreements,
  try_lift (pg (λ now, get_declined_indexers_by_deployment now (oc_lookbacks conf)))
    (λ _, Fatal) (λ declined,
  let declined_indexers := exclude_cancelling_indexers declined deployment_id agreements in
  try_lift (pg get_indexer_denylist) (λ _, Fatal) (λ indexer_denylist,
  try_lift (pg (λ now, get_unresponsive_indexers now (oc_unresponsive_indexer_lookback_days conf)
                         deployment_chain_id)) (λ _, Fatal) (λ unresponsive,
  let unresponsive_indexers := filter (λ id, id ∉ indexer_denylist) unresponsive in
  try_own compute_optimistic_dips_fees (λ optimistic_dips_fees,
  mret (Ok (mkContext existing_indexers pending_agreements indexer_denylist declined_indexers
              None None None optimistic_dips_fees, unresponsive_indexers)))))))).

(** The declined indexers, the unresponsive among them unless the breaker holds
    them back. *)
Definition bench_unresponsive (deployment_id : N) (chain_name : string) (ceilings : PriceCeilings)
    (unresponsive : list N) (declined : gmap N (list N)) : Task (gmap N (list N)) :=
  match unresponsive with
  | [] => mret declined
  | _ => λ m,
      let '(snapshot, cache, iisa) :=
        get_or_fetch (oc_dips_accepting_cache_ttl conf) looked_at stored_at chain_name ceilings
          (me_cache m) (me_iisa m) in
      match breaker_evaluate parse_rfc3339 now_utc chain_name unresponsive snapshot
              (oc_mass_unresponsive_trip_fraction conf) (oc_mass_unresponsive_reset_fraction conf)
              (oc_dips_accepting_snapshot_max_age_hours conf) (lk_breaker_poisoned (me_locks m))
              (me_breaker m) with
      | None => panic (mkMemory iisa (me_locked m) (me_breaker m) cache (me_events m) (me_notified m)
                         (me_asked m) (me_locks m))
      | Some (suppress, breaker) =>
          mret (Some (if suppress : bool then declined
                      else <[deployment_id :=
                               push_missing unresponsive (default [] (declined !! deployment_id))]>
                             declined),
                mkMemory iisa (me_locked m) breaker cache (me_events m) (me_notified m) (me_asked m)
                  (me_locks m))
      end
  end.

Definition ask_iisa (deployment_id : N) (num_candidates : Z) (context : SelectionContext)
    : Task (result JobError (list SelectedIndexer)) := λ m,
  let '(answer, iisa) := select_indexers deployment_id num_candidates context (me_iisa m) in
  mret (Some (match answer with
              | Ok picks => Ok picks
              | Err IisaServiceUnavailable | Err (IisaRejected _ _) => Err (Retryable (from_secs 60))
              | Err SelectionFailed => Err Fatal
              end),
        mkMemory iisa (me_locked m) (me_breaker m) (me_cache m) (me_events m) (me_notified m)
          (me_asked m ++ [mkAsked deployment_id num_candidates context answer]) (me_locks m)).

(** The price ceilings and IISA's group for the request. *)
Definition select_target (deployment_id : N) (deployment_chain_id num_candidates : Z)
    : Task (result JobError (PriceCeilings * list SelectedIndexer)) :=
  try_own (gather_selection_context deployment_id deployment_chain_id) (λ gathered,
  match resolve_chain_name get_network_by_caip2_id additional_networks deployment_chain_id with
  | None => mret (Err Fatal)
  | Some chain_name =>
      let context := gathered.1 in
      let ceilings := mkCeilings (Some (max_grt_per_30_days_for conf chain_name))
                        (Some (oc_max_grt_per_billion_entities_per_30_days conf)) in
      declined ← bench_unresponsive deployment_id chain_name ceilings gathered.2
                   (sx_declined_indexers context);
      try_own (ask_iisa deployment_id num_candidates
        (mkContext (sx_existing_indexers context) (sx_pending_agreements context)
           (sx_indexer_denylist context) declined (Some chain_name)
           (pc_max_grt_per_30_days ceilings) (pc_max_grt_per_billion_entities_per_30_days ceilings)
           (sx_optimistic_dips_fees context))) (λ picks,
      mret (Ok (ceilings, picks)))
  end).

(** The shortfall latch, and the event on its way in; a failure is logged. *)
Definition signal_shortfall (indexing_request_id deployment_id : N)
    (num_candidates offerable_picks : Z) : Task () :=
  let in_shortfall := offerable_picks <? num_candidates in
  r ← lift (pg (λ _, set_indexing_request_shortfall_active indexing_request_id in_shortfall));
  let shortfall_changed := match r with Ok changed => changed | Err _ => false end in
  if in_shortfall && shortfall_changed
  then emit (NIndexersUnavailable deployment_id signer_chain_id (as_i32 num_candidates)
               (as_i32 offerable_picks))
  else mret tt.

Definition resolve_deadline_clock : Task (result JobError Z) :=
  if negb bypass_chain_clock_defenses then mret (Ok now_secs)
  else
    head ← lift chain_timestamp;
    match head, chain_listener_chain_id with
    | Ok ts, _ => mret (Ok ts)
    | Err _, None => mret (Ok now_secs)
    | Err _, Some chain_id =>
        r ← lift (pg (λ _, get_chain_listener_state chain_id));
        mret (match r with
              | Ok (Some state) => Ok (default now_secs (cl_last_processed_block_timestamp state))
              | Ok None => Ok now_secs
              | Err _ => Err (Retryable (from_secs 5))
              end)
    end.

(** ** Registering *)

Definition offer_terms (deployment_id : N) (deployment_chain_id now : Z) (o : NewOffer) : Terms :=
  mkTerms (oc_recurring_agreement_manager conf) (ix_id (no_indexer o)) (oc_data_service conf)
    (sat_add_u64 now (oc_deadline_seconds conf)) (sat_add_u64 now (oc_duration_seconds conf)) 0
    (grt_per_30_days_to_wei_per_second (oc_max_agreement_grt_per_30_days conf))
    (oc_min_seconds_per_collection conf) (oc_max_seconds_per_collection conf)
    CONDITION_AGREEMENT_OWNER
    (mkMetadata (no_tokens_per_second o) (no_tokens_per_entity_per_second o) deployment_id
       signer_chain_id deployment_chain_id now).

Definition offer_params (indexing_request_id deployment_id : N) (deployment_chain_id now : Z)
    (nonce_uuid : N) (o : NewOffer) (terms_version_hash : list Z) : NewAgreementParams :=
  let terms := offer_terms deployment_id deployment_chain_id now o in
  mkParams (compute_on_chain_id keccak256 abi_encode_key abi_encode_terms abi_encode_metadata
              nonce_uuid terms)
    nonce_uuid indexing_request_id deployment_id (ix_id (no_indexer o)) (ix_url (no_indexer o))
    terms (Some terms_version_hash).

(** Registering an addition, with the agreement it replaces if one is left. *)
Definition register_addition (p : NewAgreementParams) (old : option IndexingAgreement)
    : S (result Error N) :=
  match old with
  | Some old_agreement =>
      pg (λ now, register_agreement_with_pending_cancellation now p (ia_id old_agreement))
  | None => pg (λ now, register_new_indexing_agreement now p)
  end.

(** The loop over the additions: the olds left over, the agreements proposed
    and the indexers they were proposed to. *)
Fixpoint add_each (indexing_request_id deployment_id : N) (deployment_chain_id now : Z) (i : nat)
    (offers : gmap N NewOffer) (olds : list IndexingAgreement) (to_add : list N)
    : Task (list IndexingAgreement * list N * list N) :=
  match to_add with
  | [] => mret (olds, [], [])
  | indexer_id :: rest =>
      match offers !! indexer_id with
      | None => panic
      | Some o =>
          poisoned ← recall (λ m, lk_domain_poisoned (me_locks m));
          match compute_terms_version_hash poisoned (now_v7 i)
                  (offer_terms deployment_id deployment_chain_id now o) with
          | None => panic
          | Some terms_version_hash =>
          let p := offer_params indexing_request_id deployment_id deployment_chain_id now
                     (now_v7 i) o terms_version_hash in
          registered ← lift (register_addition p (head olds));
          let next := add_each indexing_request_id deployment_id deployment_chain_id now
                        (Datatypes.S i) (delete indexer_id offers) (tail olds) rest in
          match registered with
          | Err _ => next
          | Ok agreement_id =>
              queued ← lift (queue_send_indexing_agreement_proposal (ix_url (no_indexer o))
                         agreement_id indexing_request_id deployment_id deployment_chain_id
                         Background);
              r ← next;
              mret (if queued : bool
                    then (r.1.1, agreement_id :: r.1.2, indexer_id :: r.2)
                    else r)
          end
          end
      end
  end.

(** ** Ending what nothing replaces *)

Definition unmarked (err : Error) : Unpaired :=
  match err with NoRecordsUpdated => AlreadyEnding | DbError _ => UnpairedFailed end.

Definition cancel_unpaired (agreement : IndexingAgreement) : S Unpaired :=
  let may_be_live := bool_decide (ia_status agreement = AcceptedOnChain)
    || (bool_decide (ia_status agreement = Created)
        && negb (is_null (ia_terms_version_hash agreement))) in
  if negb may_be_live then
    r ← pg (λ now, mark_indexing_agreement_as_canceled_by_requester now (ia_id agreement));
    mret (match r with Ok _ => Moved CanceledByRequester | Err err => unmarked err end)
  else
    r ← on_dispatch (start_cancel tx_string (oc_agreement_conf conf) now_secs agreement NotWanted);
    mret (match r with
          | Ok StartedEnded => Moved CanceledByRequester
          | Ok (StartedNotLive | StartedMayBeLive) => Moved Cancelling
          | Err err => unmarked err
          end).

(** ** The pass *)

(** The plan's numbers: the additions the caps admit, how many they withhold,
    and the olds kept back for withheld additions. *)
Definition plan_additions (in_flight_per_indexer : gmap N Z) (global_in_flight : Z)
    (to_add : gset N) (cancels diff_add_count : Z) : gset N * Z * Z :=
  if bool_decide (to_add = ∅) then (∅, 0, reserved_cancel_count cancels diff_add_count 0)
  else
    let '(allowed, withheld) :=
      plan_capped_additions (elements to_add) in_flight_per_indexer global_in_flight
        (oc_max_in_flight_offers_per_indexer conf) (oc_max_in_flight_offers_total conf) in
    (list_to_set allowed, withheld,
     reserved_cancel_count cancels diff_add_count (Z.of_nat (length allowed))).

(** After the loop over the additions: what it proposed is announced, what
    nothing replaces is ended, the chain listener is woken, and a pass the caps
    held back comes again. *)
Definition finish_pass (indexing_request_id deployment_id : N) (now offer_pacing_withheld : Z)
    (unpaired : list IndexingAgreement) (successful_new_ids proposed_candidates : list N)
    : Task JobResult :=
  _ ← (match proposed_candidates with
       | [] => mret tt
       | _ => emit (Proposed deployment_id signer_chain_id proposed_candidates
                      (sat_add_u64 now (oc_deadline_seconds conf)))
       end);
  _ ← lift (each (λ a, _ ← cancel_unpaired a; mret tt) unpaired);
  _ ← (match successful_new_ids with [] => mret tt | _ => notify_one end);
  mret (if 0 <? offer_pacing_withheld
        then Err (Deferred (pacing_defer_delay indexing_request_id)) else Ok tt).

(** From the diff on. *)
Definition apply_target (indexing_request_id deployment_id : N) (deployment_chain_id : Z)
    (num_candidates : Z) (active_agreements : list IndexingAgreement) (held : gset N)
    (in_flight_per_indexer : gmap N Z) (global_in_flight : Z) (ceilings : PriceCeilings)
    (target_selected : list SelectedIndexer) : Task JobResult :=
  let current_ids := ids_of_agreements active_agreements in
  let target_ids : gset N := list_to_set (si_id <$> target_selected) in
  let '(offers, unofferable) :=
    gather_offers (λ pick, new_offer get_indexer_url pick ceilings
                             (chain_price !! deployment_chain_id)) current_ids held target_selected in
  let to_cancel := current_ids ∖ target_ids in
  let diff_add_count := Z.of_nat (size (target_ids ∖ current_ids)) in
  let to_add := picks_to_add target_selected offers
                  (room num_candidates current_ids held target_ids) in
  _ ← signal_shortfall indexing_request_id deployment_id num_candidates
        (Z.of_nat (length target_selected) - unofferable);
  if bool_decide (to_cancel = ∅) && bool_decide (to_add = ∅) then mret (Ok tt)
  else
    let old_to_cancel := filter (λ a, indexer_of a ∈ to_cancel) active_agreements in
    let '(capped_to_add, offer_pacing_withheld, reserved) :=
      plan_additions in_flight_per_indexer global_in_flight to_add
        (Z.of_nat (length old_to_cancel)) diff_add_count in
    try_own resolve_deadline_clock (λ now,
    let olds := take (Z.to_nat (Z.of_nat (length old_to_cancel) - reserved)) old_to_cancel in
    r ← add_each indexing_request_id deployment_id deployment_chain_id now 0 offers olds
          (hash_order capped_to_add);
    finish_pass indexing_request_id deployment_id now offer_pacing_withheld r.1.1 r.1.2 r.2).

(** With the lock held. *)
Definition reassess_locked (indexing_request_id deployment_id : N) (deployment_chain_id : Z)
    : Task JobResult :=
  try_lift (pg (λ _, provider_request_by_id indexing_request_id)) (λ _, Fatal) (λ request,
  match request with
  | None => mret (Ok tt)
  | Some request =>
      let num_candidates :=
        if bool_decide (ir_status request = Open) then ir_num_candidates request else 0 in
      try_lift (pg (λ _, provider_agreements
                  (get_active_indexing_agreements_by_indexing_request_id indexing_request_id)))
        (λ _, Fatal) (λ active_agreements,
      try_lift (pg (λ _, get_abandoned_indexers_holding_slots indexing_request_id))
        (λ _, Fatal) (λ holding,
      let held : gset N := list_to_set holding in
      try_lift (pg count_created_agreements_by_indexer) (λ _, Fatal) (λ counts,
      if should_defer_saturated counts.2 (oc_max_in_flight_offers_total conf)
           (sat_sub num_candidates (Z.of_nat (size held)))
           (Z.of_nat (length active_agreements))
      then mret (Err (Deferred (pacing_defer_delay indexing_request_id)))
      else
        try_own (select_target deployment_id deployment_chain_id num_candidates) (λ selected,
        apply_target indexing_request_id deployment_id deployment_chain_id num_candidates
          active_agreements held counts.1 counts.2 selected.1 selected.2))))
  end).

(** [try_lock]: a pass that finds the lock taken comes back a second later. *)
Definition reassess_handle (indexing_request_id deployment_id : N) (deployment_chain_id : Z)
    : Task JobResult :=
  locked ← recall me_locked;
  if locked : bool then mret (Err (Deferred (from_secs 1)))
  else
    _ ← set_locked true;
    releasing (reassess_locked indexing_request_id deployment_id deployment_chain_id).

End reassess.

Arguments Memory : clear implicits.
Arguments Task : clear implicits.

End Reassess.
