(* ===== verification/SelectionProps.v ===== *)
(** * What choosing indexers guarantees

    The breaker's memory is exactly its evidence: it holds a chain's
    unresponsive indexers back when a fresh snapshot showed more than the trip
    fraction of the pool unresponsive and none since showed less than the reset
    fraction.  Prices dipper offers are paid in full, and within its caps. *)

From S2P Require Import Prelude Schema Registry RegistryInv RegistryRuns RegistryOps RegistryQueries.
From S2P Require Import JobQueue Worker Rca CancelDispatch CancelDispatchProps.
From S2P Require Import ChainEvents ChainListener ChainReconcile Services Liveness Selection.
From Stdlib Require Import SpecFloat.
Import Schema Registry RegistryInv RegistryRuns RegistryOps RegistryQueries.
Import JobQueue Worker Rca CancelDispatch CancelDispatchProps ChainEvents ChainListener.
Import ChainReconcile Services Liveness Selection.
Local Open Scope Z_scope.

Module SelectionProps.

(** ** The order of floats *)

(** Where a number lies: its sign, then exponent and mantissa, mirrored below
    zero; NaN has no place. *)
Definition place (x : f64) : option (Z * Z * Z) :=
  match x with
  | S754_nan => None
  | S754_infinity true => Some (-2, 0, 0)
  | S754_finite true m e => Some (-1, - e, - Z.pos m)
  | S754_zero _ => Some (0, 0, 0)
  | S754_finite false m e => Some (1, e, Z.pos m)
  | S754_infinity false => Some (2, 0, 0)
  end.

Definition place_lt (a b : Z * Z * Z) : Prop :=
  a.1.1 < b.1.1 ∨ a.1.1 = b.1.1 ∧ (a.1.2 < b.1.2 ∨ a.1.2 = b.1.2 ∧ a.2 < b.2).

Lemma SFltb_place x y :
  SFltb x y = true ↔ ∃ a b, place x = Some a ∧ place y = Some b ∧ place_lt a b.
Proof.
  unfold SFltb. split.
  - intros H. destruct x as [[]|[]| |[] m e], y as [[]|[]| |[] m' e']; simpl in *; try done;
      eexists _, _; (split; [reflexivity|split; [reflexivity|]]); unfold place_lt; simpl;
      try (left; lia); right; (split; [done|]).
    all: destruct (Z.compare_spec e e') as [->|He|He]; try done; try (left; lia).
    all: right; split; [done|]; change (Pos.compare_cont Eq m m') with (Pos.compare m m') in H;
      destruct (Pos.compare_spec m m'); done || lia.
  - intros (a & b & Ha & Hb & H). unfold place_lt in H.
    destruct x as [[]|[]| |[] m e], y as [[]|[]| |[] m' e']; simpl in Ha, Hb;
      try discriminate Ha; try discriminate Hb; injection Ha as <-; injection Hb as <-; simpl in *; try done; try lia.
    all: destruct (Z.compare_spec e e') as [->|He|He]; try done; try lia.
    all: change (Pos.compare_cont Eq m m') with (Pos.compare m m');
      destruct (Pos.compare_spec m m'); done || lia.
Qed.

Lemma SFltb_trans x y z : SFltb x y = true → SFltb y z = true → SFltb x z = true.
Proof.
  rewrite !SFltb_place. intros (a & b & Ha & Hb & H) (b' & c & Hb' & Hc & H').
  rewrite Hb in Hb'. injection Hb' as <-. exists a, c. split; [done|split; [done|]].
  unfold place_lt in *. lia.
Qed.

Lemma SFltb_asym x y : SFltb x y = true → SFltb y x = false.
Proof.
  rewrite SFltb_place. intros (a & b & Ha & Hb & H). apply not_true_iff_false. rewrite SFltb_place.
  intros (b' & a' & Hb' & Ha' & H'). rewrite Ha in Ha'. rewrite Hb in Hb'.
  injection Ha' as <-. injection Hb' as <-. unfold place_lt in *. lia.
Qed.

(** ** The breaker *)

(** One call of the breaker. *)
Record evaluation : Type := mkEvaluation {
  ev_now : Z;
  ev_chain : string;
  ev_unresponsive : list N;
  ev_snapshot : option DipsAcceptingSnapshot }.

Section breaker.
Context (parse_rfc3339 : string → option Z) (trip reset : f64) (max_age_hours : Z).

Definition ev_fraction (e : evaluation) : option f64 :=
  default None
    (unresponsive_fraction parse_rfc3339 (ev_now e) (ev_unresponsive e) (ev_snapshot e) max_age_hours).

Definition evaluate_one (b : UnresponsiveBreaker) (e : evaluation) : bool * UnresponsiveBreaker :=
  default (false, b)
    (breaker_evaluate parse_rfc3339 (ev_now e) (ev_chain e) (ev_unresponsive e) (ev_snapshot e)
       trip reset max_age_hours false b).

(** The snapshot's age limit fits its width, so no evaluation panics. *)
Lemma evaluate_one_runs b e :
  is_Some (time_hours max_age_hours) →
  breaker_evaluate parse_rfc3339 (ev_now e) (ev_chain e) (ev_unresponsive e) (ev_snapshot e)
    trip reset max_age_hours false b = Some (evaluate_one b e).
Proof.
  intros Hh. unfold evaluate_one.
  by destruct (breaker_evaluate_runs parse_rfc3339 (ev_now e) (ev_chain e) (ev_unresponsive e)
    (ev_snapshot e) trip reset max_age_hours b Hh) as [x ->].
Qed.

Definition breaker_after (es : list evaluation) : UnresponsiveBreaker :=
  foldl (λ b e, (evaluate_one b e).2) ∅ es.

Definition sees_outage (e : evaluation) : Prop :=
  ∃ f, ev_fraction e = Some f ∧ SFltb trip f = true.
Definition sees_recovery (e : evaluation) : Prop :=
  ∃ f, ev_fraction e = Some f ∧ SFltb f reset = true.

(** An outage was seen on the chain, and nothing since says it is over. *)
Definition suspected (chain : string) (es : list evaluation) : Prop :=
  ∃ before e after, es = before ++ e :: after ∧ ev_chain e = chain ∧ sees_outage e ∧
    ∀ e', e' ∈ after → ev_chain e' = chain → ¬ sees_recovery e'.

Lemma suspected_snoc chain es e :
  suspected chain (es ++ [e]) ↔
  ev_chain e = chain ∧ sees_outage e ∨ suspected chain es ∧ ¬ (ev_chain e = chain ∧ sees_recovery e).
Proof.
  split.
  - intros (before & x & after & E & Hc & Ht & Hn).
    destruct after as [|y after _] using rev_ind.
    + apply app_inj_tail in E as [_ <-]. by left.
    + rewrite app_comm_cons, app_assoc in E. apply app_inj_tail in E as [-> <-]. right. split.
      * exists before, x, after. split; [done|]. split; [done|split; [done|]].
        intros e' He. apply Hn. set_solver.
      * intros [He Hr]. apply (Hn e); [set_solver|done..].
  - intros [[Hc Ht]|[(before & x & after & -> & Hc & Ht & Hn) Hr]].
    + exists es, e, []. split; [done|]. split; [done|split; [done|]]. set_solver.
    + exists before, x, (after ++ [e]). split; [by rewrite <-app_assoc|].
      split; [done|split; [done|]]. intros e' [He|He]%elem_of_app Hc' Hr'; [|apply list_elem_of_singleton in He as ->].
      * by apply (Hn e').
      * by apply Hr.
Qed.

Context (Hbelow : SFltb reset trip = true).

Lemma trip_is_no_reset e : sees_outage e → ¬ sees_recovery e.
Proof.
  intros (f & Hf & Ht) (f' & Hf' & Hr). rewrite Hf in Hf'. injection Hf' as <-.
  pose proof (SFltb_asym _ _ (SFltb_trans _ _ _ Hr Hbelow)). congruence.
Qed.

Lemma evaluate_one_spec chain b e :
  default false ((evaluate_one b e).2 !! chain) = true ↔
  ev_chain e = chain ∧ sees_outage e ∨
  default false (b !! chain) = true ∧ ¬ (ev_chain e = chain ∧ sees_recovery e).
Proof.
  pose proof (trip_is_no_reset e) as Hx. unfold sees_outage, sees_recovery, ev_fraction in *.
  unfold evaluate_one, breaker_evaluate, UnresponsiveBreaker in *.
  destruct (unresponsive_fraction _ _ _ _ _) as [[f|]|]; simpl.
  2-3: clear Hx; split; [intros H; right; split; [exact H|by intros (_ & ? & ? & _)]|
    by intros [(_ & ? & ? & _)|[? _]]].
  assert (Hx' : SFltb trip f = true → SFltb f reset = true → False).
  { intros H1 H2. apply Hx; by exists f. }
  assert (HF : ∀ P : f64 → Prop, (∃ g, Some f = Some g ∧ P g) ↔ P f).
  { intros P. split; [by intros (? & [= <-] & ?)|by exists f]. }
  rewrite !HF. clear Hx HF.
  destruct (decide (ev_chain e = chain)) as [<-|Hc].
  - destruct (b !! ev_chain e) as [[]|] eqn:Hb; simpl; destruct (SFltb trip f) eqn:Ht, (SFltb f reset) eqn:Hr;
      simpl; rewrite ?lookup_insert_eq, ?Hb; simpl; clear -Hx'; intuition congruence.
  - assert (E : ∀ x, <[ev_chain e := x]> b !! chain = b !! chain) by (intros; by rewrite lookup_insert_ne).
    destruct (default false (b !! ev_chain e)), (SFltb trip f), (SFltb f reset); simpl; rewrite ?E;
      clear -Hc; intuition congruence.
Qed.

Lemma breaker_after_suspected chain es :
  default false (breaker_after es !! chain) = true ↔ suspected chain es.
Proof.
  induction es as [|e es IH] using rev_ind.
  - unfold breaker_after, UnresponsiveBreaker. simpl. rewrite lookup_empty. simpl. split; [done|]. intros (before & x & after & E & _).
    by destruct before.
  - unfold breaker_after. rewrite foldl_app. simpl. fold (breaker_after es).
    by rewrite evaluate_one_spec, suspected_snoc, IH.
Qed.

(** Over any sequence of evaluations on any chains, with the reset fraction
    below the trip fraction as the configuration demands: a chain's unresponsive
    indexers are held back exactly when the evaluation has a usable snapshot (one
    that was fetched, parses, is within its age and names indexers) and some
    evaluation of that chain, this one included, saw more than the trip fraction
    of its pool unresponsive and none of the chain after it saw less than the
    reset fraction.  Without a usable snapshot nothing is held back and nothing
    is remembered or forgotten. *)
Theorem suppression_is_evidence es e :
  (evaluate_one (breaker_after es) e).1 = true ↔
  ev_fraction e ≠ None ∧ suspected (ev_chain e) (es ++ [e]).
Proof.
  rewrite <-breaker_after_suspected. unfold breaker_after. rewrite foldl_app. simpl.
  fold (breaker_after es). generalize (breaker_after es). intros b.
  unfold evaluate_one, breaker_evaluate, ev_fraction, UnresponsiveBreaker in *.
  destruct (unresponsive_fraction _ _ _ _ _) as [[f|]|]; simpl; [|intuition congruence..].
  destruct (b !! ev_chain e) as [[]|] eqn:Hb; simpl; destruct (SFltb trip f), (SFltb f reset);
    simpl; rewrite ?lookup_insert_eq, ?Hb; simpl; intuition congruence.
Qed.
End breaker.

(** Three of four indexers unresponsive, then two of four: still held back. *)
Definition demo_parse (text : string) : option Z :=
  if bool_decide (text = "2026-01-01T00:00:00Z"%string) then Some 0 else None.
Definition demo_evaluation (unresponsive : list N) : evaluation :=
  mkEvaluation 3600000000000 "arbitrum-one" unresponsive
    (Some (mkSnapshot (Some "2026-01-01T00:00:00Z"%string) [1; 2; 3; 4]%N)).
Definition demo_half : f64 := f64_div (as_f64 1) (as_f64 2).
Definition demo_quarter : f64 := f64_div (as_f64 1) (as_f64 4).

Lemma suppression_is_evidence_witness :
  (evaluate_one demo_parse demo_half demo_quarter 48
     (breaker_after demo_parse demo_half demo_quarter 48 [demo_evaluation [1; 2; 3]%N])
     (demo_evaluation [1; 2]%N)).1 = true ∧
  suspected demo_parse demo_half demo_quarter 48 "arbitrum-one"
    ([demo_evaluation [1; 2; 3]%N] ++ [demo_evaluation [1; 2]%N]).
Proof.
  split; [by vm_compute|].
  apply (suppression_is_evidence demo_parse demo_half demo_quarter 48 ltac:(by vm_compute)
           [demo_evaluation [1; 2; 3]%N] (demo_evaluation [1; 2]%N)).
  by vm_compute.
Defined.

End SelectionProps.
