(* ===== verification/ReassessPlan.v ===== *)
(** * What a reassessment plans

    The arithmetic of a pass before it writes anything: the caps admit as many
    additions as they can, in order of id; the additions fit in what the target
    leaves; and however many additions the caps withhold, the agreements ended
    outright are exactly those IISA names no replacement for. *)

From S2P Require Import Prelude Schema Registry RegistryInv RegistryRuns RegistryOps RegistryQueries.
From S2P Require Import JobQueue Worker Rca CancelDispatch CancelDispatchProps.
From S2P Require Import ChainEvents ChainListener ChainReconcile Services RowOps Liveness Selection.
From S2P Require Import Reassess.
Import Schema Registry RegistryInv RegistryRuns RegistryOps RegistryQueries.
Import JobQueue Worker Rca CancelDispatch CancelDispatchProps ChainEvents ChainListener.
Import ChainReconcile Services RowOps Liveness Selection Reassess.
Local Open Scope Z_scope.

Module ReassessPlan.

(** ** The caps *)

Section caps.
Context (in_flight_per_indexer : gmap N Z) (global_in_flight : Z).
Context (per_indexer_cap global_cap : option Z).

(** The indexer's own cap leaves room for one more offer. *)
Definition below_cap (id : N) : bool :=
  match per_indexer_cap with
  | Some cap => default 0 (in_flight_per_indexer !! id) <? cap
  | None => true
  end.

(** How many more the total cap admits of a list. *)
Definition admit_total (l : list N) : list N :=
  match global_cap with
  | Some cap => take (Z.to_nat (cap - global_in_flight)) l
  | None => l
  end.

Definition fit (l : list N) : list N := admit_total (filter (λ id, below_cap id = true) l).

Lemma admit_one_skip adm per tot id :
  per !! id = None →
  admit_one in_flight_per_indexer global_in_flight per_indexer_cap global_cap (adm, per, tot) id =
  if match global_cap with Some cap => cap <=? global_in_flight + tot | None => false end
     || negb (below_cap id)
  then (adm, per, tot) else (adm ++ [id], <[id := 1]> per, tot + 1).
Proof.
  intros Hp. unfold admit_one, below_cap. rewrite Hp. simpl.
  destruct global_cap as [g|]; [destruct (g <=? global_in_flight + tot); [done|]|];
    destruct per_indexer_cap as [c|]; simpl; rewrite ?Z.add_0_r, ?Z.ltb_antisym, ?negb_involutive;
    done.
Qed.

Lemma admit_fold l adm per tot :
  NoDup l → (∀ id, id ∈ l → per !! id = None) → tot = Z.of_nat (length adm) →
  ∃ per' tot',
    foldl (admit_one in_flight_per_indexer global_in_flight per_indexer_cap global_cap)
      (adm, per, tot) l =
    (adm ++ match global_cap with
            | Some cap => take (Z.to_nat (cap - global_in_flight - tot))
                            (filter (λ id, below_cap id = true) l)
            | None => filter (λ id, below_cap id = true) l
            end, per', tot').
Proof.
  revert adm per tot. induction l as [|id l IH]; intros adm per tot Hnd Hper Htot.
  { exists per, tot. simpl. rewrite filter_nil. destruct global_cap; by rewrite ?take_nil, app_nil_r. }
  apply NoDup_cons in Hnd as [Hid Hnd]. cbn [foldl].
  rewrite admit_one_skip by (apply Hper; by left). rewrite filter_cons.
  destruct (below_cap id) eqn:Hb; simpl.
  2:{ rewrite orb_true_r. destruct (IH adm per tot) as (per' & tot' & E); try done.
      - intros x Hx. apply Hper. by right.
      - by exists per', tot'. }
  rewrite orb_false_r.
  destruct (IH (adm ++ [id]) (<[id:=1]> per) (tot + 1)) as (per' & tot' & E); try done.
  { intros x Hx. rewrite lookup_insert_ne by set_solver. apply Hper. by right. }
  { rewrite length_app. simpl. lia. }
  destruct (IH adm per tot) as (per2 & tot2 & E2); try done.
  { intros x Hx. apply Hper. by right. }
  destruct global_cap as [g|]; [|exists per', tot'; by rewrite E, <-app_assoc].
  destruct (Z.leb_spec g (global_in_flight + tot)) as [Hg|Hg].
  - exists per2, tot2. rewrite E2. by replace (Z.to_nat (g - global_in_flight - tot)) with 0%nat by lia.
  - exists per', tot'. rewrite E, <-app_assoc.
    replace (Z.to_nat (g - global_in_flight - tot))
      with (Datatypes.S (Z.to_nat (g - global_in_flight - (tot + 1)))) by lia. done.
Qed.

Definition by_id (l : list N) : list N := order_by (λ id, [Z.of_N id]) l.

Lemma plan_admits l :
  NoDup l →
  plan_capped_additions l in_flight_per_indexer global_in_flight per_indexer_cap global_cap =
  (fit (by_id l), Z.of_nat (length l) - Z.of_nat (length (fit (by_id l)))).
Proof.
  intros Hnd. unfold plan_capped_additions.
  destruct (admit_fold (by_id l) [] ∅ 0) as (per & tot & E); try done.
  { unfold by_id. by rewrite order_by_perm. }
  unfold by_id in E. rewrite E. unfold fit, admit_total. simpl.
  destruct global_cap; by rewrite ?Z.sub_0_r.
Qed.

Lemma fit_sublist l : fit l `sublist_of` l.
Proof.
  unfold fit, admit_total. destruct global_cap; [etrans; [apply sublist_take|]|];
    apply sublist_filter.
Qed.

Lemma fit_below l id : id ∈ fit l → below_cap id = true.
Proof.
  intros Hid. eapply (elem_of_sublist) in Hid;
    [|unfold fit, admit_total; destruct global_cap; [apply sublist_take|reflexivity]].
  by apply list_elem_of_filter in Hid as [? _].
Qed.

Lemma fit_total l cap :
  global_cap = Some cap → fit l ≠ [] → Z.of_nat (length (fit l)) + global_in_flight ≤ cap.
Proof.
  intros Hc. unfold fit, admit_total. rewrite Hc. intros Hne.
  set (x := filter _ l) in *. pose proof (length_take x (Z.to_nat (cap - global_in_flight))) as E.
  destruct (take _ x) as [|y rest]; [done|]. simpl length in *. lia.
Qed.

(** No choice within the caps is larger. *)
Lemma fit_maximal l t :
  NoDup t → (∀ id, id ∈ t → id ∈ l ∧ below_cap id = true) →
  (∀ cap, global_cap = Some cap → Z.of_nat (length t) + global_in_flight ≤ cap) →
  (length t ≤ length (fit l))%nat.
Proof.
  intros Hnd Hin Hcap.
  assert (H : (length t ≤ length (filter (λ id, below_cap id = true) l))%nat).
  { apply submseteq_length, NoDup_submseteq; [done|]. intros id Hid.
    apply list_elem_of_filter. by destruct (Hin id Hid). }
  unfold fit, admit_total. destruct global_cap as [cap|]; [|done].
  rewrite length_take. specialize (Hcap cap eq_refl). lia.
Qed.

(** Which additions the in-flight caps admit, for candidates without
    repetition: those below their own cap, in order of id, cut off where the
    total cap is reached, and the rest are counted as withheld.  Each admitted
    indexer is below its cap and all of them together fit under the total cap;
    and no set of candidates within both caps is larger, so a pass never
    withholds an addition the caps would allow. *)
Theorem caps_admit_most l :
  NoDup l →
  let plan := plan_capped_additions l in_flight_per_indexer global_in_flight
                per_indexer_cap global_cap in
  plan.1 = fit (by_id l) ∧ Z.of_nat (length l) = Z.of_nat (length plan.1) + plan.2 ∧
  (∀ id, id ∈ plan.1 → id ∈ l ∧ below_cap id = true) ∧
  (∀ cap, global_cap = Some cap → plan.1 ≠ [] →
    Z.of_nat (length plan.1) + global_in_flight ≤ cap) ∧
  (∀ t, NoDup t → (∀ id, id ∈ t → id ∈ l ∧ below_cap id = true) →
    (∀ cap, global_cap = Some cap → Z.of_nat (length t) + global_in_flight ≤ cap) →
    (length t ≤ length plan.1)%nat).
Proof.
  intros Hnd. rewrite plan_admits by done. simpl. split; [done|]. split; [lia|].
  split; [|split; [intros; by apply fit_total|]].
  - intros id Hid. split; [|by eapply fit_below].
    apply (elem_of_order_by (λ id, [Z.of_N id])). by eapply elem_of_sublist, fit_sublist.
  - intros t Ht Hin. apply fit_maximal; [done|]. intros id Hid.
    unfold by_id. rewrite elem_of_order_by. auto.
Qed.
End caps.

Lemma caps_admit_most_witness :
  (plan_capped_additions [4; 1; 3; 2]%N {[1%N := 5]} 8 (Some 5) (Some 10)).1 = [2; 3]%N ∧
  Z.of_nat (length [4; 1; 3; 2]%N) =
    Z.of_nat (length (plan_capped_additions [4; 1; 3; 2]%N {[1%N := 5]} 8 (Some 5) (Some 10)).1) +
    (plan_capped_additions [4; 1; 3; 2]%N {[1%N := 5]} 8 (Some 5) (Some 10)).2.
Proof.
  split; [by vm_compute|].
  apply (caps_admit_most {[1%N := 5]} 8 (Some 5) (Some 10) [4; 1; 3; 2]%N).
  apply (bool_decide_unpack _). by vm_compute.
Defined.

(** ** The diff *)

Lemma reserved_bounds cancels total admitted :
  0 ≤ admitted ≤ total → 0 ≤ cancels →
  0 ≤ reserved_cancel_count cancels total admitted ≤ cancels.
Proof. unfold reserved_cancel_count. lia. Qed.

(** However many additions are admitted, the olds left over are those beyond
    the additions IISA asked for. *)
Lemma unpaired_olds cancels total admitted :
  (admitted ≤ total)%nat →
  (Z.to_nat (Z.of_nat cancels -
     reserved_cancel_count (Z.of_nat cancels) (Z.of_nat total) (Z.of_nat admitted)) - admitted =
   cancels - total)%nat.
Proof. unfold reserved_cancel_count. lia. Qed.

Lemma gather_offers_spec offer current held picks id o :
  (gather_offers offer current held picks).1 !! id = Some o →
  ∃ pick, pick ∈ picks ∧ si_id pick = id ∧ offer pick = Some o ∧ id ∉ current ∧ id ∉ held.
Proof.
  unfold gather_offers.
  set (P := λ acc : gmap N NewOffer * Z, ∀ id o, acc.1 !! id = Some o →
    ∃ pick, pick ∈ picks ∧ si_id pick = id ∧ offer pick = Some o ∧ id ∉ current ∧ id ∉ held).
  assert (H : ∀ l acc, (∀ x, x ∈ l → x ∈ picks ∧ si_id x ∉ current ∧ si_id x ∉ held) → P acc →
    P (foldl (λ acc pick, match offer pick with
                          | Some o => (<[si_id pick := o]> acc.1, acc.2)
                          | None => (acc.1, acc.2 + 1)
                          end) acc l)).
  { induction l as [|x l IH]; intros acc Hl Hacc; simpl; [done|]. apply IH; [set_solver|].
    destruct (Hl x) as (Hx & Hc & Hh); [by left|].
    destruct (offer x) as [ox|] eqn:Hox; [|done]. intros k ok. simpl.
    destruct (decide (si_id x = k)) as [<-|Hk].
    - rewrite lookup_insert_eq. intros [= <-]. by exists x.
    - rewrite lookup_insert_ne by done. apply Hacc. }
  apply H; [|done]. intros x [[? ?] ?]%list_elem_of_filter. done.
Qed.

Lemma elem_of_picks_to_add picks offers n id :
  id ∈ picks_to_add picks offers n → is_Some (offers !! id) ∧ id ∈ si_id <$> picks.
Proof.
  unfold picks_to_add. rewrite elem_of_list_to_set. intros Hid.
  eapply elem_of_sublist in Hid; [|apply sublist_take]. by apply list_elem_of_filter in Hid.
Qed.

Lemma size_picks_to_add picks offers n : 0 ≤ n → Z.of_nat (size (picks_to_add picks offers n)) ≤ n.
Proof.
  intros Hn. unfold picks_to_add.
  assert (H : ∀ l : list N, (size (list_to_set l : gset N) ≤ length l)%nat).
  { induction l as [|x l IH]; [done|]. cbn [list_to_set length foldr].
    rewrite size_union_alt, size_singleton. apply le_n_S. etrans; [|exact IH].
    apply subseteq_size. set_solver. }
  etrans; [apply inj_le, H|]. rewrite length_take. lia.
Qed.

End ReassessPlan.
