(* ===== verification/ReassessProps.v ===== *)
(** * What a reassessment does

    A pass is followed from its first read to its last cancel, whatever IISA,
    the chain and the queue answer and whichever connections are lost: what it
    reads changes nothing, what it registers fits the target and the caps, and
    what it ends is only the surplus. *)

From S2P Require Import Prelude Schema Registry RegistryInv RegistryRuns RegistryOps RegistryQueries.
From S2P Require Import JobQueue Worker Rca CancelDispatch CancelDispatchProps.
From S2P Require Import ChainEvents ChainListener ChainReconcile Services RowOps Interleaving QueryProps Liveness.
From S2P Require Import Selection Reassess ReassessPlan.
Import Schema Registry RegistryInv RegistryRuns RegistryOps RegistryQueries.
Import JobQueue Worker Rca CancelDispatch CancelDispatchProps ChainEvents ChainListener.
Import ChainReconcile Services RowOps Interleaving QueryProps Liveness Selection Reassess ReassessPlan.
Local Open Scope Z_scope.
Local Set Default Proof Using "Type".

Module ReassessProps.

(** ** The logic of a pass *)

Section pass.
Context {C W I : Type} `{!ChainClient C} `{!ChainClock C} `{!MessageQueue W}.
Context `{!CandidateSelection I}.
Notation SState := (SState C W).
Notation Memory := (Memory I).
Notation Task := (Task C W I).

Lemma wp_reads {A} (m : Z → DbM A) (Q : result Error A → SState → Prop) s :
  alone s → (∀ now, reads (m now)) →
  (∀ r s', consulted [] s s' → (∀ x, r = Ok x → m (snow s) (sdb s) = (Ok x, sdb s)) → Q r s') →
  wp (pg m) Q s.
Proof.
  intros Ha Hm HQ. apply wp_pg_alone; [done|]. specialize (Hm (snow s) (sdb s)).
  unfold wp, statement, on_dispatch, registry, pg_call, snow, sdb, fine in *.
  destruct (m (pg_now (st_reg (ss_dispatch s))) (pg_db (st_reg (ss_dispatch s)))) as [r d] eqn:E.
  simpl in Hm. subst d.
  destruct (pg_faults (st_reg (ss_dispatch s))) as [|[] fs] eqn:Hf; simpl.
  all: apply HQ; [split; unfold sdb, snow, slog, fine; simpl; rewrite ?app_nil_r; try done; congruence|];
    intros x Hx; simplify_eq; done.
Qed.

(** [pwp f Q m s]: from memory [m] and state [s], [f] ends in [Q], having
    returned a value or panicked. *)
Definition pwp {A} (f : Task A) (Q : option A → Memory → SState → Prop) (m : Memory) (s : SState)
    : Prop := wp (f m) (λ r s', Q r.1 r.2 s') s.

Lemma pwp_run {A} (f : Task A) (Q : option A → Memory → SState → Prop) m s r m' s' :
  pwp f Q m s → f m s = ((r, m'), s') → Q r m' s'.
Proof. unfold pwp, wp. intros H E. by rewrite E in H. Qed.

Lemma pwp_ret {A} (a : A) (Q : option A → Memory → SState → Prop) m s :
  Q (Some a) m s → pwp (mret a) Q m s.
Proof. done. Qed.

Lemma pwp_bind {A B} (f : Task A) (k : A → Task B) Q m s :
  pwp f (λ r m' s', match r with Some a => pwp (k a) Q m' s' | None => Q None m' s' end) m s →
  pwp (f ≫= k) Q m s.
Proof.
  intros H. unfold pwp in H. apply wp_bind. eapply wp_mono; [exact H|]. by intros [[a|] m'] s'.
Qed.

Lemma pwp_mono {A} (f : Task A) (Q Q' : option A → Memory → SState → Prop) m s :
  pwp f Q m s → (∀ r m' s', Q r m' s' → Q' r m' s') → pwp f Q' m s.
Proof. intros H HQ. unfold pwp in *. eapply wp_mono; [exact H|]. auto. Qed.

Lemma pwp_lift {A} (f : Services.S C W A) (Q : option A → Memory → SState → Prop) m s :
  wp f (λ a s', Q (Some a) m s') s → pwp (lift f) Q m s.
Proof. intros H. apply wp_bind. eapply wp_mono; [exact H|]. done. Qed.

Lemma pwp_try_lift {E A B} (f : Services.S C W (result E A)) on_err
    (k : A → Task (result JobError B)) Q m s :
  wp f (λ r s', match r with
                | Ok a => pwp (k a) Q m s'
                | Err e => Q (Some (Err (on_err e))) m s'
                end) s →
  pwp (try_lift f on_err k) Q m s.
Proof.
  intros H. apply pwp_bind, pwp_lift. eapply wp_mono; [exact H|]. by intros [a|e] s'.
Qed.

Lemma pwp_try_own {A B} (f : Task (result JobError A)) (k : A → Task (result JobError B)) Q m s :
  pwp f (λ r m' s', match r with
                    | Some (Ok a) => pwp (k a) Q m' s'
                    | Some (Err e) => Q (Some (Err e)) m' s'
                    | None => Q None m' s'
                    end) m s →
  pwp (try_own f k) Q m s.
Proof.
  intros H. apply pwp_bind. eapply pwp_mono; [exact H|]. by intros [[a|e]|] m' s'.
Qed.

(** ** Reading *)

(** The rates a pass turns into floats fit their width. *)
Definition rates_fit (d : Db) : Prop :=
  ∀ k r, agreements d !! k = Some r → status_in [Created; AcceptedOnChain; Cancelling] r = true →
    is_Some (fee_rate r).

(** A read of the chain's clock. *)
Definition time_call (c : chain_call) : Prop := match c with CallTime _ => True | _ => False end.

Definition looked (s s' : SState) : Prop :=
  ∃ calls, consulted calls s s' ∧ Forall time_call calls.

Lemma looked_refl s : looked s s.
Proof. exists []. split; [|done]. split; try done. by rewrite app_nil_r. Qed.

Lemma looked_trans s1 s2 s3 : looked s1 s2 → looked s2 s3 → looked s1 s3.
Proof.
  intros (c1 & H1 & F1) (c2 & H2 & F2). exists (c1 ++ c2).
  split; [by eapply consulted_trans|]. by apply Forall_app.
Qed.

Lemma looked_alone s s' : looked s s' → alone s → alone s'.
Proof. intros (c & H & _) Ha. unfold alone. by rewrite (cs_others _ _ _ H). Qed.

(** What keeps a pass from panicking: rates within their width, an age limit
    within its width, and no poisoned lock. *)
Record can_run (max_age_hours : Z) (locks : Locks) (d : Db) : Prop := {
  cr_rates : rates_fit d;
  cr_hours : is_Some (time_hours max_age_hours);
  cr_breaker : lk_breaker_poisoned locks = false;
  cr_domain : lk_domain_poisoned locks = false }.

(** IISA has not been asked, and no lock was poisoned. *)
Definition unasked (m m' : Memory) : Prop := me_asked m' = me_asked m ∧ me_locks m' = me_locks m.

Lemma unasked_refl m : unasked m m.
Proof. done. Qed.

Lemma unasked_trans m1 m2 m3 : unasked m1 m2 → unasked m2 m3 → unasked m1 m3.
Proof. intros [??] [??]. split; congruence. Qed.

Context (conf : OfferConfig).
Notation can_go := (can_run (oc_dips_accepting_snapshot_max_age_hours conf)).

(** Whatever it returns, the pass has only looked and not asked IISA, and it
    panicked only if it could. *)
Definition harmless {A} (f : Task A) : Prop :=
  ∀ m s, alone s →
    pwp f (λ r m' s', looked s s' ∧ unasked m m' ∧ (r = None → ¬ can_go (me_locks m) (sdb s))) m s.

Lemma harmless_ret {A} (a : A) : harmless (mret a).
Proof. intros m s Ha. apply pwp_ret. split; [apply looked_refl|done]. Qed.

Lemma looked_can_go s s' m m' :
  looked s s' → unasked m m' → can_go (me_locks m) (sdb s) → can_go (me_locks m') (sdb s').
Proof. intros (c & H & _) [_ E]. by rewrite (cs_db _ _ _ H), E. Qed.

Lemma harmless_bind {A B} (f : Task A) (k : A → Task B) :
  harmless f → (∀ a, harmless (k a)) → harmless (f ≫= k).
Proof.
  intros Hf Hk m s Ha. apply pwp_bind. eapply pwp_mono; [by apply Hf|].
  intros [a|] m1 s1 (L1 & U1 & N1); [|by split_and!; [..|intros _; apply N1]].
  eapply pwp_mono; [eapply Hk, looked_alone; done|].
  intros r m2 s2 (L2 & U2 & N2). split_and!; [by eapply looked_trans|by eapply unasked_trans|].
  intros Hr Hgo. by eapply (N2 Hr), looked_can_go.
Qed.

Lemma harmless_read {A} (m : Z → DbM A) : (∀ now, reads (m now)) → harmless (lift (pg m)).
Proof.
  intros Hm mem s Ha. apply pwp_lift, wp_reads; [done..|]. intros r s' H _.
  split; [by exists []|done].
Qed.

Lemma harmless_try_lift {A B} (m : Z → DbM A) on_err (k : A → Task (result JobError B)) :
  (∀ now, reads (m now)) → (∀ a, harmless (k a)) → harmless (try_lift (pg m) on_err k).
Proof.
  intros Hm Hk. apply harmless_bind; [by apply harmless_read|].
  intros [a|e]; [apply Hk|apply harmless_ret].
Qed.

Lemma harmless_try_own {A B} (f : Task (result JobError A)) (k : A → Task (result JobError B)) :
  harmless f → (∀ a, harmless (k a)) → harmless (try_own f k).
Proof. intros Hf Hk. apply harmless_bind; [done|]. intros [a|e]; [apply Hk|apply harmless_ret]. Qed.

(** ** Registering *)

(** The agreements registered, each with the agreement it replaces if any, and
    nothing else: every pending cancellation that appears belongs to one. *)
Record added (rows : list (AgreementRow * option N)) (s s' : SState) : Prop := {
  ad_inv : reg_inv (sdb s');
  ad_others : ss_others s' = ss_others s;
  ad_now : snow s' = snow s;
  ad_log : slog s' = slog s;
  ad_kept : ∀ k r, srow s k = Some r → srow s' k = Some r;
  ad_new : ∀ r o, (r, o) ∈ rows → srow s (ag_id r) = None ∧ srow s' (ag_id r) = Some r;
  ad_only : ∀ k r, srow s' k = Some r → srow s k = Some r ∨ ∃ o, (r, o) ∈ rows;
  ad_nodup : NoDup (ag_id <$> rows.*1);
  ad_pending : ∀ p, p ∈ pending (sdb s') ↔
    p ∈ pending (sdb s) ∨ ∃ r, (r, Some p.2) ∈ rows ∧ ag_id r = p.1;
  ad_pushes : ∃ news, ss_pushes s' = ss_pushes s ++ news ∧
    Forall (λ push, push.1.2 = Background ∧ ∃ r o, (r, o) ∈ rows ∧
      push.1.1 = SendIndexingAgreementProposal (ag_indexer_url r) (ag_id r) (ag_request r)
                   (ag_deployment r) (tm_chain_id (t_metadata (ag_terms r)))) news }.

Lemma added_nil s s' :
  sdb s' = sdb s → reg_inv (sdb s) → ss_others s' = ss_others s → snow s' = snow s →
  slog s' = slog s → ss_pushes s' = ss_pushes s → added [] s s'.
Proof.
  intros D Hi O N L P. split; unfold srow; rewrite ?D; try done.
  - intros r o []%not_elem_of_nil.
  - intros k r Hr. by left.
  - constructor.
  - intros p. split; [by left|]. by intros [?|(r & []%not_elem_of_nil & _)].
  - exists []. by rewrite app_nil_r.
Qed.

Lemma elem_of_row_ids (rows : list (AgreementRow * option N)) id :
  id ∈ ag_id <$> rows.*1 ↔ ∃ r o, (r, o) ∈ rows ∧ ag_id r = id.
Proof.
  rewrite list_elem_of_fmap. split.
  - intros (r & -> & ([r' o] & -> & Hr)%list_elem_of_fmap). by exists r', o.
  - intros (r & o & Hr & <-). exists r. split; [done|]. apply list_elem_of_fmap. by exists (r, o).
Qed.

Lemma added_trans rows1 rows2 s1 s2 s3 :
  added rows1 s1 s2 → added rows2 s2 s3 → added (rows1 ++ rows2) s1 s3.
Proof.
  intros [I1 O1 N1 L1 K1 W1 Y1 D1 P1 Q1] [I2 O2 N2 L2 K2 W2 Y2 D2 P2 Q2].
  split; try done; try congruence.
  - auto.
  - intros r o [Hr|Hr]%elem_of_app.
    + destruct (W1 r o Hr). auto.
    + destruct (W2 r o Hr) as [H2 H3]. split; [|done].
      destruct (srow s1 (ag_id r)) eqn:E; [|done]. apply K1 in E. congruence.
  - intros k r [Hr|(o & Hr)]%Y2.
    + destruct (Y1 k r Hr) as [?|(o & ?)]; [by left|right; exists o; set_solver].
    + right. exists o. set_solver.
  - rewrite fmap_app, fmap_app. apply NoDup_app. split; [done|split; [|done]].
    intros id (r & o & Hr & <-)%elem_of_row_ids (r' & o' & Hr' & E)%elem_of_row_ids.
    destruct (W1 r o Hr) as [_ H1]. destruct (W2 r' o' Hr') as [H2 _]. congruence.
  - intros p. rewrite P2, P1. split.
    + intros [[?|(r & ? & ?)]|(r & ? & ?)]; [by left|right; exists r; set_solver..].
    + intros [?|(r & [?|?]%elem_of_app & ?)]; [by left; left|left; right; by exists r|right; by exists r].
  - destruct Q1 as (n1 & E1 & F1), Q2 as (n2 & E2 & F2). exists (n1 ++ n2).
    rewrite E2, E1, app_assoc. split; [done|]. apply Forall_app. split.
    + eapply Forall_impl; [exact F1|]. intros x (? & r & o & ? & ?). split; [done|].
      exists r, o. set_solver.
    + eapply Forall_impl; [exact F2|]. intros x (? & r & o & ? & ?). split; [done|].
      exists r, o. set_solver.
Qed.

Lemma register_cases now p d r d' :
  register_new_indexing_agreement now p d = (r, d') →
  (∃ e, r = Err e ∧ d' = d) ∨
  r = Ok (na_agreement_id p) ∧ agreements d !! na_agreement_id p = None ∧
    d' = set_agreements (<[na_agreement_id p := new_agreement_row now p]> (agreements d)) d.
Proof.
  unfold register_new_indexing_agreement. rewrite bind_run. simpl.
  destruct (agreements d !! na_agreement_id p) eqn:Ha; [intros [= <- <-]; eauto|].
  destruct (requests d !! na_request_id p); [|intros [= <- <-]; eauto].
  destruct (deadline_fits _); [|intros [= <- <-]; eauto].
  rewrite bind_run. unfold write_agreements. destruct (decide _); intros [= <- <-]; eauto.
Qed.

(** The statement of an addition. *)
Definition addition (now : Z) (p : NewAgreementParams) (old : option N) : DbM N :=
  match old with
  | Some old_id => register_agreement_with_pending_cancellation now p old_id
  | None => register_new_indexing_agreement now p
  end.

Definition pair_of (p : NewAgreementParams) (old : option N) : gset (N * N) :=
  match old with Some o => {[ (na_agreement_id p, o) ]} | None => ∅ end.

Lemma addition_cases now p old d r d' :
  addition now p old d = (r, d') →
  (∃ e, r = Err e ∧ d' = d) ∨
  r = Ok (na_agreement_id p) ∧ agreements d !! na_agreement_id p = None ∧
    d' = set_pending (pair_of p old ∪ pending d)
           (set_agreements (<[na_agreement_id p := new_agreement_row now p]> (agreements d)) d).
Proof.
  destruct old as [o|]; simpl.
  - unfold register_agreement_with_pending_cancellation, transaction. rewrite bind_run.
    destruct (register_new_indexing_agreement now p d) as [r1 d1] eqn:E1.
    destruct (register_cases _ _ _ _ _ E1) as [(e & -> & ->)|(-> & Hn & ->)]; [intros [= <- <-]; eauto|].
    rewrite bind_run. unfold insert_pending_cancellation. rewrite bind_run. simpl.
    rewrite lookup_insert_eq. destruct (_ !! o); simpl; intros [= <- <-]; eauto.
  - intros [H|(H1 & H2 & H3)]%register_cases; [by left|right]. subst.
    split; [done|split; [done|]]. by rewrite union_empty_l_L; destruct d.
Qed.

Lemma addition_inv now p old d0 : preserves (inv_from d0) (addition now p old).
Proof. destruct old; [apply register_replacing_inv|apply register_inv]. Qed.

(** The row an addition registers. *)
Definition added_row (now : Z) (p : NewAgreementParams) (old : option N)
    : list (AgreementRow * option N) := [(new_agreement_row now p, old)].

Lemma added_one now p old s s' :
  snow s = now → reg_inv (sdb s') → aside s s' → agreements (sdb s) !! na_agreement_id p = None →
  sdb s' = set_pending (pair_of p old ∪ pending (sdb s))
             (set_agreements (<[na_agreement_id p := new_agreement_row now p]>
                (agreements (sdb s))) (sdb s)) →
  added (added_row now p old) s s'.
Proof.
  intros <- Hi [Q P C' L N' O] Hn D. split; try done; unfold srow; rewrite ?D; simpl.
  - intros k r Hr. rewrite lookup_insert_ne; [done|]. congruence.
  - intros r o [= -> ->]%list_elem_of_singleton. simpl. by rewrite lookup_insert_eq.
  - intros k r. destruct (decide (na_agreement_id p = k)) as [<-|Hk].
    + rewrite lookup_insert_eq. intros [= <-]. right. exists old. by left.
    + rewrite lookup_insert_ne by done. by left.
  - apply NoDup_singleton.
  - intros [n o]. simpl. rewrite elem_of_union. unfold pair_of, added_row.
    destruct old as [o'|]; simpl.
    + split; [intros [[= -> ->]%elem_of_singleton|?]|].
      * right. eexists. split; [by left|done].
      * by left.
      * intros [?|(r & [= -> <-]%list_elem_of_singleton & <-)]; [by right|left]. set_solver.
    + split; [set_solver|]. intros [?|(r & [= ]%list_elem_of_singleton & _)]. set_solver.
  - exists []. by rewrite app_nil_r.
Qed.

Lemma wp_register_addition p old (Q : result Error N → SState → Prop) s :
  alone s → reg_inv (sdb s) →
  (∀ r s' rows, added rows s s' →
    rows = [] ∨ rows = added_row (snow s) p (ia_id <$> old) →
    (∀ id, r = Ok id → id = na_agreement_id p ∧ rows = added_row (snow s) p (ia_id <$> old)) →
    Q r s') →
  wp (register_addition p old) Q s.
Proof.
  intros Ha Hi HQ.
  assert (E : register_addition (C := C) (W := W) p old = pg (λ now, addition now p (ia_id <$> old)))
    by (by destruct old).
  rewrite E. clear E. generalize dependent (ia_id <$> old). intros o HQ.
  destruct (addition (snow s) p o (sdb s)) as [r d] eqn:Hd.
  assert (Hi' : reg_inv d) by (eapply keeps_inv; [intros; apply addition_inv|exact Hi|exact Hd]).
  assert (Hsame : ∀ s', aside s s' → sdb s' = sdb s → added [] s s').
  { intros s' [] D. by apply added_nil. }
  pose proof (addition_cases _ _ _ _ _ _ Hd) as Hc. apply wp_pg; [done|..]; rewrite Hd.
  - intros r' s' As [= -> ->]. destruct Hc as [(e & -> & Hs)|(-> & Hn & Hs)].
    + apply (HQ _ _ []); [by apply Hsame|by left|done].
    + apply (HQ _ _ (added_row (snow s) p o)); [by apply added_one|by right|].
      by intros id [= <-].
  - intros s' As Hs'. simpl in Hs'. destruct Hs' as [Hs'|Hs'].
    + apply (HQ _ _ []); [by apply Hsame|by left|done].
    + subst d. destruct Hc as [(e & -> & Hs)|(-> & Hn & Hs)].
      * apply (HQ _ _ []); [by apply Hsame|by left|done].
      * apply (HQ _ _ (added_row (snow s) p o)); [by apply added_one|by right|done].
Qed.

(** Each addition with the old agreement its turn takes. *)
Fixpoint pairing (to_add olds : list N) : list (N * option N) :=
  match to_add with
  | [] => []
  | id :: rest => (id, head olds) :: pairing rest (tail olds)
  end.

Lemma added_push rows msg s s1 s2 ok r o :
  added rows s s1 → ss_dispatch s2 = ss_dispatch s1 → ss_others s2 = ss_others s1 →
  ss_pushes s2 = ss_pushes s1 ++ [(msg, Background, ok)] → (r, o) ∈ rows →
  msg = SendIndexingAgreementProposal (ag_indexer_url r) (ag_id r) (ag_request r)
          (ag_deployment r) (tm_chain_id (t_metadata (ag_terms r))) →
  added rows s s2.
Proof.
  intros [I1 O1 N1 L1 K1 W1 Y1 D1 P1 (news & E1 & F1)] Hd Ho Hp Hr Hm.
  split; unfold srow, sdb, snow, slog in *; rewrite ?Hd; try done; try congruence.
  exists (news ++ [(msg, Background, ok)]). rewrite Hp, E1, app_assoc. split; [done|].
  apply Forall_app. split; [done|]. apply Forall_singleton. split; [done|]. by exists r, o.
Qed.

Definition has_offers (offers : gmap N NewOffer) (ids : list N) : Prop :=
  ∀ id, id ∈ ids → ∃ o, offers !! id = Some o ∧ ix_id (no_indexer o) = id.

(** ** Ending *)

Lemma cancelling_row_op now id :
  row_op id (guard_row [Created; AcceptedOnChain; Rejected; Expired] (touch now Cancelling))
    (Err NoRecordsUpdated) (mark_indexing_agreement_as_cancelling now id).
Proof.
  apply guarded_row_op. intros d Hd. unfold guarded, mark_indexing_agreement_as_cancelling.
  by rewrite set_status_from_run by (done || set_solver).
Qed.

Definition call_about (id : N) (c : chain_call) : Prop :=
  match c with CallRead i _ | CallCancel i _ _ _ _ => i = id | _ => False end.

(** An agreement let go: only its row may differ, and then it is cancelling or
    canceled; the chain was asked only about it, and to cancel it only once it
    was marked. *)
Record let_go (id : N) (s s' : SState) : Prop := {
  lg_inv : reg_inv (sdb s');
  lg_only : only_row id (sdb s) (sdb s');
  lg_pushes : ss_pushes s' = ss_pushes s;
  lg_now : snow s' = snow s;
  lg_others : ss_others s' = ss_others s;
  lg_calls : ∃ calls, slog s' = slog s ++ calls ∧ Forall marked_call calls ∧
    Forall (call_about id) calls;
  lg_row : srow s' id = srow s id ∨
    db_status (sdb s') id ∈ [Some Cancelling; Some CanceledByRequester] }.

Lemma on_row_let_go id s s' :
  on_row id s s' →
  srow s' id = srow s id ∨ db_status (sdb s') id ∈ [Some Cancelling; Some CanceledByRequester] →
  let_go id s s'.
Proof.
  intros [[Q P C' L N' O] Hi Ho _] Hr. split; try done. exists []. by rewrite L, app_nil_r.
Qed.

Lemma let_go_trans id s1 s2 s3 :
  let_go id s1 s2 → let_go id s2 s3 → let_go id s1 s3.
Proof.
  intros [I1 O1 P1 N1 A1 (c1 & L1 & M1 & F1) R1] [I2 O2 P2 N2 A2 (c2 & L2 & M2 & F2) R2].
  split; try congruence; try done; [by etrans|..].
  - exists (c1 ++ c2). rewrite L2, L1, app_assoc. split_and!; [done|by apply Forall_app..].
  - destruct R2 as [R2|R2]; [|by right]. rewrite !db_status_row in *. rewrite R2.
    by destruct R1; [left|right].
Qed.

Lemma cancel_calls_about config a held calls l :
  cancel_calls config a held calls l → Forall (call_about (ia_id a)) calls.
Proof. by destruct 1; repeat constructor. Qed.

(** What a guarded mark leaves. *)
Lemma wp_mark_let_go (m : Z → DbM ()) id allowed st (Q : result Error () → SState → Prop) s :
  row_op id (guard_row allowed (touch (snow s) st)) (Err NoRecordsUpdated) (m (snow s)) →
  (∀ d0, preserves (inv_from d0) (m (snow s))) → reg_inv (sdb s) →
  st ∈ [Cancelling; CanceledByRequester] →
  (∀ x s', let_go id s s' → (x = Ok tt → db_status (sdb s') id = Some st) → Q x s') →
  wp (statement m) Q s.
Proof.
  intros Hop Hp Hi Hst HQ.
  assert (Hin : Some st ∈ [Some Cancelling; Some CanceledByRequester]) by set_solver.
  assert (Hcase : ∀ r, (guard_row allowed (touch (snow s) st) r).2 = r ∨
    ag_status (guard_row allowed (touch (snow s) st) r).2 = st).
  { intros r. unfold guard_row. destruct (status_in allowed r); auto. }
  assert (Hrow : ∀ s' : SState, srow s' id = (row_answer (guard_row allowed (touch (snow s) st))
      (Err NoRecordsUpdated) (srow s id)).2 →
    srow s' id = srow s id ∨ db_status (sdb s') id ∈ [Some Cancelling; Some CanceledByRequester]).
  { intros s' E. rewrite db_status_row, E. destruct (srow s id) as [r|]; [|by left]. simpl.
    destruct (Hcase r) as [-> | ->]; [by left|by right]. }
  eapply wp_row; [exact Hop|exact Hp|exact Hi|..].
  - intros x s' Ho Ha. apply HQ.
    + apply on_row_let_go; [done|]. apply Hrow. by rewrite <-Ha.
    + rewrite db_status_row. destruct (srow s id) as [r|]; simpl in Ha; injection Ha as -> Hr; [|done].
      rewrite Hr. unfold guard_row. by destruct (status_in allowed r).
  - intros s' Ho Hf Hr. apply HQ; [|done]. apply on_row_let_go; [done|].
    destruct Hr as [Hr|Hr]; [by left|by apply Hrow].
Qed.

(** All of them, in turn. *)
Record all_let_go (ids : list N) (s s' : SState) : Prop := {
  al_inv : reg_inv (sdb s');
  al_rest : ∀ k, k ∉ ids → srow s' k = srow s k;
  al_db : sdb s' = set_agreements (agreements (sdb s')) (sdb s);
  al_pushes : ss_pushes s' = ss_pushes s;
  al_now : snow s' = snow s;
  al_others : ss_others s' = ss_others s;
  al_calls : ∃ calls, slog s' = slog s ++ calls ∧ Forall marked_call calls ∧
    Forall (λ c, ∃ id, id ∈ ids ∧ call_about id c) calls;
  al_rows : ∀ id, srow s' id = srow s id ∨
    db_status (sdb s') id ∈ [Some Cancelling; Some CanceledByRequester] }.

(** Only the shortfall latch may have changed. *)
Record latched (s s' : SState) : Prop := {
  la_inv : reg_inv (sdb s');
  la_agreements : agreements (sdb s') = agreements (sdb s);
  la_pending : pending (sdb s') = pending (sdb s);
  la_pushes : ss_pushes s' = ss_pushes s;
  la_now : snow s' = snow s;
  la_others : ss_others s' = ss_others s;
  la_log : slog s' = slog s }.

Lemma shortfall_agreements id act d :
  agreements (set_indexing_request_shortfall_active id act d).2 = agreements d ∧
  pending (set_indexing_request_shortfall_active id act d).2 = pending d.
Proof.
  unfold set_indexing_request_shortfall_active. rewrite bind_run. simpl.
  destruct (requests d !! id) as [r|]; [|done]. case_bool_decide; [|done].
  rewrite bind_run. unfold write_request. simpl. destruct (_ <? 0); [done|]. by destruct (decide _).
Qed.

(** ** The parameters of a pass *)

Context (tx_string : N → string).
Context (keccak256 : list Z → list Z).
Context (abi_encode_key : N → N → N → Z → Z → list Z).
Context (abi_encode_terms : Z → Z → list Z).
Context (abi_encode_metadata : N → Z → list Z → list Z).
Context (eip712_signing_hash : RecurringCollectionAgreement → list Z).
Context (get_indexer_url : N → option string).
Context (get_network_by_caip2_id : string → option string).
Context (parse_rfc3339 : string → option Z).
Context (now_v7 : nat → N) (hash_order : gset N → list N).
Context (now_secs now_utc looked_at stored_at : Z).
Context (chain_price : gmap Z IndexingAgreementChainPrices).
Context (additional_networks : gmap Z string) (entity_counts : gmap (N * N) Z).
Context (signer_chain_id : Z).
Context (bypass : bool) (chain_listener_chain_id : option Z).

Lemma harmless_fees :
  harmless (compute_optimistic_dips_fees (C := C) (W := W) (I := I) entity_counts).
Proof.
  intros m s Ha. apply pwp_try_lift, wp_reads; [done|intros; unfold get_agreement_fee_rates; solve_reads|].
  intros [rates|e] s' H Hr; [|by split; [exists []|]]. specialize (Hr rates eq_refl).
  destruct rates as [rates|]; [by split; [exists []|]|].
  split; [by exists []|split; [done|]]. intros _ [Hfit _ _ _]. unfold get_agreement_fee_rates in Hr.
  rewrite bind_run in Hr. simpl in Hr. injection Hr as Hr.
  assert (Hs : is_Some (mapM fee_rate
    (select (status_in [Created; AcceptedOnChain; Cancelling]) (agreements (sdb s))))).
  { apply mapM_is_Some, Forall_forall. intros r (k & Hk & Hs)%elem_of_select. by eapply Hfit. }
  rewrite Hr in Hs. by destruct Hs.
Qed.

Lemma harmless_gather dep chain :
  harmless (gather_selection_context (C := C) (W := W) (I := I) conf entity_counts dep chain).
Proof.
  unfold gather_selection_context.
  apply harmless_try_lift; [intros; solve_reads|intros agreements].
  apply harmless_try_lift; [intros; unfold get_pending_agreement_indexers_by_deployment; case_match; solve_reads|].
  intros pending_agreements.
  apply harmless_try_lift; [intros; unfold get_declined_indexers_by_deployment; solve_reads|intros declined].
  apply harmless_try_lift; [intros; unfold get_indexer_denylist; solve_reads|intros denied].
  apply harmless_try_lift; [intros; unfold get_unresponsive_indexers; solve_reads|intros unresponsive].
  apply harmless_try_own; [apply harmless_fees|intros fees; apply harmless_ret].
Qed.

Lemma harmless_bench dep chain ceilings unresponsive declined :
  harmless (bench_unresponsive (C := C) (W := W) (I := I) parse_rfc3339 now_utc looked_at stored_at
    conf dep chain ceilings unresponsive declined).
Proof.
  unfold bench_unresponsive. destruct unresponsive as [|u us]; [apply harmless_ret|].
  intros m s Ha. unfold pwp.
  destruct (get_or_fetch _ _ _ _ _ (me_cache m) (me_iisa m)) as [[snapshot cache] iisa].
  destruct (breaker_evaluate _ _ _ _ _ _ _ _ _) as [[suppress breaker]|] eqn:Hb.
  { apply wp_ret. split; [apply looked_refl|done]. }
  apply wp_ret. split; [apply looked_refl|split; [done|]]. intros _ [_ Hh Hp _]. rewrite Hp in Hb.
  destruct (breaker_evaluate_runs parse_rfc3339 now_utc chain (u :: us) snapshot
    (oc_mass_unresponsive_trip_fraction conf) (oc_mass_unresponsive_reset_fraction conf)
    _ (me_breaker m) Hh) as [x Hx]. congruence.
Qed.

Notation selecting := (select_target (C := C) (W := W) (I := I) get_network_by_caip2_id parse_rfc3339
  now_utc looked_at stored_at conf additional_networks entity_counts).
Notation deadline_clock := (resolve_deadline_clock (C := C) (W := W) (I := I) now_secs bypass
  chain_listener_chain_id).

(** IISA was asked once, for [n] indexers of [dep], with this answer. *)
Definition asked_answered (dep : N) (n : Z) (answer : result SelectionError (list SelectedIndexer))
    (m m' : Memory) : Prop :=
  me_locks m' = me_locks m ∧ ∃ context, me_asked m' = me_asked m ++ [mkAsked dep n context answer].

(** Selecting only looks; picks are what IISA answered. *)
Definition selected_ok (dep : N) (n : Z) (m : Memory) (s : SState)
    (r : option (result JobError (PriceCeilings * list SelectedIndexer))) (m' : Memory) (s' : SState)
    : Prop :=
  looked s s' ∧ (r = None → ¬ can_go (me_locks m) (sdb s)) ∧
  match r with
  | Some (Ok (_, picks)) => asked_answered dep n (Ok picks) m m'
  | _ => unasked m m' ∨ ∃ e, asked_answered dep n (Err e) m m'
  end.

Lemma wp_select_target dep chain n m s :
  alone s → pwp (selecting dep chain n) (selected_ok dep n m s) m s.
Proof.
  intros Ha. unfold select_target. apply pwp_try_own.
  eapply pwp_mono; [by apply harmless_gather|]. intros r m1 s1 (L1 & U1 & N1).
  destruct r as [[gathered|e]|]; [|split; [done|by split; [|left]]|
    split; [done|split; [intros _; by apply N1|by left]]].
  destruct (resolve_chain_name _ _ _) as [chain_name|]; [|apply pwp_ret; split; [done|by split; [|left]]].
  apply pwp_bind. eapply pwp_mono; [eapply harmless_bench, looked_alone; done|].
  intros declined m2 s2 (L2 & U2 & N2).
  assert (L : looked s s2) by by eapply looked_trans.
  assert (U : unasked m m2) by by eapply unasked_trans.
  destruct declined as [declined|].
  2:{ split_and!; [done| |by left]. intros _ Hgo. eapply (N2 eq_refl), looked_can_go; done. }
  destruct U as [U3 U4].
  apply pwp_try_own. unfold pwp at 1, ask_iisa. destruct (select_indexers _ _ _ _) as [answer iisa].
  apply wp_ret. simpl. destruct answer as [picks|[]].
  all: try (apply pwp_ret); (split; [done|split; [done|]]).
  - split; [done|]. simpl. rewrite U3. by eexists.
  - right. exists IisaServiceUnavailable. split; [done|]. simpl. rewrite U3. by eexists.
  - right. eexists. split; [done|]. simpl. rewrite U3. by eexists.
  - right. exists SelectionFailed. split; [done|]. simpl. rewrite U3. by eexists.
Qed.

Lemma harmless_clock : harmless deadline_clock.
Proof.
  unfold resolve_deadline_clock. destruct bypass; [|apply harmless_ret]. simpl.
  apply harmless_bind.
  - intros m s Ha. apply pwp_lift, wp_chain_timestamp. intros answer s' H%asked_consulted.
    split; [|done]. exists [CallTime answer]. split; [exact H|]. by repeat constructor.
  - intros [ts|e]; [apply harmless_ret|]. destruct chain_listener_chain_id; [|apply harmless_ret].
    apply harmless_bind; [apply harmless_read; intros; unfold get_chain_listener_state; solve_reads|].
    intros r. apply harmless_ret.
Qed.

(** ** Registering in turn *)

Notation params := (offer_params keccak256 abi_encode_key abi_encode_terms abi_encode_metadata
  conf signer_chain_id).
Notation version_hash := (compute_terms_version_hash keccak256 abi_encode_key abi_encode_terms
  abi_encode_metadata eip712_signing_hash).
Notation adding := (add_each (C := C) (W := W) (I := I) keccak256 abi_encode_key abi_encode_terms
  abi_encode_metadata eip712_signing_hash now_v7 conf signer_chain_id).

(** A row offers what the pass meant to offer its indexer. *)
Definition offered_row (created : Z) (req dep : N) (chain now : Z) (offers : gmap N NewOffer)
    (r : AgreementRow) : Prop :=
  ∃ nonce o hash, offers !! ag_indexer r = Some o ∧
    version_hash false nonce (offer_terms conf signer_chain_id dep chain now o) = Some hash ∧
    r = new_agreement_row created (params req dep chain now nonce o hash).

Lemma wp_add_each req dep chain now i offers olds to_add m s :
  alone s → reg_inv (sdb s) → (to_add ≠ [] → lk_domain_poisoned (me_locks m) = false) →
  NoDup to_add → has_offers offers to_add →
  pwp (adding req dep chain now i offers olds to_add) (λ r m' s', ∃ rows ids cands,
    r = Some (drop (length to_add) olds, ids, cands) ∧ m' = m ∧ added rows s s' ∧
    ((λ x, (ag_indexer x.1, x.2)) <$> rows) `sublist_of` pairing to_add (ia_id <$> olds) ∧
    Forall (λ x, offered_row (snow s) req dep chain now offers x.1) rows) m s.
Proof.
  revert i offers olds s. induction to_add as [|id rest IH]; intros i offers olds s Ha Hi Hlock Hnd Ho.
  { apply pwp_ret. exists [], [], []. rewrite drop_0. split_and!; try done. by apply added_nil. }
  apply NoDup_cons in Hnd as [Hid Hnd]. simpl. destruct (Ho id) as (o & Hoid & Hix); [by left|].
  assert (Hl : lk_domain_poisoned (me_locks m) = false) by by apply Hlock.
  rewrite Hoid. apply pwp_bind, wp_ret. simpl. rewrite Hl.
  destruct (version_hash false (now_v7 i) (offer_terms conf signer_chain_id dep chain now o))
    as [hash|] eqn:Hhash; [|done]. set (p := params req dep chain now (now_v7 i) o hash).
  assert (Hrest : ∀ olds' s1 rows1, added rows1 s s1 →
    ((λ x, (ag_indexer x.1, x.2)) <$> rows1) `sublist_of` [(id, head (ia_id <$> olds))] →
    Forall (λ x, offered_row (snow s) req dep chain now offers x.1) rows1 → olds' = tail olds →
    pwp (adding req dep chain now (Datatypes.S i) (delete id offers) olds' rest)
      (λ r m' s', ∃ rows ids cands, r = Some (drop (length rest) olds', ids, cands) ∧ m' = m ∧
        added rows s s' ∧ ((λ x, (ag_indexer x.1, x.2)) <$> rows) `sublist_of`
          pairing (id :: rest) (ia_id <$> olds) ∧
        Forall (λ x, offered_row (snow s) req dep chain now offers x.1) rows) m s1).
  { intros olds' s1 rows1 A1 Hs1 F1 ->. eapply pwp_mono; [apply IH|].
    - unfold alone. by rewrite (ad_others _ _ _ A1).
    - apply A1.
    - done.
    - done.
    - intros k Hk. rewrite lookup_delete_ne by (by intros ->). apply Ho. by right.
    - intros r m' s' (rows & ids & cands & -> & -> & A2 & Hs2 & F2).
      exists (rows1 ++ rows), ids, cands. split_and!; try done; [by eapply added_trans|..].
      + rewrite fmap_app. change (pairing (id :: rest) (ia_id <$> olds))
          with ([(id, head (ia_id <$> olds))] ++ pairing rest (tail (ia_id <$> olds))).
        apply sublist_app; [done|]. by destruct olds.
      + apply Forall_app. split; [done|]. eapply Forall_impl; [exact F2|]. intros [r o'] (nonce & o2 & h & H1 & Hh & H2).
        exists nonce, o2, h. apply lookup_delete_Some in H1 as [_ H1]. rewrite (ad_now _ _ _ A1) in H2. done. }
  apply pwp_bind, pwp_lift, wp_register_addition; [done..|]. intros registered s1 rows A1 Hrows Hok.
  assert (Hgood : ((λ x, (ag_indexer x.1, x.2)) <$> rows) `sublist_of` [(id, head (ia_id <$> olds))] ∧
    Forall (λ x, offered_row (snow s) req dep chain now offers x.1) rows).
  { destruct Hrows as [-> | ->]; simpl; [split; [apply sublist_nil_l|done]|]. rewrite Hix. split.
    - by destruct olds.
    - apply Forall_singleton. exists (now_v7 i), o, hash. split; [simpl; by rewrite Hix|done]. }
  destruct Hgood as [Hs1 F1]. assert (Hd : ∀ n, drop n (tail olds) = drop (Datatypes.S n) olds)
    by (intros n; destruct olds; [apply drop_nil|done]).
  destruct registered as [aid|e].
  2:{ eapply pwp_mono; [eapply Hrest; [exact A1|exact Hs1|exact F1|done]|]. intros r m' s' (rows' & ids & cands & -> & H).
      exists rows', ids, cands. by rewrite Hd. }
  destruct (Hok aid eq_refl) as [-> ->]. apply pwp_bind, pwp_lift, wp_push. intros ok s2 E2 P2 O2.
  apply pwp_bind. eapply pwp_mono.
  { eapply Hrest; [|exact Hs1|exact F1|done]. eapply added_push; [exact A1|done..| |by left|done]. exact P2. }
  intros r m' s' (rows' & ids & cands & -> & -> & H). apply pwp_ret. rewrite Hd.
  destruct ok; do 3 eexists; (split; [reflexivity|split; [done|exact H]]).
Qed.

(** ** Ending in turn *)

Lemma wp_send_not_wanted a s :
  reg_inv (sdb s) → db_status (sdb s) (ia_id a) = Some Cancelling →
  wp (on_dispatch (send_marked_cancel tx_string (oc_agreement_conf conf) now_secs a NotWanted))
    (λ _ s', let_go (ia_id a) s s') s.
Proof.
  intros Hi Hst. unfold send_marked_cancel. apply wp_on_bind, wp_cancel_if_live.
  intros calls l s1 Hc A1. rewrite Hst in Hc.
  assert (G1 : let_go (ia_id a) s s1).
  { pose proof (cancel_calls_marked _ _ _ _ Hc). pose proof (cancel_calls_about _ _ _ _ _ Hc).
    destruct A1 as [D N' Q P O F L]. split; unfold srow; rewrite ?D; try done; [|by left].
    by exists calls. }
  destruct l as [by_indexer|tx|err|tx err|err]; simpl; try (by apply wp_on_ret).
  destruct (bool_decide (ia_status a ≠ AcceptedOnChain)); [by apply wp_on_ret|].
  apply wp_on_bind, wp_confirm_cancelled; [apply G1|]. intros b s2 O2 Hmv _ _. apply wp_on_ret.
  eapply let_go_trans; [exact G1|]. apply on_row_let_go; [done|]. right.
  unfold moved_to in Hmv. rewrite (ak_db _ _ _ A1), Hst in Hmv. destruct Hmv as [-> | ->]; [by left|by right; left].
Qed.

Notation unpair := (cancel_unpaired (C := C) (W := W) tx_string now_secs conf).

Lemma wp_cancel_unpaired a s :
  alone s → reg_inv (sdb s) → wp (unpair a) (λ _ s', let_go (ia_id a) s s') s.
Proof.
  intros Ha Hi. unfold cancel_unpaired.
  destruct (negb _).
  - apply wp_bind, wp_pg_alone; [done|].
    eapply (wp_mark_let_go (λ now, mark_indexing_agreement_as_canceled_by_requester now (ia_id a)));
      [apply (end_mark_row_op NotWanted)|intros; apply set_status_inv|done|by right; left|].
    intros x s' G _. by apply wp_ret.
  - apply wp_bind. unfold start_cancel. apply wp_on_bind.
    change (on_dispatch (C := C) (W := W) (mark_cancelling a NotWanted))
      with (statement (C := C) (W := W) (λ now, mark_indexing_agreement_as_cancelling now (ia_id a))).
    eapply wp_mark_let_go; [apply cancelling_row_op|intros; apply set_status_inv|done|by left|].
    intros x s1 G1 Hok. destruct x as [[]|e]; [|by apply wp_on_ret, wp_ret].
    apply wp_on_bind. eapply wp_mono; [apply wp_send_not_wanted; [apply G1|by apply Hok]|].
    intros started s2 G2. apply wp_on_ret, wp_ret. by eapply let_go_trans.
Qed.

Lemma wp_cancel_each olds s :
  alone s → reg_inv (sdb s) →
  wp (each (λ a, _ ← unpair a; mret tt) olds) (λ _ s', all_let_go (ia_id <$> olds) s s') s.
Proof.
  revert s. induction olds as [|a olds IH]; intros s Ha Hi; simpl.
  { apply wp_ret. split; try done; [by destruct s as [[[[]]]]|exists []; by rewrite app_nil_r|by left]. }
  apply wp_bind, wp_bind. eapply wp_mono; [by apply wp_cancel_unpaired|].
  intros u s1 [I1 [D1 O1] P1 N1 A1 (c1 & L1 & M1 & F1) R1]. apply wp_ret.
  eapply wp_mono; [apply IH; [unfold alone; congruence|done]|].
  intros [] s2 [I2 R2 D2 P2 N2 A2 (c2 & L2 & M2 & F2) Y2]. split; try congruence; try done.
  - intros k [Hk1 Hk2]%not_elem_of_cons. rewrite R2 by done. unfold srow. by apply O1.
  - rewrite D2, D1. done.
  - exists (c1 ++ c2). rewrite L2, L1, app_assoc. split_and!; [done|by apply Forall_app|].
    apply Forall_app. split.
    + eapply Forall_impl; [exact F1|]. intros c Hc. exists (ia_id a). split; [by left|done].
    + eapply Forall_impl; [exact F2|]. intros c (id & ? & ?). exists id. split; [by right|done].
  - intros id. destruct (Y2 id) as [Y|Y]; [|by right]. rewrite db_status_row in *. rewrite Y.
    destruct (decide (id = ia_id a)) as [->|Hk]; [|left; unfold srow; by apply O1].
    exact R1.
Qed.

(** ** The whole pass *)

Lemma wp_signal_shortfall req dep n picks m s (Q : option () → Memory → SState → Prop) :
  alone s → reg_inv (sdb s) → (∀ m' s', latched s s' → unasked m m' → Q (Some tt) m' s') →
  pwp (signal_shortfall (C := C) (W := W) (I := I) signer_chain_id req dep n picks) Q m s.
Proof.
  intros Ha Hi HQ. apply pwp_bind, pwp_lift.
  set (f := λ _ : Z, set_indexing_request_shortfall_active req (picks <? n)).
  assert (Hl : ∀ s', aside s s' → sdb s' = sdb s ∨ sdb s' = (f (snow s) (sdb s)).2 → latched s s').
  { intros s' [Q' P C' L N' O] Hd. destruct (shortfall_agreements req (picks <? n) (sdb s)) as [E1 E2].
    split; try done; destruct Hd as [-> | ->]; try done.
    eapply (keeps_inv (f (snow s))); [intros; apply set_shortfall_inv|exact Hi|apply surjective_pairing]. }
  assert (Hk : ∀ (r : result Error bool) s', latched s s' →
    pwp (if (picks <? n) && (match r with Ok changed => changed | Err _ => false end)
         then emit (NIndexersUnavailable dep signer_chain_id (as_i32 n) (as_i32 picks))
         else mret tt) Q m s').
  { intros r s' L. destruct (_ && _); [apply wp_ret|apply pwp_ret]; by apply HQ. }
  apply (wp_pg f); [done|..].
  - intros r s' As Hr. apply (Hk r s'), (Hl s'); [done|]. right. by rewrite Hr.
  - intros s' As Hd. by apply (Hk (Err (DbError ConnectionLost)) s'), (Hl s').
Qed.

End pass.

End ReassessProps.
