(* ===== verification/ReassessPass.v ===== *)
(** * A reassessment from start to end

    The two promises of a pass, whatever IISA, the chain and the queue answer
    and whichever connections are lost: the agreements it registers fit the
    request's target and the in-flight caps, and it ends only the surplus. *)

From S2P Require Import Prelude Schema Registry RegistryInv RegistryRuns RegistryOps RegistryQueries.
From S2P Require Import JobQueue Worker Rca CancelDispatch CancelDispatchProps.
From S2P Require Import ChainEvents ChainListener ChainReconcile Services RowOps Interleaving QueryProps Liveness.
From S2P Require Import Selection Reassess ReassessPlan ReassessProps.
Import Schema Registry RegistryInv RegistryRuns RegistryOps RegistryQueries.
Import JobQueue Worker Rca CancelDispatch CancelDispatchProps ChainEvents ChainListener.
Import ChainReconcile Services RowOps Interleaving QueryProps Liveness Selection Reassess ReassessPlan.
Import ReassessProps.
Local Open Scope Z_scope.
Local Set Default Proof Using "Type*".

Module ReassessPass.

(** ** What the request looks like when the pass starts *)

Definition active_rows (req : N) (d : Db) : list AgreementRow :=
  select (λ r, bool_decide (ag_request r = req) && status_in [Created; AcceptedOnChain] r)
    (agreements d).

(** Cancelling agreements of indexers that stopped serving, not yet seen
    ended: each keeps its slot. *)
Definition holding_rows (req : N) (d : Db) : list AgreementRow :=
  select (λ r, bool_decide (ag_request r = req) && status_in [Cancelling] r
               && ag_replacement_pending r && is_null (ag_ended_seen_at r)) (agreements d).

Definition indexers (rows : list AgreementRow) : gset N := list_to_set (ag_indexer <$> rows).

(** The target the pass works towards. *)
Definition target_of (req : N) (d : Db) : Z :=
  match requests d !! req with
  | Some r => if bool_decide (rq_status r = Open) then as_u64 (rq_num_candidates r) else 0
  | None => 0
  end.

(** The active agreements outside IISA's group. *)
Definition unwanted_rows (req : N) (d : Db) (group : gset N) : list AgreementRow :=
  filter (λ r, ag_indexer r ∉ group) (active_rows req d).

Definition in_flight_rows (now : Z) (d : Db) : list AgreementRow :=
  select (in_flight now) (agreements d).

Lemma active_read req d :
  provider_agreements (get_active_indexing_agreements_by_indexing_request_id req) d =
  (Ok (agreement_of_row <$> active_rows req d), d).
Proof.
  unfold provider_agreements, get_active_indexing_agreements_by_indexing_request_id.
  rewrite !bind_run. simpl. rewrite known_rows, filter_all; [done|].
  apply Forall_forall. intros r (k & _ & [_ Hs]%andb_true_iff)%elem_of_select E.
  unfold status_in in Hs. apply bool_decide_eq_true in Hs. rewrite E in Hs. set_solver.
Qed.

Lemma holding_read req d :
  get_abandoned_indexers_holding_slots req d = (Ok (ag_indexer <$> holding_rows req d), d).
Proof. done. Qed.

Lemma flight_read now d :
  reg_inv d →
  count_created_agreements_by_indexer now d =
  (Ok (count_rows ag_indexer (in_flight_rows now d), Z.of_nat (length (in_flight_rows now d))), d).
Proof. intros Hi. unfold count_created_agreements_by_indexer. by rewrite casts_deadline_ok. Qed.

Lemma request_read req d :
  ∃ o, provider_request_by_id req d = (Ok o, d) ∧
    ∀ r, o = Some r →
      (if bool_decide (ir_status r = Open) then ir_num_candidates r else 0) = target_of req d.
Proof.
  unfold provider_request_by_id, get_indexing_request_by_id, target_of. rewrite !bind_run. simpl.
  eexists. split; [reflexivity|]. intros r Hr.
  destruct (requests d !! req) as [row|]; simpl in Hr; [|done].
  unfold provider_request in Hr. simpl in Hr. case_bool_decide; [done|]. by injection Hr as <-.
Qed.

Lemma ids_of_active rows : ids_of_agreements (agreement_of_row <$> rows) = indexers rows.
Proof. unfold ids_of_agreements, indexers. by rewrite <-list_fmap_compose. Qed.

Lemma olds_of_active rows (group : gset N) :
  filter (λ a, indexer_of a ∈ indexers rows ∖ group) (agreement_of_row <$> rows) =
  agreement_of_row <$> filter (λ r, ag_indexer r ∉ group) rows.
Proof.
  assert (H : ∀ l, l ⊆ rows → filter (λ a, indexer_of a ∈ indexers rows ∖ group) (agreement_of_row <$> l) =
    agreement_of_row <$> filter (λ r, ag_indexer r ∉ group) l).
  { induction l as [|r l IH]; intros Hl; [done|]. csimpl. rewrite !filter_cons, IH by set_solver.
    assert (Hin : ag_indexer r ∈ indexers rows).
    { apply elem_of_list_to_set, list_elem_of_fmap. exists r. split; [done|]. apply Hl. by left. }
    do 2 case_decide; try done; set_solver. }
  by apply H.
Qed.

(** ** Pairings *)

Lemma pairing_fst l olds : (pairing l olds).*1 = l.
Proof. revert olds. induction l as [|id l IH]; intros olds; simpl; [done|]. by rewrite IH. Qed.

Lemma pairing_snd l olds : omap snd (pairing l olds) = take (length l) olds.
Proof.
  revert olds. induction l as [|id l IH]; intros olds; [done|]. csimpl. rewrite IH.
  destruct olds; simpl; by rewrite ?take_nil.
Qed.

Lemma omap_sublist {A B} (f : A → option B) l l' :
  l' `sublist_of` l → omap f l' `sublist_of` omap f l.
Proof. induction 1; csimpl; [done|case_match; by try constructor|case_match; by try constructor]. Qed.

Section plan.
Context (conf : OfferConfig).

Lemma plan_additions_spec per total to_add cancels diff capped withheld reserved :
  plan_additions conf per total to_add cancels diff = (capped, withheld, reserved) →
  capped ⊆ to_add ∧
  (∀ id, id ∈ capped → below_cap per (oc_max_in_flight_offers_per_indexer conf) id = true) ∧
  (∀ cap, oc_max_in_flight_offers_total conf = Some cap → capped ≠ ∅ →
    Z.of_nat (size capped) + total ≤ cap) ∧
  reserved = reserved_cancel_count cancels diff (Z.of_nat (size capped)).
Proof.
  unfold plan_additions. case_bool_decide as He; [intros [= <- <- <-]; by split_and!|].
  rewrite plan_admits by apply NoDup_elements. set (l := fit _ _ _ _ _).
  assert (Hl : ∀ id, id ∈ l → id ∈ to_add).
  { intros id Hid. eapply elem_of_sublist in Hid; [|apply fit_sublist].
    unfold by_id in Hid. by rewrite elem_of_order_by, elem_of_elements in Hid. }
  assert (Hs : size (list_to_set l : gset N) = length l).
  { apply size_list_to_set. eapply sublist_NoDup; [|apply fit_sublist].
    unfold by_id. rewrite order_by_perm. apply NoDup_elements. }
  intros [= <- <- <-]. rewrite Hs. split_and!; [set_solver|..|done].
  - intros id Hid%elem_of_list_to_set. by eapply fit_below.
  - intros cap Hc Hne. apply fit_total; [done|]. intros E. apply Hne. fold l in E. by rewrite E.
Qed.

(** What a pass may register for the request and let go of, given the database
    it started from and IISA's group. *)
Record planned (req : N) (now : Z) (d : Db) (group : gset N)
    (rows : list (AgreementRow * option N)) (ended : list N) : Prop := {
  pl_rows : ∀ r o, (r, o) ∈ rows → ag_status r = Created ∧ ag_request r = req ∧
    ag_indexer r ∈ group ∧ ag_indexer r ∉ indexers (active_rows req d) ∧
    ag_indexer r ∉ indexers (holding_rows req d);
  pl_once : NoDup (ag_indexer <$> rows.*1);
  pl_target : rows ≠ [] →
    Z.of_nat (length rows + size (indexers (holding_rows req d)) +
              size (indexers (active_rows req d) ∩ group)) ≤ target_of req d;
  pl_total_cap : ∀ cap, oc_max_in_flight_offers_total conf = Some cap → rows ≠ [] →
    Z.of_nat (length rows + length (in_flight_rows now d)) ≤ cap;
  pl_own_cap : ∀ cap r o, oc_max_in_flight_offers_per_indexer conf = Some cap → (r, o) ∈ rows →
    Z.of_nat (length (filter (λ r', ag_indexer r' = ag_indexer r) (in_flight_rows now d))) < cap;
  pl_ended : ∀ id, id ∈ ended → id ∈ ag_id <$> unwanted_rows req d group;
  pl_ended_once : NoDup ended;
  pl_surplus : (length ended ≤ length (unwanted_rows req d group) -
                size (group ∖ indexers (active_rows req d)))%nat;
  pl_replaced : ∀ r o, (r, Some o) ∈ rows → o ∉ ended ∧ o ∈ ag_id <$> unwanted_rows req d group;
  pl_replaced_once : NoDup (omap snd rows) }.

Lemma planned_nothing req now d group : planned req now d group [] [].
Proof.
  split; try done; try (by constructor); try (simpl; lia).
  - by intros r o ?%elem_of_nil.
  - by intros cap r o _ ?%elem_of_nil.
  - by intros id ?%elem_of_nil.
  - by intros r o ?%elem_of_nil.
Qed.

Lemma unwanted_once req d group : reg_inv d → NoDup (ag_id <$> unwanted_rows req d group).
Proof.
  intros Hi. unfold unwanted_rows, active_rows.
  eapply sublist_NoDup; [|apply fmap_sublist, sublist_filter].
  by eapply li_once, (listed_select _ d).
Qed.

(** The two sides of a pass: what it adds is what the caps left of the picks,
    what it ends is what the additions left of the unwanted. *)
Lemma planned_pass req now d group to_add capped withheld reserved l rows :
  reg_inv d →
  plan_additions conf (count_rows ag_indexer (in_flight_rows now d))
    (Z.of_nat (length (in_flight_rows now d))) to_add
    (Z.of_nat (length (unwanted_rows req d group)))
    (Z.of_nat (size (group ∖ indexers (active_rows req d)))) = (capped, withheld, reserved) →
  (∀ id, id ∈ to_add → id ∈ group ∧ id ∉ indexers (active_rows req d) ∧
    id ∉ indexers (holding_rows req d)) →
  Z.of_nat (size to_add) ≤ room (target_of req d) (indexers (active_rows req d))
    (indexers (holding_rows req d)) group →
  l ≡ₚ elements capped →
  let olds := take (Z.to_nat (Z.of_nat (length (unwanted_rows req d group)) - reserved))
                (unwanted_rows req d group) in
  ((λ x, (ag_indexer x.1, x.2)) <$> rows) `sublist_of` pairing l (ag_id <$> olds) →
  (∀ r o, (r, o) ∈ rows → ag_status r = Created ∧ ag_request r = req) →
  planned req now d group rows (ag_id <$> drop (length l) olds).
Proof.
  intros Hi Hplan Hadd Hroom Hl olds Hsub Hrows.
  apply plan_additions_spec in Hplan as (Hcap & Hbelow & Htotal & ->).
  set (u := unwanted_rows req d group) in *.
  assert (Hlen : length l = size capped) by (rewrite Hl; done).
  assert (Hrl : (length rows ≤ size capped)%nat).
  { apply sublist_length in Hsub. rewrite length_fmap in Hsub.
    rewrite <-Hlen, <-(pairing_fst l (ag_id <$> olds)), length_fmap. done. }
  assert (Hsz : (size capped ≤ size to_add)%nat) by (by apply subseteq_size).
  assert (Hdiff : (size to_add ≤ size (group ∖ indexers (active_rows req d)))%nat).
  { apply subseteq_size. intros id Hid. destruct (Hadd id Hid) as (? & ? & ?). set_solver. }
  assert (Hne : rows ≠ [] → (0 < length rows)%nat) by (destruct rows; simpl; [done|lia]).
  assert (Hmem : ∀ r o, (r, o) ∈ rows → ag_indexer r ∈ capped).
  { intros r o Hr. apply elem_of_elements. rewrite <-Hl, <-(pairing_fst l (ag_id <$> olds)).
    apply list_elem_of_fmap. exists (ag_indexer r, o). split; [done|].
    eapply elem_of_sublist; [|exact Hsub]. apply list_elem_of_fmap. by exists (r, o). }
  assert (Hold : NoDup (ag_id <$> olds)).
  { eapply sublist_NoDup; [apply unwanted_once, Hi|]. apply fmap_sublist, sublist_take. }
  assert (Htk : omap snd rows `sublist_of` take (length l) (ag_id <$> olds)).
  { rewrite <-pairing_snd. etrans; [|by apply omap_sublist]. clear.
    induction rows as [|[r o] rows IH]; [done|]. csimpl. by destruct o; [constructor|]. }
  assert (Hu : ∀ o, o ∈ ag_id <$> olds → o ∈ ag_id <$> u).
  { intros o Ho. eapply elem_of_sublist; [exact Ho|]. apply fmap_sublist, sublist_take. }
  split.
  - intros r o Hr. destruct (Hrows r o Hr) as [H1 H2].
    destruct (Hadd (ag_indexer r)) as (? & ? & ?); [by eapply Hcap, Hmem|done].
  - eapply (sublist_NoDup _ l); [rewrite Hl; apply NoDup_elements|].
    rewrite <-(pairing_fst l (ag_id <$> olds)).
    replace (ag_indexer <$> rows.*1) with (((λ x, (ag_indexer x.1, x.2)) <$> rows).*1)
      by (rewrite <-!list_fmap_compose; done). by apply fmap_sublist.
  - intros Hr%Hne. unfold room, sat_sub in Hroom. lia.
  - intros cap Hc Hr%Hne. assert (capped ≠ ∅) as Hce by (intros ->; rewrite size_empty in Hrl; lia).
    specialize (Htotal cap Hc Hce). lia.
  - intros cap r o Hc Hr%Hmem. specialize (Hbelow _ Hr). unfold below_cap in Hbelow.
    rewrite Hc in Hbelow. apply Z.ltb_lt in Hbelow. by rewrite count_rows_lookup in Hbelow.
  - intros id Hid. apply Hu. eapply elem_of_sublist; [exact Hid|]. apply fmap_sublist, sublist_drop.
  - eapply sublist_NoDup; [exact Hold|]. apply fmap_sublist, sublist_drop.
  - unfold olds. rewrite length_fmap, length_drop, length_take, Hlen.
    pose proof (unpaired_olds (length u) (size (group ∖ indexers (active_rows req d))) (size capped)
      ltac:(lia)) as E. fold u. lia.
  - intros r o Hr.
    assert (Ho : o ∈ take (length l) (ag_id <$> olds)).
    { eapply elem_of_sublist; [|exact Htk]. apply list_elem_of_omap. by exists (r, Some o). }
    split; [|apply Hu; eapply elem_of_sublist; [exact Ho|apply sublist_take]].
    rewrite fmap_drop. rewrite <-(take_drop (length l) (ag_id <$> olds)), NoDup_app in Hold.
    by apply Hold.
  - eapply sublist_NoDup; [|exact Htk]. eapply sublist_NoDup; [exact Hold|]. apply sublist_take.
Qed.
End plan.

(** ** The promises *)

Section pass.
Context {C W I : Type} `{!ChainClient C} `{!ChainClock C} `{!MessageQueue W}.
Context `{!CandidateSelection I}.
Notation SState := (SState C W).
Notation Memory := (Memory I).

(** What a pass registered and let go of, and nothing else: the chain is asked
    for its time and about the agreements let go, and a cancel goes out only
    for one marked as cancelling. *)
Record passed (rows : list (AgreementRow * option N)) (ended : list N) (s s' : SState) : Prop := {
  pa_inv : reg_inv (sdb s');
  pa_kept : ∀ k r, srow s k = Some r → k ∉ ended → srow s' k = Some r;
  pa_ended : ∀ k, k ∈ ended → is_Some (srow s k) ∧
    (srow s' k = srow s k ∨ db_status (sdb s') k ∈ [Some Cancelling; Some CanceledByRequester]);
  pa_new : ∀ r o, (r, o) ∈ rows → srow s (ag_id r) = None ∧ srow s' (ag_id r) = Some r;
  pa_only : ∀ k r, srow s k = None → srow s' k = Some r → ∃ o, (r, o) ∈ rows;
  pa_nodup : NoDup (ag_id <$> rows.*1);
  pa_pending : ∀ p, p ∈ pending (sdb s') ↔
    p ∈ pending (sdb s) ∨ ∃ r, (r, Some p.2) ∈ rows ∧ ag_id r = p.1;
  pa_pushes : ∃ news, ss_pushes s' = ss_pushes s ++ news ∧
    Forall (λ push, push.1.2 = Background ∧ ∃ r o, (r, o) ∈ rows ∧
      push.1.1 = SendIndexingAgreementProposal (ag_indexer_url r) (ag_id r) (ag_request r)
                   (ag_deployment r) (tm_chain_id (t_metadata (ag_terms r)))) news;
  pa_calls : ∃ calls, slog s' = slog s ++ calls ∧ Forall marked_call calls ∧
    Forall (λ c, time_call c ∨ ∃ id, id ∈ ended ∧ call_about id c) calls }.

Lemma time_calls calls :
  Forall time_call calls → Forall marked_call calls ∧
  ∀ ended, Forall (λ c, time_call c ∨ ∃ id : N, id ∈ (ended : list N) ∧ call_about id c) calls.
Proof.
  intros H. split; [|intros ended]; (eapply Forall_impl; [exact H|]); intros c Hc; [|by left].
  by destruct c.
Qed.

(** Looking, latching, looking again: nothing the promises speak of. *)
Record idle (s s' : SState) : Prop := {
  id_inv : reg_inv (sdb s');
  id_agreements : agreements (sdb s') = agreements (sdb s);
  id_pending : pending (sdb s') = pending (sdb s);
  id_pushes : ss_pushes s' = ss_pushes s;
  id_now : snow s' = snow s;
  id_others : ss_others s' = ss_others s;
  id_log : ∃ calls, slog s' = slog s ++ calls ∧ Forall time_call calls }.

Lemma idle_trans s1 s2 s3 : idle s1 s2 → idle s2 s3 → idle s1 s3.
Proof.
  intros [I1 A1 P1 Q1 N1 O1 (c1 & L1 & F1)] [I2 A2 P2 Q2 N2 O2 (c2 & L2 & F2)].
  split; try congruence; try done. exists (c1 ++ c2). rewrite L2, L1, app_assoc.
  split; [done|]. by apply Forall_app.
Qed.

Lemma looked_idle s s' : looked s s' → reg_inv (sdb s) → idle s s'.
Proof.
  intros (c & [D N' P O F L] & Ft) Hi. split; rewrite ?D; try done. by exists c.
Qed.

Lemma latched_idle s s' : latched s s' → idle s s'.
Proof. intros [Hi A P Q' N' O L]. split; try done. exists []. by rewrite app_nil_r. Qed.

Lemma idle_alone s s' : idle s s' → alone s → alone s'.
Proof. intros H Ha. unfold alone. by rewrite (id_others _ _ H). Qed.

Lemma idle_passed s s' : idle s s' → passed [] [] s s'.
Proof.
  intros [Hi A P Q' N' O (c & L & F)]. split; unfold srow; rewrite ?A, ?P; try done.
  - intros k []%not_elem_of_nil.
  - intros r o []%not_elem_of_nil.
  - congruence.
  - constructor.
  - intros p. split; [by left|]. by intros [?|(r & []%not_elem_of_nil & _)].
  - exists []. by rewrite app_nil_r.
  - exists c. destruct (time_calls c F). auto.
Qed.

Lemma passed_stages rows ended s1 s2 s3 s4 :
  idle s1 s2 → added rows s2 s3 → all_let_go ended s3 s4 →
  (∀ k, k ∈ ended → is_Some (srow s1 k)) → passed rows ended s1 s4.
Proof.
  intros [_ A P Q' N' O (c & L & F)] [_ O3 N3 L3 K3 W3 Y3 D3 P3 (news & E3 & F3)]
    [I4 R4 D4 P4 N4 O4 (c4 & L4 & M4 & F4) Y4] Hs.
  assert (A' : ∀ k, srow s2 k = srow s1 k) by (intros k; unfold srow; by rewrite A).
  assert (Hnew : ∀ r o, (r, o) ∈ rows → ag_id r ∉ ended).
  { intros r o Hr He. destruct (W3 r o Hr) as [H _]. rewrite A' in H. destruct (Hs _ He). congruence. }
  split; try done.
  - intros k r Hr Hk. rewrite R4 by done. apply K3. by rewrite A'.
  - intros k Hk. split; [by apply Hs|]. destruct (Hs k Hk) as [r Hr]. rewrite Hr.
    rewrite <-A' in Hr. apply K3 in Hr. rewrite <-Hr. apply Y4.
  - intros r o Hr. destruct (W3 r o Hr) as [H1 H2]. rewrite A' in H1.
    split; [done|]. rewrite R4; [done|by eapply Hnew].
  - intros k r Hn Hr. rewrite R4 in Hr; [|intros Hk; destruct (Hs k Hk); congruence].
    destruct (Y3 k r Hr) as [H|H]; [|done]. rewrite A' in H. congruence.
  - intros p. rewrite D4. simpl. by rewrite P3, P.
  - exists news. rewrite P4, E3, Q'. done.
  - destruct (time_calls c F) as [M1 F1]. exists (c ++ c4). rewrite L4, L3, L, app_assoc.
    split_and!; [done|by apply Forall_app|]. apply Forall_app. split; [done|].
    eapply Forall_impl; [exact F4|]. intros x H. by right.
Qed.

Context (tx_string : N → string).
Context (keccak256 : list Z → list Z).
Context (abi_encode_key : N → N → N → Z → Z → list Z).
Context (abi_encode_terms : Z → Z → list Z).
Context (abi_encode_metadata : N → Z → list Z → list Z).
Context (eip712_signing_hash : RecurringCollectionAgreement → list Z).
Context (get_indexer_url : N → option string).
Context (get_network_by_caip2_id : string → option string).
Context (parse_rfc3339 : string → option Z).
Context (now_v7 : nat → N) (hash_order : gset N → list N).
Context (now_secs now_utc looked_at stored_at : Z).
Context (conf : OfferConfig) (chain_price : gmap Z IndexingAgreementChainPrices).
Context (additional_networks : gmap Z string) (entity_counts : gmap (N * N) Z).
Context (signer_chain_id : Z).
Context (bypass : bool) (chain_listener_chain_id : option Z).
(** Iterating a hash set visits each element once. *)
Context (hash_order_perm : ∀ X, hash_order X ≡ₚ elements X).

Notation applying := (apply_target (C := C) (W := W) (I := I) tx_string keccak256 abi_encode_key
  abi_encode_terms abi_encode_metadata eip712_signing_hash get_indexer_url now_v7 hash_order now_secs
  conf chain_price signer_chain_id bypass chain_listener_chain_id).
Notation reassessing := (reassess_handle (C := C) (W := W) (I := I) tx_string keccak256
  abi_encode_key abi_encode_terms abi_encode_metadata eip712_signing_hash get_indexer_url
  get_network_by_caip2_id parse_rfc3339 now_v7 hash_order now_secs now_utc looked_at stored_at conf
  chain_price additional_networks entity_counts signer_chain_id bypass chain_listener_chain_id).

(** IISA's group, when the pass asked for it and it answered. *)
Definition group_named (asked : list Asked) : option (gset N) :=
  match asked with
  | [a] => match as_answer a with
           | Ok picks => Some (list_to_set (si_id <$> picks))
           | Err _ => None
           end
  | _ => None
  end.

(** IISA was asked at most once, for the request's target on its deployment. *)
Definition asked_once_for (dep : N) (target : Z) (asked : list Asked) : Prop :=
  (length asked ≤ 1)%nat ∧
  Forall (λ a, as_deployment a = dep ∧ as_num_candidates a = target) asked.

Notation can_go := (can_run (oc_dips_accepting_snapshot_max_age_hours conf)).

(** What the rest of a pass may do once IISA has named [group]. *)
Definition group_ok (req : N) (d : Db) (group : gset N) (m : Memory) (s : SState)
    (r : option JobResult) (m' : Memory) (s' : SState) : Prop :=
  unasked m m' ∧
  (∃ rows ended, passed rows ended s s' ∧ planned conf req (snow s) d group rows ended) ∧
  (r = None → ¬ can_go (me_locks m) (sdb s)).

(** How a pass from [s] may end, given the state it read the request in. *)
Definition pass_ok (req dep : N) (d : Db) (m : Memory) (s : SState) (r : option JobResult)
    (m' : Memory) (s' : SState) : Prop :=
  (∃ asked rows ended,
    me_asked m' = me_asked m ++ asked ∧ asked_once_for dep (target_of req d) asked ∧
    (group_named asked = None → rows = [] ∧ ended = []) ∧
    passed rows ended s s' ∧
    planned conf req (snow s) d (default ∅ (group_named asked)) rows ended) ∧
  (r = None → ¬ can_go (me_locks m) (sdb s)).

Lemma idle_group req d group m s r m' s' :
  idle s s' → unasked m m' → (r = None → ¬ can_go (me_locks m) (sdb s)) →
  group_ok req d group m s r m' s'.
Proof.
  intros H Hu Hn. split; [done|split; [|done]]. exists [], [].
  split; [by apply idle_passed|apply planned_nothing].
Qed.

Lemma idle_ok req dep d m s r m' s' :
  idle s s' → unasked m m' ∨ (∃ e, asked_answered dep (target_of req d) (Err e) m m') →
  (r = None → ¬ can_go (me_locks m) (sdb s)) → pass_ok req dep d m s r m' s'.
Proof.
  intros H Hu Hn. split; [|done].
  assert (Hp : passed [] [] s s' ∧ ∀ g, planned conf req (snow s) d g [] [])
    by (split; [by apply idle_passed|intros; apply planned_nothing]).
  destruct Hp as [Hp Hpl], Hu as [[Hu _]|(e & _ & context & Hu)].
  - exists [], [], []. rewrite app_nil_r. split_and!; try done. split; [simpl; lia|done].
  - exists [mkAsked dep (target_of req d) context (Err e)], [], [].
    split_and!; try done. split; [simpl; lia|by apply Forall_singleton].
Qed.

Lemma can_go_same locks (d d' : Db) : agreements d' = agreements d → can_go locks d → can_go locks d'.
Proof. intros E [H1 H2 H3 H4]. split; try done. unfold rates_fit. by rewrite E. Qed.

(** From the additions on: what was offered and let go is the plan's. *)
Lemma plan_passed req dep chain now offers d group to_add capped withheld reserved rows s s1 s2 s3 :
  agreements (sdb s) = agreements d → reg_inv d → idle s s1 →
  plan_additions conf (count_rows ag_indexer (in_flight_rows (snow s) d))
    (Z.of_nat (length (in_flight_rows (snow s) d))) to_add
    (Z.of_nat (length (unwanted_rows req d group)))
    (Z.of_nat (size (group ∖ indexers (active_rows req d)))) = (capped, withheld, reserved) →
  (∀ id, id ∈ to_add → id ∈ group ∧ id ∉ indexers (active_rows req d) ∧
    id ∉ indexers (holding_rows req d)) →
  Z.of_nat (size to_add) ≤ room (target_of req d) (indexers (active_rows req d))
    (indexers (holding_rows req d)) group →
  let olds := take (Z.to_nat (Z.of_nat (length (unwanted_rows req d group)) - reserved))
                (unwanted_rows req d group) in
  let unpaired := ag_id <$> drop (length (hash_order capped)) olds in
  added rows s1 s2 →
  ((λ x, (ag_indexer x.1, x.2)) <$> rows) `sublist_of` pairing (hash_order capped) (ag_id <$> olds) →
  Forall (λ x, offered_row conf keccak256 abi_encode_key abi_encode_terms abi_encode_metadata
                 eip712_signing_hash signer_chain_id (snow s1) req dep chain now offers x.1) rows →
  all_let_go unpaired s2 s3 →
  ∃ rows ended, passed rows ended s s3 ∧ planned conf req (snow s) d group rows ended.
Proof.
  intros Hd Hid Hidle Hplan Hadd Hroom olds unpaired A2 Hs2 F2 A3. exists rows, unpaired.
  assert (Hp : planned conf req (snow s) d group rows unpaired).
  { eapply (planned_pass conf req (snow s) d group to_add capped withheld reserved
      (hash_order capped) rows); try done.
    intros r o Hr. rewrite Forall_forall in F2. destruct (F2 _ Hr) as (nonce & o' & h & _ & _ & E).
    simpl in E. by subst r. }
  split; [|exact Hp]. eapply passed_stages; [exact Hidle|exact A2|exact A3|].
  intros k Hk. apply (pl_ended _ _ _ _ _ _ _ Hp) in Hk as (r & -> & Hr)%list_elem_of_fmap.
  apply list_elem_of_filter in Hr as [_ Hr]. apply elem_of_select in Hr as (k & Hk & _).
  unfold srow. rewrite Hd. rewrite (inv_key _ Hid _ _ Hk). by exists r.
Qed.

Lemma wp_apply_plan req dep chain now offers d group to_add capped withheld reserved m m1 s s1 :
  alone s → agreements (sdb s) = agreements d → reg_inv d → idle s s1 → unasked m m1 →
  plan_additions conf (count_rows ag_indexer (in_flight_rows (snow s) d))
    (Z.of_nat (length (in_flight_rows (snow s) d))) to_add
    (Z.of_nat (length (unwanted_rows req d group)))
    (Z.of_nat (size (group ∖ indexers (active_rows req d)))) = (capped, withheld, reserved) →
  (∀ id, id ∈ to_add → id ∈ group ∧ id ∉ indexers (active_rows req d) ∧
    id ∉ indexers (holding_rows req d)) →
  has_offers offers (elements to_add) →
  Z.of_nat (size to_add) ≤ room (target_of req d) (indexers (active_rows req d))
    (indexers (holding_rows req d)) group →
  pwp (r ← add_each keccak256 abi_encode_key abi_encode_terms abi_encode_metadata eip712_signing_hash
             now_v7 conf signer_chain_id req dep chain now 0 offers
             (take (Z.to_nat (Z.of_nat (length (unwanted_rows req d group)) - reserved))
                (agreement_of_row <$> unwanted_rows req d group)) (hash_order capped);
       finish_pass tx_string now_secs conf signer_chain_id req dep now withheld r.1.1 r.1.2 r.2)
    (group_ok req d group m s) m1 s1.
Proof.
  intros Ha Hd Hid Hidle Hu Hplan Hadd Hoff Hroom.
  pose proof (plan_additions_spec _ _ _ _ _ _ _ _ _ Hplan) as (Hsub & _).
  assert (Hall : has_offers offers (hash_order capped)).
  { intros id Hin. apply Hoff, elem_of_elements, Hsub, elem_of_elements.
    by rewrite <-hash_order_perm. }
  destruct (decide (lk_domain_poisoned (me_locks m1) = true ∧ hash_order capped ≠ [])) as [[Hp Hne]|Hlock].
  { destruct (hash_order capped) as [|id rest]; [done|]. apply pwp_bind. simpl.
    destruct (Hall id) as (o & -> & _); [by left|]. apply pwp_bind, wp_ret. simpl. rewrite Hp.
    apply wp_ret. apply idle_group; [done..|]. intros _ [_ _ _ Hc]. destruct Hu. congruence. }
  apply pwp_bind. eapply pwp_mono; [eapply wp_add_each; try done|].
  - by eapply idle_alone.
  - apply Hidle.
  - intros Hne. destruct (lk_domain_poisoned (me_locks m1)); [by destruct Hlock|done].
  - rewrite hash_order_perm. apply NoDup_elements.
  - intros r m2 s2 (rows & ids & cands & -> & -> & A2 & Hs2 & F2).
    unfold finish_pass. simpl. apply pwp_bind.
    match goal with |- pwp ?e ?P _ _ => assert (He : ∀ m', unasked m m' → P (Some tt) m' s2) end.
    2:{ destruct cands; [apply pwp_ret|apply wp_ret]; by apply He. }
    intros m3 Hu3. apply pwp_bind, pwp_lift. eapply wp_mono.
    { apply wp_cancel_each; [|apply A2]. unfold alone. rewrite (ad_others _ _ _ A2).
      by eapply idle_alone. }
    intros [] s3 A3. rewrite <-fmap_take, <-list_fmap_compose in Hs2.
    rewrite <-fmap_take, <-fmap_drop, <-list_fmap_compose in A3.
    pose proof (plan_passed _ _ _ _ _ _ _ _ _ _ _ _ _ _ _ _ Hd Hid Hidle Hplan Hadd Hroom A2 Hs2 F2 A3)
      as Hok.
    apply pwp_bind. destruct ids; [apply pwp_ret|apply wp_ret]; apply pwp_ret; by split_and!.
Qed.

Lemma wp_apply_target req dep chain ceilings picks d m s :
  alone s → reg_inv (sdb s) → agreements (sdb s) = agreements d → reg_inv d →
  pwp (applying req dep chain (target_of req d) (agreement_of_row <$> active_rows req d)
         (list_to_set (ag_indexer <$> holding_rows req d))
         (count_rows ag_indexer (in_flight_rows (snow s) d))
         (Z.of_nat (length (in_flight_rows (snow s) d))) ceilings picks)
    (group_ok req d (list_to_set (si_id <$> picks)) m s) m s.
Proof.
  intros Ha Hi Hd Hid. unfold apply_target. rewrite ids_of_active.
  change (list_to_set (ag_indexer <$> holding_rows req d)) with (indexers (holding_rows req d)).
  set (group := list_to_set (si_id <$> picks) : gset N).
  destruct (gather_offers _ _ _ picks) as [offers unofferable] eqn:Ho.
  set (to_add := picks_to_add picks offers _).
  assert (Hadd : ∀ id, id ∈ to_add → ∃ o, offers !! id = Some o ∧ ix_id (no_indexer o) = id ∧
    id ∈ group ∧ id ∉ indexers (active_rows req d) ∧ id ∉ indexers (holding_rows req d)).
  { intros id [[o Hoid] Hg]%elem_of_picks_to_add. exists o.
    assert (Hs := gather_offers_spec _ _ _ picks id o ltac:(rewrite Ho; exact Hoid)).
    destruct Hs as (pick & _ & <- & Hn & ? & ?). split; [done|]. split.
    - unfold new_offer, get_indexer_by_id in Hn.
      destruct (get_indexer_url (si_id pick)); [|done]. simpl in Hn.
      destruct (resolve_pricing _ _ _); [|done]. by injection Hn as <-.
    - split_and!; [|done..]. by apply elem_of_list_to_set. }
  apply pwp_bind, wp_signal_shortfall; [done..|]. intros m1 s1 L1 U1.
  destruct (_ && _); [by apply pwp_ret, idle_group; [apply latched_idle|..]|].
  rewrite olds_of_active, length_fmap.
  change (filter (λ r, ag_indexer r ∉ group) (active_rows req d)) with (unwanted_rows req d group).
  destruct (plan_additions _ _ _ _ _ _) as [[capped withheld] reserved] eqn:Hplan.
  apply pwp_try_own.
  eapply pwp_mono; [eapply harmless_clock; by eapply idle_alone, Ha; apply latched_idle|].
  intros r m2 s2 (Lk & U2 & Hpanic). pose proof (unasked_trans _ _ _ U1 U2) as U.
  assert (Hidle : idle s s2).
  { eapply idle_trans; [by apply latched_idle|]. apply looked_idle; [done|apply L1]. }
  destruct r as [[now|e]|].
  - eapply wp_apply_plan; [exact Ha|exact Hd|exact Hid|exact Hidle|exact U|exact Hplan|..].
    + intros id Hin. by destruct (Hadd id Hin) as (o & _ & _ & H).
    + intros id Hin%elem_of_elements. destruct (Hadd id Hin) as (o & ? & ? & _). by exists o.
    + apply size_picks_to_add. unfold room, sat_sub. lia.
  - by apply idle_group.
  - apply idle_group; [done..|]. intros _ Hgo. apply (Hpanic eq_refl). destruct U1 as [_ ->].
    by eapply can_go_same, Hgo; apply L1.
Qed.

Lemma idle_then_passed rows ended s1 s2 s3 :
  idle s1 s2 → passed rows ended s2 s3 → passed rows ended s1 s3.
Proof.
  intros [_ A P Q' N' O (c & L & F)] [I3 K3 E3 W3 Y3 D3 P3 Q3 (c3 & L3 & M3 & F3)].
  assert (A' : ∀ k, srow s2 k = srow s1 k) by (intros k; unfold srow; by rewrite A).
  split; try done; try (setoid_rewrite <-A'; done).
  - intros p. by rewrite P3, P.
  - destruct Q3 as (news & Hn & Hf). exists news. by rewrite Hn, Q'.
  - destruct (time_calls c F) as [M1 F1]. exists (c ++ c3). rewrite L3, L, app_assoc.
    split_and!; [done|by apply Forall_app..].
Qed.

(** IISA's answer, and then the rest of the pass. *)
Lemma pass_then_ok req dep d picks m m1 s s1 r m' s' :
  idle s s1 → sdb s1 = sdb s → asked_answered dep (target_of req d) (Ok picks) m m1 →
  group_ok req d (list_to_set (si_id <$> picks)) m1 s1 r m' s' → pass_ok req dep d m s r m' s'.
Proof.
  intros Hi D [El (context & Ea)] ([Ua _] & (rows & ended & Hp & Hpl) & Hn).
  split; [|by rewrite <-D, <-El]. exists [mkAsked dep (target_of req d) context (Ok picks)], rows, ended.
  split; [congruence|]. split; [split; [simpl; lia|by apply Forall_singleton]|]. split; [done|].
  split; [by eapply idle_then_passed|]. by rewrite <-(id_now _ _ Hi).
Qed.

(** A read whose answer is known, while the pass has only looked. *)
Lemma pwp_reading {A B} (f : Z → DbM A) x on_err (k : A → Task C W I (result JobError B))
    (Q : option (result JobError B) → Memory → SState → Prop) mem s s1 :
  alone s → looked s s1 → (∀ now, reads (f now)) → f (snow s) (sdb s) = (Ok x, sdb s) →
  (∀ s2, looked s s2 → pwp (k x) Q mem s2) →
  (∀ e s2, looked s s2 → Q (Some (Err e)) mem s2) →
  pwp (try_lift (pg f) on_err k) Q mem s1.
Proof.
  intros Ha L1 Hr Hx Hk He. assert (Ha1 : alone s1) by by eapply looked_alone.
  apply pwp_try_lift, wp_reads; [done..|]. intros r s2 H2 Hok.
  assert (L2 : looked s s2) by (eapply looked_trans; [exact L1|by exists []]).
  destruct r as [y|e]; [|by apply He]. specialize (Hok y eq_refl).
  destruct L1 as (c & [D N' _ _ _ _] & _). rewrite D, N', Hx in Hok. injection Hok as <-.
  by apply Hk.
Qed.

Notation locked_pass := (reassess_locked (C := C) (W := W) (I := I) tx_string keccak256
  abi_encode_key abi_encode_terms abi_encode_metadata eip712_signing_hash get_indexer_url
  get_network_by_caip2_id parse_rfc3339 now_v7 hash_order now_secs now_utc looked_at stored_at conf
  chain_price additional_networks entity_counts signer_chain_id bypass chain_listener_chain_id).

Lemma wp_reassess_locked req dep chain mem s :
  alone s → reg_inv (sdb s) →
  pwp (locked_pass req dep chain) (pass_ok req dep (sdb s) mem s) mem s.
Proof.
  intros Ha Hi. unfold reassess_locked.
  assert (Hidle : ∀ s1, looked s s1 → idle s s1) by (intros s1 L; by apply looked_idle).
  assert (Hstay : ∀ r s1, looked s s1 → pass_ok req dep (sdb s) mem s (Some r) mem s1).
  { intros r s1 L. apply idle_ok; [by apply Hidle|by left|done]. }
  destruct (request_read req (sdb s)) as (o & Hreq & Htarget).
  eapply pwp_reading; [done|apply looked_refl| |exact Hreq| |by intros e s2 L; apply Hstay].
  { intros. unfold provider_request_by_id, get_indexing_request_by_id. solve_reads. }
  intros s1 L1. destruct o as [request|]; [|by apply pwp_ret, Hstay].
  rewrite (Htarget _ eq_refl).
  eapply pwp_reading; [done|exact L1|intros; solve_reads|apply active_read| |
    by intros e s2 L; apply Hstay]. intros s2 L2.
  eapply pwp_reading; [done|exact L2|intros; unfold get_abandoned_indexers_holding_slots; solve_reads|
    apply holding_read| |by intros e s3 L; apply Hstay]. intros s3 L3.
  eapply pwp_reading; [done|exact L3|intros; unfold count_created_agreements_by_indexer; solve_reads|
    by apply flight_read| |by intros e s4 L; apply Hstay]. intros s4 L4.
  destruct (should_defer_saturated _ _ _ _); [by apply pwp_ret, Hstay|].
  apply pwp_try_own. eapply pwp_mono; [by apply wp_select_target; eapply looked_alone|].
  intros r m5 s5 (L5 & Hpanic & Hasked). pose proof (looked_trans _ _ _ L4 L5) as K5.
  assert (D5 : sdb s5 = sdb s ∧ snow s5 = snow s) by (by destruct K5 as (c & [? ? _ _ _ _] & _)).
  assert (D4 : sdb s4 = sdb s) by (by destruct L4 as (c & [? _ _ _ _ _] & _)).
  destruct D5 as [D5 N5]. destruct r as [[[ceilings picks]|e]|].
  - eapply pwp_mono; [simpl; rewrite <-N5; apply wp_apply_target|].
    + by eapply looked_alone.
    + by rewrite D5.
    + by rewrite D5.
    + done.
    + intros r m6 s6 Hok. eapply pass_then_ok; [by apply Hidle|done|exact Hasked|exact Hok].
  - apply idle_ok; [by apply Hidle|exact Hasked|done].
  - apply idle_ok; [by apply Hidle|exact Hasked|]. rewrite <-D4. intros _. by apply Hpanic.
Qed.

Lemma wp_reassess req dep chain m s :
  alone s → reg_inv (sdb s) →
  pwp (reassessing req dep chain) (pass_ok req dep (sdb s) m s) m s.
Proof.
  intros Ha Hi. apply pwp_bind, wp_ret. simpl.
  destruct (me_locked m).
  { apply pwp_ret, idle_ok; [apply looked_idle; [apply looked_refl|done]|by left|done]. }
  apply pwp_bind, wp_ret. apply wp_bind. eapply wp_mono; [by apply wp_reassess_locked|].
  intros [r m'] s' Hok. apply wp_ret. exact Hok.
Qed.

(** C15: a reassessment, whatever IISA, the chain and the queue answer and
    whichever connections are lost, with no other task writing to the database
    while it runs.  It asks IISA at most once, for as many indexers as the
    request's current target (zero once the request is cancelled); without an
    answer it registers nothing.  The agreements it registers, all of them, are
    for the request, [Created], for indexers among those IISA answered with that
    neither hold an active agreement of the request nor keep a slot as abandoned,
    one each.  Together with the active agreements' indexers that IISA named
    again and the held slots they never exceed the target; and with the offers
    already in flight they never exceed the total cap, nor any indexer its own
    cap. *)
Theorem reassessment_fits req dep chain m s r m' s' :
  alone s → reg_inv (sdb s) → reassessing req dep chain m s = ((r, m'), s') →
  ∃ (asked : list Asked) (rows : list AgreementRow),
    me_asked m' = me_asked m ++ asked ∧ asked_once_for dep (target_of req (sdb s)) asked ∧
    (group_named asked = None → rows = []) ∧
    let group := default ∅ (group_named asked) in
    (∀ k row, srow s k = None → srow s' k = Some row → row ∈ rows) ∧
    (∀ row, row ∈ rows → srow s (ag_id row) = None ∧ srow s' (ag_id row) = Some row) ∧
    (∀ row, row ∈ rows → ag_status row = Created ∧ ag_request row = req ∧
      ag_indexer row ∈ group ∧ ag_indexer row ∉ indexers (active_rows req (sdb s)) ∧
      ag_indexer row ∉ indexers (holding_rows req (sdb s))) ∧
    NoDup (ag_indexer <$> rows) ∧
    (rows ≠ [] →
      Z.of_nat (length rows + size (indexers (holding_rows req (sdb s))) +
                size (indexers (active_rows req (sdb s)) ∩ group)) ≤ target_of req (sdb s)) ∧
    (∀ cap, oc_max_in_flight_offers_total conf = Some cap → rows ≠ [] →
      Z.of_nat (length rows + length (in_flight_rows (snow s) (sdb s))) ≤ cap) ∧
    (∀ cap row, oc_max_in_flight_offers_per_indexer conf = Some cap → row ∈ rows →
      Z.of_nat (length (filter (λ r', ag_indexer r' = ag_indexer row)
        (in_flight_rows (snow s) (sdb s)))) < cap).
Proof.
  intros Ha Hi Hrun.
  destruct (pwp_run _ _ _ _ _ _ _ (wp_reassess req dep chain m s Ha Hi) Hrun)
    as [(asked & rows & ended & Hm & Hone & Hnone & Hp & Hpl) _].
  assert (Hin : ∀ row, row ∈ rows.*1 → ∃ o, (row, o) ∈ rows).
  { intros row ([row' o] & -> & H)%list_elem_of_fmap. by exists o. }
  assert (Hne : rows.*1 ≠ [] → rows ≠ []) by by intros H ->.
  exists asked, rows.*1. rewrite length_fmap. split; [done|split; [done|]].
  split; [intros H%Hnone; by destruct H as [-> _]|]. cbv zeta. split_and!.
  - intros k row Hn Hs. destruct (pa_only _ _ _ _ Hp k row Hn Hs) as (o & H).
    apply list_elem_of_fmap. by exists (row, o).
  - intros row (o & H)%Hin. by apply (pa_new _ _ _ _ Hp row o).
  - intros row (o & H)%Hin. by apply (pl_rows _ _ _ _ _ _ _ Hpl row o).
  - apply Hpl.
  - intros H%Hne. by apply Hpl.
  - intros cap Hc H%Hne. by apply Hpl.
  - intros cap row Hc (o & H)%Hin. by apply (pl_own_cap _ _ _ _ _ _ _ Hpl cap row o).
Qed.

(** C16: a reassessment never gives up coverage it was not asked to give up,
    whatever fails on the way, with no other task writing to the database while
    it runs.  It asks IISA at most once, for the request's current target, and
    without an answer it ends and replaces nothing.  An active agreement is
    unwanted when its indexer is not among those IISA answered with; the pass ends
    outright only unwanted ones, and at most as many as there are beyond the
    indexers IISA's answer adds, however many of those additions the caps, the
    held slots or a failed registration keep from being made; every other
    agreement stays as it was.  An unwanted agreement it replaces stays active, is
    named in one pending cancellation of an agreement registered in this pass, and
    is not ended by it.  The chain is asked about the agreements it ends and no
    others, and to cancel one only once it is recorded as cancelling. *)
Theorem reassessment_keeps_coverage req dep chain m s r m' s' :
  alone s → reg_inv (sdb s) → reassessing req dep chain m s = ((r, m'), s') →
  ∃ (asked : list Asked) (ended : list N) (replaced : list (N * N)),
    me_asked m' = me_asked m ++ asked ∧ asked_once_for dep (target_of req (sdb s)) asked ∧
    (group_named asked = None → ended = [] ∧ replaced = []) ∧
    let group := default ∅ (group_named asked) in
    NoDup ended ∧
    (length ended ≤ length (unwanted_rows req (sdb s) group) -
                    size (group ∖ indexers (active_rows req (sdb s))))%nat ∧
    (∀ k, k ∈ ended → k ∈ ag_id <$> unwanted_rows req (sdb s) group ∧
      (srow s' k = srow s k ∨ db_status (sdb s') k ∈ [Some Cancelling; Some CanceledByRequester])) ∧
    (∀ k row, srow s k = Some row → k ∉ ended → srow s' k = Some row) ∧
    (∀ p, p ∈ pending (sdb s') ↔ p ∈ pending (sdb s) ∨ p ∈ replaced) ∧
    NoDup replaced.*2 ∧
    (∀ n o, (n, o) ∈ replaced → srow s n = None ∧ db_status (sdb s') n = Some Created ∧
      o ∈ ag_id <$> unwanted_rows req (sdb s) group ∧ o ∉ ended) ∧
    ∃ calls, slog s' = slog s ++ calls ∧ Forall marked_call calls ∧
      Forall (λ c, time_call c ∨ ∃ id, id ∈ ended ∧ call_about id c) calls.
Proof.
  intros Ha Hi Hrun.
  destruct (pwp_run _ _ _ _ _ _ _ (wp_reassess req dep chain m s Ha Hi) Hrun)
    as [(asked & rows & ended & Hm & Hone & Hnone & Hp & Hpl) _].
  set (replaced := omap (λ x, (λ o, (ag_id x.1, o)) <$> x.2) rows).
  assert (Hrep : ∀ n o, (n, o) ∈ replaced ↔ ∃ row, (row, Some o) ∈ rows ∧ ag_id row = n).
  { intros n o. unfold replaced. rewrite list_elem_of_omap. split.
    - intros ([row [o'|]] & H & E); [|done]. injection E as <- <-. by exists row.
    - intros (row & H & <-). by exists (row, Some o). }
  assert (Hsnd : replaced.*2 = omap snd rows).
  { unfold replaced. clear. induction rows as [|[row [o|]] rows IH]; [done|csimpl; by rewrite IH..]. }
  exists asked, ended, replaced. split; [done|split; [done|]].
  split; [intros H%Hnone; by destruct H as [Hr ->]; unfold replaced; rewrite Hr|].
  cbv zeta. split_and!; try apply Hpl; try apply Hp.
  - intros k Hk. split; [by apply (pl_ended _ _ _ _ _ _ _ Hpl)|by apply (pa_ended _ _ _ _ Hp)].
  - intros [n o]. by rewrite (pa_pending _ _ _ _ Hp), Hrep.
  - rewrite Hsnd. apply Hpl.
  - intros n o (row & H & <-)%Hrep. destruct (pa_new _ _ _ _ Hp row _ H) as [H1 H2].
    destruct (pl_replaced _ _ _ _ _ _ _ Hpl row o H).
    destruct (pl_rows _ _ _ _ _ _ _ Hpl row _ H) as [Hc _].
    rewrite db_status_row, H2. simpl. by rewrite Hc.
Qed.

(** C35: a reassessment does not panic when the rates of the agreements that may
    be paid fit in 128 bits, the configured age limit of the snapshot, in
    seconds, fits in 64 bits (the configuration does not check it), and neither
    the breaker's mutex nor the lock of the RCA domain is poisoned; with no other
    task writing to the database while it runs.  In particular every pick it
    registers has the offer the code expects to find for it. *)
Theorem reassessment_never_panics req dep chain m s :
  alone s → reg_inv (sdb s) →
  can_run (oc_dips_accepting_snapshot_max_age_hours conf) (me_locks m) (sdb s) →
  ∃ result m' s', reassessing req dep chain m s = ((Some result, m'), s').
Proof.
  intros Ha Hi Hgo. destruct (reassessing req dep chain m s) as [[r m'] s'] eqn:Hrun.
  destruct (pwp_run _ _ _ _ _ _ _ (wp_reassess req dep chain m s Ha Hi) Hrun) as [_ Hn].
  destruct r as [result|]; [by exists result, m', s'|]. by destruct (Hn eq_refl).
Qed.

End pass.

(** ** Witnesses *)

(** A selection service that always wants the same group. *)
#[export] Instance FixedGroup : CandidateSelection (list SelectedIndexer) := {|
  select_indexers _ _ _ group := (Ok group, group);
  dips_accepting_indexers _ _ group := (Err SelectionFailed, group) |}.

Definition demo_offer_config : OfferConfig :=
  mkOfferConfig (mkConfig 6 "0x0a") 8 9 (as_f64 300) 3600 60 31536000 300 ∅ (as_f64 450) (as_f64 2000)
    (mkLookbacks 30 7 60 1) 7 (f64_div (as_f64 1) (as_f64 2)) (f64_div (as_f64 1) (as_f64 4)) 48
    (from_secs 300) (Some 5) (Some 10).

Definition demo_pick (id : N) : SelectedIndexer := mkSelected id (Some (as_f64 100)) None.

Definition demo_memory (group : list N) : Memory (list SelectedIndexer) :=
  mkMemory (demo_pick <$> group) false ∅ ∅ [] false [] (mkLocks false false).

(** Two active agreements, on 31 and 32, for a target of two. *)
Definition demo_covered : Db :=
  run_ops [SetTarget 10 1 5 7 42161 2; Register 20 (demo_params 11 31);
    Register 21 (demo_params 12 32); Reconcile 30 11 true None] empty_db.

Definition demo_pass (group : list N)
    : (option JobResult * Memory (list SelectedIndexer)) * SState Script (list Message) :=
  reassess_handle (λ _, "0x"%string) id (λ _ _ _ _ nonce, [nonce]) (λ _ _, []) (λ _ _ _, [])
    (λ _, [1]) (λ _, Some "http://indexer"%string) (λ _, Some "arbitrum-one"%string) (λ _, None)
    (λ i, 200 + N.of_nat i)%N elements 1800000000 0 0 0 demo_offer_config ∅ ∅ ∅ 42161 false None
    1 7 42161 (demo_memory group) (demo_run demo_covered [Ok Live; Ok NotLive] []).

Lemma demo_covered_inv : reg_inv (sdb (demo_run demo_covered [Ok Live; Ok NotLive] [])).
Proof. apply run_ops_inv. by repeat constructor. Defined.

(** 33 takes the place of 32: it is the one agreement registered. *)
Lemma reassessment_fits_witness :
  db_status (sdb (demo_pass [31; 33]%N).2) 200 = Some Created ∧
  ∃ rows : list AgreementRow,
    (∀ k row, srow (demo_run demo_covered [Ok Live; Ok NotLive] []) k = None →
      srow (demo_pass [31; 33]%N).2 k = Some row → row ∈ rows) ∧
    (rows ≠ [] → Z.of_nat (length rows + 0 +
       size (indexers (active_rows 1 demo_covered) ∩ list_to_set [31; 33]%N)) ≤ 2).
Proof.
  split; [by vm_compute|].
  assert (Hg : group_named (me_asked (demo_pass [31; 33]%N).1.2) = Some (list_to_set [31; 33]%N))
    by (by vm_compute).
  destruct (demo_pass [31; 33]%N) as [[r m'] s'] eqn:E.
  destruct (reassessment_fits (λ _, "0x"%string) id (λ _ _ _ _ nonce, [nonce]) (λ _ _, [])
    (λ _ _ _, []) (λ _, [1]) (λ _, Some "http://indexer"%string) (λ _, Some "arbitrum-one"%string)
    (λ _, None) (λ i, 200 + N.of_nat i)%N elements 1800000000 0 0 0 demo_offer_config ∅ ∅ ∅ 42161
    false None (λ X, Permutation_refl (elements X)) 1 7 42161
    (demo_memory [31; 33]%N) (demo_run demo_covered [Ok Live; Ok NotLive] []) r m' s')
    as (asked & rows & Hm & _ & _ & H1 & _ & _ & _ & H2 & _);
    [reflexivity|exact demo_covered_inv|exact E|].
  simpl in Hg, Hm. rewrite Hm in Hg. rewrite Hg in H2. exists rows. split; [exact H1|exact H2].
Defined.

(** Only 31 is wanted: 32's agreement is the surplus, and is ended. *)
Lemma reassessment_keeps_coverage_witness :
  db_status (sdb (demo_pass [31]%N).2) 12 = Some CanceledByRequester ∧
  ∃ ended : list N,
    (length ended ≤ length (unwanted_rows 1 demo_covered {[31%N]}) -
                    size (({[31%N]} : gset N) ∖ indexers (active_rows 1 demo_covered)))%nat ∧
    (∀ k row, srow (demo_run demo_covered [Ok Live; Ok NotLive] []) k = Some row → k ∉ ended →
      srow (demo_pass [31]%N).2 k = Some row).
Proof.
  split; [by vm_compute|].
  assert (Hg : group_named (me_asked (demo_pass [31]%N).1.2) = Some {[31%N]}) by (by vm_compute).
  destruct (demo_pass [31]%N) as [[r m'] s'] eqn:E.
  destruct (reassessment_keeps_coverage (λ _, "0x"%string) id (λ _ _ _ _ nonce, [nonce]) (λ _ _, [])
    (λ _ _ _, []) (λ _, [1]) (λ _, Some "http://indexer"%string) (λ _, Some "arbitrum-one"%string)
    (λ _, None) (λ i, 200 + N.of_nat i)%N elements 1800000000 0 0 0 demo_offer_config ∅ ∅ ∅ 42161
    false None (λ X, Permutation_refl (elements X)) 1 7 42161
    (demo_memory [31]%N) (demo_run demo_covered [Ok Live; Ok NotLive] []) r m' s')
    as (asked & ended & replaced & Hm & _ & _ & _ & H1 & _ & H2 & _);
    [reflexivity|exact demo_covered_inv|exact E|].
  simpl in Hg, Hm. rewrite Hm in Hg. rewrite Hg in H1. exists ended. split; [exact H1|exact H2].
Defined.

Lemma demo_rates_fit : rates_fit demo_covered.
Proof.
  intros k row Hk _. change (is_Some (fee_rate row)).
  assert (H : Forall (λ r, is_Some (fee_rate r)) (map_to_list (agreements demo_covered)).*2).
  { apply (bool_decide_unpack _). by vm_compute. }
  rewrite Forall_forall in H. apply H, list_elem_of_fmap. exists (k, row).
  split; [done|]. by apply elem_of_map_to_list.
Defined.

Lemma demo_can_run : can_run 48 (mkLocks false false) demo_covered.
Proof. split; [exact demo_rates_fit|by vm_compute; eexists|reflexivity..]. Defined.

Lemma reassessment_never_panics_witness :
  can_run 48 (mkLocks false false) demo_covered ∧
  ∃ result m' s', demo_pass [31; 33]%N = ((Some result, m'), s').
Proof.
  split; [exact demo_can_run|].
  apply (reassessment_never_panics (λ _, "0x"%string) id (λ _ _ _ _ nonce, [nonce]) (λ _ _, [])
    (λ _ _ _, []) (λ _, [1]) (λ _, Some "http://indexer"%string) (λ _, Some "arbitrum-one"%string)
    (λ _, None) (λ i, 200 + N.of_nat i)%N elements 1800000000 0 0 0 demo_offer_config ∅ ∅ ∅ 42161
    false None (λ X, Permutation_refl (elements X)) 1 7 42161
    (demo_memory [31; 33]%N) (demo_run demo_covered [Ok Live; Ok NotLive] []));
    [reflexivity|exact demo_covered_inv|exact demo_can_run].
Defined.

(** A rate past 128 bits, which a price table may hold, stops every pass. *)
Definition demo_wide : Db :=
  run_ops [SetTarget 10 1 5 7 42161 2;
    Register 20 (mkParams 11 111 1 7 31 "http://indexer"
      (mkTerms 1 31 3 1900000000 1900086400 0 5 60 3600 2 (mkMetadata (2 ^ 128) 0 7 42161 42161 0)) None)]
    empty_db.

Lemma wide_rate_panics :
  (compute_optimistic_dips_fees (C := Script) (W := list Message) ∅ (demo_memory [])
     (demo_run demo_wide [] [])).1.1 = None.
Proof. by vm_compute. Qed.

(** An age limit past the width of its seconds, which the configuration lets
    through, stops the pass that meets a usable snapshot. *)
Lemma wide_hours_panic :
  breaker_evaluate (λ _, Some 0) 0 "arbitrum-one" [1]%N
    (Some (mkSnapshot (Some "2026-01-01T00:00:00Z"%string) [1; 2]%N)) (as_f64 1) (as_f64 0)
    9223372036854775807 false ∅ = None.
Proof. by vm_compute. Qed.

End ReassessPass.
