(* ===== verification/Reassignment.v ===== *)
(** * Reassignment (bin/dipper-service/src/network/service/reassignment.rs)

    The service that queues reassessments by the clock: a full pass a day over
    every open request old enough, and a top-up pass more often over the
    requests left short of indexers that a free indexer could fill.  When the
    passes fall due is arithmetic on the clock; what they queue is read from the
    registry, from IISA's pool and from the queue.  A stop message is an oracle:
    [stop i] tells whether one is seen before the i-th push of a pass. *)

From S2P Require Import Prelude Schema Registry RegistryInv RegistryRuns RegistryOps RegistryQueries.
From S2P Require Import JobQueue Worker Rca CancelDispatch CancelDispatchProps.
From S2P Require Import ChainEvents ChainListener ChainReconcile Services Liveness Selection Reassess.
Import Schema Registry RegistryInv RegistryRuns RegistryOps RegistryQueries.
Import JobQueue Worker Rca CancelDispatch CancelDispatchProps ChainEvents ChainListener.
Import ChainReconcile Services Liveness Selection Reassess.
Local Open Scope Z_scope.

Module Reassignment.

(** Durations, in nanoseconds. *)
Record ReassignmentConfig : Type := mkReassignmentConfig {
  rc_interval : Z;
  rc_run_at_utc_hour : Z;
  rc_batch_size : Z;
  rc_min_request_age : Z;
  rc_top_up_interval : Z }.

Definition MAX_FAILED_PUSHES_IN_A_ROW : Z := 3.

(** ** When the passes fall due *)

(** [unix_timestamp], of an instant in nanoseconds since the epoch. *)
Definition unix_timestamp (now : Z) : Z := now / 1000000000.
Definition hour (now : Z) : Z := unix_timestamp now mod 86400 / 3600.
Definition minute (now : Z) : Z := unix_timestamp now mod 3600 / 60.
Definition second (now : Z) : Z := unix_timestamp now mod 60.

(** A subtraction of unsigned integers that panics below zero. *)
Definition unsigned_sub (a b : Z) : option Z := if a <? b then None else Some (a - b).

(** In seconds. *)
Definition duration_until_utc_hour (now target_hour : Z) : option Z :=
  let current_hour := hour now in
  hours_until ←
    (if current_hour <? target_hour then unsigned_sub target_hour current_hour
     else if (current_hour =? target_hour) && (minute now =? 0) && (second now =? 0) then Some 0
     else (λ h, h + target_hour) <$> unsigned_sub 24 current_hour);
  let seconds_into_current_hour := minute now * 60 + second now in
  unsigned_sub (hours_until * 3600) seconds_into_current_hour.

(** In seconds. *)
Definition until_next_multiple (now every : Z) : Z :=
  let every := Z.max (as_secs every) 1 in
  let since_epoch := if unix_timestamp now <? 0 then 0 else unix_timestamp now in
  (every - since_epoch mod every) mod every.

(** [while next <= now { next += every }], at most [fuel] turns of it. *)
Fixpoint catch_up (fuel : nat) (every now next : Z) : option Z :=
  if next <=? now then
    match fuel with
    | O => None
    | Datatypes.S fuel' => catch_up fuel' every now (next + every)
    end
  else Some next.

(** The turns the loop needs: the runs missed. *)
Definition missed_runs (last every now : Z) : nat := Z.to_nat ((now - last) / every).

Definition next_after (last every now : Z) : option Z :=
  let every := Z.max every (from_secs 1) in
  catch_up (missed_runs last every now) every now (last + every).

(** The service's own variables: when each pass runs next, by the monotonic
    clock. *)
Record Schedule : Type := mkSchedule {
  sc_next_full : Z;
  sc_next_top_up : option Z }.

Definition top_up_every (config : ReassignmentConfig) : option Z :=
  if rc_top_up_interval config =? 0 then None else Some (rc_top_up_interval config).

(** The service's start; it refuses to run without an interval. *)
Definition first_schedule (config : ReassignmentConfig) (started clock : Z) : option Schedule :=
  if rc_interval config =? 0 then None
  else
    delay ← duration_until_utc_hour clock (rc_run_at_utc_hour config);
    Some (mkSchedule (started + from_secs delay)
            ((λ every, started + from_secs (until_next_multiple clock every))
               <$> top_up_every config)).

Definition wake (sch : Schedule) : Z :=
  match sc_next_top_up sch with
  | None => sc_next_full sch
  | Some at_ => Z.min at_ (sc_next_full sch)
  end.

Definition full_due (now : Z) (sch : Schedule) : bool := sc_next_full sch <=? now.
Definition top_up_due (now : Z) (sch : Schedule) : bool :=
  match sc_next_top_up sch with Some at_ => at_ <=? now | None => false end.

(** After the passes that were due at [now] have run. *)
Definition reschedule (config : ReassignmentConfig) (now : Z) (sch : Schedule) : option Schedule :=
  next_full ← (if full_due now sch then next_after (sc_next_full sch) (rc_interval config) now
               else Some (sc_next_full sch));
  next_top_up ←
    match top_up_due now sch, sc_next_top_up sch, top_up_every config with
    | true, Some at_, Some every => Some <$> next_after at_ every now
    | _, _, _ => Some (sc_next_top_up sch)
    end;
  Some (mkSchedule next_full next_top_up).

(** ** What a pass queues *)

(** How a pass ended. *)
Inductive Pass : Type :=
| Done (ids : gset N)
| Stopped.

(** What the top-up pass reads once per chain. *)
Record ChainPool : Type := mkChainPool {
  cp_dips : DipsAcceptingSnapshot;
  cp_unresponsive : list N }.

Section reassignment.
Context {C W I : Type} `{!ChainClient C} `{!MessageQueue W} `{!CandidateSelection I}.
Notation S := (S C W).
Notation SState := (SState C W).
Notation Task := (Task C W I).

(** [?] on a read of the registry; a read that takes too long is one whose
    connection is lost. *)
Definition try_db {A B} (m : S (result Error A)) (k : A → Task (result Error B))
    : Task (result Error B) :=
  r ← lift m; match r with Ok a => k a | Err e => mret (Err e) end.

Definition already_queued : S (gset N) :=
  r ← queued_reassessments; mret (default ∅ r).

Definition queue_one_reassessment (request : IndexingRequest) : S bool :=
  queue_reassess_indexing_request (ir_id request) (ir_deployment_id request)
    (ir_deployment_chain_id request) (ir_num_candidates request) Sweep.

(** The loop, with the requests queued and the pushes failed in a row so far. *)
Fixpoint queue_each (stop : nat → bool) (i : nat) (queued : gset N) (failed_in_a_row : Z)
    (requests : list IndexingRequest) : S Pass :=
  match requests with
  | [] => mret (Done queued)
  | request :: rest =>
      if stop i then mret Stopped
      else
        pushed ← queue_one_reassessment request;
        if pushed : bool then queue_each stop (Datatypes.S i) ({[ir_id request]} ∪ queued) 0 rest
        else if failed_in_a_row + 1 =? MAX_FAILED_PUSHES_IN_A_ROW then mret (Done queued)
        else queue_each stop (Datatypes.S i) queued (failed_in_a_row + 1) rest
  end.

Definition queue_reassessments (stop : nat → bool) (requests : list IndexingRequest) : S Pass :=
  queue_each stop 0 ∅ 0 requests.

Context (config : ReassignmentConfig) (conf : OfferConfig).
Context (get_network_by_caip2_id : string → option string) (additional_networks : gmap Z string).
(** The monotonic clock when the cache is read and filled for a chain. *)
Context (looked_at stored_at : Z → Z).

Definition min_age_seconds : Z := Z.min (as_secs (rc_min_request_age config)) i64_max.

Definition full_pass (skip : gset N) (stop : nat → bool) : S Pass :=
  listed ← pg (λ now, provider_requests
             (get_open_indexing_requests_for_reassessment now min_age_seconds 0));
  match listed with
  | Ok requests => queue_reassessments stop (filter (λ r, ir_id r ∉ skip) requests)
  | Err _ => mret (Done ∅)
  end.

Definition chain_pool (chain_id : Z) : Task (result Error (option ChainPool)) :=
  match resolve_chain_name get_network_by_caip2_id additional_networks chain_id with
  | None => mret (Ok None)
  | Some chain => λ m,
      let ceilings := mkCeilings (Some (max_grt_per_30_days_for conf chain))
                        (Some (oc_max_grt_per_billion_entities_per_30_days conf)) in
      let '(dips, cache, iisa) :=
        get_or_fetch (oc_dips_accepting_cache_ttl conf) (looked_at chain_id) (stored_at chain_id)
          chain ceilings
          (me_cache m) (me_iisa m) in
      let m' := mkMemory iisa (me_locked m) (me_breaker m) cache (me_events m) (me_notified m)
                  (me_asked m) (me_locks m) in
      match dips with
      | None => mret (Some (Ok None), m')
      | Some dips =>
          try_db (pg (λ now, get_unresponsive_indexers now
                          (oc_unresponsive_indexer_lookback_days conf) chain_id)) (λ unresponsive,
          mret (Ok (Some (mkChainPool dips unresponsive)))) m'
      end
  end.

(** The entry of the chains read so far, read now if it is vacant. *)
Definition chain_entry (chains : gmap Z (option ChainPool)) (chain_id : Z)
    : Task (result Error (option ChainPool * gmap Z (option ChainPool))) :=
  match chains !! chain_id with
  | Some known => mret (Ok (known, chains))
  | None =>
      r ← chain_pool chain_id;
      mret (match r with
            | Ok pool => Ok (pool, <[chain_id := pool]> chains)
            | Err e => Err e
            end)
  end.

(** The agreements of the request that count towards its target. *)
Definition holding (id : N) (agreements : list IndexingAgreement) : Z :=
  Z.of_nat (length (filter (λ a, ia_indexing_request_id a = id ∧
                                 is_active_agreement (ia_status a) = true) agreements)).

Definition batch_full (fillable : list IndexingRequest) : bool :=
  if rc_batch_size config <? 0 then false
  else Z.of_nat (length fillable) =? rc_batch_size config.

(** The body of the loop over the short requests, once its chain's pool is
    known: whether a free indexer could fill the request. *)
Definition can_be_filled (declined : gmap N (list N)) (denylist : list N) (pool : ChainPool)
    (request : IndexingRequest) (agreements : list IndexingAgreement) (held : list N) : bool :=
  if ir_num_candidates request <=? holding (ir_id request) agreements + Z.of_nat (length held)
  then false
  else negb (bool_decide (offerable_indexers (ds_indexers (cp_dips pool))
               (ir_deployment_id request) agreements declined denylist (cp_unresponsive pool) held
             = [])).

Fixpoint fillable_of (declined : gmap N (list N)) (denylist : list N)
    (chains : gmap Z (option ChainPool)) (fillable short : list IndexingRequest)
    : Task (result Error (list IndexingRequest)) :=
  match short with
  | [] => mret (Ok fillable)
  | request :: rest =>
      entry ← chain_entry chains (ir_deployment_chain_id request);
      match entry with
      | Err e => mret (Err e)
      | Ok (None, chains') => fillable_of declined denylist chains' fillable rest
      | Ok (Some pool, chains') =>
          try_db (pg (λ _, provider_agreements
                    (get_indexing_agreements_by_deployment_id (ir_deployment_id request))))
            (λ agreements,
          try_db (pg (λ _, get_abandoned_indexers_holding_slots (ir_id request))) (λ held,
          if can_be_filled declined denylist pool request agreements held then
            let fillable' := fillable ++ [request] in
            if batch_full fillable' then mret (Ok fillable')
            else fillable_of declined denylist chains' fillable' rest
          else fillable_of declined denylist chains' fillable rest))
      end
  end.

Definition short_requests_with_a_free_indexer (skip : gset N)
    : Task (result Error (list IndexingRequest)) :=
  try_db (pg (λ _, provider_requests (get_short_open_indexing_requests 0))) (λ listed,
  match filter (λ r, ir_id r ∉ skip) listed with
  | [] => mret (Ok [])
  | short =>
      try_db (pg (λ now, get_declined_indexers_by_deployment now (oc_lookbacks conf)))
        (λ declined,
      try_db (pg get_indexer_denylist) (λ denylist,
      fillable_of declined denylist ∅ [] short))
  end).

Definition top_up_pass (skip : gset N) (stop : nat → bool) : Task Pass :=
  r ← short_requests_with_a_free_indexer skip;
  match r with
  | Ok requests => lift (queue_reassessments stop requests)
  | Err _ => mret (Done ∅)
  end.

Definition run_due_passes (full_is_due top_up_is_due : bool) (stop_full stop_top_up : nat → bool)
    : Task Pass :=
  if negb full_is_due && negb top_up_is_due then mret (Done ∅)
  else
    skip ← lift already_queued;
    full ← (if full_is_due then lift (full_pass skip stop_full) else mret (Done ∅));
    match full with
    | Stopped => mret Stopped
    | Done ids =>
        let skip := skip ∪ ids in
        topped ← (if top_up_is_due then top_up_pass skip stop_top_up else mret (Done ∅));
        mret (match topped with Stopped => Stopped | Done _ => Done skip end)
    end.

(** A turn of the service's loop, woken at [now]: [None] when it stops. *)
Definition service_turn (now : Z) (stop_full stop_top_up : nat → bool) (sch : Schedule)
    : Task (option Schedule) :=
  ended ← run_due_passes (full_due now sch) (top_up_due now sch) stop_full stop_top_up;
  match ended with
  | Stopped => mret None
  | Done _ =>
      match reschedule config now sch with
      | Some sch' => mret (Some sch')
      | None => panic
      end
  end.

End reassignment.

End Reassignment.
