(* ===== verification/ReassignmentProps.v ===== *)
(** * What the reassignment service does

    Its passes keep to the clock and its loop never runs without work; the
    passes queue open requests only, none that is queued already and none twice;
    the full pass queues them all and the top-up exactly the short requests a
    free indexer could fill. *)

From S2P Require Import Prelude Schema Registry RegistryInv RegistryRuns RegistryOps RegistryQueries.
From S2P Require Import JobQueue Worker Rca CancelDispatch CancelDispatchProps.
From S2P Require Import ChainEvents ChainListener ChainReconcile Services RowOps QueryProps Liveness.
From S2P Require Import Selection Reassess ReassessPlan ReassessProps Reassignment.
Import Schema Registry RegistryInv RegistryRuns RegistryOps RegistryQueries.
Import JobQueue Worker Rca CancelDispatch CancelDispatchProps ChainEvents ChainListener.
Import ChainReconcile Services RowOps QueryProps Liveness Selection Reassess ReassessPlan.
Import ReassessProps Reassignment.
Local Open Scope Z_scope.
Local Set Default Proof Using "Type".

Module ReassignmentProps.

(** ** The clock *)

Lemma utc_hour_reached now target :
  0 ≤ target < 24 →
  ∃ d, duration_until_utc_hour now target = Some d ∧ 0 ≤ d < 86400 ∧
    (unix_timestamp now + d) mod 86400 = target * 3600.
Proof.
  intros Ht. unfold duration_until_utc_hour, hour, minute, second.
  set (t := unix_timestamp now).
  assert (Hday : t mod 86400 = t mod 86400 / 3600 * 3600 + (t mod 3600 / 60 * 60 + t mod 60))
    by (Z.div_mod_to_equations; lia).
  assert (Hs : 0 ≤ t mod 3600 / 60 * 60 + t mod 60 < 3600) by (Z.div_mod_to_equations; lia).
  assert (Hh : 0 ≤ t mod 86400 / 3600 < 24) by (Z.div_mod_to_equations; lia).
  set (s := t mod 3600 / 60 * 60 + t mod 60) in *. set (h := t mod 86400 / 3600) in *.
  assert (Hd : ∃ d, (hours_until ←
      (if h <? target then unsigned_sub target h
       else if (h =? target) && (t mod 3600 / 60 =? 0) && (t mod 60 =? 0) then Some 0
       else (λ h, h + target) <$> unsigned_sub 24 h);
      unsigned_sub (hours_until * 3600) s) = Some d ∧ 0 ≤ d < 86400 ∧
      (d = target * 3600 - (h * 3600 + s) ∨ d = target * 3600 - (h * 3600 + s) + 86400)).
  { unfold unsigned_sub. destruct (Z.ltb_spec h target).
    - destruct (Z.ltb_spec target h); [lia|]. simpl.
      destruct (Z.ltb_spec ((target - h) * 3600) s); [lia|]. eexists. split; [done|]. lia.
    - destruct ((h =? target) && _ && _) eqn:E; simpl.
      + apply andb_true_iff in E as [[E1 E2]%andb_true_iff E3].
        assert (s = 0) by (unfold s; lia). destruct (Z.ltb_spec (0 * 3600) s); [lia|].
        eexists. split; [done|]. lia.
      + destruct (Z.ltb_spec 24 h); [lia|]. simpl.
        destruct (Z.ltb_spec ((24 - h + target) * 3600) s); [lia|]. eexists. split; [done|].
        assert (¬ (h = target ∧ s = 0)); [|lia]. intros [E1 E2]. unfold s in E2.
        assert (t mod 3600 / 60 = 0 ∧ t mod 60 = 0) as [E3 E4] by (Z.div_mod_to_equations; lia).
        rewrite E3, E4, E1, !Z.eqb_refl in E. done. }
  destruct Hd as (d & -> & Hb & Hd). exists d. split_and!; [done|lia|lia|].
  rewrite <- Z.add_mod_idemp_l by lia. rewrite Hday.
  destruct Hd as [-> | ->].
  - replace (h * 3600 + s + _) with (target * 3600) by lia. apply Z.mod_small. lia.
  - replace (h * 3600 + s + _) with (target * 3600 + 1 * 86400) by lia.
    rewrite Z.mod_add by lia. apply Z.mod_small. lia.
Qed.

Lemma next_multiple_reached now every :
  0 ≤ now → let e := Z.max (as_secs every) 1 in
  0 ≤ until_next_multiple now every < e ∧ (e | unix_timestamp now + until_next_multiple now every).
Proof.
  intros Hn e. unfold until_next_multiple. fold e.
  assert (He : 0 < e) by (unfold e; lia).
  destruct (Z.ltb_spec (unix_timestamp now) 0) as [H|_].
  { unfold unix_timestamp in H. assert (0 ≤ now / 1000000000) by (apply Z.div_pos; lia). lia. }
  split; [apply Z.mod_pos_bound; lia|]. apply Z.mod_divide; [lia|].
  rewrite Z.add_mod_idemp_r by lia.
  replace (_ + (e - _)) with (unix_timestamp now - unix_timestamp now mod e + 1 * e) by lia.
  rewrite Z.mod_add, Zminus_mod_idemp_r, Z.sub_diag by lia. apply Z.mod_0_l. lia.
Qed.

(** The first of the runs [last + every], [last + 2 * every], ... after [now]. *)
Definition first_run_after (last every now next : Z) : Prop :=
  now < next ≤ now + every ∧ ∃ k, 1 ≤ k ∧ next = last + k * every.

Lemma catch_up_ends every now next fuel :
  0 < every → now < next + Z.of_nat fuel * every →
  ∃ k, 0 ≤ k ∧ catch_up fuel every now next = Some (next + k * every) ∧
    now < next + k * every ∧ (k = 0 ∨ next + k * every ≤ now + every).
Proof.
  intros He. revert next. induction fuel as [|fuel IH]; intros next Hf; simpl.
  - destruct (Z.leb_spec next now); [lia|]. exists 0. rewrite Z.mul_0_l, Z.add_0_r. auto with lia.
  - destruct (Z.leb_spec next now).
    + destruct (IH (next + every)) as (k & Hk & -> & H1 & H2); [lia|]. exists (k + 1).
      split_and!; [lia|f_equal; lia|lia|right]. destruct H2 as [-> |H2]; lia.
    + exists 0. rewrite Z.mul_0_l, Z.add_0_r. auto with lia.
Qed.

Lemma next_after_ends last every now :
  last ≤ now → ∃ next, next_after last every now = Some next ∧
    first_run_after last (Z.max every (from_secs 1)) now next.
Proof.
  intros Hl. unfold next_after, first_run_after. set (e := Z.max every (from_secs 1)).
  assert (He : 0 < e) by (unfold e, from_secs; lia).
  destruct (catch_up_ends e now (last + e) (missed_runs last e now)) as (k & Hk & -> & H1 & H2).
  - done.
  - unfold missed_runs. rewrite Z2Nat.id by (apply Z.div_pos; lia).
    pose proof (Z.mul_succ_div_gt (now - last) e He). lia.
  - eexists. split; [done|]. split; [destruct H2 as [-> |H2]; lia|]. exists (k + 1). lia.
Qed.

(** The schedules the service goes through, woken no earlier than it asked. *)
Inductive scheduled (config : ReassignmentConfig) (started clock : Z) : Schedule → Prop :=
| scheduled_first sch :
    first_schedule config started clock = Some sch → scheduled config started clock sch
| scheduled_next sch now sch' :
    scheduled config started clock sch → wake sch ≤ now →
    reschedule config now sch = Some sch' → scheduled config started clock sch'.

Definition runs_top_up (config : ReassignmentConfig) (sch : Schedule) : Prop :=
  is_Some (sc_next_top_up sch) ↔ rc_top_up_interval config ≠ 0.

Lemma first_schedule_spec config started clock :
  0 < rc_interval config → 0 ≤ rc_run_at_utc_hour config < 24 →
  ∃ sch d, first_schedule config started clock = Some sch ∧
    sc_next_full sch = started + from_secs d ∧ 0 ≤ d < 86400 ∧
    (unix_timestamp clock + d) mod 86400 = rc_run_at_utc_hour config * 3600 ∧
    sc_next_top_up sch = (λ every, started + from_secs (until_next_multiple clock every))
               <$> top_up_every config.
Proof.
  intros Hi Hh. unfold first_schedule. destruct (Z.eqb_spec (rc_interval config) 0); [lia|].
  destruct (utc_hour_reached clock _ Hh) as (d & -> & Hd & Hm). simpl. by eexists _, d.
Qed.

(** One turn: each pass that was due next runs at its first run after [now]. *)
Definition moved_on (every : Z) (now : Z) (at_ at' : Z) : Prop :=
  if at_ <=? now then first_run_after at_ (Z.max every (from_secs 1)) now at' else at' = at_.

Lemma reschedule_spec config now sch :
  runs_top_up config sch →
  ∃ sch', reschedule config now sch = Some sch' ∧
    moved_on (rc_interval config) now (sc_next_full sch) (sc_next_full sch') ∧
    match sc_next_top_up sch, sc_next_top_up sch' with
    | Some at_, Some at' => moved_on (rc_top_up_interval config) now at_ at'
    | None, None => True
    | _, _ => False
    end.
Proof.
  intros Ht. unfold reschedule, full_due, top_up_due, moved_on, runs_top_up, top_up_every in *.
  assert (Hf : ∃ at', (if sc_next_full sch <=? now
      then next_after (sc_next_full sch) (rc_interval config) now
      else Some (sc_next_full sch)) = Some at' ∧
      moved_on (rc_interval config) now (sc_next_full sch) at').
  { unfold moved_on. destruct (Z.leb_spec (sc_next_full sch) now) as [H|H]; [|by eauto].
    by apply next_after_ends. }
  destruct Hf as (at' & -> & Hf). unfold moved_on in Hf. simpl.
  destruct (sc_next_top_up sch) as [at_|] eqn:Hs; [|by eexists].
  destruct (Z.eqb_spec (rc_top_up_interval config) 0) as [E|_].
  { by destruct (proj1 Ht (mk_is_Some _ _ eq_refl)). }
  destruct (Z.leb_spec at_ now) as [H|H]; [|by eexists].
  destruct (next_after_ends at_ (rc_top_up_interval config) now H) as (at2 & -> & H2).
  by eexists.
Qed.

Lemma moved_on_after every now at_ at' : moved_on every now at_ at' → now < at'.
Proof. unfold moved_on. destruct (Z.leb_spec at_ now); [intros [? _]; lia|lia]. Qed.

Lemma moved_on_grid every now at_ at' :
  moved_on every now at_ at' → ∃ k, 0 ≤ k ∧ at' = at_ + k * Z.max every (from_secs 1).
Proof.
  unfold moved_on. destruct (at_ <=? now).
  - intros [_ (k & Hk & ->)]. exists k. split; [lia|done].
  - intros ->. exists 0. lia.
Qed.

(** Where the full pass stands: on the grid that starts at the hour. *)
Definition full_on_grid (config : ReassignmentConfig) (started clock at_ : Z) : Prop :=
  ∃ d k, (unix_timestamp clock + d) mod 86400 = rc_run_at_utc_hour config * 3600 ∧ 0 ≤ k ∧
    at_ = started + from_secs d + k * Z.max (rc_interval config) (from_secs 1).

Lemma scheduled_clock config started clock sch :
  0 < rc_interval config → 0 ≤ rc_run_at_utc_hour config < 24 → scheduled config started clock sch →
  runs_top_up config sch ∧ full_on_grid config started clock (sc_next_full sch).
Proof.
  intros Hi Hh. induction 1 as [sch Hs|sch now sch' _ [IH1 IH2] _ Hs].
  - destruct (first_schedule_spec config started clock Hi Hh) as (sch0 & d & E & Hf & _ & Hm & Ht).
    rewrite Hs in E. injection E as <-. split.
    + unfold runs_top_up, top_up_every in *. rewrite Ht. clear.
      destruct (Z.eqb_spec (rc_top_up_interval config) 0); simpl; [|by split; eauto].
      split; [by intros []|done].
    + exists d, 0. rewrite Hf. split_and!; [done|lia|lia].
  - destruct (reschedule_spec config now sch IH1) as (sch0 & E & Hf & Ht).
    rewrite Hs in E. injection E as <-. split.
    + unfold runs_top_up in *. rewrite <- IH1. clear IH1 IH2 Hs.
      destruct (sc_next_top_up sch), (sc_next_top_up sch'); try done; split; eauto.
    + destruct IH2 as (d & k & Hm & Hk & E). destruct (moved_on_grid _ _ _ _ Hf) as (j & Hj & ->).
      exists d, (k + j). split_and!; [done|lia|]. rewrite E. lia.
Qed.

(** Two times on a common grid of step [t], the first run after [now] of the
    one at least as early as the other. *)
Lemma grid_order t at1 at2 now : 0 < t → (t | at2 - at1) → at1 ≤ now + t → now < at2 → at1 ≤ at2.
Proof. intros Ht [k Hk] H1 H2. assert (0 ≤ k) by nia. nia. Qed.

Lemma moved_on_divide t every now at_ at' :
  (t | Z.max every (from_secs 1)) → moved_on every now at_ at' → (t | at' - at_).
Proof.
  intros Ht H. destruct (moved_on_grid _ _ _ _ H) as (k & _ & ->).
  replace (at_ + _ - at_) with (k * Z.max every (from_secs 1)) by lia. by apply Z.divide_mul_r.
Qed.

(** A top-up interval that divides the hour. *)
Record hourly (config : ReassignmentConfig) (t : Z) : Prop := {
  hr_daily : rc_interval config = from_secs 86400;
  hr_top : rc_top_up_interval config = from_secs t;
  hr_pos : 0 < t;
  hr_divides : (t | 3600) }.

Lemma hourly_first config t started clock sch :
  hourly config t → 0 ≤ rc_run_at_utc_hour config < 24 → 0 ≤ clock →
  first_schedule config started clock = Some sch →
  ∃ at_, sc_next_top_up sch = Some at_ ∧ at_ ≤ sc_next_full sch ∧
    (from_secs t | sc_next_full sch - at_).
Proof.
  intros [Hd Ht Hp Hdiv] Hh Hc Hs.
  destruct (first_schedule_spec config started clock) as (sch0 & d & E & Hf & Hb & Hm & Htop);
    [unfold from_secs in *; lia|done|].
  rewrite Hs in E. injection E as <-. unfold top_up_every in Htop.
  destruct (Z.eqb_spec (rc_top_up_interval config) 0); [unfold from_secs in *; lia|].
  destruct (next_multiple_reached clock (rc_top_up_interval config) Hc) as [Hb2 Hm2].
  set (u := until_next_multiple _ _) in *.
  assert (He : Z.max (as_secs (rc_top_up_interval config)) 1 = t).
  { rewrite Ht. unfold as_secs, from_secs. rewrite Z.div_mul; lia. }
  rewrite He in *. assert (Hdu : (t | d - u)).
  { replace (d - u) with ((unix_timestamp clock + d) - (unix_timestamp clock + u)) by lia.
    apply Z.divide_sub_r; [|done].
    rewrite (Z.div_mod (unix_timestamp clock + d) 86400), Hm by lia.
    apply Z.divide_add_r; [apply Z.divide_mul_l|apply Z.divide_mul_r]; [|done].
    by apply (Z.divide_trans _ 3600); [|exists 24]. }
  eexists. split; [exact Htop|]. rewrite Hf. split.
  - assert (u ≤ d) by (apply (grid_order t u d (-1)); [lia|done|lia|lia]). unfold from_secs. lia.
  - replace (_ - _) with (from_secs (d - u)) by (unfold from_secs; lia).
    unfold from_secs. by apply Z.mul_divide_mono_r.
Qed.

Lemma hourly_scheduled config t started clock sch :
  hourly config t → 0 ≤ rc_run_at_utc_hour config < 24 → 0 ≤ clock →
  scheduled config started clock sch →
  ∃ at_, sc_next_top_up sch = Some at_ ∧ at_ ≤ sc_next_full sch ∧
    (from_secs t | sc_next_full sch - at_).
Proof.
  intros Ho Hh Hc. induction 1 as [sch Hs|sch now sch' Hsch (at_ & Hat & Hle & Hdiv) _ Hs].
  { by eapply hourly_first. }
  pose proof Ho as [Hd Ht Hp H3600].
  assert (Hi : 0 < rc_interval config) by (unfold from_secs in *; lia).
  destruct (scheduled_clock _ _ _ _ Hi Hh Hsch) as [Hrun _].
  destruct (reschedule_spec config now sch Hrun) as (sch0 & E & Mf & Mt).
  rewrite Hs in E. injection E as <-. rewrite Hat in Mt.
  destruct (sc_next_top_up sch') as [at'|]; [|done]. exists at'. split; [done|].
  assert (Hmax : Z.max (rc_top_up_interval config) (from_secs 1) = from_secs t)
    by (rewrite Ht; unfold from_secs; lia).
  assert (Hdiv' : (from_secs t | sc_next_full sch' - at')).
  { replace (_ - at') with ((sc_next_full sch' - sc_next_full sch) + (sc_next_full sch - at_)
      - (at' - at_)) by lia.
    apply Z.divide_sub_r; [apply Z.divide_add_r; [|done]|].
    - eapply moved_on_divide; [|exact Mf]. rewrite Hd.
      replace (Z.max _ _) with (86400 * 1000000000) by (unfold from_secs; lia).
      apply Z.mul_divide_mono_r, (Z.divide_trans _ 3600); [done|by exists 24].
    - eapply moved_on_divide; [|exact Mt]. by rewrite Hmax. }
  split; [|done]. pose proof (moved_on_after _ _ _ _ Mf) as Hnow. unfold moved_on in Mt.
  destruct (Z.leb_spec at_ now) as [Hl|Hl].
  - destruct Mt as [[_ Mt] _]. rewrite Hmax in Mt.
    apply (grid_order (from_secs t) _ _ now); [unfold from_secs; lia|done..].
  - subst at'. unfold moved_on in Mf. destruct (sc_next_full sch <=? now); [|by rewrite Mf].
    destruct Mf as [_ (k & Hk & ->)]. unfold from_secs in *. lia.
Qed.

(** C25: the service starts, and its loop neither hangs nor spins.  Whenever it
    wakes, at least one pass is due; the loop that skips missed runs ends, and
    the next wake is later than now.  A pass that ran is next due at its first
    run after now and the other keeps its time.  With the default interval of a
    day every full pass falls in the configured UTC hour's first second, counted
    from the start; and a top-up whose interval divides the hour is due whenever
    the full pass is. *)
Theorem passes_keep_the_clock config started clock sch now :
  0 < rc_interval config → 0 ≤ rc_run_at_utc_hour config < 24 →
  scheduled config started clock sch → wake sch ≤ now →
  is_Some (first_schedule config started clock) ∧
  full_due now sch || top_up_due now sch = true ∧
  (∃ sch', reschedule config now sch = Some sch' ∧ now < wake sch' ∧
    moved_on (rc_interval config) now (sc_next_full sch) (sc_next_full sch') ∧
    match sc_next_top_up sch, sc_next_top_up sch' with
    | Some at_, Some at' => moved_on (rc_top_up_interval config) now at_ at'
    | None, None => True
    | _, _ => False
    end) ∧
  (rc_interval config = from_secs 86400 →
    ∃ t, sc_next_full sch = started + from_secs t ∧
      (unix_timestamp clock + t) mod 86400 = rc_run_at_utc_hour config * 3600) ∧
  (∀ t, hourly config t → 0 ≤ clock → full_due now sch = true → top_up_due now sch = true).
Proof.
  intros Hi Hh Hs Hw. destruct (scheduled_clock _ _ _ _ Hi Hh Hs) as [Hrun Hgrid]. split_and!.
  - destruct (first_schedule_spec config started clock Hi Hh) as (sch0 & d & -> & _). eauto.
  - unfold wake, full_due, top_up_due in *. rewrite orb_true_iff, Z.leb_le.
    destruct (sc_next_top_up sch); [rewrite Z.leb_le; lia|by left].
  - destruct (reschedule_spec config now sch Hrun) as (sch' & E & Mf & Mt). exists sch'.
    split_and!; try done. apply moved_on_after in Mf. unfold wake.
    destruct (sc_next_top_up sch), (sc_next_top_up sch'); try done.
    apply moved_on_after in Mt. lia.
  - intros Hday. destruct Hgrid as (d & k & Hm & _ & E). exists (d + k * 86400).
    rewrite E, Hday. split; [unfold from_secs; lia|]. by rewrite Z.add_assoc, Z.mod_add.
  - intros t Ho Hc Hf. destruct (hourly_scheduled _ _ _ _ _ Ho Hh Hc Hs) as (at_ & Hat & Hle & _).
    unfold full_due, top_up_due in *. rewrite Hat. rewrite Z.leb_le in *. lia.
Qed.

Definition demo_reassignment : ReassignmentConfig :=
  mkReassignmentConfig (from_secs 86400) 10 100 (from_secs 86400) (from_secs 3600).

(** Started at 09:30:00 UTC and woken late, at 12:10 by the wall clock: both
    passes are due, at 10:00 the next day and at 13:00. *)
Lemma passes_keep_the_clock_witness :
  scheduled demo_reassignment 0 (from_secs 34200)
    (mkSchedule (from_secs 1800) (Some (from_secs 1800))) ∧
  full_due (from_secs 9600) (mkSchedule (from_secs 1800) (Some (from_secs 1800))) = true ∧
  reschedule demo_reassignment (from_secs 9600)
    (mkSchedule (from_secs 1800) (Some (from_secs 1800))) =
    Some (mkSchedule (from_secs 88200) (Some (from_secs 12600))) ∧
  top_up_due (from_secs 9600) (mkSchedule (from_secs 1800) (Some (from_secs 1800))) = true.
Proof.
  assert (Hs : scheduled demo_reassignment 0 (from_secs 34200)
    (mkSchedule (from_secs 1800) (Some (from_secs 1800)))) by (by apply scheduled_first).
  split; [exact Hs|]. split; [reflexivity|]. split; [vm_compute; reflexivity|].
  assert (Hk : hourly demo_reassignment 3600) by (split; [reflexivity..|lia|by exists 1]).
  destruct (passes_keep_the_clock demo_reassignment 0 (from_secs 34200)
    (mkSchedule (from_secs 1800) (Some (from_secs 1800))) (from_secs 9600))
    as (_ & _ & _ & _ & H); [reflexivity|simpl; lia|exact Hs|vm_compute; discriminate|].
  apply (H 3600 Hk); [vm_compute; discriminate|reflexivity].
Defined.

(** ** The queue *)

Definition request_message (r : IndexingRequest) : Message :=
  ReassessIndexingRequest (ir_id r) (ir_deployment_id r) (ir_deployment_chain_id r)
    (ir_num_candidates r).

(** The pushes of a pass: each request with what the queue answered. *)
Definition tried (l : list (IndexingRequest * bool)) : list (Message * JobPriority * bool) :=
  (λ x, (request_message x.1, Sweep, x.2)) <$> l.

Definition taken (l : list (IndexingRequest * bool)) : list N :=
  (λ x, ir_id x.1) <$> filter (λ x, x.2 = true) l.

Lemma taken_app l l' : taken (l ++ l') = taken l ++ taken l'.
Proof. unfold taken. by rewrite filter_app, fmap_app. Qed.

Lemma elem_of_taken l id : id ∈ taken l ↔ ∃ q, (q, true) ∈ l ∧ id = ir_id q.
Proof.
  unfold taken. rewrite list_elem_of_fmap. split.
  - intros ([q ok] & -> & [Hok Hin]%list_elem_of_filter). simpl in Hok. subst ok. eauto.
  - intros (q & Hin & ->). exists (q, true). split; [done|]. by apply list_elem_of_filter.
Qed.

Definition three_failures : list bool := [false; false; false].

(** After an accepted push the failures before it no longer count. *)
Lemma failures_reset k l a b :
  (k < 3)%nat → replicate k false ++ true :: l = a ++ three_failures ++ b →
  ∃ a', l = a' ++ three_failures ++ b.
Proof.
  unfold three_failures. revert k. induction a as [|x a IH]; intros k Hk E; simpl in E.
  - destruct k as [|[|[|k]]]; simplify_eq/=; lia.
  - destruct k as [|k]; simplify_eq/=; [by exists a|]. apply (IH k); [lia|done].
Qed.

(** The loop over [requests] with [failed] pushes failed before them: the ones
    tried are a prefix, and it ends early only at a stop or at the third failure
    in a row. *)
Record queue_run (stop : nat → bool) (i failed : nat) (queued : gset N)
    (requests : list IndexingRequest) (done : list (IndexingRequest * bool)) (ended : Pass)
    : Prop := {
  qr_prefix : ∃ rest, requests = done.*1 ++ rest ∧
    match ended with
    | Stopped => rest ≠ [] ∧ stop (i + length done)%nat = true
    | Done ids => ids = queued ∪ list_to_set (taken done) ∧
        (rest = [] ∨ ∃ a, replicate failed false ++ done.*2 = a ++ three_failures)
    end;
  qr_no_more : ∀ a b, replicate failed false ++ done.*2 = a ++ three_failures ++ b → b = [] }.

Lemma failures_short k a b : (k < 3)%nat → replicate k false ≠ a ++ three_failures ++ b.
Proof.
  intros Hk E. apply (f_equal length) in E. unfold three_failures in E.
  rewrite length_replicate, !length_app in E. simpl in E. lia.
Qed.

Lemma queue_run_nil stop i failed queued requests ended :
  (failed < 3)%nat →
  match ended with
  | Stopped => requests ≠ [] ∧ stop i = true
  | Done ids => ids = queued ∧ requests = []
  end → queue_run stop i failed queued requests [] ended.
Proof.
  intros Hf He. split.
  - exists requests. split; [done|]. rewrite Nat.add_0_r. unfold taken. simpl.
    destruct ended; [|done]. destruct He as [-> ->]. split; [set_solver|by left].
  - intros a b E. simpl in E. rewrite app_nil_r in E. by apply failures_short in E.
Qed.

Lemma queue_run_accept stop i failed queued r rest done ended :
  (failed < 3)%nat → queue_run stop (Datatypes.S i) 0 ({[ir_id r]} ∪ queued) rest done ended →
  queue_run stop i failed queued (r :: rest) ((r, true) :: done) ended.
Proof.
  intros Hf [(left & -> & He) Hn]. split.
  - exists left. split; [done|]. destruct ended as [ids|].
    + destruct He as [-> He]. split; [unfold taken; csimpl; set_solver|].
      destruct He as [->|(a & Ha)]; [by left|right]. simpl in *.
      exists (replicate failed false ++ true :: a). rewrite <- app_assoc. simpl. by rewrite <- Ha.
    + split; [apply He|]. simpl. rewrite Nat.add_succ_r. apply He.
  - intros a b E. simpl in E. apply failures_reset in E as (a' & E); [|done]. by apply (Hn a').
Qed.

Lemma queue_run_refuse stop i failed queued r rest done ended :
  queue_run stop (Datatypes.S i) (Datatypes.S failed) queued rest done ended →
  queue_run stop i failed queued (r :: rest) ((r, false) :: done) ended.
Proof.
  intros [(left & -> & He) Hn].
  assert (Hr : replicate failed false ++ ((r, false) :: done).*2 =
               replicate (Datatypes.S failed) false ++ done.*2).
  { rewrite (replicate_S_end failed false), <- app_assoc. done. }
  split; [|intros a b; rewrite Hr; apply Hn]. exists left. split; [done|].
  destruct ended as [ids|].
  - destruct He as [-> He]. split; [done|]. destruct He as [|(a & Ha)]; [by left|right]. exists a.
    by rewrite Hr.
  - split; [apply He|]. simpl. rewrite Nat.add_succ_r. apply He.
Qed.

Lemma queue_run_last stop i queued r rest :
  queue_run stop i 2 queued (r :: rest) [(r, false)] (Done queued).
Proof.
  split.
  - exists rest. split; [done|]. split; [unfold taken; simpl; set_solver|]. right. by exists [].
  - intros a b E. apply (f_equal length) in E. unfold three_failures in E.
    rewrite !length_app in E. simpl in E. destruct b; [done|]. simpl in E. lia.
Qed.

Section passes.
Context {C W I : Type} `{!ChainClient C} `{!MessageQueue W} `{!CandidateSelection I}.
Notation SState := (SState C W).
Notation Memory := (Memory I).
Notation Task := (Task C W I).

(** These messages were pushed and nothing else happened. *)
Record only_queued (news : list (Message * JobPriority * bool)) (s s' : SState) : Prop := {
  oq_db : sdb s' = sdb s;
  oq_log : slog s' = slog s;
  oq_now : snow s' = snow s;
  oq_others : ss_others s' = ss_others s;
  oq_fine : fine s → fine s';
  oq_pushes : ss_pushes s' = ss_pushes s ++ news }.

Lemma only_queued_trans n1 n2 s1 s2 s3 :
  only_queued n1 s1 s2 → only_queued n2 s2 s3 → only_queued (n1 ++ n2) s1 s3.
Proof. intros [] []. split; try congruence; [auto|]. rewrite app_assoc. congruence. Qed.

Lemma consulted_only_queued s s' : consulted [] s s' → only_queued [] s s'.
Proof. intros []. rewrite app_nil_r in *. split; try done. by rewrite app_nil_r. Qed.

Lemma only_queued_alone news s s' : only_queued news s s' → alone s → alone s'.
Proof. intros [] Ha. unfold alone. congruence. Qed.

Lemma wp_queue_each stop i queued failed requests (s : SState) :
  (failed < 3)%nat →
  wp (queue_each stop i queued (Z.of_nat failed) requests) (λ ended s', ∃ done,
    only_queued (tried done) s s' ∧ queue_run stop i failed queued requests done ended) s.
Proof.
  revert i queued failed s. induction requests as [|r rest IH]; intros i queued failed s Hf; simpl.
  { apply wp_ret. exists []. split; [apply consulted_only_queued; split; by rewrite ?app_nil_r|].
    by apply queue_run_nil. }
  destruct (stop i) eqn:Hstop.
  { apply wp_ret. exists []. split; [apply consulted_only_queued; split; by rewrite ?app_nil_r|].
    by apply queue_run_nil. }
  apply wp_bind, wp_push. intros ok s1 Hd Hp Ho.
  assert (Hq : only_queued (tried [(r, ok)]) s s1).
  { split; unfold sdb, slog, snow, fine; by rewrite ?Hd. }
  destruct ok.
  - eapply wp_mono; [apply (IH _ _ 0%nat); lia|]. intros ended s2 (done & Hq2 & Hr).
    exists ((r, true) :: done). split; [by apply (only_queued_trans _ _ _ _ _ Hq Hq2)|].
    by apply queue_run_accept.
  - unfold MAX_FAILED_PUSHES_IN_A_ROW. destruct (Z.eqb_spec (Z.of_nat failed + 1) 3).
    + apply wp_ret. exists [(r, false)]. split; [done|]. assert (failed = 2%nat) as -> by lia.
      apply queue_run_last.
    + rewrite Z.add_1_r, <- Nat2Z.inj_succ.
      eapply wp_mono; [apply IH; lia|]. intros ended s2 (done & Hq2 & Hr).
      exists ((r, false) :: done). split; [by apply (only_queued_trans _ _ _ _ _ Hq Hq2)|].
      by apply queue_run_refuse.
Qed.

(** ** The requests listed *)

(** The requests [p] selects, the least recently updated first, as the services
    see them. *)
Definition known_requests (p : RequestRow → bool) (d : Db) : list IndexingRequest :=
  omap provider_request (request_of_row <$> order_by (λ r, [rq_updated_at r]) (select p (requests d))).

Lemma provider_request_id q q' : provider_request q = Some q' → ir_id q' = ir_id q.
Proof. unfold provider_request. case_match; [done|]. by intros [= <-]. Qed.

Lemma elem_of_known_requests p d q :
  reg_inv d → q ∈ known_requests p d →
  ∃ row, requests d !! ir_id q = Some row ∧ p row = true ∧
    provider_request (request_of_row row) = Some q.
Proof.
  intros Hi Hq. unfold known_requests in Hq. apply list_elem_of_omap in Hq as (x & Hx & Hq).
  apply list_elem_of_fmap in Hx as (row & -> & Hrow).
  apply elem_of_order_by, elem_of_select in Hrow as (k & Hk & Hp). exists row.
  rewrite (provider_request_id _ _ Hq). simpl. by rewrite (inv_request_key _ Hi k row Hk).
Qed.

Lemma known_requests_elem p d k row q :
  requests d !! k = Some row → p row = true → provider_request (request_of_row row) = Some q →
  q ∈ known_requests p d.
Proof.
  intros Hk Hp Hq. apply list_elem_of_omap. exists (request_of_row row). split; [|done].
  apply list_elem_of_fmap_2, elem_of_order_by, elem_of_select. eauto.
Qed.

Lemma omap_ids_sublist l : ir_id <$> omap provider_request l `sublist_of` ir_id <$> l.
Proof.
  induction l as [|x l IH]; [done|]. csimpl. destruct (provider_request x) as [q|] eqn:E; csimpl.
  - rewrite (provider_request_id _ _ E). by constructor.
  - by constructor.
Qed.

Lemma known_requests_nodup p d : reg_inv d → NoDup (ir_id <$> known_requests p d).
Proof.
  intros Hi. eapply sublist_NoDup; [|apply omap_ids_sublist]. rewrite <- list_fmap_compose.
  rewrite order_by_perm. unfold select.
  eapply sublist_NoDup; [|apply fmap_sublist, sublist_filter].
  replace (ir_id ∘ request_of_row <$> (map_to_list (requests d)).*2)
    with ((map_to_list (requests d)).*1); [apply NoDup_fst_map_to_list|].
  rewrite <- list_fmap_compose. apply list_fmap_ext. intros i [k r] Hk. simpl. symmetry.
  apply (inv_request_key _ Hi), elem_of_map_to_list, (list_elem_of_lookup_2 _ i), Hk.
Qed.

(** What the service is told is queued already. *)
Definition queued_ids (s : SState) : gset N :=
  match (mq_unfinished (ss_queue s)).1 with
  | Some msgs => list_to_set (omap reassessed_request msgs)
  | None => ∅
  end.

Lemma wp_already_queued (Q : gset N → SState → Prop) s :
  (∀ s', only_queued [] s s' → Q (queued_ids s) s') → wp already_queued Q s.
Proof.
  intros HQ. unfold already_queued, queued_reassessments, queued_ids in *. unfold wp. simpl.
  unfold mbind, S_bind, unfinished_messages in *.
  destruct (mq_unfinished (ss_queue s)) as [[msgs|] q]; simpl; apply HQ; split; try done;
    by rewrite app_nil_r.
Qed.

Context (config : ReassignmentConfig) (conf : OfferConfig).
Context (get_network_by_caip2_id : string → option string) (additional_networks : gmap Z string).
Context (looked_at stored_at : Z → Z).

Definition open_aged (now : Z) (r : RequestRow) : bool :=
  bool_decide (rq_status r = Open) && (rq_created_at r <? now - seconds (min_age_seconds config)).

Definition full_list (skip : gset N) (s : SState) : list IndexingRequest :=
  filter (λ r, ir_id r ∉ skip) (known_requests (open_aged (snow s)) (sdb s)).

Lemma wp_full_pass skip stop s :
  alone s →
  wp (full_pass config skip stop) (λ ended s', ∃ l done,
    (l = full_list skip s ∨ l = [] ∧ ¬ fine s) ∧ only_queued (tried done) s s' ∧
    queue_run stop 0 0 ∅ l done ended) s.
Proof.
  intros Ha. apply wp_bind, wp_pg_alone; [done|]. eapply wp_query; [reflexivity|..].
  - intros s1 As D1 F1. eapply wp_mono; [apply (wp_queue_each _ _ _ 0%nat); lia|].
    intros ended s2 (done & Hq & Hr). exists (full_list skip s), done. split; [by left|].
    split; [|done]. apply (only_queued_trans [] _ s s1); [|done].
    by apply consulted_only_queued, query_consulted.
  - intros s1 As D1 F1. apply wp_ret. exists [], []. split; [by right|]. split.
    + by apply consulted_only_queued, query_consulted.
    + by apply queue_run_nil; [lia|].
Qed.

(** ** The pools *)

(** What IISA was asked and answered. *)
Inductive iisa_asked : I → list (string * option DipsAcceptingSnapshot) → I → Prop :=
| iisa_quiet i : iisa_asked i [] i
| iisa_answer i chain ceilings r i1 answers i2 :
    dips_accepting_indexers chain ceilings i = (r, i1) → iisa_asked i1 answers i2 →
    iisa_asked i ((chain, match r with Ok x => Some x | Err _ => None end) :: answers) i2.

Lemma iisa_asked_app i l1 i1 l2 i2 :
  iisa_asked i l1 i1 → iisa_asked i1 l2 i2 → iisa_asked i (l1 ++ l2) i2.
Proof. induction 1; [done|]. intros. simpl. econstructor; eauto. Qed.

(** Only IISA was asked, and its answers cached. *)
Record pools_read (answers : list (string * option DipsAcceptingSnapshot)) (m m' : Memory)
    : Prop := {
  pr_asked : iisa_asked (me_iisa m) answers (me_iisa m');
  pr_locked : me_locked m' = me_locked m;
  pr_breaker : me_breaker m' = me_breaker m;
  pr_events : me_events m' = me_events m;
  pr_notified : me_notified m' = me_notified m;
  pr_cache : ∀ chain e, me_cache m' !! chain = Some e →
    me_cache m !! chain = Some e ∨ (chain, Some e.2) ∈ answers }.

Lemma pools_read_refl m : pools_read [] m m.
Proof. split; try done; [constructor|auto]. Qed.

Lemma pools_read_trans a1 a2 m1 m2 m3 :
  pools_read a1 m1 m2 → pools_read a2 m2 m3 → pools_read (a1 ++ a2) m1 m3.
Proof.
  intros [H1 ? ? ? ? K1] [H2 ? ? ? ? K2]. split; try congruence; [by eapply iisa_asked_app|].
  intros chain e [He|He]%K2; [apply K1 in He as [?|?]; [by left|]|]; right; apply elem_of_app; auto.
Qed.

(** The snapshot is IISA's answer for the chain, or one cached for it that is
    still within the cache's time to live. *)
Definition vouched (m : Memory) (answers : list (string * option DipsAcceptingSnapshot))
    (chain_id : Z) (chain : string) (dips : DipsAcceptingSnapshot) : Prop :=
  (chain, Some dips) ∈ answers ∨
  ∃ t, me_cache m !! chain = Some (t, dips) ∧
    looked_at chain_id - t < oc_dips_accepting_cache_ttl conf.

(** The answer of a query that doesn't fail. *)
Definition answer {A} (default : A) (q : DbM A) (d : Db) : A :=
  match (q d).1 with Ok x => x | Err _ => default end.

(** What the pass knows of a chain. *)
Definition pool_known (m : Memory) (answers : list (string * option DipsAcceptingSnapshot))
    (s : SState) (chain_id : Z) (o : option ChainPool) : Prop :=
  match resolve_chain_name get_network_by_caip2_id additional_networks chain_id, o with
  | None, None => True
  | None, Some _ => False
  | Some chain, None => (chain, None) ∈ answers
  | Some chain, Some pool =>
      vouched m answers chain_id chain (cp_dips pool) ∧
      cp_unresponsive pool = answer [] (get_unresponsive_indexers (snow s)
        (oc_unresponsive_indexer_lookback_days conf) chain_id) (sdb s)
  end.

Lemma pool_known_more m a1 a2 s chain_id o :
  pool_known m a1 s chain_id o → pool_known m (a1 ++ a2) s chain_id o.
Proof.
  unfold pool_known, vouched. case_match; [|done]. case_match; rewrite ?elem_of_app; [|by left].
  intros [[?|?] ?]; eauto.
Qed.

(** Later, with more in the cache. *)
Lemma pool_known_later m1 m a1 a2 s s1 chain_id o :
  pools_read a1 m m1 → consulted [] s s1 → pool_known m1 a2 s1 chain_id o →
  pool_known m (a1 ++ a2) s chain_id o.
Proof.
  intros Hp Hc. unfold pool_known, vouched. case_match; [|done].
  rewrite (cs_db _ _ _ Hc), (cs_now _ _ _ Hc).
  case_match; rewrite ?elem_of_app; [|by right]. intros [[?|(t & Ht & Hf)] ->]; [by eauto|].
  split; [|done]. apply (pr_cache _ _ _ Hp) in Ht as [Ht|Ht]; [by eauto|]. left. by left.
Qed.

Lemma cached_fresh ttl at_ chain cache x :
  cached ttl at_ chain cache = Some x → ∃ t, cache !! chain = Some (t, x) ∧ at_ - t < ttl.
Proof.
  unfold cached. destruct (cache !! chain) as [[t y]|]; [|done]. simpl.
  destruct (Z.ltb_spec (at_ - t) ttl); [|done]. intros [= ->]. eauto.
Qed.

Lemma get_or_fetch_read m chain_id chain ceilings dips cache iisa :
  get_or_fetch (oc_dips_accepting_cache_ttl conf) (looked_at chain_id) (stored_at chain_id) chain
    ceilings (me_cache m) (me_iisa m) = (dips, cache, iisa) →
  ∃ answers, pools_read answers m (mkMemory iisa (me_locked m) (me_breaker m) cache (me_events m)
                                     (me_notified m) (me_asked m) (me_locks m)) ∧
    match dips with
    | Some x => vouched m answers chain_id chain x
    | None => (chain, None) ∈ answers
    end.
Proof.
  unfold get_or_fetch, vouched. intros E.
  destruct (cached _ _ _ _) as [x|] eqn:Hc.
  { injection E as <- <- <-. apply cached_fresh in Hc as (t & Ht & Hf). exists [].
    split; [by split; eauto; constructor|eauto]. }
  destruct (dips_accepting_indexers chain ceilings (me_iisa m)) as [[y|e] i'] eqn:Ha;
    injection E as <- <- <-; eexists;
    (split; [split; [eapply iisa_answer; [exact Ha|constructor]|done..|]|]); simpl.
  - intros c e' [[<- <-]|[_ He]]%lookup_insert_Some; [right; simpl; left|by left].
  - left. left.
  - by left.
  - left.
Qed.

Lemma pwp_try_db {A B} (f : Services.S C W (result Error A)) (k : A → Task (result Error B)) Q m s :
  wp f (λ r s', match r with
                | Ok a => pwp (k a) Q m s'
                | Err e => Q (Some (Err e)) m s'
                end) s →
  pwp (try_db f k) Q m s.
Proof.
  intros H. apply pwp_bind, pwp_lift. eapply wp_mono; [exact H|]. by intros [a|e] s'.
Qed.

(** A read of the pass: its answer, or a lost connection. *)
Lemma pwp_query {A B} (q : Z → DbM A) (x : A) (k : A → Task (result Error B)) Q m s :
  alone s → q (snow s) (sdb s) = (Ok x, sdb s) →
  (∀ s', consulted [] s s' → pwp (k x) Q m s') →
  (∀ e s', consulted [] s s' → ¬ fine s → Q (Some (Err e)) m s') →
  pwp (try_db (pg q) k) Q m s.
Proof.
  intros Ha Hq Hok Herr. apply pwp_try_db, wp_pg_alone; [done|]. apply (wp_query _ x); [done|..].
  - intros s' As D F. by apply Hok, query_consulted.
  - intros s' As D F. apply Herr; [by apply query_consulted|done].
Qed.

Lemma consulted_alone calls (s s' : SState) : consulted calls s s' → alone s → alone s'.
Proof. intros [] Ha. unfold alone. congruence. Qed.

Lemma consulted_refl (s : SState) : consulted [] s s.
Proof. split; try done. by rewrite app_nil_r. Qed.

Notation chain_pool := (chain_pool conf get_network_by_caip2_id additional_networks looked_at
  stored_at).

Lemma wp_chain_pool chain_id Q m s :
  alone s →
  (∀ r m1 s1 answers, pools_read answers m m1 → consulted [] s s1 →
    match r with Ok o => pool_known m answers s chain_id o | Err _ => ¬ fine s end →
    Q (Some r) m1 s1) →
  pwp (chain_pool chain_id) Q m s.
Proof.
  intros Ha HQ. unfold chain_pool, pool_known in *.
  destruct (resolve_chain_name _ _ _) as [chain|].
  2:{ apply pwp_ret, (HQ _ _ _ []); [apply pools_read_refl|apply consulted_refl|done]. }
  unfold pwp. cbv beta zeta.
  destruct (get_or_fetch _ _ _ _ _ _ _) as [[dips cache] iisa] eqn:E.
  destruct (get_or_fetch_read _ _ _ _ _ _ _ E) as (answers & Hp & Hd). destruct dips as [dips|].
  2:{ apply wp_ret. by apply (HQ _ _ _ answers); [|apply consulted_refl|]. }
  eapply (pwp_query _ _ _ Q); [done|reflexivity|..].
  - intros s1 C1. apply pwp_ret. by apply (HQ _ _ _ answers).
  - intros e s1 C1 F. by apply (HQ _ _ _ answers).
Qed.

(** ** The short requests a free indexer could fill *)

Definition pools_known (m : Memory) (answers : list (string * option DipsAcceptingSnapshot))
    (s : SState) (pools : gmap Z (option ChainPool)) : Prop :=
  ∀ chain_id o, pools !! chain_id = Some o → pool_known m answers s chain_id o.

Lemma wp_chain_entry chains chain_id Q m0 a0 s0 m s :
  alone s → consulted [] s0 s → pools_read a0 m0 m → pools_known m0 a0 s0 chains →
  (∀ r m1 s1 answers, pools_read answers m0 m1 → consulted [] s0 s1 →
    match r with
    | Ok (o, chains') => chains' !! chain_id = Some o ∧ chains ⊆ chains' ∧
        pools_known m0 answers s0 chains'
    | Err _ => ¬ fine s0
    end → Q (Some r) m1 s1) →
  pwp (chain_entry conf get_network_by_caip2_id additional_networks looked_at stored_at
         chains chain_id) Q m s.
Proof.
  intros Ha C0 P0 K0 HQ. unfold chain_entry. destruct (chains !! chain_id) as [o|] eqn:Hc.
  { apply pwp_ret. by eapply HQ. }
  apply pwp_bind, wp_chain_pool; [done|]. intros r m1 s1 answers P1 C1 Hr. apply pwp_ret.
  assert (C01 : consulted [] s0 s1) by by eapply (consulted_trans [] []).
  eapply (HQ _ _ _ (a0 ++ answers)); [by eapply pools_read_trans|done|]. destruct r as [o|e].
  - split; [by rewrite lookup_insert_eq|]. split; [by apply insert_subseteq|].
    intros cid o' [[<- <-]|[_ H]]%lookup_insert_Some.
    + eapply pool_known_later; [exact P0|exact C0|exact Hr].
    + apply pool_known_more. by apply K0.
  - intros F. by apply Hr, (cs_fine _ _ _ C0).
Qed.

(** The agreements on the request's deployment, and the indexers that hold one
    of its slots. *)
Definition agreements_on (s : SState) (q : IndexingRequest) : list IndexingAgreement :=
  answer [] (provider_agreements (get_indexing_agreements_by_deployment_id (ir_deployment_id q)))
    (sdb s).
Definition held_by (s : SState) (q : IndexingRequest) : list N :=
  answer [] (get_abandoned_indexers_holding_slots (ir_id q)) (sdb s).

(** Whether a free indexer could fill the request, by the pools read and the
    registry. *)
Definition free_for (s : SState) (declined : gmap N (list N)) (denylist : list N)
    (pools : gmap Z (option ChainPool)) (q : IndexingRequest) : bool :=
  match pools !! ir_deployment_chain_id q with
  | Some (Some pool) => can_be_filled declined denylist pool q (agreements_on s q) (held_by s q)
  | _ => false
  end.

Lemma free_for_sub s declined denylist pools pools' q :
  pools ⊆ pools' → is_Some (pools !! ir_deployment_chain_id q) →
  free_for s declined denylist pools' q = free_for s declined denylist pools q.
Proof.
  intros Hs [o Ho]. unfold free_for. by rewrite Ho, (lookup_weaken _ _ _ _ Ho Hs).
Qed.

(** The requests of [short] a top-up finds, on top of [found]. *)
Record fillable_found (s : SState) (declined : gmap N (list N)) (denylist : list N)
    (pools : gmap Z (option ChainPool)) (found short l : list IndexingRequest) : Prop := {
  ff_list : l = limit_if_pos (rc_batch_size config)
    (found ++ filter (λ q, free_for s declined denylist pools q = true) short);
  ff_all : 0 < rc_batch_size config ∧ Z.of_nat (length l) = rc_batch_size config ∨
    ∀ q, q ∈ short → is_Some (pools !! ir_deployment_chain_id q) }.

(** There is room for more. *)
Definition batch_open (found : list IndexingRequest) : Prop :=
  0 < rc_batch_size config → Z.of_nat (length found) < rc_batch_size config.

Lemma batch_full_open found q :
  batch_open found → batch_full config (found ++ [q]) = false → batch_open (found ++ [q]).
Proof.
  unfold batch_open, batch_full. intros Ho Hb Hp. specialize (Ho Hp). rewrite length_app in *.
  simpl in *. destruct (Z.ltb_spec (rc_batch_size config) 0); [lia|]. apply Z.eqb_neq in Hb. lia.
Qed.

Lemma batch_full_stops s declined denylist pools found q rest :
  batch_open found → batch_full config (found ++ [q]) = true →
  free_for s declined denylist pools q = true →
  fillable_found s declined denylist pools found (q :: rest) (found ++ [q]).
Proof.
  unfold batch_open, batch_full. intros Ho Hb Hq.
  destruct (Z.ltb_spec (rc_batch_size config) 0); [done|]. apply Z.eqb_eq in Hb.
  assert (Hl : Z.of_nat (length (found ++ [q])) = Z.of_nat (length found) + 1)
    by (rewrite length_app; simpl; lia).
  assert (Hp : 0 < rc_batch_size config) by lia. split; [|by left].
  unfold limit_if_pos. destruct (Z.ltb_spec 0 (rc_batch_size config)); [|lia].
  rewrite filter_cons_True by done. set (l := filter _ rest).
  assert (E : found ++ q :: l = (found ++ [q]) ++ l) by (by rewrite <- app_assoc).
  rewrite E, take_app_length'; [done|]. lia.
Qed.

Lemma fillable_found_none s declined denylist pools found :
  batch_open found → fillable_found s declined denylist pools found [] found.
Proof.
  unfold batch_open. intros Ho. split; [|right; intros q Hq; by apply not_elem_of_nil in Hq].
  rewrite app_nil_r. unfold limit_if_pos. destruct (Z.ltb_spec 0 (rc_batch_size config)); [|done].
  rewrite take_ge; [done|]. lia.
Qed.

Lemma fillable_found_cons s declined denylist pools found found' q rest l :
  is_Some (pools !! ir_deployment_chain_id q) →
  found' = (if free_for s declined denylist pools q then found ++ [q] else found) →
  fillable_found s declined denylist pools found' rest l →
  fillable_found s declined denylist pools found (q :: rest) l.
Proof.
  intros Hq -> [Hl Ha]. split.
  - rewrite filter_cons, Hl. destruct (free_for s declined denylist pools q) eqn:E.
    + rewrite decide_True by done. by rewrite <- app_assoc.
    + by rewrite decide_False.
  - destruct Ha as [?|Ha]; [by left|right]. intros q' [->|?]%elem_of_cons; auto.
Qed.

(** How the loop over [short] may end, started from [m0] and [s0]. *)
Definition fill_post (m0 : Memory) (s0 : SState) (declined : gmap N (list N)) (denylist : list N)
    (chains : gmap Z (option ChainPool)) (found short : list IndexingRequest)
    (r : option (result Error (list IndexingRequest))) (m1 : Memory) (s1 : SState) : Prop :=
  ∃ answers, pools_read answers m0 m1 ∧ consulted [] s0 s1 ∧
    match r with
    | Some (Ok l) => ∃ pools, chains ⊆ pools ∧ pools_known m0 answers s0 pools ∧
        fillable_found s0 declined denylist pools found short l
    | Some (Err _) => ¬ fine s0
    | None => False
    end.

Lemma fill_post_cons m0 s0 declined denylist chains chains1 o found found' q rest r m1 s1 :
  chains ⊆ chains1 → chains1 !! ir_deployment_chain_id q = Some o →
  found' = (if free_for s0 declined denylist chains1 q then found ++ [q] else found) →
  fill_post m0 s0 declined denylist chains1 found' rest r m1 s1 →
  fill_post m0 s0 declined denylist chains found (q :: rest) r m1 s1.
Proof.
  intros Hsub Hq Hf (answers & P3 & C3 & Hr). exists answers. split_and!; try done.
  destruct r as [[l|e]|]; try done. destruct Hr as (pools & Hs & K & Hl). exists pools.
  split_and!; [by etrans|done|]. eapply fillable_found_cons; [..|exact Hl].
  - exists o. by eapply lookup_weaken.
  - by rewrite (free_for_sub _ _ _ chains1 pools).
Qed.

Lemma wp_fillable_of declined denylist chains found short m0 a0 s0 m s :
  alone s0 → consulted [] s0 s → pools_read a0 m0 m → pools_known m0 a0 s0 chains →
  batch_open found →
  pwp (fillable_of config conf get_network_by_caip2_id additional_networks looked_at stored_at
         declined denylist chains found short)
    (fill_post m0 s0 declined denylist chains found short) m s.
Proof.
  intros Ha. revert chains found a0 m s.
  induction short as [|q rest IH]; intros chains found a0 m s C0 P0 K0 Ho; simpl.
  { apply pwp_ret. exists a0. split_and!; try done. exists chains. split_and!; try done.
    by apply fillable_found_none. }
  apply pwp_bind. eapply wp_chain_entry; [by eapply consulted_alone|done..|].
  intros r m1 s1 a1 P1 C1 Hr. destruct r as [[o chains1]|e]; [|apply pwp_ret; by exists a1].
  destruct Hr as (Hq & Hsub & K1).
  assert (Hrest : ∀ found' s2, consulted [] s0 s2 → batch_open found' →
    found' = (if free_for s0 declined denylist chains1 q then found ++ [q] else found) →
    pwp (fillable_of config conf get_network_by_caip2_id additional_networks looked_at stored_at
           declined denylist chains1 found' rest)
      (fill_post m0 s0 declined denylist chains found (q :: rest)) m1 s2).
  { intros found' s2 C2 Ho' Hf. eapply pwp_mono; [by eapply IH|].
    intros r m2 s3. by eapply fill_post_cons. }
  assert (Hlost : ∀ e s2 s3, consulted [] s0 s2 → consulted [] s2 s3 → ¬ fine s2 →
    fill_post m0 s0 declined denylist chains found (q :: rest) (Some (Err e)) m1 s3).
  { intros e s2 s3 C2 C3 F. exists a1. split_and!; [done|by eapply (consulted_trans [] [])|].
    intros F0. by apply F, (cs_fine _ _ _ C2). }
  unfold free_for in Hrest. rewrite Hq in Hrest.
  destruct o as [pool|]; [|by apply Hrest].
  eapply pwp_query; [by eapply consulted_alone|reflexivity| |by eauto].
  intros s2 C2. assert (C02 : consulted [] s0 s2) by by eapply (consulted_trans [] []).
  eapply pwp_query; [by eapply consulted_alone|reflexivity| |by eauto].
  intros s3 C3. assert (C03 : consulted [] s0 s3) by by eapply (consulted_trans [] []).
  rewrite (cs_db _ _ _ C1), (cs_db _ _ _ C02).
  fold (agreements_on s0 q) (held_by s0 q). set (b := can_be_filled _ _ _ _ _ _) in *.
  destruct b eqn:Hb; [|by apply Hrest].
  destruct (batch_full config (found ++ [q])) eqn:Hfull.
  - apply pwp_ret. exists a1. split_and!; try done. exists chains1. split_and!; try done.
    apply batch_full_stops; try done. unfold free_for. by rewrite Hq.
  - apply Hrest; [done|by apply batch_full_open|done].
Qed.

Definition open_short (r : RequestRow) : bool :=
  bool_decide (rq_status r = Open) && rq_shortfall_active r.

Definition short_list (skip : gset N) (s : SState) : list IndexingRequest :=
  filter (λ r, ir_id r ∉ skip) (known_requests open_short (sdb s)).

(** What the registry answers. *)
Definition declined_now (s : SState) : gmap N (list N) :=
  answer ∅ (get_declined_indexers_by_deployment (snow s) (oc_lookbacks conf)) (sdb s).
Definition denied_now (s : SState) : list N := answer [] (get_indexer_denylist (snow s)) (sdb s).

Lemma batch_open_nil : batch_open [].
Proof. unfold batch_open. simpl. lia. Qed.

Notation short_requests := (short_requests_with_a_free_indexer config conf get_network_by_caip2_id
  additional_networks looked_at stored_at).

Lemma wp_short_requests skip m s :
  alone s →
  pwp (short_requests skip)
    (fill_post m s (declined_now s) (denied_now s) ∅ [] (short_list skip s)) m s.
Proof.
  intros Ha. unfold short_requests_with_a_free_indexer.
  assert (Hlost : ∀ e s2 s3 l, consulted [] s s2 → consulted [] s2 s3 → ¬ fine s2 →
    fill_post m s (declined_now s) (denied_now s) ∅ [] l (Some (Err e)) m s3).
  { intros e s2 s3 l C2 C3 F. exists []. split_and!; [apply pools_read_refl|
      by eapply (consulted_trans [] [])|]. intros F0. by apply F, (cs_fine _ _ _ C2). }
  apply (pwp_query _ (known_requests open_short (sdb s))); [done|reflexivity| |].
  2:{ intros e s1 C1 F. by eapply Hlost; [apply consulted_refl|..]. }
  intros s1 C1. fold (short_list skip s).
  destruct (short_list skip s) as [|q rest].
  { apply pwp_ret. exists []. split_and!; [apply pools_read_refl|done|]. exists ∅.
    split_and!; [done|by intros ? ?|apply fillable_found_none, batch_open_nil]. }
  eapply pwp_query; [by eapply consulted_alone|reflexivity| |by eauto].
  intros s2 C2. assert (C02 : consulted [] s s2) by by eapply (consulted_trans [] []).
  eapply pwp_query; [by eapply consulted_alone|reflexivity| |by eauto].
  intros s3 C3. assert (C03 : consulted [] s s3) by by eapply (consulted_trans [] []).
  rewrite (cs_db _ _ _ C1), (cs_db _ _ _ C02), (cs_now _ _ _ C1), (cs_now _ _ _ C02).
  apply (wp_fillable_of _ _ _ _ _ _ []); try done; [apply pools_read_refl|apply batch_open_nil].
Qed.

(** How a top-up may end: what IISA answered, what it tried, and the requests it
    tried them from. *)
Definition top_up_post (skip : gset N) (stop : nat → bool) (m : Memory) (s : SState)
    (ended : option Pass) (m' : Memory) (s' : SState) : Prop :=
  ∃ p answers done l, ended = Some p ∧ pools_read answers m m' ∧ only_queued (tried done) s s' ∧
    queue_run stop 0 0 ∅ l done p ∧
    (l = [] ∧ ¬ fine s ∨ ∃ pools, pools_known m answers s pools ∧
      fillable_found s (declined_now s) (denied_now s) pools [] (short_list skip s) l).

Lemma wp_top_up_pass skip stop m s :
  alone s →
  pwp (top_up_pass config conf get_network_by_caip2_id additional_networks looked_at stored_at
         skip stop) (top_up_post skip stop m s) m s.
Proof.
  intros Ha. apply pwp_bind. eapply pwp_mono; [by apply wp_short_requests|].
  intros r m1 s1 (answers & P1 & C1 & Hr). destruct r as [[l|e]|]; [| |done].
  - destruct Hr as (pools & _ & K & Hf). apply pwp_lift.
    eapply wp_mono; [apply (wp_queue_each _ _ _ 0%nat); lia|].
    intros ended s2 (done & Hq & Hrun). exists ended, answers, done, l.
    split_and!; try done; [|right; by exists pools].
    by apply (only_queued_trans [] _ s s1); [apply consulted_only_queued|].
  - apply pwp_ret. exists (Done ∅), answers, [], []. split_and!; try done; [..|by left].
    + by apply consulted_only_queued.
    + by apply queue_run_nil; [lia|].
Qed.

(** ** The passes together *)

Lemma queue_run_from stop i failed queued l done ended :
  queue_run stop i failed queued l done ended → NoDup (ir_id <$> l) →
  (∀ q ok, (q, ok) ∈ done → q ∈ l) ∧ NoDup (taken done).
Proof.
  intros [(rest & -> & _) _] Hnd. split.
  - intros q ok Hq. apply elem_of_app. left. by apply (list_elem_of_fmap_2 fst _ (q, ok)).
  - rewrite fmap_app in Hnd. apply NoDup_app in Hnd as [Hnd _].
    eapply sublist_NoDup; [exact Hnd|]. unfold taken. rewrite <- list_fmap_compose.
    apply fmap_sublist, sublist_filter.
Qed.

Lemma fillable_found_sublist s declined denylist pools short l :
  fillable_found s declined denylist pools [] short l → l `sublist_of` short.
Proof.
  intros [-> _]. simpl. unfold limit_if_pos. case_match; [|apply sublist_filter].
  etrans; [apply sublist_take|apply sublist_filter].
Qed.

(** What the full pass and the top-up tried, and where from. *)
Definition due_post (full top : bool) (stop_full : nat → bool) (s : SState)
    (ended : option Pass) (s' : SState) : Prop :=
  ∃ p e1 done1 done2, ended = Some p ∧ only_queued (tried (done1 ++ done2)) s s' ∧
    (if full then ∃ l, (l = full_list (queued_ids s) s ∨ l = [] ∧ ¬ fine s) ∧
                       queue_run stop_full 0 0 ∅ l done1 e1
     else done1 = [] ∧ e1 = Done ∅) ∧
    match e1 with
    | Stopped => p = Stopped ∧ done2 = []
    | Done ids =>
        done2 = [] ∨ top = true ∧ ∃ stop l p2, queue_run stop 0 0 ∅ l done2 p2 ∧
          l `sublist_of` short_list (queued_ids s ∪ ids) s
    end.

Notation run_due_passes := (run_due_passes config conf get_network_by_caip2_id additional_networks
  looked_at stored_at).

Lemma wp_run_due_passes full top stop_full stop_top m s :
  alone s →
  pwp (run_due_passes full top stop_full stop_top)
    (λ ended m' s', due_post full top stop_full s ended s') m s.
Proof.
  intros Ha. unfold Reassignment.run_due_passes.
  destruct (negb full && negb top) eqn:Hdue.
  { apply andb_true_iff in Hdue as [->%negb_true_iff ->%negb_true_iff]. apply pwp_ret.
    exists (Done ∅), (Done ∅), [], []. split_and!; try done; [|by left].
    apply consulted_only_queued, consulted_refl. }
  apply pwp_bind, pwp_lift, wp_already_queued. intros s1 Q1.
  assert (Ha1 : alone s1) by by eapply only_queued_alone.
  assert (Hfull : pwp (if full then lift (full_pass config (queued_ids s) stop_full)
                       else mret (Done ∅) : Task Pass) (λ e1 m2 s2, m2 = m ∧ ∃ e done1, e1 = Some e ∧
      only_queued (tried done1) s s2 ∧
      (if full then ∃ l, (l = full_list (queued_ids s) s ∨ l = [] ∧ ¬ fine s) ∧
                         queue_run stop_full 0 0 ∅ l done1 e
       else done1 = [] ∧ e = Done ∅)) m s1).
  { destruct full; [|apply pwp_ret; split; [done|by exists (Done ∅), []]].
    apply pwp_lift. eapply wp_mono; [by apply wp_full_pass|].
    intros e s2 (l & done1 & Hl & Q2 & Hr). split; [done|]. exists e, done1. split_and!; [done|..].
    - by apply (only_queued_trans [] _ s s1).
    - exists l. split; [|done]. unfold full_list in *.
      rewrite (oq_db _ _ _ Q1), (oq_now _ _ _ Q1) in Hl. destruct Hl as [?|[? F]]; [by left|right].
      split; [done|]. intros F0. by apply F, (oq_fine _ _ _ Q1). }
  apply pwp_bind. eapply pwp_mono; [exact Hfull|].
  intros e1 m2 s2 (-> & e & done1 & -> & Q2 & Hd1).
  destruct e as [ids|].
  2:{ apply pwp_ret. exists Stopped, Stopped, done1, []. rewrite app_nil_r. done. }
  apply pwp_bind. destruct top.
  2:{ apply pwp_ret, pwp_ret. exists (Done (queued_ids s ∪ ids)), (Done ids), done1, [].
      rewrite app_nil_r. split_and!; try done. by left. }
  eapply pwp_mono; [apply wp_top_up_pass; by eapply only_queued_alone|].
  intros e2 m3 s3 (p & answers & done2 & l & -> & _ & Q3 & Hr & Hl). apply pwp_ret.
  eexists _, (Done ids), done1, done2. split; [done|]. split_and!; [|done|].
  { unfold tried. rewrite fmap_app. by apply (only_queued_trans _ _ s s2). }
  right. split; [done|]. exists stop_top, l, p. split; [done|].
  destruct Hl as [[-> _]|(pools & _ & Hf)]; [apply sublist_nil_l|].
  apply fillable_found_sublist in Hf. unfold short_list in *. by rewrite (oq_db _ _ _ Q2) in Hf.
Qed.

(** The request a pass pushed is one of the registry's. *)
Definition of_open_row (s : SState) (full top : bool) (q : IndexingRequest) : Prop :=
  ∃ row, requests (sdb s) !! ir_id q = Some row ∧ provider_request (request_of_row row) = Some q ∧
    rq_status row = Open ∧
    (full = true ∧ rq_created_at row < snow s - seconds (min_age_seconds config) ∨
     top = true ∧ rq_shortfall_active row = true).

Lemma elem_of_full_list s skip q :
  reg_inv (sdb s) → q ∈ full_list skip s → ir_id q ∉ skip ∧ of_open_row s true false q.
Proof.
  intros Hi [Hs Hq]%list_elem_of_filter. split; [done|].
  apply elem_of_known_requests in Hq as (row & Hrow & Hp & Hr); [|done]. exists row.
  unfold open_aged in Hp. apply andb_true_iff in Hp as [Hp1%bool_decide_eq_true Hp2%Z.ltb_lt].
  split_and!; [done..|by left].
Qed.

Lemma elem_of_short_list s skip q :
  reg_inv (sdb s) → q ∈ short_list skip s → ir_id q ∉ skip ∧ of_open_row s false true q.
Proof.
  intros Hi [Hs Hq]%list_elem_of_filter. split; [done|].
  apply elem_of_known_requests in Hq as (row & Hrow & Hp & Hr); [|done]. exists row.
  unfold open_short in Hp. apply andb_true_iff in Hp as [Hp1%bool_decide_eq_true Hp2].
  split_and!; [done..|by right].
Qed.

Lemma known_filter_nodup p (skip : gset N) (s : SState) :
  reg_inv (sdb s) → NoDup (ir_id <$> filter (λ r, ir_id r ∉ skip) (known_requests p (sdb s))).
Proof.
  intros Hi. eapply sublist_NoDup; [by apply known_requests_nodup|].
  apply fmap_sublist, sublist_filter.
Qed.

Lemma of_open_row_weaken s full top full' top' q :
  (full = true → full' = true) → (top = true → top' = true) →
  of_open_row s full top q → of_open_row s full' top' q.
Proof.
  intros Hf Ht (row & ? & ? & ? & [[? ?]|[? ?]]); exists row; split_and!; auto.
Qed.

(** What the full pass tried. *)
Lemma full_part full top stop l (s : SState) done1 e1 :
  reg_inv (sdb s) → full = true → l = full_list (queued_ids s) s ∨ l = [] ∧ ¬ fine s →
  queue_run stop 0 0 ∅ l done1 e1 →
  (∀ q ok, (q, ok) ∈ done1 → ir_id q ∉ queued_ids s ∧ of_open_row s full top q) ∧
  NoDup (taken done1) ∧ ∀ ids, e1 = Done ids → ids = list_to_set (taken done1).
Proof.
  intros Hi Hf Hl Hr. destruct (queue_run_from _ _ _ _ _ _ _ Hr) as [Hin Hnd].
  { destruct Hl as [-> |[-> _]]; [by apply known_filter_nodup|constructor]. }
  split_and!; [|done|].
  - intros q ok Hq. apply Hin in Hq. destruct Hl as [-> |[-> _]]; [|by apply not_elem_of_nil in Hq].
    apply elem_of_full_list in Hq as [? Hq]; [|done]. split; [done|].
    by eapply of_open_row_weaken; [..|exact Hq].
  - intros ids ->. destruct Hr as [(rest & _ & -> & _) _]. apply (left_id_L ∅ (∪)).
Qed.

(** What the top-up tried after it. *)
Lemma top_up_part full top stop l (s : SState) done1 ids done2 p2 :
  reg_inv (sdb s) → top = true → ids = list_to_set (taken done1) →
  queue_run stop 0 0 ∅ l done2 p2 → l `sublist_of` short_list (queued_ids s ∪ ids) s →
  (∀ q ok, (q, ok) ∈ done2 → ir_id q ∉ queued_ids s ∧ of_open_row s full top q ∧
    ir_id q ∉ taken done1) ∧ NoDup (taken done2).
Proof.
  intros Hi Ht -> Hr Hsub. destruct (queue_run_from _ _ _ _ _ _ _ Hr) as [Hin Hnd].
  { eapply sublist_NoDup; [by eapply (known_filter_nodup open_short)|]. by apply fmap_sublist. }
  split; [|done]. intros q ok Hq. apply Hin in Hq.
  pose proof (elem_of_sublist _ _ _ Hq Hsub) as Hs.
  apply elem_of_short_list in Hs as [Hs Ho]; [|done].
  rewrite not_elem_of_union, not_elem_of_list_to_set in Hs. destruct Hs as [Hq1 Hq2].
  split_and!; [done| |done]. by eapply of_open_row_weaken; [..|exact Ho].
Qed.

(** The queue never refused three pushes in a row. *)
Definition queue_kept_up (news : list (IndexingRequest * bool)) : Prop :=
  ∀ a b, news.*2 ≠ a ++ three_failures ++ b.

Lemma full_complete stop (s : SState) done1 ids done2 k row q :
  queue_run stop 0 0 ∅ (full_list (queued_ids s) s) done1 (Done ids) →
  queue_kept_up (done1 ++ done2) →
  requests (sdb s) !! k = Some row → open_aged (snow s) row = true →
  provider_request (request_of_row row) = Some q → ir_id q ∉ queued_ids s →
  ∃ ok, (q, ok) ∈ done1 ++ done2.
Proof.
  intros [(rest & Hl & _ & Hrest) _] Hk Hrow Hp Hq Hn.
  assert (rest = []) as ->.
  { destruct Hrest as [|(a & Hd)]; [done|]. destruct (Hk a done2.*2). simpl in Hd.
    by rewrite fmap_app, Hd, <- app_assoc. }
  assert (Hin : q ∈ full_list (queued_ids s) s).
  { apply list_elem_of_filter. split; [done|]. by eapply known_requests_elem. }
  rewrite Hl, app_nil_r in Hin. apply list_elem_of_fmap in Hin as ([q' ok] & -> & Hin).
  exists ok. apply elem_of_app. by left.
Qed.

(** The passes due, with connections lost, pushes refused and stop messages
    anywhere.  Every job they push is a [Sweep] reassessment of a request that
    the registry has open, with its own deployment, chain and target, old enough
    for the full pass or short for the top-up, and not among the jobs the queue
    reported unfinished; none is accepted by the queue twice; and nothing else
    of the service changes.  When the full pass is due, reads don't fail, the
    service isn't told to stop and the queue doesn't refuse three pushes in a
    row, every open request old enough that wasn't queued is pushed. *)
Theorem due_passes_queue_open_once full top stop_full stop_top m s r m' s' :
  alone s → reg_inv (sdb s) →
  run_due_passes full top stop_full stop_top m s = ((r, m'), s') →
  ∃ ended news, r = Some ended ∧ only_queued (tried news) s s' ∧
    (∀ q ok, (q, ok) ∈ news → ir_id q ∉ queued_ids s ∧ of_open_row s full top q) ∧
    NoDup (taken news) ∧
    (full = true → fine s → ended ≠ Stopped → queue_kept_up news →
     ∀ k row q, requests (sdb s) !! k = Some row → open_aged (snow s) row = true →
       provider_request (request_of_row row) = Some q → ir_id q ∉ queued_ids s →
       ∃ ok, (q, ok) ∈ news).
Proof.
  intros Ha Hi Hrun.
  destruct (pwp_run _ _ _ _ _ _ _ (wp_run_due_passes full top stop_full stop_top m s Ha) Hrun)
    as (p & e1 & done1 & done2 & -> & Q & H1 & H2).
  assert (F1 : (∀ q ok, (q, ok) ∈ done1 → ir_id q ∉ queued_ids s ∧ of_open_row s full top q) ∧
    NoDup (taken done1) ∧ ∀ ids, e1 = Done ids → ids = list_to_set (taken done1)).
  { destruct full; [destruct H1 as (l & Hl & Hr); by eapply full_part|destruct H1 as [-> ->]].
    split_and!; [by intros ?? ?%not_elem_of_nil|constructor|by intros ids [= <-]]. }
  destruct F1 as (F1 & N1 & Hids).
  assert (F2 : (∀ q ok, (q, ok) ∈ done2 → ir_id q ∉ queued_ids s ∧ of_open_row s full top q ∧
      ir_id q ∉ taken done1) ∧ NoDup (taken done2)).
  { assert (Hnil : done2 = [] ∨ ∃ ids stop l p2, top = true ∧ e1 = Done ids ∧
      queue_run stop 0 0 ∅ l done2 p2 ∧ l `sublist_of` short_list (queued_ids s ∪ ids) s).
    { destruct e1; [|left; apply H2]. destruct H2 as [|(? & ? & ? & ? & ? & ?)]; [by left|].
      right. by do 4 eexists. }
    destruct Hnil as [-> |(ids & stop & l & p2 & Ht & -> & Hr & Hsub)].
    - split; [by intros ?? ?%not_elem_of_nil|constructor].
    - by eapply top_up_part; [..|exact Hr|exact Hsub]; auto. }
  destruct F2 as [F2 N2]. exists p, (done1 ++ done2). split_and!; try done.
  - intros q ok [Hq|Hq]%elem_of_app; [by eapply F1|]. destruct (F2 q ok Hq) as (? & ? & _). done.
  - rewrite taken_app. apply NoDup_app. split_and!; try done. intros id Hid Hid2.
    apply elem_of_taken in Hid2 as (q & Hq & ->). by apply (F2 _ _ Hq).
  - intros -> Hf Hp Hk k row q Hrow Hage Hq Hn. destruct H1 as (l & [-> |[_ F]] & Hr); [|done].
    destruct e1 as [ids|]; [by eapply full_complete|]. by destruct H2.
Qed.

(** ** Free indexers *)

Lemma elem_of_push_missing xs l x : x ∈ push_missing xs l ↔ x ∈ xs ∨ x ∈ l.
Proof.
  unfold push_missing. revert l. induction xs as [|y xs IH]; intros l; simpl.
  { split; [by right|]. by intros [?%not_elem_of_nil|]. }
  rewrite IH, elem_of_cons. case_bool_decide.
  - split; [tauto|]. intros [[->|?]|?]; auto.
  - rewrite elem_of_app, list_elem_of_singleton. tauto.
Qed.

(** The indexers a reassessment tells IISA have declined the deployment, the
    cancelling and the unresponsive among them. *)
Definition declined_to_iisa (declined : gmap N (list N)) (dep : N)
    (agreements : list IndexingAgreement) (denylist unresponsive : list N) : list N :=
  push_missing (filter (λ id, id ∉ denylist) unresponsive)
    (default [] (exclude_cancelling_indexers declined dep agreements !! dep)).

Lemma elem_of_exclude_cancelling declined dep agreements id :
  id ∈ default [] (exclude_cancelling_indexers declined dep agreements !! dep) ↔
  id ∈ default [] (declined !! dep) ∨
  id ∈ indexer_of <$> filter (λ a, ia_status a = Cancelling) agreements.
Proof.
  unfold exclude_cancelling_indexers.
  destruct (indexer_of <$> filter (λ a, ia_status a = Cancelling) agreements) as [|x l] eqn:E.
  - split; [by left|]. by intros [|?%not_elem_of_nil].
  - rewrite lookup_insert_eq. cbn [from_option Datatypes.id]. rewrite elem_of_push_missing. tauto.
Qed.

(** An indexer is free exactly when a reassessment of the request would tell
    IISA of no reason against it. *)
Lemma elem_of_offerable pool dep agreements declined denylist unresponsive held id :
  id ∈ offerable_indexers pool dep agreements declined denylist unresponsive held ↔
  id ∈ pool ∧ id ∉ indexer_of <$> filter (λ a, is_active_agreement (ia_status a) = true) agreements ∧
  id ∉ declined_to_iisa declined dep agreements denylist unresponsive ∧ id ∉ denylist ∧ id ∉ held.
Proof.
  unfold offerable_indexers, declined_to_iisa. rewrite list_elem_of_filter.
  rewrite elem_of_push_missing, elem_of_exclude_cancelling, list_elem_of_filter.
  rewrite !not_elem_of_union, !not_elem_of_list_to_set, !not_elem_of_app.
  assert (Hor : id ∈ indexer_of <$> filter (λ a, is_active_agreement (ia_status a) = true
                    ∨ ia_status a = Cancelling) agreements ↔
    id ∈ indexer_of <$> filter (λ a, is_active_agreement (ia_status a) = true) agreements ∨
    id ∈ indexer_of <$> filter (λ a, ia_status a = Cancelling) agreements).
  { rewrite !list_elem_of_fmap. setoid_rewrite list_elem_of_filter. naive_solver. }
  rewrite Hor. destruct (decide (id ∈ denylist)); tauto.
Qed.

Lemma free_for_iff s declined denylist pools q :
  free_for s declined denylist pools q = true ↔
  ∃ pool id, pools !! ir_deployment_chain_id q = Some (Some pool) ∧
    holding (ir_id q) (agreements_on s q) + Z.of_nat (length (held_by s q)) < ir_num_candidates q ∧
    id ∈ ds_indexers (cp_dips pool) ∧
    id ∉ indexer_of <$> filter (λ a, is_active_agreement (ia_status a) = true) (agreements_on s q) ∧
    id ∉ declined_to_iisa declined (ir_deployment_id q) (agreements_on s q) denylist
           (cp_unresponsive pool) ∧
    id ∉ denylist ∧ id ∉ held_by s q.
Proof.
  unfold free_for, can_be_filled. split.
  - destruct (pools !! ir_deployment_chain_id q) as [[pool|]|] eqn:E; [|done..].
    case_match eqn:Hn; [done|]. apply Z.leb_gt in Hn.
    intros Hne%negb_true_iff%bool_decide_eq_false.
    destruct (offerable_indexers _ _ _ _ _ _ _) as [|id l] eqn:Ho; [done|]. exists pool, id.
    split; [done|]. split; [lia|]. apply elem_of_offerable. rewrite Ho. left.
  - intros (pool & id & -> & Hn & Hid). apply elem_of_offerable in Hid.
    destruct (Z.leb_spec (ir_num_candidates q)
      (holding (ir_id q) (agreements_on s q) + Z.of_nat (length (held_by s q)))); [lia|].
    apply negb_true_iff, bool_decide_eq_false. intros E. rewrite E in Hid.
    by apply not_elem_of_nil in Hid.
Qed.

(** C24: the top-up pass, with no other task writing to the database while it
    runs.  Unless a read fails, a stop comes or the queue refuses three pushes in
    a row, each of which ends it early, the requests it tries are, in order and up
    to the batch, exactly the short open requests outside [skip] that are below
    their target, counting held slots, and that have a free indexer: one in the
    DIPs pool of the request's chain against which a reassessment of the request
    would give IISA no reason (no active or cancelling agreement on the
    deployment, not declined there, not unresponsive, not denylisted) and that
    holds none of its slots.  Ended early by a stop or by three refusals it has
    tried the first of these, and nothing after the third refusal.  A chain's
    pool is IISA's answer or one cached within its time to live; a chain IISA does
    not answer for, or without a name, fills nothing.  A failed read queues
    nothing, and of the memory the jobs share only the cache changes. *)
Theorem top_up_queues_the_fillable skip stop m s r m' s' :
  alone s →
  top_up_pass config conf get_network_by_caip2_id additional_networks looked_at stored_at skip stop
    m s = ((r, m'), s') →
  top_up_post skip stop m s r m' s' ∧
  ∀ pools q, free_for s (declined_now s) (denied_now s) pools q = true ↔
    ∃ pool id, pools !! ir_deployment_chain_id q = Some (Some pool) ∧
      holding (ir_id q) (agreements_on s q) + Z.of_nat (length (held_by s q))
        < ir_num_candidates q ∧
      id ∈ ds_indexers (cp_dips pool) ∧
      id ∉ indexer_of <$> filter (λ a, is_active_agreement (ia_status a) = true)
             (agreements_on s q) ∧
      id ∉ declined_to_iisa (declined_now s) (ir_deployment_id q) (agreements_on s q)
             (denied_now s) (cp_unresponsive pool) ∧
      id ∉ denied_now s ∧ id ∉ held_by s q.
Proof.
  intros Ha Hrun. split; [|intros; apply free_for_iff].
  by apply (pwp_run _ _ _ _ _ _ _ (wp_top_up_pass skip stop m s Ha) Hrun).
Qed.

End passes.

(** ** Witnesses *)

(** A selection service with a fixed pool on every chain. *)
#[export] Instance FixedPool : CandidateSelection (list N) := {|
  select_indexers _ _ _ pool := (Err SelectionFailed, pool);
  dips_accepting_indexers _ _ pool := (Ok (mkSnapshot None pool), pool) |}.

Definition demo_pool (pool : list N) : Memory (list N) := mkMemory pool false ∅ ∅ [] false [] (mkLocks false false).

Definition demo_conf : OfferConfig :=
  mkOfferConfig (mkConfig 6 "0x0a") 8 9 f64_zero 3600 60 31536000 300 ∅ f64_zero f64_zero
    (mkLookbacks 30 7 60 1) 7 f64_zero f64_zero 48 (from_secs 300) (Some 5) (Some 10).

(** A request for two indexers with one agreement, left short. *)
Definition demo_short : Db :=
  run_ops [SetTarget 10 1 5 7 42161 2; Register 20 (demo_params 11 31); SetShortfall 1 true] empty_db.

Definition demo_min_age : ReassignmentConfig :=
  mkReassignmentConfig (from_secs 86400) 10 100 0 (from_secs 3600).

Definition demo_network (_ : string) : option string := Some "arbitrum-one"%string.

Lemma demo_short_inv : reg_inv (sdb (demo_run demo_short [] [])).
Proof. apply run_ops_inv. by repeat constructor. Defined.

(** The full pass queues the request, so the top-up leaves it. *)
Lemma due_passes_queue_open_once_witness :
  ∃ r m' s', run_due_passes demo_min_age demo_conf demo_network ∅ (λ _, 0) (λ _, 0) true true
      (λ _, false) (λ _, false) (demo_pool [31; 33]%N) (demo_run demo_short [] []) = ((r, m'), s') ∧
    ss_pushes s' = [(ReassessIndexingRequest 1 7 42161 2, Sweep, true)] ∧
    ∃ ended news, r = Some ended ∧ only_queued (tried news) (demo_run demo_short [] []) s'.
Proof.
  destruct (run_due_passes demo_min_age demo_conf demo_network ∅ (λ _, 0) (λ _, 0) true true
    (λ _, false) (λ _, false) (demo_pool [31; 33]%N) (demo_run demo_short [] []))
    as [[r m'] s'] eqn:E.
  exists r, m', s'. split; [reflexivity|]. split.
  { vm_compute in E. injection E as <- <- <-. reflexivity. }
  destruct (due_passes_queue_open_once demo_min_age demo_conf demo_network ∅ (λ _, 0) (λ _, 0)
    true true (λ _, false) (λ _, false) (demo_pool [31; 33]%N) (demo_run demo_short [] []) r m' s'
    eq_refl demo_short_inv E) as (ended & news & H1 & H2 & _).
  exists ended, news. exact (conj H1 H2).
Defined.

(** 31 has an agreement on the deployment and 33 is free. *)
Lemma top_up_queues_the_fillable_witness :
  ∃ r m' s', top_up_pass demo_min_age demo_conf demo_network ∅ (λ _, 0) (λ _, 0) ∅ (λ _, false)
      (demo_pool [31; 33]%N) (demo_run demo_short [] []) = ((r, m'), s') ∧
    ss_pushes s' = [(ReassessIndexingRequest 1 7 42161 2, Sweep, true)] ∧
    top_up_post demo_min_age demo_conf demo_network ∅ (λ _, 0) ∅ (λ _, false)
      (demo_pool [31; 33]%N) (demo_run demo_short [] []) r m' s'.
Proof.
  destruct (top_up_pass demo_min_age demo_conf demo_network ∅ (λ _, 0) (λ _, 0) ∅ (λ _, false)
    (demo_pool [31; 33]%N) (demo_run demo_short [] [])) as [[r m'] s'] eqn:E.
  exists r, m', s'. split; [reflexivity|]. split.
  { vm_compute in E. injection E as <- <- <-. reflexivity. }
  exact (proj1 (top_up_queues_the_fillable demo_min_age demo_conf demo_network ∅ (λ _, 0) (λ _, 0)
    ∅ (λ _, false) (demo_pool [31; 33]%N) (demo_run demo_short [] []) r m' s' eq_refl E)).
Defined.

End ReassignmentProps.
