(* ===== verification/DipsInfo.v ===== *)
(** * The DIPs info watcher
    (bin/dipper-service/src/network/service/dips_info_watcher.rs)

    A cycle asks every indexer that holds an accepted agreement, and every
    indexer still blocked, for its DIPs info, adds the time since the last
    recorded cycle to the ones that gave no readable answer, and blocks those
    past the limit.  When too many go missing at once the watcher suspects
    dipper and stops counting.  What a request returns, the JSON parser, the URL
    join and the order a hash set is iterated in are parameters; a text is a
    list of code points.  Durations and instants are in nanoseconds. *)

From S2P Require Import Prelude Schema Registry RegistryInv RegistryRuns RegistryOps RegistryQueries.
From S2P Require Import JobQueue Worker Rca CancelDispatch CancelDispatchProps.
From S2P Require Import ChainEvents ChainListener ChainReconcile Services Liveness Selection Reassess.
From Stdlib Require Import SpecFloat.
Import Schema Registry RegistryInv RegistryRuns RegistryOps RegistryQueries.
Import JobQueue Worker Rca CancelDispatch CancelDispatchProps ChainEvents ChainListener.
Import ChainReconcile Services Liveness Selection Reassess.
Local Open Scope Z_scope.

Module DipsInfo.

(** ** Configuration *)

Record DipsInfoWatcherConfig : Type := mkWatcherConfig {
  dw_enabled : bool;
  dw_interval : Z;
  dw_alert_after_hours : Z;
  dw_denylist_after_hours : Z;
  dw_request_timeout : Z;
  dw_max_concurrent_requests : Z;
  dw_unreachable_trip_fraction : f64;
  dw_unreachable_trip_min_indexers : Z }.

Definition is_nan (x : f64) : bool := match x with S754_nan => true | _ => false end.

(** [DipsInfoWatcherConfig::validate] *)
Definition validate_watcher (c : DipsInfoWatcherConfig) : bool :=
  if negb (dw_enabled c) then true
  else if (dw_interval c =? 0) || (from_secs (24 * 3600) <? dw_interval c) then false
  else if dw_request_timeout c =? 0 then false
  else if dw_alert_after_hours c =? 0 then false
  else if dw_denylist_after_hours c <=? dw_alert_after_hours c then false
  else if dw_max_concurrent_requests c =? 0 then false
  else negb (is_nan (dw_unreachable_trip_fraction c)
             || SFleb (dw_unreachable_trip_fraction c) f64_zero
             || SFltb (as_f64 1) (dw_unreachable_trip_fraction c)).

Definition alert_after (c : DipsInfoWatcherConfig) : Z := from_secs (dw_alert_after_hours c * 3600).
Definition denylist_after (c : DipsInfoWatcherConfig) : Z :=
  from_secs (dw_denylist_after_hours c * 3600).

(** ** A readable answer *)

(** JSON as the parser gives it; a number by its [as_f64], the keys of an object
    distinct. *)
Inductive Value : Type :=
| VNull
| VBool (b : bool)
| VNumber (number_as_f64 : option f64)
| VString (text : list Z)
| VArray (items : list Value)
| VObject (fields : list (string * Value)).

Definition as_object (v : Value) : option (list (string * Value)) :=
  match v with VObject fields => Some fields | _ => None end.

Fixpoint object_get (key : string) (fields : list (string * Value)) : option Value :=
  match fields with
  | [] => None
  | (k, v) :: rest => if bool_decide (k = key) then Some v else object_get key rest
  end.

(** [char::is_whitespace] *)
Definition is_whitespace (c : Z) : bool :=
  ((9 <=? c) && (c <=? 13)) || (c =? 32) || (c =? 133) || (c =? 160) || (c =? 5760)
  || ((8192 <=? c) && (c <=? 8202)) || (c =? 8232) || (c =? 8233) || (c =? 8239) || (c =? 8287)
  || (c =? 12288).

Fixpoint trim_start (text : list Z) : list Z :=
  match text with
  | c :: rest => if is_whitespace c then trim_start rest else text
  | [] => []
  end.
Definition trim (text : list Z) : list Z := rev (trim_start (rev (trim_start text))).

Definition is_digit (c : Z) : bool := (48 <=? c) && (c <=? 57).

(** The digits at the front of a text, appended to [m], how many there are, and
    what follows. *)
Fixpoint read_digits (m : Z) (n : Z) (text : list Z) : Z * Z * list Z :=
  match text with
  | c :: rest => if is_digit c then read_digits (10 * m + (c - 48)) (n + 1) rest else (m, n, text)
  | [] => (m, n, [])
  end.

(** [+] and [-] *)
Definition read_sign (text : list Z) : bool * list Z :=
  match text with
  | c :: rest => if c =? 45 then (true, rest) else if c =? 43 then (false, rest) else (false, text)
  | [] => (false, [])
  end.

(** The exponent, from [e] or [E] to the end; [None] if the text is malformed. *)
Definition read_exponent (text : list Z) : option Z :=
  match text with
  | [] => Some 0
  | c :: rest =>
      if (c =? 101) || (c =? 69) then
        let '(negative, rest) := read_sign rest in
        let '(e, n, rest) := read_digits 0 0 rest in
        if (n =? 0) || negb (bool_decide (rest = [])) then None
        else Some (if negative : bool then - e else e)
      else None
  end.

(** The nearest binary64 to [m * 10 ^ e]. *)
Definition decimal_f64 (negative : bool) (m e : Z) : f64 :=
  match m with
  | Z.pos p =>
      match e with
      | Z.neg k => SFdiv 53 1024 (S754_finite negative p 0) (S754_finite false (10 ^ k) 0)
      | _ => binary_normalize 53 1024 (if negative then - (m * 10 ^ e) else m * 10 ^ e) 0 negative
      end
  | _ => S754_zero negative
  end.

Definition to_lower (c : Z) : Z := if (65 <=? c) && (c <=? 90) then c + 32 else c.

(** [inf], [infinity] and [nan], in any case. *)
Definition read_special (negative : bool) (text : list Z) : option f64 :=
  let text := to_lower <$> text in
  if bool_decide (text = [105; 110; 102])
     || bool_decide (text = [105; 110; 102; 105; 110; 105; 116; 121])
  then Some (S754_infinity negative)
  else if bool_decide (text = [110; 97; 110]) then Some S754_nan
  else None.

(** [str::parse::<f64>] *)
Definition parse_f64 (text : list Z) : option f64 :=
  let '(negative, text) := read_sign text in
  let '(m, n, rest) := read_digits 0 0 text in
  let '(m, k, rest) :=
    match rest with
    | c :: frac => if c =? 46 then read_digits m 0 frac else (m, 0, rest)
    | [] => (m, 0, rest)
    end in
  if n + k =? 0 then read_special negative text
  else e ← read_exponent rest; Some (decimal_f64 negative m (e - k)).

Definition valid_price (price : Value) : bool :=
  match match price with
        | VNumber number_as_f64 => number_as_f64
        | VString text => parse_f64 (filter (λ c, c ≠ 95) (trim text))
        | _ => None
        end with
  | Some p => is_finite p && SFleb f64_zero p
  | None => false
  end.

(** The indexers whose task did not return a readable answer, in the order the
    tasks end, [finished] of the order they were started in. *)
Definition missing_answers (finished : list N → list N) (answered : N → bool) (asks : list N)
    : list N :=
  filter (λ id, answered id = false) (finished asks).

Section readable.
(** [serde_json::from_slice] *)
Context (from_slice : list Z → option Value).

Definition readable_dips_info (body : list Z) : bool :=
  match from_slice body ≫= as_object with
  | None => false
  | Some object =>
      let pricing := default object (object_get "pricing" object ≫= as_object) in
      match object_get "min_grt_per_billion_entities_per_30_days" pricing with
      | None | Some VNull => true
      | Some price => valid_price price
      end
  end.

(** The URL to ask, and what came back: [None] for a request that failed, timed
    out or was answered with an error status. *)
Context (join_dips_info : string → option string) (http_get : string → option (list Z)).

Definition ask_dips_info (indexer_url : string) : bool :=
  match join_dips_info indexer_url with
  | None => false
  | Some url => match http_get url with None => false | Some body => readable_dips_info body end
  end.

(** The task that asks an indexer; [crashed] tells whether it panicked. *)
Context (get_indexer_url : N → option string) (crashed : N → bool).

Definition answers_readably (indexer_id : N) : bool :=
  negb (crashed indexer_id)
  && match get_indexer_by_id get_indexer_url indexer_id with
     | Some indexer => ask_dips_info (ix_url indexer)
     | None => false
     end.

Definition missing_dips_info (finished : list N → list N) (indexers : list N) : list N :=
  missing_answers finished answers_readably indexers.
End readable.

(** ** What the watcher remembers *)

Definition PAUSE_ALERT_REPEAT : Z := from_secs (6 * 3600).

Record Cycles : Type := mkCycles {
  cy_last_recorded : option Z;
  cy_paused_since : option Z;
  cy_pause_alerted_at : option Z;
  cy_quiet_cycles : Z }.
Definition default_cycles : Cycles := mkCycles None None None 0.

Definition elapsed (now interval : Z) (c : Cycles) : Z :=
  Z.min (from_option (since now) 0 (cy_last_recorded c)) (dur_mul interval 2).

Definition recorded (now : Z) (c : Cycles) : Cycles :=
  mkCycles (Some now) (cy_paused_since c) (cy_pause_alerted_at c) (cy_quiet_cycles c).

Definition paused (c : Cycles) : bool := negb (is_null (cy_paused_since c)).

(** Whether counting is paused after this cycle, and the calm cycles so far. *)
Definition note_cycle (trips : bool) (now : Z) (c : Cycles) : Cycles :=
  if trips
  then mkCycles (cy_last_recorded c) (Some (default now (cy_paused_since c)))
         (cy_pause_alerted_at c) 0
  else if paused c then
    let quiet := cy_quiet_cycles c + 1 in
    if UNREACHABLE_CLEAR_CYCLES <=? quiet
    then mkCycles (cy_last_recorded c) None (cy_pause_alerted_at c) 0
    else mkCycles (cy_last_recorded c) (cy_paused_since c) (cy_pause_alerted_at c) quiet
  else c.

(** What a cycle tells the operators. *)
Inductive WatcherAlert : Type :=
| DipsInfoMissing (indexer_ids : gset N)
| DipsInfoChecksPaused
| DipsInfoMissingDenylisted (indexer_ids : gset N).

(** The time the cycle adds, the alert that counting is paused, and what is
    remembered. *)
Definition judge (checked missing elapsed now : Z) (config : DipsInfoWatcherConfig) (c : Cycles)
    : Z * list WatcherAlert * Cycles :=
  let trips := unreachable_trips checked missing (dw_unreachable_trip_fraction config)
                 (dw_unreachable_trip_min_indexers config) in
  let c := note_cycle trips now c in
  match cy_paused_since c with
  | None => (elapsed, [], c)
  | Some paused_since =>
      if match cy_pause_alerted_at c with
         | None => true
         | Some at_ => (at_ <? paused_since) || (PAUSE_ALERT_REPEAT <=? since now at_)
         end
      then (0, [DipsInfoChecksPaused],
            mkCycles (cy_last_recorded c) (cy_paused_since c) (Some now) (cy_quiet_cycles c))
      else (0, [], c)
  end.

(** ** The registry's answers (registry.rs) *)

(** [i64::try_from(duration.as_secs()).unwrap_or(i64::MAX)] *)
Definition secs_i64 (duration : Z) : Z := Z.min (as_secs duration) i64_max.

Definition to_durations (times : gmap N Z) : gmap N Z := (λ secs, from_secs (Z.max secs 0)) <$> times.

Definition provider_record_dips_info_checks (now : Z) (missing : list N) (added : Z)
    : DbM DipsInfoChecks :=
  checks ← record_dips_info_checks now missing (secs_i64 added);
  mret (mkChecks (to_durations (dc_missing checks)) (to_durations (dc_cleared checks))).

Definition provider_block_missing_dips_info (now : Z) (indexer_ids : list N) (duration : Z)
    : DbM (list N) :=
  block_missing_dips_info now indexer_ids (secs_i64 duration).

(** ** What a recorded cycle means *)

Definition crossed (total added limit : Z) : bool :=
  negb (added =? 0) && (limit <=? total) && (Z.max (total - added) 0 <? limit).

(** The alert naming every indexer that passed the limit in this cycle. *)
Definition report (checks : DipsInfoChecks) (added alert_after : Z) : list WatcherAlert :=
  let reached : gset N :=
    list_to_set (fst <$> filter (λ kv, crossed kv.2 added alert_after = true)
                   (map_to_list (dc_missing checks))) in
  if bool_decide (reached = ∅) then [] else [DipsInfoMissing reached].

Definition block_duration (interval : Z) : Z := Z.max (dur_mul interval 3) (from_secs 3600).

Definition indexers_to_block (checks : DipsInfoChecks) (paused : bool) (blocked : list N)
    (limit : Z) : list N :=
  fst <$> filter (λ kv, (limit <=? kv.2) && (negb paused || bool_decide (kv.1 ∈ blocked)) = true)
            (map_to_list (dc_missing checks)).

(** ** A cycle *)

Section cycle.
Context {C W : Type} `{!ChainClient C} `{!MessageQueue W}.
Notation S := (S C W).
Context (from_slice : list Z → option Value).
Context (join_dips_info : string → option string) (http_get : string → option (list Z)).
Context (get_indexer_url : N → option string) (crashed : N → bool).
(** The order a hash set is iterated in and the order the requests end in. *)
Context (hash_order : gset N → list N) (finished : list N → list N).

(** Blocking what is past the limit. *)
Definition block_long_missing (config : DipsInfoWatcherConfig) (checks : DipsInfoChecks)
    (c : Cycles) (blocked : list N) : S (list WatcherAlert) :=
  match indexers_to_block checks (paused c) blocked (denylist_after config) with
  | [] => mret []
  | to_block =>
      r ← pg (λ now, provider_block_missing_dips_info now to_block
                       (block_duration (dw_interval config)));
      mret (match r with
            | Ok (id :: ids) => [DipsInfoMissingDenylisted (list_to_set (id :: ids))]
            | _ => []
            end)
  end.

(** The rest of a cycle, once the agreement holders and the blocks are known. *)
Definition count_missing (config : DipsInfoWatcherConfig) (now : Z) (c : Cycles)
    (holders : gset N) (blocked : list N) : S (Cycles * list WatcherAlert) :=
  let checked := hash_order (holders ∪ list_to_set blocked) in
  let missing := missing_dips_info from_slice join_dips_info http_get get_indexer_url crashed
                   finished checked in
  let missing_holders := length (filter (λ id, id ∈ holders) missing) in
  let '(added, alerts, c) :=
    judge (Z.of_nat (size holders)) (Z.of_nat missing_holders)
      (elapsed now (dw_interval config) c) now config c in
  checks ← pg (λ now, provider_record_dips_info_checks now missing added);
  match checks with
  | Err _ => mret (c, alerts)
  | Ok checks =>
      let c := recorded now c in
      more ← block_long_missing config checks c blocked;
      mret (c, alerts ++ report checks added (alert_after config) ++ more)
  end.

(** [run_cycle], started at [now]; a registry call that fails, or takes too
    long, ends it. *)
Definition run_cycle (config : DipsInfoWatcherConfig) (now : Z) (c : Cycles)
    : S (Cycles * list WatcherAlert) :=
  holders ← pg (λ _, get_indexers_with_accepted_agreements);
  match holders with
  | Err _ => mret (c, [])
  | Ok holders =>
      blocked ← pg get_dips_info_blocks;
      match blocked with
      | Err _ => mret (c, [])
      | Ok blocked => count_missing config now c (list_to_set holders) blocked
      end
  end.

End cycle.

End DipsInfo.
