(* ===== verification/DipsInfoProps.v ===== *)
(** * What the DIPs info watcher does

    A cycle touches nothing but the watcher's table, forgets an indexer that
    answered, counts no more than the time observed, and blocks nobody new while
    it suspects dipper itself; over any run of cycles the time counted against an
    indexer is time that passed. *)

From S2P Require Import Prelude Schema Registry RegistryInv RegistryRuns RegistryOps RegistryQueries.
From S2P Require Import JobQueue Worker Rca CancelDispatch CancelDispatchProps.
From S2P Require Import ChainEvents ChainListener ChainReconcile Services RowOps QueryProps Liveness.
From S2P Require Import Selection Reassess DipsInfo.
From Stdlib Require Import SpecFloat.
Import Schema Registry RegistryInv RegistryRuns RegistryOps RegistryQueries.
Import JobQueue Worker Rca CancelDispatch CancelDispatchProps ChainEvents ChainListener.
Import ChainReconcile Services RowOps QueryProps Liveness Selection Reassess DipsInfo.
Local Open Scope Z_scope.
Local Set Default Proof Using "Type".

Module DipsInfoProps.

(** ** Prices as text *)

(** [ 1_000.5 ], [1e-400] and [-0] are prices; [-1], [1e400], [nan], [+], [1.5.5]
    and an empty text are not. *)
Example text_prices :
  valid_price <$> [VString [32; 49; 95; 48; 48; 48; 46; 53; 32]; VString [49; 101; 45; 52; 48; 48];
    VString [45; 48]; VString [45; 49]; VString [49; 101; 52; 48; 48]; VString [110; 65; 78];
    VString [43]; VString [49; 46; 53; 46; 53]; VString []] =
  [true; true; true; false; false; false; false; false; false].
Proof. vm_compute. reflexivity. Qed.

Example parsed_halves : parse_f64 [49; 46; 53] = Some (f64_div (as_f64 3) (as_f64 2)).
Proof. vm_compute. reflexivity. Qed.

(** ** The time a cycle adds *)

Lemma elapsed_bounds now interval c :
  0 ≤ interval → 0 ≤ elapsed now interval c ≤ 2 * interval.
Proof.
  intros Hi. unfold elapsed, dur_mul, since, duration_max. destruct (cy_last_recorded c); simpl; lia.
Qed.

Lemma note_cycle_recorded trips now c :
  cy_last_recorded (note_cycle trips now c) = cy_last_recorded c.
Proof. unfold note_cycle. by repeat case_match. Qed.

Lemma judge_added checked missing e now config c added alerts c' :
  judge checked missing e now config c = (added, alerts, c') →
  added = (if paused c' then 0 else e) ∧ cy_last_recorded c' = cy_last_recorded c.
Proof.
  unfold judge. set (c1 := note_cycle _ now c).
  assert (Hl : cy_last_recorded c1 = cy_last_recorded c) by apply note_cycle_recorded.
  clearbody c1. unfold paused. destruct (cy_paused_since c1) as [t|] eqn:Hp.
  - case_match; intros [= <- <- <-]; simpl; by rewrite ?Hp.
  - intros [= <- <- <-]. by rewrite Hp.
Qed.

(** ** The statements of a cycle *)

Section statements.
Context {C W : Type} `{!ChainClient C} `{!MessageQueue W}.
Notation SState := (SState C W).

(** A statement with its answer, or a connection lost around it. *)
Lemma wp_pg_lost {A} (m : Z → DbM A) (Q : result Error A → SState → Prop) s :
  alone s →
  (∀ r s', aside s s' → m (snow s) (sdb s) = (r, sdb s') → (fine s → fine s') → Q r s') →
  (∀ s', aside s s' → sdb s' = sdb s ∨ sdb s' = (m (snow s) (sdb s)).2 → ¬ fine s →
    Q (Err (DbError ConnectionLost)) s') →
  wp (pg m) Q s.
Proof.
  intros Ha Hok Hlost. apply wp_pg_alone; [done|].
  unfold wp, statement, on_dispatch, registry, pg_call, fine, snow, sdb in *.
  destruct (m (pg_now (st_reg (ss_dispatch s))) (pg_db (st_reg (ss_dispatch s)))) as [r d] eqn:Hm.
  destruct (pg_faults (st_reg (ss_dispatch s))) as [|[] fs] eqn:Hf; simpl.
  - by apply Hok.
  - by apply Hok.
  - apply Hlost; [by split|by left|done].
  - apply Hlost; [by split|by right|done].
Qed.

(** Recording either fails and changes nothing, or notes every missing indexer
    and forgets the others. *)
Definition noted_missing (now : Z) (missing : list N) (secs : Z) (d d' : Db) : Prop :=
  d' = set_dips_missing (dips_missing d') d ∧
  ∀ id, dips_missing d' !! id = if bool_decide (id ∈ missing)
          then Some (still_missing now secs (dips_missing d !! id)) else None.

Lemma upsert_missing_ok now missing secs d d' :
  NoDup missing → upsert_missing now missing secs d = (Ok tt, d') →
  d' = set_dips_missing (dips_missing d') d ∧
  ∀ id, dips_missing d' !! id = if bool_decide (id ∈ missing)
          then Some (still_missing now secs (dips_missing d !! id)) else dips_missing d !! id.
Proof.
  intros Hnd. revert d. induction missing as [|i rest IH]; intros d H.
  { injection H as <-. split; [by destruct d|]. done. }
  apply NoDup_cons in Hnd as [Hi Hnd]. simpl in H. rewrite bind_run in H. simpl in H.
  fold (still_missing now secs (dips_missing d !! i)) in H.
  repeat (case_match; [done|]). rewrite bind_run in H. simpl in H.
  apply IH in H as [Hd Hm]; [|done]. split; [by rewrite Hd|]. intros id. rewrite Hm. simpl.
  destruct (decide (id = i)) as [->|Hne].
  - rewrite bool_decide_eq_false_2, lookup_insert_eq by done.
    by rewrite bool_decide_eq_true_2 by set_solver.
  - rewrite lookup_insert_ne by done.
    by rewrite (bool_decide_ext (id ∈ i :: rest) (id ∈ rest)) by set_solver.
Qed.

Lemma record_cases now missing secs d r d' :
  NoDup missing → record_dips_info_checks now missing secs d = (r, d') →
  (∃ e, r = Err e ∧ d' = d) ∨
  ∃ checks, r = Ok checks ∧ noted_missing now missing secs d d' ∧
    dc_missing checks = di_missing_secs <$> dips_missing d'.
Proof.
  intros Hnd. unfold record_dips_info_checks, transaction. rewrite bind_run. simpl.
  rewrite bind_run. simpl. rewrite bool_decide_eq_true_2 by done. rewrite bind_run.
  set (d1 := set_dips_missing (filter (λ kv, kv.1 ∈ missing) (dips_missing d)) d).
  destruct (upsert_missing now missing secs d1) as [[[]|e] d2] eqn:Hrun; simpl; intros [= <- <-].
  2:{ left. eauto. }
  right. apply upsert_missing_ok in Hrun as [Hd Hm]; [|done].
  eexists. split; [done|]. split; [|done]. split; [by rewrite Hd|]. intros id. rewrite Hm. simpl.
  case_bool_decide as Hid.
  - do 2 f_equal. destruct (dips_missing d !! id) as [row|] eqn:Hr.
    + by apply map_lookup_filter_Some.
    + apply map_lookup_filter_None. by left.
  - apply map_lookup_filter_None. right. by intros row _.
Qed.

(** A row with its block renewed. *)
Definition renewed_row (until : Z) (r : DipsInfoRow) : DipsInfoRow :=
  mkDipsInfo (di_missing_secs r) (di_updated_at r) (Some until).

Lemma block_lookup now ids secs d id :
  dips_missing (block_missing_dips_info now ids secs d).2 !! id =
  (λ r, if bool_decide (id ∈ ids) then renewed_row (now + seconds secs) r else r)
    <$> dips_missing d !! id.
Proof. unfold block_missing_dips_info. simpl. rewrite map_lookup_imap. by destruct (_ !! id). Qed.

Lemma block_db now ids secs d :
  (block_missing_dips_info now ids secs d).2 =
  set_dips_missing (dips_missing (block_missing_dips_info now ids secs d).2) d.
Proof. done. Qed.

End statements.

(** ** A cycle *)

Section cycle.
Context {C W : Type} `{!ChainClient C} `{!MessageQueue W}.
Notation SState := (SState C W).
Context (from_slice : list Z → option Value).
Context (join_dips_info : string → option string) (http_get : string → option (list Z)).
Context (get_indexer_url : N → option string) (crashed : N → bool).
Context (hash_order : gset N → list N) (finished : list N → list N).
Notation readable := (answers_readably from_slice join_dips_info http_get get_indexer_url crashed).
Notation run_cycle := (run_cycle (C := C) (W := W) from_slice join_dips_info http_get
  get_indexer_url crashed hash_order finished).

(** A set is iterated over, and the tasks end, in some order. *)
Definition some_order : Prop :=
  (∀ X, hash_order X ≡ₚ elements X) ∧ ∀ l, finished l ≡ₚ l.

(** The indexers with an accepted agreement, and those blocked. *)
Definition holders_now (s : SState) : gset N :=
  list_to_set (ag_indexer <$> select (status_in [AcceptedOnChain]) (agreements (sdb s))).
Definition blocked_now (s : SState) : list N :=
  fst <$> filter (λ kv, holds (sql_lt (Some (snow s)) (di_blocked_until kv.2)) = true)
            (map_to_list (dips_missing (sdb s))).

(** Asked, and without a readable answer. *)
Definition gone_missing (s : SState) (id : N) : Prop :=
  (id ∈ holders_now s ∨ id ∈ blocked_now s) ∧ readable id = false.

#[export] Instance gone_missing_dec s id : Decision (gone_missing s id).
Proof. unfold gone_missing. apply _. Defined.

(** The row of an indexer gone missing, and whether it is now past the limit and
    may be blocked. *)
Definition counted (s : SState) (added : Z) (id : N) : DipsInfoRow :=
  still_missing (snow s) (secs_i64 added) (dips_missing (sdb s) !! id).
Definition blockable (config : DipsInfoWatcherConfig) (s : SState) (added : Z) (c' : Cycles)
    (id : N) : Prop :=
  gone_missing s id ∧ denylist_after config ≤ from_secs (di_missing_secs (counted s added id)) ∧
  (paused c' = false ∨ id ∈ blocked_now s).

(** The table after a recorded cycle. *)
Definition table_after (config : DipsInfoWatcherConfig) (added : Z) (c' : Cycles)
    (s s' : SState) : Prop :=
  ∃ long : gset N, (∀ id, id ∈ long → blockable config s added c' id) ∧
    (fine s → ∀ id, blockable config s added c' id → id ∈ long) ∧
    ∀ id, dips_missing (sdb s') !! id =
      if bool_decide (gone_missing s id)
      then Some (if bool_decide (id ∈ long)
                 then renewed_row (snow s + seconds (secs_i64 (block_duration (dw_interval config))))
                        (counted s added id)
                 else counted s added id)
      else None.

(** Only the watcher's table may differ. *)
Record table_only (s s' : SState) : Prop := {
  to_db : sdb s' = set_dips_missing (dips_missing (sdb s')) (sdb s);
  to_log : slog s' = slog s;
  to_pushes : ss_pushes s' = ss_pushes s;
  to_now : snow s' = snow s;
  to_others : ss_others s' = ss_others s;
  to_fine : fine s → fine s' }.

Lemma table_only_trans s1 s2 s3 : table_only s1 s2 → table_only s2 s3 → table_only s1 s3.
Proof.
  intros [D1 ? ? ? ? ?] [D2 ? ? ? ? ?]. split; try congruence; [|auto].
  etrans; [exact D2|]. by rewrite D1.
Qed.

Lemma consulted_table_only s s' : consulted [] s s' → table_only s s'.
Proof.
  intros [D N P O F L]. rewrite app_nil_r in L. split; try done. rewrite D. by destruct (sdb s).
Qed.

Lemma aside_table_only s s' :
  aside s s' → sdb s' = set_dips_missing (dips_missing (sdb s')) (sdb s) → (fine s → fine s') →
  table_only s s'.
Proof. intros [] D F. by split. Qed.

Lemma table_only_alone s s' : table_only s s' → alone s → alone s'.
Proof. intros [] Ha. unfold alone. congruence. Qed.

Lemma elem_of_missing (s : SState) id :
  some_order →
  id ∈ missing_dips_info from_slice join_dips_info http_get get_indexer_url crashed finished
         (hash_order (holders_now s ∪ list_to_set (blocked_now s))) ↔ gone_missing s id.
Proof.
  intros [Hh Hf]. unfold missing_dips_info, missing_answers, gone_missing.
  rewrite list_elem_of_filter, Hf, Hh, elem_of_elements, elem_of_union, elem_of_list_to_set. tauto.
Qed.

Lemma missing_nodup (X : gset N) :
  some_order →
  NoDup (missing_dips_info from_slice join_dips_info http_get get_indexer_url crashed finished
           (hash_order X)).
Proof.
  intros [Hh Hf]. unfold missing_dips_info, missing_answers. apply NoDup_filter.
  rewrite Hf, Hh. apply NoDup_elements.
Qed.

Lemma elem_of_to_block checks pause blocked limit id :
  id ∈ indexers_to_block checks pause blocked limit ↔
  ∃ t, dc_missing checks !! id = Some t ∧ limit ≤ t ∧ (pause = false ∨ id ∈ blocked).
Proof.
  unfold indexers_to_block. rewrite list_elem_of_fmap. split.
  - intros ([k t] & -> & [Hp Hin]%list_elem_of_filter). apply elem_of_map_to_list in Hin.
    simpl in *. apply andb_true_iff in Hp as [Hl%Z.leb_le Hp]. exists t. split_and!; try done.
    apply orb_true_iff in Hp as [Hp%negb_true_iff|Hp%bool_decide_eq_true]; auto.
  - intros (t & Ht & Hl & Hp). exists (id, t). split; [done|]. apply list_elem_of_filter.
    rewrite elem_of_map_to_list. split; [|done]. simpl. apply andb_true_iff. split; [by apply Z.leb_le|].
    apply orb_true_iff. destruct Hp as [-> |Hp]; [by left|right]. by apply bool_decide_eq_true.
Qed.

(** Blocks are renewed for some of the indexers to block; for [all] of them if
    that holds. *)
Definition blocks_renewed (all : Prop) (config : DipsInfoWatcherConfig) (to_block : list N)
    (s s' : SState) : Prop :=
  ∃ long : gset N, (∀ id, id ∈ long → id ∈ to_block) ∧ (all → ∀ id, id ∈ to_block → id ∈ long) ∧
    ∀ id, dips_missing (sdb s') !! id =
      (λ r, if bool_decide (id ∈ long)
            then renewed_row (snow s + seconds (secs_i64 (block_duration (dw_interval config)))) r
            else r) <$> dips_missing (sdb s) !! id.

Lemma blocks_kept (all : Prop) config to_block (s s' : SState) :
  (all → to_block = []) → dips_missing (sdb s') = dips_missing (sdb s) →
  blocks_renewed all config to_block s s'.
Proof.
  intros Hf Hd. exists ∅. split; [by intros id ?%not_elem_of_empty|]. split.
  - intros F id Hid. rewrite Hf in Hid by done. by apply not_elem_of_nil in Hid.
  - intros id. rewrite Hd. by destruct (dips_missing (sdb s) !! id).
Qed.

Lemma wp_block_long_missing config checks c blocked (s : SState) :
  alone s →
  wp (block_long_missing config checks c blocked) (λ _ s', table_only s s' ∧
    blocks_renewed (fine s) config
      (indexers_to_block checks (paused c) blocked (denylist_after config)) s s') s.
Proof.
  intros Ha. unfold block_long_missing.
  destruct (indexers_to_block checks (paused c) blocked (denylist_after config)) as [|i l] eqn:E.
  { apply wp_ret. split; [|by apply blocks_kept]. split; try done. by destruct (sdb s). }
  assert (Hall : ∀ s', sdb s' = (provider_block_missing_dips_info (snow s) (i :: l)
      (block_duration (dw_interval config)) (sdb s)).2 → blocks_renewed (fine s) config (i :: l) s s').
  { intros s' D. assert (HX : ∃ X : gset N, ∀ id, id ∈ X ↔ id ∈ i :: l)
      by (exists (list_to_set (i :: l)); intros id; apply elem_of_list_to_set).
    destruct HX as [X HX]. exists X. split; [by intros id ?%HX|]. split; [by intros _ id ?%HX|].
    intros id. rewrite D. unfold provider_block_missing_dips_info. rewrite block_lookup.
    destruct (dips_missing (sdb s) !! id) as [r|]; [|done]. simpl.
    by rewrite (bool_decide_ext _ _ (HX id)). }
  apply wp_bind, wp_pg_lost; [done|..].
  - intros r s1 As Hr F. apply wp_ret.
    assert (D : sdb s1 = (provider_block_missing_dips_info (snow s) (i :: l)
      (block_duration (dw_interval config)) (sdb s)).2) by by rewrite Hr.
    split; [|by apply Hall]. apply aside_table_only; [done| |done]. by rewrite D.
  - intros s1 As [D|D] F; apply wp_ret.
    + split; [|apply blocks_kept; [done|by rewrite D]].
      apply aside_table_only; [done| |done]. rewrite D. by destruct (sdb s).
    + split; [|by apply Hall]. apply aside_table_only; [done| |done]. by rewrite D.
Qed.

(** Noting and then blocking gives the table of a recorded cycle. *)
Lemma noted_blocked (all : Prop) config missing added c' checks (s s1 s2 : SState) :
  reg_inv (sdb s) → 0 ≤ added → (∀ id, id ∈ missing ↔ gone_missing s id) →
  snow s1 = snow s → (fine s → all) →
  noted_missing (snow s) missing (secs_i64 added) (sdb s) (sdb s1) →
  dc_missing checks = to_durations (di_missing_secs <$> dips_missing (sdb s1)) →
  blocks_renewed all config
    (indexers_to_block checks (paused c') (blocked_now s) (denylist_after config)) s1 s2 →
  table_after config added c' s s2.
Proof.
  intros Hi Hadd Hm N1 F1 [_ Hn] Hc (long & Hl1 & Hl2 & Hr).
  assert (Hpos : ∀ id, 0 ≤ di_missing_secs (counted s added id)).
  { intros id. assert (0 ≤ secs_i64 added).
    { unfold secs_i64, as_secs. pose proof (Z.div_pos added 1000000000). unfold i64_max. lia. }
    unfold counted, still_missing. destruct (dips_missing (sdb s) !! id) as [r|] eqn:E; [|done].
    apply (inv_dips _ Hi) in E. simpl. lia. }
  assert (Hrow : ∀ id, dips_missing (sdb s1) !! id =
    if bool_decide (gone_missing s id) then Some (counted s added id) else None).
  { intros id. rewrite Hn. by rewrite (bool_decide_ext _ _ (Hm id)). }
  assert (Hb : ∀ id, id ∈ indexers_to_block checks (paused c') (blocked_now s) (denylist_after config)
    ↔ blockable config s added c' id).
  { intros id. rewrite elem_of_to_block, Hc. unfold to_durations, blockable.
    rewrite !lookup_fmap, Hrow. case_bool_decide as Hg; simpl.
    - rewrite Z.max_l by auto. split; [by intros (t & [= <-] & ? & ?)|].
      intros (_ & ? & ?). by eexists.
    - split; [by intros (t & [=] & _)|]. by intros [? _]. }
  exists long. split_and!.
  - intros id Hid. by apply Hb, Hl1.
  - intros F id Hid. apply Hl2; [auto|]. by apply Hb.
  - intros id. rewrite Hr, N1, Hrow. by destruct (bool_decide (gone_missing s id)).
Qed.

(** What a cycle may leave: the table of a recorded cycle, or the table it
    found; only a lost connection can leave the first unrecorded. *)
Definition cycle_post (config : DipsInfoWatcherConfig) (now : Z) (c : Cycles) (s : SState)
    (c' : Cycles) (s' : SState) : Prop :=
  let added := if paused c' then 0 else elapsed now (dw_interval config) c in
  table_only s s' ∧
  (table_after config added c' s s' ∧
     (cy_last_recorded c' = Some now ∨ cy_last_recorded c' = cy_last_recorded c ∧ ¬ fine s) ∨
   dips_missing (sdb s') = dips_missing (sdb s) ∧ cy_last_recorded c' = cy_last_recorded c).

Lemma paused_recorded now c : paused (recorded now c) = paused c.
Proof. done. Qed.

Lemma table_after_paused config added c c' (s s' : SState) :
  paused c = paused c' → table_after config added c s s' → table_after config added c' s s'.
Proof. unfold table_after, blockable. by intros ->. Qed.

Lemma holders_listed (s : SState) l :
  (get_indexers_with_accepted_agreements (sdb s)).1 = Ok l → list_to_set l = holders_now s.
Proof.
  unfold get_indexers_with_accepted_agreements, holders_now, agreements_where. rewrite bind_run.
  simpl. intros [= <-]. apply set_eq. intros id.
  by rewrite !elem_of_list_to_set, elem_of_remove_dups.
Qed.

Lemma elapsed_nonneg now interval c : 0 ≤ interval → 0 ≤ elapsed now interval c.
Proof. intros Hi. by apply elapsed_bounds. Qed.

Lemma wp_count_missing config now c (s : SState) :
  some_order → 0 ≤ dw_interval config → alone s → reg_inv (sdb s) →
  wp (count_missing from_slice join_dips_info http_get get_indexer_url crashed hash_order finished
        config now c (holders_now s) (blocked_now s)) (λ r s', cycle_post config now c s r.1 s') s.
Proof.
  intros Hord Hint Ha Hi. unfold count_missing.
  set (missing := missing_dips_info _ _ _ _ _ _ _).
  assert (Hm : ∀ id, id ∈ missing ↔ gone_missing s id) by (intros id; by apply elem_of_missing).
  assert (Hnd : NoDup missing) by by apply missing_nodup.
  clearbody missing. destruct (judge _ _ _ _ _ _) as [[added alerts] c1] eqn:Hj.
  apply judge_added in Hj as [Hadd Hlast].
  assert (Hpos : 0 ≤ added).
  { rewrite Hadd. destruct (paused c1); [done|]. by apply elapsed_nonneg. }
  assert (Hkept : ∀ s1, aside s s1 → sdb s1 = sdb s → (fine s → fine s1) →
    cycle_post config now c s c1 s1).
  { intros s1 As D F. split; [apply consulted_table_only; by apply query_consulted|].
    right. by rewrite D. }
  apply wp_bind, wp_pg_lost; [done|..].
  - intros r s1 As Hr F. unfold provider_record_dips_info_checks in Hr. rewrite bind_run in Hr.
    destruct (record_dips_info_checks _ _ _ _) as [r' d'] eqn:Hrec.
    apply record_cases in Hrec as [(e & -> & ->)|(checks & -> & Hn & Hc)]; [..|done].
    { injection Hr as <- D. apply wp_ret. apply Hkept; [done|done|done]. }
    injection Hr as <- D. rewrite D in Hn, Hc.
    apply wp_bind. eapply wp_mono.
    { apply wp_block_long_missing. by eapply aside_alone. }
    intros more s2 [T2 B2]. apply wp_ret. split; [|left; split; [|by left]].
    + apply (table_only_trans s s1); [|done]. apply aside_table_only; [done|apply Hn|done].
    + change (table_after config (if paused c1 then 0 else elapsed now (dw_interval config) c)
        (recorded now c1) s s2).
      rewrite <- Hadd. eapply (noted_blocked (fine s1) config missing _ _ _ s s1 s2 Hi Hpos Hm
        (as_now _ _ As) F Hn); [|exact B2]. simpl. by rewrite Hc.
  - intros s1 As [D|D] NF; apply wp_ret; [by apply Hkept|].
    unfold provider_record_dips_info_checks in D. rewrite bind_run in D.
    destruct (record_dips_info_checks _ _ _ _) as [r' d'] eqn:Hrec.
    apply record_cases in Hrec as [(e & -> & ->)|(checks & -> & Hn & Hc)]; [by apply Hkept|..|done].
    simpl in D. rewrite <- D in Hn. unfold cycle_post. cbv zeta. cbn [fst]. rewrite <- Hadd. split; [apply aside_table_only; [done|apply Hn|done]|left].
    split; [|by right].
    eapply (noted_blocked False config missing _ _ (mkChecks _ ∅) s s1 s1 Hi Hpos Hm
      (as_now _ _ As) NF Hn eq_refl). by apply blocks_kept.
Qed.

(** A cycle sees the database its queries saw. *)
Lemma cycle_post_consulted config now c c' (s s1 s' : SState) :
  consulted [] s s1 → cycle_post config now c s1 c' s' → cycle_post config now c s c' s'.
Proof.
  intros C1 [T H]. split; [by apply (table_only_trans s s1); [apply consulted_table_only|]|].
  destruct C1 as [D N P O F L].
  assert (Hg : ∀ id, gone_missing s1 id ↔ gone_missing s id).
  { intros id. unfold gone_missing, holders_now, blocked_now. by rewrite D, N. }
  assert (Hc : ∀ added id, counted s1 added id = counted s added id).
  { intros. unfold counted. by rewrite D, N. }
  assert (Hb : ∀ added id, blockable config s1 added c' id ↔ blockable config s added c' id).
  { intros. unfold blockable. rewrite Hg, Hc. unfold blocked_now. by rewrite D, N. }
  destruct H as [[(long & H1 & H2 & H3) Hr]|H]; [left|right; by rewrite <- D]. split.
  - exists long. split_and!; [intros; by apply Hb, H1|intros Hf id Hid; apply H2, Hb; auto|].
    intros id. by rewrite H3, (bool_decide_ext _ _ (Hg id)), Hc, N.
  - destruct Hr as [?|[? NF]]; [by left|right]. split; [done|auto].
Qed.

Lemma wp_run_cycle config now c (s : SState) :
  some_order → 0 ≤ dw_interval config → alone s → reg_inv (sdb s) →
  wp (run_cycle config now c) (λ r s', cycle_post config now c s r.1 s') s.
Proof.
  intros Hord Hint Ha Hi. unfold DipsInfo.run_cycle.
  assert (Hidle : ∀ s', consulted [] s s' → cycle_post config now c s c s').
  { intros s' C1. split; [by apply consulted_table_only|]. right. by rewrite (cs_db _ _ _ C1). }
  apply wp_bind, wp_pg_alone; [done|]. eapply wp_query; [reflexivity|..].
  2:{ intros s1 As D F. apply wp_ret, Hidle, query_consulted; [done..|]. by intros. }
  intros s1 As1 D1 F1. pose proof (query_consulted _ _ As1 D1 F1) as C1.
  apply wp_bind, wp_pg_alone; [by eapply aside_alone|]. eapply wp_query; [reflexivity|..].
  2:{ intros s2 As D F. apply wp_ret, Hidle. eapply (consulted_trans [] []); [exact C1|].
      apply query_consulted; [done..|]. by intros. }
  intros s2 As2 D2 F2. pose proof (query_consulted _ _ As2 D2 F2) as C2.
  pose proof (consulted_trans [] [] _ _ _ C1 C2) as C12. simpl in C12.
  rewrite (holders_listed s) by done. change (filter _ _).*1 with (blocked_now s1).
  replace (holders_now s) with (holders_now s2) by (unfold holders_now; by rewrite D2, D1).
  replace (blocked_now s1) with (blocked_now s2)
    by (unfold blocked_now; by rewrite D2, (as_now _ _ As2)).
  eapply wp_mono; [apply wp_count_missing; [done..| |by rewrite D2, D1]|].
  - eapply aside_alone; [exact As2|]. by eapply aside_alone.
  - intros r s'. by apply cycle_post_consulted.
Qed.

(** ** What a cycle means for one indexer *)

Definition secs_of (s : SState) (id : N) : Z :=
  from_option di_missing_secs 0 (dips_missing (sdb s) !! id).
Definition block_of (s : SState) (id : N) : option Z :=
  dips_missing (sdb s) !! id ≫= di_blocked_until.

Lemma counted_secs s added id :
  di_missing_secs (counted s added id) = secs_of s id + secs_i64 added.
Proof. unfold counted, still_missing, secs_of. by destruct (dips_missing (sdb s) !! id). Qed.

Lemma counted_block s added id : di_blocked_until (counted s added id) = block_of s id.
Proof. unfold counted, still_missing, block_of. by destruct (dips_missing (sdb s) !! id). Qed.

Lemma secs_i64_bounds added : 0 ≤ added → 0 ≤ secs_i64 added ≤ as_secs added.
Proof.
  intros Ha. unfold secs_i64, as_secs, i64_max. pose proof (Z.div_pos added 1000000000 Ha). lia.
Qed.

Lemma cycle_row config now c (s : SState) c' s' id r' :
  0 ≤ dw_interval config → cycle_post config now c s c' s' →
  dips_missing (sdb s') !! id = Some r' →
  (secs_of s id ≤ di_missing_secs r' ≤ secs_of s id + as_secs (elapsed now (dw_interval config) c)) ∧
  (paused c' = true → di_missing_secs r' = secs_of s id) ∧
  (di_blocked_until r' = block_of s id ∨
   gone_missing s id ∧ denylist_after config ≤ from_secs (di_missing_secs r') ∧
   (paused c' = false ∨ id ∈ blocked_now s)).
Proof.
  intros Hint [T H] Hr. pose proof (elapsed_nonneg now _ c Hint) as He.
  pose proof (secs_i64_bounds _ He) as Hs.
  destruct H as [[(long & Hl & _ & Hrows) _]|[D _]].
  2:{ rewrite D in Hr. unfold secs_of, block_of. rewrite Hr. simpl. split_and!; try lia. by left. }
  rewrite Hrows in Hr. case_bool_decide as Hg; [|done]. injection Hr as <-.
  set (added := if paused c' then 0 else elapsed now (dw_interval config) c) in *.
  assert (Hsec : ∀ b : bool, di_missing_secs (if b
    then renewed_row (snow s + seconds (secs_i64 (block_duration (dw_interval config)))) (counted s added id)
    else counted s added id) = secs_of s id + secs_i64 added).
  { intros []; simpl; apply counted_secs. }
  rewrite Hsec. split_and!.
  - unfold added. destruct (paused c'); [|lia]. change (secs_i64 0) with 0. lia.
  - unfold added. destruct (paused c'); [|lia]. change (secs_i64 0) with 0. lia.
  - unfold added. destruct (paused c'); [|done]. intros _. change (secs_i64 0) with 0. lia.
  - case_bool_decide as Hid; [right|left; apply counted_block].
    apply Hl in Hid as (H1 & H2 & H3). rewrite counted_secs in H2. done.
Qed.

(** C26: one cycle, whatever the indexers answer, in whatever order, and
    whichever connections are lost, with no other task writing to the database
    while it runs.  Nothing but the watcher's table changes.  A recorded cycle
    forgets every indexer that answered readably or is no longer asked, so its
    count and its block end; each other one gets the time since the last recorded
    cycle, at most two intervals, and nothing while counting is paused.  A block
    starts or is renewed only for an indexer that gave no readable answer in this
    cycle and whose count reached the limit, and while counting is paused only for
    one already blocked; with no connection lost it is renewed for all of these.
    A cycle whose record did not commit counts nothing and leaves its time to the
    next.  One whose record committed although the connection was lost before its
    answer also leaves its time to the next, which counts it again: the time
    added per cycle is bounded, not the time added over two such cycles. *)
Theorem watcher_blocks_only_the_long_missing config now c s c' alerts s' :
  some_order → 0 ≤ dw_interval config → alone s → reg_inv (sdb s) →
  run_cycle config now c s = ((c', alerts), s') →
  cycle_post config now c s c' s' ∧
  elapsed now (dw_interval config) c ≤ 2 * dw_interval config ∧
  ∀ id r', dips_missing (sdb s') !! id = Some r' →
    (secs_of s id ≤ di_missing_secs r'
       ≤ secs_of s id + as_secs (elapsed now (dw_interval config) c)) ∧
    (paused c' = true → di_missing_secs r' = secs_of s id) ∧
    (di_blocked_until r' = block_of s id ∨
     gone_missing s id ∧ denylist_after config ≤ from_secs (di_missing_secs r') ∧
     (paused c' = false ∨ id ∈ blocked_now s)).
Proof.
  intros Hord Hint Ha Hi Hrun.
  pose proof (wp_run _ _ _ _ _ (wp_run_cycle config now c s Hord Hint Ha Hi) Hrun) as Hp.
  split; [done|]. split; [by apply elapsed_bounds|]. intros id r'. by apply cycle_row.
Qed.

(** ** Cycles keep the database well formed *)

Lemma wp_pg_inv {A} (m : Z → DbM A) (Q : result Error A → SState → Prop) s :
  alone s → reg_inv (sdb s) → (∀ now d0, preserves (inv_from d0) (m now)) →
  (∀ r s', alone s' → reg_inv (sdb s') → Q r s') → wp (pg m) Q s.
Proof.
  intros Ha Hi Hm HQ. apply wp_pg; [done|..].
  - intros r s' As Hr. apply HQ; [by eapply aside_alone|]. eapply keeps_inv; [apply Hm|exact Hi|exact Hr].
  - intros s' As [D|D]; (apply HQ; [by eapply aside_alone|]); rewrite D; [done|].
    eapply keeps_inv; [apply Hm|exact Hi|apply surjective_pairing].
Qed.

Lemma wp_cycle_inv config now c (s : SState) :
  alone s → reg_inv (sdb s) →
  wp (run_cycle config now c) (λ _ s', alone s' ∧ reg_inv (sdb s')) s.
Proof.
  intros Ha Hi. apply wp_bind, wp_pg_inv; [done..|by intros ??? |]. intros r s1 Ha1 Hi1.
  destruct r as [holders|e]; [|by apply wp_ret].
  apply wp_bind, wp_pg_inv; [done..|by intros ??? |]. intros r s2 Ha2 Hi2.
  destruct r as [blocked|e]; [|by apply wp_ret].
  unfold count_missing. destruct (judge _ _ _ _ _ _) as [[added alerts] c1].
  apply wp_bind, wp_pg_inv; [done..| |].
  { intros t d0 d Hd. unfold provider_record_dips_info_checks. rewrite bind_run.
    pose proof (proj1 (dips_inv d0 t (missing_dips_info from_slice join_dips_info http_get
      get_indexer_url crashed finished (hash_order (list_to_set holders ∪ list_to_set blocked)))
      (secs_i64 added)) d Hd) as H.
    by destruct (record_dips_info_checks _ _ _ d) as [[|] d']. }
  intros r s3 Ha3 Hi3. destruct r as [checks|e]; [|by apply wp_ret].
  apply wp_bind. unfold block_long_missing.
  destruct (indexers_to_block _ _ _ _) as [|i l]; [by apply wp_ret, wp_ret|].
  apply wp_bind, wp_pg_inv; [done..| |].
  { intros t d0. apply (proj2 (dips_inv d0 t (i :: l) _)). }
  intros r s4 Ha4 Hi4. by apply wp_ret, wp_ret.
Qed.

End cycle.

(** ** Runs of the watcher *)

Section runs.
Context {C W : Type} `{!ChainClient C} `{!MessageQueue W}.
Notation SState := (SState C W).
Context (from_slice : list Z → option Value) (join_dips_info : string → option string).
Context (get_indexer_url : N → option string).
Context (hash_order : gset N → list N) (finished : list N → list N).

(** The cycles of the service, each at its time with what the indexers answer. *)
Fixpoint watch (config : DipsInfoWatcherConfig)
    (cycles : list (Z * (string → option (list Z)) * (N → bool))) (c : Cycles)
    : Services.S C W Cycles :=
  match cycles with
  | [] => mret c
  | (now, http_get, crashed) :: rest =>
      r ← run_cycle from_slice join_dips_info http_get get_indexer_url crashed hash_order finished
            config now c;
      watch config rest r.1
  end.

(** The time counted since [t0], on top of [base]. *)
Definition counted_until (base : N → Z) (t0 : Z) (c : Cycles) (s : SState) : Prop :=
  ∀ id, from_secs (secs_of s id)
    ≤ base id + match cy_last_recorded c with Some t => t - t0 | None => 0 end.

Lemma secs_of_nonneg (s : SState) id : reg_inv (sdb s) → 0 ≤ secs_of s id.
Proof.
  intros Hi. unfold secs_of. destruct (dips_missing (sdb s) !! id) eqn:E; [|done].
  apply (inv_dips _ Hi) in E. simpl. lia.
Qed.

Lemma counted_step base t0 config http_get crashed now c (s : SState) c' s' :
  0 ≤ dw_interval config → reg_inv (sdb s) → fine s → t0 ≤ now →
  (∀ id, 0 ≤ base id) →
  match cy_last_recorded c with Some t => t0 ≤ t ≤ now | None => True end →
  counted_until base t0 c s →
  cycle_post from_slice join_dips_info http_get get_indexer_url crashed config now c s c' s' →
  counted_until base t0 c' s' ∧
  match cy_last_recorded c' with Some t => t0 ≤ t ≤ now | None => True end.
Proof.
  intros Hint Hi Hf Ht0 Hb Hc Hk Hp.
  assert (Hlast : cy_last_recorded c' = Some now ∨
    dips_missing (sdb s') = dips_missing (sdb s) ∧ cy_last_recorded c' = cy_last_recorded c).
  { destruct Hp as [_ [[_ [?|[_ ?]]]|?]]; [by left|done|by right]. }
  destruct Hlast as [Hlast|[D Hlast]].
  2:{ rewrite Hlast. split; [|by destruct (cy_last_recorded c)]. intros id. rewrite Hlast.
      specialize (Hk id). unfold secs_of in *. by rewrite D. }
  split; [|rewrite Hlast; lia]. intros id. rewrite Hlast. specialize (Hb id). specialize (Hk id).
  unfold secs_of at 1. destruct (dips_missing (sdb s') !! id) as [r'|] eqn:E; [|unfold from_secs; simpl; lia].
  destruct (cycle_row _ _ _ _ _ _ _ _ _ _ _ _ _ Hint Hp E) as [Hr _]. simpl.
  assert (He : from_secs (as_secs (elapsed now (dw_interval config) c)) ≤
    match cy_last_recorded c with Some t => now - t | None => 0 end).
  { unfold from_secs, as_secs. pose proof (Z.mul_div_le (elapsed now (dw_interval config) c) 1000000000).
    assert (elapsed now (dw_interval config) c ≤
      match cy_last_recorded c with Some t => now - t | None => 0 end); [|lia].
    unfold elapsed, since. destruct (cy_last_recorded c); simpl; lia. }
  unfold from_secs in *. destruct (cy_last_recorded c); lia.
Qed.

Lemma table_only_fine (s s' : SState) : table_only s s' → fine s → fine s'.
Proof. by intros []. Qed.

Lemma wp_watch base t0 t1 config cycles c (s : SState) t :
  some_order hash_order finished → 0 ≤ dw_interval config → (∀ id, 0 ≤ base id) →
  alone s → reg_inv (sdb s) → fine s → t0 ≤ t ≤ t1 →
  match cy_last_recorded c with Some t' => t0 ≤ t' ≤ t | None => True end →
  counted_until base t0 c s →
  StronglySorted Z.le (t :: ((λ x, x.1.1) <$> cycles)) → (∀ x, x ∈ cycles → x.1.1 ≤ t1) →
  wp (watch config cycles c) (λ c' s', counted_until base t0 c' s' ∧
    match cy_last_recorded c' with Some t' => t' ≤ t1 | None => True end) s.
Proof.
  intros Hord Hint Hb. revert c s t.
  induction cycles as [|[[now http_get] crashed] rest IH];
    intros c s t Ha Hi Hf Ht Hc Hk Hsort Hmax; simpl.
  { apply wp_ret. split; [done|]. destruct (cy_last_recorded c); [lia|done]. }
  apply StronglySorted_inv in Hsort as [Hsort Hle]. apply Forall_cons in Hle as [Hle _]. simpl in Hle.
  assert (Hnow : now ≤ t1) by (apply (Hmax (now, http_get, crashed)); left).
  apply wp_bind. eapply wp_mono.
  { apply wp_and; [by apply wp_cycle_inv|by apply wp_run_cycle]. }
  intros [c1 alerts] s1 [[Ha1 Hi1] Hp]. simpl in *.
  destruct (counted_step base t0 config http_get crashed now c s c1 s1 Hint Hi Hf) as [Hk1 Hc1];
    [lia|done|destruct (cy_last_recorded c); [lia|done]|done|exact Hp|].
  apply (IH c1 s1 now); try done; [|lia|].
  - eapply table_only_fine; [apply Hp|done].
  - intros x Hx. apply Hmax. by right.
Qed.

(** Over any run of cycles at times that don't go back, whatever the
    indexers answer, the time counted against an indexer grows by no more than
    the time that passed between the first and the last of them, unless a
    connection is lost. *)
Theorem missing_time_is_real config cycles c t0 t1 s c' s' :
  some_order hash_order finished → 0 ≤ dw_interval config → alone s → reg_inv (sdb s) → fine s →
  cy_last_recorded c = None → t0 ≤ t1 →
  StronglySorted Z.le (t0 :: ((λ x, x.1.1) <$> cycles)) → (∀ x, x ∈ cycles → x.1.1 ≤ t1) →
  watch config cycles c s = (c', s') →
  ∀ id, from_secs (secs_of s' id) ≤ from_secs (secs_of s id) + (t1 - t0).
Proof.
  intros Hord Hint Ha Hi Hf Hc Ht Hsort Hmax Hrun id.
  assert (Hb : ∀ id, 0 ≤ from_secs (secs_of s id)).
  { intros k. pose proof (secs_of_nonneg s k Hi). unfold from_secs. lia. }
  destruct (wp_run _ _ _ _ _ (wp_watch (λ id, from_secs (secs_of s id)) t0 t1 config cycles c s t0
    Hord Hint Hb Ha Hi Hf (conj (Z.le_refl t0) Ht) ltac:(by rewrite Hc)
    ltac:(intros k; rewrite Hc; lia) Hsort Hmax) Hrun) as [Hk Hl].
  specialize (Hk id). simpl in Hk. destruct (cy_last_recorded c'); lia.
Qed.

End runs.

(** ** Witnesses *)

Definition demo_watcher : DipsInfoWatcherConfig :=
  mkWatcherConfig true (from_secs 300) 24 48 (from_secs 10) 16 (f64_div (as_f64 1) (as_f64 2)) 3.

(** 31 and 32 hold accepted agreements; 31 has been missing for two days. *)
Definition demo_missing : Db :=
  run_ops [SetTarget 10 1 5 7 42161 2; Register 20 (demo_params 11 31);
    Register 21 (demo_params 12 32); Reconcile 30 11 true None; Reconcile 31 12 true None;
    DipsChecks 40 [31%N] 172700] empty_db.

Definition demo_json (body : list Z) : option Value := match body with [] => None | _ => Some (VObject []) end.
Definition demo_get (url : string) : option (list Z) :=
  if bool_decide (url = "http://up"%string) then Some [1] else None.
Definition demo_urls (id : N) : option string :=
  if bool_decide (id = 32%N) then Some "http://up"%string else Some "http://down"%string.

Definition demo_cycle : (Cycles * list WatcherAlert) * SState Script (list Message) :=
  run_cycle demo_json Some demo_get demo_urls (λ _, false) elements id demo_watcher
    (from_secs 1000) (mkCycles (Some (from_secs 700)) None None 0) (demo_run demo_missing [] []).

Lemma demo_order : some_order elements (λ l : list N, l).
Proof. by split. Defined.

Lemma demo_missing_inv : reg_inv (sdb (demo_run demo_missing [] [])).
Proof. apply run_ops_inv. by repeat constructor. Defined.

(** 300 more seconds take 31 past two days: it is blocked for an hour. *)
Lemma watcher_blocks_only_the_long_missing_witness :
  (dips_missing (sdb demo_cycle.2) !! 31%N = Some (mkDipsInfo 173000 100 (Some (100 + seconds 3600)))) ∧
  dips_missing (sdb demo_cycle.2) !! 32%N = None ∧
  cycle_post demo_json Some demo_get demo_urls (λ _, false) demo_watcher (from_secs 1000)
    (mkCycles (Some (from_secs 700)) None None 0) (demo_run demo_missing [] [])
    demo_cycle.1.1 demo_cycle.2.
Proof.
  split; [vm_compute; reflexivity|]. split; [vm_compute; reflexivity|].
  destruct demo_cycle as [[c' alerts] s'] eqn:E.
  exact (proj1 (watcher_blocks_only_the_long_missing demo_json Some demo_get demo_urls (λ _, false)
    elements id demo_watcher (from_secs 1000) (mkCycles (Some (from_secs 700)) None None 0)
    (demo_run demo_missing [] []) c' alerts s' demo_order ltac:(vm_compute; discriminate) eq_refl
    demo_missing_inv E)).
Defined.

Definition demo_watch : list (Z * (string → option (list Z)) * (N → bool)) :=
  [(from_secs 0, demo_get, λ _, false); (from_secs 300, demo_get, λ _, false)].

Lemma missing_time_is_real_witness :
  ∃ c' s', watch demo_json Some demo_urls elements id demo_watcher demo_watch default_cycles
      (demo_run demo_missing [] []) = (c', s') ∧ secs_of s' 31%N = 173000 ∧
    from_secs (secs_of s' 31%N) ≤ from_secs (secs_of (demo_run demo_missing [] []) 31%N)
      + (from_secs 300 - 0).
Proof.
  destruct (watch demo_json Some demo_urls elements id demo_watcher demo_watch default_cycles
    (demo_run demo_missing [] [])) as [c' s'] eqn:E.
  exists c', s'. split; [reflexivity|]. split.
  { vm_compute in E. injection E as <- <-. reflexivity. }
  apply (missing_time_is_real demo_json Some demo_urls elements id demo_watcher demo_watch
    default_cycles 0 (from_secs 300) (demo_run demo_missing [] []) c' s' demo_order
    ltac:(vm_compute; discriminate) eq_refl demo_missing_inv eq_refl eq_refl
    ltac:(vm_compute; discriminate)); [| |exact E].
  - repeat constructor; vm_compute; discriminate.
  - intros x Hx. unfold demo_watch in Hx.
    apply elem_of_cons in Hx as [->|Hx]; [vm_compute; discriminate|].
    apply list_elem_of_singleton in Hx as ->. vm_compute. discriminate.
Defined.

(** A record that landed although its connection was lost is counted again by
    the next cycle: 300 seconds pass and 450 are counted. *)
Example lost_record_counts_twice :
  let s := mkSState (mkState (mkPg demo_missing 100 (replicate 5 Fine ++ [LostAfter]))
                       (mkScript [] []) []) ([] : list Message) [] [] in
  secs_of (watch demo_json Some demo_urls elements id demo_watcher
    [(from_secs 0, demo_get, λ _, false); (from_secs 150, demo_get, λ _, false);
     (from_secs 300, demo_get, λ _, false)] default_cycles s).2 31%N
  = secs_of s 31%N + 450.
Proof. vm_compute. reflexivity. Qed.

End DipsInfoProps.
