(* ===== verification/Escrow.v ===== *)
(** * The escrow reconciler
    (bin/dipper-service/src/network/service/escrow_reconciler.rs)

    A sweep reads what the RecurringAgreementManager tracks, releases agreements
    the collector says are over, and reconciles the providers whose thaw has
    finished or whose periodic rebalance came due, at most a batch of
    transactions in all.  The chain is behind classes and nothing is assumed of
    its answers; every call is logged with its answer.  A panic is [None].  A
    stop message is an oracle: it ends the service at a read, before a
    transaction, or in the middle of one, which may then have been sent. *)

From S2P Require Import Prelude Schema Worker Rca CancelDispatch.
Import Schema Worker Rca CancelDispatch.
Local Open Scope Z_scope.

Module Escrow.

(** ** Data *)

(** Durations in nanoseconds. *)
Record EscrowReconcilerConfig : Type := mkEscrowConfig {
  er_enabled : bool;
  er_interval : Z;
  er_batch_size : Z;
  er_rebalance_interval : Z;
  er_agreements_per_sweep : Z }.

Record EscrowAccount : Type := mkAccount {
  ea_balance : Z;
  ea_tokens_thawing : Z;
  ea_thaw_end_timestamp : Z }.

Record TrackedProviders : Type := mkTracked {
  tp_providers : list N;
  tp_complete : bool }.

(** [trait ManagerEscrowReader], and the two transactions of [ChainClient]. *)
Class ManagerEscrowReader (C : Type) : Type := {
  tracked_providers : N → C → result ChainClientError TrackedProviders * C;
  escrow_account : N → N → C → result ChainClientError EscrowAccount * C;
  tracked_agreement_count : N → N → C → result ChainClientError Z * C;
  tracked_agreement_at : N → N → Z → C → result ChainClientError N * C;
  max_next_claim : N → N → C → result ChainClientError Z * C }.

Class ReconcileClient (C : Type) : Type := {
  reconcile_provider : N → N → C → result ChainClientError (option N) * C;
  reconcile_agreement : N → N → C → result ChainClientError (option N) * C }.

Inductive Reason : Type := ThawFinished | Rebalance.

Record RebalanceSchedule : Type := mkRebalance {
  rs_covered_until : option Z;
  rs_owed : gset N }.
Definition default_schedule : RebalanceSchedule := mkRebalance None ∅.

Inductive ReconcileOutcome (T : Type) : Type :=
| ReconcileStopped
| ReconcileDone (succeeded failed : list T).
Arguments ReconcileStopped {T}.
Arguments ReconcileDone {T} _ _.

(** ** Slots *)

Definition should_run (config : option EscrowReconcilerConfig) : bool :=
  from_option er_enabled false config.

Definition window (now interval : Z) (sch : RebalanceSchedule) : Z * Z :=
  let from := default (sat_sub now (as_secs interval)) (rs_covered_until sch) in
  (from, Z.max now from).

Definition settle_owed (succeeded failed : list N) (sch : RebalanceSchedule) : RebalanceSchedule :=
  mkRebalance (rs_covered_until sch)
    (foldl (λ owed p, owed ∖ {[p]}) (rs_owed sch) succeeded ∪ list_to_set failed).

(** The first eight of an address's twenty bytes. *)
Definition first_bytes (provider : N) : Z := Z.shiftr (Z.of_N provider) 96.

Definition rebalance_due (provider : N) (from to rebalance : Z) : bool :=
  let period := as_secs rebalance in
  if (period =? 0) || (to <=? from) then false
  else
    let offset := first_bytes provider mod period in
    negb (sat_add_u64 to offset / period =? sat_add_u64 from offset / period).

Definition thaw_finished (account : EscrowAccount) (now : Z) : bool :=
  (0 <? ea_tokens_thawing account) && (ea_thaw_end_timestamp account <? now).

Definition sweep_budget (batch_size : Z) : option Z :=
  if 0 <? batch_size then Some batch_size else None.

(** The items kept. *)
Definition cap {T} (items : list T) (limit : option Z) : list T :=
  match limit with Some limit => take (Z.to_nat limit) items | None => items end.

(** The providers' agreements laid end to end; [None] is unreachable. *)
Fixpoint locate (counts : list (N * Z)) (pos : Z) : option (N * Z) :=
  match counts with
  | [] => None
  | (provider, count) :: rest =>
      if pos <? count then Some (provider, pos) else locate rest (pos - count)
  end.

(** An addition of [u64]s and [Iterator::sum]: the release build the image ships has
    no overflow checks, so past the width they wrap around. *)
Definition add_u64 (a b : Z) : Z := (a + b) mod (u64_max + 1).
Definition sum_u64 (l : list Z) : Z := foldl add_u64 0 l.

(** ** Calls *)

Inductive escrow_call : Type :=
| ReadTracked (answer : result ChainClientError TrackedProviders)
| ReadHead (answer : result ChainClientError Z)
| ReadAccount (provider : N) (answer : result ChainClientError EscrowAccount)
| ReadCount (provider : N) (answer : result ChainClientError Z)
| ReadAt (provider : N) (index : Z) (answer : result ChainClientError N)
| ReadClaim (id : N) (answer : result ChainClientError Z)
| SendAgreement (id : N) (answer : option (result ChainClientError (option N)))
| SendProvider (provider : N) (answer : option (result ChainClientError (option N))).

Section escrow.
Context {C : Type} `{!ManagerEscrowReader C} `{!ReconcileClient C} `{!ChainClock C}.

Record EState : Type := mkEState { es_chain : C; es_log : list escrow_call }.

Definition E (A : Type) : Type := EState → option A * EState.
#[export] Instance E_ret : MRet E := λ A a s, (Some a, s).
#[export] Instance E_bind : MBind E := λ A B k f s,
  match f s with (Some a, s') => k a s' | (None, s') => (None, s') end.

Definition epanic {A} : E A := λ s, (None, s).
Definition of_option {A} (o : option A) : E A := λ s, (o, s).

(** A call, logged with its answer. *)
Definition call {A} (f : C → A * C) (entry : A → escrow_call) : E A := λ s,
  let '(a, c) := f (es_chain s) in (Some a, mkEState c (es_log s ++ [entry a])).

Context (collector : N).

Definition read_tracked : E (result ChainClientError TrackedProviders) :=
  call (tracked_providers collector) ReadTracked.
Definition read_head : E (result ChainClientError Z) := call latest_block_timestamp ReadHead.
Definition read_account (p : N) := call (escrow_account collector p) (ReadAccount p).
Definition read_count (p : N) := call (tracked_agreement_count collector p) (ReadCount p).
Definition read_at (p : N) (i : Z) := call (tracked_agreement_at collector p i) (ReadAt p i).
Definition read_claim (id : N) := call (max_next_claim collector id) (ReadClaim id).
Definition send_agreement (id : N) :=
  call (reconcile_agreement collector id) (λ a, SendAgreement id (Some a)).
Definition send_provider (p : N) :=
  call (reconcile_provider collector p) (λ a, SendProvider p (Some a)).
(** A transaction given up while it was under way. *)
Definition abandon_agreement (id : N) : E () :=
  _ ← call (reconcile_agreement collector id) (λ _, SendAgreement id None); mret tt.
Definition abandon_provider (p : N) : E () :=
  _ ← call (reconcile_provider collector p) (λ _, SendProvider p None); mret tt.

(** ** Ended agreements *)

Fixpoint count_agreements (providers : list N) : E (list (N * Z)) :=
  match providers with
  | [] => mret []
  | p :: rest =>
      r ← read_count p;
      counts ← count_agreements rest;
      mret (match r with Ok count => (p, count) :: counts | Err _ => counts end)
  end.

(** The loop, with [left] checks to go: the ended agreements, and how many were
    checked. *)
Fixpoint check_agreements (counts : list (N * Z)) (total start : Z) (max_ended : option Z)
    (left : nat) (checked : Z) (ended : list N) (seen : gset N) : E (list N * Z) :=
  match left with
  | O => mret (ended, checked)
  | Datatypes.S left' =>
      if match max_ended with Some max => max <=? Z.of_nat (length ended) | None => false end
      then mret (ended, checked)
      else
        at_ ← of_option (locate counts (add_u64 start checked mod total));
        let next := check_agreements counts total start max_ended left' (checked + 1) in
        r ← read_at at_.1 at_.2;
        match r with
        | Err _ => next ended seen
        | Ok id =>
            if bool_decide (id ∈ seen) then next ended seen
            else
              claim ← read_claim id;
              match claim with
              | Ok claim =>
                  if claim =? 0 then next (ended ++ [id]) ({[id]} ∪ seen)
                  else next ended ({[id]} ∪ seen)
              | Err _ => next ended ({[id]} ∪ seen)
              end
        end
  end.

(** The ended agreements, and the cursor after. *)
Definition ended_agreements (providers : list N) (cursor limit : Z) (max_ended : option Z)
    : E (list N * Z) :=
  counts ← count_agreements providers;
  let total := sum_u64 (counts.*2) in
  if (total =? 0) || (limit =? 0) then mret ([], cursor)
  else
    let start := cursor mod total in
    let checks := Z.min limit total in
    r ← check_agreements counts total start max_ended (Z.to_nat checks) 0 [] ∅;
    mret (r.1, add_u64 start r.2 mod total).

(** ** Transactions *)

(** [stop i]: a stop message arrives at the i-th item, with its transaction
    already under way or not. *)
Fixpoint release_each (stop : nat → option bool) (i : nat) (agreements succeeded failed : list N)
    : E (ReconcileOutcome N) :=
  match agreements with
  | [] => mret (ReconcileDone succeeded failed)
  | id :: rest =>
      match stop i with
      | Some under_way =>
          _ ← (if under_way : bool then abandon_agreement id else mret tt);
          mret ReconcileStopped
      | None =>
          r ← send_agreement id;
          match r with
          | Ok _ => release_each stop (Datatypes.S i) rest (succeeded ++ [id]) failed
          | Err _ => release_each stop (Datatypes.S i) rest succeeded (failed ++ [id])
          end
      end
  end.

Definition release_agreements (stop : nat → option bool) (agreements : list N)
    : E (ReconcileOutcome N) :=
  release_each stop 0 agreements [] [].

Fixpoint reconcile_each (stop : nat → option bool) (i : nat) (providers : list (N * Reason))
    (seen : gset N) (succeeded failed : list N) : E (ReconcileOutcome N) :=
  match providers with
  | [] => mret (ReconcileDone succeeded failed)
  | (p, _) :: rest =>
      match stop i with
      | Some under_way =>
          _ ← (if (under_way : bool) && negb (bool_decide (p ∈ seen)) then abandon_provider p
               else mret tt);
          mret ReconcileStopped
      | None =>
          if bool_decide (p ∈ seen)
          then reconcile_each stop (Datatypes.S i) rest seen succeeded failed
          else
            r ← send_provider p;
            match r with
            | Ok _ =>
                reconcile_each stop (Datatypes.S i) rest ({[p]} ∪ seen) (succeeded ++ [p]) failed
            | Err _ =>
                reconcile_each stop (Datatypes.S i) rest ({[p]} ∪ seen) succeeded (failed ++ [p])
            end
      end
  end.

Definition reconcile_providers (stop : nat → option bool) (providers : list (N * Reason))
    : E (ReconcileOutcome N) :=
  reconcile_each stop 0 providers ∅ [] [].

(** ** Providers due *)

(** The loop over the providers: the finished thaws, the rebalances, and who is
    owed one. *)
Fixpoint gather_due (config : EscrowReconcilerConfig) (now from to : Z) (providers : list N)
    (due rebalances : list (N * Reason)) (owed : gset N)
    : E (list (N * Reason) * list (N * Reason) * gset N) :=
  match providers with
  | [] => mret (due, rebalances, owed)
  | p :: rest =>
      let owed := if rebalance_due p from to (er_rebalance_interval config)
                  then {[p]} ∪ owed else owed in
      r ← read_account p;
      match r with
      | Ok account =>
          if thaw_finished account now
          then gather_due config now from to rest (due ++ [(p, ThawFinished)]) rebalances owed
          else if bool_decide (p ∈ owed)
          then gather_due config now from to rest due (rebalances ++ [(p, Rebalance)]) owed
          else gather_due config now from to rest due rebalances owed
      | Err _ => gather_due config now from to rest due rebalances owed
      end
  end.

Definition providers_due (tracked : TrackedProviders) (config : EscrowReconcilerConfig)
    (limit : option Z) (sch : RebalanceSchedule)
    : E (result ChainClientError (list (N * Reason)) * RebalanceSchedule) :=
  head ← read_head;
  match head with
  | Err e => mret (Err e, sch)
  | Ok now =>
      let '(from, to) := window now (er_interval config) sch in
      let owed := if tp_complete tracked
                  then rs_owed sch ∩ list_to_set (tp_providers tracked) else rs_owed sch in
      r ← gather_due config now from to (tp_providers tracked) [] [] owed;
      let '(due, rebalances, owed) := r in
      mret (Ok (cap (due ++ rebalances) limit),
            mkRebalance (if tp_complete tracked then Some to else rs_covered_until sch) owed)
  end.

(** ** A sweep *)

(** Where a stop message cuts the sweep. *)
Record Stops : Type := mkStops {
  so_tracked : bool;
  so_ended : bool;
  so_release : nat → option bool;
  so_due : bool;
  so_reconcile : nat → option bool }.

(** From the provider reconciles on: [None] when the service stops. *)
Definition reconcile_due (config : EscrowReconcilerConfig) (stops : Stops)
    (tracked : TrackedProviders) (left : option Z) (sch : RebalanceSchedule)
    : E (option RebalanceSchedule) :=
  if bool_decide (left = Some 0) then mret (Some sch)
  else if so_due stops then mret None
  else
    r ← providers_due tracked config left sch;
    match r with
    | (Err _, sch) | (Ok [], sch) => mret (Some sch)
    | (Ok due, sch) =>
        o ← reconcile_providers (so_reconcile stops) due;
        mret (match o with
              | ReconcileStopped => None
              | ReconcileDone succeeded failed => Some (settle_owed succeeded failed sch)
              end)
    end.

(** From the tick: the schedule and the cursor after, or [None]. *)
Definition sweep (config : EscrowReconcilerConfig) (stops : Stops) (sch : RebalanceSchedule)
    (cursor : Z) : E (option (RebalanceSchedule * Z)) :=
  if so_tracked stops then mret None
  else
    tracked ← read_tracked;
    match tracked with
    | Err _ => mret (Some (sch, cursor))
    | Ok tracked =>
        let budget := sweep_budget (er_batch_size config) in
        if so_ended stops then mret None
        else
          r ← ended_agreements (tp_providers tracked) cursor (er_agreements_per_sweep config)
                budget;
          let '(ended, cursor) := r in
          let left := (λ max, sat_sub max (Z.of_nat (length ended))) <$> budget in
          released ← (match ended with
                      | [] => mret (ReconcileDone [] [])
                      | _ => release_agreements (so_release stops) ended
                      end);
          match released with
          | ReconcileStopped => mret None
          | ReconcileDone _ _ =>
              sch ← reconcile_due config stops tracked left sch;
              mret ((λ sch, (sch, cursor)) <$> sch)
          end
    end.

End escrow.

Arguments EState : clear implicits.
Arguments E : clear implicits.

End Escrow.
