(* ===== verification/EscrowProps.v ===== *)
(** * What the escrow reconciler does

    A sweep sends no more than its batch and only what its own reads ask for; no
    rebalance that came due is lost, whatever fails; and the cursor takes the
    sweeps over every agreement the manager tracks. *)

From S2P Require Import Prelude Schema Worker Rca CancelDispatch Escrow.
Import Schema Worker Rca CancelDispatch Escrow.
Local Open Scope Z_scope.
Local Set Default Proof Using "Type".

Module EscrowProps.

(** ** Slots *)

(** [p]'s slot in each period. *)
Definition slot (p : N) (period t : Z) : Prop :=
  (t + first_bytes p mod period) mod period = 0.

Lemma rebalance_due_iff p from to rebalance :
  let period := as_secs rebalance in
  0 < period → 0 ≤ from → to + first_bytes p mod period ≤ u64_max →
  rebalance_due p from to rebalance = true ↔ ∃ t, from < t ≤ to ∧ slot p period t.
Proof.
  intros period Hp Hf Hw. unfold rebalance_due, slot. fold period.
  destruct (Z.eqb_spec period 0) as [|_]; [lia|]. simpl.
  destruct (Z.leb_spec to from) as [Hle|Hlt].
  { split; [done|]. intros (t & Ht & _). lia. }
  assert (Ho : 0 ≤ first_bytes p mod period < period) by (apply Z.mod_pos_bound; lia).
  set (o := first_bytes p mod period) in *. unfold sat_add_u64.
  rewrite !Z.min_l by lia. rewrite negb_true_iff, Z.eqb_neq.
  pose proof (Z.div_le_mono (from + o) (to + o) period) as Hmono.
  split.
  - intros Hne. exists ((to + o) / period * period - o).
    pose proof (Z.mul_div_le (to + o) period Hp).
    pose proof (Z.mul_succ_div_gt (from + o) period Hp).
    split; [nia|]. rewrite Z.sub_add. by apply Z.mod_mul; lia.
  - intros (t & Ht & Hs) E. apply Z.mod_divide in Hs as [k Hk]; [|lia].
    assert (k ≤ (to + o) / period) by (apply Z.div_le_lower_bound; lia).
    assert ((from + o) / period < k) by (apply Z.div_lt_upper_bound; lia). lia.
Qed.

(** ** Runs by what they log *)

Section logs.
Context {C : Type} `{!ManagerEscrowReader C} `{!ReconcileClient C} `{!ChainClock C}.
Notation E := (E C).

(** Whatever the chain answers, [f] ends in a result and calls that satisfy [Q]. *)
Definition logs {A} (f : E A) (Q : option A → list escrow_call → Prop) : Prop :=
  ∀ s, ∃ calls, es_log (f s).2 = es_log s ++ calls ∧ Q (f s).1 calls.

Lemma logs_run {A} (f : E A) Q s r s' :
  logs f Q → f s = (r, s') → ∃ calls, es_log s' = es_log s ++ calls ∧ Q r calls.
Proof. intros H E. specialize (H s). by rewrite E in H. Qed.

Lemma logs_ret {A} (a : A) (Q : option A → list escrow_call → Prop) :
  Q (Some a) [] → logs (mret a) Q.
Proof. intros H s. exists []. by rewrite app_nil_r. Qed.

Lemma logs_option {A} (o : option A) (Q : option A → list escrow_call → Prop) :
  Q o [] → logs (of_option o) Q.
Proof. intros H s. exists []. by rewrite app_nil_r. Qed.

Lemma logs_call {A} (f : C → A * C) entry (Q : option A → list escrow_call → Prop) :
  (∀ a, Q (Some a) [entry a]) → logs (call f entry) Q.
Proof. intros H s. unfold call. destruct (f (es_chain s)). eexists. split; [done|]. apply H. Qed.

Lemma logs_mono {A} (f : E A) (Q Q' : option A → list escrow_call → Prop) :
  logs f Q → (∀ r calls, Q r calls → Q' r calls) → logs f Q'.
Proof. intros H HQ s. destruct (H s) as (calls & E & Hq). eauto. Qed.

Lemma logs_bind {A B} (f : E A) (k : A → E B) (Q : option B → list escrow_call → Prop) :
  logs f (λ r calls, match r with
                     | Some a => logs (k a) (λ r' calls', Q r' (calls ++ calls'))
                     | None => Q None calls
                     end) →
  logs (f ≫= k) Q.
Proof.
  intros H s. destruct (H s) as (calls & E & Hq). unfold mbind, E_bind.
  destruct (f s) as [[a|] s1]; simpl in *; [|eauto].
  destruct (Hq s1) as (calls' & E' & Hq'). exists (calls ++ calls').
  by rewrite E', E, app_assoc.
Qed.

Context (collector : N).

(** *** Transactions *)

Definition is_send (c : escrow_call) : bool :=
  match c with SendAgreement _ _ | SendProvider _ _ => true | _ => false end.

Definition sent_agreements (calls : list escrow_call) : list N :=
  omap (λ c, match c with SendAgreement id _ => Some id | _ => None end) calls.
Definition sent_providers (calls : list escrow_call) : list N :=
  omap (λ c, match c with SendProvider p _ => Some p | _ => None end) calls.

Definition sends (calls : list escrow_call) : nat :=
  length (sent_agreements calls) + length (sent_providers calls).

Lemma sends_app l l' : sends (l ++ l') = (sends l + sends l')%nat.
Proof. unfold sends, sent_agreements, sent_providers. rewrite !omap_app, !length_app. lia. Qed.

(** Only transactions on these agreements, in order, each once. *)
Lemma logs_release stop i agreements succeeded failed :
  logs (release_each (C := C) collector stop i agreements succeeded failed) (λ r calls,
    is_Some r ∧ ∃ sent, sent `prefix_of` agreements ∧ Forall (λ c, is_send c = true) calls ∧
      sent_agreements calls = sent ∧ sent_providers calls = []).
Proof.
  revert i succeeded failed. induction agreements as [|id rest IH]; intros i succeeded failed; simpl.
  { apply logs_ret. split; [eauto|]. by exists []. }
  destruct (stop i) as [under_way|].
  { apply logs_bind. destruct under_way.
    - apply logs_bind, logs_call. intros a. apply logs_ret, logs_ret.
      split; [eauto|]. exists [id]. split_and!; [by apply prefix_cons, prefix_nil|by repeat constructor|done..].
    - apply logs_ret, logs_ret. split; [eauto|]. exists []. split_and!; [apply prefix_nil|done..]. }
  apply logs_bind, logs_call. intros [a|e].
  all: eapply logs_mono; [apply IH|]; intros r calls (Hr & sent & Hd & Hs & <- & Hp);
    (split; [done|]); exists (id :: sent_agreements calls); split_and!; [by apply prefix_cons|by constructor|done..].
Qed.

(** Only transactions on these providers, none on one already seen and none
    twice; who succeeded was answered so. *)
Record reconciled (providers : list (N * Reason)) (seen : gset N) (succeeded : list N)
    (r : option (ReconcileOutcome N)) (calls : list escrow_call) : Prop := {
  rd_ends : is_Some r;
  rd_agreements : sent_agreements calls = [];
  rd_once : NoDup (sent_providers calls);
  rd_listed : ∀ p, p ∈ sent_providers calls → p ∈ providers.*1 ∧ p ∉ seen;
  rd_count : (length (sent_providers calls) ≤ length providers)%nat;
  rd_sends : Forall (λ c, is_send c = true) calls;
  rd_succeeded : ∀ ok failed p, r = Some (ReconcileDone ok failed) → p ∈ ok →
    p ∈ succeeded ∨ ∃ a, SendProvider p (Some (Ok a)) ∈ calls }.

Lemma reconciled_none providers seen succeeded o :
  (∀ ok failed p, o = ReconcileDone ok failed → p ∈ ok → p ∈ succeeded) →
  reconciled providers seen succeeded (Some o) [].
Proof.
  intros H. split; [by eexists|done|constructor|by intros p ?%not_elem_of_nil|simpl; lia|done|].
  intros ok failed p [= ->] Hp. left. by eapply H.
Qed.

Lemma reconciled_cons p reason rest seen succeeded succeeded' a r calls :
  p ∉ seen →
  (∀ q, q ∈ succeeded' → q ∈ succeeded ∨ q = p ∧ ∃ tx, a = Some (Ok tx)) →
  reconciled rest ({[p]} ∪ seen) succeeded' r calls →
  reconciled ((p, reason) :: rest) seen succeeded r (SendProvider p a :: calls).
Proof.
  intros Hp Hs [H1 H2 H3 H4 H5 H6 H7]. split; try done; simpl.
  - constructor; [|done]. intros Hin. apply H4 in Hin as [_ Hin].
    by apply not_elem_of_union in Hin as [Hin%not_elem_of_singleton _].
  - intros q [->|Hq]%elem_of_cons; [split; [left|done]|]. apply H4 in Hq as [Hq Hn].
    split; [by right|]. by apply not_elem_of_union in Hn as [_ Hn].
  - lia.
  - by constructor.
  - intros ok failed q Hr Hq. destruct (H7 ok failed q Hr Hq) as [Hq'|(tx & Hq')].
    + destruct (Hs q Hq') as [?|(-> & tx & ->)]; [by left|right]. exists tx. left.
    + right. exists tx. by right.
Qed.

Lemma reconciled_skip p reason rest seen succeeded r calls :
  p ∈ seen → reconciled rest seen succeeded r calls →
  reconciled ((p, reason) :: rest) seen succeeded r calls.
Proof.
  intros Hp [H1 H2 H3 H4 H5 H6 H7]. split; try done; [|simpl; lia].
  intros q Hq. destruct (H4 q Hq). split; [by right|done].
Qed.

Lemma logs_reconcile stop i providers seen succeeded failed :
  logs (reconcile_each (C := C) collector stop i providers seen succeeded failed)
    (reconciled providers seen succeeded).
Proof.
  revert i seen succeeded failed.
  induction providers as [|[p reason] rest IH]; intros i seen succeeded failed; simpl.
  { apply logs_ret, reconciled_none. by intros ok f q [= <- <-]. }
  destruct (stop i) as [under_way|].
  { apply logs_bind. destruct (under_way && negb (bool_decide (p ∈ seen))) eqn:Hu.
    - apply andb_true_iff in Hu as [_ Hu%negb_true_iff%bool_decide_eq_false].
      apply logs_bind, logs_call. intros a. apply logs_ret, logs_ret. simpl.
      eapply (reconciled_cons p _ _ _ _ succeeded None); [done|by left|].
      by apply reconciled_none.
    - apply logs_ret, logs_ret. by apply reconciled_none. }
  case_bool_decide as Hs.
  { eapply logs_mono; [apply IH|]. intros r calls. by apply reconciled_skip. }
  apply logs_bind, logs_call. intros [a|e].
  - eapply logs_mono; [apply IH|]. intros r calls. apply reconciled_cons; [done|].
    intros q [?|Hq%list_elem_of_singleton]%elem_of_app; [by left|right; eauto].
  - eapply logs_mono; [apply IH|]. intros r calls. apply reconciled_cons; [done|]. by left.
Qed.

(** *** Providers due *)

(** The calls of the loop over the providers, and what they entitle it to. *)
Definition entitled (calls : list escrow_call) (now : Z) (owed : gset N) (d : N * Reason) : Prop :=
  ∃ account, ReadAccount d.1 (Ok account) ∈ calls ∧
    match d.2 with
    | ThawFinished => thaw_finished account now = true
    | Rebalance => d.1 ∈ owed
    end.

Lemma entitled_mono calls calls' now owed owed' d :
  calls ⊆ calls' → owed ⊆ owed' → entitled calls now owed d → entitled calls' now owed' d.
Proof.
  intros Hc Ho (account & Hin & H). exists account. split; [by apply Hc|].
  destruct (d.2); [done|]. by apply Ho.
Qed.

Record gathered (config : EscrowReconcilerConfig) (now from to : Z) (providers : list N)
    (due rebalances : list (N * Reason)) (owed : gset N)
    (r : option (list (N * Reason) * list (N * Reason) * gset N)) (calls : list escrow_call)
    : Prop := {
  gt_quiet : Forall (λ c, is_send c = false) calls;
  gt_result : ∃ due' rebalances' owed', r = Some (due', rebalances', owed') ∧
    (∀ p, p ∈ owed' ↔ p ∈ owed ∨ p ∈ providers ∧
       rebalance_due p from to (er_rebalance_interval config) = true) ∧
    (∀ d, d ∈ due' ++ rebalances' → d ∈ due ++ rebalances ∨
       d.1 ∈ providers ∧ entitled calls now owed' d) }.

Lemma logs_gather config now from to providers due rebalances owed :
  logs (gather_due (C := C) collector config now from to providers due rebalances owed)
    (gathered config now from to providers due rebalances owed).
Proof.
  revert due rebalances owed. induction providers as [|p rest IH]; intros due rebalances owed; simpl.
  { apply logs_ret. split; [done|]. exists due, rebalances, owed. split_and!; [done| |by left].
    intros p. split; [by left|]. by intros [|[?%not_elem_of_nil _]]. }
  set (owed1 := if rebalance_due p from to (er_rebalance_interval config)
                then {[p]} ∪ owed else owed).
  assert (Ho1 : ∀ q, q ∈ owed1 ↔ q ∈ owed ∨ q = p ∧
    rebalance_due p from to (er_rebalance_interval config) = true).
  { intros q. unfold owed1. destruct (rebalance_due p _ _ _).
    - rewrite elem_of_union, elem_of_singleton. naive_solver.
    - naive_solver. }
  clearbody owed1. apply logs_bind, logs_call. intros answer.
  assert (Hstep : ∀ due1 rebalances1, (∀ d, d ∈ due1 ++ rebalances1 → d ∈ due ++ rebalances ∨
      d.1 = p ∧ entitled [ReadAccount p answer] now owed1 d) →
    logs (gather_due (C := C) collector config now from to rest due1 rebalances1 owed1)
      (λ r calls, gathered config now from to (p :: rest) due rebalances owed r
                    ([ReadAccount p answer] ++ calls))).
  { intros due1 rebalances1 Hd. eapply logs_mono; [apply IH|].
    intros r calls [Hq (due' & reb' & owed' & -> & Ho & Hd')]. split; [by constructor|].
    exists due', reb', owed'. split_and!; [done|..].
    - intros q. rewrite Ho, Ho1, elem_of_cons. naive_solver.
    - intros d Hin. apply Hd' in Hin as [Hin|[Hin He]].
      + apply Hd in Hin as [?|[<- He]]; [by left|right]. split; [left|].
        eapply entitled_mono; [..|exact He]; [by apply list_subseteq_app_l|].
        intros q Hq'. apply Ho. by left.
      + right. split; [by right|]. eapply entitled_mono; [..|done|exact He].
        by apply list_subseteq_app_r. }
  destruct answer as [account|e]; [|apply Hstep; by left].
  destruct (thaw_finished account now) eqn:Ht; [|case_bool_decide as Ho; [|apply Hstep; by left]].
  - apply Hstep. intros d [[?|Hd%list_elem_of_singleton]%elem_of_app|?]%elem_of_app.
    + left. apply elem_of_app. by left.
    + subst d. right. split; [done|]. exists account. split; [left|done].
    + left. apply elem_of_app. by right.
  - apply Hstep. intros d [?|[?|Hd%list_elem_of_singleton]%elem_of_app]%elem_of_app.
    + left. apply elem_of_app. by left.
    + left. apply elem_of_app. by right.
    + subst d. right. split; [done|]. exists account. split; [left|done].
Qed.

(** Within the limit. *)
Definition fits {T} (limit : option Z) (l : list T) : Prop :=
  match limit with Some n => Z.of_nat (length l) ≤ Z.max n 0 | None => True end.

Lemma cap_spec {T} (l : list T) limit : fits limit (cap l limit) ∧ cap l limit ⊆ l.
Proof.
  unfold fits, cap. destruct limit as [n|]; [|done]. split; [rewrite length_take; lia|].
  intros x Hx. apply (elem_of_sublist _ _ _ Hx), sublist_take.
Qed.

(** What the reads of a sweep entitle it to reconcile, and the schedule after. *)
Record due_now (config : EscrowReconcilerConfig) (tracked : TrackedProviders) (limit : option Z)
    (sch : RebalanceSchedule) (now : Z) (calls : list escrow_call) (due : list (N * Reason))
    (sch' : RebalanceSchedule) : Prop := {
  dn_head : ReadHead (Ok now) ∈ calls;
  dn_fits : fits limit due;
  dn_due : ∀ d, d ∈ due → d.1 ∈ tp_providers tracked ∧ entitled calls now (rs_owed sch') d;
  dn_covered : rs_covered_until sch' =
    if tp_complete tracked then Some (window now (er_interval config) sch).2
    else rs_covered_until sch;
  dn_owed : ∀ p, p ∈ rs_owed sch' ↔
    (p ∈ rs_owed sch ∧ (tp_complete tracked = false ∨ p ∈ tp_providers tracked)) ∨
    p ∈ tp_providers tracked ∧
      rebalance_due p (window now (er_interval config) sch).1 (window now (er_interval config) sch).2
        (er_rebalance_interval config) = true }.

Definition escrow_due_post (config : EscrowReconcilerConfig) (tracked : TrackedProviders)
    (limit : option Z) (sch : RebalanceSchedule)
    (r : option (result ChainClientError (list (N * Reason)) * RebalanceSchedule))
    (calls : list escrow_call) : Prop :=
  Forall (λ c, is_send c = false) calls ∧
  ∃ res sch', r = Some (res, sch') ∧
    match res with
    | Err _ => sch' = sch
    | Ok due => ∃ now, due_now config tracked limit sch now calls due sch'
    end.

Lemma logs_due tracked config limit sch :
  logs (providers_due (C := C) collector tracked config limit sch) (escrow_due_post config tracked limit sch).
Proof.
  apply logs_bind, logs_call. intros [now|e].
  2:{ apply logs_ret. split; [by repeat constructor|]. by exists (Err e), sch. }
  destruct (window now (er_interval config) sch) as [from to] eqn:Hw.
  apply logs_bind. eapply logs_mono; [apply logs_gather|].
  intros r calls [Hq (due & reb & owed & -> & Ho & Hd)]. apply logs_ret. rewrite app_nil_r.
  split; [by constructor|]. eexists _, _. split; [done|]. exists now.
  destruct (cap_spec (due ++ reb) limit) as [Hf Hsub].
  split; cbn [rs_covered_until rs_owed]; rewrite ?Hw.
  - left.
  - exact Hf.
  - intros d Hin. apply Hsub, Hd in Hin as [?%not_elem_of_nil|[Hin He]]; [done|]. split; [done|].
    eapply entitled_mono; [..|done|exact He]. by apply list_subseteq_cons.
  - done.
  - intros p. rewrite Ho. destruct (tp_complete tracked); [|naive_solver].
    rewrite elem_of_intersection, elem_of_list_to_set. naive_solver.
Qed.

(** *** Ended agreements *)

(** The ended agreements found after those of [ended], which are among [seen]. *)
Definition below {T} (limit : option Z) (l : list T) : Prop :=
  match limit with Some n => Z.of_nat (length l) < n | None => True end.

Record found_ended (counts : list (N * Z)) (total start : Z) (max_ended : option Z) (left : nat)
    (checked : Z) (ended : list N) (seen : gset N) (r : option (list N * Z))
    (calls : list escrow_call) : Prop := {
  fe_quiet : Forall (λ c, is_send c = false) calls;
  fe_ended : ∀ l n, r = Some (l, n) → fits max_ended l ∧ NoDup l ∧
    (∀ id, id ∈ l → id ∈ ended ∨ ReadClaim id (Ok 0) ∈ calls) ∧
    checked ≤ n ≤ checked + Z.of_nat left ∧
    (below max_ended l → n = checked + Z.of_nat left);
  fe_read : ∀ l n j, r = Some (l, n) → checked ≤ j < n →
    ∃ p i a, locate counts (add_u64 start j mod total) = Some (p, i) ∧ ReadAt p i a ∈ calls;
  fe_total : (∀ pos, 0 ≤ pos < total → is_Some (locate counts pos)) → 0 < total → is_Some r }.

Lemma found_more counts total start max_ended left checked ended ended' seen seen' r calls p i a
    first :
  Forall (λ c, is_send c = false) first → ReadAt p i a ∈ first →
  locate counts (add_u64 start checked mod total) = Some (p, i) →
  (∀ id, id ∈ ended' → id ∈ ended ∨ ReadClaim id (Ok 0) ∈ first) →
  found_ended counts total start max_ended left (checked + 1) ended' seen' r calls →
  found_ended counts total start max_ended (Datatypes.S left) checked ended seen r (first ++ calls).
Proof.
  intros Hq Hin Hl He [H1 H2 H3 H4]. split; [by apply Forall_app|..|done].
  - intros l n Hr. destruct (H2 l n Hr) as (A & B & D & F & G). split_and!; [done|done| |lia..|].
    + intros id Hid. destruct (D id Hid) as [Hid'|Hid'].
      * destruct (He id Hid') as [?|?]; [by left|right]. apply elem_of_app. by left.
      * right. apply elem_of_app. by right.
    + intros Hm. rewrite (G Hm). lia.
  - intros l n j Hr Hj. destruct (decide (j = checked)) as [->|Hne].
    + exists p, i, a. split; [done|]. apply elem_of_app. by left.
    + destruct (H3 l n j Hr) as (p' & i' & a' & ? & ?); [lia|]. exists p', i', a'.
      split; [done|]. apply elem_of_app. by right.
Qed.

Lemma logs_check counts total start max_ended left checked ended seen :
  fits max_ended ended → NoDup ended → (∀ id, id ∈ ended → id ∈ seen) →
  logs (check_agreements (C := C) collector counts total start max_ended left checked ended seen)
    (found_ended counts total start max_ended left checked ended seen).
Proof.
  revert checked ended seen. induction left as [|left IH]; intros checked ended seen Hf Hnd Hs; simpl.
  { apply logs_ret. split; [done|..].
    - intros l n [= <- <-]. split; [done|]. split; [done|]. split; [by left|]. split; [lia|]. lia.
    - intros l n j [= <- <-] Hj. lia.
    - by eexists. }
  destruct (match max_ended with Some max => max <=? Z.of_nat (length ended) | None => false end)
    eqn:Hmax.
  { apply logs_ret. split; [done|..].
    - intros l n [= <- <-]. split; [done|]. split; [done|]. split; [by left|]. split; [lia|].
      unfold below. destruct max_ended; [|done]. apply Z.leb_le in Hmax. lia.
    - intros l n j [= <- <-] Hj. lia.
    - by eexists. }
  apply logs_bind, logs_option.
  destruct (locate counts (add_u64 start checked mod total)) as [[p i]|] eqn:Hl.
  2:{ split; [done|done|done|]. intros Hloc Ht. exfalso.
      destruct (Hloc (add_u64 start checked mod total)) as [? ?]; [by apply Z.mod_pos_bound|congruence]. }
  apply logs_bind, logs_call. intros [id|e]; simpl.
  2:{ eapply logs_mono; [by apply IH|]. intros r calls.
      apply (found_more _ _ _ _ _ _ _ ended _ seen _ _ p i (Err e) [ReadAt p i (Err e)]);
        [by repeat constructor|left|done|by left]. }
  case_bool_decide as Hseen.
  { eapply logs_mono; [by apply IH|]. intros r calls.
    apply (found_more _ _ _ _ _ _ _ ended _ seen _ _ p i (Ok id) [ReadAt p i (Ok id)]);
      [by repeat constructor|left|done|by left]. }
  assert (Hnew : id ∉ ended) by auto.
  apply logs_bind, logs_call. intros claim.
  (* The claim was read, and ended it or not. *)
  assert (Hstep : ∀ ended', fits max_ended ended' → NoDup ended' →
      (∀ k, k ∈ ended' → k ∈ ended ∨ k = id ∧ claim = Ok 0) →
    logs (check_agreements (C := C) collector counts total start max_ended left (checked + 1) ended'
            ({[id]} ∪ seen)) (λ r calls, found_ended counts total start max_ended
              (Datatypes.S left) checked ended seen r
              ([ReadAt p i (Ok id)] ++ [ReadClaim id claim] ++ calls))).
  { intros ended' Hf' Hnd' He. eapply logs_mono; [apply IH; [done..|]|].
    - intros k Hk. apply elem_of_union. destruct (He k Hk) as [?|[-> _]]; [right; auto|left].
      by apply elem_of_singleton.
    - intros r calls H. rewrite app_assoc.
      eapply (found_more _ _ _ _ _ _ _ ended' _ _ _ _ p i (Ok id)); [..|exact H];
        [by repeat constructor|left|done|].
      intros k Hk. destruct (He k Hk) as [?|[-> ->]]; [by left|right]. right. left. }
  destruct claim as [claim|e]; [|by apply Hstep; [..|by left]].
  destruct (Z.eqb_spec claim 0) as [-> |Hc]; [|by apply Hstep; [..|by left]].
  apply Hstep.
  - unfold fits in *. destruct max_ended as [n|]; [|done]. apply Z.leb_gt in Hmax.
    rewrite length_app. simpl. lia.
  - apply NoDup_app. split_and!; [done| |apply NoDup_singleton].
    intros k Hk Hk'%list_elem_of_singleton. by subst k.
  - intros k [?|Hk%list_elem_of_singleton]%elem_of_app; [by left|by right].
Qed.

Lemma quiet_sends calls :
  Forall (λ c, is_send c = false) calls → sent_agreements calls = [] ∧ sent_providers calls = [].
Proof.
  unfold sent_agreements, sent_providers.
  induction 1 as [|c calls Hc _ [IH1 IH2]]; [done|]. simpl. by destruct c.
Qed.

Lemma logs_count providers :
  logs (count_agreements (C := C) collector providers) (λ r calls,
    Forall (λ c, is_send c = false) calls ∧ ∃ counts, r = Some counts ∧
      ∀ f, (∀ p a, ReadCount p a ∈ calls → a = Ok (f p)) → counts = (λ p, (p, f p)) <$> providers).
Proof.
  induction providers as [|p rest IH]; simpl.
  { apply logs_ret. split; [done|]. by exists []. }
  apply logs_bind, logs_call. intros a. apply logs_bind. eapply logs_mono; [exact IH|].
  intros r calls [Hq (counts & -> & Hc)]. apply logs_ret. rewrite app_nil_r.
  split; [by constructor|]. eexists. split; [done|]. intros f Hf.
  rewrite (Hf p a) by left. csimpl. rewrite (Hc f); [done|]. intros q b Hin. apply Hf. by right.
Qed.

Lemma logs_ended providers cursor limit max_ended :
  logs (ended_agreements (C := C) collector providers cursor limit max_ended) (λ r calls,
    Forall (λ c, is_send c = false) calls ∧ ∀ ended cursor', r = Some (ended, cursor') →
      fits max_ended ended ∧ NoDup ended ∧ ∀ id, id ∈ ended → ReadClaim id (Ok 0) ∈ calls).
Proof.
  apply logs_bind. eapply logs_mono; [apply logs_count|].
  intros r calls [Hq (counts & -> & _)]. cbv zeta. set (total := sum_u64 counts.*2).
  assert (Hnil : fits max_ended (@nil N)) by (unfold fits; destruct max_ended; simpl; lia).
  destruct ((total =? 0) || (limit =? 0)).
  { apply logs_ret. rewrite !app_nil_r. split; [done|]. intros ended cursor' [= <- _].
    split_and!; [done|constructor|by intros id ?%not_elem_of_nil]. }
  apply logs_bind. eapply logs_mono; [apply logs_check; [done|constructor|by intros id ?%not_elem_of_nil]|].
  intros r calls' [Hq' He _ _]. destruct r as [[l n]|]; [|split; [by apply Forall_app|done]].
  apply logs_ret. rewrite !app_nil_r. split; [by apply Forall_app|].
  intros ended cursor' [= <- _]. destruct (He l n eq_refl) as (H1 & H2 & H3 & _).
  split_and!; try done. intros id [?%not_elem_of_nil|Hid]%H3; [done|]. apply elem_of_app. by right.
Qed.

(** *** A sweep *)

(** Why a sweep may reconcile [p]. *)
Definition may_reconcile (config : EscrowReconcilerConfig) (sch : RebalanceSchedule)
    (calls : list escrow_call) (p : N) : Prop :=
  ∃ now account, ReadHead (Ok now) ∈ calls ∧ ReadAccount p (Ok account) ∈ calls ∧
    (thaw_finished account now = true ∨ p ∈ rs_owed sch ∨
     rebalance_due p (window now (er_interval config) sch).1 (window now (er_interval config) sch).2
       (er_rebalance_interval config) = true).

Lemma may_reconcile_mono config sch calls calls' p :
  calls ⊆ calls' → may_reconcile config sch calls p → may_reconcile config sch calls' p.
Proof. intros H (now & account & H1 & H2 & H3). exists now, account. auto. Qed.

Lemma due_may_reconcile config tracked limit sch now calls due sch' d :
  due_now config tracked limit sch now calls due sch' → d ∈ due →
  may_reconcile config sch calls d.1.
Proof.
  intros [H1 _ H3 _ H5] Hd. destruct (H3 d Hd) as (Hp & account & Ha & He). exists now, account.
  split_and!; [done..|]. destruct (d.2); [by left|right]. apply H5 in He as [[? _]|[_ ?]]; auto.
Qed.

(** The transactions of the second half of a sweep. *)
Record providers_sent (config : EscrowReconcilerConfig) (left : option Z) (sch : RebalanceSchedule)
    (calls : list escrow_call) : Prop := {
  ps_agreements : sent_agreements calls = [];
  ps_once : NoDup (sent_providers calls);
  ps_fits : fits left (sent_providers calls);
  ps_due : ∀ p, p ∈ sent_providers calls → may_reconcile config sch calls p }.

Lemma providers_sent_quiet config left sch calls :
  Forall (λ c, is_send c = false) calls → providers_sent config left sch calls.
Proof.
  intros [H1 H2]%quiet_sends. split; rewrite ?H2; try done; [constructor| |].
  - unfold fits. destruct left; simpl; lia.
  - by intros p ?%not_elem_of_nil.
Qed.

Lemma logs_reconcile_due config stops tracked left sch :
  logs (reconcile_due (C := C) collector config stops tracked left sch)
    (λ r calls, is_Some r ∧ providers_sent config left sch calls).
Proof.
  unfold reconcile_due. case_bool_decide.
  { apply logs_ret. split; [eauto|by apply providers_sent_quiet]. }
  destruct (so_due stops).
  { apply logs_ret. split; [eauto|by apply providers_sent_quiet]. }
  apply logs_bind. eapply logs_mono; [apply logs_due|].
  intros r calls (Hq & res & sch' & -> & Hres). destruct res as [due|e].
  2:{ apply logs_ret. rewrite app_nil_r. split; [eauto|by apply providers_sent_quiet]. }
  destruct Hres as (now & Hdn). destruct due as [|d due].
  { apply logs_ret. rewrite app_nil_r. split; [eauto|by apply providers_sent_quiet]. }
  apply logs_bind. eapply logs_mono; [apply logs_reconcile|].
  intros r calls' [[o ->] R2 R3 R4 R5 _ _]. apply logs_ret. rewrite app_nil_r.
  destruct (quiet_sends _ Hq) as [Q1 Q2]. split; [eauto|].
  assert (Hp : sent_providers (calls ++ calls') = sent_providers calls')
    by (unfold sent_providers in *; by rewrite omap_app, Q2).
  split; rewrite ?Hp; [unfold sent_agreements in *; by rewrite omap_app, Q1, R2|done|..].
  - pose proof (dn_fits _ _ _ _ _ _ _ _ Hdn) as Hf. unfold fits in *. destruct left; [lia|done].
  - intros p Hin. apply R4 in Hin as [Hin _]. apply list_elem_of_fmap in Hin as (d' & -> & Hin).
    eapply may_reconcile_mono; [|by eapply due_may_reconcile]. by apply list_subseteq_app_l.
Qed.

(** What a sweep sent, and why. *)
Record escrow_sweep_ok (config : EscrowReconcilerConfig) (sch : RebalanceSchedule)
    (calls : list escrow_call) : Prop := {
  sk_batch : 0 < er_batch_size config → Z.of_nat (sends calls) ≤ er_batch_size config;
  sk_agreements_once : NoDup (sent_agreements calls);
  sk_ended : ∀ id, id ∈ sent_agreements calls → ReadClaim id (Ok 0) ∈ calls;
  sk_providers_once : NoDup (sent_providers calls);
  sk_due : ∀ p, p ∈ sent_providers calls → may_reconcile config sch calls p }.

Lemma sweep_ok_parts config sch ended quiet released rest :
  Forall (λ c, is_send c = false) quiet → fits (sweep_budget (er_batch_size config)) ended →
  NoDup ended → (∀ id, id ∈ ended → ReadClaim id (Ok 0) ∈ quiet) →
  sent_agreements released `prefix_of` ended → sent_providers released = [] →
  providers_sent config ((λ max, sat_sub max (Z.of_nat (length ended)))
    <$> sweep_budget (er_batch_size config)) sch rest →
  escrow_sweep_ok config sch (quiet ++ released ++ rest).
Proof.
  intros [Q1 Q2]%quiet_sends Hf Hnd He Hr Hp [P1 P2 P3 P4].
  assert (HA : sent_agreements (quiet ++ released ++ rest) = sent_agreements released).
  { unfold sent_agreements in *. by rewrite !omap_app, Q1, P1, app_nil_r. }
  assert (HP : sent_providers (quiet ++ released ++ rest) = sent_providers rest).
  { unfold sent_providers in *. by rewrite !omap_app, Q2, Hp. }
  assert (Hin : ∀ id, id ∈ sent_agreements released → id ∈ ended)
    by (intros id Hid; by eapply elem_of_prefix).
  split; rewrite ?HA, ?HP; try done.
  - intros Hb. unfold sends. rewrite HA, HP. apply prefix_length in Hr.
    unfold fits, sweep_budget, sat_sub in *. destruct (Z.ltb_spec 0 (er_batch_size config)); [|lia].
    simpl in P3. lia.
  - eapply sublist_NoDup; [exact Hnd|]. destruct Hr as [k ->]. apply sublist_inserts_r. done.
  - intros id Hid. apply elem_of_app. left. by apply He, Hin.
  - intros p Hp'. eapply may_reconcile_mono; [|by apply P4].
    intros c Hc. rewrite !elem_of_app. by right; right.
Qed.

Lemma sweep_ok_quiet config sch calls :
  Forall (λ c, is_send c = false) calls → escrow_sweep_ok config sch calls.
Proof.
  intros Hq. replace calls with (calls ++ [] ++ []) by (by rewrite !app_nil_r).
  apply (sweep_ok_parts config sch []); try done.
  - unfold fits. destruct (sweep_budget _); simpl; lia.
  - constructor.
  - by intros id ?%not_elem_of_nil.
  - by apply providers_sent_quiet.
Qed.

Lemma logs_sweep config stops sch cursor :
  logs (sweep (C := C) collector config stops sch cursor) (λ _ calls, escrow_sweep_ok config sch calls).
Proof.
  unfold sweep. destruct (so_tracked stops); [by apply logs_ret, sweep_ok_quiet|].
  apply logs_bind, logs_call. intros [tracked|e];
    [|apply logs_ret, sweep_ok_quiet; by repeat constructor].
  destruct (so_ended stops); [apply logs_ret, sweep_ok_quiet; by repeat constructor|].
  apply logs_bind. eapply logs_mono; [apply logs_ended|]. intros r calls [Hq He].
  assert (Hq' : Forall (λ c, is_send c = false) ([ReadTracked (Ok tracked)] ++ calls)) by by constructor.
  destruct r as [[ended cursor']|]; [|by apply sweep_ok_quiet].
  destruct (He _ _ eq_refl) as (Hf & Hnd & Hc). apply logs_bind.
  assert (Hrel : logs (match ended with
                       | [] => mret (ReconcileDone [] [])
                       | _ => release_agreements collector (so_release stops) ended
                       end : E (ReconcileOutcome N)) (λ r calls, is_Some r ∧
      sent_agreements calls `prefix_of` ended ∧ sent_providers calls = [])).
  { destruct ended as [|id l]; [apply logs_ret; split; [eauto|done]|].
    eapply logs_mono; [apply logs_release|]. intros r c (Hs & sent & Hd & _ & Hsent & Hp).
    rewrite Hsent. done. }
  eapply logs_mono; [exact Hrel|]. intros r released ([o ->] & Hpre & Hp). destruct o as [|ok bad].
  { apply logs_ret. rewrite app_nil_r, app_assoc. rewrite <- (app_nil_r released).
    apply (sweep_ok_parts config sch ended); try done; [|by apply providers_sent_quiet].
    intros id Hid. apply elem_of_app. right. by apply Hc. }
  apply logs_bind. eapply logs_mono; [apply logs_reconcile_due|].
  intros r rest [[sch' ->] Hps]. apply logs_ret. rewrite app_nil_r, app_assoc.
  apply (sweep_ok_parts config sch ended); try done.
  intros id Hid. apply elem_of_app. right. by apply Hc.
Qed.

(** C31: a sweep, whatever the chain answers and wherever it is stopped.  It
    sends at most [batch_size] transactions when that is positive.  An agreement
    is released only after the collector answered, in this sweep, that nothing
    more can be claimed on it, and at most once; a provider is reconciled at most
    once, only if its escrow account was read in this sweep and either shows a
    thaw over by the chain's time or the provider is owed a rebalance. *)
Theorem escrow_sends_only_what_is_due config stops sch cursor s r s' :
  sweep collector config stops sch cursor s = (r, s') →
  ∃ calls, es_log s' = es_log s ++ calls ∧ escrow_sweep_ok config sch calls.
Proof. intros Hrun. by apply (logs_run _ _ _ _ _ (logs_sweep config stops sch cursor) Hrun). Qed.

(** ** Rebalances over many sweeps *)

Fixpoint escrow_sweeps (config : EscrowReconcilerConfig) (stops : list Stops) (sch : RebalanceSchedule)
    (cursor : Z) : E (option (RebalanceSchedule * Z)) :=
  match stops with
  | [] => mret (Some (sch, cursor))
  | st :: rest =>
      r ← sweep collector config st sch cursor;
      match r with
      | None => mret None
      | Some (sch', cursor') => escrow_sweeps config rest sch' cursor'
      end
  end.

Definition rebalanced (p : N) (calls : list escrow_call) : Prop :=
  ∃ a, SendProvider p (Some (Ok a)) ∈ calls.

(** Whenever the providers were listed, [p] was among them, and the chain's
    time is far from the end of its width. *)
Definition listed_always (config : EscrowReconcilerConfig) (p : N) (calls : list escrow_call) : Prop :=
  (∀ t, ReadTracked (Ok t) ∈ calls → p ∈ tp_providers t) ∧
  ∀ now, ReadHead (Ok now) ∈ calls → now + as_secs (er_rebalance_interval config) ≤ u64_max.

Lemma elem_of_settle p ok bad sch :
  p ∈ rs_owed (settle_owed ok bad sch) ↔ p ∈ rs_owed sch ∧ p ∉ ok ∨ p ∈ bad.
Proof.
  unfold settle_owed. simpl. rewrite elem_of_union, elem_of_list_to_set.
  assert (H : ∀ owed : gset N, p ∈ foldl (λ owed q, owed ∖ {[q]}) owed ok ↔ p ∈ owed ∧ p ∉ ok).
  { induction ok as [|q ok IH]; intros owed; simpl.
    - split; [|tauto]. intros ?. split; [done|]. by intros ?%not_elem_of_nil.
    - rewrite IH, elem_of_difference, elem_of_singleton, elem_of_cons. tauto. }
  by rewrite H.
Qed.

(** Nothing [p] is owed is lost from [sch] to [sch']. *)
Definition kept (config : EscrowReconcilerConfig) (p : N) (sch sch' : RebalanceSchedule)
    (calls : list escrow_call) : Prop :=
  (p ∈ rs_owed sch → p ∈ rs_owed sch' ∨ rebalanced p calls) ∧
  (rs_covered_until sch' = rs_covered_until sch ∨
   ∃ now, ReadHead (Ok now) ∈ calls ∧
     rs_covered_until sch' = Some (window now (er_interval config) sch).2 ∧
     (rebalance_due p (window now (er_interval config) sch).1
        (window now (er_interval config) sch).2 (er_rebalance_interval config) = true →
      p ∈ rs_owed sch' ∨ rebalanced p calls)).

Lemma kept_refl config p sch calls : kept config p sch sch calls.
Proof. split; auto. Qed.

Lemma kept_due config tracked limit sch now calls due sch' p :
  p ∈ tp_providers tracked → due_now config tracked limit sch now calls due sch' →
  kept config p sch sch' calls.
Proof.
  intros Hp [H1 _ _ H4 H5]. split.
  - intros Ho. left. apply H5. left. auto.
  - rewrite H4. destruct (tp_complete tracked); [right|by left]. exists now. split_and!; try done.
    intros Hd. left. apply H5. by right.
Qed.

Lemma kept_settle config p sch sch' calls calls' ok bad :
  kept config p sch sch' calls → (∀ q, q ∈ ok → rebalanced q calls') →
  kept config p sch (settle_owed ok bad sch') (calls ++ calls').
Proof.
  intros [H1 H2] Hok.
  assert (Hs : p ∈ rs_owed sch' ∨ rebalanced p calls →
    p ∈ rs_owed (settle_owed ok bad sch') ∨ rebalanced p (calls ++ calls')).
  { intros [Ho|(a & Ha)]; [|right; exists a; apply elem_of_app; by left].
    destruct (decide (p ∈ ok)) as [Hin|Hn].
    - right. destruct (Hok p Hin) as (a & Ha). exists a. apply elem_of_app. by right.
    - left. apply elem_of_settle. by left. }
  split; [auto|]. destruct H2 as [?|(now & A & B & D)]; [by left|right]. exists now.
  split_and!; [apply elem_of_app; by left|done|auto].
Qed.

Lemma kept_more config p sch sch' calls calls' :
  calls ⊆ calls' → kept config p sch sch' calls → kept config p sch sch' calls'.
Proof.
  intros Hsub [H1 H2]. assert (Hr : rebalanced p calls → rebalanced p calls').
  { intros (a & Ha). exists a. by apply Hsub. }
  split; [naive_solver|]. destruct H2 as [?|(now & A & B & D)]; [by left|right]. exists now.
  split_and!; [by apply Hsub|done|naive_solver].
Qed.

Lemma logs_reconcile_due_kept config stops tracked left sch p :
  p ∈ tp_providers tracked →
  logs (reconcile_due (C := C) collector config stops tracked left sch)
    (λ r calls, ∀ sch', r = Some (Some sch') → kept config p sch sch' calls).
Proof.
  intros Hp. unfold reconcile_due. case_bool_decide.
  { apply logs_ret. intros sch' [= <-]. apply kept_refl. }
  destruct (so_due stops); [by apply logs_ret|].
  apply logs_bind. eapply logs_mono; [apply logs_due|].
  intros r calls (Hq & res & sch1 & -> & Hres). destruct res as [due|e].
  2:{ apply logs_ret. intros sch' [= <-]. subst sch1. apply kept_refl. }
  destruct Hres as (now & Hdn). destruct due as [|d due].
  { apply logs_ret. rewrite app_nil_r. intros sch' [= <-]. by eapply kept_due. }
  apply logs_bind. eapply logs_mono; [apply logs_reconcile|].
  intros r calls' [[o ->] _ _ _ _ _ Hok]. apply logs_ret. rewrite app_nil_r.
  destruct o as [|ok bad]; [done|]. intros sch' [= <-].
  apply kept_settle; [by eapply kept_due|]. intros q Hq'.
  destruct (Hok ok bad q eq_refl Hq') as [?%not_elem_of_nil|?]; [done|]. done.
Qed.

Lemma logs_sweep_kept config stops sch cursor p :
  logs (sweep (C := C) collector config stops sch cursor) (λ r calls,
    ∀ sch' cursor', r = Some (Some (sch', cursor')) →
      listed_always config p calls → kept config p sch sch' calls).
Proof.
  unfold sweep. destruct (so_tracked stops); [by apply logs_ret|].
  apply logs_bind, logs_call. intros [tracked|e].
  2:{ apply logs_ret. intros sch' cursor' [= <- _] _. apply kept_refl. }
  destruct (so_ended stops); [by apply logs_ret|].
  apply logs_bind. eapply logs_mono; [apply logs_ended|]. intros r calls _.
  destruct r as [[ended cursor1]|]; [|done]. apply logs_bind.
  assert (Hrel : logs (match ended with
                       | [] => mret (ReconcileDone [] [])
                       | _ => release_agreements collector (so_release stops) ended
                       end : E (ReconcileOutcome N)) (λ r calls, is_Some r)).
  { destruct ended; [apply logs_ret; eauto|]. eapply logs_mono; [apply logs_release|].
    by intros r c [? _]. }
  eapply logs_mono; [exact Hrel|]. intros r released [o ->]. destruct o as [|ok bad]; [by apply logs_ret|].
  destruct (decide (p ∈ tp_providers tracked)) as [Hp|Hn].
  2:{ apply logs_bind. eapply logs_mono; [apply logs_reconcile_due|].
      intros r rest [[sch1 ->] _]. apply logs_ret. intros sch' cursor' _ [Hl _].
      destruct Hn. apply Hl. by left. }
  apply logs_bind. eapply logs_mono.
  { apply (logs_reconcile_due_kept config stops tracked _ sch p Hp). }
  intros r rest Hk. destruct r as [[sch1|]|]; [|by apply logs_ret|done].
  apply logs_ret. intros sch' cursor' [= <- _] _. rewrite app_nil_r.
  eapply kept_more; [|by apply Hk]. intros c Hc. rewrite !elem_of_app. auto.
Qed.

(** What a run keeps for [p], from [sch] to [sch']. *)
Definition run_kept (config : EscrowReconcilerConfig) (p : N) (sch sch' : RebalanceSchedule)
    (calls : list escrow_call) : Prop :=
  let period := as_secs (er_rebalance_interval config) in
  (p ∈ rs_owed sch → p ∈ rs_owed sch' ∨ rebalanced p calls) ∧
  ∀ c0, rs_covered_until sch = Some c0 → 0 ≤ c0 → c0 + period ≤ u64_max → 0 < period →
    ∃ c1, rs_covered_until sch' = Some c1 ∧ c0 ≤ c1 ∧
      ∀ t, c0 < t ≤ c1 → slot p period t → p ∈ rs_owed sch' ∨ rebalanced p calls.

Lemma run_kept_cons config p sch sch1 sch' calls calls' :
  listed_always config p (calls ++ calls') → kept config p sch sch1 calls →
  run_kept config p sch1 sch' calls' → run_kept config p sch sch' (calls ++ calls').
Proof.
  intros [_ Hl] [K1 K2] [R1 R2].
  assert (Hl1 : rebalanced p calls → rebalanced p (calls ++ calls'))
    by (intros (a & Ha); exists a; apply elem_of_app; by left).
  assert (Hl2 : rebalanced p calls' → rebalanced p (calls ++ calls'))
    by (intros (a & Ha); exists a; apply elem_of_app; by right).
  assert (Hown : p ∈ rs_owed sch1 ∨ rebalanced p calls → p ∈ rs_owed sch' ∨ rebalanced p (calls ++ calls'))
    by naive_solver.
  split; [auto|]. intros c0 Hc0 H0 Hb Hp.
  destruct K2 as [K2|(now & Hn & K2 & Kd)].
  - destruct (R2 c0) as (c1 & E & Hle & Ht); [congruence|done..|]. exists c1.
    split_and!; [done..|]. intros t Ht' Hs. destruct (Ht t Ht' Hs); auto.
  - unfold window in K2, Kd. rewrite Hc0 in K2, Kd. simpl in K2, Kd.
    assert (Hnow : now + as_secs (er_rebalance_interval config) ≤ u64_max)
      by (apply Hl, elem_of_app; by left).
    destruct (R2 (Z.max now c0)) as (c1 & E & Hle & Ht); [done|lia|lia|done|]. exists c1.
    split_and!; [done|lia|]. intros t Ht' Hs.
    destruct (decide (t ≤ Z.max now c0)) as [Hin|Hout].
    + apply Hown, Kd, rebalance_due_iff; [done|done| |exists t; split; [lia|done]].
      pose proof (Z.mod_pos_bound (first_bytes p) _ Hp). lia.
    + destruct (Ht t) as [?|?]; [lia|done|by left|auto].
Qed.

Lemma logs_sweeps config stops sch cursor p :
  logs (escrow_sweeps config stops sch cursor) (λ r calls,
    ∀ sch' cursor', r = Some (Some (sch', cursor')) →
      listed_always config p calls → run_kept config p sch sch' calls).
Proof.
  revert sch cursor. induction stops as [|st rest IH]; intros sch cursor; simpl.
  { apply logs_ret. intros sch' cursor' [= <- _] _. split; [by left|]. intros c0 Hc _ _ _.
    exists c0. split_and!; [done|lia|]. lia. }
  apply logs_bind. eapply logs_mono; [apply (logs_sweep_kept config st sch cursor p)|].
  intros r calls Hk. destruct r as [[[sch1 cursor1]|]|]; [|by apply logs_ret|done].
  eapply logs_mono; [apply IH|]. intros r calls' Hr sch' cursor' Hres Hl.
  assert (Hl1 : listed_always config p calls).
  { destruct Hl as [A B]. split; intros; [apply A|apply B]; apply elem_of_app; by left. }
  assert (Hl2 : listed_always config p calls').
  { destruct Hl as [A B]. split; intros; [apply A|apply B]; apply elem_of_app; by right. }
  eapply run_kept_cons; [done|by eapply Hk|by eapply Hr].
Qed.

(** C32: no rebalance is lost to a failure: whatever the reads and the
    transactions answer, refuse or fail to answer.  Over any number of sweeps in
    which the manager's list, when it could be read, had the provider, and the
    times of the heads read are at least one rebalance interval below the end of
    64 bits: a provider owed a rebalance before them is still owed one at the end,
    or a reconcile of it went through among them; and, when the schedule had
    covered the chain's time up to some [c0] before them (a service that has just
    started has covered none, and this half says nothing of it), the time covered
    after them is not below [c0], and if one of the provider's slots (one per
    rebalance interval) falls between the two, it is owed a rebalance at the end
    or a reconcile of it went through. *)
Theorem no_rebalance_is_lost config stops sch cursor p s sch' cursor' s' :
  escrow_sweeps config stops sch cursor s = (Some (Some (sch', cursor')), s') →
  ∃ calls, es_log s' = es_log s ++ calls ∧
    (listed_always config p calls → run_kept config p sch sch' calls).
Proof.
  intros Hrun. destruct (logs_run _ _ _ _ _ (logs_sweeps config stops sch cursor p) Hrun)
    as (calls & E & H). exists calls. split; [done|]. by eapply H.
Qed.

(** ** Every agreement is checked *)

(** The position of a provider's agreement when they are laid end to end. *)
Lemma locate_reaches counts p i count :
  (p, count) ∈ counts → Forall (λ c, 0 ≤ c.2) counts → 0 ≤ i < count →
  ∃ pos, 0 ≤ pos < foldr Z.add 0 (counts.*2) ∧ locate counts pos = Some (p, i).
Proof.
  intros Hin Hpos Hi. induction Hpos as [|[q n] counts Hn Hpos IH]; [by apply not_elem_of_nil in Hin|].
  assert (Hsum : 0 ≤ foldr Z.add 0 (counts.*2)).
  { clear -Hpos. induction Hpos as [|[q n] ? Hn ? IH]; [done|]. rewrite fmap_cons. simpl in *. lia. }
  rewrite fmap_cons. simpl in *.
  apply elem_of_cons in Hin as [[= -> ->]|Hin].
  - exists i. split; [lia|]. by destruct (Z.ltb_spec i n); [|lia].
  - destruct (IH Hin) as (pos & Hp & Hl). exists (n + pos). split; [lia|].
    destruct (Z.ltb_spec (n + pos) n); [lia|]. by replace (n + pos - n) with pos by lia.
Qed.

Lemma locate_some counts pos :
  Forall (λ c, 0 ≤ c.2) counts → 0 ≤ pos < foldr Z.add 0 (counts.*2) → is_Some (locate counts pos).
Proof.
  intros Hc. revert pos. induction Hc as [|[q n] counts Hn Hc IH]; intros pos; [simpl; lia|].
  rewrite fmap_cons. simpl in *. intros Hp. destruct (Z.ltb_spec pos n); [by eexists|]. apply IH. lia.
Qed.

Lemma add_u64_fits a b : 0 ≤ a + b ≤ u64_max → add_u64 a b = a + b.
Proof. intros H. apply Z.mod_small. unfold u64_max in *. lia. Qed.

Lemma sum_u64_fits l : Forall (λ x, 0 ≤ x) l → foldr Z.add 0 l ≤ u64_max →
  sum_u64 l = foldr Z.add 0 l.
Proof.
  intros Hl. unfold sum_u64.
  assert (H : ∀ acc, 0 ≤ acc → acc + foldr Z.add 0 l ≤ u64_max →
    foldl add_u64 acc l = acc + foldr Z.add 0 l).
  { induction Hl as [|x l Hx Hl IH]; intros acc Ha Hb; simpl in *; [lia|].
    assert (0 ≤ foldr Z.add 0 l) by (clear -Hl; induction Hl; simpl in *; lia).
    rewrite add_u64_fits, IH by lia. lia. }
  intros. by rewrite H.
Qed.

(** The agreements the manager tracks, laid end to end. *)
Definition laid_out (count : N → Z) (providers : list N) : list (N * Z) :=
  (λ p, (p, count p)) <$> providers.
Definition tracked_total (count : N → Z) (providers : list N) : Z :=
  foldr Z.add 0 (count <$> providers).

Lemma laid_out_counts count providers : (laid_out count providers).*2 = count <$> providers.
Proof. unfold laid_out. rewrite <- list_fmap_compose. by apply list_fmap_ext. Qed.

(** The manager counts the same agreements each time it is asked. *)
Record steady (count : N → Z) (providers : list N) (calls : list escrow_call) : Prop := {
  st_answers : ∀ p a, ReadCount p a ∈ calls → a = Ok (count p);
  st_nonneg : ∀ p, 0 ≤ count p;
  st_some : 0 < tracked_total count providers;
  st_small : 2 * tracked_total count providers ≤ u64_max }.

Lemma steady_app count providers l l' :
  steady count providers (l ++ l') → steady count providers l ∧ steady count providers l'.
Proof. intros []. split; split; try done; intros p a Hin; apply st_answers0, elem_of_app; auto. Qed.

(** [calls] reads the [n] positions from [cursor] on. *)
Definition reads_from (count : N → Z) (providers : list N) (calls : list escrow_call)
    (cursor n : Z) : Prop :=
  ∀ j, 0 ≤ j < n → ∃ p i a,
    locate (laid_out count providers) ((cursor + j) mod tracked_total count providers) = Some (p, i) ∧
    ReadAt p i a ∈ calls.

Lemma reads_from_app count providers l l' cursor n n' cursor' :
  0 < tracked_total count providers →
  cursor' = (cursor + n) mod tracked_total count providers →
  reads_from count providers l cursor n → reads_from count providers l' cursor' n' →
  reads_from count providers (l ++ l') cursor (n + n').
Proof.
  intros Ht -> H H' j Hj. destruct (decide (j < n)) as [Hlt|Hge].
  - destruct (H j) as (p & i & a & ? & ?); [lia|]. exists p, i, a. rewrite elem_of_app. auto.
  - destruct (H' (j - n)) as (p & i & a & Hl & ?); [lia|]. exists p, i, a. rewrite elem_of_app.
    split; [|by right]. rewrite Z.add_mod_idemp_l in Hl by lia.
    by replace (cursor + n + (j - n)) with (cursor + j) in Hl by lia.
Qed.

Lemma steady_counts count providers counts calls l :
  (∀ f, (∀ p a, ReadCount p a ∈ calls → a = Ok (f p)) → counts = (λ p, (p, f p)) <$> providers) →
  steady count providers (calls ++ l) →
  counts = laid_out count providers ∧ Forall (λ c, 0 ≤ c.2) counts ∧
  sum_u64 counts.*2 = tracked_total count providers.
Proof.
  intros Hcounts [Ha Hnn Ht Hs]. rewrite (Hcounts count).
  2:{ intros p a Hin. apply Ha, elem_of_app. by left. }
  split; [done|]. split; [by apply Forall_fmap, Forall_true|].
  change ((λ p, (p, count p)) <$> providers) with (laid_out count providers).
  rewrite laid_out_counts. apply sum_u64_fits; [by apply Forall_fmap, Forall_true|].
  unfold tracked_total in *. lia.
Qed.

(** What a round that meets a steady manager does: it does not panic, and moves
    the cursor by what it read, its whole share unless it stopped on a full
    batch. *)
Definition round_reads (providers : list N) (cursor limit : Z) (max_ended : option Z)
    (r : option (list N * Z)) (calls : list escrow_call) : Prop :=
  ∀ count, steady count providers calls → let total := tracked_total count providers in
  ∃ ended n, r = Some (ended, (cursor + n) mod total) ∧ 0 ≤ n ∧
    (below max_ended ended → n = Z.min limit total) ∧ reads_from count providers calls cursor n.

Lemma checked_round providers counts cursor limit max_ended r calls calls' :
  let total := sum_u64 counts.*2 in
  0 < limit →
  (∀ f, (∀ p a, ReadCount p a ∈ calls → a = Ok (f p)) → counts = (λ p, (p, f p)) <$> providers) →
  found_ended counts total (cursor mod total) max_ended (Z.to_nat (Z.min limit total)) 0 [] ∅ r
    calls' →
  round_reads providers cursor limit max_ended
    (r ≫= λ r, Some (r.1, add_u64 (cursor mod total) r.2 mod total)) (calls ++ calls').
Proof.
  intros total0 Hlim Hcounts [_ He Hr Hsome] count Hst. subst total0.
  destruct (steady_counts _ _ _ _ _ Hcounts Hst) as (Hlaid & Hnn & Hsum). rewrite Hsum in *.
  destruct Hst as [_ _ Ht Hsm]. set (total := tracked_total count providers) in *.
  assert (Hm : 0 ≤ cursor mod total < total) by (apply Z.mod_pos_bound; lia).
  destruct Hsome as [[ended n] ->]; [|lia|].
  { intros pos Hpos. apply locate_some; [done|]. rewrite Hlaid, laid_out_counts. apply Hpos. }
  destruct (He ended n eq_refl) as (_ & _ & _ & Hn & Hall). simpl.
  rewrite add_u64_fits by lia.
  exists ended, n. rewrite Z.add_mod_idemp_l by lia. split_and!; [done|lia|intros; rewrite Hall; [lia|done]|].
  intros j Hj. destruct (Hr ended n j eq_refl Hj) as (p & i & a & Hl & Hin).
  rewrite add_u64_fits in Hl by lia.
  rewrite Z.add_mod_idemp_l, Hlaid in Hl by lia. exists p, i, a. split; [done|].
  apply elem_of_app. by right.
Qed.

Lemma logs_ended_reads providers cursor limit max_ended :
  0 < limit →
  logs (ended_agreements (C := C) collector providers cursor limit max_ended)
    (round_reads providers cursor limit max_ended).
Proof.
  intros Hlim. apply logs_bind. eapply logs_mono; [apply logs_count|].
  intros r calls [_ (counts & -> & Hcounts)]. cbv zeta.
  assert (Hst : ∀ count, steady count providers calls →
    sum_u64 counts.*2 = tracked_total count providers).
  { intros count Hs. rewrite <- (app_nil_r calls) in Hs. by apply (steady_counts _ _ _ _ _ Hcounts Hs). }
  destruct ((sum_u64 counts.*2 =? 0) || (limit =? 0)) eqn:Hz.
  { apply logs_ret. rewrite app_nil_r. intros count Hs. rewrite (Hst _ Hs) in Hz.
    destruct Hs. apply orb_true_iff in Hz as [?%Z.eqb_eq|?%Z.eqb_eq]; lia. }
  apply logs_bind. eapply logs_mono.
  { apply logs_check; [|constructor|by intros id ?%not_elem_of_nil].
    unfold fits. destruct max_ended; simpl; lia. }
  intros r calls' Hf. pose proof (checked_round _ _ _ _ _ _ _ _ Hlim Hcounts Hf) as H.
  destruct r as [[ended n]|]; [|exact H]. apply logs_ret. rewrite !app_nil_r. exact H.
Qed.

(** The checks of [n] sweeps over the same providers. *)
Fixpoint rounds (providers : list N) (limit : Z) (max_ended : option Z) (n : nat) (cursor : Z)
    : E (list (list N)) :=
  match n with
  | O => mret []
  | Datatypes.S n' =>
      r ← ended_agreements collector providers cursor limit max_ended;
      rest ← rounds providers limit max_ended n' r.2;
      mret (r.1 :: rest)
  end.

Lemma logs_rounds providers limit max_ended n cursor :
  0 < limit →
  logs (rounds providers limit max_ended n cursor) (λ r calls, ∀ count,
    steady count providers calls →
    ∃ found m, r = Some found ∧ 0 ≤ m ∧ reads_from count providers calls cursor m ∧
      (Forall (below max_ended) found →
       m = Z.of_nat n * Z.min limit (tracked_total count providers))).
Proof.
  intros Hlim. revert cursor. induction n as [|n IH]; intros cursor; simpl.
  { apply logs_ret. intros count Hs. exists [], 0. split_and!; [done|lia| |lia]. intros j Hj. lia. }
  apply logs_bind. eapply logs_mono; [by apply logs_ended_reads|]. intros r calls Hround.
  destruct r as [[ended cursor']|].
  2:{ intros count Hs. by destruct (Hround count Hs) as (? & ? & ? & _). }
  apply logs_bind. eapply logs_mono; [apply IH|]. intros r calls' Hrest. simpl in *.
  assert (H : ∀ count, steady count providers (calls ++ calls') → ∃ found m, r = Some found ∧ 0 ≤ m ∧
    reads_from count providers (calls ++ calls') cursor m ∧ (Forall (below max_ended) (ended :: found) →
      m = Z.of_nat (Datatypes.S n) * Z.min limit (tracked_total count providers))).
  { intros count Hs. destruct (steady_app _ _ _ _ Hs) as [Hs1 Hs2].
    destruct (Hround count Hs1) as (e & k & [= <- ->] & Hk & Hfull & Hread).
    destruct (Hrest count Hs2) as (found & m & -> & Hm & Hread' & Hfull').
    exists found, (k + m). split_and!; [done|lia| |].
    - eapply reads_from_app; [apply Hs|done|done|done].
    - intros [Hb Hbs]%Forall_cons. rewrite Hfull, Hfull' by done. lia. }
  destruct r as [found|].
  - apply logs_ret. rewrite app_nil_r. intros count (f & m & [= <-] & ?)%H. by exists (ended :: found), m.
  - intros count (f & m & ? & _)%H. done.
Qed.

(** C33: checks of ended agreements reach every agreement.  Over a manager that
    counts the same agreements each time, at least one and fewer than [2^63] of
    them, sweeps limited to [limit] checks do not panic, and once [n * limit]
    checks add up to what is tracked, with no round cut short by a full batch,
    the manager has been asked for each agreement of each provider, wherever the
    cursor started and whatever it answered to those questions. *)
Theorem every_agreement_is_checked providers limit max_ended n cursor count s r s' :
  0 < limit →
  rounds providers limit max_ended n cursor s = (r, s') →
  ∃ calls, es_log s' = es_log s ++ calls ∧
    (steady count providers calls →
     ∃ found, r = Some found ∧
       (Forall (below max_ended) found → tracked_total count providers ≤ Z.of_nat n * limit →
        ∀ p i, p ∈ providers → 0 ≤ i < count p → ∃ a, ReadAt p i a ∈ calls)).
Proof.
  intros Hlim Hrun.
  destruct (logs_run _ _ _ _ _ (logs_rounds providers limit max_ended n cursor Hlim) Hrun)
    as (calls & E & H). exists calls. split; [done|]. intros Hs.
  destruct (H count Hs) as (found & m & -> & Hm & Hread & Hfull). exists found. split; [done|].
  intros Hb Hn p i Hp Hi. rewrite Hfull in Hread by done. destruct Hs as [_ Hnn Ht _].
  set (total := tracked_total count providers) in *.
  destruct (locate_reaches (laid_out count providers) p i (count p)) as (pos & Hpos & Hl).
  { apply list_elem_of_fmap. by exists p. } { by apply Forall_fmap, Forall_true. } { done. }
  rewrite laid_out_counts in Hpos. fold (tracked_total count providers) total in Hpos.
  destruct (Hread ((pos - cursor) mod total)) as (q & k & a & Hl' & Hin).
  { pose proof (Z.mod_pos_bound (pos - cursor) total Ht).
    assert (1 ≤ Z.of_nat n) by (destruct n; lia).
    destruct (Z.min_spec limit total) as [[? ->]|[? ->]]; [lia|nia]. }
  rewrite Z.add_mod_idemp_r in Hl' by lia. replace (cursor + (pos - cursor)) with pos in Hl' by lia.
  fold total in Hl'. rewrite Z.mod_small in Hl' by apply Hpos. rewrite Hl in Hl'.
  injection Hl' as <- <-. by exists a.
Qed.
End logs.

(** ** Witnesses *)

(** Two providers: one, whose thaw is over, with agreements 11 and 12, the first
    ended; the other with agreement 21, due its rebalance.  A reconcile of the
    second fails. *)
Definition demo_count (p : N) : Z := if (p =? 5)%N then 2 else 1.
Definition demo_providers : list N := [5; 6]%N.
#[local] Instance demo_reader : ManagerEscrowReader () := {
  tracked_providers _ c := (Ok (mkTracked demo_providers true), c);
  escrow_account _ p c := (Ok (mkAccount 10 (if (p =? 5)%N then 3 else 0) 900), c);
  tracked_agreement_count _ p c := (Ok (demo_count p), c);
  tracked_agreement_at _ p i c := (Ok (if (p =? 5)%N then Z.to_N (11 + i) else 21%N), c);
  max_next_claim _ id c := (Ok (if (id =? 11)%N then 0 else 7), c) }.
#[local] Instance demo_sender : ReconcileClient () := {
  reconcile_provider _ p c := (if (p =? 6)%N then Err RpcError else Ok (Some 99%N), c);
  reconcile_agreement _ id c := (Ok (Some 98%N), c) }.
#[local] Instance demo_chain_clock : ChainClock () := λ c, (Ok 1000, c).

Definition demo_escrow : EscrowReconcilerConfig :=
  mkEscrowConfig true (from_secs 60) 5 (from_secs 100) 2.
Definition no_stops : Stops := mkStops false false (λ _, None) false (λ _, None).
Definition demo_estate : EState () := mkEState tt [].

Lemma escrow_sends_only_what_is_due_witness :
  let run := sweep 1%N demo_escrow no_stops default_schedule 0 demo_estate in
  sent_agreements (es_log run.2) = [11%N] ∧ sent_providers (es_log run.2) = [5; 6]%N ∧
  escrow_sweep_ok demo_escrow default_schedule (es_log run.2).
Proof.
  intros run. split; [vm_compute; reflexivity|]. split; [vm_compute; reflexivity|].
  destruct run as [r s'] eqn:E.
  destruct (escrow_sends_only_what_is_due 1%N demo_escrow no_stops default_schedule 0 demo_estate
    r s' E) as (calls & El & H).
  simpl. rewrite El. exact H.
Defined.

(** The conditions on the log, as tests of its entries. *)
Definition demo_entry (c : escrow_call) : bool :=
  match c with
  | ReadTracked (Ok tracked) => bool_decide (6%N ∈ tp_providers tracked)
  | ReadHead (Ok now) => now + 100 <=? u64_max
  | ReadCount p (Ok n) => n =? demo_count p
  | ReadCount p (Err _) => false
  | _ => true
  end.

Lemma demo_listed calls : forallb demo_entry calls = true → listed_always demo_escrow 6%N calls.
Proof.
  intros H. split; intros x Hx; apply list_elem_of_In in Hx;
    apply (proj1 (forallb_forall _ _) H) in Hx; simpl in Hx.
  - by apply bool_decide_eq_true in Hx.
  - by apply Z.leb_le in Hx.
Defined.

Lemma demo_steady calls : forallb demo_entry calls = true → steady demo_count demo_providers calls.
Proof.
  intros H. split; [|intros p; unfold demo_count; destruct (_ =? _)%N; lia|done|done].
  intros p a Hx. apply list_elem_of_In in Hx. apply (proj1 (forallb_forall _ _) H) in Hx.
  destruct a as [n|]; simpl in Hx; [|done]. apply Z.eqb_eq in Hx. by subst n.
Defined.

(** Covered up to 850, owing nothing: provider 6's slot at 900 comes due in the
    first sweep, its reconcile fails in both, and it is owed at the end. *)
Definition covered_schedule : RebalanceSchedule := mkRebalance (Some 850) ∅.

Lemma no_rebalance_is_lost_witness :
  let run := escrow_sweeps 1%N demo_escrow [no_stops; no_stops] covered_schedule 0 demo_estate in
  ∃ sch' cursor', run.1 = Some (Some (sch', cursor')) ∧ rs_covered_until sch' = Some 1000 ∧
    slot 6%N 100 900 ∧ (6%N ∈ rs_owed sch' ∨ rebalanced 6%N (es_log run.2)) ∧
    sent_providers (es_log run.2) = [5; 6; 5; 6]%N.
Proof.
  intros run. destruct run as [[[[sch' cursor']|]|] s'] eqn:E; [|vm_compute in E; discriminate..].
  exists sch', cursor'. split; [reflexivity|].
  destruct (no_rebalance_is_lost 1%N demo_escrow [no_stops; no_stops] covered_schedule 0 6%N
    demo_estate sch' cursor' s' E) as (calls & El & H).
  simpl in El. simpl. rewrite <- El in H.
  destruct H as [_ H].
  { apply demo_listed. vm_compute in E. injection E as _ _ <-. vm_compute. reflexivity. }
  destruct (H 850) as (c1 & Hc1 & _ & Hslot); [reflexivity|lia|vm_compute; discriminate|reflexivity|].
  assert (Hc : rs_covered_until sch' = Some 1000)
    by (vm_compute in E; injection E as <- _ _; reflexivity).
  rewrite Hc in Hc1. injection Hc1 as <-. split; [exact Hc|]. split; [reflexivity|]. split.
  - apply (Hslot 900); [lia|reflexivity].
  - vm_compute in E. injection E as _ _ <-. vm_compute. reflexivity.
Defined.

(** Two rounds of two checks read all three agreements, from a cursor in the
    middle. *)
Lemma every_agreement_is_checked_witness :
  let run := rounds 1%N demo_providers 2 (Some 5) 2 1 demo_estate in
  run.1 = Some [[]; [11%N]] ∧ (∃ a, ReadAt 5%N 0 a ∈ es_log run.2).
Proof.
  intros run. destruct run as [r s'] eqn:E. split; [vm_compute in E; injection E as <- _; reflexivity|].
  destruct (every_agreement_is_checked 1%N demo_providers 2 (Some 5) 2 1 demo_count demo_estate r s'
    ltac:(lia) E) as (calls & El & H). simpl in *. rewrite El.
  destruct H as (found & Hr & H).
  { apply demo_steady. rewrite <- El. vm_compute in E. injection E as _ <-. vm_compute. reflexivity. }
  apply H.
  - vm_compute in E. injection E as <- _. injection Hr as <-. repeat constructor.
  - vm_compute. discriminate.
  - left.
  - vm_compute. split; [discriminate|reflexivity].
Defined.

End EscrowProps.
