(* ===== verification/AdminRpc.v ===== *)
(** * The admin RPC
    (bin/dipper-service/src/admin_rpc_server/handlers, dipper-rpc/src/admin)

    Gateway operators set how many indexers a deployment should have and read
    requests and agreements back.  A target is accepted only when it is signed by
    an allowlisted address; recovering the signer of a message is a library call
    over the message's Solidity struct and a parameter here.  An error is a code
    and a text. *)

From S2P Require Import Prelude Schema Registry RegistryRuns RegistryQueries JobQueue Worker.
From S2P Require Import CancelDispatch CancelDispatchProps Services.
Import Schema Registry RegistryRuns RegistryQueries JobQueue Worker.
Import CancelDispatch CancelDispatchProps Services.
From stdpp Require Import pretty.
Local Open Scope Z_scope.

Module AdminRpc.

Record ErrorObject : Type := mkErrorObject { eo_code : Z; eo_message : string }.

Definition unauthorized : ErrorObject := mkErrorObject 401 "Unauthorized".
Definition forbidden : ErrorObject := mkErrorObject 403 "Forbidden".
Definition not_found : ErrorObject := mkErrorObject 404 "Not found".
Definition internal_error : ErrorObject := mkErrorObject 500 "Internal server error".
Definition unavailable : ErrorObject := mkErrorObject 503 "Service unavailable".

Definition MAX_NUM_CANDIDATES : Z := 100.
Definition too_many (n : Z) : ErrorObject :=
  mkErrorObject 400 ("num_candidates must be at most " +:+ pretty MAX_NUM_CANDIDATES +:+
    ", got " +:+ pretty n).

(** ** Messages *)

Record SetIndexingTargetCandidates : Type := mkSetTarget {
  stc_deployment_id : N;
  stc_chain_id : Z;
  stc_num_candidates : option Z }.

(** What is signed. *)
Record SetIndexingTargetCandidatesSol : Type := mkSetTargetSol {
  sol_deployment_id : N;
  sol_chain_id : Z;
  sol_num_candidates : Z }.

Definition to_sol_struct (m : SetIndexingTargetCandidates) : SetIndexingTargetCandidatesSol :=
  mkSetTargetSol (stc_deployment_id m) (stc_chain_id m) (default 0 (stc_num_candidates m)).

(** The answers: a request and an agreement as operators see them. *)
Inductive WireRequestStatus : Type := WireOpen | WireCanceled | WireUnknownRequest.

Record WireRequest : Type := mkWireRequest {
  wr_id : N; wr_created_at : Z; wr_updated_at : Z; wr_status : WireRequestStatus;
  wr_requested_by : N; wr_deployment_id : N }.

(** The conversion is total because the registry hands out known statuses
    only. *)
Definition into_indexing_request_status (s : RequestStatus) : WireRequestStatus :=
  match s with
  | Open => WireOpen
  | Canceled => WireCanceled
  | UnknownRequestStatus => WireUnknownRequest
  end.

Definition into_indexing_request (r : IndexingRequest) : WireRequest :=
  mkWireRequest (ir_id r) (ir_created_at r) (ir_updated_at r)
    (into_indexing_request_status (ir_status r)) (ir_requested_by r) (ir_deployment_id r).

Record WireAgreement : Type := mkWireAgreement {
  wa_id : N; wa_created_at : Z; wa_updated_at : Z; wa_status : AgreementStatus;
  wa_indexing_request_id : N; wa_indexer_id : N; wa_indexer_url : string;
  wa_deadline : Z; wa_ends_at : Z; wa_rejection_reason : option string }.

Definition into_indexing_agreement (a : IndexingAgreement) : WireAgreement :=
  mkWireAgreement (ia_id a) (ia_created_at a) (ia_updated_at a) (ia_status a)
    (ia_indexing_request_id a) (ix_id (ia_indexer a)) (ix_url (ia_indexer a))
    (t_deadline (ia_terms a)) (t_ends_at (ia_terms a)) (ia_rejection_reason a).

(** A request was received: the lifecycle event. *)
Record RequestReceived : Type := mkReceived {
  rr_deployment_id : N; rr_network : Z; rr_agreements_requested : Z }.

(** ** Reading *)

Definition handle_optional_result {E T U} (r : result E (option T)) (transform : T → U)
    : result ErrorObject U :=
  match r with
  | Ok (Some value) => Ok (transform value)
  | Ok None => Err not_found
  | Err _ => Err unavailable
  end.

Definition handle_list_result {E T U} (r : result E (list T)) (transform : T → U)
    : result ErrorObject (list U) :=
  match r with Ok items => Ok (transform <$> items) | Err _ => Err unavailable end.

Record SignedMessage (Sig : Type) : Type := mkSigned {
  sm_message : SetIndexingTargetCandidates;
  sm_signature : Sig }.
Arguments mkSigned {Sig} _ _.
Arguments sm_message {Sig} _.
Arguments sm_signature {Sig} _.

Record AdminCtx : Type := mkAdminCtx {
  ac_signer_chain : Z;
  ac_gateway_operator_allowlist : gset N;
  ac_max_candidates : Z }.

Section admin.
Context {C W : Type} `{!ChainClient C} `{!MessageQueue W}.
Notation S := (S C W).

Definition rpc_all_indexing_requests : S (result ErrorObject (list WireRequest)) :=
  r ← pg (λ _, provider_requests get_all_indexing_requests);
  mret (handle_list_result r into_indexing_request).

Definition rpc_indexing_request_by_id (id : N) : S (result ErrorObject WireRequest) :=
  r ← pg (λ _, provider_request_by_id id);
  mret (handle_optional_result r into_indexing_request).

Definition rpc_indexing_requests_by_deployment_id (deployment : N)
    : S (result ErrorObject (list WireRequest)) :=
  r ← pg (λ _, provider_requests (get_indexing_requests_by_deployment_id deployment));
  mret (handle_list_result r into_indexing_request).

Definition rpc_agreement_by_id (id : N) : S (result ErrorObject WireAgreement) :=
  r ← pg (λ _, provider_agreement_by_id id);
  mret (handle_optional_result r into_indexing_agreement).

Definition rpc_agreements_by_deployment_id (deployment : N)
    : S (result ErrorObject (list WireAgreement)) :=
  r ← pg (λ _, provider_agreements (get_indexing_agreements_by_deployment_id deployment));
  mret (handle_list_result r into_indexing_agreement).

Definition rpc_agreements_by_indexer_id (indexer : N)
    : S (result ErrorObject (list WireAgreement)) :=
  r ← pg (λ _, provider_agreements (get_indexing_agreements_by_indexer_id indexer));
  mret (handle_list_result r into_indexing_agreement).

Definition rpc_agreements_by_indexing_request_id (request : N)
    : S (result ErrorObject (list WireAgreement)) :=
  r ← pg (λ _, provider_agreements (get_indexing_agreements_by_indexing_request_id request));
  mret (handle_list_result r into_indexing_agreement).

(** ** Setting a target *)

(** [Err None]: a count too large for the column. *)
Definition provider_set_indexing_target_candidates (new_id requested_by deployment : N)
    (chain_id num_candidates : Z) : S (result (option Error) SetTargetOutcome) :=
  if i32_max <? num_candidates then mret (Err None)
  else
    r ← pg (λ now, set_indexing_target_candidates now new_id requested_by deployment chain_id
                     num_candidates);
    mret (match r with Ok out => Ok out | Err e => Err (Some e) end).

(** The request's id and the count to reassess it to. *)
Definition follow_up (num_candidates : Z) (out : SetTargetOutcome) : option N * option Z :=
  match out with
  | TargetInserted id => (Some id, Some num_candidates)
  | TargetUpdated id new_num_candidates => (Some id, Some new_num_candidates)
  | TargetNoOp id => (Some id, None)
  | TargetCanceled id => (Some id, Some 0)
  | TargetNoOpAlreadyEmpty => (None, None)
  end.

(** The events emitted on the way. *)
Definition received (ctx : AdminCtx) (deployment : N) (agreements_requested : Z)
    (out : SetTargetOutcome) : list RequestReceived :=
  match out with
  | TargetInserted _ => [mkReceived deployment (ac_signer_chain ctx) agreements_requested]
  | _ => []
  end.

Context {Sig : Type} (recover_signer_address : SetIndexingTargetCandidatesSol → Sig → option N).

(** With the id a new request would get. *)
Definition rpc_set_indexing_target_candidates (ctx : AdminCtx) (new_id : N)
    (req : SignedMessage Sig) : S (result ErrorObject (option N) * list RequestReceived) :=
  match recover_signer_address (to_sol_struct (sm_message req)) (sm_signature req) with
  | None => mret (Err unauthorized, [])
  | Some requested_by =>
      if negb (bool_decide (requested_by ∈ ac_gateway_operator_allowlist ctx))
      then mret (Err forbidden, [])
      else
        let deployment := stc_deployment_id (sm_message req) in
        let chain_id := stc_chain_id (sm_message req) in
        let num_candidates := default (ac_max_candidates ctx)
                                (stc_num_candidates (sm_message req)) in
        if (i32_max <? num_candidates) || (MAX_NUM_CANDIDATES <? num_candidates)
        then mret (Err (too_many num_candidates), [])
        else
          r ← provider_set_indexing_target_candidates new_id requested_by deployment chain_id
                num_candidates;
          match r with
          | Err _ => mret (Err unavailable, [])
          | Ok out =>
              let events := received ctx deployment num_candidates out in
              match follow_up num_candidates out with
              | (Some id, Some count) =>
                  queued ← queue_reassess_indexing_request id deployment chain_id count Interactive;
                  mret (if queued : bool then Ok (Some id) else Err internal_error, events)
              | (id_opt, _) => mret (Ok id_opt, events)
              end
          end
  end.

End admin.

End AdminRpc.
