(* ===== verification/AdminRpcProps.v ===== *)
(** * What the admin RPC does

    A target call changes nothing unless an allowlisted operator signed it and
    the count is in range; then the target is the one asked for and one
    reassessment is queued exactly when that changed it.  Repeating a call whose
    reassessment could not be queued does not queue it. *)

From S2P Require Import Prelude Schema Registry RegistryInv RegistryRuns RegistryOps RegistryQueries.
From S2P Require Import JobQueue Worker CancelDispatch CancelDispatchProps ChainReconcile Services RowOps.
From S2P Require Import AdminRpc.
Import Schema Registry RegistryInv RegistryRuns RegistryOps RegistryQueries.
Import JobQueue Worker CancelDispatch CancelDispatchProps ChainReconcile Services RowOps
  AdminRpc.
Local Open Scope Z_scope.

Module AdminRpcProps.

(** ** The registry's part *)

Definition target_after (n : Z) : option Z := if n =? 0 then None else Some n.

(** The key's target becomes [n] and nothing else changes. *)
Definition assigns (key : request_key) (n : Z) (d d' : Db) : Prop :=
  d' = set_requests (requests d') d ∧
  ∀ k, target d' k = if bool_decide (k = key) then target_after n else target d k.

(** [id] is a request under this key. *)
Definition names (key : request_key) (d : Db) (id : N) : Prop :=
  ∃ r, requests d !! id = Some r ∧ row_key r = key.

(** What setting the key's target answers, by what the target was. *)
Inductive target_outcome (key : request_key) (n : Z) (d d' : Db) : SetTargetOutcome → Prop :=
| OutEmpty : target d key = None → n = 0 → d' = d → target_outcome key n d d' TargetNoOpAlreadyEmpty
| OutInserted id : target d key = None → n ≠ 0 → names key d' id →
    target_outcome key n d d' (TargetInserted id)
| OutSame id : target d key = Some n → names key d id → d' = d → target_outcome key n d d' (TargetNoOp id)
| OutCanceled id m : target d key = Some m → m ≠ n → n = 0 → names key d' id →
    target_outcome key n d d' (TargetCanceled id)
| OutUpdated id m : target d key = Some m → m ≠ n → n ≠ 0 → names key d' id →
    target_outcome key n d d' (TargetUpdated id n).

Lemma target_positive d key n : reg_inv d → target d key = Some n → 0 < n.
Proof.
  intros Hd. unfold target. destruct (current (requests d) key) as [r|] eqn:Hc; [|done].
  intros [= <-]. apply current_Some in Hc as (k & Hk & _); [|apply Hd]. by eapply inv_candidates.
Qed.

Lemma write_request_names id row d a d' :
  write_request id row d = (Ok a, d') → names (row_key row) d' id.
Proof.
  unfold write_request. repeat case_match; intros [=]; subst; exists row; simpl; by rewrite lookup_insert_eq.
Qed.

Lemma set_target_outcome now new_id q dep c n d out d' :
  reg_inv d → set_indexing_target_candidates now new_id q dep c n d = (Ok out, d') →
  target_outcome (q, dep, c) n d d' out.
Proof.
  intros Hd. unfold set_indexing_target_candidates, transaction. rewrite bind_run. cbn [get].
  change (head _) with (current (requests d) (q, dep, c)).
  destruct (current (requests d) (q, dep, c)) as [e|] eqn:Hc.
  - assert (Ht : target d (q, dep, c) = Some (rq_num_candidates e)) by (unfold target; by rewrite Hc).
    apply current_Some in Hc as (k & Hk & He); [|apply Hd].
    rewrite (inv_request_key _ Hd k e Hk). apply key_is_spec in He as [Ho Hkey].
    destruct (Z.eqb_spec (rq_num_candidates e) n) as [Hn|Hn].
    { intros [= <- <-]. constructor; [congruence|by exists e|done]. }
    destruct (Z.eqb_spec n 0) as [Hz|Hz]; rewrite bind_run; unfold update_request; rewrite bind_run;
      cbn [get]; rewrite Hk; destruct (write_request _ _ _) as [[[]|err] d1] eqn:Hw; intros [=]; subst;
      apply write_request_names in Hw; unfold row_key in Hw; simpl in Hw; rewrite <- Hkey in Hw;
      by econstructor.
  - assert (Ht : target d (q, dep, c) = None) by (unfold target; by rewrite Hc).
    destruct (Z.eqb_spec n 0) as [Hz|Hz]; [intros [= <- <-]; by constructor|].
    rewrite bind_run. unfold insert_request. rewrite bind_run. cbn [get]. simpl.
    destruct (requests d !! new_id) as [r|]; [done|].
    destruct (write_request _ _ _) as [[[]|err] d1] eqn:Hw; intros [=]; subst.
    apply write_request_names in Hw. by constructor.
Qed.

(** ** A call *)

Section admin.
Context {C W : Type} `{!ChainClient C} `{!MessageQueue W}.
Context {Sig : Type} (recover : SetIndexingTargetCandidatesSol → Sig → option N).
Notation SState := (SState C W).

Definition asked_for (ctx : AdminCtx) (req : SignedMessage Sig) : Z :=
  default (ac_max_candidates ctx) (stc_num_candidates (sm_message req)).

(** Who asks, or why the call is refused. *)
Definition admitted (ctx : AdminCtx) (req : SignedMessage Sig) : result ErrorObject N :=
  match recover (to_sol_struct (sm_message req)) (sm_signature req) with
  | None => Err unauthorized
  | Some q =>
      if bool_decide (q ∈ ac_gateway_operator_allowlist ctx)
      then if asked_for ctx req <=? MAX_NUM_CANDIDATES then Ok q
           else Err (too_many (asked_for ctx req))
      else Err forbidden
  end.

(** What an admitted call does to the state it finds. *)
Inductive target_call (ctx : AdminCtx) (q : N) (req : SignedMessage Sig) (s s' : SState)
    : result ErrorObject (option N) → list RequestReceived → Prop :=
| CallUnchanged id_opt :
    let key := (q, stc_deployment_id (sm_message req), stc_chain_id (sm_message req)) in
    target (sdb s) key = target_after (asked_for ctx req) →
    (if id_opt is Some id then names key (sdb s) id else asked_for ctx req = 0) →
    sdb s' = sdb s → ss_pushes s' = ss_pushes s → target_call ctx q req s s' (Ok id_opt) []
| CallChanged id queued :
    let key := (q, stc_deployment_id (sm_message req), stc_chain_id (sm_message req)) in
    target (sdb s) key ≠ target_after (asked_for ctx req) →
    assigns key (asked_for ctx req) (sdb s) (sdb s') → names key (sdb s') id →
    ss_pushes s' = ss_pushes s ++
      [(ReassessIndexingRequest id key.1.2 key.2 (asked_for ctx req), Interactive, queued)] →
    target_call ctx q req s s' (if queued : bool then Ok (Some id) else Err internal_error)
      (if target (sdb s) key is None
       then [mkReceived key.1.2 (ac_signer_chain ctx) (asked_for ctx req)] else [])
| CallLost :
    let key := (q, stc_deployment_id (sm_message req), stc_chain_id (sm_message req)) in
    ¬ fine s → sdb s' = sdb s ∨ assigns key (asked_for ctx req) (sdb s) (sdb s') →
    ss_pushes s' = ss_pushes s → target_call ctx q req s s' (Err unavailable) [].

Lemma wp_statement_lost {A} (m : Z → DbM A) (Q : result Error A → SState → Prop) s :
  (∀ r s', aside s s' → m (snow s) (sdb s) = (r, sdb s') → Q r s') →
  (∀ s', aside s s' → ¬ fine s → sdb s' = sdb s ∨ sdb s' = (m (snow s) (sdb s)).2 →
    Q (Err (DbError ConnectionLost)) s') →
  wp (statement m) Q s.
Proof.
  intros Hok Hlost. destruct (pg_faults (st_reg (ss_dispatch s))) as [|f fs] eqn:Hf.
  - unfold wp, statement, on_dispatch, registry, pg_call. rewrite Hf.
    destruct (m (pg_now (st_reg (ss_dispatch s))) (pg_db (st_reg (ss_dispatch s)))) as [r d] eqn:Hm.
    simpl. apply Hok; [by split|done].
  - apply wp_statement; [done|]. intros s' Ha Hd. apply Hlost; [done| |done]. unfold fine. by rewrite Hf.
Qed.

Lemma refused_call ctx new_id req e (s : SState) :
  admitted ctx req = Err e →
  rpc_set_indexing_target_candidates recover ctx new_id req s = ((Err e, []), s).
Proof.
  unfold admitted, rpc_set_indexing_target_candidates.
  destruct (recover _ _) as [q|]; [|by intros [= <-]].
  case_bool_decide; simpl; [|by intros [= <-]]. fold (asked_for ctx req).
  destruct (Z.leb_spec (asked_for ctx req) MAX_NUM_CANDIDATES) as [|Hlt]; [done|].
  intros [= <-]. destruct (Z.ltb_spec MAX_NUM_CANDIDATES (asked_for ctx req)); [|lia].
  by rewrite orb_true_r.
Qed.

Lemma wp_changed ctx q req (s s1 : SState) id count events :
  let key := (q, stc_deployment_id (sm_message req), stc_chain_id (sm_message req)) in
  aside s s1 → count = asked_for ctx req →
  events = (if target (sdb s) key is None
            then [mkReceived key.1.2 (ac_signer_chain ctx) (asked_for ctx req)] else []) →
  target (sdb s) key ≠ target_after (asked_for ctx req) →
  assigns key (asked_for ctx req) (sdb s) (sdb s1) → names key (sdb s1) id →
  wp (queued ← queue_reassess_indexing_request id (stc_deployment_id (sm_message req))
        (stc_chain_id (sm_message req)) count Interactive;
      mret (if queued : bool then Ok (Some id) else Err internal_error, events))
    (λ r s', sdb s' = sdb s1 ∧ target_call ctx q req s s' r.1 r.2) s1.
Proof.
  intros key Ha -> -> Hne Has Hn. apply wp_bind, wp_push. intros queued s' Hd Hp _. apply wp_ret. simpl.
  assert (Hs : sdb s' = sdb s1) by (unfold sdb; by rewrite Hd).
  split; [done|].
  apply CallChanged; [done|by rewrite Hs|by rewrite Hs|by rewrite Hp, (as_pushes _ _ Ha)].
Qed.

Lemma wp_target_call ctx new_id q req (s : SState) :
  admitted ctx req = Ok q → reg_inv (sdb s) → others_ok s → 0 ≤ asked_for ctx req →
  requests (run_ops (hd [] (ss_others s)) (sdb s)) !! new_id = None →
  wp (rpc_set_indexing_target_candidates recover ctx new_id req)
    (λ r s', reg_inv (sdb s') ∧ ∃ s1, interfered s s1 ∧ (fine s → fine s1) ∧
       target_call ctx q req s1 s' r.1 r.2) s.
Proof.
  unfold admitted, rpc_set_indexing_target_candidates. intros Had Hi Ho Hnn Hnew.
  destruct (recover _ _) as [q'|]; [|done]. case_bool_decide; [|done]. simpl.
  destruct (Z.leb_spec (asked_for ctx req) MAX_NUM_CANDIDATES) as [Hmax|]; [|done].
  injection Had as ->. fold (asked_for ctx req). unfold MAX_NUM_CANDIDATES in *.
  rewrite (proj2 (Z.ltb_ge _ _) Hmax), (proj2 (Z.ltb_ge i32_max _)) by (unfold i32_max; lia). simpl.
  apply wp_bind. unfold provider_set_indexing_target_candidates.
  rewrite (proj2 (Z.ltb_ge i32_max _)) by (unfold i32_max; lia).
  apply wp_bind, wp_bind. unfold wp at 1. simpl. set (s1 := {| ss_dispatch := _ |}).
  assert (H1 : interfered s s1) by by split.
  assert (Hf1 : fine s → fine s1) by done.
  destruct (interfered_inv _ _ H1 Hi Ho) as [Hi1 _].
  rewrite <- (if_db _ _ H1) in Hnew. clearbody s1.
  destruct (set_target_refines (snow s1) new_id q (stc_deployment_id (sm_message req))
    (stc_chain_id (sm_message req)) (asked_for ctx req) (sdb s1) Hi1 Hnew Hnn)
    as (out & d' & Hset & Hreq & Htgt).
  set (key := (q, stc_deployment_id (sm_message req), stc_chain_id (sm_message req))) in *.
  assert (Has : assigns key (asked_for ctx req) (sdb s1) d') by by split.
  assert (Hi' : reg_inv d') by (eapply keeps_inv; [intros d0; apply set_target_inv|exact Hi1|exact Hset]).
  apply wp_statement_lost.
  2:{ intros s' Ha Hf Hd. rewrite Hset in Hd. apply wp_ret, wp_ret.
      split; [by destruct Hd as [->| ->]|]. exists s1. split; [done|]. split; [done|].
      apply CallLost; [done| |by apply Ha]. by destruct Hd as [->| ->]; [left|right]. }
  intros r s2 Ha Hr. rewrite Hset in Hr. injection Hr as <- Hd2. apply wp_ret.
  apply (set_target_outcome _ _ _ _ _ _ _ _ _ Hi1) in Hset. fold key in Hset.
  eapply wp_mono with (Q := λ r s', sdb s' = sdb s2 ∧ target_call ctx q req s1 s' r.1 r.2);
    [|intros r s' [Hs' H']; rewrite Hs', <- Hd2; split; [done|exists s1; by split_and!]].
  rewrite Hd2 in Has, Hset. pose proof (wp_changed ctx q req s1 s2) as Hch. fold key in Hch.
  unfold target_after in Hch.
  destruct Hset as [Ht Hz Hd|id Ht Hz Hn|id Ht Hn Hd|id m Ht Hm Hz Hn|id m Ht Hm Hz Hn]; simpl;
    rewrite ?Ht in Hch.
  - apply wp_ret; split; [done|]; apply CallUnchanged; [unfold target_after; by rewrite Hz|done|done|by apply Ha].
  - apply Hch; [done..| |done|done]. by rewrite (proj2 (Z.eqb_neq _ _) Hz).
  - apply wp_ret; split; [done|]; apply CallUnchanged; [|done|done|by apply Ha]. unfold target_after. fold key. rewrite Ht.
    apply target_positive in Ht; [|done]. destruct (Z.eqb_spec (asked_for ctx req) 0); [lia|done].
  - apply Hch; [done..| |done|done]. by rewrite Hz.
  - apply Hch; [done..| |done|done]. rewrite (proj2 (Z.eqb_neq _ _) Hz). congruence.
Qed.

(** C12: a call that sets a target.  Unless the message's recovered signer is
    allowlisted and the count, or the configured default, is at most 100, nothing
    is stored, queued or announced and the answer says why.  Otherwise, on the
    database as other tasks left it, either the key already had that target and
    nothing happens; or its target becomes exactly that count (none, for zero),
    no other key's target changes, one interactive reassessment of the key's
    request with that count is pushed, the answer is the request's id or 500 by
    whether the queue took it, and an event is sent only for a key that had no
    target; or the connection was lost and the answer is 503. *)
Theorem target_calls_answer_truly ctx new_id req (s : SState) res events s' :
  reg_inv (sdb s) → others_ok s → 0 ≤ asked_for ctx req →
  requests (run_ops (hd [] (ss_others s)) (sdb s)) !! new_id = None →
  rpc_set_indexing_target_candidates recover ctx new_id req s = ((res, events), s') →
  match admitted ctx req with
  | Err e => res = Err e ∧ events = [] ∧ s' = s
  | Ok q => ∃ s1, interfered s s1 ∧ (fine s → fine s1) ∧ target_call ctx q req s1 s' res events
  end.
Proof.
  intros Hi Ho Hn Hnew Hrun. destruct (admitted ctx req) as [q|e] eqn:Had.
  - exact (proj2 (wp_run _ _ _ _ _ (wp_target_call _ _ _ _ _ Had Hi Ho Hn Hnew) Hrun)).
  - rewrite (refused_call _ _ _ _ _ Had) in Hrun. by injection Hrun as <- <- <-.
Qed.

(** A reassessment that could not be queued is not queued by calling again.
    After a call that was answered 500, the same call on the database it left,
    with the queue working and no connection lost, is answered as a success and
    pushes nothing. *)
Theorem repeating_a_500_queues_nothing ctx new_id new_id' req 
    (s s1 s2 s3 : SState) events res events' :
  reg_inv (sdb s) → alone s → 0 ≤ asked_for ctx req →
  requests (sdb s) !! new_id = None → requests (sdb s1) !! new_id' = None →
  rpc_set_indexing_target_candidates recover ctx new_id req s = ((Err internal_error, events), s1) →
  sdb s2 = sdb s1 → alone s2 → fine s2 →
  rpc_set_indexing_target_candidates recover ctx new_id' req s2 = ((res, events'), s3) →
  (∃ id_opt, res = Ok id_opt) ∧ events' = [] ∧ ss_pushes s3 = ss_pushes s2 ∧ sdb s3 = sdb s1.
Proof.
  intros Hi Ha Hn Hnew Hnew' Hrun Hdb Ha2 Hf2 Hrun2. unfold alone in *.
  destruct (admitted ctx req) as [q|e] eqn:Had.
  2:{ rewrite (refused_call _ _ _ _ _ Had) in Hrun. injection Hrun as -> _ _.
      unfold admitted in Had. by repeat case_match. }
  assert (Ho : others_ok s) by (unfold others_ok; by rewrite Ha).
  assert (Hno : requests (run_ops (hd [] (ss_others s)) (sdb s)) !! new_id = None) by (by rewrite Ha).
  destruct (wp_run _ _ _ _ _ (wp_target_call _ _ _ _ _ Had Hi Ho Hn Hno) Hrun)
    as (Hi1 & s0 & _ & _ & Hcall). simpl in Hcall.
  assert (Ht : target (sdb s2) (q, stc_deployment_id (sm_message req), stc_chain_id (sm_message req))
    = target_after (asked_for ctx req)).
  { rewrite Hdb. remember (Err internal_error) as r eqn:Hr.
    destruct Hcall as [|id queued key Hne [_ Has] Hnames Hp|]; [done| |done].
    rewrite Has. by rewrite bool_decide_eq_true_2. }
  rewrite <- Hdb in Hi1, Hnew'.
  assert (Ho2 : others_ok s2) by (unfold others_ok; by rewrite Ha2).
  assert (Hno2 : requests (run_ops (hd [] (ss_others s2)) (sdb s2)) !! new_id' = None) by (by rewrite Ha2).
  destruct (wp_run _ _ _ _ _ (wp_target_call _ _ _ _ _ Had Hi1 Ho2 Hn Hno2) Hrun2)
    as (_ & s0' & [D _ P _ _ _] & Hf & Hcall2). rewrite Ha2 in D. simpl in D, Hcall2.
  destruct Hcall2 as [id_opt key _ _ Hd Hp|id queued key Hne|key Hl]; [|by rewrite D in Hne|by destruct Hl; auto].
  split; [by exists id_opt|]. split; [done|]. split; congruence.
Qed.

End admin.

(** ** Witnesses *)

(** A signature is the signer's address; the signed struct does not matter to
    it. *)
Definition demo_recover (_ : SetIndexingTargetCandidatesSol) (sig : N) : option N :=
  if (sig =? 0)%N then None else Some sig.
Definition demo_ctx : AdminCtx := mkAdminCtx 42161 {[5%N]} 10.
(** Operator 5 has a target of 2 on deployment 7, with agreement 11 accepted. *)
Definition demo_targets : Db := run_ops demo_start empty_db.
Definition set_to (n : option Z) : SignedMessage N := mkSigned (mkSetTarget 7%N 42161 n) 5%N.

(** A queue that refuses every job. *)
#[local] Instance RefusingQueue : MessageQueue () := {|
  mq_push _ _ _ q := (false, q); mq_unfinished q := (None, q) |}.
Definition refusing_run (d : Db) : SState Script () :=
  mkSState (mkState (mkPg d 100 []) (mkScript [] []) []) tt [] [].

Lemma demo_targets_inv : reg_inv demo_targets.
Proof. apply reachable_reg_inv, demo_start_reachable. Defined.

Lemma target_calls_answer_truly_witness :
  let run := rpc_set_indexing_target_candidates demo_recover demo_ctx 90%N (set_to (Some 3))
               (demo_run demo_targets [] []) in
  run.1 = (Ok (Some 1%N), []) ∧
  ∃ s1, target (sdb s1) (5%N, 7%N, 42161) = Some 2 ∧
    target_call demo_ctx 5%N (set_to (Some 3)) s1 run.2 run.1.1 run.1.2.
Proof.
  intros run. split; [vm_compute; reflexivity|]. destruct run as [[res events] s'] eqn:E.
  destruct (target_calls_answer_truly demo_recover demo_ctx 90%N (set_to (Some 3))
    (demo_run demo_targets [] []) res events s' demo_targets_inv ltac:(constructor)
    ltac:(vm_compute; discriminate) ltac:(vm_compute; reflexivity) E) as (s1 & H1 & _ & Hc).
  exists s1. split; [|exact Hc]. rewrite (if_db _ _ H1). vm_compute. reflexivity.
Defined.

(** A cancel whose reassessment was refused: the repeat finds nothing to cancel,
    while the agreement is still accepted. *)
Lemma repeating_a_500_queues_nothing_witness :
  let cancel := rpc_set_indexing_target_candidates demo_recover demo_ctx 90%N (set_to (Some 0))
                  (refusing_run demo_targets) in
  let repeat := rpc_set_indexing_target_candidates demo_recover demo_ctx 91%N (set_to (Some 0))
                  (refusing_run (sdb cancel.2)) in
  cancel.1.1 = Err internal_error ∧ repeat.1.1 = Ok None ∧ ss_pushes repeat.2 = [] ∧
  (ag_status <$> agreements (sdb repeat.2) !! 11%N) = Some AcceptedOnChain ∧
  target (sdb repeat.2) (5%N, 7%N, 42161) = None.
Proof.
  intros cancel repeat. split; [vm_compute; reflexivity|]. split; [vm_compute; reflexivity|].
  destruct repeat as [[res events'] s3] eqn:E2.
  assert (H : (∃ id_opt, res = Ok id_opt) ∧ events' = [] ∧ ss_pushes s3 = [] ∧ sdb s3 = sdb cancel.2).
  { apply (repeating_a_500_queues_nothing demo_recover demo_ctx 90%N 91%N (set_to (Some 0))
      (refusing_run demo_targets) cancel.2 (refusing_run (sdb cancel.2)) s3 cancel.1.2 res events'
      demo_targets_inv eq_refl ltac:(vm_compute; discriminate) ltac:(vm_compute; reflexivity)
      ltac:(vm_compute; reflexivity) ltac:(vm_compute; reflexivity) eq_refl eq_refl eq_refl E2). }
  destruct H as (_ & _ & Hp & Hd). split; [exact Hp|]. simpl. rewrite Hd.
  split; vm_compute; reflexivity.
Defined.

(** The signed struct has zero for an omitted count: the signature of a call for
    the default number of indexers is one of a call that cancels the request. *)
Lemma omitted_count_signs_as_zero deployment chain_id :
  to_sol_struct (mkSetTarget deployment chain_id None) =
  to_sol_struct (mkSetTarget deployment chain_id (Some 0)).
Proof. done. Qed.

Lemma altered_count_is_admitted {Sig} (recover : SetIndexingTargetCandidatesSol → Sig → option N)
    ctx deployment chain_id sig q :
  admitted recover ctx (mkSigned (mkSetTarget deployment chain_id None) sig) = Ok q →
  admitted recover ctx (mkSigned (mkSetTarget deployment chain_id (Some 0)) sig) = Ok q.
Proof.
  unfold admitted, asked_for. simpl. rewrite omitted_count_signs_as_zero.
  by destruct (recover _ sig); repeat case_match.
Qed.

End AdminRpcProps.
