(* ===== verification/SeenBlocks.v ===== *)
(** * The newest block seen
    (bin/dipper-service/src/chain_client/client.rs: [SeenBlock], [agreed_head],
    [Refusals], [EndpointHeads])

    RPC endpoints disagree about the chain's latest block.  The client keeps the
    newest block it has seen, moves it by what endpoints report within limits,
    confirms it from receipts and from endpoints that agree, and refuses
    endpoints behind it or unbelievably far ahead.  Instants and durations are in
    nanoseconds. *)

From S2P Require Import Prelude Worker.
Import Worker.
Local Open Scope Z_scope.

Module SeenBlocks.

Definition WEEK_OF_BLOCKS : Z := 2419200.
Definition BLOCKS_PER_SECOND : Z := 4.
Definition ALERT_GAP_BLOCKS : Z := 14400.
Definition AGREE_WITHIN_BLOCKS : Z := 60 * BLOCKS_PER_SECOND.
Definition CROSS_CHECK_INTERVAL : Z := from_secs 60.
Definition HEAD_REUSE : Z := from_secs 1.

Definition sat_mul_u64 (a b : Z) : Z := Z.min (a * b) u64_max.

(** ** The newest block seen *)

Record SeenBlock : Type := mkSeen {
  sb_number : Z;
  sb_moved_at : Z;
  sb_confirmed : bool;
  sb_cross_checked_at : option Z;
  sb_jump_reported : bool }.

Definition new_seen (now : Z) : SeenBlock := mkSeen 0 now false None false.

Inductive Noted : Type := Taken | Unagreed | TooFarAhead.

Definition past (allowance : Z) (s : SeenBlock) (now : Z) : Z :=
  sat_add_u64 (sat_add_u64 (sb_number s) allowance)
    (sat_mul_u64 (as_secs (since now (sb_moved_at s))) BLOCKS_PER_SECOND).

Definition believable_limit : SeenBlock → Z → Z := past WEEK_OF_BLOCKS.
Definition lone_limit : SeenBlock → Z → Z := past AGREE_WITHIN_BLOCKS.

Definition bounds (s : SeenBlock) (now : Z) : Z * Z :=
  (sb_number s, if sb_confirmed s then believable_limit s now else u64_max).

Definition take_block (block now : Z) (s : SeenBlock) : SeenBlock :=
  if sb_number s <? block
  then mkSeen block now (sb_confirmed s) (sb_cross_checked_at s) (sb_jump_reported s) else s.

Definition advance (block now : Z) (only_endpoint : bool) (s : SeenBlock) : Noted * SeenBlock :=
  if sb_confirmed s && (believable_limit s now <? block) then (TooFarAhead, s)
  else if sb_confirmed s && (negb only_endpoint && (lone_limit s now <? block))
  then (Unagreed, mkSeen (sb_number s) (sb_moved_at s) (sb_confirmed s) (sb_cross_checked_at s) true)
  else (Taken, take_block block now s).

Definition confirm (block now : Z) (s : SeenBlock) : SeenBlock :=
  let s := mkSeen (sb_number s) (sb_moved_at s) (sb_confirmed s) (sb_cross_checked_at s) false in
  if sb_confirmed s
  then if block <=? believable_limit s now then take_block block now s else s
  else
    if (sb_number s <? block) || (sat_add_u64 block AGREE_WITHIN_BLOCKS <? sb_number s)
    then mkSeen block now true (sb_cross_checked_at s) false
    else mkSeen (sb_number s) (sb_moved_at s) true (sb_cross_checked_at s) false.

Definition cross_check_due (now : Z) (s : SeenBlock) : bool * SeenBlock :=
  let checked_lately := match sb_cross_checked_at s with
                        | Some at_ => since now at_ <? CROSS_CHECK_INTERVAL
                        | None => false
                        end in
  if (sb_confirmed s && negb (sb_jump_reported s)) || checked_lately then (false, s)
  else (true, mkSeen (sb_number s) (sb_moved_at s) (sb_confirmed s) (Some now) (sb_jump_reported s)).

(** ** What the endpoints agree on *)

(** [while head - heads[start] > AGREE_WITHIN_BLOCKS { start += 1; }], on the
    heads from [start] to [head]. *)
Fixpoint drop_far (head : Z) (window : list Z) : list Z :=
  match window with
  | [] => []
  | x :: rest => if AGREE_WITHIN_BLOCKS <? head - x then drop_far head rest else window
  end.

(** The window of heads that agree with the last, and the most that agreed with
    the newest head they did. *)
Definition agree_step (st : list Z * option (Z * Z)) (head : Z) : list Z * option (Z * Z) :=
  let '(window, agreed) := st in
  let window := drop_far head (window ++ [head]) in
  let agreeing := Z.of_nat (length window) in
  (window,
   if (2 <=? agreeing) && match agreed with Some (most, _) => most <=? agreeing | None => true end
   then Some (agreeing, head) else agreed).

Definition agreed_head (heads : list Z) : option Z :=
  snd <$> (foldl agree_step ([], None) (merge_sort Z.le heads)).2.

(** ** Refusals of a read's attempts *)

Record Refusals : Type := mkRefusals { rf_nearest : Z; rf_other_failures : Z }.
Definition new_refusals : Refusals := mkRefusals u64_max 0.

(** [true]: refused. *)
Definition refuse_behind (head seen : Z) (r : Refusals) : bool * Refusals :=
  if seen <=? head then (false, r)
  else (true, mkRefusals (Z.min (rf_nearest r) (seen - head)) (rf_other_failures r)).

Definition refuse_far_ahead (head seen highest : Z) (r : Refusals) : bool * Refusals :=
  if head <=? highest then (false, r)
  else (true, mkRefusals (Z.min (rf_nearest r) (head - seen)) (rf_other_failures r)).

Definition note_other (failed : bool) (r : Refusals) : Refusals :=
  if failed then mkRefusals (rf_nearest r) (rf_other_failures r + 1) else r.

Definition all_far_off (r : Refusals) : bool :=
  (rf_other_failures r =? 0) && negb (rf_nearest r =? u64_max)
  && (ALERT_GAP_BLOCKS <? rf_nearest r).

(** ** Each endpoint's latest block, with when it was asked for *)

Definition EndpointHeads : Type := list (option (Z * Z)).

Definition new_heads (endpoints : nat) : EndpointHeads := replicate endpoints None.

Definition fresh_head (endpoint : nat) (now : Z) (heads : EndpointHeads) : option Z :=
  slot ← heads !! endpoint;
  ask ← slot;
  if since now ask.2 <? HEAD_REUSE then Some ask.1 else None.

Definition remember_head (endpoint : nat) (head asked_at : Z) (heads : EndpointHeads)
    : EndpointHeads := <[endpoint := Some (head, asked_at)]> heads.

Definition forget_head (endpoint : nat) (heads : EndpointHeads) : EndpointHeads :=
  <[endpoint := None]> heads.

End SeenBlocks.
