(* ===== verification/SeenBlocksProps.v ===== *)
(** * What the newest block seen is worth

    [agreed_head] is what a count of votes would choose; once confirmed the
    newest block never goes back and one endpoint alone moves it by at most a
    minute of blocks a report beyond what the chain can have added. *)

From S2P Require Import Prelude Worker SeenBlocks.
Import Worker SeenBlocks.
Local Open Scope Z_scope.

Module SeenBlocksProps.

(** ** What the endpoints agree on *)

(** [x] is within a minute of blocks below [head]. *)
Definition near (head x : Z) : Prop := head - AGREE_WITHIN_BLOCKS ≤ x ≤ head.
#[export] Instance near_dec head x : Decision (near head x).
Proof. unfold near. apply _. Defined.
Definition votes (heads : list Z) (head : Z) : Z := Z.of_nat (length (filter (near head) heads)).

(** The choice, by counting: the head with the most votes, the newest of them,
    if it has two. *)
Definition elected (heads : list Z) (choice : option Z) : Prop :=
  match choice with
  | Some head => head ∈ heads ∧ 2 ≤ votes heads head ∧
      ∀ h, h ∈ heads → votes heads h < votes heads head ∨ votes heads h = votes heads head ∧ h ≤ head
  | None => ∀ h, h ∈ heads → votes heads h < 2
  end.

Lemma votes_perm l l' head : l ≡ₚ l' → votes l head = votes l' head.
Proof. intros H. unfold votes. by rewrite H. Qed.

#[export] Instance elected_perm : Proper ((≡ₚ) ==> (=) ==> iff) elected.
Proof.
  assert (H : ∀ l l' c, l ≡ₚ l' → elected l c → elected l' c).
  { intros l l' c Hp. unfold elected. destruct c as [head|].
    - rewrite !(votes_perm _ _ head Hp). intros (H1 & H2 & H3). split; [by rewrite <- Hp|]. split; [done|].
      intros h Hh. rewrite <- (votes_perm _ _ h Hp). apply H3. by rewrite Hp.
    - intros H1 h Hh. rewrite <- (votes_perm _ _ h Hp). apply H1. by rewrite Hp. }
  intros l l' Hp c c' <-. split; by apply H.
Qed.

(** The heads near the last, of a list in order. *)
Definition close_to (head : Z) (l : list Z) : list Z := filter (near head) l.

Lemma filter_every {A} (P : A → Prop) `{!∀ x, Decision (P x)} (l : list A) : Forall P l → filter P l = l.
Proof. induction 1 as [|x l Hx Hl IH]; [done|]. by rewrite filter_cons_True, IH. Qed.

Lemma filter_of_filter {A} (P Q : A → Prop) `{!∀ x, Decision (P x)} `{!∀ x, Decision (Q x)} (l : list A) :
  (∀ y, y ∈ l → P y → Q y) → filter P (filter Q l) = filter P l.
Proof.
  induction l as [|x l IH]; intros Himp; [done|].
  assert (Hl : filter P (filter Q l) = filter P l) by (apply IH; intros y Hy; apply Himp; by right).
  destruct (decide (P x)) as [Hp|Hp].
  - rewrite (filter_cons_True Q) by (apply Himp; [by left|done]). rewrite !(filter_cons_True P) by done.
    by f_equal.
  - rewrite (filter_cons_False P _ l) by done. rewrite filter_cons. destruct (decide (Q x)); [|done].
    by rewrite filter_cons_False.
Qed.

Lemma sorted_filter (P : Z → Prop) `{!∀ x, Decision (P x)} (l : list Z) :
  StronglySorted Z.le l → StronglySorted Z.le (filter P l).
Proof.
  induction 1 as [|x l Hs IH Hall]; [constructor|]. rewrite filter_cons. destruct (decide (P x)); [|done].
  constructor; [done|]. apply Forall_forall. intros y [_ Hy]%list_elem_of_filter.
  by eapply Forall_forall.
Qed.

Lemma drop_far_filter head l :
  StronglySorted Z.le l → (∀ x, x ∈ l → x ≤ head) → drop_far head l = close_to head l.
Proof.
  induction 1 as [|x l Hs IH Hall]; intros Hle; [done|]. simpl. unfold close_to, near in *.
  assert (Hx : x ≤ head) by (apply Hle; left).
  destruct (Z.ltb_spec AGREE_WITHIN_BLOCKS (head - x)) as [Hfar|Hnear].
  - rewrite filter_cons_False by lia. apply IH. intros y Hy. apply Hle. by right.
  - rewrite filter_cons_True by lia. f_equal. symmetry. apply filter_every.
    apply Forall_forall. intros y Hy. rewrite Forall_forall in Hall. split; [apply Hall in Hy; lia|].
    apply Hle. by right.
Qed.

Lemma sorted_snoc (l : list Z) x :
  StronglySorted Z.le (l ++ [x]) ↔ StronglySorted Z.le l ∧ ∀ y, y ∈ l → y ≤ x.
Proof.
  induction l as [|z l IH]; simpl.
  - split; [|intros _; by repeat constructor]. intros _. split; [constructor|]. by intros y ?%not_elem_of_nil.
  - split.
    + intros H. inversion H as [|? ? Hs Hall]; subst. apply IH in Hs as [Hs Hle]. split.
      * constructor; [done|]. by apply Forall_app in Hall as [? _].
      * intros y [->|Hy]%elem_of_cons; [|auto].
        apply Forall_app in Hall as [_ Hx]. by rewrite Forall_singleton in Hx.
    + intros [H Hle]. inversion H as [|? ? Hs Hall]; subst. constructor.
      * apply IH. split; [done|]. intros y Hy. apply Hle. by right.
      * apply Forall_app. split; [done|]. apply Forall_singleton, Hle. by left.
Qed.

Lemma votes_snoc l x h :
  votes (l ++ [x]) h = votes l h + (if decide (near h x) then 1 else 0).
Proof.
  unfold votes. rewrite filter_app, length_app. destruct (decide (near h x)).
  - rewrite (filter_cons_True _ x []) by done. simpl. lia.
  - rewrite (filter_cons_False _ x []) by done. simpl. lia.
Qed.

(** What the loop knows after the heads [l]. *)
Record tallied (l : list Z) (st : list Z * option (Z * Z)) : Prop := {
  cn_sorted : StronglySorted Z.le st.1;
  cn_within : ∀ x, x ∈ st.1 → x ∈ l;
  cn_window : ∀ x, (∀ y, y ∈ l → y ≤ x) → close_to x st.1 = close_to x l;
  cn_most : ∀ most head, st.2 = Some (most, head) → most = votes l head;
  cn_elected : elected l (snd <$> st.2) }.

(** The votes for an older head are in. *)
Lemma votes_older l x h : h < x → votes (l ++ [x]) h = votes l h.
Proof. intros Hh. rewrite votes_snoc, decide_False; [lia|]. unfold near. lia. Qed.

Lemma votes_again l h : votes (l ++ [h]) h = votes l h + 1.
Proof. rewrite votes_snoc, decide_True; [lia|]. unfold near, AGREE_WITHIN_BLOCKS, BLOCKS_PER_SECOND. lia. Qed.

Lemma votes_in l h : h ∈ l → 1 ≤ votes l h.
Proof.
  intros Hh. unfold votes. destruct (filter (near h) l) as [|] eqn:E; [|simpl; lia].
  exfalso. eapply (filter_nil_not_elem_of (near h) l h); [done| |done].
  unfold near, AGREE_WITHIN_BLOCKS, BLOCKS_PER_SECOND. lia.
Qed.

Lemma elected_snoc l x (agreed : option (Z * Z)) :
  (∀ y, y ∈ l → y ≤ x) → (∀ most head, agreed = Some (most, head) → most = votes l head) →
  elected l (snd <$> agreed) →
  let agreeing := votes (l ++ [x]) x in
  let agreed' := if (2 <=? agreeing) && match agreed with Some (most, _) => most <=? agreeing | None => true end
                 then Some (agreeing, x) else agreed in
  (∀ most head, agreed' = Some (most, head) → most = votes (l ++ [x]) head) ∧
  elected (l ++ [x]) (snd <$> agreed').
Proof.
  intros Hle Hmost Hel agreeing agreed'. unfold agreed'. clear agreed'.
  assert (Hold : ∀ h, h ∈ l → h = x ∨ votes (l ++ [x]) h = votes l h).
  { intros h Hh. destruct (decide (h = x)) as [|Hne]; [by left|right]. apply votes_older.
    specialize (Hle h Hh). lia. }
  assert (Hagain : agreeing = votes l x + 1) by apply votes_again.
  destruct (Z.leb_spec 2 agreeing) as [H2|H2]; simpl.
  2:{ assert (Hx : x ∉ l) by (intros ?%votes_in; lia).
      assert (Hkeep : ∀ h, h ∈ l → votes (l ++ [x]) h = votes l h).
      { intros h Hh. by destruct (Hold h Hh) as [->|?]. }
      destruct agreed as [[most head]|]; simpl in *.
      - destruct Hel as (Hin & Hv & Hmax). split.
        + intros m h [= <- <-]. rewrite Hkeep by done. by apply Hmost.
        + split; [apply elem_of_app; by left|]. rewrite Hkeep by done. split; [done|].
          intros h [Hh| ->%list_elem_of_singleton]%elem_of_app; [rewrite Hkeep by done; auto|]. left. lia.
      - split; [done|]. intros h [Hh| ->%list_elem_of_singleton]%elem_of_app; [rewrite Hkeep by done; auto|done]. }
  destruct agreed as [[most head]|]; simpl in *.
  2:{ split; [by intros m h [= <- <-]|]. split; [apply elem_of_app; right; left|]. split; [done|].
      intros h [Hh| ->%list_elem_of_singleton]%elem_of_app; [|right; split; [done|lia]].
      destruct (Hold h Hh) as [-> |Hv]; [right; split; [done|lia]|]. left. specialize (Hel h Hh). lia. }
  destruct Hel as (Hin & Hv & Hmax). specialize (Hmost most head eq_refl).
  destruct (Z.leb_spec most agreeing) as [Hge|Hlt]; simpl.
  - split; [by intros m h [= <- <-]|]. split; [apply elem_of_app; right; left|]. split; [done|].
    intros h [Hh| ->%list_elem_of_singleton]%elem_of_app; [|right; split; [done|lia]].
    specialize (Hle h Hh). destruct (Hold h Hh) as [-> |Hvh]; [right; split; [done|lia]|].
    destruct (Hmax h Hh) as [?|[? ?]]; [left; lia|]. unfold agreeing in *. lia.
  - assert (Hne : head ≠ x) by (intros ->; lia).
    assert (Hvh : votes (l ++ [x]) head = votes l head) by (by destruct (Hold head Hin)).
    split; [intros m h [= <- <-]; lia|]. split; [apply elem_of_app; by left|]. rewrite Hvh. split; [done|].
    intros h [Hh| ->%list_elem_of_singleton]%elem_of_app; [|left; unfold agreeing in *; lia].
    destruct (Hold h Hh) as [-> | ->]; [left; unfold agreeing in *; lia|auto].
Qed.

Lemma tallied_step l x st : (∀ y, y ∈ l → y ≤ x) → tallied l st → tallied (l ++ [x]) (agree_step st x).
Proof.
  destruct st as [window agreed]. intros Hle [Hs Hw Hc Hm He]. simpl in *.
  assert (Hwin : drop_far x (window ++ [x]) = close_to x (l ++ [x])).
  { rewrite drop_far_filter.
    - unfold close_to. rewrite !filter_app. f_equal. by apply Hc.
    - apply sorted_snoc. split; [done|]. auto.
    - intros y [?| ->%list_elem_of_singleton]%elem_of_app; [auto|lia]. }
  unfold agree_step. rewrite Hwin. fold (votes (l ++ [x]) x). split; simpl.
  - rewrite <- Hwin, drop_far_filter.
    + apply sorted_filter, sorted_snoc. split; [done|auto].
    + apply sorted_snoc. split; [done|auto].
    + intros y [?| ->%list_elem_of_singleton]%elem_of_app; [auto|lia].
  - by intros y [_ ?]%list_elem_of_filter.
  - intros y Hy. apply filter_of_filter. unfold near. intros z Hz Hn.
    assert (x ≤ y) by (apply Hy, elem_of_app; right; left).
    split; [lia|]. apply elem_of_app in Hz as [Hz| ->%list_elem_of_singleton]; [auto|lia].
  - by apply elected_snoc.
  - by apply elected_snoc.
Qed.

Lemma tallied_all l : StronglySorted Z.le l → tallied l (foldl agree_step ([], None) l).
Proof.
  induction l as [|x l IH] using rev_ind; intros Hs.
  - split; simpl; [constructor|done|done|done|]. by intros h ?%not_elem_of_nil.
  - apply sorted_snoc in Hs as [Hs Hle]. rewrite foldl_app. simpl. by apply tallied_step; [|apply IH].
Qed.

(** The two-pointer scan over the sorted heads chooses what counting votes
    would: for each reported block, how many reports lie within a minute of
    blocks below it; the block with the most, the newest of those, if two agree,
    and none otherwise. *)
Theorem agreed_head_counts_votes heads : elected heads (agreed_head heads).
Proof.
  unfold agreed_head. rewrite <- (merge_sort_Permutation Z.le heads) at 1.
  apply tallied_all, StronglySorted_merge_sort; apply _.
Qed.

(** ** Moving the newest block *)

(** What can happen to it at an instant: an endpoint's report, a confirmation, a
    cross-check falling due. *)
Inductive block_report : Type :=
| Reported (block : Z) (only_endpoint : bool)
| Confirmed (block : Z)
| CheckDue.

Definition note (s : SeenBlock) (r : Z * block_report) : SeenBlock :=
  match r.2 with
  | Reported block only => (advance block r.1 only s).2
  | Confirmed block => confirm block r.1 s
  | CheckDue => (cross_check_due r.1 s).2
  end.

(** The blocks an event may add to what the chain can have added. *)
Definition allowance (r : block_report) : Z :=
  match r with
  | Reported _ false => AGREE_WITHIN_BLOCKS
  | Reported _ true | Confirmed _ => WEEK_OF_BLOCKS
  | CheckDue => 0
  end.

(** Events in the order they happened. *)
Fixpoint in_order (from : Z) (l : list (Z * block_report)) : Prop :=
  match l with [] => True | r :: rest => from ≤ r.1 ∧ in_order r.1 rest end.

Fixpoint last_time (from : Z) (l : list (Z * block_report)) : Z :=
  match l with [] => from | r :: rest => last_time r.1 rest end.

Lemma last_time_later from l : in_order from l → from ≤ last_time from l.
Proof.
  revert from. induction l as [|r l IH]; intros from; simpl; [lia|]. intros [? ?%IH]. lia.
Qed.

(** A confirmed block after an event. *)
Record seen_moved (s s' : SeenBlock) (a now : Z) : Prop := {
  mv_confirmed : sb_confirmed s' = true;
  mv_up : sb_number s ≤ sb_number s';
  mv_time : sb_moved_at s ≤ sb_moved_at s' ≤ Z.max now (sb_moved_at s);
  mv_far : from_secs (sb_number s' - sb_number s) ≤
    from_secs a + BLOCKS_PER_SECOND * (sb_moved_at s' - sb_moved_at s) }.

Lemma past_bound a s now :
  sb_moved_at s ≤ now →
  from_secs (past a s now - sb_number s) ≤ from_secs a + BLOCKS_PER_SECOND * (now - sb_moved_at s).
Proof.
  intros Hn. unfold past, sat_add_u64, sat_mul_u64, since, as_secs, from_secs, BLOCKS_PER_SECOND.
  rewrite Z.max_l by lia. pose proof (Z.mul_div_le (now - sb_moved_at s) 1000000000 ltac:(lia)). lia.
Qed.

Lemma take_moved a block now s :
  sb_confirmed s = true → 0 ≤ a → sb_moved_at s ≤ now → block ≤ past a s now →
  seen_moved s (take_block block now s) a now.
Proof.
  intros Hc Ha Hn Hb. pose proof (past_bound a s now Hn). unfold take_block.
  destruct (Z.ltb_spec (sb_number s) block); split; simpl; unfold from_secs in *; try done; lia.
Qed.

Lemma still_moved a now s s' :
  sb_confirmed s = true → 0 ≤ a → sb_number s' = sb_number s → sb_moved_at s' = sb_moved_at s →
  sb_confirmed s' = sb_confirmed s → seen_moved s s' a now.
Proof. intros. split; rewrite ?H1, ?H2, ?H3; unfold from_secs; try done; lia. Qed.

Lemma note_moved s r :
  sb_confirmed s = true → sb_moved_at s ≤ r.1 → seen_moved s (note s r) (allowance r.2) r.1.
Proof.
  intros Hc Hn. destruct r as [now r]. simpl in *. unfold note. simpl.
  destruct r as [block only|block|]; simpl.
  - unfold advance. rewrite Hc. simpl.
    destruct (Z.ltb_spec (believable_limit s now) block) as [|Hb]; [by apply still_moved; destruct only|].
    destruct only; simpl; [by apply take_moved|].
    destruct (Z.ltb_spec (lone_limit s now) block); [by apply still_moved|by apply take_moved].
  - unfold confirm. simpl. rewrite Hc. set (s1 := {| sb_number := _ |}).
    destruct (Z.leb_spec block (believable_limit s1 now)); [|by apply still_moved].
    destruct (take_moved WEEK_OF_BLOCKS block now s1) as [H1 H2 H3 H4]; try done; by split.
  - unfold cross_check_due. repeat case_match; by apply still_moved.
Qed.

(** C30: once the newest block seen is confirmed it stays confirmed and never goes
    back, whatever endpoints report and confirmations say afterwards.  It moves
    past what the chain can have added since (4 blocks a second) by at most a
    minute of blocks for each report of one endpoint among several, and a week of
    blocks for each confirmation or report of an only endpoint. *)
Theorem confirmed_block_moves_within_limits s l :
  sb_confirmed s = true → in_order (sb_moved_at s) l →
  let s' := foldl note s l in
  sb_confirmed s' = true ∧ sb_number s ≤ sb_number s' ∧
  from_secs (sb_number s' - sb_number s) ≤
    from_secs (foldr (λ r sum, allowance r.2 + sum) 0 l)
    + BLOCKS_PER_SECOND * (last_time (sb_moved_at s) l - sb_moved_at s).
Proof.
  intros Hc Ho.
  assert (H : ∀ from, sb_moved_at s ≤ from → in_order from l → let s' := foldl note s l in
    seen_moved s s' (foldr (λ r sum, allowance r.2 + sum) 0 l) (last_time from l)).
  { clear Ho. revert s Hc. induction l as [|r l IH]; intros s Hc from Hf Ho; simpl in *.
    { by apply still_moved. }
    destruct Ho as [Hfr Ho]. destruct (note_moved s r Hc) as [A1 A2 A3 A4]; [lia|].
    destruct (IH (note s r) A1 r.1) as [B1 B2 B3 B4]; [lia|done|].
    apply last_time_later in Ho. split; [done|lia|lia|]. unfold from_secs in *. lia. }
  destruct (H _ (Z.le_refl _) Ho) as [H1 H2 H3 H4]. apply last_time_later in Ho.
  split_and!; [done|done|]. unfold BLOCKS_PER_SECOND in *. lia.
Qed.

(** A faulty endpoint that answers reads one after the other: a minute of blocks
    each time. *)
Definition demo_seen : SeenBlock := mkSeen 1000 0 true None false.
Definition demo_reports : list (Z * block_report) :=
  [(from_secs 1, Reported 1200 false); (from_secs 1, Reported 1440 false);
   (from_secs 1, Reported 1680 false); (from_secs 1, Reported 999999 false)].

Lemma confirmed_block_moves_within_limits_witness :
  sb_number (foldl note demo_seen demo_reports) = 1680 ∧
  from_secs (sb_number (foldl note demo_seen demo_reports) - 1000) ≤
    from_secs (foldr (λ r sum, allowance r.2 + sum) 0 demo_reports)
    + BLOCKS_PER_SECOND * (from_secs 1 - 0).
Proof.
  split; [vm_compute; reflexivity|].
  refine (proj2 (proj2 (confirmed_block_moves_within_limits demo_seen demo_reports eq_refl _))).
  repeat split; vm_compute; discriminate.
Defined.

End SeenBlocksProps.
