(* ===== verification/RpcPool.v ===== *)
(** * The RPC endpoints
    (bin/dipper-service/src/chain_client/rpc_provider.rs, gas.rs)

    Several endpoints treated as one: a call is retried on an endpoint with
    backoff and then taken to the next, and every endpoint is visited once before
    it gives up.  The walk is generic in the call and in the state [X] the call
    works on; each ask and each pause is logged.  Error texts are strings of
    ASCII; how alloy prints its own errors is carried by the error or is a
    parameter. *)

From S2P Require Import Prelude Ids Worker ChainEvents Liveness Selection.
Import Ids Worker ChainEvents Liveness Selection.
From stdpp Require Import pretty.
From Stdlib Require Import SpecFloat.
Local Open Scope Z_scope.

Module RpcPool.

(** ** Texts *)

Definition lower_ascii (c : Ascii.ascii) : Ascii.ascii :=
  let n := Ascii.N_of_ascii c in
  if ((65 <=? n) && (n <=? 90))%N then Ascii.ascii_of_N (n + 32) else c.

Fixpoint to_lowercase (s : string) : string :=
  match s with
  | EmptyString => EmptyString
  | String c rest => String (lower_ascii c) (to_lowercase rest)
  end.

(** [trim_end_matches('/')] *)
Fixpoint trim_slashes (s : string) : string :=
  match s with
  | EmptyString => EmptyString
  | String c rest =>
      match trim_slashes rest with
      | EmptyString => if bool_decide (c = Ascii.ascii_of_N 47) then EmptyString else String c EmptyString
      | rest' => String c rest'
      end
  end.

Fixpoint drop_chars (n : nat) (s : string) : string :=
  match n, s with
  | Datatypes.S n', String _ rest => drop_chars n' rest
  | _, _ => s
  end.

(** [s.replace(from, to)] for a [from] that is not empty. *)
Fixpoint replace_go (fuel : nat) (from to s : string) : string :=
  match fuel, s with
  | Datatypes.S fuel', String c rest =>
      if String.prefix from s
      then to +:+ replace_go fuel' from to (drop_chars (String.length from) s)
      else String c (replace_go fuel' from to rest)
  | _, _ => s
  end.
Definition replace (from to s : string) : string := replace_go (String.length s) from to s.

(** ** Errors *)

Inductive ClientError : Type :=
| CeSubmitFailed (cause : string)
| CeConfigError (text : string)
| CeRpcError (cause : string)
| CeTxDropped (tx_hash : N) (receipt_checked : bool)
| CeTxReverted (tx_hash : N)
| CeContractRevert (selector data : list Z).

(** [RpcError<TransportErrorKind>]: an HTTP status; a JSON-RPC error object, with
    whether alloy reads it as one to retry and its revert data; an error the
    client boxed itself; one made by [local_usage_str]; and any other fault, as
    it prints. *)
Inductive TransportError : Type :=
| HttpError (status : Z) (text : string)
| ErrorResp (retry : bool) (revert_data : option (list Z)) (text : string)
| BoxedError (e : ClientError)
| LocalUsage (text : string)
| OtherFault (text : string).

Record Endpoint : Type := mkEndpoint {
  ep_url : string;
  ep_host : option string;
  ep_port : option Z }.

Definition endpoint_name (e : Endpoint) : string :=
  match ep_host e, ep_port e with
  | Some host, Some port => host +:+ ":" +:+ pretty port
  | Some host, None => host
  | None, _ => "unnamed endpoint"
  end.

Definition BEHIND_A_SEEN_BLOCK : string := "behind a block already seen".
Definition RETRYABLE_ERROR_PATTERNS : list string :=
  ["header not found"; "unknown block"; "connection refused"; "connection reset";
   "connection closed"; "timeout"; "timed out"; "rate limit"; "too many requests";
   "service unavailable"; "bad gateway"; "temporary internal error"].

Definition LAG_PAUSE : Z := 500000000.
Definition LAG_RETRIES : Z := 2.

(** In nanoseconds. *)
Definition backoff_delay (attempt : Z) : Z :=
  Z.min (Z.min (1000 * 2 ^ Z.min attempt 5) u64_max) 30000 * 1000000.

Inductive pool_event : Type :=
| PoolAsked (endpoint : nat)
| PoolSlept (d : Z).

(** [current_index], and what was asked and waited. *)
Record PoolState : Type := mkPool { pool_index : Z; pool_log : list pool_event }.

Record RpcPoolConfig : Type := mkPoolConfig {
  pc_endpoints : list Endpoint;
  pc_request_timeout : Z;
  pc_max_retries : Z }.

Definition worst_case_walk (c : RpcPoolConfig) : Z :=
  let backoff := foldr Z.add 0 (backoff_delay <$> seqZ 0 (pc_max_retries c)) in
  (pc_request_timeout c * (pc_max_retries c + 1) + backoff) * Z.of_nat (length (pc_endpoints c)).

Section pool.
(** How a transaction hash and a local usage error print. *)
Context (hash_text : N → string) (local_usage_text : string → string).

Definition bytes_text (bytes : list Z) : string :=
  foldr (λ b s, String (Ascii.ascii_of_N (Z.to_N b)) s) "" bytes.
Definition selector_text (selector : list Z) : string := bytes_text (selector ≫= byte_02x).

(** [Display for ChainClientError] *)
Definition client_error_text (e : ClientError) : string :=
  match e with
  | CeSubmitFailed cause => "failed to submit transaction: " +:+ cause
  | CeConfigError text => "configuration error: " +:+ text
  | CeRpcError cause => "RPC error: " +:+ cause
  | CeTxDropped tx_hash _ =>
      "tx " +:+ hash_text tx_hash +:+ " did not mine within the receipt-poll window"
  | CeTxReverted tx_hash => "tx " +:+ hash_text tx_hash +:+ " reverted on-chain"
  | CeContractRevert selector _ => "contract reverted with selector 0x" +:+ selector_text selector
  end.

Definition error_text (e : TransportError) : string :=
  match e with
  | HttpError _ text | ErrorResp _ _ text | OtherFault text => text
  | BoxedError e => client_error_text e
  | LocalUsage text => local_usage_text text
  end.

Definition extract_chain_client_error (e : TransportError) : option ClientError :=
  match e with BoxedError e => Some e | _ => None end.

Definition describe_failure (ep : Endpoint) (e : TransportError) : string :=
  let name := endpoint_name ep in
  replace (trim_slashes (ep_url ep)) name (replace (ep_url ep) name (error_text e)).

Definition is_behind (e : TransportError) : bool := contains (error_text e) BEHIND_A_SEEN_BLOCK.

Definition is_retryable (e : TransportError) : bool :=
  match e with HttpError status _ => (500 <=? status) || (status =? 429) | _ => false end
  || match e with ErrorResp retry _ _ => retry | _ => false end
  || existsb (contains (to_lowercase (error_text e))) RETRYABLE_ERROR_PATTERNS.

(** ** The walk *)

Context {X : Type} (sleep : Z → X → X) (config : RpcPoolConfig).

Definition PoolM (A : Type) : Type := PoolState * X → A * (PoolState * X).
#[export] Instance PoolM_ret : MRet PoolM := λ A a s, (a, s).
#[export] Instance PoolM_bind : MBind PoolM := λ A B k m s, let '(a, s') := m s in k a s'.

Definition log_pool (e : pool_event) (p : PoolState) : PoolState :=
  mkPool (pool_index p) (pool_log p ++ [e]).

Definition pool_sleep (d : Z) : PoolM () := λ '(p, x), (tt, (log_pool (PoolSlept d) p, sleep d x)).

Definition pool_ask {T} (f : nat → X → result TransportError T * X) (position : nat)
    : PoolM (result TransportError T) := λ '(p, x),
  let '(r, x') := f position x in (r, (log_pool (PoolAsked position) p, x')).

Definition rotate : PoolM () := λ '(p, x),
  (tt, (mkPool ((pool_index p + 1) mod 18446744073709551616) (pool_log p), x)).

(** [for attempt in 0..=max_retries], with [left] attempts to go. *)
Fixpoint ask_attempts {T} (f : nat → X → result TransportError T * X) (position left : nat)
    (attempt lag_retries : Z) (endpoint_error : option TransportError)
    : PoolM (result TransportError T) :=
  match left with
  | O => mret (Err (default (OtherFault "no attempt was made") endpoint_error))
  | Datatypes.S left' =>
      r ← pool_ask f position;
      match r with
      | Ok v => mret (Ok v)
      | Err e =>
          if is_behind e && (lag_retries <? LAG_RETRIES) && (attempt <? pc_max_retries config)
          then
            _ ← pool_sleep LAG_PAUSE;
            ask_attempts f position left' (attempt + 1) (lag_retries + 1) (Some e)
          else if is_retryable e && (attempt <? pc_max_retries config)
          then
            _ ← pool_sleep (backoff_delay attempt);
            ask_attempts f position left' (attempt + 1) lag_retries (Some e)
          else mret (Err e)
      end
  end.

Definition ask_endpoint {T} (f : nat → X → result TransportError T * X) (position : nat)
    : PoolM (result TransportError T) :=
  ask_attempts f position (Datatypes.S (Z.to_nat (pc_max_retries config))) 0 0 None.

(** The named refusal to keep: a contract's revert. *)
Definition named_revert (e : TransportError) : option ClientError :=
  match extract_chain_client_error e with
  | Some (CeContractRevert selector data) => Some (CeContractRevert selector data)
  | _ => None
  end.

Definition reason_of (position : nat) (e : TransportError) : string :=
  match pc_endpoints config !! position with
  | Some ep => endpoint_name ep +:+ ": " +:+ describe_failure ep e
  | None => ""
  end.

Definition join (sep : string) (l : list string) : string :=
  match l with
  | [] => ""
  | s :: rest => foldl (λ acc r, acc +:+ sep +:+ r) s rest
  end.

Definition all_failed (operation : string) (reasons : list string) : ClientError :=
  CeRpcError ("All " +:+ pretty (Z.of_nat (length (pc_endpoints config))) +:+
    " RPC providers failed for '" +:+ operation +:+ "': " +:+ join "; " reasons).

(** The loop, with [left] endpoints to go after the ones tried. *)
Fixpoint walk_from {T} (operation : string) (f : nat → X → result TransportError T * X)
    (start : Z) (left : nat) (providers_tried : Z) (reasons : list string)
    (named_refusal : option ClientError) : PoolM (result ClientError T) :=
  match left with
  | O => mret (Err (default (all_failed operation reasons) named_refusal))
  | Datatypes.S left' =>
      let position := Z.to_nat ((start + providers_tried)
                                mod Z.of_nat (length (pc_endpoints config))) in
      r ← ask_endpoint f position;
      match r with
      | Ok v => mret (Ok v)
      | Err e =>
          let reasons := reasons ++ [reason_of position e] in
          let named_refusal := match named_refusal with
                               | Some n => Some n
                               | None => named_revert e
                               end in
          match left' with
          | O => mret (Err (default (all_failed operation reasons) named_refusal))
          | _ =>
              _ ← rotate;
              walk_from operation f start left' (providers_tried + 1) reasons named_refusal
          end
      end
  end.

Definition execute_with_endpoint {T} (operation : string)
    (f : nat → X → result TransportError T * X) : PoolM (result ClientError T) := λ s,
  walk_from operation f (pool_index s.1) (length (pc_endpoints config)) 0 [] None s.

Definition execute {T} (operation : string) (f : nat → X → result TransportError T * X)
    : PoolM (result ClientError T) := execute_with_endpoint operation f.

End pool.

(** ** Gas *)

Definition u128_sat_add (a b : Z) : Z := Z.min (a + b) u128_max.

(** [x as u64] *)
Definition f64_to_u64 (x : f64) : Z := Z.min (f64_to_u128 x) u64_max.

Record GasEstimator : Type := mkGasEstimator {
  ge_buffer_multiplier : f64;
  ge_floor : Z;
  ge_max_addition : Z }.

(** The gas limit; which bound set it is only logged. *)
Definition compute_bounds (g : GasEstimator) (estimated : Z) : Z :=
  let with_buffer := f64_to_u64 (f64_mul (as_f64 estimated) (ge_buffer_multiplier g)) in
  let ceiling := sat_add_u64 estimated (ge_max_addition g) in
  let capped := if ceiling <? with_buffer then ceiling else with_buffer in
  if capped <? ge_floor g then ge_floor g else capped.

Definition calculate_max_fee (base_fee priority_fee : Z) (multiplier : f64) : Z :=
  u128_sat_add (f64_to_u128 (f64_mul (as_f64 base_fee) multiplier)) priority_fee.

Definition exceeds_max_gas_price (max_fee_per_gas max_gwei : Z) : bool :=
  max_gwei * 1000000000 <? max_fee_per_gas.

Definition classify_estimate_error (hash_text : N → string) (local_usage_text : string → string)
    (e : TransportError) : ClientError :=
  match e with
  | ErrorResp _ (Some data) _ =>
      if (4 <=? length data)%nat then CeContractRevert (take 4 data) data
      else CeRpcError ("Gas estimation failed: " +:+ error_text hash_text local_usage_text e)
  | _ => CeRpcError ("Gas estimation failed: " +:+ error_text hash_text local_usage_text e)
  end.

End RpcPool.
