(* ===== verification/RpcPoolProps.v ===== *)
(** * What a walk of the endpoints does

    A walk asks every endpoint before it gives up, answers with what one of them
    said, never outlasts the time the submission deadline is derived from, and
    when all fail reports each one's reason, or the first contract revert. *)

From S2P Require Import Prelude Ids Worker ChainEvents Liveness Selection RpcPool.
Import Ids Worker ChainEvents Liveness Selection RpcPool.
From Stdlib Require Import SpecFloat.
Local Open Scope Z_scope.
Local Set Default Proof Using "Type".

Module RpcPoolProps.

Section walk.
Context (hash_text : N → string) (local_usage_text : string → string).
Context {X : Type} (sleep : Z → X → X) (config : RpcPoolConfig).
Context {T : Type} (f : nat → X → result TransportError T * X).

(** Something the call may answer at this endpoint. *)
Definition answered (position : nat) (r : result TransportError T) : Prop :=
  ∃ x x', f position x = (r, x').

Definition event_cost (e : pool_event) : Z :=
  match e with PoolAsked _ => pc_request_timeout config | PoolSlept d => d end.
Definition cost (l : list pool_event) : Z := foldr (λ e c, event_cost e + c) 0 l.

Lemma cost_app l l' : cost (l ++ l') = cost l + cost l'.
Proof. induction l as [|e l IH]; simpl; lia. Qed.

(** The pauses from this attempt on. *)
Definition pauses (attempt : Z) : Z :=
  foldr Z.add 0 (backoff_delay <$> seqZ attempt (pc_max_retries config - attempt)).

Lemma pauses_step attempt :
  attempt < pc_max_retries config → pauses attempt = backoff_delay attempt + pauses (attempt + 1).
Proof.
  intros H. unfold pauses. rewrite seqZ_cons by lia. simpl.
  by replace (Z.pred (pc_max_retries config - attempt)) with (pc_max_retries config - (attempt + 1)) by lia.
Qed.

Lemma backoff_long attempt : 0 ≤ attempt → from_secs 1 ≤ backoff_delay attempt.
Proof.
  intros H. unfold backoff_delay, from_secs, u64_max.
  assert (2 ^ 0 ≤ 2 ^ Z.min attempt 5) by (apply Z.pow_le_mono_r; lia). lia.
Qed.

Lemma pauses_nonneg attempt : 0 ≤ attempt → 0 ≤ pauses attempt.
Proof.
  intros Ha. unfold pauses.
  assert (H : ∀ l, Forall (λ i, 0 ≤ i) l → 0 ≤ foldr Z.add 0 (backoff_delay <$> l)).
  { induction 1 as [|i l Hi Hl IH]; [done|]. rewrite fmap_cons. simpl.
    pose proof (backoff_long i Hi). unfold from_secs in *. lia. }
  apply H, Forall_seqZ. lia.
Qed.

(** The events of one endpoint's attempts. *)
Record asked_one (position : nat) (budget : Z) (events : list pool_event)
    (r : result TransportError T) : Prop := {
  ao_answer : answered position r;
  ao_asked : PoolAsked position ∈ events;
  ao_cost : 0 ≤ pc_request_timeout config → cost events ≤ budget }.

Lemma asked_once position left attempt r :
  0 ≤ attempt → answered position r →
  asked_one position (pc_request_timeout config * Z.of_nat (Datatypes.S left) + pauses attempt)
    [PoolAsked position] r.
Proof.
  intros Ha Hr. split; [done|left|]. intros Ht. cbn [cost foldr event_cost]. rewrite Nat2Z.inj_succ.
  pose proof (pauses_nonneg attempt Ha). nia.
Qed.

Lemma asked_again position left attempt d events r :
  attempt < pc_max_retries config → d ≤ backoff_delay attempt →
  asked_one position (pc_request_timeout config * Z.of_nat (Datatypes.S left) + pauses (attempt + 1))
    events r →
  asked_one position (pc_request_timeout config * Z.of_nat (Datatypes.S (Datatypes.S left)) + pauses attempt)
    (PoolAsked position :: PoolSlept d :: events) r.
Proof.
  intros Hm Hd [H1 H2 H3]. split; [done|left|]. intros Ht. specialize (H3 Ht).
  cbn [cost foldr event_cost]. fold (cost events). rewrite (pauses_step attempt Hm).
  rewrite !Nat2Z.inj_succ, !Z.mul_succ_r in *. lia.
Qed.

(** An attempt, with what follows it. *)
Lemma ask_attempts_run position left attempt lag err p x :
  ask_attempts hash_text local_usage_text sleep config f position (Datatypes.S left) attempt lag err
    (p, x) =
  let again d lag' e x' := ask_attempts hash_text local_usage_text sleep config f position left
    (attempt + 1) lag' (Some e) (log_pool (PoolSlept d) (log_pool (PoolAsked position) p), sleep d x') in
  match f position x with
  | (Ok v, x') => (Ok v, (log_pool (PoolAsked position) p, x'))
  | (Err e, x') =>
      if is_behind hash_text local_usage_text e && (lag <? LAG_RETRIES)
         && (attempt <? pc_max_retries config) then again LAG_PAUSE (lag + 1) e x'
      else if is_retryable hash_text local_usage_text e && (attempt <? pc_max_retries config)
      then again (backoff_delay attempt) lag e x'
      else (Err e, (log_pool (PoolAsked position) p, x'))
  end.
Proof.
  cbn [ask_attempts]. unfold mbind, PoolM_bind at 1, pool_ask. destruct (f position x) as [[v|e] x']; [done|].
  repeat case_match; done.
Qed.

Lemma ask_attempts_spec position left attempt lag err s r s' :
  0 ≤ attempt → attempt + Z.of_nat (Datatypes.S left) = pc_max_retries config + 1 →
  ask_attempts hash_text local_usage_text sleep config f position (Datatypes.S left) attempt lag err s
    = (r, s') →
  ∃ events, pool_log s'.1 = pool_log s.1 ++ events ∧
    asked_one position (pc_request_timeout config * Z.of_nat (Datatypes.S left) + pauses attempt)
      events r.
Proof.
  revert attempt lag err s. induction left as [|left IH]; intros attempt lag err [p x] Ha Hl;
    rewrite ask_attempts_run; cbv zeta.
  all: destruct (f position x) as [[v|e] x'] eqn:Hf;
    [intros [= <- <-]; eexists; split; [done|]; apply asked_once; [done|]; by eexists _, _|].
  { rewrite (proj2 (Z.ltb_ge attempt _)), !andb_false_r by lia.
    intros [= <- <-]. eexists. split; [done|]. apply asked_once; [done|]. by eexists _, _. }
  assert (Hmore : ∀ d lag', attempt < pc_max_retries config → d ≤ backoff_delay attempt →
    ask_attempts hash_text local_usage_text sleep config f position (Datatypes.S left) (attempt + 1) lag'
      (Some e) (log_pool (PoolSlept d) (log_pool (PoolAsked position) p), sleep d x') = (r, s') →
    ∃ events, pool_log s'.1 = pool_log p ++ events ∧
      asked_one position (pc_request_timeout config * Z.of_nat (Datatypes.S (Datatypes.S left)) + pauses attempt)
        events r).
  { intros d lag' Hm Hd Hrun.
    destruct (IH (attempt + 1) lag' (Some e) _ ltac:(lia) ltac:(lia) Hrun) as (events & Hlog & Ho).
    eexists. split; [rewrite Hlog; simpl; by rewrite <- !app_assoc|]. by apply asked_again. }
  pose proof (backoff_long attempt Ha).
  destruct (is_behind _ _ e && _ && _) eqn:Hb; [|destruct (is_retryable _ _ e && _) eqn:Hre].
  - apply andb_true_iff in Hb as [_ Hm%Z.ltb_lt]. apply Hmore; [done|].
    unfold LAG_PAUSE, from_secs in *. lia.
  - apply andb_true_iff in Hre as [_ Hm%Z.ltb_lt]. by apply Hmore.
  - intros [= <- <-]. eexists. split; [done|]. apply asked_once; [done|]. by eexists _, _.
Qed.

(** The budget of one endpoint. *)
Definition per_endpoint : Z := pc_request_timeout config * (pc_max_retries config + 1) + pauses 0.

Lemma ask_endpoint_spec position s r s' :
  0 ≤ pc_max_retries config →
  ask_endpoint hash_text local_usage_text sleep config f position s = (r, s') →
  ∃ events, pool_log s'.1 = pool_log s.1 ++ events ∧ asked_one position per_endpoint events r.
Proof.
  intros Hm Hrun. destruct (ask_attempts_spec position (Z.to_nat (pc_max_retries config)) 0 0 None s r s'
    ltac:(lia) ltac:(lia) Hrun) as (events & H1 & H2).
  exists events. split; [done|]. unfold per_endpoint.
  by replace (pc_max_retries config + 1) with (Z.of_nat (Datatypes.S (Z.to_nat (pc_max_retries config)))) by lia.
Qed.

(** ** The ring *)

Definition endpoints : nat := length (pc_endpoints config).

(** The [j]-th endpoint a walk from [start] asks. *)
Definition ring (start j : Z) : nat := Z.to_nat ((start + j) mod Z.of_nat endpoints).

Lemma ring_covers start i : (i < endpoints)%nat → ∃ j, 0 ≤ j < Z.of_nat endpoints ∧ ring start j = i.
Proof.
  intros Hi. exists ((Z.of_nat i - start) mod Z.of_nat endpoints). unfold ring.
  split; [apply Z.mod_pos_bound; lia|]. rewrite Z.add_mod_idemp_r by lia.
  replace (start + (Z.of_nat i - start)) with (Z.of_nat i) by lia. rewrite Z.mod_small by lia. lia.
Qed.

(** The first revert among the failures, after one kept from before. *)
Fixpoint first_revert (named : option ClientError) (failures : list (nat * TransportError))
    : option ClientError :=
  match named, failures with
  | Some n, _ => Some n
  | None, [] => None
  | None, (_, e) :: rest => first_revert (named_revert e) rest
  end.

Definition failure_text (d : nat * TransportError) : string :=
  reason_of hash_text local_usage_text config d.1 d.2.

(** How a walk with [left] endpoints to go ends. *)
Record walked (operation : string) (start tried : Z) (left : nat) (reasons : list string)
    (named : option ClientError) (events : list pool_event) (r : result ClientError T) : Prop := {
  wk_cost : 0 ≤ pc_request_timeout config → cost events ≤ Z.of_nat left * per_endpoint;
  wk_end : ∃ failures : list (nat * TransportError),
    (∀ j d, failures !! j = Some d → d.1 = ring start (tried + Z.of_nat j)) ∧
    Forall (λ d, answered d.1 (Err d.2) ∧ PoolAsked d.1 ∈ events) failures ∧
    match r with
    | Ok v => (length failures < left)%nat ∧
        answered (ring start (tried + Z.of_nat (length failures))) (Ok v)
    | Err e => length failures = left ∧
        e = default (all_failed config operation (reasons ++ (failure_text <$> failures)))
              (first_revert named failures)
    end }.

Lemma first_revert_some n failures : first_revert (Some n) failures = Some n.
Proof. by destruct failures. Qed.

Lemma per_endpoint_nonneg : 0 ≤ pc_max_retries config → 0 ≤ pc_request_timeout config → 0 ≤ per_endpoint.
Proof. intros. unfold per_endpoint. pose proof (pauses_nonneg 0). nia. Qed.

Lemma walked_found operation start tried left reasons named events v :
  0 ≤ pc_max_retries config →
  asked_one (ring start tried) per_endpoint events (Ok v) →
  walked operation start tried (Datatypes.S left) reasons named events (Ok v).
Proof.
  intros Hm [H1 H2 H3]. split.
  - intros Ht. specialize (H3 Ht). pose proof (per_endpoint_nonneg Hm Ht). nia.
  - exists []. split; [done|]. split; [done|]. simpl. split; [lia|]. by rewrite Z.add_0_r.
Qed.

Lemma walked_cons operation start tried left reasons named events events' e r :
  asked_one (ring start tried) per_endpoint events (Err e) →
  walked operation start (tried + 1) left (reasons ++ [failure_text (ring start tried, e)])
    (match named with Some n => Some n | None => named_revert e end) events' r →
  walked operation start tried (Datatypes.S left) reasons named (events ++ events') r.
Proof.
  intros [H1 H2 H3] [Hc (failures & Hring & Hall & Hend)]. split.
  - intros Ht. specialize (H3 Ht). specialize (Hc Ht). rewrite cost_app. lia.
  - exists ((ring start tried, e) :: failures). split_and!.
    + intros [|j] d; simpl; [intros [= <-]; simpl; by rewrite Z.add_0_r|].
      intros Hd. rewrite (Hring j d Hd). f_equal. lia.
    + constructor; [split; [done|apply elem_of_app; by left]|].
      eapply Forall_impl; [exact Hall|]. intros d [? ?]. split; [done|]. apply elem_of_app. by right.
    + destruct r as [v|e']; simpl in *.
      * destruct Hend as [Hlen Ha]. split; [lia|].
        by replace (tried + Z.of_nat (Datatypes.S (length failures)))
          with (tried + 1 + Z.of_nat (length failures)) by lia.
      * destruct Hend as [Hlen ->]. split; [lia|]. rewrite <- app_assoc. simpl.
        destruct named; [by rewrite !first_revert_some|done].
Qed.

Lemma walk_from_spec operation start left tried reasons named s r s' :
  0 ≤ pc_max_retries config →
  walk_from hash_text local_usage_text sleep config operation f start left tried reasons named s
    = (r, s') →
  ∃ events, pool_log s'.1 = pool_log s.1 ++ events ∧
    walked operation start tried left reasons named events r.
Proof.
  intros Hm. revert tried reasons named s. induction left as [|left IH]; intros tried reasons named s; simpl.
  { intros [= <- <-]. exists []. rewrite app_nil_r. split; [done|]. split; [done|].
    exists []. rewrite app_nil_r. split; [done|]. split; [done|]. simpl. split; [done|]. by destruct named. }
  unfold mbind, PoolM_bind at 1.
  destruct (ask_endpoint hash_text local_usage_text sleep config f _ s) as [[v|e] s1] eqn:Ha;
    apply ask_endpoint_spec in Ha as (events & Hlog & Ho); try done.
  { intros [= <- <-]. exists events. split; [done|]. by apply walked_found. }
  assert (Hw : ∀ events' r, walked operation start (tried + 1) left
      (reasons ++ [failure_text (ring start tried, e)])
      (match named with Some n => Some n | None => named_revert e end) events' r →
    walked operation start tried (Datatypes.S left) reasons named (events ++ events') r)
    by (intros; by eapply walked_cons).
  destruct left as [|left].
  - intros [= <- <-]. exists events. split; [done|]. rewrite <- (app_nil_r events). apply Hw.
    split; [done|]. exists []. rewrite app_nil_r. split; [done|]. split; [done|]. simpl. split; [done|].
    by repeat case_match.
  - intros Hrun. destruct s1 as [p1 x1]. unfold rotate in Hrun.
    apply IH in Hrun as (events' & Hlog' & Hwalk).
    exists (events ++ events'). split; [rewrite Hlog'; simpl in *; by rewrite Hlog, app_assoc|].
    by apply Hw.
Qed.

(** ** What a walk keeps *)

(** A relation the calls and the pauses keep, and where an answer came from. *)
Section kept.
Context (R : X → X → Prop) `{!PreOrder R}.
Context (Hsleep : ∀ d x, R x (sleep d x)) (Hcall : ∀ i x, R x (f i x).2).

Definition found {A} (r : result A T) (x x' : X) : Prop :=
  R x x' ∧ ∀ v, r = Ok v → ∃ i x1 x2, R x x1 ∧ f i x1 = (Ok v, x2) ∧ R x2 x'.

Lemma found_after {A} (r : result A T) x x1 x' : R x x1 → found r x1 x' → found r x x'.
Proof using PreOrder0.
  intros H [H1 H2]. split; [by etrans|]. intros v Hv. destruct (H2 v Hv) as (i & y1 & y2 & Hy & ? & ?).
  exists i, y1, y2. split_and!; [by etrans|done|done].
Qed.

Lemma ask_attempts_found position left attempt lag err s r s' :
  ask_attempts hash_text local_usage_text sleep config f position left attempt lag err s = (r, s') →
  found r s.2 s'.2.
Proof using Hcall Hsleep PreOrder0.
  revert attempt lag err s. induction left as [|left IH]; intros attempt lag err [p x].
  { cbn [ask_attempts]. intros [= <- <-]. split; [done|]. by destruct err. }
  rewrite ask_attempts_run. cbv zeta. destruct (f position x) as [[v|e] x'] eqn:Hf.
  - intros [= <- <-]. pose proof (Hcall position x) as Hc. rewrite Hf in Hc. simpl in *.
    split; [done|]. intros v' [= <-]. by exists position, x, x'.
  - pose proof (Hcall position x) as Hc. rewrite Hf in Hc. simpl in Hc.
    repeat case_match; try (intros [= <- <-]; by split).
    all: intros Hrun%IH; eapply found_after; [|exact Hrun]; etrans; [exact Hc|]; apply Hsleep.
Qed.

Lemma walk_from_found operation start left tried reasons named s r s' :
  walk_from hash_text local_usage_text sleep config operation f start left tried reasons named s
    = (r, s') → found r s.2 s'.2.
Proof using Hcall Hsleep PreOrder0.
  revert tried reasons named s. induction left as [|left IH]; intros tried reasons named s; simpl.
  { intros [= <- <-]. by split. }
  unfold mbind, PoolM_bind at 1, ask_endpoint.
  destruct (ask_attempts _ _ _ _ _ _ _ _ _ _ s) as [[v|e] s1] eqn:Ha; apply ask_attempts_found in Ha.
  { intros [= <- <-]. destruct Ha as [H1 H2]. split; [done|]. intros v' [= <-]. by apply H2. }
  destruct left as [|left]; [intros [= <- <-]; split; [apply Ha|done]|].
  destruct s1 as [p1 x1]. intros Hrun%IH. eapply found_after; [|exact Hrun]. apply Ha.
Qed.

Lemma execute_found operation s r s' :
  execute_with_endpoint hash_text local_usage_text sleep config operation f s = (r, s') →
  found r s.2 s'.2.
Proof using Hcall Hsleep PreOrder0. apply walk_from_found. Qed.
End kept.

(** A walk fails with a revert or a summary. *)
Definition pool_error (e : ClientError) : Prop :=
  match e with CeRpcError _ | CeContractRevert _ _ => True | _ => False end.

Lemma named_revert_error e n : named_revert e = Some n → pool_error n.
Proof. unfold named_revert. repeat case_match; intros [=]; by subst. Qed.

Lemma walk_from_error operation start left tried reasons named s e s' :
  (∀ n, named = Some n → pool_error n) →
  walk_from hash_text local_usage_text sleep config operation f start left tried reasons named s
    = (Err e, s') → pool_error e.
Proof.
  revert tried reasons named s. induction left as [|left IH]; intros tried reasons named s Hn; simpl.
  { intros [= <- _]. destruct named; [by apply Hn|done]. }
  unfold mbind, PoolM_bind at 1. destruct (ask_endpoint _ _ _ _ _ _ s) as [[v|err] s1]; [done|].
  assert (Hn' : ∀ n, match named with Some n => Some n | None => named_revert err end = Some n → pool_error n).
  { intros n. destruct named; [intros [= <-]; by apply Hn|apply named_revert_error]. }
  destruct left as [|left]; [|destruct s1; by apply IH].
  intros [= <- _]. destruct (match named with Some n => _ | None => _ end); [by apply Hn'|done].
Qed.

(** A call goes to every endpoint before it fails.  An answer is one an
    endpoint gave.  On failure each endpoint of the list was asked and failed, and
    the error is the first contract revert among the failures, or else a text with
    every endpoint's reason in the order they were asked; so a call that one
    endpoint always answers succeeds, wherever the shared starting point is. *)
Theorem walks_try_every_endpoint operation s r s' :
  0 ≤ pc_max_retries config → (0 < endpoints)%nat →
  execute hash_text local_usage_text sleep config operation f s = (r, s') →
  match r with
  | Ok v => ∃ i, (i < endpoints)%nat ∧ answered i (Ok v)
  | Err e => ∃ failures : list (nat * TransportError), length failures = endpoints ∧
      (∀ i, (i < endpoints)%nat → ∃ err, (i, err) ∈ failures) ∧
      Forall (λ d, answered d.1 (Err d.2)) failures ∧
      e = default (all_failed config operation (failure_text <$> failures)) (first_revert None failures)
  end ∧
  ((∃ i, (i < endpoints)%nat ∧ ∀ err, ¬ answered i (Err err)) → ∃ v, r = Ok v).
Proof.
  intros Hm Hn Hrun. apply walk_from_spec in Hrun as (events & _ & [_ (failures & Hring & Hall & Hend)]);
    [|done].
  destruct r as [v|e]; destruct Hend as [Hlen Hend].
  { split; [|by eauto]. eexists. split; [|exact Hend]. unfold ring.
    pose proof (Z.mod_pos_bound (pool_index s.1 + (0 + Z.of_nat (length failures))) (Z.of_nat endpoints)). lia. }
  assert (Hevery : ∀ i, (i < endpoints)%nat → ∃ err, (i, err) ∈ failures).
  { intros i Hi. destruct (ring_covers (pool_index s.1) i Hi) as (j & Hj & <-).
    destruct (lookup_lt_is_Some_2 failures (Z.to_nat j)) as [[k err] Hd]; [fold endpoints in Hlen; lia|].
    exists err. pose proof (Hring _ _ Hd) as Hk. simpl in Hk. rewrite Z2Nat.id in Hk by lia. subst k.
    by apply list_elem_of_lookup_2 in Hd. }
  split.
  - exists failures. split_and!; [done|done| |done]. eapply Forall_impl; [exact Hall|]. by intros d [? _].
  - intros (i & Hi & Hok). destruct (Hevery i Hi) as [err Hin]. rewrite Forall_forall in Hall.
    destruct (Hall _ Hin) as [Ha _]. by apply Hok in Ha.
Qed.

(** The time a call may take, when an ask is at most one request timeout: the
    asks and the pauses of a walk add up to at most [worst_case_walk], from which
    the submission deadline is derived. *)
Theorem walks_fit_their_budget operation s r s' :
  0 ≤ pc_max_retries config → 0 ≤ pc_request_timeout config →
  execute hash_text local_usage_text sleep config operation f s = (r, s') →
  ∃ events, pool_log s'.1 = pool_log s.1 ++ events ∧ cost events ≤ worst_case_walk config.
Proof.
  intros Hm Ht Hrun. apply walk_from_spec in Hrun as (events & Hlog & [Hc _]); [|done].
  exists events. split; [done|]. specialize (Hc Ht).
  unfold worst_case_walk, per_endpoint, pauses in *. rewrite Z.sub_0_r in Hc. lia.
Qed.

End walk.

(** ** Gas *)

(** The gas limit is at least the floor and, above it, at most the estimate plus
    the addition allowed. *)
Lemma gas_within_bounds g estimated :
  ge_floor g ≤ compute_bounds g estimated ∧
  compute_bounds g estimated ≤ Z.max (ge_floor g) (estimated + ge_max_addition g).
Proof.
  unfold compute_bounds, sat_add_u64.
  destruct (Z.ltb_spec (Z.min (estimated + ge_max_addition g) u64_max)
    (f64_to_u64 (f64_mul (as_f64 estimated) (ge_buffer_multiplier g))));
    case_match eqn:E; [apply Z.ltb_lt in E|apply Z.ltb_ge in E|apply Z.ltb_lt in E|apply Z.ltb_ge in E]; lia.
Qed.

(** ** Witnesses *)

(** Three endpoints: the first times out, the second is behind twice and then
    answers, the third reverts. *)
Definition demo_rpc_pool : RpcPoolConfig :=
  mkPoolConfig [mkEndpoint "https://a.example/key" (Some "a.example") None;
                mkEndpoint "https://b.example:8545/" (Some "b.example") (Some 8545);
                mkEndpoint "https://c.example" (Some "c.example") None] (from_secs 10) 3.
Definition demo_call (position : nat) (n : Z) : result TransportError Z * Z :=
  (match position with
   | O => Err (OtherFault "operation timed out reaching https://a.example/key")
   | 1%nat => if n <? 7 then Err (OtherFault "endpoint is at block 5, behind a block already seen (9)")
              else Ok n
   | _ => Err (BoxedError (CeContractRevert [1; 2; 3; 4] [1; 2; 3; 4]))
   end, n + 1).

Lemma walks_try_every_endpoint_witness :
  let run := execute (λ _, "") id (λ _ x, x) demo_rpc_pool "read" demo_call (mkPool 0 [], 0) in
  run.1 = Err (CeContractRevert [1; 2; 3; 4] [1; 2; 3; 4]) ∧ length (pool_log run.2.1) = 13%nat ∧
  ∃ failures, length failures = 3%nat ∧ Forall (λ d, answered demo_call d.1 (Err d.2)) failures.
Proof.
  intros run. split; [vm_compute; reflexivity|]. split; [vm_compute; reflexivity|].
  assert (Hr : run.1 = Err (CeContractRevert [1; 2; 3; 4] [1; 2; 3; 4])) by (vm_compute; reflexivity).
  destruct run as [r s'] eqn:E. simpl in Hr. subst r.
  destruct (walks_try_every_endpoint (λ _, "") id (λ _ x, x) demo_rpc_pool demo_call "read" (mkPool 0 [], 0) _ s'
    ltac:(vm_compute; discriminate) ltac:(vm_compute; lia) E) as [H _].
  destruct H as (failures & H1 & _ & H3 & _).
  exists failures. split; [exact H1|exact H3].
Defined.

Lemma walks_fit_their_budget_witness :
  let run := execute (λ _, "") id (λ _ x, x) demo_rpc_pool "read" demo_call (mkPool 0 [], 4) in
  run.1 = Ok 8 ∧ cost demo_rpc_pool (pool_log run.2.1) ≤ worst_case_walk demo_rpc_pool.
Proof.
  intros run. split; [vm_compute; reflexivity|]. destruct run as [r s'] eqn:E.
  destruct (walks_fit_their_budget (λ _, "") id (λ _ x, x) demo_rpc_pool demo_call "read" (mkPool 0 [], 4) r s'
    ltac:(vm_compute; discriminate) ltac:(vm_compute; discriminate) E) as (events & H1 & H2).
  simpl in H1 |- *. rewrite H1. exact H2.
Defined.

End RpcPoolProps.
