(* ===== verification/ChainRpc.v ===== *)
(** * The chain client
    (bin/dipper-service/src/chain_client/client.rs: [AlloyChainClient])

    Submits transactions and reads the contracts through the pool of endpoints.
    The endpoints, the clock, signing and the ABI are behind a class and
    parameters, and nothing is assumed of what an endpoint answers.  Calldata and
    views are kept as the calls they encode.  A submission that runs over its
    deadline loses the answer of the wait it is in; its effects stand.  Texts
    nobody matches on are shortened. *)

From S2P Require Import Prelude Schema Worker Rca CancelDispatch Escrow Liveness Selection.
From S2P Require Import ChainEvents RpcPool SeenBlocks.
Import Schema Worker Rca CancelDispatch Escrow Liveness Selection ChainEvents RpcPool SeenBlocks.
From stdpp Require Import pretty.
Local Open Scope Z_scope.

Module ChainRpc.

Definition OFFER_TYPE_NEW : Z := 1.
Definition RECEIPT_POLL_TIMEOUT : Z := from_secs 15.
Definition RECEIPT_POLL_INTERVAL : Z := 500000000.
Definition VERSION_CURRENT : Z := 0.
Definition MAX_NONCE_RETRIES : nat := 2.
Definition NONCE_UNINITIALIZED : Z := u64_max.
Definition FAR_AHEAD_OF_A_SEEN_BLOCK : string := "too far ahead of the newest block seen".

(** ** Agreement states *)

Definition STATE_REGISTERED : Z := 1.
Definition STATE_ACCEPTED : Z := 2.
Definition STATE_NOTICE_GIVEN : Z := 4.
Definition STATE_SETTLED : Z := 8.
Definition STATE_BY_PROVIDER : Z := 32.

Definition has_flag (state flag : Z) : bool := negb (Z.land state flag =? 0).

Definition still_live (state : Z) : bool :=
  let accepted := has_flag state STATE_ACCEPTED in
  let pending_offer := has_flag state STATE_REGISTERED && negb accepted
                       && negb (has_flag state STATE_SETTLED) in
  pending_offer || (accepted && negb (has_flag state STATE_NOTICE_GIVEN)).

Definition on_chain_state (state : Z) : AgreementOnChain :=
  if still_live state then Live
  else if has_flag state STATE_BY_PROVIDER then EndedByIndexer
  else NotLive.

(** ** Requests *)

Inductive Calldata : Type :=
| OfferAgreement (collector : N) (offer_type : Z) (rca : RecurringCollectionAgreement)
| CancelAgreement (collector agreement_id : N) (version_hash : list Z) (options : Z)
| ReconcileProvider (collector provider : N)
| ReconcileAgreement (collector agreement_id : N)
| NoInput.

Inductive View : Type :=
| GetAgreementDetails (agreement_id : N) (index : Z)
| GetProviderCount (collector : N)
| GetProviderAt (collector : N) (index : Z)
| GetEscrowAccount (collector provider : N)
| GetAgreementCount (collector provider : N)
| GetAgreementAt (collector provider : N) (index : Z)
| GetMaxNextClaim (agreement_id : N).

(** [TransactionRequest], from the signer. *)
Record Tx : Type := mkTx {
  tx_to : N;
  tx_input : Calldata;
  tx_gas_limit : option Z;
  tx_max_fee_per_gas : option Z;
  tx_priority_fee : option Z;
  tx_chain_id : option Z;
  tx_nonce : option Z }.

Definition with_nonce (nonce : Z) (tx : Tx) : Tx :=
  mkTx (tx_to tx) (tx_input tx) (tx_gas_limit tx) (tx_max_fee_per_gas tx) (tx_priority_fee tx)
    (tx_chain_id tx) (Some nonce).

Record Block : Type := mkBlock { bk_number : Z; bk_timestamp : Z; bk_base_fee : option Z }.
Record Receipt : Type := mkReceipt { rc_block : option Z; rc_status : bool }.

(** An endpoint by its place in the list; the clock; and waiting. *)
Class Endpoints (X : Type) : Type := {
  rpc_block_number : nat → X → result TransportError Z * X;
  rpc_latest_block : nat → X → result TransportError (option Block) * X;
  rpc_priority_fee : nat → X → result TransportError Z * X;
  rpc_estimate_gas : nat → Tx → X → result TransportError Z * X;
  rpc_transaction_count : nat → X → result TransportError Z * X;
  rpc_send_raw_transaction : nat → Tx → X → result TransportError () * X;
  rpc_receipt : nat → N → X → result TransportError (option Receipt) * X;
  rpc_call : nat → N → View → option Z → X → result TransportError (list Z) * X;
  rpc_now : X → Z;
  rpc_sleep : Z → X → X }.

Inductive ReceiptWait : Type :=
| Mined (succeeded : bool)
| NotSeen (checked : bool).

Record SubmittedTx : Type := mkSubmitted { sx_hash : N; sx_nonce : Z }.

(** What the client asked for and got: transactions offered to an endpoint,
    receipts looked up, latest blocks reported for a read, contract reads at a
    block. *)
Inductive client_event : Type :=
| EvSent (endpoint : nat) (tx : Tx) (answer : result TransportError ())
| EvReceipt (tx_hash : N) (answer : result ClientError (option Receipt))
| EvHead (endpoint : nat) (head asked_at : Z)
| EvRead (endpoint : nat) (view : View) (head : Z) (answer : result TransportError (list Z)).

(** The part of the configuration the client reads. *)
Record ClientConfig : Type := mkClientConfig {
  cc_pool : RpcPoolConfig;
  cc_gas : GasEstimator;
  cc_gas_price_multiplier : f64;
  cc_max_gas_price_gwei : Z;
  cc_chain_id : Z;
  cc_signer : N;
  cc_recurring_collector : N;
  cc_recurring_agreement_manager : N }.

(** ** Error texts the client matches on *)

Definition NONCE_ERROR_PATTERNS : list string :=
  ["nonce too low"; "nonce is too low"; "invalid nonce"; "replacement transaction underpriced";
   "already known"].
Definition ALREADY_BROADCAST_PATTERNS : list string :=
  ["already known"; "already imported"; "known transaction"].

Definition is_nonce_error (text : string) : bool :=
  existsb (contains (to_lowercase text)) NONCE_ERROR_PATTERNS.

Definition derive_submit_deadline (pool : RpcPoolConfig) : Z :=
  Z.min (worst_case_walk pool * 2) (from_secs 420 / 5 * 4).

Section client.
Context {X : Type} `{!Endpoints X}.
Context (hash_text : N → string) (local_usage_text : string → string).
(** [tx.build(&wallet)]: the hash of the signed transaction, or why it can't be
    signed; the ABI's decoders. *)
Context (sign : Tx → result string N).
Context (decode_state decode_u256 : list Z → option Z) (decode_address decode_id : list Z → option N).
Context (decode_account : list Z → option EscrowAccount).
Context (config : ClientConfig).

Definition is_already_broadcast (e : TransportError) : bool :=
  existsb (contains (to_lowercase (error_text hash_text local_usage_text e)))
    ALREADY_BROADCAST_PATTERNS.

(** What a call to an endpoint works on. *)
Record Inner : Type := mkInner {
  in_world : X;
  in_heads : EndpointHeads;
  in_refusals : Refusals;
  in_log : list client_event }.

Record ClientState : Type := mkClient {
  cl_pool : PoolState;
  cl_inner : Inner;
  cl_nonce : Z;
  cl_seen : SeenBlock }.

Definition K (A : Type) : Type := ClientState → A * ClientState.
#[export] Instance K_ret : MRet K := λ A a s, (a, s).
#[export] Instance K_bind : MBind K := λ A B k m s, let '(a, s') := m s in k a s'.

(** [?] *)
Definition try_k {A B} (m : K (result ClientError A)) (k : A → K (result ClientError B))
    : K (result ClientError B) :=
  r ← m; match r with Ok a => k a | Err e => mret (Err e) end.

Definition inner_sleep (d : Z) (i : Inner) : Inner :=
  mkInner (rpc_sleep d (in_world i)) (in_heads i) (in_refusals i) (in_log i).

Definition run_pool {T} (operation : string) (f : nat → Inner → result TransportError T * Inner)
    : K (result ClientError T) := λ s,
  let '(r, (p, i)) := execute_with_endpoint hash_text local_usage_text inner_sleep (cc_pool config)
                        operation f (cl_pool s, cl_inner s) in
  (r, mkClient p i (cl_nonce s) (cl_seen s)).

(** A request to an endpoint. *)
Definition request {A} (f : X → A * X) (i : Inner) : A * Inner :=
  let '(a, x) := f (in_world i) in (a, mkInner x (in_heads i) (in_refusals i) (in_log i)).

Definition log_client (e : client_event) (i : Inner) : Inner :=
  mkInner (in_world i) (in_heads i) (in_refusals i) (in_log i ++ [e]).

Definition log_k (e : client_event) : K () := λ s,
  (tt, mkClient (cl_pool s) (log_client e (cl_inner s)) (cl_nonce s) (cl_seen s)).

Definition now : K Z := λ s, (rpc_now (in_world (cl_inner s)), s).
Definition pause (d : Z) : K () := λ s,
  (tt, mkClient (cl_pool s) (inner_sleep d (cl_inner s)) (cl_nonce s) (cl_seen s)).
Definition with_seen {A} (f : Z → SeenBlock → A * SeenBlock) : K A := λ s,
  let '(a, seen) := f (rpc_now (in_world (cl_inner s))) (cl_seen s) in
  (a, mkClient (cl_pool s) (cl_inner s) (cl_nonce s) seen).
Definition fresh_refusals : K () := λ s,
  let i := cl_inner s in
  (tt, mkClient (cl_pool s) (mkInner (in_world i) (in_heads i) new_refusals (in_log i))
         (cl_nonce s) (cl_seen s)).

(** ** Fees *)

Definition estimate (tx : Tx) (endpoint : nat) (i : Inner) : result TransportError Z * Inner :=
  let '(r, i) := request (rpc_estimate_gas endpoint tx) i in
  (match r with
   | Ok estimated => Ok (compute_bounds (cc_gas config) estimated)
   | Err e => Err (BoxedError (classify_estimate_error hash_text local_usage_text e))
   end, i).

(** The base fee and the priority fee. *)
Definition get_gas_prices (endpoint : nat) (i : Inner) : result ClientError (Z * Z) * Inner :=
  let '(block, i) := request (rpc_latest_block endpoint) i in
  match block with
  | Err e => (Err (CeRpcError ("Failed to get block: " +:+ error_text hash_text local_usage_text e)), i)
  | Ok None => (Err (CeRpcError "No latest block found"), i)
  | Ok (Some block) =>
      match bk_base_fee block with
      | None => (Err (CeRpcError "Block has no base fee (pre-EIP-1559?)"), i)
      | Some base_fee =>
          let '(fee, i) := request (rpc_priority_fee endpoint) i in
          (match fee with
           | Ok priority_fee => Ok (base_fee, priority_fee)
           | Err e => Err (CeRpcError ("Failed to get priority fee: " +:+
                             error_text hash_text local_usage_text e))
           end, i)
      end
  end.

Definition gas_prices : K (result ClientError (Z * Z)) :=
  run_pool "get_gas_prices" (λ endpoint i,
    let '(r, i) := get_gas_prices endpoint i in
    (match r with
     | Ok prices => Ok prices
     | Err e => Err (LocalUsage (client_error_text hash_text e))
     end, i)).

(** ** Nonces *)

Definition set_nonce (n : Z) (s : ClientState) : ClientState :=
  mkClient (cl_pool s) (cl_inner s) n (cl_seen s).

Definition fetch_chain_nonce : K (result ClientError Z) :=
  run_pool "get_nonce" (λ endpoint, request (rpc_transaction_count endpoint)).

Definition next_nonce : K (result ClientError Z) := λ s,
  if negb (cl_nonce s =? NONCE_UNINITIALIZED) then (Ok (cl_nonce s), s)
  else
    let '(r, s) := fetch_chain_nonce s in
    match r with
    | Ok chain_nonce => (Ok chain_nonce, set_nonce chain_nonce s)
    | Err e => (Err e, s)
    end.

Definition commit_nonce (nonce : Z) : K () := λ s,
  (tt, set_nonce (Z.max (cl_nonce s) (nonce + 1)) s).

Definition resync_nonce : K (result ClientError ()) := λ s,
  let '(r, s) := fetch_chain_nonce s in
  match r with
  | Ok chain_nonce => (Ok tt, set_nonce (Z.max (cl_nonce s) chain_nonce) s)
  | Err e => (Err e, s)
  end.

(** ** Sending *)

(** The same signed bytes to each endpoint. *)
Definition offer_bytes (tx : Tx) (signed_hash : N) (endpoint : nat) (i : Inner)
    : result TransportError N * Inner :=
  let '(r, i) := request (rpc_send_raw_transaction endpoint tx) i in
  (match r with
   | Ok _ => Ok signed_hash
   | Err e => if is_already_broadcast e then Ok signed_hash else Err e
   end, log_client (EvSent endpoint tx r) i).

Definition send_transaction (tx : Tx) : K (result ClientError N) :=
  if negb (bool_decide (tx_chain_id tx = Some (cc_chain_id config)))
  then mret (Err (CeSubmitFailed "refusing to sign for another chain"))
  else
    match sign tx with
    | Err e => mret (Err (CeSubmitFailed ("Transaction not ready to send: " +:+ e)))
    | Ok signed_hash =>
        r ← run_pool "send_transaction" (offer_bytes tx signed_hash);
        mret (match r with
              | Err (CeRpcError cause) => Err (CeSubmitFailed cause)
              | other => other
              end)
    end.

(** The attempts at a nonce, [None] when the deadline cut one short: [cut] says
    of each wait whether it did. *)
Fixpoint submit_attempts (tx : Tx) (cut : nat → bool) (wait left : nat)
    : K (option (result ClientError SubmittedTx)) :=
  match left with
  | O => mret (Some (Err (CeSubmitFailed "Failed to send transaction after 2 nonce retries")))
  | Datatypes.S left' =>
      synced ← (if (left =? MAX_NONCE_RETRIES)%nat then mret (Ok tt) else resync_nonce);
      if cut wait then mret None
      else
        match synced with
        | Err e => mret (Some (Err e))
        | Ok _ =>
            nonce ← next_nonce;
            if cut (wait + 1)%nat then mret None
            else
              match nonce with
              | Err e => mret (Some (Err e))
              | Ok nonce =>
                  sent ← send_transaction (with_nonce nonce tx);
                  if cut (wait + 2)%nat then mret None
                  else
                    match sent with
                    | Ok tx_hash =>
                        _ ← commit_nonce nonce;
                        mret (Some (Ok (mkSubmitted tx_hash nonce)))
                    | Err e =>
                        if is_nonce_error (client_error_text hash_text e)
                           && negb (left' =? 0)%nat
                        then submit_attempts tx cut (wait + 3) left'
                        else mret (Some (Err e))
                    end
              end
        end
  end.

Definition sign_and_send_locked (tx : Tx) (cut : nat → bool)
    : K (option (result ClientError SubmittedTx)) := submit_attempts tx cut 0 MAX_NONCE_RETRIES.

(** [under_submit_deadline] *)
Definition sign_and_send (tx : Tx) (cut : nat → bool) : K (result ClientError SubmittedTx) :=
  r ← sign_and_send_locked tx cut;
  mret (default (Err (CeSubmitFailed ("gave up submitting after " +:+
    pretty (as_secs (derive_submit_deadline (cc_pool config))) +:+
    "s holding the submission lock"))) r).

Definition build_and_send_call (to : N) (calldata : Calldata) (cut : nat → bool)
    : K (result ClientError SubmittedTx) :=
  let tx := mkTx to calldata None None None None None in
  try_k (run_pool "estimate_gas" (estimate tx)) (λ gas_limit,
  try_k gas_prices (λ '(base_fee, priority_fee),
  let max_fee_per_gas := calculate_max_fee base_fee priority_fee (cc_gas_price_multiplier config) in
  if exceeds_max_gas_price max_fee_per_gas (cc_max_gas_price_gwei config)
  then mret (Err (CeSubmitFailed "Gas price exceeds maximum"))
  else
    sign_and_send (mkTx to calldata (Some gas_limit) (Some max_fee_per_gas) (Some priority_fee)
                     (Some (cc_chain_id config)) None) cut)).

Definition classify_fill_nonce_gap_outcome (submission : result ClientError N)
    : result ClientError () :=
  match submission with
  | Ok _ => Ok tt
  | Err e => if is_nonce_error (client_error_text hash_text e) then Ok tt else Err e
  end.

Definition fill_nonce_gap (nonce : Z) : K (result ClientError ()) :=
  try_k gas_prices (λ '(base_fee, priority_fee),
  let max_fee_per_gas := calculate_max_fee base_fee priority_fee (cc_gas_price_multiplier config) in
  r ← send_transaction (mkTx (cc_signer config) NoInput (Some 21000) (Some max_fee_per_gas)
        (Some priority_fee) (Some (cc_chain_id config)) (Some nonce));
  mret (classify_fill_nonce_gap_outcome r)).

(** ** Receipts *)

Definition confirm_seen (block : Z) : K () := with_seen (λ now seen, (tt, confirm block now seen)).

(** The loop, for at most [polls] checks. *)
Fixpoint poll_receipt (tx_hash : N) (deadline : Z) (polls : nat) (checked : bool) : K ReceiptWait :=
  match polls with
  | O => mret (NotSeen checked)
  | Datatypes.S polls' =>
      receipt ← run_pool "get_transaction_receipt" (λ endpoint, request (rpc_receipt endpoint tx_hash));
      _ ← log_k (EvReceipt tx_hash receipt);
      match receipt with
      | Ok (Some r) =>
          _ ← (match rc_block r with Some block => confirm_seen block | None => mret tt end);
          mret (Mined (rc_status r))
      | _ =>
          let checked := checked || match receipt with Ok _ => true | Err _ => false end in
          t ← now;
          if deadline <=? t then mret (NotSeen checked)
          else
            _ ← pause RECEIPT_POLL_INTERVAL;
            poll_receipt tx_hash deadline polls' checked
      end
  end.

(** Enough checks for a clock that moves on by each pause. *)
Definition RECEIPT_POLLS : nat := Z.to_nat (RECEIPT_POLL_TIMEOUT / RECEIPT_POLL_INTERVAL) + 1.

Definition wait_for_receipt (tx_hash : N) : K ReceiptWait :=
  t ← now;
  poll_receipt tx_hash (t + RECEIPT_POLL_TIMEOUT) RECEIPT_POLLS false.

(** What offers, cancels and reconciles do with their call. *)
Definition submit_and_confirm (calldata : Calldata) (cut : nat → bool)
    : K (result ClientError (option N)) :=
  try_k (build_and_send_call (cc_recurring_agreement_manager config) calldata cut) (λ submitted,
  waited ← wait_for_receipt (sx_hash submitted);
  match waited with
  | Mined true => mret (Ok (Some (sx_hash submitted)))
  | Mined false => mret (Err (CeTxReverted (sx_hash submitted)))
  | NotSeen checked =>
      _ ← fill_nonce_gap (sx_nonce submitted);
      mret (Err (CeTxDropped (sx_hash submitted) checked))
  end).

Definition client_offer_via_manager (cut : nat → bool) (rca : RecurringCollectionAgreement)
    : K (result ClientError (option N)) :=
  submit_and_confirm (OfferAgreement (cc_recurring_collector config) OFFER_TYPE_NEW rca) cut.

Definition client_cancel_via_manager (cut : nat → bool) (collector agreement_id : N)
    (version_hash : list Z) (options : Z) : K (result ClientError (option N)) :=
  submit_and_confirm (CancelAgreement collector agreement_id version_hash options) cut.

Definition client_reconcile_provider (cut : nat → bool) (collector provider : N)
    : K (result ClientError (option N)) :=
  submit_and_confirm (ReconcileProvider collector provider) cut.

Definition client_reconcile_agreement (cut : nat → bool) (collector agreement_id : N)
    : K (result ClientError (option N)) :=
  submit_and_confirm (ReconcileAgreement collector agreement_id) cut.

(** ** Reads *)

(** [latest_blocks]: each endpoint asked once for its latest block, the ones that
    fail or are too late left out. *)
Fixpoint ask_heads (endpoints : list nat) (i : Inner) : list Z * Inner :=
  match endpoints with
  | [] => ([], i)
  | e :: rest =>
      let '(r, i) := request (rpc_block_number e) i in
      let '(heads, i) := ask_heads rest i in
      (match r with Ok head => head :: heads | Err _ => heads end, i)
  end.

Definition endpoint_count : nat := length (pc_endpoints (cc_pool config)).

Definition latest_blocks : K (list Z) := λ s,
  let '(heads, i) := ask_heads (seq 0 endpoint_count) (cl_inner s) in
  (heads, mkClient (cl_pool s) i (cl_nonce s) (cl_seen s)).

Definition cross_check_seen_block : K () :=
  if (endpoint_count <? 2)%nat then mret tt
  else
    due ← with_seen cross_check_due;
    if negb due then mret tt
    else
      heads ← latest_blocks;
      match agreed_head heads with
      | Some head => confirm_seen head
      | None => mret tt
      end.

Definition note_block (block : Z) : K Noted :=
  with_seen (λ now, advance block now (endpoint_count <? 2)%nat).

Definition block_bounds : K (Z * Z) := with_seen (λ now seen, (bounds seen now, seen)).

Definition refuse (f : Refusals → bool * Refusals) (i : Inner) : bool * Inner :=
  let '(refused, r) := f (in_refusals i) in
  (refused, mkInner (in_world i) (in_heads i) r (in_log i)).

Definition set_heads (f : EndpointHeads → EndpointHeads) (i : Inner) : Inner :=
  mkInner (in_world i) (f (in_heads i)) (in_refusals i) (in_log i).

(** [refusals.other(...)] *)
Definition other {A} (r : result TransportError A) (i : Inner) : Inner :=
  mkInner (in_world i) (in_heads i)
    (note_other (match r with Ok _ => false | Err _ => true end) (in_refusals i)) (in_log i).

(** [EndpointHeads::latest] *)
Definition latest_head (endpoint : nat) (seen : Z) (i : Inner) : result TransportError Z * Inner :=
  let asked_at := rpc_now (in_world i) in
  let reusable := head ← fresh_head endpoint asked_at (in_heads i);
                  if seen <=? head then Some head else None in
  match reusable with
  | Some head => (Ok head, i)
  | None =>
      let '(r, i) := request (rpc_block_number endpoint) i in
      let i := other r i in
      match r with
      | Ok head => (Ok head, log_client (EvHead endpoint head asked_at)
                               (set_heads (remember_head endpoint head asked_at) i))
      | Err e => (Err e, i)
      end
  end.

Definition behind_error (head seen : Z) : TransportError :=
  OtherFault ("endpoint is at block " +:+ pretty head +:+ ", " +:+ BEHIND_A_SEEN_BLOCK +:+
    " (" +:+ pretty seen +:+ ")").
Definition far_ahead_error (head seen : Z) : TransportError :=
  OtherFault ("endpoint is at block " +:+ pretty head +:+ ", " +:+ FAR_AHEAD_OF_A_SEEN_BLOCK +:+
    " (" +:+ pretty seen +:+ ")").

(** The inner read, at the endpoint's head. *)
Definition read_at_head (to : N) (view : View) (endpoint : nat) (head seen highest : Z) (i : Inner)
    : result TransportError (list Z) * Inner :=
  let '(behind, i) := refuse (refuse_behind head seen) i in
  if behind : bool then (Err (behind_error head seen), i)
  else
    let '(ahead, i) := refuse (refuse_far_ahead head seen highest) i in
    if ahead : bool then (Err (far_ahead_error head seen), i)
    else
      let '(r, i) := request (rpc_call endpoint to view (Some head)) i in
      (r, log_client (EvRead endpoint view head r) (other r i)).

Definition read_endpoint (to : N) (view : View) (seen highest : Z) (endpoint : nat) (i : Inner)
    : result TransportError (Z * list Z) * Inner :=
  let '(head, i) := latest_head endpoint seen i in
  match head with
  | Err e => (Err e, i)
  | Ok head =>
      let '(r, i) := read_at_head to view endpoint head seen highest i in
      match r with
      | Ok output => (Ok (head, output), i)
      | Err e => (Err e, set_heads (forget_head endpoint) i)
      end
  end.

(** With the decoder of the view's answer. *)
Definition view_at_seen_block {A} (to : N) (view : View) (decode : list Z → option A)
    (operation : string) : K (result ClientError A) :=
  _ ← cross_check_seen_block;
  b ← block_bounds;
  _ ← fresh_refusals;
  try_k (run_pool operation (read_endpoint to view b.1 b.2)) (λ '(head, output),
  _ ← note_block head;
  mret (match decode output with
        | Some a => Ok a
        | None => Err (CeRpcError ("undecodable " +:+ operation))
        end)).

Definition agreement_state (agreement_id : N) : K (result ClientError Z) :=
  view_at_seen_block (cc_recurring_collector config)
    (GetAgreementDetails agreement_id VERSION_CURRENT) decode_state "get_agreement_details".

Definition client_agreement_on_chain (agreement_id : N) : K (result ClientError AgreementOnChain) :=
  try_k (agreement_state agreement_id) (λ state, mret (Ok (on_chain_state state))).

Definition read_latest_block (seen highest : Z) (endpoint : nat) (i : Inner)
    : result TransportError (option Block) * Inner :=
  let '(r, i) := request (rpc_latest_block endpoint) i in
  let i := other r i in
  match r with
  | Ok (Some block) =>
      let '(ahead, i) := refuse (refuse_far_ahead (bk_number block) seen highest) i in
      if ahead : bool then (Err (far_ahead_error (bk_number block) seen), i) else (Ok (Some block), i)
  | _ => (r, i)
  end.

Definition client_latest_block_timestamp : K (result ClientError Z) :=
  _ ← cross_check_seen_block;
  b ← block_bounds;
  _ ← fresh_refusals;
  try_k (run_pool "get_latest_block" (read_latest_block b.1 b.2)) (λ block,
  match block with
  | None => mret (Err (CeRpcError "no latest block returned"))
  | Some block => _ ← note_block (bk_number block); mret (Ok (bk_timestamp block))
  end).

Definition client_view {A} (to : N) (view : View) (decode : list Z → option A) (operation : string)
    : K (result ClientError A) :=
  try_k (run_pool operation (λ endpoint, request (rpc_call endpoint to view None))) (λ output,
  mret (match decode output with
        | Some a => Ok a
        | None => Err (CeRpcError ("undecodable " +:+ operation))
        end)).

(** [u64::try_from(count)] *)
Definition plausible (count : Z) : K (result ClientError Z) :=
  mret (if count <=? u64_max then Ok count else Err (CeRpcError "implausible count")).

(** The loop over the manager's list, with [left] places to go. *)
Fixpoint list_providers (collector : N) (index : Z) (left : nat) (providers : list N) (seen : gset N)
    (complete : bool) : K TrackedProviders :=
  match left with
  | O => mret (mkTracked providers complete)
  | Datatypes.S left' =>
      r ← client_view (cc_recurring_agreement_manager config) (GetProviderAt collector index)
            decode_address "get_provider_at";
      match r with
      | Ok provider =>
          if bool_decide (provider ∈ seen)
          then list_providers collector (index + 1) left' providers seen false
          else list_providers collector (index + 1) left' (providers ++ [provider])
                 ({[provider]} ∪ seen) complete
      | Err _ => mret (mkTracked providers false)
      end
  end.

Definition client_tracked_providers (collector : N) : K (result ClientError TrackedProviders) :=
  try_k (client_view (cc_recurring_agreement_manager config) (GetProviderCount collector)
           decode_u256 "get_provider_count") (λ count,
  try_k (plausible count) (λ count,
  tracked ← list_providers collector 0 (Z.to_nat count) [] ∅ true;
  mret (Ok tracked))).

Definition client_escrow_account (collector provider : N) : K (result ClientError EscrowAccount) :=
  client_view (cc_recurring_agreement_manager config) (GetEscrowAccount collector provider)
    decode_account "get_escrow_account".

Definition client_tracked_agreement_count (collector provider : N) : K (result ClientError Z) :=
  try_k (client_view (cc_recurring_agreement_manager config) (GetAgreementCount collector provider)
           decode_u256 "get_agreement_count") plausible.

Definition client_tracked_agreement_at (collector provider : N) (index : Z)
    : K (result ClientError N) :=
  client_view (cc_recurring_agreement_manager config) (GetAgreementAt collector provider index)
    decode_id "get_agreement_at".

Definition client_max_next_claim (collector agreement_id : N) : K (result ClientError Z) :=
  client_view collector (GetMaxNextClaim agreement_id) decode_u256 "get_max_next_claim".

(** ** The interfaces the client implements *)

(** A client error as its callers tell it apart. *)
Definition forget_error (e : ClientError) : ChainClientError :=
  match e with
  | CeSubmitFailed _ => SubmitFailed
  | CeConfigError _ => ConfigError
  | CeRpcError _ => RpcError
  | CeTxDropped tx_hash receipt_checked => TxDropped tx_hash receipt_checked
  | CeTxReverted tx_hash => TxReverted tx_hash
  | CeContractRevert selector _ => ContractRevert (foldl (λ acc b, acc * 256 + b) 0 selector)
  end.

Definition as_trait {A} (m : K (result ClientError A)) : ClientState → result ChainClientError A * ClientState :=
  λ s, let '(r, s') := m s in (match r with Ok a => Ok a | Err e => Err (forget_error e) end, s').

(** Where the deadline cuts the submission started in a state. *)
Context (cuts : ClientState → nat → bool).

Definition AlloyChainClient : ChainClient ClientState := {|
  agreement_on_chain id := as_trait (client_agreement_on_chain id);
  cancel_via_manager collector id version_hash options s :=
    as_trait (client_cancel_via_manager (cuts s) collector id version_hash options) s |}.

Definition AlloyOfferClient : OfferClient ClientState := λ rca s,
  as_trait (client_offer_via_manager (cuts s) rca) s.

Definition AlloyChainClock : ChainClock ClientState := as_trait client_latest_block_timestamp.

Definition AlloyEscrowReader : ManagerEscrowReader ClientState := {|
  tracked_providers collector := as_trait (client_tracked_providers collector);
  escrow_account collector provider := as_trait (client_escrow_account collector provider);
  tracked_agreement_count collector provider :=
    as_trait (client_tracked_agreement_count collector provider);
  tracked_agreement_at collector provider index :=
    as_trait (client_tracked_agreement_at collector provider index);
  max_next_claim collector id := as_trait (client_max_next_claim collector id) |}.

Definition AlloyReconcileClient : ReconcileClient ClientState := {|
  reconcile_provider collector provider s :=
    as_trait (client_reconcile_provider (cuts s) collector provider) s;
  reconcile_agreement collector id s :=
    as_trait (client_reconcile_agreement (cuts s) collector id) s |}.

End client.
End ChainRpc.
