(* ===== verification/ChainRpcProps.v ===== *)
(** * What the chain client does

    Whatever the endpoints answer: successful submissions never share a nonce;
    a call to the manager reports what its receipt said, and sends nothing but its
    own call within the fee limits and, when it was dropped, a fill of its nonce;
    an agreement is read at a block no older than the newest one seen. *)

From S2P Require Import Prelude Schema Worker Rca CancelDispatch Escrow Liveness Selection.
From S2P Require Import ChainEvents RpcPool RpcPoolProps SeenBlocks SeenBlocksProps ChainRpc.
Import Schema Worker Rca CancelDispatch Escrow Liveness Selection ChainEvents.
Import RpcPool RpcPoolProps SeenBlocks SeenBlocksProps ChainRpc.
Local Open Scope Z_scope.
Local Set Default Proof Using "Type".

Module ChainRpcProps.

Section client.
Context {X : Type} `{!Endpoints X}.
Context (hash_text : N → string) (local_usage_text : string → string).
Context (sign : Tx → result string N).
Context (decode_state : list Z → option Z).
Context (config : ClientConfig).
Notation ClientState := (ClientState (X := X)).
Notation Inner := (Inner (X := X)).
Notation K := (K (X := X)).
Notation run_pool := (run_pool hash_text local_usage_text config).
Notation is_already_broadcast := (is_already_broadcast hash_text local_usage_text).
Notation send_transaction := (send_transaction hash_text local_usage_text sign config).
Notation gas_prices := (gas_prices hash_text local_usage_text config).

(** ** Runs by what they log *)

Definition klogs {A} (m : K A) (Q : A → list client_event → Prop) : Prop :=
  ∀ s, ∃ ev, in_log (cl_inner (m s).2) = in_log (cl_inner s) ++ ev ∧ Q (m s).1 ev.

Lemma klogs_run {A} (m : K A) Q s r s' :
  klogs m Q → m s = (r, s') →
  ∃ ev, in_log (cl_inner s') = in_log (cl_inner s) ++ ev ∧ Q r ev.
Proof. intros H E. specialize (H s). by rewrite E in H. Qed.

Lemma klogs_quiet {A} (m : K A) (Q : A → list client_event → Prop) :
  (∀ s, in_log (cl_inner (m s).2) = in_log (cl_inner s) ∧ Q (m s).1 []) → klogs m Q.
Proof. intros H s. exists []. rewrite app_nil_r. apply H. Qed.

Lemma klogs_ret {A} (a : A) (Q : A → list client_event → Prop) : Q a [] → klogs (mret a) Q.
Proof. intros H. by apply klogs_quiet. Qed.

Lemma klogs_mono {A} (m : K A) (Q Q' : A → list client_event → Prop) :
  klogs m Q → (∀ r ev, Q r ev → Q' r ev) → klogs m Q'.
Proof. intros H HQ s. destruct (H s) as (ev & E & Hq). eauto. Qed.

Lemma klogs_bind {A B} (m : K A) (k : A → K B) (Q : B → list client_event → Prop) :
  klogs m (λ a ev, klogs (k a) (λ r ev', Q r (ev ++ ev'))) → klogs (m ≫= k) Q.
Proof.
  intros H s. destruct (H s) as (ev & E & Hq). unfold mbind, K_bind.
  destruct (m s) as [a s1]. simpl in *. destruct (Hq s1) as (ev' & E' & Hq'). exists (ev ++ ev').
  by rewrite E', E, app_assoc.
Qed.

Lemma klogs_try {A B} (m : K (result ClientError A)) (k : A → K (result ClientError B)) Q :
  klogs m (λ r ev, match r with
                   | Ok a => klogs (k a) (λ r ev', Q r (ev ++ ev'))
                   | Err e => Q (Err e) ev
                   end) → klogs (try_k m k) Q.
Proof.
  intros H. apply klogs_bind. eapply klogs_mono; [exact H|]. intros [a|e] ev Hq; [done|].
  apply klogs_ret. by rewrite app_nil_r.
Qed.

(** A walk whose calls log events in [P], and what an answer brings with it. *)
Lemma klogs_pool {T} operation (f : nat → Inner → result TransportError T * Inner)
    (P : client_event → Prop) (Φ : T → list client_event → Prop) :
  (∀ e i, ∃ ev, in_log (f e i).2 = in_log i ++ ev ∧ Forall P ev ∧ ∀ v, (f e i).1 = Ok v → Φ v ev) →
  klogs (run_pool operation f)
    (λ r ev, Forall P ev ∧ ∀ v, r = Ok v → ∃ ev', Φ v ev' ∧ ∀ x, x ∈ ev' → x ∈ ev).
Proof.
  intros Hf s. unfold ChainRpc.run_pool.
  destruct (execute_with_endpoint _ _ _ _ _ _ _) as [r [p i]] eqn:Hrun.
  set (R := λ i i' : Inner, ∃ ev, in_log i' = in_log i ++ ev ∧ Forall P ev).
  assert (PreOrder R).
  { split.
    - intros i1. exists []. by rewrite app_nil_r.
    - intros i1 i2 i3 (e1 & E1 & F1) (e2 & E2 & F2). exists (e1 ++ e2).
      split; [by rewrite E2, E1, app_assoc|by apply Forall_app]. }
  assert (Hs : ∀ d i1, R i1 (inner_sleep d i1)) by (intros d i1; exists []; by rewrite app_nil_r).
  assert (Hc : ∀ e i1, R i1 (f e i1).2)
    by (intros e i1; destruct (Hf e i1) as (ev & E & HP & _); by exists ev).
  destruct (execute_found _ _ _ _ _ R Hs Hc _ _ _ _ Hrun) as [(ev & E & HP) Hok].
  simpl in *. exists ev. split; [done|]. split; [done|].
  intros v ->. destruct (Hok v eq_refl) as (e & i1 & i2 & (ev1 & E1 & _) & Hv & (ev2 & E2 & _)).
  destruct (Hf e i1) as (ev' & E' & _ & Hphi). rewrite Hv in E', Hphi. simpl in *.
  exists ev'. split; [by apply Hphi|]. intros x Hx.
  assert (Hev : in_log (cl_inner s) ++ ev = in_log (cl_inner s) ++ (ev1 ++ ev' ++ ev2)).
  { by rewrite <- E, E2, E', E1, !app_assoc. }
  apply app_inv_head in Hev. rewrite Hev, !elem_of_app. auto.
Qed.

(** A walk that logs nothing. *)
Lemma klogs_pool_quiet {T} operation (f : nat → Inner → result TransportError T * Inner)
    (Φ : T → Prop) :
  (∀ e i, in_log (f e i).2 = in_log i ∧ ∀ v, (f e i).1 = Ok v → Φ v) →
  klogs (run_pool operation f) (λ r ev, ev = [] ∧ ∀ v, r = Ok v → Φ v).
Proof.
  intros Hf. eapply klogs_mono; [apply (klogs_pool operation f (λ _, False) (λ v _, Φ v))|].
  - intros e i. destruct (Hf e i) as [E Hv]. exists []. rewrite app_nil_r. by split_and!.
  - intros r [|x ev] [HP Hv]; [|by inversion HP]. split; [done|]. intros v Hr.
    by destruct (Hv v Hr) as (ev' & ? & _).
Qed.

Lemma request_log {A} (f : X → A * X) (i : Inner) : in_log (request f i).2 = in_log i.
Proof. unfold request. by destruct (f (in_world i)). Qed.

(** ** Sending *)

(** An endpoint took these bytes, or said it had them. *)
Definition took_bytes (a : result TransportError ()) : Prop :=
  match a with Ok _ => True | Err e => is_already_broadcast e = true end.

Definition offered_under (tx : Tx) (hash : N) (ev : list client_event) : Prop :=
  sign tx = Ok hash ∧ ∃ e a, EvSent e tx a ∈ ev ∧ took_bytes a.

Lemma offered_mono tx hash ev ev' : (∀ x, x ∈ ev → x ∈ ev') → offered_under tx hash ev → offered_under tx hash ev'.
Proof. intros H [Hs (e & a & Hin & Ht)]. split; [done|]. exists e, a. auto. Qed.

Definition sends_only (tx : Tx) (ev : client_event) : Prop :=
  match ev with EvSent _ t _ => t = tx | _ => False end.

Lemma klogs_send tx :
  klogs (send_transaction tx)
    (λ r ev, Forall (sends_only tx) ev ∧ ∀ hash, r = Ok hash → offered_under tx hash ev).
Proof.
  unfold ChainRpc.send_transaction. case_bool_decide as Hc; simpl; [|by apply klogs_ret].
  destruct (sign tx) as [h|e] eqn:Hs; [|by apply klogs_ret].
  apply klogs_bind. eapply klogs_mono.
  { apply (klogs_pool _ _ (sends_only tx) (λ hash ev, hash = h ∧ ∃ e a, EvSent e tx a ∈ ev ∧ took_bytes a)).
    intros e i. unfold offer_bytes. destruct (request _ i) as [r i'] eqn:Hr.
    pose proof (request_log (rpc_send_raw_transaction e tx) i) as Hl. rewrite Hr in Hl. simpl in *.
    exists [EvSent e tx r]. rewrite Hl. split; [done|]. split; [by repeat constructor|].
    intros v. destruct r as [[]|err]; [intros [= <-]; split; [done|]; eexists _, _; by split; [left|]|].
    destruct (is_already_broadcast err) eqn:Hb; [|done]. intros [= <-]. split; [done|].
    eexists _, _. by split; [left|]. }
  intros r ev [HP Hok]. apply klogs_ret. rewrite app_nil_r. split; [done|].
  intros hash Hh. assert (r = Ok hash) as -> by (by destruct r as [|[]]).
  destruct (Hok hash eq_refl) as (ev' & [-> (e & a & Hin & Ht)] & Hsub). split; [done|].
  exists e, a. auto.
Qed.

Lemma klogs_quiet_pool_fn {T} operation (f : nat → X → result TransportError T * X) :
  klogs (run_pool operation (λ e, request (f e))) (λ _ ev, ev = []).
Proof.
  eapply klogs_mono; [apply (klogs_pool_quiet _ _ (λ _, True))|by intros r ev [-> _]].
  intros e i. split; [apply request_log|done].
Qed.

Notation fetch_chain_nonce := (fetch_chain_nonce hash_text local_usage_text config).
Notation next_nonce := (next_nonce hash_text local_usage_text config).
Notation resync_nonce := (resync_nonce hash_text local_usage_text config).

Lemma klogs_next_nonce : klogs next_nonce (λ _ ev, ev = []).
Proof.
  intros s. unfold ChainRpc.next_nonce. case_match; [exists []; by rewrite app_nil_r|].
  destruct (klogs_quiet_pool_fn "get_nonce" rpc_transaction_count s) as (ev & E & ->).
  exists []. unfold ChainRpc.fetch_chain_nonce in *. destruct (run_pool _ _ s) as [[n|e] s']; by split.
Qed.

Lemma klogs_resync_nonce : klogs resync_nonce (λ _ ev, ev = []).
Proof.
  intros s. unfold ChainRpc.resync_nonce.
  destruct (klogs_quiet_pool_fn "get_nonce" rpc_transaction_count s) as (ev & E & ->).
  exists []. unfold ChainRpc.fetch_chain_nonce in *. destruct (run_pool _ _ s) as [[n|e] s']; by split.
Qed.

(** The transaction at some nonce. *)
Definition at_nonce (tx : Tx) (ev : client_event) : Prop :=
  match ev with EvSent _ t _ => ∃ n, t = with_nonce n tx | _ => False end.

Lemma sends_at_nonce tx n ev : Forall (sends_only (with_nonce n tx)) ev → Forall (at_nonce tx) ev.
Proof.
  intros H. eapply Forall_impl; [exact H|]. intros [e t a| | |]; [|done..]. intros ->. by exists n.
Qed.

Definition submitted_post (tx : Tx) (r : result ClientError SubmittedTx) (ev : list client_event) : Prop :=
  Forall (at_nonce tx) ev ∧
  ∀ sub, r = Ok sub → offered_under (with_nonce (sx_nonce sub) tx) (sx_hash sub) ev.

Lemma klogs_submit tx cut wait left :
  klogs (submit_attempts hash_text local_usage_text sign config tx cut wait left)
    (λ r ev, submitted_post tx (default (Err (CeSubmitFailed "")) r) ev).
Proof.
  revert wait. induction left as [|left IH]; intros wait; cbn [submit_attempts].
  { apply klogs_ret. by split. }
  apply klogs_bind. eapply (klogs_mono _ (λ _ ev, ev = [])).
  { case_match; [by apply klogs_ret|apply klogs_resync_nonce]. }
  intros synced ev ->. destruct (cut wait); [by apply klogs_ret|].
  destruct synced as [[]|e]; [|by apply klogs_ret].
  apply klogs_bind. eapply klogs_mono; [apply klogs_next_nonce|]. intros nonce ev ->.
  destruct (cut (wait + 1)%nat); [by apply klogs_ret|].
  destruct nonce as [n|e]; [|by apply klogs_ret].
  apply klogs_bind. eapply klogs_mono; [apply klogs_send|]. intros sent ev [HP Hok]. simpl.
  apply sends_at_nonce in HP.
  destruct (cut (wait + 2)%nat); [apply klogs_ret; rewrite app_nil_r; by split|].
  destruct sent as [h|e].
  - apply klogs_bind, klogs_quiet. intros s. split; [done|]. apply klogs_ret. rewrite !app_nil_r.
    split; [done|]. intros sub [= <-]. simpl. by apply Hok.
  - case_match; [|apply klogs_ret; rewrite app_nil_r; by split].
    eapply klogs_mono; [apply IH|]. intros r ev' [HP' Hok']. split; [by apply Forall_app|].
    intros sub Hr. eapply offered_mono; [|by apply Hok']. intros x Hx. apply elem_of_app. by right.
Qed.

Lemma klogs_sign_and_send tx cut :
  klogs (sign_and_send hash_text local_usage_text sign config tx cut) (submitted_post tx).
Proof.
  apply klogs_bind. eapply klogs_mono; [apply klogs_submit|]. intros r ev [HP Hok].
  apply klogs_ret. rewrite app_nil_r. split; [done|]. intros sub Hr. by destruct r; [apply Hok|].
Qed.

(** ** A call to the manager *)

Lemma klogs_gas_prices : klogs gas_prices (λ _ ev, ev = []).
Proof.
  eapply klogs_mono; [apply (klogs_pool_quiet _ _ (λ _, True))|by intros r ev [-> _]].
  intros e i. split; [|done]. unfold get_gas_prices.
  destruct (request (rpc_latest_block e) i) as [b i1] eqn:H1.
  pose proof (request_log (rpc_latest_block e) i) as L1. rewrite H1 in L1. simpl in L1.
  destruct b as [[b|]|]; [|done|done]. destruct (bk_base_fee b); [|done].
  destruct (request (rpc_priority_fee e) i1) as [fee i2] eqn:H2.
  pose proof (request_log (rpc_priority_fee e) i1) as L2. rewrite H2 in L2. simpl in *.
  destruct fee; simpl; congruence.
Qed.

Lemma klogs_estimate tx :
  klogs (run_pool "estimate_gas" (estimate hash_text local_usage_text config tx))
    (λ r ev, ev = [] ∧ ∀ gas, r = Ok gas → ge_floor (cc_gas config) ≤ gas).
Proof.
  apply klogs_pool_quiet. intros e i. unfold estimate.
  destruct (request (rpc_estimate_gas e tx) i) as [r i1] eqn:H1.
  pose proof (request_log (rpc_estimate_gas e tx) i) as L1. rewrite H1 in L1. split; [exact L1|].
  destruct r as [est|]; [|done]. intros v [= <-]. apply gas_within_bounds.
Qed.

(** What may be sent for a call: the call itself, for the configured chain, with
    at least the floor of gas and at most the highest price allowed. *)
Definition call_tx (calldata : Calldata) (tx : Tx) : Prop :=
  tx_to tx = cc_recurring_agreement_manager config ∧ tx_input tx = calldata ∧
  tx_chain_id tx = Some (cc_chain_id config) ∧
  (∃ gas, tx_gas_limit tx = Some gas ∧ ge_floor (cc_gas config) ≤ gas) ∧
  ∃ fee, tx_max_fee_per_gas tx = Some fee ∧ fee ≤ cc_max_gas_price_gwei config * 1000000000.

Definition sends_call (calldata : Calldata) (ev : client_event) : Prop :=
  match ev with EvSent _ tx _ => call_tx calldata tx | _ => False end.

(** The call went out under this hash and nonce. *)
Definition call_sent (calldata : Calldata) (hash : N) (nonce : Z) (ev : list client_event) : Prop :=
  ∃ tx, call_tx calldata tx ∧ tx_nonce tx = Some nonce ∧ offered_under tx hash ev.

Lemma klogs_build calldata cut :
  klogs (build_and_send_call hash_text local_usage_text sign config
           (cc_recurring_agreement_manager config) calldata cut)
    (λ r ev, Forall (sends_call calldata) ev ∧
      ∀ sub, r = Ok sub → call_sent calldata (sx_hash sub) (sx_nonce sub) ev).
Proof.
  apply klogs_try. eapply klogs_mono; [apply klogs_estimate|]. intros [gas|e] ev [-> Hg]; [|by split].
  apply klogs_try. eapply klogs_mono; [apply klogs_gas_prices|].
  intros [[base priority]|e] ev ->; [|by split]. simpl.
  destruct (exceeds_max_gas_price _ _) eqn:Hx; [by apply klogs_ret|].
  unfold exceeds_max_gas_price in Hx. apply Z.ltb_ge in Hx.
  set (tx := mkTx _ _ _ _ _ _ _).
  assert (Htx : ∀ n, call_tx calldata (with_nonce n tx)).
  { intros n. split_and!; [done..| |]; eexists; split; [done|by apply Hg|done|done]. }
  eapply klogs_mono; [apply klogs_sign_and_send|]. intros r ev [HP Hok]. split.
  - eapply Forall_impl; [exact HP|]. intros [e t a| | |]; [|done..]. intros [n ->]. apply Htx.
  - intros sub Hr. exists (with_nonce (sx_nonce sub) tx). split; [done|]. split; [done|]. by apply Hok.
Qed.

(** The fill of a nonce: nothing, to the signer itself. *)
Definition fill_tx (nonce : Z) (tx : Tx) : Prop :=
  tx_to tx = cc_signer config ∧ tx_input tx = NoInput ∧
  tx_chain_id tx = Some (cc_chain_id config) ∧ tx_nonce tx = Some nonce.

Definition sends_fill (nonce : Z) (ev : client_event) : Prop :=
  match ev with EvSent _ tx _ => fill_tx nonce tx | _ => False end.

Lemma klogs_fill nonce :
  klogs (fill_nonce_gap hash_text local_usage_text sign config nonce)
    (λ _ ev, Forall (sends_fill nonce) ev).
Proof.
  apply klogs_try. eapply klogs_mono; [apply klogs_gas_prices|]. intros [[base priority]|e] ev ->; [|done].
  apply klogs_bind. eapply klogs_mono; [apply klogs_send|]. intros r ev [HP _]. apply klogs_ret.
  rewrite app_nil_r. simpl. eapply Forall_impl; [exact HP|].
  intros [e t a| | |]; [|done..]. by intros ->.
Qed.

(** What the checks of a receipt were told. *)
Definition receipt_of (hash : N) (ev : client_event) : Prop :=
  match ev with EvReceipt h _ => h = hash | _ => False end.

Definition waited_post (hash : N) (checked : bool) (w : ReceiptWait) (ev : list client_event) : Prop :=
  Forall (receipt_of hash) ev ∧
  match w with
  | Mined ok => ∃ r, EvReceipt hash (Ok (Some r)) ∈ ev ∧ rc_status r = ok
  | NotSeen c => (∀ r, EvReceipt hash (Ok (Some r)) ∉ ev) ∧
      (c = true ↔ checked = true ∨ EvReceipt hash (Ok None) ∈ ev)
  end.

Lemma waited_more hash checked a w ev :
  (∀ r, a ≠ Ok (Some r)) →
  waited_post hash (checked || match a with Ok _ => true | Err _ => false end) w ev →
  waited_post hash checked w (EvReceipt hash a :: ev).
Proof.
  intros Ha [HP Hw]. split; [by constructor|]. destruct w as [ok|c].
  - destruct Hw as (r & Hin & Hr). exists r. split; [by right|done].
  - destruct Hw as [Hno Hc]. split.
    + intros r [Hr|Hin]%elem_of_cons; [injection Hr as <-; by eapply Ha|by eapply Hno].
    + rewrite Hc, orb_true_iff, elem_of_cons. destruct a as [[r|]|e]; [by destruct (Ha r)|..].
      * split; [intros [[?|_]|?]; auto|]. intros [?|[?|?]]; auto.
      * split; [intros [[?|?]|?]; auto; done|]. intros [?|[?|?]]; auto. done.
Qed.

Lemma klogs_poll hash deadline polls checked :
  klogs (poll_receipt hash_text local_usage_text config hash deadline polls checked)
    (waited_post hash checked).
Proof.
  assert (Hnil : ∀ checked, waited_post hash checked (NotSeen checked) []).
  { intros c. split; [done|]. split; [by intros r ?%not_elem_of_nil|].
    split; [by left|]. intros [?|?%not_elem_of_nil]; done. }
  revert checked. induction polls as [|polls IH]; intros checked; cbn [poll_receipt]; [by apply klogs_ret|].
  apply klogs_bind. eapply klogs_mono; [apply klogs_quiet_pool_fn|]. intros a ev ->.
  apply klogs_bind. intros s. exists [EvReceipt hash a]. split; [done|]. clear s.
  assert (Hrest : (∀ r, a ≠ Ok (Some r)) → klogs (t ← now; if deadline <=? t
      then mret (NotSeen (checked || match a with Ok _ => true | Err _ => false end))
      else _ ← pause RECEIPT_POLL_INTERVAL;
        poll_receipt hash_text local_usage_text config hash deadline polls
          (checked || match a with Ok _ => true | Err _ => false end))
    (λ w ev, waited_post hash checked w (EvReceipt hash a :: ev))).
  { intros Ha. apply klogs_bind, klogs_quiet. intros s. split; [done|].
    destruct (deadline <=? _); [apply klogs_ret; by apply waited_more|].
    apply klogs_bind, klogs_quiet. intros s'. split; [done|]. simpl.
    eapply klogs_mono; [apply IH|]. intros w ev Hw. by apply waited_more. }
  destruct a as [[r|]|e]; [|by apply Hrest|by apply Hrest].
  apply klogs_bind. eapply (klogs_mono _ (λ _ ev, ev = [])).
  { destruct (rc_block r); [|by apply klogs_ret]. apply klogs_quiet. intros s. by split. }
  intros u ev ->. apply klogs_ret. split; [by repeat constructor|]. exists r. split; [left|done].
Qed.

(** What a call's answer says of what was sent and seen. *)
Record call_reported (calldata : Calldata) (r : result ClientError (option N))
    (ev : list client_event) : Prop := {
  cr_sent : ∀ e tx a, EvSent e tx a ∈ ev → call_tx calldata tx ∨
    ∃ hash checked nonce, r = Err (CeTxDropped hash checked) ∧ fill_tx nonce tx ∧
      call_sent calldata hash nonce ev;
  cr_answer : match r with
    | Ok (Some hash) => (∃ nonce, call_sent calldata hash nonce ev) ∧
        ∃ rc, EvReceipt hash (Ok (Some rc)) ∈ ev ∧ rc_status rc = true
    | Ok None => False
    | Err (CeTxReverted hash) => (∃ nonce, call_sent calldata hash nonce ev) ∧
        ∃ rc, EvReceipt hash (Ok (Some rc)) ∈ ev ∧ rc_status rc = false
    | Err (CeTxDropped hash checked) => (∃ nonce, call_sent calldata hash nonce ev) ∧
        (∀ rc, EvReceipt hash (Ok (Some rc)) ∉ ev) ∧
        (checked = true ↔ EvReceipt hash (Ok None) ∈ ev)
    | Err _ => ∀ hash a, EvReceipt hash a ∉ ev
    end }.

Lemma call_sent_mono calldata hash nonce ev ev' :
  (∀ x, x ∈ ev → x ∈ ev') → call_sent calldata hash nonce ev → call_sent calldata hash nonce ev'.
Proof. intros H (tx & ? & ? & ?). exists tx. split_and!; [done|done|]. by eapply offered_mono. Qed.

Lemma no_receipts calldata ev hash a : Forall (sends_call calldata) ev → EvReceipt hash a ∉ ev.
Proof. intros H Hin. rewrite Forall_forall in H. by apply H in Hin. Qed.

Lemma sent_not_receipt hash ev e tx a : Forall (receipt_of hash) ev → EvSent e tx a ∉ ev.
Proof. intros H Hin. rewrite Forall_forall in H. by apply H in Hin. Qed.

Lemma fill_no_receipts nonce ev hash a : Forall (sends_fill nonce) ev → EvReceipt hash a ∉ ev.
Proof. intros H Hin. rewrite Forall_forall in H. by apply H in Hin. Qed.

Lemma call_settled calldata sub ok ev ev' :
  Forall (sends_call calldata) ev → call_sent calldata (sx_hash sub) (sx_nonce sub) ev →
  waited_post (sx_hash sub) false (Mined ok) ev' →
  call_reported calldata
    (if ok then Ok (Some (sx_hash sub)) else Err (CeTxReverted (sx_hash sub))) (ev ++ ev').
Proof.
  intros HP Hsent [HR (rc & Hin & Hs)].
  assert (Hsent' : call_sent calldata (sx_hash sub) (sx_nonce sub) (ev ++ ev')).
  { eapply call_sent_mono; [|done]. intros x Hx. apply elem_of_app. by left. }
  split.
  - intros e tx a [Hx|Hx]%elem_of_app; [|by eapply sent_not_receipt in Hx].
    left. rewrite Forall_forall in HP. by apply HP in Hx.
  - destruct ok; (split; [by eexists|]); exists rc; (split; [|done]); apply elem_of_app; by right.
Qed.

Lemma call_dropped calldata sub checked ev ev' ev'' :
  Forall (sends_call calldata) ev → call_sent calldata (sx_hash sub) (sx_nonce sub) ev →
  waited_post (sx_hash sub) false (NotSeen checked) ev' → Forall (sends_fill (sx_nonce sub)) ev'' →
  call_reported calldata (Err (CeTxDropped (sx_hash sub) checked)) (ev ++ ev' ++ ev'').
Proof.
  intros HP Hsent [HR [Hno Hc]] HF.
  assert (Hsent' : call_sent calldata (sx_hash sub) (sx_nonce sub) (ev ++ ev' ++ ev'')).
  { eapply call_sent_mono; [|done]. intros x Hx. apply elem_of_app. by left. }
  assert (Hrec : ∀ a, EvReceipt (sx_hash sub) a ∈ ev ++ ev' ++ ev'' ↔ EvReceipt (sx_hash sub) a ∈ ev').
  { intros a. rewrite !elem_of_app. split; [|auto].
    intros [Hx|[Hx|Hx]]; [by eapply no_receipts in Hx|done|by eapply fill_no_receipts in Hx]. }
  split.
  - intros e tx a [Hx|[Hx|Hx]%elem_of_app]%elem_of_app; [|by eapply sent_not_receipt in Hx|].
    + left. rewrite Forall_forall in HP. by apply HP in Hx.
    + right. eexists _, _, (sx_nonce sub). split; [done|]. rewrite Forall_forall in HF.
      split; [by apply HF in Hx|done].
  - split; [by eexists|]. split; [intros rc; rewrite Hrec; apply Hno|]. rewrite Hrec, Hc. naive_solver.
Qed.

(** *** Errors of a submission *)

Definition ends {A} (m : K A) (Q : A → Prop) : Prop := ∀ s, Q (m s).1.

Lemma ends_ret {A} (a : A) (Q : A → Prop) : Q a → ends (mret a) Q.
Proof. by intros H s. Qed.

Lemma ends_bind {A B} (m : K A) (k : A → K B) Q : ends m (λ a, ends (k a) Q) → ends (m ≫= k) Q.
Proof. intros H s. specialize (H s). unfold mbind, K_bind. by destruct (m s). Qed.

Lemma ends_mono {A} (m : K A) (Q Q' : A → Prop) : ends m Q → (∀ a, Q a → Q' a) → ends m Q'.
Proof. intros H HQ s. apply HQ, H. Qed.

(** Not an answer about a transaction that was sent. *)
Definition early {A} (r : result ClientError A) : Prop :=
  match r with Err (CeTxDropped _ _) | Err (CeTxReverted _) => False | _ => True end.

Lemma ends_pool {T} operation (f : nat → Inner → result TransportError T * Inner) :
  ends (run_pool operation f) early.
Proof.
  intros s. unfold ChainRpc.run_pool. destruct (execute_with_endpoint _ _ _ _ _ _ _) as [[v|e] [p i]] eqn:Hrun;
    [done|]. apply walk_from_error in Hrun; [|done]. by destruct e.
Qed.

Lemma ends_nonce (f : Z → ClientState → Z) {A} (g : Z → A) :
  ends (λ s, let '(r, s) := fetch_chain_nonce s in
        match r with Ok n => (Ok (g n), set_nonce (f n s) s) | Err e => (Err e, s) end) early.
Proof.
  intros s. pose proof (ends_pool "get_nonce" (λ e, request (rpc_transaction_count e)) s) as H.
  unfold ChainRpc.fetch_chain_nonce. by destruct (run_pool _ _ s) as [[n|e] s'].
Qed.

Lemma ends_next_nonce : ends next_nonce early.
Proof.
  intros s. unfold ChainRpc.next_nonce. case_match; [done|]. apply (ends_nonce (λ n _, n) id).
Qed.

Lemma ends_send tx : ends (send_transaction tx) early.
Proof.
  unfold ChainRpc.send_transaction. case_match; [by apply ends_ret|]. case_match; [|by apply ends_ret].
  apply ends_bind. eapply ends_mono; [apply ends_pool|]. intros [v|[]] He; by apply ends_ret.
Qed.

Lemma ends_submit tx cut wait left :
  ends (submit_attempts hash_text local_usage_text sign config tx cut wait left) (from_option early True).
Proof.
  revert wait. induction left as [|left IH]; intros wait; cbn [submit_attempts]; [by apply ends_ret|].
  apply ends_bind. eapply (ends_mono _ early).
  { case_match; [by apply ends_ret|]. apply (ends_nonce (λ n s, Z.max (cl_nonce s) n) (λ _, tt)). }
  intros synced Hs. destruct (cut wait); [by apply ends_ret|]. destruct synced as [[]|e]; [|by apply ends_ret].
  apply ends_bind. eapply ends_mono; [apply ends_next_nonce|]. intros nonce Hn.
  destruct (cut (wait + 1)%nat); [by apply ends_ret|]. destruct nonce as [n|e]; [|by apply ends_ret].
  apply ends_bind. eapply ends_mono; [apply ends_send|]. intros sent He.
  destruct (cut (wait + 2)%nat); [by apply ends_ret|].
  destruct sent as [h|e]; [by apply ends_bind; intros s; apply ends_ret|].
  case_match; [apply IH|by apply ends_ret].
Qed.

Lemma ends_try {A B} (m : K (result ClientError A)) (k : A → K (result ClientError B)) :
  ends m early → (∀ a, ends (k a) early) → ends (try_k m k) early.
Proof.
  intros Hm Hk. apply ends_bind. eapply ends_mono; [exact Hm|]. intros [a|e] H; [apply Hk|by apply ends_ret].
Qed.

Lemma ends_build to calldata cut :
  ends (build_and_send_call hash_text local_usage_text sign config to calldata cut) early.
Proof.
  apply ends_try; [apply ends_pool|]. intros gas. apply ends_try; [apply ends_pool|].
  intros [base priority]. simpl. case_match; [by apply ends_ret|].
  apply ends_bind. eapply ends_mono; [apply ends_submit|]. intros [r|] He; by apply ends_ret.
Qed.

Lemma klogs_ends {A} (m : K A) (Q : A → list client_event → Prop) (Q' : A → Prop) :
  klogs m Q → ends m Q' → klogs m (λ r ev, Q r ev ∧ Q' r).
Proof. intros H H' s. destruct (H s) as (ev & E & Hq). exists ev. split; [done|]. split; [done|apply H']. Qed.

Lemma klogs_call calldata cut :
  klogs (submit_and_confirm hash_text local_usage_text sign config calldata cut)
    (call_reported calldata).
Proof.
  apply klogs_try. eapply klogs_mono; [apply klogs_ends; [apply klogs_build|apply ends_build]|].
  intros [sub|e] ev [[HP Hok] Hearly].
  2:{ split.
      - intros e' tx a Hx. left. rewrite Forall_forall in HP. by apply HP in Hx.
      - destruct e; try done; intros hash a; by eapply no_receipts. }
  specialize (Hok sub eq_refl). apply klogs_bind. eapply klogs_mono.
  { apply klogs_bind, klogs_quiet. intros s. split; [done|]. apply klogs_poll. }
  intros [[]|checked] ev' Hw; simpl in Hw.
  - apply klogs_ret. rewrite app_nil_r. by apply (call_settled _ sub true).
  - apply klogs_ret. rewrite app_nil_r. by apply (call_settled _ sub false).
  - apply klogs_bind. eapply klogs_mono; [apply klogs_fill|]. intros u ev'' HF. apply klogs_ret.
    rewrite app_nil_r. by apply call_dropped.
Qed.

(** C27: an offer, cancel or reconcile, whatever the endpoints answer and wherever
    its deadline cuts it.  Every transaction offered to an endpoint is this call to
    the manager, for the configured chain, with at least the floor of gas and at
    most the highest gas price allowed; or, only once the call was dropped, the
    empty self-transfer at the nonce it went out with.  A success or a revert is
    what a receipt of a transaction of this call said; a drop means that no check
    saw a receipt, and says truthfully whether any check was answered; any other
    error came before a receipt was looked for.  A success always names its
    transaction: no call, a cancel of an agreement already cancelled included,
    answers without one. *)
Theorem manager_calls_report_their_receipts calldata cut s r s' :
  submit_and_confirm hash_text local_usage_text sign config calldata cut s = (r, s') →
  ∃ ev, in_log (cl_inner s') = in_log (cl_inner s) ++ ev ∧ call_reported calldata r ev.
Proof. apply klogs_run, klogs_call. Qed.

(** ** Polling ends by the clock *)

Definition clock (s : ClientState) : Z := rpc_now (in_world (cl_inner s)).

(** The clock never goes back, and a pause lasts at least as long as asked. *)
Record ClockLaws : Prop := {
  cl_calls : ∀ e h x, rpc_now x ≤ rpc_now (rpc_receipt e h x).2;
  cl_sleeps : ∀ d x, rpc_now x + Z.max d 0 ≤ rpc_now (rpc_sleep d x) }.

Lemma receipt_clock hash s :
  ClockLaws →
  clock s ≤ clock (run_pool "get_transaction_receipt" (λ e, request (rpc_receipt e hash)) s).2.
Proof.
  intros [Hc Hs]. unfold ChainRpc.run_pool, clock.
  destruct (execute_with_endpoint _ _ _ _ _ _ _) as [r [p i]] eqn:Hrun.
  set (R := λ i i' : Inner, rpc_now (in_world i) ≤ rpc_now (in_world i')).
  assert (PreOrder R) by (split; [intros ?; unfold R; lia|intros ? ? ? ? ?; unfold R in *; lia]).
  assert (HR : ∀ d i1, R i1 (inner_sleep d i1)).
  { intros d i1. unfold R. simpl. specialize (Hs d (in_world i1)). lia. }
  assert (HR' : ∀ e i1, R i1 (request (rpc_receipt e hash) i1).2).
  { intros e i1. unfold R, request. specialize (Hc e hash (in_world i1)).
    by destruct (rpc_receipt e hash (in_world i1)). }
  by destruct (execute_found _ _ _ _ _ R HR HR' _ _ _ _ Hrun) as [HR0 _].
Qed.

Lemma poll_receipt_run hash deadline polls checked s :
  poll_receipt hash_text local_usage_text config hash deadline (Datatypes.S polls) checked s =
  let '(a, s1) := run_pool "get_transaction_receipt" (λ e, request (rpc_receipt e hash)) s in
  let s2 := (log_k (EvReceipt hash a) s1).2 in
  let checked' := checked || match a with Ok _ => true | Err _ => false end in
  match a with
  | Ok (Some r) =>
      (Mined (rc_status r), (match rc_block r with Some b => confirm_seen b | None => mret tt end s2).2)
  | _ => if deadline <=? clock s2 then (NotSeen checked', s2)
         else poll_receipt hash_text local_usage_text config hash deadline polls checked'
                (pause RECEIPT_POLL_INTERVAL s2).2
  end.
Proof.
  cbn [poll_receipt]. unfold mbind at 1, K_bind at 1.
  destruct (run_pool _ _ s) as [[[r|]|e] s1].
  - unfold mbind, K_bind. simpl. by destruct (rc_block r).
  - unfold mbind, K_bind, clock. simpl. by destruct (deadline <=? _).
  - unfold mbind, K_bind, clock. simpl. by destruct (deadline <=? _).
Qed.

(** Enough checks: one per interval up to the deadline, and one more. *)
Lemma polls_suffice hash deadline polls more checked s :
  ClockLaws → (0 < polls)%nat →
  deadline ≤ clock s + (Z.of_nat polls - 1) * RECEIPT_POLL_INTERVAL →
  poll_receipt hash_text local_usage_text config hash deadline (polls + more) checked s =
  poll_receipt hash_text local_usage_text config hash deadline polls checked s.
Proof.
  intros Hlaws. revert checked s. induction polls as [|polls IH]; intros checked s Hpos Hd; [lia|].
  cbn [Nat.add]. rewrite !poll_receipt_run. pose proof (receipt_clock hash s Hlaws) as Hmono.
  destruct (run_pool _ _ s) as [a s1]. cbv zeta. set (s2 := (log_k _ s1).2).
  assert (Hc : clock s ≤ clock s2) by (simpl in Hmono; exact Hmono).
  assert (Hrest : ∀ c, (if deadline <=? clock s2 then (NotSeen c, s2)
    else poll_receipt hash_text local_usage_text config hash deadline (polls + more) c
           (pause RECEIPT_POLL_INTERVAL s2).2) =
    (if deadline <=? clock s2 then (NotSeen c, s2)
     else poll_receipt hash_text local_usage_text config hash deadline polls c
            (pause RECEIPT_POLL_INTERVAL s2).2)).
  { intros c. destruct (Z.leb_spec deadline (clock s2)) as [|Hlt]; [done|].
    pose proof (cl_sleeps Hlaws RECEIPT_POLL_INTERVAL (in_world (cl_inner s2))) as Hsleep.
    fold (clock s2) in Hsleep. unfold RECEIPT_POLL_INTERVAL in *.
    apply IH; [lia|]. unfold clock at 1. simpl. simpl in Hsleep. lia. }
  destruct a as [[r|]|e]; [done|apply Hrest|apply Hrest].
Qed.

(** ** Nonces *)

(** [m] leaves the counter alone. *)
Definition same_nonce {A} (m : K A) : Prop := ∀ s, cl_nonce (m s).2 = cl_nonce s.

Lemma same_nonce_ret {A} (a : A) : same_nonce (mret a).
Proof. done. Qed.

Lemma same_nonce_bind {A B} (m : K A) (k : A → K B) :
  same_nonce m → (∀ a, same_nonce (k a)) → same_nonce (m ≫= k).
Proof.
  intros Hm Hk s. unfold mbind, K_bind. specialize (Hm s). destruct (m s) as [a s1]. simpl in Hm.
  by rewrite (Hk a s1), Hm.
Qed.

Lemma same_nonce_try {A B} (m : K (result ClientError A)) (k : A → K (result ClientError B)) :
  same_nonce m → (∀ a, same_nonce (k a)) → same_nonce (try_k m k).
Proof. intros Hm Hk. apply same_nonce_bind; [done|]. intros [a|e]; [apply Hk|done]. Qed.

Lemma same_nonce_pool {T} operation (f : nat → Inner → result TransportError T * Inner) :
  same_nonce (run_pool operation f).
Proof. intros s. unfold ChainRpc.run_pool. by destruct (execute_with_endpoint _ _ _ _ _ _ _) as [r [p i]]. Qed.

Lemma same_nonce_seen {A} (f : Z → SeenBlock → A * SeenBlock) : same_nonce (with_seen (X := X) f).
Proof. intros s. unfold with_seen. by destruct (f _ _). Qed.

Lemma same_nonce_send tx : same_nonce (send_transaction tx).
Proof.
  unfold ChainRpc.send_transaction. repeat case_match; try done.
  apply same_nonce_bind; [apply same_nonce_pool|done].
Qed.

Lemma same_nonce_fill nonce : same_nonce (fill_nonce_gap hash_text local_usage_text sign config nonce).
Proof.
  apply same_nonce_try; [apply same_nonce_pool|]. intros [base priority]. simpl.
  apply same_nonce_bind; [apply same_nonce_send|done].
Qed.

Lemma same_nonce_wait hash : same_nonce (wait_for_receipt hash_text local_usage_text config hash).
Proof.
  apply same_nonce_bind; [done|]. intros t. generalize false. induction RECEIPT_POLLS as [|n IH];
    intros checked; cbn [poll_receipt]; [done|].
  apply same_nonce_bind; [apply same_nonce_pool|]. intros a. apply same_nonce_bind; [done|]. intros _.
  destruct a as [[r|]|e].
  - apply same_nonce_bind; [|done]. destruct (rc_block r); [apply same_nonce_seen|done].
  - apply same_nonce_bind; [done|]. intros t'. case_match; [done|]. by apply same_nonce_bind.
  - apply same_nonce_bind; [done|]. intros t'. case_match; [done|]. by apply same_nonce_bind.
Qed.

Lemma same_nonce_cross_check : same_nonce (cross_check_seen_block (X := X) config).
Proof.
  unfold cross_check_seen_block. case_match; [done|]. apply same_nonce_bind; [apply same_nonce_seen|].
  intros due. case_match; [done|]. apply same_nonce_bind.
  - intros s. unfold latest_blocks. by destruct (ask_heads _ _).
  - intros heads. case_match; [apply same_nonce_seen|done].
Qed.

Lemma same_nonce_view {A} to view (decode : list Z → option A) operation :
  same_nonce (view_at_seen_block hash_text local_usage_text config to view decode operation).
Proof.
  apply same_nonce_bind; [apply same_nonce_cross_check|]. intros _.
  apply same_nonce_bind; [apply same_nonce_seen|]. intros b. apply same_nonce_bind; [done|]. intros _.
  apply same_nonce_try; [apply same_nonce_pool|]. intros [head output].
  apply same_nonce_bind; [apply same_nonce_seen|done].
Qed.

Lemma same_nonce_time : same_nonce (client_latest_block_timestamp hash_text local_usage_text config).
Proof.
  apply same_nonce_bind; [apply same_nonce_cross_check|]. intros _.
  apply same_nonce_bind; [apply same_nonce_seen|]. intros b. apply same_nonce_bind; [done|]. intros _.
  apply same_nonce_try; [apply same_nonce_pool|]. intros [block|]; [|done].
  apply same_nonce_bind; [apply same_nonce_seen|done].
Qed.

(** The counter moves on, or is still to be read from the chain. *)
Definition nonce_after (c c' : Z) : Prop := c = NONCE_UNINITIALIZED ∨ c ≤ c' < NONCE_UNINITIALIZED.

#[local] Instance nonce_after_trans : Transitive nonce_after.
Proof. unfold nonce_after. intros a b c. lia. Qed.

(** A transaction count is below the largest [u64]. *)
Definition CountLaw : Prop :=
  ∀ e x n x', rpc_transaction_count e x = (Ok n, x') → 0 ≤ n < NONCE_UNINITIALIZED.

Lemma fetched_small s n s' :
  CountLaw → fetch_chain_nonce s = (Ok n, s') → 0 ≤ n < NONCE_UNINITIALIZED ∧ cl_nonce s' = cl_nonce s.
Proof.
  intros Hlaw Hrun. pose proof (same_nonce_pool "get_nonce" (λ e, request (rpc_transaction_count e)) s) as Hn.
  unfold ChainRpc.fetch_chain_nonce in Hrun. rewrite Hrun in Hn. split; [|done].
  unfold ChainRpc.run_pool in Hrun. destruct (execute_with_endpoint _ _ _ _ _ _ _) as [r [p i]] eqn:He.
  injection Hrun as -> _. set (R := λ i i' : Inner, True).
  assert (PreOrder R) by (split; done).
  assert (HR : ∀ d i1, R i1 (inner_sleep d i1)) by done.
  assert (HR' : ∀ e i1, R i1 (request (rpc_transaction_count e) i1).2) by done.
  destruct (execute_found _ _ _ _ _ R HR HR' _ _ _ _ He) as [_ Hok].
  destruct (Hok n eq_refl) as (e & i1 & i2 & _ & Hc & _). unfold request in Hc.
  destruct (rpc_transaction_count e (in_world i1)) as [r' x'] eqn:Hr. injection Hc as -> _. by eapply Hlaw.
Qed.

Definition nonce_ok (s : ClientState) : Prop := 0 ≤ cl_nonce s ≤ NONCE_UNINITIALIZED.

Lemma next_nonce_spec s r s' :
  CountLaw → nonce_ok s → next_nonce s = (r, s') →
  (r = Ok (cl_nonce s') ∧ 0 ≤ cl_nonce s' < NONCE_UNINITIALIZED ∧ nonce_after (cl_nonce s) (cl_nonce s')) ∨
  (∃ e, r = Err e) ∧ cl_nonce s' = cl_nonce s.
Proof.
  intros Hlaw Hok. unfold ChainRpc.next_nonce, nonce_ok in *.
  destruct (Z.eqb_spec (cl_nonce s) NONCE_UNINITIALIZED) as [Hu|Hi]; simpl.
  - destruct (fetch_chain_nonce s) as [[n|e] s1] eqn:Hf; intros [= <- <-].
    + apply fetched_small in Hf as [Hn _]; [|done]. left. simpl. split; [done|]. split; [done|]. by left.
    + right. split; [by eexists|].
      pose proof (same_nonce_pool "get_nonce" (λ e, request (rpc_transaction_count e)) s) as Hn.
      unfold ChainRpc.fetch_chain_nonce in Hf. by rewrite Hf in Hn.
  - intros [= <- <-]. left. unfold nonce_after. split; [done|]. lia.
Qed.

Lemma resync_spec s r s' :
  CountLaw → nonce_ok s → resync_nonce s = (r, s') →
  nonce_ok s' ∧ (cl_nonce s' = cl_nonce s ∨ nonce_after (cl_nonce s) (cl_nonce s')).
Proof.
  intros Hlaw Hok. unfold ChainRpc.resync_nonce, nonce_ok, nonce_after in *.
  destruct (fetch_chain_nonce s) as [[n|e] s1] eqn:Hf; intros [= <- <-].
  - apply fetched_small in Hf as [Hn Hs]; [|done]. simpl. rewrite Hs. lia.
  - pose proof (same_nonce_pool "get_nonce" (λ e, request (rpc_transaction_count e)) s) as Hn.
    unfold ChainRpc.fetch_chain_nonce in Hf. rewrite Hf in Hn. simpl in Hn. rewrite Hn. auto.
Qed.

Definition kwp {A} (m : K A) (Q : A → ClientState → Prop) (s : ClientState) : Prop :=
  Q (m s).1 (m s).2.

Lemma kwp_bind {A B} (m : K A) (k : A → K B) Q s :
  kwp m (λ a s', kwp (k a) Q s') s → kwp (m ≫= k) Q s.
Proof. unfold kwp, mbind, K_bind. by destruct (m s). Qed.

Lemma kwp_mono {A} (m : K A) (Q Q' : A → ClientState → Prop) s :
  kwp m Q s → (∀ a s', Q a s' → Q' a s') → kwp m Q' s.
Proof. unfold kwp. auto. Qed.

Definition nonce_step (c c' : Z) : Prop := c' = c ∨ nonce_after c c'.

Lemma nonce_step_trans a b c : nonce_step a b → nonce_step b c → nonce_step a c.
Proof. unfold nonce_step, nonce_after. lia. Qed.

(** How a submission leaves the counter. *)
Definition submit_nonce_post (c : Z) (r : option (result ClientError SubmittedTx)) (c' : Z) : Prop :=
  0 ≤ c' ≤ NONCE_UNINITIALIZED ∧
  match r with
  | Some (Ok sub) => (c = NONCE_UNINITIALIZED ∨ c ≤ sx_nonce sub) ∧ c' = sx_nonce sub + 1
  | _ => nonce_step c c'
  end.

Lemma submit_post_after c0 c r c' :
  nonce_step c0 c → submit_nonce_post c r c' → submit_nonce_post c0 r c'.
Proof.
  unfold submit_nonce_post, nonce_step, nonce_after. intros H [? Hr]. split; [done|].
  destruct r as [[sub|e]|]; lia.
Qed.

Lemma submit_nonces tx cut wait left s :
  CountLaw → nonce_ok s →
  kwp (submit_attempts hash_text local_usage_text sign config tx cut wait left)
    (λ r s', submit_nonce_post (cl_nonce s) r (cl_nonce s')) s.
Proof.
  intros Hlaw. revert wait s. induction left as [|left IH]; intros wait s Hok; cbn [submit_attempts].
  { split; [done|]. by left. }
  assert (Hstop : ∀ c (s1 : ClientState) r, nonce_ok s1 → nonce_step c (cl_nonce s1) →
    (∀ sub, r ≠ Some (Ok sub)) → submit_nonce_post c r (cl_nonce s1)).
  { intros c s1 r H1 H2 H3. split; [done|]. destruct r as [[sub|e]|]; [by destruct (H3 sub)|done|done]. }
  apply kwp_bind, (kwp_mono _ (λ _ s1, nonce_ok s1 ∧ nonce_step (cl_nonce s) (cl_nonce s1))).
  { case_match; [by split; [|left]|]. unfold kwp. destruct (resync_nonce s) as [r s1] eqn:Hr.
    exact (resync_spec _ _ _ Hlaw Hok Hr). }
  intros synced s1 [Hok1 Hst1]. destruct (cut wait); [by apply Hstop|].
  destruct synced as [[]|e]; [|by apply Hstop].
  apply kwp_bind. unfold kwp at 1. destruct (next_nonce s1) as [nonce s2] eqn:Hn. simpl.
  apply next_nonce_spec in Hn; [|done|done].
  destruct Hn as [(-> & Hn & Ha)|[[e ->] Hs]].
  2:{ rewrite <- Hs in Hst1. assert (nonce_ok s2) by (unfold nonce_ok in *; by rewrite Hs).
      by destruct (cut (wait + 1)%nat); apply Hstop. }
  assert (Hst2 : nonce_step (cl_nonce s) (cl_nonce s2)) by (eapply nonce_step_trans; [exact Hst1|by right]).
  assert (Hok2 : nonce_ok s2) by (unfold nonce_ok; lia).
  destruct (cut (wait + 1)%nat); [by apply Hstop|].
  apply kwp_bind. pose proof (same_nonce_send (with_nonce (cl_nonce s2) tx) s2) as Hsend. unfold kwp at 1.
  destruct (send_transaction (with_nonce (cl_nonce s2) tx) s2) as [sent s3]. simpl in Hsend |- *.
  assert (Hok3 : nonce_ok s3) by (unfold nonce_ok; lia).
  assert (Hst3 : nonce_step (cl_nonce s) (cl_nonce s3)) by (by rewrite Hsend).
  destruct (cut (wait + 2)%nat); [by apply Hstop|].
  destruct sent as [h|e].
  - unfold kwp, mbind, K_bind. simpl. rewrite Hsend. unfold submit_nonce_post. simpl.
    unfold nonce_step, nonce_after in *. lia.
  - case_match; [|by apply Hstop].
    eapply kwp_mono; [by apply IH|]. intros r s4 Hp. by eapply submit_post_after.
Qed.

(** ** Many operations *)

Inductive client_op : Type :=
| OpSubmit (tx : Tx) (cut : nat → bool)
| OpFill (nonce : Z)
| OpWait (hash : N)
| OpRead (agreement_id : N)
| OpTime.

(** The nonce a submission went out with, if it succeeded. *)
Definition run_client_op (o : client_op) : K (option Z) :=
  match o with
  | OpSubmit tx cut =>
      r ← sign_and_send hash_text local_usage_text sign config tx cut;
      mret (match r with Ok sub => Some (sx_nonce sub) | Err _ => None end)
  | OpFill nonce => _ ← fill_nonce_gap hash_text local_usage_text sign config nonce; mret None
  | OpWait hash => _ ← wait_for_receipt hash_text local_usage_text config hash; mret None
  | OpRead id => _ ← client_agreement_on_chain hash_text local_usage_text decode_state config id; mret None
  | OpTime => _ ← client_latest_block_timestamp hash_text local_usage_text config; mret None
  end.

Fixpoint run_ops_client (l : list client_op) : K (list Z) :=
  match l with
  | [] => mret []
  | o :: rest => n ← run_client_op o; ns ← run_ops_client rest; mret (option_list n ++ ns)
  end.

Lemma run_op_nonces o s :
  CountLaw → nonce_ok s →
  kwp (run_client_op o) (λ n s', nonce_ok s' ∧
    match n with
    | Some n => (cl_nonce s = NONCE_UNINITIALIZED ∨ cl_nonce s ≤ n) ∧ cl_nonce s' = n + 1
    | None => nonce_step (cl_nonce s) (cl_nonce s')
    end) s.
Proof.
  intros Hlaw Hok. destruct o as [tx cut|nonce|hash|id|]; simpl.
  - apply kwp_bind. unfold sign_and_send. apply kwp_bind.
    eapply kwp_mono; [by apply submit_nonces|]. intros r s' [H1 H2]. unfold kwp. simpl.
    split; [done|]. by destruct r as [[sub|e]|].
  - pose proof (same_nonce_fill nonce s) as H. unfold kwp, mbind, K_bind, nonce_ok.
    destruct (fill_nonce_gap _ _ _ _ _ s). simpl in *. rewrite H. by split; [|left].
  - pose proof (same_nonce_wait hash s) as H. unfold kwp, mbind, K_bind, nonce_ok.
    destruct (wait_for_receipt _ _ _ _ s). simpl in *. rewrite H. by split; [|left].
  - assert (H : cl_nonce (client_agreement_on_chain hash_text local_usage_text decode_state config id s).2
      = cl_nonce s) by (apply same_nonce_try; [apply same_nonce_view|done]).
    unfold kwp, mbind, K_bind, nonce_ok.
    destruct (client_agreement_on_chain _ _ _ _ _ s). simpl in *. rewrite H. by split; [|left].
  - pose proof (same_nonce_time s) as H. unfold kwp, mbind, K_bind, nonce_ok.
    destruct (client_latest_block_timestamp _ _ _ s). simpl in *. rewrite H. by split; [|left].
Qed.

(** C28: over any run of submissions, nonce fills, receipt waits and reads, with
    whatever the endpoints answer, no two submissions that succeeded went out
    with the same nonce: each one's is above all earlier ones', and none is below
    the counter the run started with.  (Transaction counts are below the largest
    64-bit number, and so are the nonces used, which mark an unread counter.) *)
Theorem successful_nonces_increase l s nonces s' :
  CountLaw → 0 ≤ cl_nonce s ≤ NONCE_UNINITIALIZED →
  run_ops_client l s = (nonces, s') → Forall (λ n, n + 1 < NONCE_UNINITIALIZED) nonces →
  StronglySorted Z.lt nonces ∧ (cl_nonce s ≠ NONCE_UNINITIALIZED → Forall (λ n, cl_nonce s ≤ n) nonces).
Proof.
  intros Hlaw. revert s nonces. induction l as [|o l IH]; intros s nonces Hok; simpl.
  { intros [= <- <-] _. split; [constructor|done]. }
  unfold mbind, K_bind. pose proof (run_op_nonces o s Hlaw Hok) as Ho. unfold kwp in Ho.
  destruct (run_client_op o s) as [n s1]. simpl in Ho. destruct Ho as [Hok1 Ho].
  destruct (run_ops_client l s1) as [ns s2] eqn:Hl. intros [= <- <-] Hb.
  apply Forall_app in Hb as [Hb1 Hb2]. destruct (IH s1 ns Hok1 Hl Hb2) as [Hs Hge].
  destruct n as [n|]; simpl in *.
  - rewrite Forall_singleton in Hb1. destruct Ho as [Hc Hn]. rewrite Hn in Hge.
    assert (Hall : Forall (λ m, n + 1 ≤ m) ns) by (apply Hge; lia). split.
    + constructor; [done|]. eapply Forall_impl; [exact Hall|]. intros m Hm. simpl in Hm. lia.
    + intros Hne. constructor; [by destruct Hc|]. eapply Forall_impl; [exact Hall|].
      intros m Hm. simpl in Hm. destruct Hc; lia.
  - split; [done|]. intros Hne. unfold nonce_step, nonce_after in Ho.
    eapply Forall_impl; [apply Hge; lia|]. intros m Hm. simpl in Hm. lia.
Qed.

(** ** Reads *)

(** A confirmed newest block is kept or moved on. *)
Definition seen_kept (a b : SeenBlock) : Prop :=
  sb_confirmed a = true → sb_confirmed b = true ∧ sb_number a ≤ sb_number b.

#[local] Instance seen_kept_preorder : PreOrder seen_kept.
Proof.
  split; [done|]. intros a b c Hab Hbc Ha. destruct (Hab Ha) as [Hb ?]. destruct (Hbc Hb). split; [done|lia].
Qed.

Lemma take_kept block now a : seen_kept a (take_block block now a).
Proof. intros Ha. unfold take_block. destruct (Z.ltb_spec (sb_number a) block); simpl; split; done || lia. Qed.

Lemma advance_kept block now only a : seen_kept a (advance block now only a).2.
Proof. unfold advance. repeat case_match; try (by intros ?; split); simpl. apply take_kept. Qed.

Lemma confirm_kept block now a : seen_kept a (confirm block now a).
Proof.
  intros Ha. unfold confirm. simpl. rewrite Ha. set (b := mkSeen _ _ _ _ _).
  case_match; [|by split]. by apply (take_kept block now b).
Qed.

Lemma due_kept now a : seen_kept a (cross_check_due now a).2.
Proof. intros Ha. unfold cross_check_due. by case_match. Qed.

Lemma ask_heads_log es (i : Inner) : in_log (ask_heads es i).2 = in_log i.
Proof.
  revert i. induction es as [|e es IH]; intros i; simpl; [done|].
  pose proof (request_log (rpc_block_number e) i) as Hr. destruct (request _ i) as [r i1].
  specialize (IH i1). destruct (ask_heads es i1) as [heads i2]. simpl in *. congruence.
Qed.

(** Nothing is logged, no endpoint's head is remembered or forgotten, and the
    newest block is kept. *)
Record quietly (s s' : ClientState) : Prop := {
  qt_log : in_log (cl_inner s') = in_log (cl_inner s);
  qt_heads : in_heads (cl_inner s') = in_heads (cl_inner s);
  qt_seen : seen_kept (cl_seen s) (cl_seen s') }.

Lemma ask_heads_heads es (i : Inner) : in_heads (ask_heads es i).2 = in_heads i.
Proof.
  revert i. induction es as [|e es IH]; intros i; simpl; [done|].
  assert (Hr : in_heads (request (rpc_block_number e) i).2 = in_heads i)
    by (unfold request; by destruct (rpc_block_number e (in_world i))).
  destruct (request _ i) as [r i1]. specialize (IH i1). destruct (ask_heads es i1) as [heads i2].
  simpl in *. congruence.
Qed.

Lemma quietly_seen {A} (f : Z → SeenBlock → A * SeenBlock) s :
  (∀ now a, seen_kept a (f now a).2) → kwp (with_seen f) (λ _, quietly s) s.
Proof.
  intros Hf. unfold kwp, with_seen. specialize (Hf (rpc_now (in_world (cl_inner s))) (cl_seen s)).
  by destruct (f _ _).
Qed.

Lemma cross_check_quiet s : kwp (cross_check_seen_block config) (λ _, quietly s) s.
Proof.
  unfold cross_check_seen_block. case_match; [by split|]. apply kwp_bind.
  eapply kwp_mono; [apply quietly_seen, due_kept|]. intros due s1 [L1 H1 S1]. case_match; [by split|].
  apply kwp_bind. unfold kwp at 1, latest_blocks.
  pose proof (ask_heads_log (seq 0 (endpoint_count config)) (cl_inner s1)) as L2.
  pose proof (ask_heads_heads (seq 0 (endpoint_count config)) (cl_inner s1)) as H2.
  destruct (ask_heads _ _) as [heads i]. simpl in *.
  case_match; [|split; [simpl; congruence..|done]].
  eapply kwp_mono; [apply (quietly_seen (λ now seen, (tt, confirm _ now seen))); intros; apply confirm_kept|].
  intros u s2 [L3 Hh3 S3]. simpl in *. split; [congruence..|]. by etrans.
Qed.

(** What an inner step logs, and where the heads it leaves come from. *)
Definition heads_from (ev : list client_event) (i i' : Inner) : Prop :=
  in_log i' = in_log i ++ ev ∧
  ∀ e head asked_at, in_heads i' !! e = Some (Some (head, asked_at)) →
    in_heads i !! e = Some (Some (head, asked_at)) ∨ EvHead e head asked_at ∈ ev.

Lemma heads_from_same i i' : in_log i' = in_log i → in_heads i' = in_heads i → heads_from [] i i'.
Proof. intros L H. split; [by rewrite app_nil_r|]. rewrite H. by left. Qed.

Lemma heads_from_trans ev1 ev2 i1 i2 i3 :
  heads_from ev1 i1 i2 → heads_from ev2 i2 i3 → heads_from (ev1 ++ ev2) i1 i3.
Proof.
  intros [L1 H1] [L2 H2]. split; [by rewrite L2, L1, app_assoc|]. intros e head t Ht.
  rewrite elem_of_app. destruct (H2 _ _ _ Ht) as [?|?]; [|by auto]. destruct (H1 e head t); auto.
Qed.

(** The head an endpoint is read at: what it answers now, or what it answered
    when it was last asked. *)
Lemma latest_head_from endpoint seen (i : Inner) :
  let r := latest_head endpoint seen i in
  ∃ ev, heads_from ev i r.2 ∧ ∀ head, r.1 = Ok head → ∃ asked_at,
    in_heads i !! endpoint = Some (Some (head, asked_at)) ∨ EvHead endpoint head asked_at ∈ ev.
Proof.
  intros r. subst r. unfold latest_head.
  destruct (_ ≫= _) as [head|] eqn:Hf; simpl.
  { exists []. split; [by apply heads_from_same|]. intros h [= <-].
    unfold fresh_head in Hf. destruct (in_heads i !! endpoint) as [[[h t]|]|]; [|done..]. simpl in Hf.
    destruct (_ <? HEAD_REUSE); [|done]. simpl in Hf. destruct (seen <=? h); [|done].
    injection Hf as <-. exists t. by left. }
  unfold request. destruct (rpc_block_number endpoint (in_world i)) as [[head|err] x]; simpl.
  2:{ exists []. split; [by apply heads_from_same|done]. }
  set (t := rpc_now (in_world i)). exists [EvHead endpoint head t]. split.
  - split; [done|]. intros e h t' He.
    change (remember_head endpoint head t (in_heads i) !! e = Some (Some (h, t'))) in He.
    unfold remember_head, EndpointHeads in *. destruct (decide (e = endpoint)) as [->|Hne].
    + apply list_lookup_insert_Some in He as [(_ & [= <- <-] & _)|[? _]]; [|done]. right. left.
    + rewrite list_lookup_insert_ne in He by done. by left.
  - intros h [= <-]. exists t. right. left.
Qed.

Lemma forget_head_from endpoint (i i' : Inner) :
  in_log i' = in_log i → in_heads i' = forget_head endpoint (in_heads i) → heads_from [] i i'.
Proof.
  intros L H. split; [by rewrite app_nil_r|]. rewrite H. intros e head t He. left. unfold forget_head, EndpointHeads in *.
  destruct (decide (e = endpoint)) as [->|Hne].
  - apply list_lookup_insert_Some in He as [(_ & [=] & _)|[? _]]. done.
  - by rewrite list_lookup_insert_ne in He.
Qed.

(** The read of a view that was answered: where, at which head, within which
    bounds. *)
Definition read_from (view : View) (seen highest : Z) (i : Inner) (v : Z * list Z)
    (ev : list client_event) : Prop :=
  seen ≤ v.1 ≤ highest ∧ ∃ e, EvRead e view v.1 (Ok v.2) ∈ ev ∧ ∃ asked_at,
    in_heads i !! e = Some (Some (v.1, asked_at)) ∨ EvHead e v.1 asked_at ∈ ev.

Lemma read_endpoint_from to view seen highest e (i : Inner) :
  let r := read_endpoint to view seen highest e i in
  ∃ ev, heads_from ev i r.2 ∧ ∀ v, r.1 = Ok v → read_from view seen highest i v ev.
Proof.
  intros r. subst r. unfold read_endpoint.
  destruct (latest_head_from e seen i) as (ev & F1 & Hhead).
  destruct (latest_head e seen i) as [[head|err] i1]; simpl in F1, Hhead.
  2:{ by exists ev. }
  specialize (Hhead head eq_refl). unfold read_at_head, refuse, refuse_behind.
  assert (Hno : ∀ i2, in_log i2 = in_log i1 → in_heads i2 = in_heads i1 →
    heads_from (ev ++ []) i (set_heads (forget_head e) i2)).
  { intros i2 L2 H2. eapply heads_from_trans; [exact F1|]. apply (forget_head_from e); simpl; congruence. }
  destruct (Z.leb_spec seen head) as [Hle|]; simpl.
  2:{ exists (ev ++ []). by split; [apply Hno|]. }
  unfold refuse_far_ahead. destruct (Z.leb_spec head highest) as [Hhi|]; simpl.
  2:{ exists (ev ++ []). by split; [apply Hno|]. }
  unfold request. simpl. destruct (rpc_call e to view (Some head) (in_world i1)) as [r x].
  exists (ev ++ [EvRead e view head r]). destruct r as [output|err]; simpl; split.
  - eapply heads_from_trans; [exact F1|]. split; [done|]. simpl. by left.
  - intros v [= <-]. split; [done|]. exists e. rewrite !elem_of_app. split; [right; left|].
    destruct Hhead as (t & [?|?]); exists t; [by left|right]. rewrite elem_of_app. by left.
  - eapply heads_from_trans; [exact F1|]. split; [done|]. simpl. intros e' h t Ht. left.
    destruct (forget_head_from e i1 (set_heads (forget_head e) i1) eq_refl eq_refl) as [_ H].
    destruct (H e' h t Ht) as [?|[]%not_elem_of_nil]. done.
  - done.
Qed.

(** A walk of such reads. *)
Lemma kwp_read_pool operation to view seen highest s :
  kwp (run_pool operation (read_endpoint to view seen highest)) (λ r s', cl_seen s' = cl_seen s ∧
    ∃ ev, in_log (cl_inner s') = in_log (cl_inner s) ++ ev ∧
      ∀ v, r = Ok v → read_from view seen highest (cl_inner s) v ev) s.
Proof.
  unfold kwp, ChainRpc.run_pool.
  destruct (execute_with_endpoint _ _ _ _ _ _ _) as [r [p i]] eqn:Hrun. simpl. split; [done|].
  set (R := λ i i' : Inner, ∃ ev, heads_from ev i i').
  assert (PreOrder R).
  { split; [intros i1; exists []; by apply heads_from_same|].
    intros i1 i2 i3 (e1 & F1) (e2 & F2). eexists. by eapply heads_from_trans. }
  assert (Hs : ∀ d i1, R i1 (inner_sleep d i1)) by (intros d i1; exists []; by apply heads_from_same).
  assert (Hc : ∀ e i1, R i1 (read_endpoint to view seen highest e i1).2).
  { intros e i1. destruct (read_endpoint_from to view seen highest e i1) as (ev & F & _). by exists ev. }
  destruct (execute_found _ _ _ _ _ R Hs Hc _ _ _ _ Hrun) as [(ev & E & _) Hok]. simpl in *.
  exists ev. split; [done|]. intros v ->.
  destruct (Hok v eq_refl) as (e & i1 & i2 & (ev1 & F1) & Hv & (ev3 & F3)).
  destruct (read_endpoint_from to view seen highest e i1) as (ev2 & F2 & Hread).
  rewrite Hv in F2, Hread. simpl in F2, Hread. destruct (Hread v eq_refl) as (Hb & e' & Hin & t & Hhead).
  assert (Hev : ev = ev1 ++ ev2 ++ ev3).
  { apply (app_inv_head (in_log (cl_inner s))). rewrite <- E, (proj1 F3), (proj1 F2), (proj1 F1).
    by rewrite !app_assoc. }
  rewrite Hev. split; [done|]. exists e'. rewrite !elem_of_app. split; [auto|]. exists t.
  rewrite !elem_of_app. destruct Hhead as [Hh|?]; [|by auto].
  destruct F1 as [_ H1]. destruct (H1 _ _ _ Hh); auto.
Qed.

(** C29: an agreement's state comes from a read that was made.  With [s1] the
    client after the cross-check that opens the read, which never takes a
    confirmed newest block back: the read was at block [head] of some endpoint,
    which that endpoint reported as its latest block during this call or when it
    was last asked before it; [head] is not below the newest block of [s1], and,
    once that block is confirmed, not above what is believable of it at that time
    (before it is confirmed nothing bounds [head] from above).  The read only
    moves the newest block on, so once it is confirmed reads never go back before
    it. *)
Theorem agreements_are_read_at_seen_blocks id s st s' :
  client_agreement_on_chain hash_text local_usage_text decode_state config id s = (Ok st, s') →
  let s1 := (cross_check_seen_block config s).2 in
  seen_kept (cl_seen s) (cl_seen s1) ∧ seen_kept (cl_seen s1) (cl_seen s') ∧
  ∃ e head output state ev,
    sb_number (cl_seen s1) ≤ head ∧
    (sb_confirmed (cl_seen s1) = true → head ≤ believable_limit (cl_seen s1) (clock s1)) ∧
    in_log (cl_inner s') = in_log (cl_inner s) ++ ev ∧
    EvRead e (GetAgreementDetails id VERSION_CURRENT) head (Ok output) ∈ ev ∧
    (∃ asked_at, in_heads (cl_inner s) !! e = Some (Some (head, asked_at)) ∨
       EvHead e head asked_at ∈ ev) ∧
    decode_state output = Some state ∧ st = on_chain_state state.
Proof.
  pose proof (cross_check_quiet s) as Hq. unfold kwp in Hq.
  destruct (cross_check_seen_block config s) as [u s1] eqn:Hs1. simpl in Hq. destruct Hq as [L1 H1 S1].
  assert (H : kwp (client_agreement_on_chain hash_text local_usage_text decode_state config id)
    (λ r s', ∀ st, r = Ok st → seen_kept (cl_seen s1) (cl_seen s') ∧ ∃ head output state ev,
      in_log (cl_inner s') = in_log (cl_inner s) ++ ev ∧
      read_from (GetAgreementDetails id VERSION_CURRENT) (bounds (cl_seen s1) (clock s1)).1
        (bounds (cl_seen s1) (clock s1)).2 (cl_inner s) (head, output) ev ∧
      decode_state output = Some state ∧ st = on_chain_state state) s).
  { apply kwp_bind, kwp_bind. unfold kwp at 1. rewrite Hs1. simpl.
    apply kwp_bind. unfold kwp at 1. simpl. apply kwp_bind. unfold kwp at 1. simpl.
    set (s2 := mkClient _ _ _ _). apply kwp_bind. eapply kwp_mono; [apply kwp_read_pool|].
    intros r s3 [S3 (ev & L3 & Hok)]. destruct r as [[head output]|err]; [|by intros st' [=]].
    apply kwp_bind. eapply kwp_mono; [apply quietly_seen; intros; apply advance_kept|].
    intros noted s4 [L4 _ S4]. unfold kwp. simpl.
    destruct (decode_state output) as [state|] eqn:Hd; [|by intros st' [=]]. simpl.
    intros st' [= <-]. split; [by rewrite S3 in S4|]. exists head, output, state, ev.
    split_and!; [by rewrite L4, L3; simpl; rewrite L1| |done|done].
    specialize (Hok (head, output) eq_refl). unfold read_from in Hok. simpl in Hok. by rewrite H1 in Hok. }
  intros Hrun. unfold kwp in H. rewrite Hrun in H. simpl.
  destruct (H st eq_refl) as (S2 & head & output & state & ev & El & (Hb & e & Hin & Hh) & Hd & ->).
  split_and!; [done..|]. exists e, head, output, state, ev. simpl in Hb.
  split_and!; [lia| |done..]. intros Hcf. rewrite Hcf in Hb. lia.
Qed.

(** ** The manager's providers *)

(** A provider is listed once however the list shifts while it is read. *)
Lemma providers_listed_once (decode_u256 : list Z → option Z) (decode_address : list Z → option N) collector :
  ends (client_tracked_providers hash_text local_usage_text decode_u256 decode_address config collector)
    (λ r, ∀ t, r = Ok t → NoDup (tp_providers t)).
Proof.
  assert (Hl : ∀ left index providers seen complete,
    NoDup providers → (∀ p, p ∈ providers → p ∈ seen) →
    ends (list_providers hash_text local_usage_text decode_address config collector index left providers
            seen complete) (λ t, NoDup (tp_providers t))).
  { induction left as [|left IH]; intros index providers seen complete Hnd Hs; simpl; [by apply ends_ret|].
    apply ends_bind. intros s. destruct (client_view _ _ _ _ _ _ _ s) as [[p|e] s1]; simpl;
      [|by apply ends_ret].
    case_bool_decide as Hp; [by apply IH|]. apply IH.
    - apply NoDup_app. split_and!; [done| |apply NoDup_singleton].
      intros q Hq ->%list_elem_of_singleton. by apply Hp, Hs.
    - intros q [Hq| ->%list_elem_of_singleton]%elem_of_app; apply elem_of_union; [right; auto|left].
      by apply elem_of_singleton. }
  apply ends_bind. intros s. destruct (client_view _ _ _ _ _ _ _ s) as [[count|e] s1]; simpl; [|by intros s2].
  apply ends_bind. intros s2. simpl. destruct (count <=? u64_max); [|by intros s3].
  apply ends_bind. eapply ends_mono; [apply Hl; [constructor|by intros p ?%not_elem_of_nil]|].
  intros t Ht. apply ends_ret. by intros t' [= <-].
Qed.

End client.

(** ** Witnesses *)

(** Two endpoints on a clock that every request moves.  The first submission's
    nonce is taken; the count then shows the next.  The receipt appears later. *)
#[local] Instance DemoEndpoints : Endpoints Z := {|
  rpc_block_number e x := (Ok (if (e =? 0)%nat then 1000 else 1010), x + 1);
  rpc_latest_block e x := (Ok (Some (mkBlock 1000 1700000000 (Some 100000000))), x + 1);
  rpc_priority_fee e x := (Ok 5, x + 1);
  rpc_estimate_gas e tx x := (Ok 60000, x + 1);
  rpc_transaction_count e x := (Ok (if x <? 4 then 7 else 8), x + 1);
  rpc_send_raw_transaction e tx x :=
    (if bool_decide (tx_nonce tx = Some 7) then Err (OtherFault "err: Nonce too low, next 8") else Ok tt, x + 1);
  rpc_receipt e h x := (Ok (if x <? 1000000000 then None else Some (mkReceipt (Some 1005) true)), x + 1);
  rpc_call e to view block x := (Ok [2], x + 1);
  rpc_now x := x;
  rpc_sleep d x := x + d |}.

Definition demo_client_config : ClientConfig :=
  mkClientConfig demo_rpc_pool (mkGasEstimator (as_f64 2) 100000 200000) (as_f64 2) 100 42161 1%N 2%N 3%N.
Definition demo_sign (tx : Tx) : result string N :=
  match tx_nonce tx with Some n => Ok (Z.to_N (100 + n)) | None => Err "missing nonce" end.
Definition demo_client : ClientState :=
  mkClient (mkPool 0 []) (mkInner 0 (new_heads 3) new_refusals []) NONCE_UNINITIALIZED (new_seen 0).
Definition demo_abi (bytes : list Z) : option Z := head bytes.

Lemma manager_calls_report_their_receipts_witness :
  let run := submit_and_confirm (λ _, "") id demo_sign demo_client_config (ReconcileProvider 2%N 9%N)
               (λ _, false) demo_client in
  run.1 = Ok (Some 108%N) ∧
  call_reported (λ _, "") id demo_sign demo_client_config (ReconcileProvider 2%N 9%N) run.1
    (in_log (cl_inner run.2)).
Proof.
  intros run. split; [vm_compute; reflexivity|]. destruct run as [r s'] eqn:E.
  destruct (manager_calls_report_their_receipts (λ _, "") id demo_sign demo_client_config
    (ReconcileProvider 2%N 9%N) (λ _, false) demo_client r s' E) as (ev & Hl & H).
  simpl. rewrite Hl. exact H.
Defined.

Definition demo_client_ops : list client_op :=
  let tx := mkTx 3%N (ReconcileProvider 2%N 9%N) (Some 100000) (Some 5) (Some 5) (Some 42161) None in
  [OpSubmit tx (λ _, false); OpFill 8; OpSubmit tx (λ w, (w =? 2)%nat); OpRead 11%N;
   OpSubmit tx (λ _, false); OpTime].

Lemma demo_counts : CountLaw.
Proof. intros e x n x' H. injection H as <- _. destruct (x <? 4); vm_compute; split; congruence. Defined.

Lemma successful_nonces_increase_witness :
  let run := run_ops_client (λ _, "") id demo_sign demo_abi demo_client_config demo_client_ops demo_client in
  run.1 = [8; 9] ∧ StronglySorted Z.lt run.1.
Proof.
  intros run. split; [vm_compute; reflexivity|]. destruct run as [ns s'] eqn:E.
  apply (successful_nonces_increase (λ _, "") id demo_sign demo_abi demo_client_config demo_client_ops
    demo_client ns s' demo_counts ltac:(vm_compute; split; discriminate) E).
  vm_compute in E. injection E as <- _. repeat constructor.
Defined.

(** A client whose newest block is confirmed. *)
Definition demo_confirmed : ClientState :=
  mkClient (mkPool 0 []) (mkInner 0 (new_heads 3) new_refusals []) NONCE_UNINITIALIZED
    (mkSeen 990 0 true (Some 0) false).

Lemma agreements_are_read_at_seen_blocks_witness :
  let run := client_agreement_on_chain (λ _, "") id demo_abi demo_client_config 11%N demo_confirmed in
  let s1 := (cross_check_seen_block demo_client_config demo_confirmed).2 in
  run.1 = Ok Live ∧ ∃ e head output,
    990 ≤ head ≤ believable_limit (cl_seen s1) (clock s1) ∧
    EvRead e (GetAgreementDetails 11%N VERSION_CURRENT) head (Ok output) ∈ in_log (cl_inner run.2) ∧
    ∃ asked_at, EvHead e head asked_at ∈ in_log (cl_inner run.2).
Proof.
  intros run s1. split; [vm_compute; reflexivity|].
  assert (Hr : run.1 = Ok Live) by (vm_compute; reflexivity).
  destruct run as [r s'] eqn:E. simpl in Hr. subst r.
  destruct (agreements_are_read_at_seen_blocks (λ _, "") id demo_abi demo_client_config 11%N
    demo_confirmed Live s' E) as (_ & _ & e & head & output & state & ev & Hlo & Hhi & Hl & Hin & Hh & _).
  exists e, head, output. simpl in Hl. simpl. rewrite Hl. split; [|split; [exact Hin|]].
  - split; [|apply Hhi; vm_compute; reflexivity]. etransitivity; [|exact Hlo]. vm_compute. discriminate.
  - destruct Hh as (t & [Hh|Hh]); [|by exists t].
    destruct e as [|[|[|e]]]; vm_compute in Hh; discriminate.
Defined.

End ChainRpcProps.
