(* ===== verification/EventSweeps.v ===== *)
(** * Announcing agreements
    (bin/dipper-service/src/network/service/chain_listener.rs: the event sweeps,
    the broker cooldown and a turn of the poll loop)

    After each drain the listener announces the agreements that were accepted,
    ended or expired: it reads the rows not announced yet, sends each one's event
    and stamps the row once the broker confirmed it.  The emitter is behind a
    class and nothing is assumed of it; the registry is Postgres with
    connections that may be lost and other tasks writing in between.  Every send
    and every stamp is logged with its answer. *)

From S2P Require Import Prelude Schema Registry RegistryInv RegistryRuns RegistryOps RegistryQueries.
From S2P Require Import JobQueue Worker CancelDispatch CancelDispatchProps ChainEvents ChainListener.
From S2P Require Import ChainReconcile Services.
Import Schema Registry RegistryInv RegistryRuns RegistryOps RegistryQueries.
Import JobQueue Worker CancelDispatch CancelDispatchProps ChainEvents ChainListener.
Import ChainReconcile Services.
Local Open Scope Z_scope.

Module EventSweeps.

(** ** Events *)

Inductive DurableEvent : Type :=
| EventAccepted (agreement_id indexer : N) (accepted_at : Z) (accepted_tx : string)
    (ends_at : Z) (payer : N)
| EventTerminated (agreement_id indexer : N) (terminated_at : Z)
    (terminated_by terminated_tx : string) (remaining_accepted_indexing_agreements : Z)
| EventRequestExpired (agreement_id indexer : N) (request_proposed_at request_expired_at : Z).

Inductive event_kind : Type := KindAccepted | KindTerminated | KindExpired.
#[export] Instance event_kind_eq_dec : EqDecision event_kind.
Proof. solve_decision. Defined.

Definition kind_of (e : DurableEvent) : event_kind :=
  match e with
  | EventAccepted _ _ _ _ _ _ => KindAccepted
  | EventTerminated _ _ _ _ _ _ => KindTerminated
  | EventRequestExpired _ _ _ _ => KindExpired
  end.

Definition event_agreement (e : DurableEvent) : N :=
  match e with
  | EventAccepted id _ _ _ _ _ => id
  | EventTerminated id _ _ _ _ _ => id
  | EventRequestExpired id _ _ _ => id
  end.

(** An event with its deployment and protocol network. *)
Record Emission : Type := mkEmission {
  em_deployment : N; em_network : Z; em_event : DurableEvent }.

(** The [emit_*] methods of [SubgraphIndexingAgreementEventsProducer]; [false]
    is an [EmitError]. *)
Class DurableEmitter (K : Type) : Type :=
  emit_durable : Emission → K → bool * K.

Inductive announce : Type :=
| Sent (e : Emission) (confirmed : bool)
| Stamped (kind : event_kind) (id : N) (stamped : bool).

Inductive SweepHealth : Type := HealthSent | HealthFailed | HealthIdle.
#[export] Instance SweepHealth_eq_dec : EqDecision SweepHealth.
Proof. solve_decision. Defined.

Definition health_merge (a b : SweepHealth) : SweepHealth :=
  match a, b with
  | HealthFailed, _ | _, HealthFailed => HealthFailed
  | HealthSent, _ | _, HealthSent => HealthSent
  | HealthIdle, HealthIdle => HealthIdle
  end.

(** ** The broker cooldown *)

Inductive CooldownTransition : Type := Entered | Extended | Recovered | Unchanged.

Record BrokerCooldown : Type := mkCooldown {
  bc_base : Z;
  bc_ceiling : Z;
  bc_down_since : option Z;
  bc_backoff : Z }.

Definition cooldown_new (base ceiling : Z) : BrokerCooldown := mkCooldown base ceiling None base.

Definition is_paused (now : Z) (c : BrokerCooldown) : bool :=
  match bc_down_since c with
  | Some at_ => since now at_ <? bc_backoff c
  | None => false
  end.

Definition cooldown_record (health : SweepHealth) (now : Z) (c : BrokerCooldown)
    : CooldownTransition * BrokerCooldown :=
  match health, bc_down_since c with
  | HealthSent, down =>
      (if is_null down then Unchanged else Recovered,
       mkCooldown (bc_base c) (bc_ceiling c) None (bc_base c))
  | HealthFailed, Some _ =>
      (Extended, mkCooldown (bc_base c) (bc_ceiling c) (Some now)
                   (Z.min (dur_mul (bc_backoff c) 2) (bc_ceiling c)))
  | HealthFailed, None =>
      (Entered, mkCooldown (bc_base c) (bc_ceiling c) (Some now) (bc_base c))
  | HealthIdle, _ => (Unchanged, c)
  end.

(** ** The sweeps *)

Section sweeps.
Context {C W K : Type} `{!ChainClient C} `{!MessageQueue W} `{!DurableEmitter K}.
Notation S := (S C W).

Record Outbox : Type := mkOutbox { ob_emitter : K; ob_log : list announce }.

Definition Sweep (A : Type) : Type := Outbox → S (A * Outbox).
#[export] Instance Sweep_ret : MRet Sweep := λ A a o, mret (a, o).
#[export] Instance Sweep_bind : MBind Sweep := λ A B k m o, r ← m o; k r.1 r.2.

Definition sweep_pg {A} (m : Z → DbM A) : Sweep (result Error A) := λ o,
  r ← pg m; mret (r, o).

Definition send (e : Emission) : Sweep bool := λ o,
  let '(ok, k) := emit_durable e (ob_emitter o) in
  mret (ok, mkOutbox k (ob_log o ++ [Sent e ok])).

Definition stamp (kind : event_kind) (id : N) (m : Z → DbM ()) : Sweep () := λ o,
  r ← pg m;
  mret (tt, mkOutbox (ob_emitter o) (ob_log o ++ [Stamped kind id (is_ok r)])).

(** The loop the sweeps share: the first event that can't be sent ends it. *)
Fixpoint announce_each {P} (emission : P → Sweep Emission) (mark : Z → N → DbM ())
    (pending : list P) : Sweep SweepHealth :=
  match pending with
  | [] => mret HealthSent
  | p :: rest =>
      e ← emission p;
      confirmed ← send e;
      if (confirmed : bool) then
        _ ← stamp (kind_of (em_event e)) (event_agreement (em_event e))
              (λ now, mark now (event_agreement (em_event e)));
        announce_each emission mark rest
      else mret HealthFailed
  end.

Definition announce_pending {P} (query : Z → DbM (list P)) (emission : P → Sweep Emission)
    (mark : Z → N → DbM ()) : Sweep SweepHealth :=
  pending ← sweep_pg query;
  match pending with
  | Err _ | Ok [] => mret HealthIdle
  | Ok pending => announce_each emission mark pending
  end.

(** [remaining_accepted_indexing_agreements]: [i32::try_from], or -1. *)
Definition as_remaining (count : result Error Z) : Z :=
  match count with
  | Ok n => if (- i32_max - 1 <=? n) && (n <=? i32_max) then n else i32_max
  | Err _ => -1
  end.

Definition remaining_accepted_indexing_agreements (deployment_id : N) : Sweep Z :=
  count ← sweep_pg (λ _, count_accepted_agreements_by_deployment deployment_id);
  mret (as_remaining count).

Definition terminated_emission (config : IndexingAgreementConfig) (p : PendingTerminatedEvent)
    (remaining : Z) : Emission :=
  mkEmission (pt_deployment_id p) (pt_protocol_network p)
    (EventTerminated (pt_agreement_id p) (pt_indexer_id p)
       (default (as_u64 (Z.max (pt_updated_at p / 1000000) 0)) (pt_canceled_at p))
       (default (recurring_agreement_manager config) (pt_canceled_by p))
       (default EmptyString (pt_canceled_tx p)) remaining).

Definition accepted_emission (p : PendingAcceptedEvent) : Emission :=
  mkEmission (pa_deployment_id p) (pa_protocol_network p)
    (EventAccepted (pa_agreement_id p) (pa_indexer_id p) (pa_accepted_at p) (pa_accepted_tx p)
       (pa_ends_at p) (pa_payer p)).

Definition expired_emission (p : PendingExpiredEvent) : Emission :=
  mkEmission (pe_deployment_id p) (pe_protocol_network p)
    (EventRequestExpired (pe_agreement_id p) (pe_indexer_id p) (pe_request_proposed_at p)
       (pe_request_expired_at p)).

Definition sweep_pending_terminated_events (config : IndexingAgreementConfig)
    : Sweep SweepHealth :=
  announce_pending (λ now, get_agreements_pending_terminated_emission now SWEEP_BATCH_SIZE)
    (λ p, remaining ← remaining_accepted_indexing_agreements (pt_deployment_id p);
          mret (terminated_emission config p remaining))
    mark_terminated_event_emitted.

Definition sweep_pending_accepted_events : Sweep SweepHealth :=
  announce_pending (λ _, get_agreements_pending_accepted_emission SWEEP_BATCH_SIZE)
    (λ p, mret (accepted_emission p)) mark_accepted_event_emitted.

Definition sweep_pending_expired_events : Sweep SweepHealth :=
  announce_pending (λ _, get_agreements_pending_expired_emission SWEEP_BATCH_SIZE)
    (λ p, mret (expired_emission p)) mark_expired_event_emitted.

Definition run_event_sweeps (config : IndexingAgreementConfig) : Sweep SweepHealth :=
  accepted ← sweep_pending_accepted_events;
  if bool_decide (accepted = HealthFailed) then mret accepted
  else
    terminated ← sweep_pending_terminated_events config;
    let health := health_merge accepted terminated in
    if bool_decide (health = HealthFailed) then mret health
    else
      expired ← sweep_pending_expired_events;
      mret (health_merge health expired).

(** The sweeps of one poll, unless the broker is paused. *)
Definition poll_events (config : IndexingAgreementConfig) (now : Z) (c : BrokerCooldown)
    : Sweep BrokerCooldown :=
  if is_paused now c then mret c
  else health ← run_event_sweeps config; mret (cooldown_record health now c).2.

End sweeps.

Arguments Outbox : clear implicits.
Arguments Sweep : clear implicits.

End EventSweeps.
