(* ===== verification/EventSweepsProps.v ===== *)
(** * What announcing agreements guarantees

    A row is stamped only right after its event was confirmed, an agreement is
    announced ended only after it was announced accepted, and with a broker and a
    database that answer nothing due is left unannounced. *)

From S2P Require Import Prelude Schema Registry RegistryInv RegistryRuns RegistryOps RegistryQueries.
From S2P Require Import QueryProps JobQueue Worker CancelDispatch CancelDispatchProps ChainListener.
From S2P Require Import ChainReconcile Services RowOps EventSweeps.
Import Schema Registry RegistryInv RegistryRuns RegistryOps RegistryQueries QueryProps.
Import JobQueue Worker CancelDispatch CancelDispatchProps ChainListener ChainReconcile Services.
Import RowOps EventSweeps.
Local Open Scope Z_scope.

Module EventSweepsProps.

(** ** Ordering what an update leaves alone *)

Section mapped.
Context {A : Type} (key : A → list Z) (f : A → A) (Hkey : ∀ x, key (f x) = key x).

Lemma key_le_mapped x y : key_le key (f x) (f y) ↔ key_le key x y.
Proof using Hkey. unfold key_le. by rewrite !Hkey. Qed.

Lemma list_merge_mapped l1 l2 :
  list_merge (key_le key) (f <$> l1) (f <$> l2) = f <$> list_merge (key_le key) l1 l2.
Proof using Hkey.
  revert l2. induction l1 as [|x l1 IH1]; [by intros []|].
  induction l2 as [|y l2 IH2]; [done|]. rewrite !fmap_cons, !list_merge_cons.
  pose proof (key_le_mapped x y). repeat case_decide; try tauto; csimpl; f_equal.
  - apply (IH1 (y :: l2)).
  - apply IH2.
Qed.

Notation stack_map := (fmap (M := list) (fmap (M := option) (fmap (M := list) f))).

Lemma merge_stack_mapped st :
  merge_stack (key_le key) (stack_map st) = f <$> merge_stack (key_le key) st.
Proof using Hkey.
  induction st as [|[l|] st IH]; csimpl; [done| |done]. by rewrite IH, list_merge_mapped.
Qed.

Lemma merge_to_stack_mapped st l :
  merge_list_to_stack (key_le key) (stack_map st) (f <$> l) =
  stack_map (merge_list_to_stack (key_le key) st l).
Proof using Hkey.
  revert l. induction st as [|[l'|] st IH]; intros l; csimpl; [done| |done].
  by rewrite list_merge_mapped, IH.
Qed.

(** Sorting sees the keys only. *)
Lemma order_by_mapped l : order_by key (f <$> l) = f <$> order_by key l.
Proof using Hkey.
  unfold order_by, merge_sort. change (@nil (option (list A))) with (stack_map []) at 1.
  generalize (@nil (option (list A))). induction l as [|x l IH]; intros st; csimpl.
  - apply merge_stack_mapped.
  - rewrite <-IH. f_equal. apply (merge_to_stack_mapped st [x]).
Qed.

End mapped.

(** ** What is due *)

Definition set_marker (k : event_kind) : option Z → AgreementRow → AgreementRow :=
  match k with
  | KindAccepted => set_accepted_event_emitted_at
  | KindTerminated => set_terminated_event_emitted_at
  | KindExpired => set_expired_event_emitted_at
  end.

Definition mark_of (k : event_kind) : Z → N → DbM () :=
  match k with
  | KindAccepted => mark_accepted_event_emitted
  | KindTerminated => mark_terminated_event_emitted
  | KindExpired => mark_expired_event_emitted
  end.

Definition awaits (k : event_kind) (now : Z) : AgreementRow → bool :=
  match k with
  | KindAccepted => awaits_accepted
  | KindTerminated => awaits_terminated now
  | KindExpired => awaits_expired
  end.

Definition sweep_key (k : event_kind) (r : AgreementRow) : list Z :=
  match k with
  | KindAccepted => [default 0 (ag_accepted_at r)]
  | KindTerminated | KindExpired => [ag_updated_at r]
  end.

(** The rows a sweep of [k] reads. *)
Definition due (k : event_kind) (now : Z) (d : Db) : list AgreementRow :=
  take (Z.to_nat SWEEP_BATCH_SIZE) (order_by (sweep_key k) (select (awaits k now) (agreements d))).

(** Other tasks' accepted agreements on the deployment. *)
Definition accepted_on (d : Db) (dep : N) : Z :=
  Z.of_nat (length (select (λ r, bool_decide (ag_deployment r = dep)
                                 && status_in [AcceptedOnChain] r) (agreements d))).

Definition row_accepted (r : AgreementRow) : PendingAcceptedEvent :=
  mkAccepted (ag_id r) (ag_indexer r) (tm_deployment (t_metadata (ag_terms r)))
    (tm_protocol_network (t_metadata (ag_terms r))) (as_u64 (default 0 (ag_accepted_at r)))
    (default EmptyString (ag_accepted_tx r)) (t_ends_at (ag_terms r)) (t_payer (ag_terms r)).

Definition row_emission (config : IndexingAgreementConfig) (d : Db) (k : event_kind)
    (r : AgreementRow) : Emission :=
  match k with
  | KindAccepted => accepted_emission (row_accepted r)
  | KindTerminated => terminated_emission config (terminated_of_row r)
      (as_remaining (Ok (accepted_on d (tm_deployment (t_metadata (ag_terms r))))))
  | KindExpired => expired_emission (expired_of_row r)
  end.

Definition stamp_row (k : event_kind) (now : Z) (ids : list N) (r : AgreementRow) : AgreementRow :=
  if bool_decide (ag_id r ∈ ids) then set_marker k (Some now) r else r.

Definition stamp_db (k : event_kind) (now : Z) (ids : list N) (d : Db) : Db :=
  set_agreements (stamp_row k now ids <$> agreements d) d.

Lemma stamp_row_id k now ids r : ag_id (stamp_row k now ids r) = ag_id r.
Proof. unfold stamp_row. case_bool_decide; [|done]. by destruct k. Qed.

Lemma stamp_row_cons k now id ids r :
  stamp_row k now ids (stamp_row k now [id] r) = stamp_row k now (id :: ids) r.
Proof.
  unfold stamp_row at 1. rewrite stamp_row_id. unfold stamp_row.
  repeat case_bool_decide; set_unfold; try done; try naive_solver; by destruct k.
Qed.

Lemma stamp_db_cons k now id ids d :
  stamp_db k now ids (stamp_db k now [id] d) = stamp_db k now (id :: ids) d.
Proof.
  unfold stamp_db, set_agreements. simpl. f_equal. rewrite <-map_fmap_compose.
  apply map_fmap_ext. intros j r _. apply stamp_row_cons.
Qed.

Lemma stamp_db_nil k now d : stamp_db k now [] d = d.
Proof.
  destruct d as [rq m]. unfold stamp_db, set_agreements. simpl. f_equal.
  trans (id <$> m); [|apply map_fmap_id]. apply map_fmap_ext. intros j r _.
  unfold stamp_row. case_bool_decide; [set_solver|done].
Qed.

(** A stamp of one kind is not seen by the others' queries and events. *)
Lemma stamp_unseen {B} (g : AgreementRow → B) k now ids r :
  (∀ v r, g (set_marker k v r) = g r) → g (stamp_row k now ids r) = g r.
Proof. intros H. unfold stamp_row. by case_bool_decide. Qed.

Lemma due_stamped k k' now ids d :
  k ≠ k' → due k' now (stamp_db k now ids d) = stamp_row k now ids <$> due k' now d.
Proof.
  intros Hk. unfold due, stamp_db. simpl.
  rewrite select_mapped, order_by_mapped, fmap_take; [done| |].
  all: intros r; apply (stamp_unseen _ k); by destruct k, k'.
Qed.

Lemma accepted_on_stamped k now ids d dep :
  accepted_on (stamp_db k now ids d) dep = accepted_on d dep.
Proof.
  unfold accepted_on, stamp_db. simpl. rewrite select_mapped, length_fmap; [done|].
  intros r. unfold status_in.
  rewrite (stamp_unseen ag_deployment k), (stamp_unseen ag_status k); by destruct k.
Qed.

Lemma row_emission_stamped config d k now ids k' r :
  row_emission config (stamp_db k now ids d) k' (stamp_row k now ids r) =
  row_emission config d k' r.
Proof.
  rewrite <-(stamp_unseen (row_emission config d k') k now ids r) by (by destruct k, k').
  destruct k'; simpl; [done| |done]. by rewrite accepted_on_stamped.
Qed.

Lemma mark_row_op k now id :
  row_op id (λ r, (Ok tt, set_marker k (Some now) r)) (Ok tt) (mark_of k now id).
Proof.
  intros d Hd. destruct k; simpl;
    unfold mark_accepted_event_emitted, mark_terminated_event_emitted, mark_expired_event_emitted;
    rewrite bind_run, update_one_quiet by (apply Hd || done); by destruct (agreements d !! id).
Qed.

Lemma mark_run k now id d :
  reg_inv d → mark_of k now id d = (Ok tt, stamp_db k now [id] d).
Proof.
  intros Hd. rewrite (mark_row_op k now id d Hd). unfold stamp_db.
  destruct (agreements d !! id) as [r|] eqn:Hr; simpl; do 2 f_equal.
  - f_equal. apply map_eq. intros j. rewrite lookup_fmap.
    destruct (decide (j = id)) as [->|Hj];
      [rewrite lookup_insert_eq, Hr|rewrite lookup_insert_ne by done]; simpl.
    + unfold stamp_row. rewrite bool_decide_true; [done|].
      rewrite (inv_key _ Hd _ _ Hr). set_solver.
    + destruct (agreements d !! j) as [r'|] eqn:Hj'; [|done]. simpl. unfold stamp_row.
      rewrite bool_decide_false; [done|]. rewrite (inv_key _ Hd _ _ Hj'). set_solver.
  - destruct d as [rq m]. unfold set_agreements. simpl in *. f_equal.
    trans (Datatypes.id <$> m); [symmetry; apply map_fmap_id|]. apply map_fmap_ext. intros j r' Hj. unfold stamp_row. simpl.
    rewrite bool_decide_false; [done|]. rewrite (inv_key _ Hd _ _ Hj). set_unfold. naive_solver.
Qed.

Lemma emission_mark_inv k now id d0 : preserves (inv_from d0) (mark_of k now id).
Proof. destruct (markers_inv d0 id) as (? & ? & ? & _). by destruct k. Qed.

(** The queries of the sweeps. *)
Lemma accepted_query d :
  get_agreements_pending_accepted_emission SWEEP_BATCH_SIZE d =
  (Ok (row_accepted <$> due KindAccepted 0 d), d).
Proof.
  unfold get_agreements_pending_accepted_emission. rewrite bind_run. unfold agreements_where.
  rewrite bind_run. simpl. rewrite bind_run. unfold sql_limit. simpl.
  assert (H : Forall (λ r, ag_accepted_at r ≠ None) (due KindAccepted 0 d)).
  { apply Forall_forall. intros r Hr. unfold due in Hr. apply elem_of_take in Hr as (i & Hr & _).
    apply list_elem_of_lookup_2, elem_of_order_by, elem_of_select in Hr as (k & _ & Hp).
    simpl in Hp. unfold awaits_accepted in Hp. by destruct (ag_accepted_at r). }
  unfold mret, SE_ret. do 2 f_equal.
  change (omap accepted_of_row (due KindAccepted 0 d) = row_accepted <$> due KindAccepted 0 d).
  induction H as [|r rows Hr _ IH]; [done|]. csimpl. rewrite IH. unfold accepted_of_row.
  destruct (ag_accepted_at r) eqn:Ha; [|done]. simpl. unfold row_accepted. by rewrite Ha.
Qed.

Lemma due_ids_stamped k k' now ids d :
  k ≠ k' → ag_id <$> due k' now (stamp_db k now ids d) = ag_id <$> due k' now d.
Proof.
  intros Hk. rewrite due_stamped, <-list_fmap_compose by done. apply list_fmap_ext.
  intros i r _. apply stamp_row_id.
Qed.

Lemma due_emissions_stamped config k k' now ids d :
  k ≠ k' → row_emission config (stamp_db k now ids d) k' <$> due k' now (stamp_db k now ids d) =
    row_emission config d k' <$> due k' now d.
Proof.
  intros Hk. rewrite due_stamped, <-list_fmap_compose by done. apply list_fmap_ext.
  intros i r _. apply row_emission_stamped.
Qed.

(** All a round announces, and the database after it. *)
Definition round_emissions (config : IndexingAgreementConfig) (now : Z) (d : Db) : list Emission :=
  ([KindAccepted; KindTerminated; KindExpired] ≫= λ k,
     row_emission config d k <$> due k now d).

Lemma round_emissions_eq config now d :
  round_emissions config now d =
  (row_emission config d KindAccepted <$> due KindAccepted now d) ++
  (row_emission config d KindTerminated <$> due KindTerminated now d) ++
  (row_emission config d KindExpired <$> due KindExpired now d).
Proof. unfold round_emissions. simpl. by rewrite app_nil_r. Qed.

Definition round_db (now : Z) (d : Db) : Db :=
  foldl (λ d' k, stamp_db k now (ag_id <$> due k now d) d') d
    [KindAccepted; KindTerminated; KindExpired].

Definition round_row (now : Z) (d : Db) (r : AgreementRow) : AgreementRow :=
  foldl (λ r' k, stamp_row k now (ag_id <$> due k now d) r') r
    [KindAccepted; KindTerminated; KindExpired].

Lemma round_db_rows now d : agreements (round_db now d) = round_row now d <$> agreements d.
Proof. unfold round_db. simpl. by rewrite <-!map_fmap_compose. Qed.

Lemma awaits_round k now d r :
  awaits k now (round_row now d r) =
  awaits k now r && negb (bool_decide (ag_id r ∈ ag_id <$> due k now d)).
Proof.
  unfold round_row. simpl. unfold stamp_row at 1. rewrite !stamp_row_id.
  unfold stamp_row at 1. rewrite !stamp_row_id. unfold stamp_row.
  destruct k; repeat case_bool_decide; simpl; rewrite ?andb_true_r, ?andb_false_r; try done.
  all: unfold awaits_accepted, awaits_terminated, awaits_expired; simpl.
  all: by rewrite ?andb_false_r.
Qed.

Lemma round_leaves k now d :
  reg_inv d →
  length (select (awaits k now) (agreements (round_db now d))) =
  (length (select (awaits k now) (agreements d)) - Z.to_nat SWEEP_BATCH_SIZE)%nat.
Proof.
  intros Hd. rewrite round_db_rows, select_fmap, length_fmap.
  set (l := order_by (sweep_key k) (select (awaits k now) (agreements d))).
  assert (Hp : l ≡ₚ select (awaits k now) (agreements d)) by apply order_by_perm.
  assert (Hs : select (λ r, awaits k now (round_row now d r)) (agreements d) =
    filter (λ r, ag_id r ∉ ag_id <$> take (Z.to_nat SWEEP_BATCH_SIZE) l)
      (select (awaits k now) (agreements d))).
  { unfold select. rewrite list_filter_filter. apply list_filter_iff. intros r.
    rewrite awaits_round, andb_true_iff, negb_true_iff, bool_decide_eq_false. tauto. }
  rewrite Hs, <-Hp. apply filter_rest. rewrite Hp. by eapply li_once, listed_select.
Qed.

(** ** Runs *)

Section sweeps.
Context {C W K : Type} `{!ChainClient C} `{!MessageQueue W} `{!DurableEmitter K}.
Notation SState := (SState C W).
Notation Sweep := (Sweep C W K).
Notation Outbox := (Outbox K).

(** [swp m Q o s]: from [o] and [s], [m] returns a value and states in [Q]. *)
Definition swp {A} (m : Sweep A) (Q : A → Outbox → SState → Prop) (o : Outbox) (s : SState)
    : Prop := wp (m o) (λ r s', Q r.1 r.2 s') s.

Lemma swp_run {A} (m : Sweep A) Q o s a o' s' :
  swp m Q o s → m o s = ((a, o'), s') → Q a o' s'.
Proof. unfold swp, wp. intros H E. by rewrite E in H. Qed.

Lemma swp_ret {A} (a : A) (Q : A → Outbox → SState → Prop) o s : Q a o s → swp (mret a) Q o s.
Proof. done. Qed.

Lemma swp_bind {A B} (m : Sweep A) (k : A → Sweep B) Q o s :
  swp m (λ a o' s', swp (k a) Q o' s') o s → swp (m ≫= k) Q o s.
Proof. intros H. apply (wp_bind (m o) (λ r, k r.1 r.2)). exact H. Qed.

Lemma swp_mono {A} (m : Sweep A) (Q Q' : A → Outbox → SState → Prop) o s :
  swp m Q o s → (∀ a o' s', Q a o' s' → Q' a o' s') → swp m Q' o s.
Proof. unfold swp. intros H HQ. eapply wp_mono; [exact H|]. intros [a o'] s'. apply HQ. Qed.

Lemma swp_pg {A} (m : Z → DbM A) Q o s :
  wp (pg m) (λ r s', Q r o s') s → swp (sweep_pg m) Q o s.
Proof. intros H. apply (wp_bind (pg m)). exact H. Qed.

(** Whatever the database answers. *)
Lemma swp_pg_any {A} (m : Z → DbM A) (Q : result Error A → Outbox → SState → Prop) o s :
  (∀ r s', Q r o s') → swp (sweep_pg m) Q o s.
Proof. intros H. apply swp_pg. unfold wp. apply H. Qed.

Lemma swp_send e (Q : bool → Outbox → SState → Prop) o s :
  (∀ k ok, emit_durable e (ob_emitter o) = (ok, k) →
    Q ok (mkOutbox k (ob_log o ++ [Sent e ok])) s) → swp (send e) Q o s.
Proof.
  intros H. unfold swp, wp, send. destruct (emit_durable e (ob_emitter o)) as [ok k] eqn:E.
  by apply H.
Qed.

Lemma swp_stamp kind id m (Q : () → Outbox → SState → Prop) o s :
  wp (pg m) (λ r s', Q tt (mkOutbox (ob_emitter o) (ob_log o ++ [Stamped kind id (is_ok r)])) s') s →
  swp (stamp kind id m) Q o s.
Proof. intros H. apply (wp_bind (pg m)). exact H. Qed.

(** ** Stamps follow confirmations *)

(** What one agreement's announcement leaves in the log. *)
Definition settled (p : Emission * bool) : list announce :=
  [Sent p.1 true; Stamped (kind_of (em_event p.1)) (event_agreement (em_event p.1)) p.2].

(** Announcements, the last of which may have failed. *)
Definition announced (ps : list (Emission * bool)) (failed : option Emission) : list announce :=
  (ps ≫= settled) ++ match failed with Some e => [Sent e false] | None => [] end.

Definition of_kind (k : event_kind) (ps : list (Emission * bool)) (failed : option Emission)
    : Prop :=
  Forall (λ p, kind_of (em_event p.1) = k) ps ∧
  match failed with Some e => kind_of (em_event e) = k | None => True end.

(** The health of what was announced. *)
Definition health_of (ps : list (Emission * bool)) (failed : option Emission) : SweepHealth :=
  match failed, ps with
  | Some _, _ => HealthFailed | None, [] => HealthIdle | None, _ => HealthSent
  end.

Lemma announced_app ps1 ps2 failed :
  announced ps1 None ++ announced ps2 failed = announced (ps1 ++ ps2) failed.
Proof. unfold announced. rewrite app_nil_r, bind_app. by rewrite app_assoc. Qed.

Section shape.
Context {P : Type} (kind : event_kind) (emission : P → Sweep Emission) (mark : Z → N → DbM ()).
(** Building an event sends nothing. *)
Context (Hemission : ∀ p o s, swp (emission p)
  (λ e o' _, kind_of (em_event e) = kind ∧ ob_log o' = ob_log o) o s).

Lemma announce_each_shape pending o s :
  swp (announce_each emission mark pending) (λ h o' _,
    ∃ ps failed, ob_log o' = ob_log o ++ announced ps failed ∧ of_kind kind ps failed ∧
      (length ps ≤ length pending)%nat ∧
      (h = HealthFailed ∧ failed ≠ None ∨
       h = HealthSent ∧ failed = None ∧ length ps = length pending)) o s.
Proof.
  revert o s. induction pending as [|p rest IH]; intros o s; simpl.
  - apply swp_ret. exists [], None. rewrite app_nil_r. split; [done|]. split; [by split|].
    split; [done|]. auto.
  - apply swp_bind. eapply swp_mono; [apply Hemission|]. intros e o1 s1 [Hk Hl1].
    apply swp_bind, swp_send. intros k [] _.
    + apply swp_bind, swp_stamp. unfold wp. set (ok := is_ok _). set (s2 := (pg _ _).2).
      eapply swp_mono; [apply IH|]. simpl. intros h o' s' (ps & failed & Hl & [Hks Hf] & Hn & Hh).
      exists ((e, ok) :: ps), failed. rewrite Hl, Hl1, <-!app_assoc.
      split; [done|]. split; [by repeat constructor|].
      simpl. split; [lia|]. destruct Hh as [?|(-> & -> & ?)]; [by left|right; auto with lia].
    + apply swp_ret. exists [], (Some e). simpl. rewrite Hl1. split; [done|]. split; [by split|].
      split; [lia|]. by left.
Qed.

Lemma announce_pending_shape query o s :
  swp (announce_pending query emission mark) (λ h o' _,
    ∃ ps failed, ob_log o' = ob_log o ++ announced ps failed ∧ of_kind kind ps failed ∧
      h = health_of ps failed) o s.
Proof.
  apply swp_bind, swp_pg_any. intros [[|p pending]|err] s1.
  2:{ eapply swp_mono; [apply announce_each_shape|]. simpl.
      intros h o' s' (ps & failed & Hl & Hk & _ & Hh). exists ps, failed. split; [done|].
      split; [done|]. destruct Hh as [[-> Hf]|(-> & -> & Hn)]; [by destruct failed|].
      by destruct ps. }
  all: apply swp_ret; exists [], None; rewrite app_nil_r; split; [done|]; by repeat split.
Qed.

End shape.

Lemma swp_build {A} (kind : event_kind) (e : A → Emission) p o s :
  (∀ p, kind_of (em_event (e p)) = kind) →
  swp (mret (e p)) (λ e o' _, kind_of (em_event e) = kind ∧ ob_log o' = ob_log o) o s.
Proof. intros H. by apply swp_ret. Qed.

Lemma accepted_shape o s :
  swp sweep_pending_accepted_events (λ h o' _,
    ∃ ps failed, ob_log o' = ob_log o ++ announced ps failed ∧ of_kind KindAccepted ps failed ∧
      h = health_of ps failed) o s.
Proof. apply announce_pending_shape. intros. by apply (swp_build KindAccepted). Qed.

Lemma terminated_shape config o s :
  swp (sweep_pending_terminated_events config) (λ h o' _,
    ∃ ps failed, ob_log o' = ob_log o ++ announced ps failed ∧ of_kind KindTerminated ps failed ∧
      h = health_of ps failed) o s.
Proof.
  apply announce_pending_shape. intros. apply swp_bind. unfold remaining_accepted_indexing_agreements.
  apply swp_bind, swp_pg_any. intros. by do 2 apply swp_ret.
Qed.

Lemma expired_shape o s :
  swp sweep_pending_expired_events (λ h o' _,
    ∃ ps failed, ob_log o' = ob_log o ++ announced ps failed ∧ of_kind KindExpired ps failed ∧
      h = health_of ps failed) o s.
Proof. apply announce_pending_shape. intros. by apply (swp_build KindExpired). Qed.

Lemma health_not_failed ps failed : health_of ps failed ≠ HealthFailed → failed = None.
Proof. by destruct failed. Qed.

Lemma settled_not_failed ps : health_of ps None ≠ HealthFailed.
Proof. by destruct ps. Qed.

Lemma confirmed_each {A} (E : A → Emission) (rows : list A) :
  (λ r, (E r, true)) <$> rows = (λ e, (e, true)) <$> (E <$> rows).
Proof. by rewrite <-list_fmap_compose. Qed.

Lemma merge_idle h : health_merge HealthIdle h = h.
Proof. by destruct h. Qed.

Lemma merge_settled ps1 ps2 failed :
  health_merge (health_of ps1 None) (health_of ps2 failed) = health_of (ps1 ++ ps2) failed.
Proof. by destruct ps1, ps2, failed. Qed.

(** A round of event sweeps, whatever the database, the other tasks and the
    emitter answer, is a series of announcements each of which was confirmed and
    then stamped, accepts before ends before expiries, and at most the last was
    refused; a refusal ends the round, leaves its row unstamped, and is what the
    round reports. *)
Theorem stamps_follow_confirmations config (o : Outbox) (s : SState) h o' s' :
  run_event_sweeps config o s = ((h, o'), s') →
  ∃ accepted terminated expired failed,
    ob_log o' = ob_log o ++ announced (accepted ++ terminated ++ expired) failed ∧
    Forall (λ p, kind_of (em_event p.1) = KindAccepted) accepted ∧
    Forall (λ p, kind_of (em_event p.1) = KindTerminated) terminated ∧
    Forall (λ p, kind_of (em_event p.1) = KindExpired) expired ∧
    (∀ e, failed = Some e →
      match kind_of (em_event e) with
      | KindAccepted => terminated = [] ∧ expired = []
      | KindTerminated => expired = []
      | KindExpired => True
      end) ∧
    h = health_of (accepted ++ terminated ++ expired) failed.
Proof.
  intros Hrun. pattern h, o', s'. refine (swp_run _ _ _ _ _ _ _ _ Hrun). clear Hrun h o' s'.
  apply swp_bind. eapply swp_mono; [apply accepted_shape|].
  intros h1 o1 s1 (acc & f1 & L1 & [A1 F1] & ->). case_bool_decide as Hf.
  { apply swp_ret. exists acc, [], [], f1. rewrite app_nil_r. repeat split; try done.
    intros e ->. by rewrite F1. }
  apply health_not_failed in Hf as ->.
  apply swp_bind. eapply swp_mono; [apply terminated_shape|].
  intros h2 o2 s2 (ter & f2 & L2 & [A2 F2] & ->). cbv zeta. rewrite merge_settled. case_bool_decide as Hf.
  { apply swp_ret. exists acc, ter, [], f2. rewrite app_nil_r, L2, L1, <-app_assoc, announced_app.
    repeat split; try done. intros e ->. by rewrite F2. }
  apply health_not_failed in Hf as ->.
  apply swp_bind. eapply swp_mono; [apply expired_shape|].
  intros h3 o3 s3 (ex & f3 & L3 & [A3 F3] & ->). rewrite merge_settled. apply swp_ret.
  exists acc, ter, ex, f3. rewrite L3, L2, L1, <-!app_assoc, !announced_app.
  repeat split; try done. intros e ->. by rewrite F3.
Qed.

(** ** A round when everything answers *)

Record healthy (s : SState) : Prop := {
  he_alone : alone s; he_fine : fine s; he_inv : reg_inv (sdb s) }.

(** A healthy state with this database, nothing else changed. *)
Record now_at (s : SState) (d : Db) (s' : SState) : Prop := {
  na_aside : aside s s'; na_healthy : healthy s'; na_db : sdb s' = d }.

Lemma now_at_refl s : healthy s → now_at s (sdb s) s.
Proof. by split. Qed.

Lemma now_at_trans s d s1 d' s' : now_at s d s1 → now_at s1 d' s' → now_at s d' s'.
Proof. intros [] []. split; [by etrans|done|done]. Qed.

Lemma wp_pg_healthy {A} (m : Z → DbM A) x d (Q : result Error A → SState → Prop) s :
  healthy s → m (snow s) (sdb s) = (Ok x, d) → reg_inv d →
  (∀ s', now_at s d s' → Q (Ok x) s') → wp (pg m) Q s.
Proof.
  intros [Ha Hf Hi] Hm Hd HQ. apply wp_pg_alone; [done|].
  unfold wp, statement, on_dispatch, registry, pg_call. unfold snow, sdb in Hm. rewrite Hm.
  unfold fine in Hf. rewrite Hf. simpl. apply HQ. split; [by split|by split|done].
Qed.

Lemma stamp_inv k now id d : reg_inv d → reg_inv (stamp_db k now [id] d).
Proof.
  intros Hd. eapply keeps_inv; [apply (emission_mark_inv k now id)|exact Hd|by apply mark_run].
Qed.

Section healthy.
Context (Hconfirms : ∀ e k, (emit_durable e k).1 = true).

Section loop.
Context {P : Type} (k : event_kind) (ev : AgreementRow → P) (emission : P → Sweep Emission).
Context (E : AgreementRow → Emission) (J : Db → Prop) (now : Z).
Context (HE : ∀ r, kind_of (em_event (E r)) = k ∧ event_agreement (em_event (E r)) = ag_id r).
Context (HJ : ∀ id d, J d → J (stamp_db k now [id] d)).
Context (Hemission : ∀ r o s, healthy s → J (sdb s) →
  swp (emission (ev r)) (λ e o' s', e = E r ∧ o' = o ∧ now_at s (sdb s) s') o s).

Lemma announce_rows rows o s :
  healthy s → snow s = now → J (sdb s) →
  swp (announce_each emission (mark_of k) (ev <$> rows)) (λ h o' s',
    h = HealthSent ∧ ob_log o' = ob_log o ++ announced ((λ r, (E r, true)) <$> rows) None ∧
    now_at s (stamp_db k now (ag_id <$> rows) (sdb s)) s') o s.
Proof using Hconfirms HE HJ Hemission.
  revert o s. induction rows as [|r rows IH]; intros o s Hh Hn Hj; csimpl.
  { apply swp_ret. split; [done|]. rewrite stamp_db_nil. split; [by rewrite app_nil_r|].
    by apply now_at_refl. }
  apply swp_bind. eapply swp_mono; [by apply Hemission|]. intros e o1 s1 (-> & -> & N1).
  apply swp_bind, swp_send. intros em ok Hok.
  pose proof (Hconfirms (E r) (ob_emitter o)) as Hc. rewrite Hok in Hc. simpl in Hc. subst ok.
  destruct (HE r) as [-> ->]. apply swp_bind, swp_stamp.
  pose proof (as_now _ _ (na_aside _ _ _ N1)) as Hn1.
  eapply (wp_pg_healthy _ tt (stamp_db k now [ag_id r] (sdb s))); [apply N1| |apply stamp_inv, Hh|].
  { rewrite Hn1, Hn, (na_db _ _ _ N1). apply mark_run, Hh. }
  intros s2 N2. pose proof (now_at_trans _ _ _ _ _ N1 N2) as N.
  pose proof (as_now _ _ (na_aside _ _ _ N)) as Hn2.
  eapply swp_mono; [apply IH; [apply N|congruence|rewrite (na_db _ _ _ N); by apply HJ]|].
  simpl. intros h o' s' (-> & Hl & N'). split; [done|]. split.
  - rewrite Hl, <-!app_assoc. unfold announced. csimpl. by rewrite (proj1 (HE r)), (proj2 (HE r)).
  - rewrite (na_db _ _ _ N), stamp_db_cons in N'. by eapply now_at_trans.
Qed.

Lemma sweep_healthy query o s :
  healthy s → snow s = now → J (sdb s) →
  query now (sdb s) = (Ok (ev <$> due k now (sdb s)), sdb s) →
  swp (announce_pending query emission (mark_of k)) (λ h o' s',
    let ps := (λ r, (E r, true)) <$> due k now (sdb s) in
    h = health_of ps None ∧ ob_log o' = ob_log o ++ announced ps None ∧
    now_at s (stamp_db k now (ag_id <$> due k now (sdb s)) (sdb s)) s') o s.
Proof using Hconfirms HE HJ Hemission.
  intros Hh Hn Hj Hq. apply swp_bind, swp_pg.
  eapply wp_pg_healthy; [done|by rewrite Hn|apply Hh|]. intros s1 N1.
  pose proof (as_now _ _ (na_aside _ _ _ N1)) as Hn1. pose proof (na_db _ _ _ N1) as Hd1.
  destruct (due k now (sdb s)) as [|r rows] eqn:Hdue.
  - apply swp_ret. csimpl. rewrite stamp_db_nil. split; [done|]. by rewrite app_nil_r.
  - change (ev <$> r :: rows) with (ev r :: (ev <$> rows)). cbv beta iota.
    change (ev r :: (ev <$> rows)) with (ev <$> r :: rows).
    eapply swp_mono; [apply announce_rows; [apply N1|congruence|congruence]|].
    intros h o' s' (-> & Hl & N'). split; [done|]. split; [done|].
    rewrite Hd1 in N'. by eapply now_at_trans.
Qed.

End loop.

Context (config : IndexingAgreementConfig).

Lemma accepted_healthy o s :
  healthy s →
  swp sweep_pending_accepted_events (λ h o' s',
    let rows := due KindAccepted (snow s) (sdb s) in
    let ps := (λ r, (row_emission config (sdb s) KindAccepted r, true)) <$> rows in
    h = health_of ps None ∧ ob_log o' = ob_log o ++ announced ps None ∧
    now_at s (stamp_db KindAccepted (snow s) (ag_id <$> rows) (sdb s)) s') o s.
Proof using Hconfirms.
  intros Hh. eapply (sweep_healthy KindAccepted row_accepted _
    (row_emission config (sdb s) KindAccepted) (λ _, True)); try done.
  apply accepted_query.
Qed.

Lemma terminated_healthy o s :
  healthy s →
  swp (sweep_pending_terminated_events config) (λ h o' s',
    let rows := due KindTerminated (snow s) (sdb s) in
    let ps := (λ r, (row_emission config (sdb s) KindTerminated r, true)) <$> rows in
    h = health_of ps None ∧ ob_log o' = ob_log o ++ announced ps None ∧
    now_at s (stamp_db KindTerminated (snow s) (ag_id <$> rows) (sdb s)) s') o s.
Proof using Hconfirms.
  intros Hh. eapply (sweep_healthy KindTerminated terminated_of_row _
    (row_emission config (sdb s) KindTerminated)
    (λ d, ∀ dep, accepted_on d dep = accepted_on (sdb s) dep)); try done.
  - intros id d Hd dep. by rewrite accepted_on_stamped.
  - intros r o1 s1 H1 Hj. apply swp_bind. unfold remaining_accepted_indexing_agreements.
    apply swp_bind, swp_pg. eapply wp_pg_healthy; [done|reflexivity|apply H1|]. intros s2 N2.
    do 2 apply swp_ret. split; [|done]. unfold row_emission. by rewrite <-Hj.
Qed.

Lemma expired_healthy o s :
  healthy s →
  swp sweep_pending_expired_events (λ h o' s',
    let rows := due KindExpired (snow s) (sdb s) in
    let ps := (λ r, (row_emission config (sdb s) KindExpired r, true)) <$> rows in
    h = health_of ps None ∧ ob_log o' = ob_log o ++ announced ps None ∧
    now_at s (stamp_db KindExpired (snow s) (ag_id <$> rows) (sdb s)) s') o s.
Proof using Hconfirms.
  intros Hh. eapply (sweep_healthy KindExpired expired_of_row _
    (row_emission config (sdb s) KindExpired) (λ _, True)); done.
Qed.

(** A round when everything answers: what it reports, sends and stamps. *)
Lemma healthy_round o s h o' s' :
  healthy s → run_event_sweeps config o s = ((h, o'), s') →
  h ≠ HealthFailed ∧
  ob_log o' = ob_log o ++
    announced ((λ e, (e, true)) <$> round_emissions config (snow s) (sdb s)) None ∧
  sdb s' = round_db (snow s) (sdb s).
Proof using Hconfirms.
  intros Hh Hrun. pattern h, o', s'. refine (swp_run _ _ _ _ _ _ _ _ Hrun). clear Hrun h o' s'.
  apply swp_bind. eapply swp_mono; [by apply accepted_healthy|].
  intros h1 o1 s1 (-> & L1 & N1). rewrite bool_decide_false by apply settled_not_failed.
  apply swp_bind. eapply swp_mono; [apply terminated_healthy, N1|].
  intros h2 o2 s2 (-> & L2 & N2). cbv zeta. rewrite merge_settled.
  rewrite bool_decide_false by apply settled_not_failed.
  apply swp_bind. eapply swp_mono; [apply expired_healthy, N2|].
  intros h3 o3 s3 (-> & L3 & N3). apply swp_ret. rewrite merge_settled, L3, L2, L1.
  pose proof (as_now _ _ (na_aside _ _ _ N1)) as T1. pose proof (as_now _ _ (na_aside _ _ _ N2)) as T2.
  assert (Hd : sdb s3 = round_db (snow s) (sdb s)).
  { rewrite (na_db _ _ _ N3), (na_db _ _ _ N2), T2, (na_db _ _ _ N1), T1.
    by rewrite !due_ids_stamped. }
  split; [apply settled_not_failed|]. split; [|done].
  rewrite <-!app_assoc, !announced_app. f_equal. f_equal.
  rewrite round_emissions_eq, !fmap_app, !(confirmed_each (row_emission _ _ _)).
  rewrite (na_db _ _ _ N2), T2, (na_db _ _ _ N1), T1. by rewrite !due_emissions_stamped.
Qed.

(** C11: When the emitter confirms, no connection is lost and nobody else
    writes, a round announces exactly what is due: the oldest thousand of each
    kind, each with the event its row calls for, accepts before ends before
    expiries; it stamps exactly those, so that at most what did not fit in a
    batch is still due. *)
Theorem healthy_round_announces o s h o' s' :
  healthy s → run_event_sweeps config o s = ((h, o'), s') →
  h ≠ HealthFailed ∧
  ob_log o' = ob_log o ++
    announced ((λ e, (e, true)) <$> round_emissions config (snow s) (sdb s)) None ∧
  sdb s' = round_db (snow s) (sdb s) ∧
  ∀ k, length (select (awaits k (snow s)) (agreements (sdb s'))) =
    (length (select (awaits k (snow s)) (agreements (sdb s))) - Z.to_nat SWEEP_BATCH_SIZE)%nat.
Proof using Hconfirms.
  intros Hh Hrun. destruct (healthy_round o s h o' s' Hh Hrun) as (Hf & Hl & Hd).
  split; [done|]. split; [done|]. split; [done|]. intros k. rewrite Hd. apply round_leaves, Hh.
Qed.

(** The round goes on when the query of the accepts fails: with only that
    connection lost, it announces every end and every expiry due and no accept, so
    an agreement accepted and ended in one go is announced ended first. *)
Theorem lost_query_lets_ends_lead o (s : SState) h o' (s' : SState) f :
  alone s → reg_inv (sdb s) → pg_faults (st_reg (ss_dispatch s)) = [f] → f ≠ Fine →
  run_event_sweeps config o s = ((h, o'), s') →
  ob_log o' = ob_log o ++ announced ((λ e, (e, true)) <$>
    (row_emission config (sdb s) KindTerminated <$> due KindTerminated (snow s) (sdb s)) ++
    (row_emission config (sdb s) KindExpired <$> due KindExpired (snow s) (sdb s))) None ∧
  (∀ id r, srow s id = Some r → ∃ r', srow s' id = Some r' ∧
     ag_accepted_event_emitted_at r' = ag_accepted_event_emitted_at r).
Proof using Hconfirms.
  intros Ha Hi Hf Hne Hrun. pattern h, o', s'. refine (swp_run _ _ _ _ _ _ _ _ Hrun).
  clear Hrun h o' s'. apply swp_bind, swp_bind, swp_pg.
  assert (Hlost : ∀ (Q : result Error (list PendingAcceptedEvent) → SState → Prop),
    (∀ s', now_at s (sdb s) s' → Q (Err (DbError ConnectionLost)) s') →
    wp (pg (λ _, get_agreements_pending_accepted_emission SWEEP_BATCH_SIZE)) Q s).
  { intros Q HQ. apply wp_pg_alone; [done|].
    unfold wp, statement, on_dispatch, registry, pg_call. rewrite accepted_query, Hf.
    destruct f; [done|..]; apply HQ; (split; [by split|by split|done]). }
  apply Hlost. intros s1 N1. apply swp_ret. rewrite bool_decide_false by done. apply swp_bind.
  eapply swp_mono; [apply terminated_healthy, N1|].
  intros h2 o2 s2 (-> & L2 & N2). cbv zeta. rewrite merge_idle.
  rewrite bool_decide_false by apply settled_not_failed.
  apply swp_bind. eapply swp_mono; [apply expired_healthy, N2|].
  intros h3 o3 s3 (-> & L3 & N3). apply swp_ret.
  pose proof (as_now _ _ (na_aside _ _ _ N1)) as T1. pose proof (as_now _ _ (na_aside _ _ _ N2)) as T2.
  rewrite L3, L2, <-app_assoc, announced_app, !(confirmed_each (row_emission _ _ _)), <-fmap_app.
  rewrite (na_db _ _ _ N2), T2, T1, (na_db _ _ _ N1), due_emissions_stamped by done.
  split; [done|]. intros id r Hr. unfold srow in *.
  rewrite (na_db _ _ _ N3), T2, (na_db _ _ _ N2), T1, (na_db _ _ _ N1). simpl.
  rewrite !lookup_fmap, Hr. simpl. eexists. split; [done|].
  rewrite (stamp_unseen ag_accepted_event_emitted_at KindExpired) by done.
  by rewrite (stamp_unseen ag_accepted_event_emitted_at KindTerminated).
Qed.

End healthy.

(** ** Accepts lead *)

Lemma swp_and {A} (m : Sweep A) (Q Q' : A → Outbox → SState → Prop) o s :
  swp m Q o s → swp m Q' o s → swp m (λ a o' s', Q a o' s' ∧ Q' a o' s') o s.
Proof. by split. Qed.

Definition sends_in (Φ : Emission → Prop) (l : list announce) : Prop :=
  ∀ e ok, Sent e ok ∈ l → Φ e.

Lemma announced_sends ps failed e ok :
  Sent e ok ∈ announced ps failed → (∃ b, (e, b) ∈ ps) ∨ failed = Some e.
Proof.
  unfold announced. rewrite elem_of_app, list_elem_of_bind. intros [([e' b] & He & Hp)|Hf].
  - left. exists b. unfold settled in He. set_unfold in He. naive_solver.
  - right. destruct failed; set_unfold in Hf; naive_solver.
Qed.

Lemma kind_sends k ps failed :
  of_kind k ps failed → sends_in (λ e, kind_of (em_event e) = k) (announced ps failed).
Proof.
  intros [Hp Hf] e ok [[b Hb]| ->]%announced_sends; [|done].
  by apply (proj1 (Forall_forall _ _) Hp) in Hb.
Qed.

Lemma announce_each_sends {P} (Φ : Emission → Prop) (emission : P → Sweep Emission) mark pending o s :
  (∀ p o s, p ∈ pending → swp (emission p) (λ e o' _, Φ e ∧ ob_log o' = ob_log o) o s) →
  swp (announce_each emission mark pending) (λ _ o' _,
    ∃ l, ob_log o' = ob_log o ++ l ∧ sends_in Φ l) o s.
Proof.
  revert o s. induction pending as [|p rest IH]; intros o s He; simpl.
  { apply swp_ret. exists []. rewrite app_nil_r. by split; [|intros e ok ?%not_elem_of_nil]. }
  apply swp_bind. eapply swp_mono; [apply He; by left|]. intros e o1 s1 [Hp L1].
  apply swp_bind, swp_send. intros k [] _.
  - apply swp_bind, swp_stamp. unfold wp. eapply swp_mono; [apply IH|].
    { intros q o2 s2 Hq. apply He. by right. }
    simpl. intros _ o' _ (l & -> & Hl). rewrite L1, <-!app_assoc. eexists. split; [done|].
    intros e' ok. rewrite !elem_of_app, !list_elem_of_singleton.
    intros [[= -> ->]|[[=]|He']]; [done|by eapply Hl].
  - apply swp_ret. exists [Sent e false]. simpl. rewrite L1. split; [done|].
    intros e' ok. by rewrite list_elem_of_singleton; intros [= -> ->].
Qed.

(** A stamp is written, or its connection is lost. *)
Lemma wp_mark k id (Q : result Error () → SState → Prop) s :
  alone s → reg_inv (sdb s) →
  (∀ r s' ids, alone s' → reg_inv (sdb s') → snow s' = snow s →
    sdb s' = stamp_db k (snow s) ids (sdb s) → Q r s') →
  wp (pg (λ now, mark_of k now id)) Q s.
Proof.
  intros Ha Hi HQ. apply wp_pg; [done|..].
  - intros r s' As. rewrite mark_run by done. intros [= <- Hd].
    apply (HQ _ _ [id]); [by eapply aside_alone|rewrite <-Hd; by apply stamp_inv|apply As|done].
  - intros s' As. rewrite mark_run by done. simpl. intros [Hd|Hd].
    + apply (HQ _ _ []); [by eapply aside_alone|by rewrite Hd|apply As|by rewrite stamp_db_nil].
    + apply (HQ _ _ [id]); [by eapply aside_alone|rewrite Hd; by apply stamp_inv|apply As|done].
Qed.

Lemma stamp_db_app k now ids ids' d :
  stamp_db k now ids' (stamp_db k now ids d) = stamp_db k now (ids ++ ids') d.
Proof.
  unfold stamp_db, set_agreements. simpl. f_equal. rewrite <-map_fmap_compose.
  apply map_fmap_ext. intros j r _. simpl. unfold stamp_row at 1. rewrite stamp_row_id.
  unfold stamp_row. repeat case_bool_decide; set_unfold; try done; try naive_solver; by destruct k.
Qed.

(** The loop under lost connections: what it leaves, and that it announced all
    when nothing was refused. *)
Lemma announce_each_faulty {P} k (f : P → Emission) pending o s :
  (∀ p, kind_of (em_event (f p)) = k) → alone s → reg_inv (sdb s) →
  swp (announce_each (λ p, mret (f p)) (mark_of k) pending) (λ h o' s',
    alone s' ∧ reg_inv (sdb s') ∧ snow s' = snow s ∧
    (∃ ids, sdb s' = stamp_db k (snow s) ids (sdb s)) ∧
    ∃ l, ob_log o' = ob_log o ++ l ∧
      (h = HealthSent → ∀ p, p ∈ pending → Sent (f p) true ∈ l)) o s.
Proof.
  intros Hk. revert o s. induction pending as [|p rest IH]; intros o s Ha Hi; simpl.
  { apply swp_ret. do 3 (split; [done|]). split; [exists []; by rewrite stamp_db_nil|].
    exists []. rewrite app_nil_r. split; [done|]. by intros _ p ?%not_elem_of_nil. }
  apply swp_bind, swp_ret, swp_bind, swp_send. intros em [] _.
  - apply swp_bind, swp_stamp. apply wp_mark; [done..|]. intros r s1 ids A1 I1 T1 D1.
    eapply swp_mono; [by apply IH|]. simpl. intros h o' s' (A' & I' & T' & [ids' D'] & l & L & Hl).
    split; [done|]. split; [done|]. split; [congruence|]. split.
    { exists (ids ++ ids'). by rewrite D', D1, T1, stamp_db_app. }
    rewrite L, <-!app_assoc. eexists. split; [done|]. intros Hh q Hq.
    apply elem_of_cons in Hq as [->|Hq]; rewrite !elem_of_app; [left; by left|].
    right. right. by apply Hl.
  - apply swp_ret. do 3 (split; [done|]). split; [exists []; by rewrite stamp_db_nil|].
    by eexists.
Qed.

(** The first connection is not lost. *)
Definition answers (s : SState) : Prop :=
  hd Fine (pg_faults (st_reg (ss_dispatch s))) = Fine.

Lemma wp_pg_answers {A} (m : Z → DbM A) x (Q : result Error A → SState → Prop) s :
  alone s → answers s → m (snow s) (sdb s) = (Ok x, sdb s) →
  (∀ s', aside s s' → sdb s' = sdb s → Q (Ok x) s') → wp (pg m) Q s.
Proof.
  intros Ha Hf Hm HQ. apply wp_pg_alone; [done|].
  unfold wp, statement, on_dispatch, registry, pg_call. unfold snow, sdb in Hm. rewrite Hm.
  unfold answers in Hf.
  destruct (pg_faults (st_reg (ss_dispatch s))) as [|[] fs]; try done; apply HQ; by try split.
Qed.

Lemma accepted_faulty o s :
  alone s → answers s → reg_inv (sdb s) →
  swp sweep_pending_accepted_events (λ h o' s',
    alone s' ∧ reg_inv (sdb s') ∧ snow s' = snow s ∧
    (∃ ids, sdb s' = stamp_db KindAccepted (snow s) ids (sdb s)) ∧
    ∃ l, ob_log o' = ob_log o ++ l ∧ (h ≠ HealthFailed → ∀ r,
      r ∈ due KindAccepted (snow s) (sdb s) → Sent (accepted_emission (row_accepted r)) true ∈ l)) o s.
Proof.
  intros Ha Hf Hi. apply swp_bind, swp_pg.
  eapply wp_pg_answers; [done|done|apply accepted_query|]. intros s1 As D1.
  destruct (due KindAccepted 0 (sdb s)) as [|r rows] eqn:Hdue.
  - apply swp_ret. split; [by eapply aside_alone|]. split; [by rewrite D1|].
    split; [apply As|]. split; [exists []; by rewrite stamp_db_nil|]. exists []. rewrite app_nil_r. split; [done|].
    intros _ r Hr. change (r ∈ due KindAccepted 0 (sdb s)) in Hr. rewrite Hdue in Hr.
    by apply not_elem_of_nil in Hr.
  - change (row_accepted <$> r :: rows) with (row_accepted r :: (row_accepted <$> rows)).
    cbv beta iota. change (row_accepted r :: (row_accepted <$> rows)) with (row_accepted <$> r :: rows).
    eapply swp_mono; [apply swp_and;
      [apply (announce_each_faulty KindAccepted accepted_emission); [done|by eapply aside_alone|by rewrite D1]|
       apply (announce_each_shape KindAccepted); intros; by apply (swp_build KindAccepted)]|].
    intros h o' s' ((A' & I' & T' & Hids & l & L & Hl) & ps & failed & _ & _ & _ & Hh).
    rewrite D1, (as_now _ _ As) in Hids. rewrite (as_now _ _ As) in T'. do 4 (split; [done|]).
    exists l. split; [done|]. intros Hnf q Hq. change (q ∈ due KindAccepted 0 (sdb s)) in Hq.
    rewrite Hdue in Hq. apply Hl; [by destruct Hh as [[? _]|[? _]]|by apply list_elem_of_fmap_2].
Qed.

(** What the sweep of ends sends is about rows that await one. *)
Lemma terminated_rows config o s :
  alone s →
  swp (sweep_pending_terminated_events config) (λ _ o' _, ∃ l, ob_log o' = ob_log o ++ l ∧
    sends_in (λ e, ∃ r, r ∈ due KindTerminated (snow s) (sdb s) ∧
      event_agreement (em_event e) = ag_id r) l) o s.
Proof.
  intros Ha. apply swp_bind, swp_pg, wp_pg; [done|..].
  - intros r s1 As Hr. injection Hr as <- _.
    change (take _ _) with (due KindTerminated (snow s) (sdb s)).
    destruct (due KindTerminated (snow s) (sdb s)) as [|r rows].
    { apply swp_ret. exists []. rewrite app_nil_r. split; [done|]. by intros e ok ?%not_elem_of_nil. }
    apply announce_each_sends. intros p o1 s2 Hp.
    apply list_elem_of_fmap in Hp as (r' & -> & Hr'). apply swp_bind.
    unfold remaining_accepted_indexing_agreements. apply swp_bind, swp_pg_any. intros n s3.
    do 2 apply swp_ret. split; [|done]. by exists r'.
  - intros s1 As _. apply swp_ret. exists []. rewrite app_nil_r. split; [done|].
    by intros e ok ?%not_elem_of_nil.
Qed.

(** A row that awaits an end was accepted, and announced so or due to be. *)
Lemma ended_was_accepted now ids d r :
  reg_inv d → (length (select awaits_accepted (agreements d)) ≤ Z.to_nat SWEEP_BATCH_SIZE)%nat →
  r ∈ due KindTerminated now (stamp_db KindAccepted now ids d) →
  ∃ r0, agreements d !! ag_id r = Some r0 ∧ ag_id r0 = ag_id r ∧
    (ag_accepted_event_emitted_at r0 ≠ None ∨ r0 ∈ due KindAccepted now d).
Proof.
  intros Hi Hn. rewrite due_stamped by done. intros (r0 & -> & Hr)%list_elem_of_fmap.
  rewrite stamp_row_id. apply elem_of_take in Hr as (i & Hr & _).
  apply list_elem_of_lookup_2, elem_of_order_by, elem_of_select in Hr as (k & Hk & Hp).
  rewrite (inv_key _ Hi _ _ Hk). exists r0. split; [done|]. split; [by apply (inv_key _ Hi)|].
  destruct (ag_accepted_event_emitted_at r0) eqn:Hm; [by left|right].
  unfold due. rewrite take_ge by by rewrite order_by_perm. apply elem_of_order_by, elem_of_select.
  exists k. split; [done|]. simpl in *. unfold awaits_terminated in Hp. unfold awaits_accepted.
  rewrite Hm. by destruct (ag_accepted_at r0), (status_in _ r0).
Qed.

Lemma split_after {A} (l1 l2 b a : list A) x :
  l1 ++ l2 = b ++ x :: a → x ∉ l1 → ∃ b', b = l1 ++ b' ∧ l2 = b' ++ x :: a.
Proof.
  revert b. induction l1 as [|y l1 IH]; intros b; simpl; [by eauto|].
  destruct b as [|z b]; intros [= -> H] Hx; [set_solver|].
  apply IH in H as (b' & -> & ->); [|set_solver]. eauto.
Qed.

(** The log of a round whose accepts were all announced. *)
Lemma ended_follows now ids d l1 l2 l3 before e ok after :
  reg_inv d → (length (select awaits_accepted (agreements d)) ≤ Z.to_nat SWEEP_BATCH_SIZE)%nat →
  (∀ r, r ∈ due KindAccepted now d → Sent (accepted_emission (row_accepted r)) true ∈ l1) →
  sends_in (λ e, kind_of (em_event e) = KindAccepted) l1 →
  sends_in (λ e, ∃ r, r ∈ due KindTerminated now (stamp_db KindAccepted now ids d) ∧
      event_agreement (em_event e) = ag_id r) l2 →
  sends_in (λ e, kind_of (em_event e) = KindExpired) l3 →
  l1 ++ l2 ++ l3 = before ++ Sent e ok :: after → kind_of (em_event e) = KindTerminated →
  (∃ r, agreements d !! event_agreement (em_event e) = Some r ∧
    ag_accepted_event_emitted_at r ≠ None) ∨
  (∃ e0, Sent e0 true ∈ before ∧ kind_of (em_event e0) = KindAccepted ∧
    event_agreement (em_event e0) = event_agreement (em_event e)).
Proof.
  intros Hi Hn Hall H1 H2 H3 Heq He. apply split_after in Heq as (b & -> & Heq).
  2:{ intros Hin. apply H1 in Hin. congruence. }
  assert (Hin : Sent e ok ∈ l2 ++ l3) by (rewrite Heq; set_solver).
  apply elem_of_app in Hin as [Hin|Hin]; [|apply H3 in Hin; congruence].
  apply H2 in Hin as (r & Hr & ->).
  destruct (ended_was_accepted _ _ _ _ Hi Hn Hr) as (r0 & Hr0 & Hid & [Hm|Hdue]); [by left; eauto|].
  right. exists (accepted_emission (row_accepted r0)). split; [|done].
  apply elem_of_app. left. by apply Hall.
Qed.

(** C10: An agreement is announced ended only after it was announced accepted,
    here or before, provided the query of the accepts answered and fitted in a
    batch and nobody else writes meanwhile; every other connection may be lost
    and the emitter may refuse anything. *)
Theorem accepted_leads config o s h o' s' before e ok after :
  alone s → answers s → reg_inv (sdb s) →
  (length (select awaits_accepted (agreements (sdb s))) ≤ Z.to_nat SWEEP_BATCH_SIZE)%nat →
  run_event_sweeps config o s = ((h, o'), s') →
  ob_log o' = ob_log o ++ before ++ Sent e ok :: after →
  kind_of (em_event e) = KindTerminated →
  (∃ r, srow s (event_agreement (em_event e)) = Some r ∧
    ag_accepted_event_emitted_at r ≠ None) ∨
  (∃ e0, Sent e0 true ∈ before ∧ kind_of (em_event e0) = KindAccepted ∧
    event_agreement (em_event e0) = event_agreement (em_event e)).
Proof.
  intros Ha Hf Hi Hn Hrun. revert before e ok after. pattern h, o', s'.
  refine (swp_run _ _ _ _ _ _ _ _ Hrun). clear Hrun h o' s'.
  apply swp_bind. eapply swp_mono; [apply swp_and; [by apply accepted_faulty|apply accepted_shape]|].
  intros h1 o1 s1 ((A1 & I1 & T1 & [ids D1] & l1 & L1 & Hl1) & ps & failed & L1' & Hk1 & ->).
  apply kind_sends in Hk1. rewrite L1 in L1'. apply (inj _) in L1'. rewrite <-L1' in Hk1.
  case_bool_decide as Hh.
  { apply swp_ret. intros b e ok a Heq He. rewrite L1 in Heq. apply (inj _) in Heq as ->.
    assert (Hin : Sent e ok ∈ b ++ Sent e ok :: a) by set_solver. apply Hk1 in Hin. congruence. }
  specialize (Hl1 Hh). apply swp_bind.
  eapply swp_mono; [by apply (terminated_rows config o1 s1)|]. intros h2 o2 s2 (l2 & L2 & Hl2).
  rewrite D1, T1 in Hl2. cbv zeta. case_bool_decide as Hh2.
  { apply swp_ret. intros b e ok a Heq He. rewrite L2, L1, <-app_assoc in Heq.
    apply (inj _) in Heq. eapply (ended_follows _ _ _ l1 l2 []); rewrite ?app_nil_r; try done.
    by intros ?? ?%not_elem_of_nil. }
  apply swp_bind. eapply swp_mono; [apply expired_shape|].
  intros h3 o3 s3 (ps3 & f3 & L3 & Hk3 & _). apply kind_sends in Hk3. apply swp_ret.
  intros b e ok a Heq He. rewrite L3, L2, L1, <-!app_assoc in Heq. apply (inj _) in Heq.
  by eapply ended_follows.
Qed.

End sweeps.

(** ** The cooldown *)

(** The cooldown over a poll at this time whose round, if it runs, reports this. *)
Definition cooldown_poll (c : BrokerCooldown) (p : Z * SweepHealth) : BrokerCooldown :=
  if is_paused p.1 c then c else (cooldown_record p.2 p.1 c).2.

(** The cooldown after [n] refused rounds, the last of them at [at_]. *)
Definition cooldown_after (base ceiling : Z) (n : nat) (at_ : Z) : BrokerCooldown :=
  match n with
  | O => cooldown_new base ceiling
  | Datatypes.S m => mkCooldown base ceiling (Some at_) (Z.min (base * 2 ^ Z.of_nat m) ceiling)
  end.

Lemma cooldown_record_after base ceiling n at_ health now :
  0 ≤ base ≤ ceiling → ceiling ≤ duration_max →
  (cooldown_record health now (cooldown_after base ceiling n at_)).2 =
  match health with
  | HealthSent => cooldown_new base ceiling
  | HealthFailed => cooldown_after base ceiling (Datatypes.S n) now
  | HealthIdle => cooldown_after base ceiling n at_
  end.
Proof.
  intros Hb Hc. destruct health; [by destruct n| |by destruct n].
  destruct n as [|n]; simpl; f_equal; [lia|]. unfold dur_mul.
  replace (Z.of_nat (Datatypes.S n)) with (Z.of_nat n + 1) by lia. rewrite Z.pow_add_r by lia.
  change (2 ^ 1) with 2. rewrite Z.mul_assoc. lia.
Qed.

(** However the rounds go, the pause is the base doubled once per refused round
    since the last send and at most the ceiling, so that a broker that is down is
    tried again within the ceiling; and it pauses only on a refused round. *)
Theorem cooldown_backs_off base ceiling polls :
  0 ≤ base ≤ ceiling → ceiling ≤ duration_max →
  ∃ n at_, foldl cooldown_poll (cooldown_new base ceiling) polls = cooldown_after base ceiling n at_ ∧
    ((0 < n)%nat → (at_, HealthFailed) ∈ polls) ∧
    ∀ now, is_paused now (cooldown_after base ceiling n at_) = true →
      (0 < n)%nat ∧ now < at_ + ceiling.
Proof.
  intros Hb Hc. induction polls as [|[now health] polls IH] using rev_ind.
  { exists O, 0. split; [done|]. split; [lia|]. done. }
  destruct IH as (n & at_ & IH & Hin & _). rewrite foldl_app, IH. simpl. unfold cooldown_poll. simpl.
  assert (Hp : ∀ n at_ now, is_paused now (cooldown_after base ceiling n at_) = true →
    (0 < n)%nat ∧ now < at_ + ceiling).
  { intros [|m] a t; [done|]. unfold is_paused, since. simpl. intros H%Z.ltb_lt. split; lia. }
  assert (Hin' : (0 < n)%nat → (at_, HealthFailed) ∈ polls ++ [(now, health)]) by set_solver.
  destruct (is_paused now _); [exists n, at_; auto|].
  rewrite cooldown_record_after by done. destruct health.
  - exists O, 0. split; [done|]. split; [lia|]. apply (Hp 0%nat).
  - exists (Datatypes.S n), now. split; [done|]. split; [set_solver|apply Hp].
  - exists n, at_. auto.
Qed.

(** ** Scripted rounds *)

(** An emitter that confirms everything. *)
#[export] Instance ConfirmingEmitter : DurableEmitter () := λ _ k, (true, k).

Lemma demo_confirms e (k : ()) : (emit_durable e k).1 = true.
Proof. reflexivity. Defined.

Definition demo_sweep_config : IndexingAgreementConfig := mkConfig 9 "0xmanager".

(** Agreement 11 was accepted and then cancelled in one snapshot; 12 expired. *)
Definition demo_ended_ops : list op :=
  demo_start ++ [ReconcileBatch 60 [mkItem 11 false (Some ByIndexer)
                   (mkAudit None None (Some 1900000050) (Some "0xi"%string) (Some "0xc"%string))];
                 AcceptedAudit 11 1900000020 "0xa"%string].
Definition demo_announceable : Db := run_ops demo_ended_ops empty_db.

Definition demo_round (faults : list fault) : SState Script (list Message) :=
  mkSState (mkState (mkPg demo_announceable 100 faults) (mkScript [] []) []) [] [] [].

Definition demo_outbox : Outbox () := mkOutbox tt [].

Lemma demo_ended_inv : reg_inv demo_announceable.
Proof. apply run_ops_inv. unfold demo_ended_ops, demo_start. simpl. by repeat constructor. Defined.

Definition demo_swept (faults : list fault)
    : SweepHealth * Outbox () * SState Script (list Message) :=
  run_event_sweeps demo_sweep_config demo_outbox (demo_round faults).

Lemma demo_swept_eq faults :
  run_event_sweeps demo_sweep_config demo_outbox (demo_round faults) =
  (((demo_swept faults).1.1, (demo_swept faults).1.2), (demo_swept faults).2).
Proof. by rewrite <- !surjective_pairing. Defined.

Lemma stamps_follow_confirmations_witness :
  ∃ accepted terminated expired failed,
    ob_log (demo_swept []).1.2 = announced (accepted ++ terminated ++ expired) failed ∧
    length (ob_log (demo_swept []).1.2) = 6%nat.
Proof.
  destruct (stamps_follow_confirmations _ _ _ _ _ _ (demo_swept_eq []))
    as (a & t & x & failed & L & _). exists a, t, x, failed. split; [exact L|].
  vm_compute. reflexivity.
Defined.

Lemma demo_healthy : healthy (demo_round []).
Proof. split; [done|done|]. apply demo_ended_inv. Defined.

Lemma healthy_round_announces_witness :
  ob_log (demo_swept []).1.2 =
    announced ((λ e, (e, true)) <$> round_emissions demo_sweep_config 100 demo_announceable) None ∧
  length (select (awaits KindTerminated 100) (agreements demo_announceable)) = 1%nat ∧
  length (select (awaits KindTerminated 100) (agreements (sdb (demo_swept []).2))) = 0%nat.
Proof.
  destruct (healthy_round_announces demo_confirms demo_sweep_config _ _ _ _ _ demo_healthy
    (demo_swept_eq [])) as (_ & L & _ & Hk).
  change (sdb (demo_round [])) with demo_announceable in L, Hk.
  change (snow (demo_round [])) with 100 in L, Hk.
  change (ob_log demo_outbox) with (@nil announce) in L. rewrite app_nil_l in L.
  split; [exact L|]. split; [vm_compute; reflexivity|].
  rewrite (Hk KindTerminated). vm_compute. reflexivity.
Defined.

(** The connection of the stamp of the accept is lost. *)
Lemma accepted_leads_witness :
  ∃ e0, kind_of (em_event e0) = KindAccepted ∧ event_agreement (em_event e0) = 11%N.
Proof.
  assert (L : ∃ e before ok after,
    ob_log (demo_swept [Fine; LostBefore]).1.2 = before ++ Sent e ok :: after ∧
    kind_of (em_event e) = KindTerminated ∧ event_agreement (em_event e) = 11%N).
  { exists (mkEmission 7 42161 (EventTerminated 11 31 1900000050 "0xi" "0xc" 0)),
      (take 2 (ob_log (demo_swept [Fine; LostBefore]).1.2)), true,
      (drop 3 (ob_log (demo_swept [Fine; LostBefore]).1.2)).
    split; [vm_compute; reflexivity|by split]. }
  destruct L as (e & before & ok & after & L & He & Hid).
  destruct (accepted_leads demo_sweep_config demo_outbox (demo_round [Fine; LostBefore]) _ _ _
    before e ok after eq_refl eq_refl demo_ended_inv ltac:(vm_compute; lia)
    (demo_swept_eq [Fine; LostBefore]) L He) as [(r & Hr & Hm)|(e0 & _ & Hk & Hi)].
  - rewrite Hid in Hr. vm_compute in Hr. injection Hr as <-. by destruct Hm.
  - exists e0. split; [exact Hk|congruence].
Defined.

(** Agreement 11 is announced ended and was never announced accepted. *)
Lemma lost_query_lets_ends_lead_witness :
  ob_log (demo_swept [LostBefore]).1.2 =
    announced [(mkEmission 7 42161 (EventTerminated 11 31 1900000050 "0xi" "0xc" 0), true);
               (mkEmission 7 42161 (EventRequestExpired 12 32 10 1900000000), true)] None ∧
  ∃ r', srow (demo_swept [LostBefore]).2 11 = Some r' ∧ ag_accepted_event_emitted_at r' = None.
Proof.
  assert (Hr : ∃ r, srow (demo_round [LostBefore]) 11 = Some r ∧ ag_accepted_event_emitted_at r = None)
    by (eexists; split; vm_compute; reflexivity).
  destruct Hr as (r & Hr & Hm).
  destruct (lost_query_lets_ends_lead demo_confirms demo_sweep_config demo_outbox
    (demo_round [LostBefore]) _ _ _ LostBefore eq_refl demo_ended_inv eq_refl ltac:(done)
    (demo_swept_eq [LostBefore])) as [L H].
  split; [rewrite L; vm_compute; reflexivity|]. destruct (H 11%N r Hr) as (r' & Hr' & Hm').
  exists r'. split; [exact Hr'|congruence].
Defined.

Lemma cooldown_backs_off_example :
  ∃ n at_, foldl cooldown_poll (cooldown_new 5 300)
      [(10, HealthFailed); (12, HealthFailed); (20, HealthFailed)] = cooldown_after 5 300 n at_ ∧
    n = 2%nat ∧ at_ = 20.
Proof. exists 2%nat, 20. vm_compute. done. Qed.

End EventSweepsProps.
