(* ===== verification/PollLoop.v ===== *)
(** * The poll loop of the chain listener
    (bin/dipper-service/src/network/service/chain_listener.rs: [new])

    A turn of the loop, once its timer, a notification or nothing woke it: choose
    the interval, drain the changed agreements, announce what is due unless the
    broker is paused, and every so often run the crash-recovery sweeps.  A drain
    whose fetch failed ends the turn.  The wait between turns, the log lines and
    the counters only they read are left out. *)

From S2P Require Import Prelude Schema Registry RegistryInv RegistryRuns RegistryOps RegistryQueries.
From S2P Require Import JobQueue Worker CancelDispatch CancelDispatchProps ChainEvents ChainListener.
From S2P Require Import ChainEventsProps ChainListenerProps ChainReconcile Services RowOps EventSweeps EventSweepsProps.
Import Schema Registry RegistryInv RegistryRuns RegistryOps RegistryQueries.
Import JobQueue Worker CancelDispatch CancelDispatchProps ChainEvents ChainListener.
Import ChainEventsProps ChainListenerProps ChainReconcile Services RowOps EventSweeps EventSweepsProps.
Local Open Scope Z_scope.

Module PollLoop.

Definition SLOW_POLL_INTERVAL : Z := from_secs 300.
Definition FAILURE_BACKOFF_BASE : Z := from_secs 5.
Definition SWEEP_POLLS : Z := 60.

(** How long a turn sleeps first when the fetches before it failed. *)
Definition failure_backoff (consecutive_failures : Z) : option Z :=
  if 0 <? consecutive_failures
  then Some (dur_mul FAILURE_BACKOFF_BASE
               (Z.min (2 ^ Z.min consecutive_failures 6) u32_max))
  else None.

(** The clocks a turn reads: the drain's, the monotonic instant of the event
    sweeps and the seconds of the crash-recovery sweeps. *)
Record TurnClock : Type := mkTurnClock {
  tc_pages : nat → Z * Z;
  tc_events : Z;
  tc_secs : Z }.

Inductive Turn : Type := TurnFailed | TurnStopped | TurnDone.

Section loop.
Context {C E W K : Type} `{!ChainClient C} `{!ChainEventSource E} `{!LiveCheckQueue W}.
Context `{!DurableEmitter K}.
Context (tx_string address_string : N → string) (config : IndexingAgreementConfig).
Context (cfg : ListenerConfig) (fast_interval : Z).
Notation LState := (LState PgState C E W).

Record Loop : Type := mkLoop {
  lo_listener : LState;
  lo_outbox : Outbox K;
  lo_cooldown : BrokerCooldown;
  lo_polls_since_sweep : Z;
  lo_fast : bool;
  lo_slept : list Z }.

(** The service's state when the loop starts. *)
Definition loop_start (l : LState) (o : Outbox K) : Loop :=
  mkLoop l o (cooldown_new fast_interval SLOW_POLL_INTERVAL) SWEEP_POLLS true [].

(** The event sweeps on the listener's registry. *)
Definition with_registry {A} (m : Sweep C () K A) (l : LState) (o : Outbox K)
    : A * Outbox K * LState :=
  let '(r, s) := m o (mkSState (ls_dispatch l) tt [] []) in
  (r, set_dispatch (ss_dispatch s) l).

Definition want_fast (l : LState) : bool * LState :=
  let '(r, l') := reg (pg_call (λ _, exists_active_agreements)) l in
  (match r with Ok b => b | Err _ => false end, l').

Definition announce_events (now : Z) (p : Loop) : Loop :=
  let '(c, o, l) := with_registry (poll_events config now (lo_cooldown p))
                      (lo_listener p) (lo_outbox p) in
  mkLoop l o c (lo_polls_since_sweep p) (lo_fast p) (lo_slept p).

Definition recovery_sweeps (now_secs : Z) (p : Loop) : Loop :=
  let n := lo_polls_since_sweep p + 1 in
  if SWEEP_POLLS <=? n then
    let l := (_ ← sweep_executable_pending_cancellations tx_string config now_secs;
              sweep_orphan_canceled_agreements tx_string config now_secs) (lo_listener p) in
    mkLoop l.2 (lo_outbox p) (lo_cooldown p) 0 (lo_fast p) (lo_slept p)
  else mkLoop (lo_listener p) (lo_outbox p) (lo_cooldown p) n (lo_fast p) (lo_slept p).

Definition turn (t : TurnClock) (p : Loop) : Turn * Loop :=
  let '(fast, l) := want_fast (lo_listener p) in
  let slept := lo_slept p ++ default [] ((λ d, [d]) <$> failure_backoff (ls_failures l)) in
  let '(outcome, l) := drain_once tx_string address_string config cfg (tc_pages t) l in
  let p := mkLoop l (lo_outbox p) (lo_cooldown p) (lo_polls_since_sweep p) fast slept in
  match outcome with
  | None => (TurnFailed, p)
  | Some out =>
      if do_stopped out then (TurnStopped, p)
      else (TurnDone, recovery_sweeps (tc_secs t) (announce_events (tc_events t) p))
  end.

(** Turns until a stop; what each came to. *)
Fixpoint turns (ts : list TurnClock) (p : Loop) : list Turn * Loop :=
  match ts with
  | [] => ([], p)
  | t :: ts =>
      let '(r, p') := turn t p in
      match r with
      | TurnStopped => ([r], p')
      | _ => let '(rs, p'') := turns ts p' in (r :: rs, p'')
      end
  end.

(** ** What the turns guarantee *)

Lemma want_fast_progress l : progress (want_fast l).2 = progress l.
Proof.
  unfold want_fast. pose proof (progress_of_own _ (own_reg (E := E) (W := W)
    (pg_call (λ _, exists_active_agreements))) l) as H.
  destruct (reg _ l) as [r l']. exact H.
Qed.

Lemma events_progress now p :
  progress (lo_listener (announce_events now p)) = progress (lo_listener p).
Proof.
  unfold announce_events, with_registry. by destruct (poll_events _ _ _ _ _) as [[]].
Qed.

Lemma recovery_progress now p :
  progress (lo_listener (recovery_sweeps now p)) = progress (lo_listener p).
Proof.
  unfold recovery_sweeps. case_match; [|done]. simpl. apply (progress_of_own _).
  apply frames_bind; [|intros _]; (apply frames_bind; [apply own_reg|]); intros [xs|]; try apply frames_ret.
  - induction xs as [|x xs IH]; simpl; [apply frames_ret|].
    apply frames_bind; [|done]. unfold execute_pending_cancellations.
    apply own_try_reg; [apply own_reg|]. intros pending. apply own_and_then; [apply own_cancel_each|].
    intros n. case_match; apply frames_ret.
  - induction xs as [|x xs IH]; simpl; [apply frames_ret|].
    apply frames_bind; [apply own_dispatch|done].
Qed.

(** The clocks of a turn, with the tolerance, stay within [cap]. *)
Definition within (cap : Z) (t : TurnClock) : Prop :=
  ∀ n, 0 ≤ sat_add_u64 (tc_pages t n).2 (lc_chain_ts_drift_tolerance_secs cfg) ≤ cap.

Lemma turn_moves cap t p :
  within cap t → moves cfg cap (lo_listener p) (lo_listener (turn t p).2).
Proof.
  intros Ht. unfold turn. pose proof (want_fast_progress (lo_listener p)) as Hw.
  destruct (want_fast (lo_listener p)) as [fast l] eqn:Ew. simpl in Hw.
  pose proof (drain_once_moves tx_string address_string config cfg cap (tc_pages t) l Ht) as Hd.
  destruct (drain_once _ _ _ _ _ l) as [out l1]. simpl in Hd.
  apply (moves_trans _ _ _ l); [specialize (Ht O); lia|by apply moves_still|].
  destruct out as [out|]; [|done]. destruct (do_stopped out); [done|].
  apply (moves_trans _ _ _ l1); [specialize (Ht O); lia|done|]. apply moves_still. simpl.
  by rewrite recovery_progress, events_progress.
Qed.

(** Over any run of turns, whatever the subgraph, the registry, the chain, the
    queue and the broker answer, the cursor and the chain clock never move back,
    and every cursor written was one the loop had reached. *)
Theorem turns_move_forward cap ts p :
  0 ≤ cap → Forall (within cap) ts →
  moves cfg cap (lo_listener p) (lo_listener (turns ts p).2).
Proof.
  intros Hcap Hts. revert p. induction Hts as [|t ts Ht _ IH]; intros p; simpl; [by apply moves_still|].
  pose proof (turn_moves cap t p Ht) as H1. destruct (turn t p) as [r p']. simpl in H1.
  specialize (IH p'). destruct (turns ts p') as [rs p''].
  destruct r; simpl in *; [|done|]; by eapply moves_trans.
Qed.

(** A turn announces what its drain brought in: when the drain ends well
    and leaves a registry that answers, the broker is not paused and the emitter
    confirms, the turn's announcements are exactly those due in the database the
    drain left, every agreement it just accepted or ended among them. *)
Theorem turn_announces_what_it_drained t p out l fast l1 o1 :
  (∀ e k, (emit_durable e k).1 = true) →
  want_fast (lo_listener p) = (fast, l) →
  drain_once tx_string address_string config cfg (tc_pages t) l = (Some out, l1) →
  do_stopped out = false → is_paused (tc_events t) (lo_cooldown p) = false →
  reg_inv (pg_db (st_reg (ls_dispatch l1))) → pg_faults (st_reg (ls_dispatch l1)) = [] →
  lo_outbox (turn t p).2 = o1 →
  ob_log o1 = ob_log (lo_outbox p) ++
    announced ((λ e, (e, true)) <$> round_emissions config (pg_now (st_reg (ls_dispatch l1)))
                 (pg_db (st_reg (ls_dispatch l1)))) None ∧
  is_paused (tc_events t) (lo_cooldown (turn t p).2) = false.
Proof.
  intros Hc Hw Hd Hs Hp Hi Hf <-. unfold turn. rewrite Hw, Hd, Hs. simpl.
  set (p1 := mkLoop _ _ _ _ _ _).
  assert (Hr : ∀ p, lo_outbox (recovery_sweeps (tc_secs t) p) = lo_outbox p ∧
    lo_cooldown (recovery_sweeps (tc_secs t) p) = lo_cooldown p).
  { intros q. unfold recovery_sweeps. by case_match. }
  destruct (Hr (announce_events (tc_events t) p1)) as [-> ->].
  set (s := mkSState (W := ()) (ls_dispatch l1) tt [] []).
  destruct (run_event_sweeps config (lo_outbox p) s) as [[h o'] s'] eqn:Hrun.
  assert (Hh : healthy s) by (split; done).
  destruct (healthy_round Hc config (lo_outbox p) s h o' s' Hh Hrun) as (Hn & Hl & _).
  assert (Ee : poll_events config (tc_events t) (lo_cooldown p) (lo_outbox p) s =
    ((cooldown_record h (tc_events t) (lo_cooldown p)).2, o', s')).
  { unfold poll_events. rewrite Hp. unfold mbind, Sweep_bind, mbind, S_bind. by rewrite Hrun. }
  unfold announce_events, with_registry. subst p1. cbn [lo_listener lo_outbox lo_cooldown].
  fold s. rewrite Ee. split; [exact Hl|]. simpl. unfold cooldown_record. by destruct h.
Qed.

End loop.

(** ** A scripted turn *)

(** Agreement 11 is offered; the subgraph shows it accepted. *)
Definition demo_loop : Loop :=
  loop_start (from_secs 5) (demo_listener demo_created [demo_snapshot 11 Accepted 120]) demo_outbox.
Definition demo_turn_clock : TurnClock := mkTurnClock demo_clock 10 2000.
Definition demo_turn : Turn * Loop :=
  turn (λ _, "0x63"%string) (λ _, "0x64"%string) demo_sweep_config demo_cfg demo_turn_clock demo_loop.

(** The listener after the drain of that turn, and what the drain wrote. *)
Definition demo_drained : option DrainOutcome * LState PgState Script (list AgreementStateSnapshot)
    (list (N * option ChainAccept)) :=
  drain_once (λ _, "0x63"%string) (λ _, "0x64"%string) demo_sweep_config demo_cfg demo_clock
    (want_fast (lo_listener demo_loop)).2.
Definition demo_drain_ops : list op :=
  [SetTarget 10 1 5 7 42161 2; Register 20 (demo_params 11 31);
   ReconcileBatch 100 [mkItem 11 true None
     (mkAudit (Some 1700) (Some "0xaa"%string) None None None)];
   ListenerState 42161 201 None (Some 2050)].

Lemma turn_announces_what_it_drained_witness :
  ob_log (lo_outbox demo_turn.2) =
  announced [(mkEmission 7 42161 (EventAccepted 11 31 1700 "0xaa" 2000000000 5), true)] None.
Proof.
  assert (Hi : reg_inv (pg_db (st_reg (ls_dispatch demo_drained.2)))).
  { replace (pg_db _) with (run_ops demo_drain_ops empty_db) by (vm_compute; reflexivity).
    apply run_ops_inv. unfold demo_drain_ops. by repeat constructor. }
  refine (eq_trans (proj1 (turn_announces_what_it_drained (λ _, "0x63"%string)
    (λ _, "0x64"%string) demo_sweep_config demo_cfg demo_turn_clock demo_loop
    (mkDrained 1 1 0 200 false) (want_fast (lo_listener demo_loop)).2 true demo_drained.2
    (lo_outbox demo_turn.2) demo_confirms _ _ _ _ Hi _ _)) _); vm_compute; reflexivity.
Defined.

End PollLoop.
