(* ===== verification/Producer.v ===== *)
(** * The event producer (dipper-producer)

    Lifecycle events go to a Kafka topic.  Durable events are sent at once and
    their outcome reported; diagnostic events wait in a bounded queue that a task
    of its own drains, best effort.  Records of one deployment and network share a
    key and so a partition.  The Kafka client is behind a class and nothing is
    assumed of it; TLS files and the connection are parameters.  An envelope's
    random id and its time of creation, which nobody reads, are left out, and so
    is its protobuf encoding, which cannot fail. *)

From stdpp Require Import pretty.
From Stdlib Require Import Ascii.
From S2P Require Import Prelude Schema Registry RegistryQueries JobQueue Worker CancelDispatch.
From S2P Require Import CancelDispatchProps ChainListener Services EventSweeps.
Import Schema Registry RegistryQueries JobQueue Worker CancelDispatch CancelDispatchProps.
Import ChainListener Services EventSweeps.
Local Open Scope Z_scope.

Module Producer.

(** ** The Kafka producer (kafka/producer.rs) *)

Record KafkaConfig : Type := mkKafkaConfig {
  kc_brokers : list string;
  kc_topic : string;
  kc_partitions : Z;
  kc_sasl_mechanism : option string;
  kc_sasl_username : option string;
  kc_sasl_password : option string;
  kc_tls_enabled : bool;
  kc_tls_ca_cert_path : option string }.

Definition default_kafka_topic : string := "dipper.subgraph.indexing.agreement.events".
Definition default_kafka_partitions : Z := 16.

Inductive KafkaError : Type :=
| KeConnection
| KePartitionClient
| KeSend
| KeTimeout
| InvalidPartitionCount
| UnsupportedSaslMechanism (mechanism : string)
| MissingSaslUsername
| MissingSaslPassword
| TlsCaCert.

Inductive SaslMechanism : Type := SaslPlain | ScramSha256 | ScramSha512.

(** [to_uppercase], on ASCII. *)
Definition upper (c : ascii) : ascii :=
  let n := Ascii.nat_of_ascii c in
  if ((97 <=? n) && (n <=? 122))%nat then Ascii.ascii_of_nat (n - 32) else c.

Fixpoint to_uppercase (s : string) : string :=
  match s with
  | EmptyString => EmptyString
  | String c s => String (upper c) (to_uppercase s)
  end.

Definition sasl_from_str (s : string) : result KafkaError SaslMechanism :=
  let u := to_uppercase s in
  if bool_decide (u = "PLAIN"%string) then Ok SaslPlain
  else if bool_decide (u = "SCRAM-SHA-256"%string) then Ok ScramSha256
  else if bool_decide (u = "SCRAM-SHA-512"%string) then Ok ScramSha512
  else Err (UnsupportedSaslMechanism s).

(** The mechanism with its credentials. *)
Definition build_sasl_config (mechanism : SaslMechanism) (config : KafkaConfig)
    : result KafkaError (SaslMechanism * string * string) :=
  match kc_sasl_username config, kc_sasl_password config with
  | None, _ => Err MissingSaslUsername
  | Some _, None => Err MissingSaslPassword
  | Some u, Some p => Ok (mechanism, u, p)
  end.

(** What the client is built with. *)
Record ClientOptions : Type := mkClientOptions {
  co_brokers : list string;
  co_sasl : option (SaslMechanism * string * string);
  co_tls : bool }.

Definition client_options (load_tls : option string → bool) (config : KafkaConfig)
    : result KafkaError ClientOptions :=
  if kc_partitions config =? 0 then Err InvalidPartitionCount
  else
    match
      match kc_sasl_mechanism config with
      | None => Ok None
      | Some s =>
          match sasl_from_str s with
          | Err e => Err e
          | Ok m => match build_sasl_config m config with
                    | Err e => Err e
                    | Ok sasl => Ok (Some sasl)
                    end
          end
      end with
    | Err e => Err e
    | Ok sasl =>
        if kc_tls_enabled config then
          if load_tls (kc_tls_ca_cert_path config)
          then Ok (mkClientOptions (kc_brokers config) sasl true)
          else Err TlsCaCert
        else Ok (mkClientOptions (kc_brokers config) sasl false)
    end.

Record KafkaProducer : Type := mkKafkaProducer {
  kp_partitions : Z;
  kp_partition_clients : list Z }.

(** The connection, and a client for each partition in turn. *)
Fixpoint open_partitions (open : Z → bool) (next : Z) (n : nat) : result KafkaError (list Z) :=
  match n with
  | O => Ok []
  | Datatypes.S n' =>
      if open next then
        match open_partitions open (next + 1) n' with
        | Ok clients => Ok (next :: clients)
        | Err e => Err e
        end
      else Err KePartitionClient
  end.

Definition kafka_new (load_tls : option string → bool) (connect : ClientOptions → bool)
    (open : Z → bool) (config : KafkaConfig) : result KafkaError KafkaProducer :=
  match client_options load_tls config with
  | Err e => Err e
  | Ok options =>
      if connect options then
        match open_partitions open 0 (Z.to_nat (kc_partitions config)) with
        | Ok clients => Ok (mkKafkaProducer (kc_partitions config) clients)
        | Err e => Err e
        end
      else Err KeConnection
  end.

(** FNV-1a on 32 bits *)
Definition FNV_OFFSET_BASIS : Z := 2166136261.
Definition FNV_PRIME : Z := 16777619.

Fixpoint fnv1a (hash : Z) (key : string) : Z :=
  match key with
  | EmptyString => hash
  | String c rest =>
      fnv1a ((Z.lxor hash (Z.of_nat (Ascii.nat_of_ascii c)) * FNV_PRIME) mod 4294967296) rest
  end.

(** [as i32] *)
Definition wrap_i32 (v : Z) : Z := if v <=? i32_max then v else v - 4294967296.

Definition partition_for_key (partitions : Z) (key : string) : Z :=
  wrap_i32 (fnv1a FNV_OFFSET_BASIS key mod partitions).

(** [partition as usize] *)
Definition as_usize (v : Z) : Z := v mod 18446744073709551616.

(** [partition_client.produce], with its timeout; [false] is an error. *)
Class Broker (B Payload : Type) : Type :=
  produce : Z → string → Payload → B → bool * B.

(** ** Events (events/subgraph_indexing_agreements_events_emitter.rs) *)

Inductive EventPayload : Type :=
| RequestReceivedPayload (agreements_requested : Z)
| ProposedPayload (candidates : list N) (request_expires_at : Z)
| NIndexersUnavailablePayload (agreements_requested candidates_returned : Z)
| DurablePayload (e : DurableEvent).

Definition event_type (p : EventPayload) : string :=
  match p with
  | RequestReceivedPayload _ => "subgraph.indexing.agreement.request.received"
  | ProposedPayload _ _ => "subgraph.indexing.agreement.proposed"
  | NIndexersUnavailablePayload _ _ => "subgraph.indexing.agreement.n_indexers_unavailable"
  | DurablePayload (EventAccepted _ _ _ _ _ _) => "subgraph.indexing.agreement.accepted"
  | DurablePayload (EventTerminated _ _ _ _ _ _) => "subgraph.indexing.agreement.terminated"
  | DurablePayload (EventRequestExpired _ _ _ _) => "subgraph.indexing.agreement.request.expired"
  end.

Definition caip2 (chain_id : Z) : string := "eip155:" +:+ pretty chain_id.

Record Envelope : Type := mkEnvelope {
  en_event_type : string;
  en_event_version : string;
  en_subgraph_deployment_qm_hash : string;
  en_the_graph_network : string;
  en_payload : EventPayload }.

(** A queued event with its routing. *)
Record QueuedEvent : Type := mkQueued {
  qe_deployment : N;
  qe_network : Z;
  qe_payload : EventPayload }.

Section emitter.
Context {B : Type} `{!Broker B Envelope}.
(** How a deployment's hash prints. *)
Context (qm_hash : N → string).

Definition partition_key (q : QueuedEvent) : string :=
  caip2 (qe_network q) +:+ "/" +:+ qm_hash (qe_deployment q).

Definition create_event_envelope (q : QueuedEvent) : Envelope :=
  mkEnvelope (event_type (qe_payload q)) "1.0" (qm_hash (qe_deployment q))
    (caip2 (qe_network q)) (qe_payload q).

(** A record as the client is handed it: the partition, the key and the event. *)
Definition record_of (partitions : Z) (q : QueuedEvent) : Z * string * Envelope :=
  (partition_for_key partitions (partition_key q), partition_key q, create_event_envelope q).

(** The broker and what it was handed, with its answers. *)
Record Wire : Type := mkWire {
  wi_broker : B;
  wi_records : list (Z * string * Envelope * bool) }.

(** [None]: indexing the partition clients panics. *)
Definition kafka_send (p : KafkaProducer) (q : QueuedEvent) (w : Wire) : option (bool * Wire) :=
  let '(partition, key, envelope) := record_of (kp_partitions p) q in
  match kp_partition_clients p !! Z.to_nat (as_usize partition) with
  | None => None
  | Some _ =>
      let '(ok, b) := produce partition key envelope (wi_broker w) in
      Some (ok, mkWire b (wi_records w ++ [(partition, key, envelope, ok)]))
  end.

(** Streaming is off, or on with a producer once one connected. *)
Record Emitter : Type := mkEmitter {
  em_streaming : option (option KafkaProducer);
  em_wire : Wire }.

Definition queued_of (e : Emission) : QueuedEvent :=
  mkQueued (em_deployment e) (em_network e) (DurablePayload (em_event e)).

(** [None]: the send panicked. *)
Definition send_durable (e : Emission) (m : Emitter) : option (bool * Emitter) :=
  match em_streaming m with
  | None => Some (true, m)
  | Some None => Some (false, m)
  | Some (Some p) =>
      '(ok, w) ← kafka_send p (queued_of e) (em_wire m);
      Some (ok, mkEmitter (em_streaming m) w)
  end.

(** The emitter behind the sweeps' interface; a panic, which a producer that
    [kafka_new] built does not have, would count as refused. *)
#[export] Instance KafkaEmitter : DurableEmitter Emitter := λ e m,
  match send_durable e m with Some r => r | None => (false, m) end.

(** ** Connecting *)

Definition MAX_BACKOFF_SECS : Z := 30.

(** The wait before the next attempt, in seconds, after [attempt] failed. *)
Definition connect_backoff (attempt : Z) : Z :=
  Z.min MAX_BACKOFF_SECS (Z.min (2 ^ Z.min attempt 5) u64_max).

Definition WARN_EVERY : Z := 5.
Definition warns (attempt : Z) : bool := (attempt =? 1) || (attempt mod WARN_EVERY =? 0).

End emitter.

(** ** The diagnostic queue

    The drain task takes an event from the queue, holds it until a producer is
    connected and sends it; on shutdown it flushes the queue, or drops it if it
    was still holding an event with no producer.  When it ends the queue closes.
    [dq_offered] is every event offered and [dq_sends] every event handed to the
    broker, in order. *)

Inductive DrainMode : Type :=
| Draining
| Flushing
| Dropping (dropped_now : Z)
| Exited
| Closed.

Record Diagnostics : Type := mkDiagnostics {
  dq_mode : DrainMode;
  dq_connected : bool;
  dq_queue : list QueuedEvent;
  dq_held : option QueuedEvent;
  dq_dropped : Z;
  dq_sends : list QueuedEvent;
  dq_offered : list QueuedEvent;
  dq_unread : list QueuedEvent }.

Definition diagnostics_start : Diagnostics := mkDiagnostics Draining false [] None 0 [] [] [].

Definition set_mode (m : DrainMode) (s : Diagnostics) : Diagnostics :=
  mkDiagnostics m (dq_connected s) (dq_queue s) (dq_held s) (dq_dropped s) (dq_sends s)
    (dq_offered s) (dq_unread s).

(** [fetch_add] *)
Definition count_dropped (n : Z) (s : Diagnostics) : Diagnostics :=
  mkDiagnostics (dq_mode s) (dq_connected s) (dq_queue s) (dq_held s) (as_u64 (dq_dropped s + n))
    (dq_sends s) (dq_offered s) (dq_unread s).

Definition set_waiting (queue : list QueuedEvent) (held : option QueuedEvent) (s : Diagnostics)
    : Diagnostics :=
  mkDiagnostics (dq_mode s) (dq_connected s) queue held (dq_dropped s) (dq_sends s)
    (dq_offered s) (dq_unread s).

(** [send_event]: the outcome is logged only. *)
Definition send_event (e : QueuedEvent) (s : Diagnostics) : Diagnostics :=
  mkDiagnostics (dq_mode s) (dq_connected s) (dq_queue s) (dq_held s) (dq_dropped s)
    (dq_sends s ++ [e]) (dq_offered s) (dq_unread s).

(** [drain_one]: no waiting for a connection. *)
Definition drain_one (e : QueuedEvent) (s : Diagnostics) : Diagnostics :=
  if dq_connected s then send_event e s else count_dropped 1 s.

Definition is_closed (s : Diagnostics) : bool :=
  match dq_mode s with Closed => true | _ => false end.

(** [try_send] on the bounded channel. *)
Definition enqueue (capacity : nat) (e : QueuedEvent) (s : Diagnostics) : Diagnostics :=
  let s := mkDiagnostics (dq_mode s) (dq_connected s) (dq_queue s) (dq_held s) (dq_dropped s)
             (dq_sends s) (dq_offered s ++ [e]) (dq_unread s) in
  if is_closed s || (capacity <=? length (dq_queue s))%nat
  then count_dropped 1 s
  else set_waiting (dq_queue s ++ [e]) (dq_held s) s.

(** The steps of the connect task, the callers and the drain task, as they may
    interleave. *)
Inductive drain_step (capacity : nat) (s : Diagnostics) : Diagnostics → Prop :=
| StepEnqueue e : drain_step capacity s (enqueue capacity e s)
| StepConnect :
    drain_step capacity s (mkDiagnostics (dq_mode s) true (dq_queue s) (dq_held s) (dq_dropped s)
                             (dq_sends s) (dq_offered s) (dq_unread s))
| StepRecv e q : dq_mode s = Draining → dq_held s = None → dq_queue s = e :: q →
    drain_step capacity s (set_waiting q (Some e) s)
| StepSend e : dq_mode s = Draining → dq_held s = Some e → dq_connected s = true →
    drain_step capacity s (send_event e (set_waiting (dq_queue s) None s))
| StepGiveUp e : dq_mode s = Draining → dq_held s = Some e → dq_connected s = false →
    drain_step capacity s (set_mode (Dropping 1) (set_waiting (dq_queue s) None s))
| StepDropOne e q n : dq_mode s = Dropping n → dq_queue s = e :: q →
    drain_step capacity s (set_mode (Dropping (n + 1)) (set_waiting q (dq_held s) s))
| StepDropped n : dq_mode s = Dropping n → dq_queue s = [] →
    drain_step capacity s (set_mode Exited (count_dropped n s))
| StepShutdown : dq_mode s = Draining → dq_held s = None →
    drain_step capacity s (set_mode Flushing s)
| StepFlush e q : dq_mode s = Flushing → dq_queue s = e :: q →
    drain_step capacity s (drain_one e (set_waiting q (dq_held s) s))
| StepFlushed : dq_mode s = Flushing → dq_queue s = [] →
    drain_step capacity s (set_mode Exited s)
| StepClose : dq_mode s = Exited →
    drain_step capacity s
      (mkDiagnostics Closed (dq_connected s) [] (dq_held s) (dq_dropped s) (dq_sends s)
         (dq_offered s) (dq_unread s ++ dq_queue s)).

End Producer.
