(* ===== verification/ProducerProps.v ===== *)
(** * What the event producer guarantees

    A producer never indexes past its partitions, events of one deployment reach
    the broker in the order they were announced, and every diagnostic event
    offered is accounted for. *)

From S2P Require Import Prelude Schema Registry RegistryInv RegistryRuns RegistryQueries JobQueue Worker.
From S2P Require Import CancelDispatch CancelDispatchProps ChainListener Services RowOps.
From S2P Require Import EventSweeps EventSweepsProps Producer.
Import Schema Registry RegistryInv RegistryRuns RegistryQueries JobQueue Worker.
Import CancelDispatch CancelDispatchProps ChainListener Services RowOps.
Import EventSweeps EventSweepsProps Producer.
Local Open Scope Z_scope.

Module ProducerProps.

(** ** Partitions *)

Lemma fnv1a_range hash key : 0 ≤ hash < 4294967296 → 0 ≤ fnv1a hash key < 4294967296.
Proof.
  revert hash. induction key as [|c key IH]; intros hash H; simpl; [done|].
  apply IH, Z.mod_pos_bound. lia.
Qed.

(** The published values of FNV-1a. *)
Example fnv1a_foobar :
  fnv1a FNV_OFFSET_BASIS "a" = 3826002220 ∧ fnv1a FNV_OFFSET_BASIS "foobar" = 3214735720.
Proof. split; vm_compute; reflexivity. Qed.

Lemma partition_in_range partitions key :
  0 < partitions ≤ 2147483648 → 0 ≤ partition_for_key partitions key < partitions.
Proof.
  intros H. unfold partition_for_key, wrap_i32.
  pose proof (Z.mod_pos_bound (fnv1a FNV_OFFSET_BASIS key) partitions ltac:(lia)) as Hm.
  destruct (Z.leb_spec (fnv1a FNV_OFFSET_BASIS key mod partitions) i32_max); [lia|].
  unfold i32_max in *. lia.
Qed.

Lemma open_partitions_all open next n clients :
  open_partitions open next n = Ok clients → clients = (λ i, next + Z.of_nat i) <$> seq 0 n.
Proof.
  revert next clients. induction n as [|n IH]; intros next clients; simpl; [by intros [= <-]|].
  destruct (open next); [|done].
  destruct (open_partitions open (next + 1) n) as [cs|] eqn:E; [|done]. intros [= <-].
  rewrite (IH _ _ E), <-seq_shift, <-list_fmap_compose. f_equal; [lia|].
  apply list_fmap_ext. intros i x _. simpl. lia.
Qed.

(** A producer that was built has a client for every partition. *)
Lemma kafka_new_clients load_tls connect open config p :
  0 ≤ kc_partitions config → kafka_new load_tls connect open config = Ok p →
  0 < kp_partitions p ∧ kp_partitions p = kc_partitions config ∧
  length (kp_partition_clients p) = Z.to_nat (kp_partitions p).
Proof.
  intros Hn. unfold kafka_new. destruct (client_options load_tls config) as [options|] eqn:Ho; [|done].
  assert (Hz : kc_partitions config ≠ 0).
  { unfold client_options in Ho. by destruct (Z.eqb_spec (kc_partitions config) 0). }
  destruct (connect options); [|done].
  destruct (open_partitions _ _ _) as [cs|] eqn:E; [|done]. intros [= <-]. simpl.
  rewrite (open_partitions_all _ _ _ _ E), length_fmap, length_seq. lia.
Qed.

Section emitter.
Context {B : Type} `{!Broker B Envelope} (qm_hash : N → string).

(** The producer the emitter may have is one that was built. *)
Definition well_built (p : KafkaProducer) : Prop :=
  0 < kp_partitions p ≤ 2147483648 ∧
  length (kp_partition_clients p) = Z.to_nat (kp_partitions p).

Definition emitter_ok (m : Emitter (B := B)) : Prop :=
  match em_streaming m with Some (Some p) => well_built p | _ => True end.

(** Sending never panics, whatever the key. *)
Lemma kafka_send_some p q (w : Wire (B := B)) :
  well_built p → ∃ ok b, kafka_send qm_hash p q w =
    Some (ok, mkWire b (wi_records w ++ [(record_of qm_hash (kp_partitions p) q, ok)])).
Proof.
  intros [Hp Hl]. unfold kafka_send, record_of.
  set (key := partition_key qm_hash q).
  pose proof (partition_in_range (kp_partitions p) key Hp) as Hr.
  assert (Hu : as_usize (partition_for_key (kp_partitions p) key) =
    partition_for_key (kp_partitions p) key) by (apply Z.mod_small; lia).
  rewrite Hu.
  destruct (lookup_lt_is_Some_2 (kp_partition_clients p)
    (Z.to_nat (partition_for_key (kp_partitions p) key))) as [c ->]; [lia|].
  destruct (produce _ _ _ _) as [ok b]. eauto.
Qed.

(** What a durable emission hands the broker. *)
Definition handed (m : Emitter (B := B)) (e : Emission) (ok : bool)
    : list (Z * string * Envelope * bool) :=
  match em_streaming m with
  | Some (Some p) => [(record_of qm_hash (kp_partitions p) (queued_of e), ok)]
  | _ => []
  end.

(** Off: confirmed and nothing sent.  Not connected: refused and nothing sent.
    Connected: one record, and the broker's answer. *)
Lemma durable_emit e (m : Emitter (B := B)) ok m' :
  emitter_ok m → emit_durable (DurableEmitter := KafkaEmitter qm_hash) e m = (ok, m') →
  em_streaming m' = em_streaming m ∧
  wi_records (em_wire m') = wi_records (em_wire m) ++ handed m e ok ∧
  match em_streaming m with None => ok = true | Some None => ok = false | _ => True end.
Proof.
  intros Hm. unfold emit_durable, KafkaEmitter, send_durable, handed, emitter_ok in *.
  destruct (em_streaming m) as [[p|]|] eqn:E.
  - destruct (kafka_send_some p (queued_of e) (em_wire m) Hm) as (ok' & b & ->). simpl.
    by intros [= <- <-].
  - intros [= <- <-]. by rewrite app_nil_r, E.
  - intros [= <- <-]. by rewrite app_nil_r, E.
Qed.

(** ** Announcements reach the broker in order *)

Context {C W : Type} `{!ChainClient C} `{!MessageQueue W}.
Notation SState := (SState C W).
Notation Outbox := (Outbox (Emitter (B := B))).
#[local] Instance kafka : DurableEmitter (Emitter (B := B)) := KafkaEmitter qm_hash.

Definition handed_log (m : Emitter (B := B)) (l : list announce)
    : list (Z * string * Envelope * bool) :=
  l ≫= λ a, match a with Sent e ok => handed m e ok | Stamped _ _ _ => [] end.

(** From [o], the broker was handed what the log tells. *)
Definition in_step (o o' : Outbox) : Prop :=
  em_streaming (ob_emitter o') = em_streaming (ob_emitter o) ∧
  ∃ l, ob_log o' = ob_log o ++ l ∧
    wi_records (em_wire (ob_emitter o')) =
    wi_records (em_wire (ob_emitter o)) ++ handed_log (ob_emitter o) l.

#[local] Instance in_step_preorder : PreOrder in_step.
Proof.
  split.
  - intros o. split; [done|]. exists []. by rewrite !app_nil_r.
  - intros o1 o2 o3 [E1 (l1 & L1 & R1)] [E2 (l2 & L2 & R2)]. split; [congruence|].
    exists (l1 ++ l2). rewrite L2, L1, R2, R1, <-!app_assoc. split; [done|]. f_equal.
    unfold handed_log. rewrite bind_app. f_equal. unfold handed. by rewrite E1.
Qed.

(** A sweep stays in step from every state. *)
Definition steps_with {A} (m : Sweep C W (Emitter (B := B)) A) : Prop :=
  ∀ o s, emitter_ok (ob_emitter o) → swp (K := Emitter) m (λ _ o' _, in_step o o') o s.

Lemma in_step_ok o o' : in_step o o' → emitter_ok (ob_emitter o) → emitter_ok (ob_emitter o').
Proof. intros [E _]. unfold emitter_ok. by rewrite E. Qed.

Lemma steps_ret {A} (a : A) : steps_with (mret a).
Proof. intros o s _. apply swp_ret. reflexivity. Qed.

Lemma steps_bind {A A'} (m : Sweep C W (Emitter (B := B)) A) (k : A → Sweep C W Emitter A') :
  steps_with m → (∀ a, steps_with (k a)) → steps_with (m ≫= k).
Proof.
  intros Hm Hk o s Ho. apply swp_bind. eapply swp_mono; [by apply Hm|]. intros a o1 s1 H1.
  eapply swp_mono; [apply Hk; exact (in_step_ok _ _ H1 Ho)|].
  intros b o2 s2 H2. exact (transitivity H1 H2).
Qed.

Lemma steps_pg {A} (m : Z → DbM A) : steps_with (sweep_pg m).
Proof. intros o s _. apply swp_pg_any. intros r s'. reflexivity. Qed.

Lemma steps_send e : steps_with (send e).
Proof.
  intros o s Ho. apply swp_send. intros k ok He.
  destruct (durable_emit e _ _ _ Ho He) as (Es & Hr & _). split; [done|].
  exists [Sent e ok]. split; [done|]. simpl. by rewrite Hr, app_nil_r.
Qed.

Lemma steps_stamp kind id m : steps_with (stamp kind id m).
Proof.
  intros o s _. apply swp_stamp. unfold wp. split; [done|]. eexists. split; [done|].
  simpl. by rewrite app_nil_r.
Qed.
#[local] Hint Resolve steps_ret steps_bind steps_pg steps_send steps_stamp : core.

Lemma steps_announce {P} query emission mark :
  (∀ p : P, steps_with (emission p)) → steps_with (announce_pending query emission mark).
Proof.
  intros He. apply steps_bind; [auto|]. intros [pending|]; [|auto].
  assert (Hl : steps_with (announce_each emission mark pending)).
  { induction pending as [|p rest IH]; simpl; [auto|].
    apply steps_bind; [auto|]. intros e. apply steps_bind; [auto|]. intros []; auto. }
  destruct pending; auto.
Qed.

(** With the Kafka emitter behind them, the sweeps hand the broker one
    record per announcement, in the order of the announcements and, being keyed
    by network and deployment, all of a deployment's on one partition: a partition
    shows an agreement's accept before its end.  Nothing is handed over while
    streaming is off or not connected, and no send panics. *)
Theorem broker_sees_the_announcements config (o : Outbox) (s : SState) h o' s' :
  emitter_ok (ob_emitter o) →
  run_event_sweeps config o s = ((h, o'), s') →
  em_streaming (ob_emitter o') = em_streaming (ob_emitter o) ∧
  ∃ l, ob_log o' = ob_log o ++ l ∧
    wi_records (em_wire (ob_emitter o')) =
    wi_records (em_wire (ob_emitter o)) ++ handed_log (ob_emitter o) l.
Proof.
  intros Ho Hrun. pattern h, o', s'. refine (swp_run _ _ _ _ _ _ _ _ Hrun).
  clear Hrun h o' s'. change (swp (run_event_sweeps config) (λ _ o' _, in_step o o') o s).
  revert o s Ho. change (steps_with (run_event_sweeps config)).
  apply steps_bind; [apply steps_announce; auto|]. intros accepted. case_bool_decide; [auto|].
  apply steps_bind.
  { apply steps_announce. intros p. apply steps_bind; [|auto].
    unfold remaining_accepted_indexing_agreements. auto. }
  intros terminated. cbv zeta. case_bool_decide; [auto|].
  apply steps_bind; [apply steps_announce; auto|auto].
Qed.

End emitter.

(** ** Diagnostic events *)

Definition held_list (s : Diagnostics) : list QueuedEvent :=
  match dq_held s with Some e => [e] | None => [] end.

(** Dropped and not yet added to the counter. *)
Definition dropped_now (s : Diagnostics) : Z :=
  match dq_mode s with Dropping n => n | _ => 0 end.

Definition count {A} (l : list A) : Z := Z.of_nat (length l).

(** Where the events offered are. *)
Record accounted (capacity : nat) (s : Diagnostics) : Prop := {
  ac_order : dq_sends s ++ held_list s ++ dq_queue s ++ dq_unread s `sublist_of` dq_offered s;
  ac_counter : dq_dropped s = as_u64 (count (dq_offered s) - count (dq_sends s)
    - count (held_list s) - count (dq_queue s) - count (dq_unread s) - dropped_now s);
  ac_bound : (length (dq_queue s) ≤ capacity)%nat;
  ac_held : dq_held s ≠ None → dq_mode s = Draining;
  ac_closed : dq_mode s ≠ Closed → dq_unread s = [];
  ac_closed_queue : dq_mode s = Closed → dq_queue s = [] }.

Lemma as_u64_add a b : as_u64 (as_u64 a + b) = as_u64 (a + b).
Proof. unfold as_u64. by rewrite Z.add_mod_idemp_l. Qed.

Lemma count_app {A} (l1 l2 : list A) : count (l1 ++ l2) = count l1 + count l2.
Proof. unfold count. rewrite length_app. lia. Qed.

Lemma count_cons {A} (x : A) l : count (x :: l) = 1 + count l.
Proof. unfold count. simpl. lia. Qed.

(** Counters as sums, and back. *)
Ltac counting :=
  match goal with H : _ = as_u64 _ |- _ => rewrite H; clear H end;
  unfold dropped_now, held_list; simpl; rewrite ?as_u64_add; f_equal;
  rewrite ?count_app, ?count_cons; unfold count; simpl; lia.

Lemma enqueue_accounted capacity e s : accounted capacity s → accounted capacity (enqueue capacity e s).
Proof.
  intros [O D B H C Q]. unfold enqueue. simpl. destruct s as [m c q h d sn o u]. simpl in *.
  destruct (is_closed _ || _) eqn:Hfull.
  - split; simpl; try done.
    + by apply sublist_inserts_r.
    + counting.
  - apply orb_false_elim in Hfull as [Hc Hl]. apply Nat.leb_gt in Hl.
    assert (Hm : m ≠ Closed) by (intros ->; done). rewrite (C Hm) in *. split; simpl; try done.
    + rewrite !app_nil_r in *. rewrite !app_assoc. rewrite !app_assoc in O.
      by apply sublist_app.
    + counting.
    + rewrite length_app. simpl. lia.
Qed.

(** The fields of [accounted] but the order. *)
Ltac book :=
  split; simpl; try done; try counting; try lia;
  try match goal with |- _ → _ => naive_solver end.

Lemma step_accounted capacity s s' :
  drain_step capacity s s' → accounted capacity s → accounted capacity s'.
Proof.
  intros Hstep Ha. destruct Hstep; [by apply enqueue_accounted|..];
    destruct Ha as [O D B H' C Q]; destruct s as [m c q' h d sn o u]; simpl in *; subst; simpl in B.
  - by split.
  - book.
  - book. by rewrite <-!app_assoc.
  - book. etrans; [|exact O]. apply sublist_app; [done|]. by apply sublist_cons.
  - book. etrans; [|exact O]. apply sublist_app; [done|]. apply sublist_app; [done|].
    by apply sublist_cons.
  - book.
  - book.
  - destruct h; [by specialize (H' ltac:(done))|].
    unfold drain_one. simpl. destruct c; book.
    + by rewrite <-app_assoc.
    + etrans; [|exact O]. apply sublist_app; [done|]. simpl. by apply sublist_cons.
  - book.
  - rewrite (C ltac:(done)) in *. rewrite app_nil_r in O. book.
Qed.

Lemma start_accounted capacity : accounted capacity diagnostics_start.
Proof. split; simpl; try done; lia. Qed.

(** However callers, the connect task and the drain task interleave, every
    diagnostic event offered was handed to the broker, is held, is queued, went
    unread with a queue closed under it, or is counted as dropped; those handed
    over are in the order they were offered and none twice; and the queue keeps
    within its capacity. *)
Theorem diagnostics_are_accounted capacity s :
  rtc (drain_step capacity) diagnostics_start s →
  dq_sends s ++ held_list s ++ dq_queue s ++ dq_unread s `sublist_of` dq_offered s ∧
  as_u64 (dq_dropped s + dropped_now s) = as_u64 (count (dq_offered s) - count (dq_sends s)
    - count (held_list s) - count (dq_queue s) - count (dq_unread s)) ∧
  (length (dq_queue s) ≤ capacity)%nat ∧
  (dq_mode s ≠ Closed → dq_unread s = []).
Proof.
  intros Hs. assert (Ha : accounted capacity s).
  { revert s Hs. apply (rtc_ind_r (accounted capacity) diagnostics_start).
    - apply start_accounted.
    - intros s1 s2 _ Hstep IH. by eapply step_accounted. }
  destruct Ha as [O D B _ C _]. split; [done|]. split; [|done].
  rewrite D, as_u64_add. f_equal. lia.
Qed.

(** Two slots, a broker that never connects: the first event is held, the second
    and third wait, the fourth is refused, and shutdown drops the rest. *)
Lemma diagnostics_are_accounted_witness :
  ∃ s, rtc (drain_step 2) diagnostics_start s ∧ dq_dropped s = 4 ∧ dq_mode s = Exited ∧
    as_u64 (dq_dropped s + dropped_now s) = as_u64 (count (dq_offered s) - count (dq_sends s)
      - count (held_list s) - count (dq_queue s) - count (dq_unread s)).
Proof.
  set (e := mkQueued 7 42161 (RequestReceivedPayload 3)).
  assert (H : ∃ s, rtc (drain_step 2) diagnostics_start s ∧ dq_dropped s = 4 ∧ dq_mode s = Exited).
  { eexists. split.
    - eapply rtc_l; [apply (StepEnqueue _ _ e)|].
      eapply rtc_l; [by eapply (StepRecv _ _ e)|].
      do 3 (eapply rtc_l; [apply (StepEnqueue _ _ e)|]).
      eapply rtc_l; [by eapply (StepGiveUp _ _ e)|].
      do 2 (eapply rtc_l; [by eapply (StepDropOne _ _ e)|]).
      eapply rtc_l; [by eapply StepDropped|]. apply rtc_refl.
    - split; vm_compute; reflexivity. }
  destruct H as (s & Hs & Hd & Hm). exists s. split; [done|]. split; [done|]. split; [done|].
  apply (diagnostics_are_accounted 2 s Hs).
Defined.

End ProducerProps.
