(* ===== verification/Alerts.v ===== *)
(** * Alerts (bin/dipper-service/src/alerts.rs)

    Log lines with a configured tag are queued and posted to Slack, at most one
    message per tag in each window; the others are counted and reported later.
    Posting over HTTP is input and output: a message counts as posted when it is
    handed to it.  Instants and durations are in nanoseconds, and the counts,
    [u64] in the code, are integers.  Texts are strings of bytes. *)

From stdpp Require Import pretty.
From Stdlib Require Import Ascii.
From S2P Require Import Prelude JobQueue Worker.
Import JobQueue Worker.
Local Open Scope Z_scope.

Module Alerts.

Definition QUEUE : nat := 64.
Definition HELD_BACK_CHECK : Z := from_secs 60.

Record Alert : Type := mkAlert {
  al_event : string;
  al_level : string;
  al_message : string;
  al_fields : string }.

(** ** The throttle *)

Record Window : Type := mkWindow { wd_started : Z; wd_held_back : Z }.

Record Throttle : Type := mkThrottle { th_window : Z; th_events : gmap string Window }.

Definition throttle_new (window : Z) : Throttle := mkThrottle window ∅.

(** [Some n]: post the alert and say that [n] were held back before it. *)
Definition throttle_admit (event : string) (now : Z) (t : Throttle) : option Z * Throttle :=
  match th_events t !! event with
  | Some w =>
      if since now (wd_started w) <? th_window t
      then (None, mkThrottle (th_window t)
                    (<[event := mkWindow (wd_started w) (wd_held_back w + 1)]> (th_events t)))
      else (Some (wd_held_back w),
            mkThrottle (th_window t) (<[event := mkWindow now 0]> (th_events t)))
  | None => (Some 0, mkThrottle (th_window t) (<[event := mkWindow now 0]> (th_events t)))
  end.

(** [now.checked_sub(window).unwrap_or(now)], the earliest instant being 0. *)
Definition before (now window : Z) : Z := if now <? window then now else now - window.

Definition hold_back (event : string) (count now : Z) (t : Throttle) : Throttle :=
  let w := default (mkWindow (before now (th_window t)) 0) (th_events t !! event) in
  mkThrottle (th_window t)
    (<[event := mkWindow (wd_started w) (wd_held_back w + count)]> (th_events t)).

Definition window_due (now window : Z) (w : Window) : bool :=
  (0 <? wd_held_back w) && (window <=? since now (wd_started w)).

Definition throttle_due (now : Z) (t : Throttle) : list (string * Z) * Throttle :=
  (omap (λ p, if window_due now (th_window t) p.2 then Some (p.1, wd_held_back p.2) else None)
     (map_to_list (th_events t)),
   mkThrottle (th_window t)
     ((λ w, if window_due now (th_window t) w then mkWindow now 0 else w) <$> th_events t)).

(** ** Texts *)

(** [text.replace(c, by)] *)
Fixpoint replace_char (c : ascii) (by_ text : string) : string :=
  match text with
  | EmptyString => EmptyString
  | String x rest =>
      if bool_decide (x = c) then by_ +:+ replace_char c by_ rest else String x (replace_char c by_ rest)
  end.

Definition slack_escape (text : string) : string :=
  replace_char ">" "&gt;" (replace_char "<" "&lt;" (replace_char "&" "&amp;" text)).

(** The newline between the parts of a message. *)
Definition newline : string := String (ascii_of_nat 10) EmptyString.

Definition alert_text (alert : Alert) (held_back : Z) : string :=
  "dipper " +:+ al_level alert +:+ " `" +:+ slack_escape (al_event alert) +:+ "`: " +:+
  slack_escape (al_message alert) +:+
  (if bool_decide (al_fields alert = EmptyString) then EmptyString
   else newline +:+ slack_escape (al_fields alert)) +:+
  (if 0 <? held_back then newline +:+ pretty held_back +:+ " more since the last alert"
   else EmptyString).

Definition describe (window : Z) : string :=
  let seconds := window / 1000000000 in
  let minutes := seconds / 60 in
  if seconds mod 60 =? 0 then
    if minutes =? 1 then "minute"
    else if 0 <? minutes then pretty minutes +:+ " minutes"
    else pretty seconds +:+ " seconds"
  else if seconds =? 1 then "second"
  else pretty seconds +:+ " seconds".

Definition held_back_text (event : string) (held_back window : Z) : string :=
  "dipper `" +:+ event +:+ "`: " +:+ pretty held_back +:+ " more in the last " +:+ describe window.

(** A field's text joined to those before it ([LogLine::record]). *)
Definition log_line (line : string * string) (field : string * string) : string * string :=
  let '(message, fields) := line in
  let '(name, value) := field in
  if bool_decide (name = "event"%string) then line
  else if bool_decide (name = "message"%string) then (value, fields)
  else (message, fields +:+ (if bool_decide (fields = EmptyString) then EmptyString else " "%string)
                   +:+ name +:+ "=" +:+ value).

(** ** The layer and the poster *)

(** A message posted: its tag, whether it shows an alert itself, how many it
    says were held back, and when. *)
Record Post : Type := mkPost {
  po_event : string;
  po_shown : bool;
  po_held_back : Z;
  po_at : Z }.

(** [al_logged] is every alert picked out, and [al_posts] every message. *)
Record Alerting : Type := mkAlerting {
  ag_queue : list Alert;
  ag_dropped : gmap string Z;
  ag_throttle : Throttle;
  ag_logged : list string;
  ag_posts : list Post }.

Definition alerting_start (window : Z) : Alerting := mkAlerting [] ∅ (throttle_new window) [] [].

(** [on_event], for a line with its tag. *)
Definition on_event (events : gset string) (line : Alert) (s : Alerting) : Alerting :=
  if bool_decide (al_event line ∈ events) then
    if (QUEUE <=? length (ag_queue s))%nat then
      mkAlerting (ag_queue s)
        (<[al_event line := default 0 (ag_dropped s !! al_event line) + 1]> (ag_dropped s))
        (ag_throttle s) (ag_logged s ++ [al_event line]) (ag_posts s)
    else mkAlerting (ag_queue s ++ [line]) (ag_dropped s) (ag_throttle s)
           (ag_logged s ++ [al_event line]) (ag_posts s)
  else s.

(** The alerts the full queue dropped, taken into the throttle. *)
Definition take_dropped (now : Z) (s : Alerting) : Alerting :=
  mkAlerting (ag_queue s) ∅
    (foldr (λ p t, hold_back p.1 p.2 now t) (ag_throttle s) (map_to_list (ag_dropped s)))
    (ag_logged s) (ag_posts s).

(** A turn of the poster: an alert received, or the check of the windows; [at_]
    and [later] are the instants it reads. *)
Definition recv_turn (at_ later : Z) (s : Alerting) : Alerting :=
  match ag_queue s with
  | [] => s
  | alert :: rest =>
      let '(held_back, t) := throttle_admit (al_event alert) at_ (ag_throttle s) in
      take_dropped later (mkAlerting rest (ag_dropped s) t (ag_logged s)
        (ag_posts s ++ match held_back with
                       | Some n => [mkPost (al_event alert) true n at_]
                       | None => []
                       end))
  end.

Definition check_turn (at_ later : Z) (s : Alerting) : Alerting :=
  let '(ended, t) := throttle_due at_ (ag_throttle s) in
  take_dropped later (mkAlerting (ag_queue s) (ag_dropped s) t (ag_logged s)
    (ag_posts s ++ ((λ p, mkPost p.1 false p.2 at_) <$> ended))).

(** What happens, and when: a line is logged, or the poster turns. *)
Inductive happening : Type :=
| Logged (line : Alert)
| Received (at_ later : Z)
| Checked (at_ later : Z).

Definition happen (events : gset string) (s : Alerting) (h : happening) : Alerting :=
  match h with
  | Logged line => on_event events line s
  | Received at_ later => recv_turn at_ later s
  | Checked at_ later => check_turn at_ later s
  end.

End Alerts.
