(* ===== verification/AlertsProps.v ===== *)
(** * What the alerts guarantee

    Every tagged line is shown or counted in a message, or still on its way; an
    event has at most one message in each window; and no text is read as markup. *)

From Stdlib Require Import Ascii.
From S2P Require Import Prelude JobQueue Worker Alerts.
Import JobQueue Worker Alerts.
Local Open Scope Z_scope.

Module AlertsProps.

(** ** Sums *)

Definition sum_of {A} (f : A → Z) (l : list A) : Z := foldr (λ x acc, f x + acc) 0 l.

Lemma sum_of_app {A} (f : A → Z) l1 l2 : sum_of f (l1 ++ l2) = sum_of f l1 + sum_of f l2.
Proof. induction l1 as [|x l1 IH]; simpl; [done|]. rewrite IH. lia. Qed.

Lemma sum_of_perm {A} (f : A → Z) l1 l2 : l1 ≡ₚ l2 → sum_of f l1 = sum_of f l2.
Proof. induction 1; simpl; lia. Qed.

(** Over a map, what only one key contributes to. *)
Lemma sum_of_key {V} (g : string * V → Z) e (m : gmap string V) :
  (∀ k v, k ≠ e → g (k, v) = 0) →
  sum_of g (map_to_list m) = default 0 ((λ v, g (e, v)) <$> m !! e).
Proof.
  intros Hg. induction m as [|k v m Hk IH] using map_ind.
  - rewrite map_to_list_empty, lookup_empty. done.
  - rewrite (sum_of_perm _ _ _ (map_to_list_insert m k v Hk)). simpl. rewrite IH.
    destruct (decide (k = e)) as [->|Hne].
    + rewrite lookup_insert_eq, Hk. simpl. lia.
    + rewrite lookup_insert_ne by done. rewrite Hg by done. lia.
Qed.

(** ** Accounting *)

Definition one (b : bool) : Z := if b then 1 else 0.

Definition logged_of (e : string) (s : Alerting) : Z :=
  sum_of (λ x, one (bool_decide (x = e))) (ag_logged s).

(** What a message tells of an event's alerts. *)
Definition told (e : string) (p : Post) : Z :=
  if bool_decide (po_event p = e) then one (po_shown p) + po_held_back p else 0.

Definition held (e : string) (t : Throttle) : Z :=
  default 0 (wd_held_back <$> th_events t !! e).

Definition waiting_of (e : string) (s : Alerting) : Z :=
  sum_of (λ a, one (bool_decide (al_event a = e))) (ag_queue s)
  + default 0 (ag_dropped s !! e) + held e (ag_throttle s).

Definition settled_count (e : string) (s : Alerting) : Prop :=
  logged_of e s = sum_of (told e) (ag_posts s) + waiting_of e s.

Lemma admit_held e event now t o t' :
  throttle_admit event now t = (o, t') →
  held e t' + match o with
              | Some n => if bool_decide (event = e) then n + 1 else 0
              | None => 0
              end = held e t + one (bool_decide (event = e)).
Proof.
  unfold throttle_admit, held. intros H.
  destruct (th_events t !! event) as [w|] eqn:Hw; [case_match|]; injection H as <- <-; simpl;
    (destruct (decide (event = e)) as [->|Hne];
     [rewrite bool_decide_true by done; rewrite lookup_insert_eq, ?Hw; simpl; lia
     |rewrite bool_decide_false by done; rewrite lookup_insert_ne by done; simpl; lia]).
Qed.

Lemma hold_back_held e event count now t :
  held e (hold_back event count now t) = held e t + (if bool_decide (event = e) then count else 0).
Proof.
  unfold held, hold_back. simpl. destruct (decide (event = e)) as [->|Hne].
  - rewrite bool_decide_true by done. rewrite lookup_insert_eq. simpl.
    by destruct (th_events t !! e).
  - rewrite bool_decide_false by done. rewrite lookup_insert_ne by done. lia.
Qed.

Lemma take_dropped_settled e now s :
  settled_count e s → settled_count e (take_dropped now s).
Proof.
  unfold settled_count, waiting_of, take_dropped, logged_of. simpl. intros ->.
  assert (H : ∀ l t, held e (foldr (λ p t, hold_back p.1 p.2 now t) t l) =
    held e t + sum_of (λ p, if bool_decide (p.1 = e) then p.2 else 0) l).
  { intros l t. induction l as [|p l IH]; simpl; [lia|]. rewrite hold_back_held, IH. lia. }
  rewrite H, (sum_of_key _ e).
  - rewrite lookup_empty. simpl. destruct (ag_dropped s !! e); simpl; [|lia].
    rewrite bool_decide_true by done. lia.
  - intros k v Hk. simpl. by rewrite bool_decide_false.
Qed.

Lemma due_settled e now t :
  let '(ended, t') := throttle_due now t in
  sum_of (told e) ((λ p, mkPost p.1 false p.2 now) <$> ended) + held e t' = held e t.
Proof.
  unfold throttle_due, held. simpl. rewrite lookup_fmap.
  assert (H : sum_of (told e) ((λ p, mkPost p.1 false p.2 now) <$>
      omap (λ p, if window_due now (th_window t) p.2 then Some (p.1, wd_held_back p.2) else None)
        (map_to_list (th_events t))) =
    sum_of (λ p, if bool_decide (p.1 = e) then
                   if window_due now (th_window t) p.2 then wd_held_back p.2 else 0 else 0)
      (map_to_list (th_events t))).
  { induction (map_to_list (th_events t)) as [|[k w] l IH]; [done|]. csimpl.
    destruct (window_due now (th_window t) w); csimpl; rewrite IH; unfold told; simpl;
      case_bool_decide; lia. }
  rewrite H, (sum_of_key _ e).
  - destruct (th_events t !! e) as [w|]; [|done]. simpl. rewrite bool_decide_true by done.
    destruct (window_due now (th_window t) w); simpl; lia.
  - intros k v Hk. simpl. by rewrite bool_decide_false.
Qed.

Lemma happen_settled e events s h : settled_count e s → settled_count e (happen events s h).
Proof.
  intros Hs. destruct h as [line|at_ later|at_ later]; simpl.
  - unfold on_event. case_bool_decide; [|done]. unfold settled_count, waiting_of, logged_of in *.
    case_match; simpl; rewrite !sum_of_app, Hs; simpl; [|lia].
    destruct (decide (al_event line = e)) as [->|Hne].
    + rewrite lookup_insert_eq, bool_decide_true by done. simpl. lia.
    + rewrite lookup_insert_ne, bool_decide_false by done. simpl. lia.
  - unfold recv_turn. destruct (ag_queue s) as [|a rest] eqn:Hq; [done|].
    destruct (throttle_admit (al_event a) at_ (ag_throttle s)) as [o t] eqn:Ha.
    apply take_dropped_settled. apply (admit_held e) in Ha.
    unfold settled_count, waiting_of, logged_of in *. simpl. rewrite Hs, Hq, sum_of_app. simpl.
    destruct o; simpl; unfold told; simpl; repeat case_bool_decide; simpl in *; lia.
  - unfold check_turn. pose proof (due_settled e at_ (ag_throttle s)) as Hd.
    destruct (throttle_due at_ (ag_throttle s)) as [ended t]. apply take_dropped_settled.
    unfold settled_count, waiting_of, logged_of in *. simpl. rewrite Hs, sum_of_app. lia.
Qed.

(** Over any run of lines and turns of the poster, every alert picked out
    is accounted for: shown in a message, counted in one as held back, or still
    queued, dropped at a full queue or held back and yet to be counted. *)
Theorem alerts_are_accounted events window hs e :
  let s := foldl (happen events) (alerting_start window) hs in
  logged_of e s = sum_of (told e) (ag_posts s) + waiting_of e s.
Proof.
  simpl. assert (H : ∀ s, settled_count e s → settled_count e (foldl (happen events) s hs)).
  { induction hs as [|h hs IH]; intros s Hs; simpl; [done|]. by apply IH, happen_settled. }
  apply H. unfold settled_count, waiting_of, held. simpl. by rewrite !lookup_empty.
Qed.

(** ** One message a window *)

(** Of two messages, the later of an event comes a window after the earlier. *)
Definition apart (window : Z) (p q : Post) : Prop :=
  po_event p = po_event q → window ≤ po_at q - po_at p.

(** A message's event has a window that started with it or later. *)
Definition covered (t : Throttle) (p : Post) : Prop :=
  ∃ w, th_events t !! po_event p = Some w ∧ po_at p ≤ wd_started w.

Record spaced (window : Z) (s : Alerting) : Prop := {
  sp_window : th_window (ag_throttle s) = window;
  sp_apart : StronglySorted (apart window) (ag_posts s);
  sp_covered : Forall (covered (ag_throttle s)) (ag_posts s) }.

Lemma strongly_sorted_snoc {A} (R : A → A → Prop) l l' :
  StronglySorted R l → StronglySorted R l' → (∀ x y, x ∈ l → y ∈ l' → R x y) →
  StronglySorted R (l ++ l').
Proof.
  induction 1 as [|x l Hl IH Hx]; intros Hl' Hr; simpl; [done|]. constructor.
  - apply IH; [done|]. intros a b Ha Hb. apply Hr; [by right|done].
  - apply Forall_app. split; [done|]. apply Forall_forall. intros y Hy. apply Hr; [by left|done].
Qed.

Lemma hold_back_covered event count now t p :
  covered t p → covered (hold_back event count now t) p.
Proof.
  intros (w & Hw & Hp). unfold covered, hold_back. simpl.
  destruct (decide (event = po_event p)) as [->|Hne].
  - rewrite lookup_insert_eq, Hw. simpl. eauto.
  - rewrite lookup_insert_ne by done. eauto.
Qed.

Lemma take_dropped_spaced window now s : spaced window s → spaced window (take_dropped now s).
Proof.
  intros [Hw Ha Hc]. unfold take_dropped.
  assert (H : ∀ l t, th_window (foldr (λ p t, hold_back p.1 p.2 now t) t l) = th_window t ∧
    ∀ p, covered t p → covered (foldr (λ p t, hold_back p.1 p.2 now t) t l) p).
  { intros l t. induction l as [|p l [IH1 IH2]]; simpl; [done|]. split; [done|].
    intros q Hq. by apply hold_back_covered, IH2. }
  destruct (H (map_to_list (ag_dropped s)) (ag_throttle s)) as [H1 H2].
  split; simpl; [congruence|done|]. eapply Forall_impl; [exact Hc|]. done.
Qed.

(** New windows start no earlier than the old ones, and where a message is
    posted, a window after them. *)
Lemma renewed window t t' posts ended now :
  0 < window → th_window t = window → StronglySorted (apart window) posts →
  Forall (covered t) posts → NoDup (po_event <$> ended) →
  Forall (λ p, po_at p = now ∧ th_events t' !! po_event p = Some (mkWindow now 0) ∧
    ∀ w, th_events t !! po_event p = Some w → window ≤ since now (wd_started w)) ended →
  (∀ e w, th_events t !! e = Some w → ∃ w', th_events t' !! e = Some w' ∧
    wd_started w ≤ wd_started w') →
  StronglySorted (apart window) (posts ++ ended) ∧ Forall (covered t') (posts ++ ended).
Proof.
  intros Hpos Hw Ha Hc Hn He Hup. rewrite Forall_forall in Hc, He. split.
  - apply strongly_sorted_snoc; [done|..].
    + clear -Hn. induction ended as [|p ended IH]; [constructor|].
      apply NoDup_cons in Hn as [Hp Hn]. constructor; [by apply IH|].
      apply Forall_forall. intros q Hq Heq. destruct Hp. rewrite Heq. by apply list_elem_of_fmap_2.
    + intros p q Hp Hq Heq. destruct (Hc p Hp) as (w & Hlw & Hle). rewrite Heq in Hlw.
      destruct (He q Hq) as (Hat & _ & Hs). specialize (Hs w Hlw). unfold since in Hs. lia.
  - apply Forall_forall. intros p [Hp|Hp]%elem_of_app.
    + destruct (Hc p Hp) as (w & Hlw & Hle). destruct (Hup _ _ Hlw) as (w' & Hw' & Hle').
      exists w'. split; [done|lia].
    + destruct (He p Hp) as (Hat & Hlw & _). exists (mkWindow now 0). split; [done|simpl; lia].
Qed.

Lemma recv_spaced window at_ later s :
  0 < window → spaced window s → spaced window (recv_turn at_ later s).
Proof.
  intros Hpos Hs. unfold recv_turn. destruct (ag_queue s) as [|a rest]; [done|].
  destruct (throttle_admit (al_event a) at_ (ag_throttle s)) as [o t] eqn:Had.
  apply take_dropped_spaced. destruct Hs as [Hw Ha Hc].
  assert (H : th_window t = window ∧
    StronglySorted (apart window) (ag_posts s ++ match o with
      | Some n => [mkPost (al_event a) true n at_] | None => [] end) ∧
    Forall (covered t) (ag_posts s ++ match o with
      | Some n => [mkPost (al_event a) true n at_] | None => [] end)).
  2:{ destruct H as (H1 & H2 & H3). by split. }
  unfold throttle_admit in Had.
  destruct (th_events (ag_throttle s) !! al_event a) as [w|] eqn:Hlw.
  - destruct (Z.ltb_spec (since at_ (wd_started w)) (th_window (ag_throttle s))) as [Hlt|Hge];
      injection Had as <- <-; simpl; (split; [done|]).
    + rewrite app_nil_r. split; [done|]. eapply Forall_impl; [exact Hc|].
      intros p (w' & Hw' & Hle). unfold covered. simpl.
      destruct (decide (al_event a = po_event p)) as [He|Hne].
      * rewrite He, lookup_insert_eq. rewrite He, Hw' in Hlw. injection Hlw as ->. eauto.
      * rewrite lookup_insert_ne by done. eauto.
    + eapply renewed; try done; [apply NoDup_singleton| |].
      * apply Forall_singleton. simpl. rewrite lookup_insert_eq, Hlw. split; [done|].
        split; [done|]. intros w' [= <-]. lia.
      * intros e w' Hw'. simpl. destruct (decide (al_event a = e)) as [<-|Hne].
        -- rewrite lookup_insert_eq. eexists. split; [done|]. rewrite Hlw in Hw'.
           injection Hw' as <-. simpl. unfold since in Hge. lia.
        -- rewrite lookup_insert_ne by done. by eexists.
  - injection Had as <- <-. simpl. split; [done|].
    eapply renewed; try done; [apply NoDup_singleton| |].
    + apply Forall_singleton. simpl. by rewrite lookup_insert_eq, Hlw.
    + intros e w' Hw'. simpl. rewrite lookup_insert_ne by congruence. by eexists.
Qed.

(** A check reports an event once. *)
Lemma due_once now t : NoDup ((throttle_due now t).1).*1.
Proof.
  unfold throttle_due. simpl. eapply sublist_NoDup; [apply (NoDup_fst_map_to_list (th_events t))|].
  induction (map_to_list (th_events t)) as [|[k w] l IH]; csimpl; [constructor|].
  destruct (window_due _ _ w); csimpl; by constructor.
Qed.

Lemma check_spaced window at_ later s :
  0 < window → spaced window s → spaced window (check_turn at_ later s).
Proof.
  intros Hpos [Hw Ha Hc]. unfold check_turn, throttle_due. simpl. apply take_dropped_spaced.
  set (t := ag_throttle s) in *. set (ended := omap _ _).
  assert (He : ∀ e n, (e, n) ∈ ended → ∃ w, th_events t !! e = Some w ∧
    window_due at_ (th_window t) w = true).
  { intros e n Hin. apply list_elem_of_omap in Hin as ([k w] & Hk & Hd). simpl in Hd.
    apply elem_of_map_to_list in Hk. destruct (window_due at_ (th_window t) w) eqn:E; [|done].
    injection Hd as <- _. eauto. }
  destruct (renewed window t (mkThrottle (th_window t)
      ((λ w, if window_due at_ (th_window t) w then mkWindow at_ 0 else w) <$> th_events t))
    (ag_posts s) ((λ p, mkPost p.1 false p.2 at_) <$> ended) at_) as [H1 H2]; try done.
  - rewrite <-list_fmap_compose. apply (due_once at_ t).
  - apply Forall_forall. intros p Hp. apply list_elem_of_fmap in Hp as ([e n] & -> & Hin).
    simpl. split; [done|]. destruct (He e n Hin) as (w & Hlw & Hd).
    rewrite lookup_fmap, Hlw. simpl. rewrite Hd. split; [done|]. intros w' [= <-].
    unfold window_due in Hd. apply andb_prop in Hd as [_ Hd]. lia.
  - intros e w Hlw. simpl. rewrite lookup_fmap, Hlw. simpl. eexists. split; [done|].
    destruct (window_due at_ (th_window t) w) eqn:Hd; [|done]. simpl.
    unfold window_due, since in Hd. lia.
Qed.

(** An event has at most one message in each window, whenever the turns of
    the poster come: two messages of an event are at least a window apart. *)
Theorem one_message_a_window events window hs :
  0 < window →
  StronglySorted (apart window) (ag_posts (foldl (happen events) (alerting_start window) hs)).
Proof.
  intros Hpos. assert (H : ∀ s, spaced window s → spaced window (foldl (happen events) s hs)).
  { induction hs as [|h hs IH]; intros s Hs; simpl; [done|]. apply IH.
    destruct h as [line|at_ later|at_ later]; simpl.
    - unfold on_event. case_bool_decide; [|done]. destruct Hs. by case_match.
    - by apply recv_spaced.
    - by apply check_spaced. }
  apply H. split; simpl; [done|constructor|constructor].
Qed.

Lemma one_message_a_window_witness :
  let line := mkAlert "hold" "WARN" "m" "" in
  let s := foldl (happen {[ "hold"%string ]}) (alerting_start 100)
             [Logged line; Received 10 10; Logged line; Received 20 20; Checked 110 110;
              Logged line; Received 120 120] in
  0 < 100 ∧ ag_posts s = [mkPost "hold" true 0 10; mkPost "hold" false 1 110] ∧
  StronglySorted (apart 100) (ag_posts s).
Proof.
  split; [lia|]. split; [vm_compute; reflexivity|]. apply one_message_a_window. lia.
Defined.

(** ** Escaping *)

(** What a character becomes. *)
Definition escape_char (c : ascii) : string :=
  if bool_decide (c = "&"%char) then "&amp;"
  else if bool_decide (c = "<"%char) then "&lt;"
  else if bool_decide (c = ">"%char) then "&gt;"
  else String c EmptyString.

Fixpoint escape (text : string) : string :=
  match text with
  | EmptyString => EmptyString
  | String c rest => escape_char c +:+ escape rest
  end.

Lemma text_app_assoc (s1 s2 s3 : string) : s1 +:+ (s2 +:+ s3) = (s1 +:+ s2) +:+ s3.
Proof. induction s1 as [|c s1 IH]; [done|]. exact (f_equal (String c) IH). Qed.

Lemma replace_app c by_ s1 s2 :
  replace_char c by_ (s1 +:+ s2) = replace_char c by_ s1 +:+ replace_char c by_ s2.
Proof.
  induction s1 as [|x s1 IH]; simpl; [done|]. case_bool_decide; rewrite IH; [|done].
  apply text_app_assoc.
Qed.

(** Replacing one after the other is replacing each character once: what a
    replacement writes is not replaced again. *)
Theorem slack_escape_is_charwise text : slack_escape text = escape text.
Proof.
  unfold slack_escape. induction text as [|c text IH]; [done|].
  change (escape (String c text)) with (escape_char c +:+ escape text). rewrite <-IH.
  change (String c text) with (String c EmptyString +:+ text). rewrite !replace_app. f_equal.
  destruct (decide (c = "&"%char)) as [->|H1]; [reflexivity|].
  destruct (decide (c = "<"%char)) as [->|H2]; [reflexivity|].
  destruct (decide (c = ">"%char)) as [->|H3]; [reflexivity|].
  unfold escape_char. simpl. rewrite !(bool_decide_false _ H1). simpl.
  rewrite !(bool_decide_false _ H2). simpl. by rewrite !(bool_decide_false _ H3).
Qed.

Fixpoint chars (s : string) : list ascii :=
  match s with EmptyString => [] | String c s => c :: chars s end.

Lemma chars_app s1 s2 : chars (s1 +:+ s2) = chars s1 ++ chars s2.
Proof. induction s1 as [|c s1 IH]; simpl; [done|]. by rewrite IH. Qed.

(** Reading an escaped text back. *)
Fixpoint unescape (fuel : nat) (s : string) : string :=
  match fuel with
  | O => EmptyString
  | Datatypes.S f =>
      match s with
      | EmptyString => EmptyString
      | String "&" (String "a" (String "m" (String "p" (String ";" rest)))) =>
          String "&" (unescape f rest)
      | String "&" (String "l" (String "t" (String ";" rest))) => String "<" (unescape f rest)
      | String "&" (String "g" (String "t" (String ";" rest))) => String ">" (unescape f rest)
      | String c rest => String c (unescape f rest)
      end
  end.

(** An escaped text has no angle bracket left, which Slack would read as a
    link or a mention, and reads back as the text it was. *)
Theorem slack_escape_is_safe text :
  "<"%char ∉ chars (slack_escape text) ∧ ">"%char ∉ chars (slack_escape text) ∧
  unescape (String.length text) (slack_escape text) = text.
Proof.
  rewrite slack_escape_is_charwise. split_and!.
  1,2: induction text as [|c text IH]; simpl; [set_solver|]; rewrite chars_app, not_elem_of_app;
    split; [|done]; unfold escape_char; repeat case_bool_decide; simpl; set_unfold; naive_solver.
  induction text as [|c text IH]; [done|].
  change (escape (String c text)) with (escape_char c +:+ escape text).
  unfold escape_char. repeat case_bool_decide; subst; try exact (f_equal (String _) IH).
  trans (String c (unescape (String.length text) (escape text))); [|exact (f_equal (String c) IH)].
  by destruct c as [[] [] [] [] [] [] [] []].
Qed.

End AlertsProps.
