(* ===== verification/Supervisor.v ===== *)
(** * Supervision (bin/dipper-service/src/supervisor.rs, health.rs)

    Every long-running service is a task that is not meant to end.  The
    supervisor waits for tasks to end; the first to end before a shutdown was
    asked for starts one, and once a shutdown has started the rest have a grace
    period.  What the process tells the orchestrator is the result.  The world is
    a list of things that happen with their times: a task ends, or a shutdown is
    asked for.  Times are in nanoseconds; causes are kept as data. *)

From S2P Require Import Prelude JobQueue Worker.
Import JobQueue Worker.
Local Open Scope Z_scope.

Module Supervisor.

(** ** The supervisor *)

Inductive TaskEnd : Type := TaskOk | TaskErr | TaskPanic.

Inductive Cause : Type :=
| CauseFailed (id : N)
| CausePanicked (id : N)
| CauseExited (id : N).

Inductive SuperviseError : Type :=
| CriticalExit (cause : Cause)
| GraceExceeded (remaining : nat) (cause : option Cause).

Inductive sup_event : Type :=
| ShutdownAsked
| TaskEnds (id : N) (how : TaskEnd).

Record Sup : Type := mkSup {
  su_tasks : gset N;
  su_requested : bool;
  su_deadline : option Z;
  su_first_failure : option Cause }.

Definition sup_start (tasks : gset N) : Sup := mkSup tasks false None None.

(** [get_or_insert_with] *)
Definition or_insert {A} (o : option A) (a : A) : option A :=
  match o with Some _ => o | None => Some a end.

Definition end_cause (id : N) (how : TaskEnd) : option Cause :=
  match how with
  | TaskOk => None
  | TaskErr => Some (CauseFailed id)
  | TaskPanic => Some (CausePanicked id)
  end.

Definition note_failure (failure : option Cause) (c : option Cause) : option Cause :=
  match c with Some c => or_insert failure c | None => failure end.

(** What one wake-up of the loop does, and the deadline its next pass sets. *)
Definition sup_step (grace now : Z) (ev : sup_event) (s : Sup) : Sup :=
  match ev with
  | ShutdownAsked =>
      mkSup (su_tasks s) true (or_insert (su_deadline s) (now + grace)) (su_first_failure s)
  | TaskEnds id how =>
      let failure := note_failure (su_first_failure s) (end_cause id how) in
      mkSup (su_tasks s ∖ {[ id ]}) true (or_insert (su_deadline s) (now + grace))
        (if su_requested s then failure else or_insert failure (CauseExited id))
  end.

Definition grace_exceeded (s : Sup) : result SuperviseError () :=
  Err (GraceExceeded (size (su_tasks s)) (su_first_failure s)).

(** [None]: still running when the list ends. *)
Fixpoint supervise (grace : Z) (world : list (Z * sup_event)) (s : Sup)
    : option (result SuperviseError ()) :=
  if bool_decide (su_tasks s = ∅) then
    Some (match su_first_failure s with Some c => Err (CriticalExit c) | None => Ok tt end)
  else
    match world, su_deadline s with
    | [], Some _ => Some (grace_exceeded s)
    | [], None => None
    | (now, ev) :: rest, deadline =>
        if match deadline with Some d => d <? now | None => false end
        then Some (grace_exceeded s)
        else supervise grace rest (sup_step grace now ev s)
    end.

(** ** Health *)

(** The watermarks, in seconds since the process started. *)
Definition Liveness : Type := list Z.

Definition PROCESS_JOB_TIMEOUT : Z := from_secs 420.

Definition DEFAULT_HEALTH_THRESHOLD : Z := from_secs (2 * (PROCESS_JOB_TIMEOUT / 1000000000)).

Definition register (now : Z) (slots : Liveness) : nat * Liveness := (length slots, slots ++ [now]).

Definition tick (slot : nat) (now : Z) (slots : Liveness) : Liveness :=
  <[slot := now]> slots.

(** [i64::saturating_sub] *)
Definition saturating_sub_i64 (a b : Z) : Z := Z.max (- i64_max - 1) (Z.min i64_max (a - b)).

Definition is_healthy_at (now threshold : Z) (slots : Liveness) : bool :=
  forallb (λ mark, saturating_sub_i64 now mark <=? as_i64 (threshold / 1000000000)) slots.

Definition health (now threshold : Z) (slots : Liveness) : Z :=
  if is_healthy_at now threshold slots then 200 else 503.

(** ** What the supervisor guarantees *)

(** The tasks a stretch of the world sees ending. *)
Definition ended_ids (ends : list (Z * sup_event)) : gset N :=
  list_to_set (omap (λ e, match e.2 with TaskEnds id _ => Some id | _ => None end) ends).

(** Ends by the deadline and without a failure. *)
Definition well_ended (deadline : Z) (e : Z * sup_event) : Prop :=
  e.1 ≤ deadline ∧ match e.2 with TaskEnds _ how => how = TaskOk | _ => True end.

Lemma first_failure_stays c grace now ev s :
  su_first_failure s = Some c → su_first_failure (sup_step grace now ev s) = Some c.
Proof.
  destruct s as [t r d f]. simpl. intros ->.
  destruct ev as [|id []]; simpl; by destruct r.
Qed.

Lemma grace_names c s :
  su_first_failure s = Some c → su_tasks s ≠ ∅ →
  ∃ n, (0 < n)%nat ∧ grace_exceeded s = Err (GraceExceeded n (Some c)).
Proof.
  intros Hf Ht. unfold grace_exceeded. rewrite Hf. eexists. split; [|done].
  apply Nat.neq_0_lt_0. by intros ?%size_empty_inv%leibniz_equiv.
Qed.

(** A failure noted is what the result says. *)
Lemma failure_is_named c grace world s r :
  su_first_failure s = Some c → supervise grace world s = Some r →
  r = Err (CriticalExit c) ∨ ∃ n, (0 < n)%nat ∧ r = Err (GraceExceeded n (Some c)).
Proof.
  revert s. induction world as [|[now ev] rest IH]; intros s Hf; simpl; rewrite Hf.
  - case_bool_decide as Ht; [intros [= <-]; by left|].
    destruct (su_deadline s); [intros [= <-]|done]. right. by apply grace_names.
  - case_bool_decide as Ht; [intros [= <-]; by left|].
    case_match; [intros [= <-]; right; by apply grace_names|].
    apply IH. by apply first_failure_stays.
Qed.

Lemma failure_is_reported c grace world s :
  su_first_failure s = Some c → supervise grace world s ≠ Some (Ok tt).
Proof.
  intros Hf H. by destruct (failure_is_named c grace world s _ Hf H) as [|(? & _ & ?)].
Qed.

(** Some beginning of the world ends every task well. *)
Definition ends_in_time (d : Z) (tasks : gset N) (world : list (Z * sup_event)) : Prop :=
  ∃ ends rest, world = ends ++ rest ∧ Forall (well_ended d) ends ∧ tasks ⊆ ended_ids ends.

Lemma none_left d world : ends_in_time d ∅ world.
Proof. exists [], world. split; [done|]. split; [constructor|set_solver]. Qed.

Lemma some_left d tasks : tasks ≠ ∅ → ¬ ends_in_time d tasks [].
Proof.
  intros Ht (ends & rest & Hw & _ & Hs). symmetry in Hw. apply app_eq_nil in Hw as [-> _].
  apply Ht. apply leibniz_equiv, set_subseteq_antisymm; [exact Hs|set_solver].
Qed.

Lemma ended_ids_cons e ends : ended_ids (e :: ends) = ended_ids [e] ∪ ended_ids ends.
Proof. unfold ended_ids. simpl. destruct e as [? [|]]; simpl; set_solver. Qed.

Lemma ends_one_more d tasks e rest :
  tasks ≠ ∅ →
  ends_in_time d tasks (e :: rest) ↔
  well_ended d e ∧ ends_in_time d (tasks ∖ ended_ids [e]) rest.
Proof.
  intros Ht. split.
  - intros ([|e' ends] & rest' & Hw & Hf & Hs).
    { exfalso. apply (some_left d tasks Ht). exists [], []. done. }
    injection Hw as -> ->. apply Forall_cons in Hf as [He Hf]. split; [done|].
    rewrite ended_ids_cons in Hs. exists ends, rest'. split; [done|]. split; [done|]. set_solver.
  - intros (He & ends & rest' & -> & Hf & Hs). exists (e :: ends), rest'.
    split; [done|]. split; [by constructor|]. rewrite ended_ids_cons.
    intros x Hx. destruct (decide (x ∈ ended_ids [e])); set_solver.
Qed.

(** Under way without a failure: clean exactly when what is left ends well in
    time. *)
Lemma teardown_ok grace world tasks d :
  supervise grace world (mkSup tasks true (Some d) None) = Some (Ok tt) ↔
  ends_in_time d tasks world.
Proof.
  revert tasks. induction world as [|[now ev] rest IH]; intros tasks; simpl.
  - case_bool_decide as Ht; [subst; by split; [intros _; apply none_left|]|].
    split; [done|]. by intros ?%some_left.
  - case_bool_decide as Ht; [subst; by split; [intros _; apply none_left|]|].
    rewrite ends_one_more by done. destruct (Z.ltb_spec d now) as [Hd|Hd].
    { split; [done|]. intros [[He _] _]. simpl in He. lia. }
    destruct ev as [|task how]; simpl.
    + rewrite IH. unfold well_ended. simpl.
      replace (tasks ∖ ended_ids [(now, ShutdownAsked)]) with tasks by set_solver. naive_solver.
    + replace (ended_ids [(now, TaskEnds task how)]) with ({[task]} : gset N)
        by (unfold ended_ids; simpl; set_solver).
      unfold well_ended. destruct how; simpl; [rewrite IH; naive_solver| |];
        (split; [intros H; by eapply failure_is_reported in H|by intros [[_ ?] _]]).
Qed.

(** Once anything has happened there is a deadline, so the supervisor returns. *)
Lemma deadline_returns grace world s :
  is_Some (su_deadline s) → is_Some (supervise grace world s).
Proof.
  revert s. induction world as [|[now ev] rest IH]; intros s [d Hd]; simpl; rewrite Hd.
  - by case_bool_decide.
  - case_bool_decide; [done|]. case_match; [done|]. apply IH.
    by destruct ev; simpl; rewrite Hd.
Qed.

Lemma supervise_returns grace e world tasks :
  is_Some (supervise grace (e :: world) (sup_start tasks)).
Proof.
  destruct e as [now ev]. simpl. case_bool_decide; [done|]. apply deadline_returns.
  by destruct ev.
Qed.

Lemma exits_cleanly_iff grace now ev world tasks :
  tasks ≠ ∅ →
  supervise grace ((now, ev) :: world) (sup_start tasks) = Some (Ok tt) ↔
  ev = ShutdownAsked ∧ ends_in_time (now + grace) tasks world.
Proof.
  intros Ht. simpl. rewrite bool_decide_false by done.
  destruct ev as [|task how]; simpl; [rewrite teardown_ok; naive_solver|].
  split; [|by intros []]. intros H.
  destruct how; simpl in H; by eapply failure_is_reported in H.
Qed.

(** The process exits cleanly exactly when the first thing that happens is a
    request to shut down and every task then ends well within the grace period;
    whatever happens, it exits. *)
Theorem clean_exit grace now ev world tasks :
  tasks ≠ ∅ →
  is_Some (supervise grace ((now, ev) :: world) (sup_start tasks)) ∧
  (supervise grace ((now, ev) :: world) (sup_start tasks) = Some (Ok tt) ↔
   ev = ShutdownAsked ∧ ends_in_time (now + grace) tasks world).
Proof. intros Ht. split; [apply supervise_returns|by apply exits_cleanly_iff]. Qed.

(** What went wrong first is what the error names: the task that ended before
    anything had asked it to, and how. *)
Theorem first_death_is_named grace now task how world tasks r :
  tasks ≠ ∅ →
  supervise grace ((now, TaskEnds task how) :: world) (sup_start tasks) = Some r →
  ∃ c, c = match how with TaskOk => CauseExited task | TaskErr => CauseFailed task
           | TaskPanic => CausePanicked task end ∧
    (r = Err (CriticalExit c) ∨ ∃ n, (0 < n)%nat ∧ r = Err (GraceExceeded n (Some c))).
Proof.
  intros Ht. simpl. rewrite bool_decide_false by done. intros H. eexists. split; [done|].
  eapply failure_is_named; [|exact H]. by destruct how.
Qed.

(** Three tasks, a request at 5 and a grace of 10: clean when all end well by 15,
    and not when one is late. *)
Lemma clean_exit_witness :
  supervise 10 [(5, ShutdownAsked); (6, TaskEnds 2 TaskOk); (9, TaskEnds 1 TaskOk);
                (15, TaskEnds 3 TaskOk)] (sup_start {[1; 2; 3]}%N) = Some (Ok tt) ∧
  supervise 10 [(5, ShutdownAsked); (6, TaskEnds 2 TaskOk); (9, TaskEnds 1 TaskOk);
                (16, TaskEnds 3 TaskOk)] (sup_start {[1; 2; 3]}%N)
    = Some (Err (GraceExceeded 1 None)).
Proof.
  split; [|reflexivity]. apply clean_exit; [vm_compute; discriminate|]. split; [reflexivity|].
  exists [(6, TaskEnds 2 TaskOk); (9, TaskEnds 1 TaskOk); (15, TaskEnds 3 TaskOk)], [].
  split; [reflexivity|]. split; [repeat constructor; simpl; lia|].
  unfold ended_ids. simpl. set_solver.
Defined.

(** ** What the probe reports *)

(** Everything that has ticked within the threshold keeps the probe green, one
    loop behind turns it red, whatever the others do. *)
Theorem probe_sees_the_oldest now threshold slots :
  (0 ≤ now ≤ i64_max) → Forall (λ m, 0 ≤ m ≤ now) slots →
  0 ≤ threshold / 1000000000 ≤ i64_max →
  health now threshold slots = (if decide (Forall (λ m, now - m ≤ threshold / 1000000000) slots)
                                then 200 else 503).
Proof.
  intros Hn Hs Ht. unfold health. replace (is_healthy_at now threshold slots) with
    (bool_decide (Forall (λ m, now - m ≤ threshold / 1000000000) slots)).
  { case_bool_decide; case_decide; done. }
  unfold is_healthy_at. rewrite as_i64_small by done.
  induction Hs as [|m slots Hm _ IH]; [done|]. simpl. rewrite <-IH.
  unfold saturating_sub_i64, i64_max in *.
  apply eq_true_iff_eq. rewrite andb_true_iff, Z.leb_le, !bool_decide_eq_true, Forall_cons.
  split; intros [Hx ?]; (split; [lia|done]).
Qed.

End Supervisor.
