(* ===== verification/Iisa.v ===== *)
(** * The client of the selection service (dipper-iisa/src/http_client.rs)

    How dipper asks IISA over HTTP: the request made of a selection context, the
    retries with their delays, what an answer means and how much of a rejection
    is kept.  The exchange itself, the random numbers and the JSON, hexadecimal
    and floating-point texts of libraries are behind classes.  Every attempt is
    logged with the delay before it and its outcome.  The client is an instance
    of [CandidateSelection], the interface the services are proved against.
    Delays are in milliseconds, timeouts in nanoseconds. *)

From Stdlib Require Import Ascii.
From stdpp Require Import pretty.
From S2P Require Import Prelude JobQueue Worker SeenBlocks Selection.
Import JobQueue Worker SeenBlocks Selection.
Local Open Scope Z_scope.

Module Iisa.

(** ** Configuration and messages *)

Record HttpClientConfig : Type := mkHttpConfig {
  hc_request_timeout : Z;
  hc_connect_timeout : Z;
  hc_max_retries : nat;
  hc_push_token : option string }.

Definition default_http_config : HttpClientConfig :=
  mkHttpConfig (from_secs 30) (from_secs 10) 3 None.

Record SelectionRequest : Type := mkRequest {
  sq_deployment_id : string;
  sq_existing_indexers : option (list string);
  sq_pending_agreements : option (gmap string (list string));
  sq_num_candidates : Z;
  sq_blocklist : option (list string);
  sq_declined_indexers : option (gmap string (list string));
  sq_chain_id : option string;
  sq_max_grt_per_30_days : option f64;
  sq_max_grt_per_billion_entities_per_30_days : option f64;
  sq_optimistic_dips_fees : option (gmap string f64) }.

Inductive IndexerEntry : Type :=
| WithPricing (id : string) (min_grt_per_30_days : option f64)
    (min_grt_per_billion_entities_per_30_days : option f64)
| LegacyId (id : string).

Definition SelectionResponse : Type := list IndexerEntry.

Record DipsIndexersResponse : Type := mkDipsResponse {
  dr_computed_at : option string;
  dr_indexers : list string }.

(** What [reqwest::Error] says of itself. *)
Record ReqwestError : Type := mkReqwestError {
  re_timeout : bool;
  re_connect : bool;
  re_body : bool;
  re_request : bool }.

(** The body of an answer is its text, or why it could not be read. *)
Inductive HttpOutcome : Type :=
| Answered (status : Z) (body : result string string)
| NotSent (e : ReqwestError).

Inductive HttpRequest : Type :=
| GetHealth (url : string)
| PostSelection (url : string) (request : SelectionRequest)
| GetDipsIndexers (url : string) (query : list (string * string)) (bearer : option string).

(** The network and the random numbers. *)
Class IisaNet (W : Type) : Type := {
  exchange : HttpRequest → W → HttpOutcome * W;
  random_below : Z → W → Z * W }.

Class IisaNetLaws (W : Type) `{!IisaNet W} : Prop := {
  random_below_range : ∀ hi w, 0 < hi → 0 ≤ (random_below hi w).1 < hi }.

(** The texts: an indexer as [{:#x}] and [parse] have it, a deployment, a
    number, and the JSON of the two answers. *)
Class IisaTexts : Type := {
  show_indexer : N → string;
  parse_indexer : string → option N;
  show_deployment : N → string;
  show_f64 : f64 → string;
  parse_selection : string → option SelectionResponse;
  parse_dips_indexers : string → option DipsIndexersResponse }.

Class IisaTextsLaws `{!IisaTexts} : Prop := {
  parse_show_indexer : ∀ i, parse_indexer (show_indexer i) = Some i;
  show_deployment_inj : Inj (=) (=) show_deployment }.

(** ** What may be tried again *)

Definition is_retryable_error (err : ReqwestError) : bool :=
  re_timeout err || re_connect err || re_body err || re_request err.

(** [StatusCode::is_success], [StatusCode::is_server_error] *)
Definition is_success (status : Z) : bool := (200 <=? status) && (status <? 300).
Definition is_server_error (status : Z) : bool := (500 <=? status) && (status <? 600).

Definition is_retryable_http_status (status : Z) : bool := is_server_error status.

(** ** Rejections *)

Definition MAX_REJECTION_BODY_BYTES : nat := 1024.

Fixpoint str_take (n : nat) (s : string) : string :=
  match n, s with
  | S n, String c s => String c (str_take n s)
  | _, _ => EmptyString
  end.

Fixpoint str_drop (n : nat) (s : string) : string :=
  match n, s with
  | O, _ => s
  | S n, String _ s => str_drop n s
  | S _, EmptyString => EmptyString
  end.

(** A byte inside a UTF-8 character, [10xxxxxx]. *)
Definition is_continuation (c : ascii) : bool :=
  (128 <=? nat_of_ascii c)%nat && (nat_of_ascii c <? 192)%nat.

(** [str::is_char_boundary] *)
Definition is_char_boundary (s : string) (i : nat) : bool :=
  (i =? 0)%nat ||
  match str_drop i s with
  | EmptyString => (i =? String.length s)%nat
  | String c _ => negb (is_continuation c)
  end.

Fixpoint char_cut (body : string) (cut : nat) : nat :=
  if is_char_boundary body cut then cut
  else match cut with O => O | S cut => char_cut body cut end.

Definition truncate_rejection_body (body : string) : string :=
  if (String.length body <=? MAX_REJECTION_BODY_BYTES)%nat then body
  else str_take (char_cut body MAX_REJECTION_BODY_BYTES) body +:+ "... (" +:+
       pretty (String.length body) +:+ " bytes in total)".

Definition rejection (status : Z) (body : result string string) : SelectionError :=
  IisaRejected status
    match body with
    | Ok body => truncate_rejection_body body
    | Err e => "<could not read the response body: " +:+ e +:+ ">"
    end.

(** ** The request made of a context *)

Section requests.
Context `{!IisaTexts}.

(** Each deployment with its indexers, as text. *)
Definition show_groups (groups : gmap N (list N)) : gmap string (list string) :=
  kmap (M2 := gmap string) show_deployment ((λ ids : list N, show_indexer <$> ids) <$> groups).

Definition format_existing_indexers (context : SelectionContext) : option (list string) :=
  if bool_decide (sx_existing_indexers context = []) then None
  else Some (show_indexer <$> sx_existing_indexers context).

Definition format_pending_agreements (context : SelectionContext)
    : option (gmap string (list string)) :=
  if bool_decide (sx_pending_agreements context = ∅) then None
  else Some (show_groups (sx_pending_agreements context)).

Definition format_blocklist (context : SelectionContext) : option (list string) :=
  if bool_decide (sx_indexer_denylist context = []) then None
  else Some (show_indexer <$> sx_indexer_denylist context).

Definition format_optimistic_dips_fees (context : SelectionContext) : option (gmap string f64) :=
  if bool_decide (sx_optimistic_dips_fees context = ∅) then None
  else Some (kmap (M2 := gmap string) show_indexer (sx_optimistic_dips_fees context)).

Definition format_declined_indexers (context : SelectionContext)
    : option (gmap string (list string)) :=
  if bool_decide (sx_declined_indexers context = ∅) then None
  else Some (show_groups (sx_declined_indexers context)).

Definition selection_request (deployment_id : N) (num_candidates : Z)
    (context : SelectionContext) : SelectionRequest :=
  mkRequest (show_deployment deployment_id) (format_existing_indexers context)
    (format_pending_agreements context) num_candidates (format_blocklist context)
    (format_declined_indexers context) (sx_chain_id context) (sx_max_grt_per_30_days context)
    (sx_max_grt_per_billion_entities_per_30_days context) (format_optimistic_dips_fees context).

Definition dips_query (chain : string) (ceilings : PriceCeilings) : list (string * string) :=
  [("chain", chain)]
  ++ match pc_max_grt_per_30_days ceilings with
     | Some max_grt => [("max_grt_per_30_days", show_f64 max_grt)]
     | None => []
     end
  ++ match pc_max_grt_per_billion_entities_per_30_days ceilings with
     | Some max_grt => [("max_grt_per_billion_entities_per_30_days", show_f64 max_grt)]
     | None => []
     end.

(** ** Reading an answer *)

Definition read_entry (entry : IndexerEntry) : option SelectedIndexer :=
  let '(id_str, min_grt, min_entity_grt) :=
    match entry with
    | WithPricing i min_grt min_entity_grt => (i, min_grt, min_entity_grt)
    | LegacyId i => (i, None, None)
    end in
  (λ i, mkSelected i min_grt min_entity_grt) <$> parse_indexer id_str.

Definition read_selection (response : SelectionResponse) : list SelectedIndexer :=
  omap read_entry response.

Definition read_dips_indexers (response : DipsIndexersResponse) : DipsAcceptingSnapshot :=
  mkSnapshot (dr_computed_at response) (omap parse_indexer (dr_indexers response)).

End requests.

(** ** The client *)

Record Sent : Type := mkSent {
  st_delay : option Z;
  st_request : HttpRequest;
  st_outcome : HttpOutcome }.

Record HttpIisaClient (W : Type) : Type := mkClient {
  hi_endpoint : string;
  hi_config : HttpClientConfig;
  hi_world : W;
  hi_sent : list Sent }.
Arguments mkClient {W} _ _ _ _.
Arguments hi_endpoint {W} _.
Arguments hi_config {W} _.
Arguments hi_world {W} _.
Arguments hi_sent {W} _.

Fixpoint ends_with_slash (s : string) : bool :=
  match s with
  | EmptyString => false
  | String c EmptyString => bool_decide (c = "/"%char)
  | String _ s => ends_with_slash s
  end.

Definition with_config {W} (endpoint : string) (config : HttpClientConfig) (w : W)
    : HttpIisaClient W :=
  mkClient (if ends_with_slash endpoint then endpoint else endpoint +:+ "/") config w [].

(** [u64::saturating_pow] of 2 *)
Definition sat_pow2_u64 (n : Z) : Z := Z.min (2 ^ n) u64_max.

Definition BASE_MS : Z := 100.
Definition MAX_MS : Z := 5000.

(** The delay before jitter; [attempt] is a [u32]. *)
Definition capped_delay (attempt : Z) : Z :=
  Z.min (sat_mul_u64 BASE_MS (sat_pow2_u64 (Z.max 0 (attempt - 1)))) MAX_MS.

Section client.
Context {W : Type} `{!IisaNet W} `{!IisaTexts}.
Notation Client := (HttpIisaClient W).

Definition calculate_http_delay (attempt : Z) (w : W) : Z * W :=
  let capped := capped_delay attempt in
  let jitter_range := capped / 4 in
  if jitter_range =? 0 then (capped, w)
  else
    let '(jitter, w) := random_below (jitter_range * 2) w in
    (Z.min (Z.max 0 (capped - jitter_range) + jitter) u64_max, w).

Definition http_send (delay : option Z) (request : HttpRequest) (c : Client)
    : HttpOutcome * Client :=
  let '(outcome, w) := exchange request (hi_world c) in
  (outcome, mkClient (hi_endpoint c) (hi_config c) w
              (hi_sent c ++ [mkSent delay request outcome])).

(** The pause before an attempt; the first has none. *)
Definition http_pause (attempt : Z) (c : Client) : option Z * Client :=
  if 0 <? attempt then
    let '(delay, w) := calculate_http_delay attempt (hi_world c) in
    (Some delay, mkClient (hi_endpoint c) (hi_config c) w (hi_sent c))
  else (None, c).

(** What an outcome settles; [None]: try again. *)
Definition verdict {T} (parse : string → option T) (outcome : HttpOutcome)
    : option (result SelectionError T) :=
  match outcome with
  | Answered status body =>
      if is_success status then
        Some match body with
             | Ok text => from_option Ok (Err SelectionFailed) (parse text)
             | Err _ => Err SelectionFailed
             end
      else if is_retryable_http_status status then None
      else Some (Err (rejection status body))
  | NotSent e => if is_retryable_error e then None else Some (Err SelectionFailed)
  end.

Fixpoint http_attempts {T} (parse : string → option T) (request : HttpRequest) (tries : nat)
    (attempt : Z) (last_error : SelectionError) (c : Client) : result SelectionError T * Client :=
  match tries with
  | O => (Err last_error, c)
  | S tries =>
      let '(delay, c) := http_pause attempt c in
      let '(outcome, c) := http_send delay request c in
      match verdict parse outcome with
      | Some r => (r, c)
      | None => http_attempts parse request tries (attempt + 1) IisaServiceUnavailable c
      end
  end.

Definition post_with_retry {T} (parse : string → option T) (url : string)
    (request : SelectionRequest) (c : Client) : result SelectionError T * Client :=
  http_attempts parse (PostSelection url request) (S (hc_max_retries (hi_config c))) 0
    IisaServiceUnavailable c.

Definition get_dips_indexers (chain : string) (ceilings : PriceCeilings) (c : Client)
    : result SelectionError DipsIndexersResponse * Client :=
  http_attempts parse_dips_indexers
    (GetDipsIndexers (hi_endpoint c +:+ "dips-indexers") (dips_query chain ceilings)
       (hc_push_token (hi_config c)))
    (S (hc_max_retries (hi_config c))) 0 IisaServiceUnavailable c.

Definition health_check (c : Client) : result SelectionError bool * Client :=
  let '(outcome, c) := http_send None (GetHealth (hi_endpoint c +:+ "health")) c in
  (match outcome with
   | Answered status _ => Ok (is_success status)
   | NotSent _ => Err SelectionFailed
   end, c).

Definition http_select_indexers (deployment_id : N) (num_candidates : Z)
    (context : SelectionContext) (c : Client)
    : result SelectionError (list SelectedIndexer) * Client :=
  if num_candidates =? 0 then (Ok [], c)
  else
    let '(r, c) := post_with_retry parse_selection (hi_endpoint c +:+ "select-indexers")
                     (selection_request deployment_id num_candidates context) c in
    (match r with Ok response => Ok (read_selection response) | Err e => Err e end, c).

Definition http_dips_accepting_indexers (chain : string) (ceilings : PriceCeilings) (c : Client)
    : result SelectionError DipsAcceptingSnapshot * Client :=
  let '(r, c) := get_dips_indexers chain ceilings c in
  (match r with Ok response => Ok (read_dips_indexers response) | Err e => Err e end, c).

#[export] Instance HttpSelection : CandidateSelection Client := {|
  select_indexers := http_select_indexers;
  dips_accepting_indexers := http_dips_accepting_indexers |}.

End client.

End Iisa.
