(* ===== verification/IisaProps.v ===== *)
(** * What the selection client guarantees (dipper-iisa/src/http_client.rs)

    A call makes no more attempts than configured, all with the same request,
    tries again only what may pass, and waits longer each time within limits;
    the request tells IISA the whole context; a rejection is cut between
    characters. *)

From Stdlib Require Import Ascii.
From stdpp Require Import pretty.
From S2P Require Import Prelude JobQueue Worker SeenBlocks Selection Iisa.
Import JobQueue Worker SeenBlocks Selection Iisa.
Local Open Scope Z_scope.

Module IisaProps.

(** ** Delays *)

Lemma capped_delay_eq k : 1 ≤ k → capped_delay k = Z.min (100 * 2 ^ (k - 1)) 5000.
Proof.
  intros Hk. unfold capped_delay, sat_mul_u64, sat_pow2_u64, BASE_MS, MAX_MS, u64_max.
  rewrite Z.max_r by lia. assert (0 < 2 ^ (k - 1)) by (apply Z.pow_pos_nonneg; lia). lia.
Qed.

(** No wait before the first attempt; before the [k]-th retry, a quarter more or
    less than [min (100 * 2^(k-1)) 5000] milliseconds. *)
Definition delay_ok (k : Z) (delay : option Z) : Prop :=
  if 0 <? k
  then ∃ ms, delay = Some ms ∧ 3 * Z.min (100 * 2 ^ (k - 1)) 5000 ≤ 4 * ms ∧
             4 * ms < 5 * Z.min (100 * 2 ^ (k - 1)) 5000
  else delay = None.

Section client.
Context {W : Type} `{!IisaNet W} `{!IisaNetLaws W} {texts : IisaTexts}.

Lemma pause_in_bounds k (c c' : HttpIisaClient W) delay :
  http_pause k c = (delay, c') →
  delay_ok k delay ∧ hi_endpoint c' = hi_endpoint c ∧ hi_config c' = hi_config c ∧
  hi_sent c' = hi_sent c.
Proof.
  unfold http_pause, delay_ok. destruct (Z.ltb_spec 0 k) as [Hk|]; [|by intros [= <- <-]].
  unfold calculate_http_delay. rewrite capped_delay_eq by lia.
  assert (0 < 2 ^ (k - 1)) as Hp by (apply Z.pow_pos_nonneg; lia).
  set (p := 2 ^ (k - 1)) in *. set (capped := Z.min (100 * p) 5000).
  assert (4 * (capped / 4) = capped ∧ 100 ≤ capped ≤ 5000) as [Hq Hc].
  { unfold capped. destruct (Z.min_spec (100 * p) 5000) as [[Hm ->]|[_ ->]]; [|done].
    replace (100 * p) with (25 * p * 4) by ring. rewrite Z.div_mul by done. lia. }
  destruct (Z.eqb_spec (capped / 4) 0); [lia|].
  destruct (random_below (capped / 4 * 2) (hi_world c)) as [j w] eqn:Er.
  pose proof (random_below_range (capped / 4 * 2) (hi_world c)) as Hj. rewrite Er in Hj.
  simpl in Hj. intros [= <- <-]. split; [|done]. eexists. split; [done|]. unfold u64_max. lia.
Qed.

(** ** Attempts *)

(** The attempts of one call: [first] is the number of the first of them. *)
Record attempts_ok {T} (parse : string → option T) (request : HttpRequest) (first : Z)
    (tries : nat) (sent : list Sent) : Prop := {
  ao_few : (length sent ≤ tries)%nat;
  ao_same : Forall (λ x, st_request x = request) sent;
  ao_delays : ∀ (i : nat) x, sent !! i = Some x → delay_ok (first + Z.of_nat i) (st_delay x);
  ao_retried : ∀ (i : nat) x, sent !! i = Some x → (S i < length sent)%nat →
    verdict parse (st_outcome x) = None }.

Definition same_client (c c' : HttpIisaClient W) : Prop :=
  hi_endpoint c' = hi_endpoint c ∧ hi_config c' = hi_config c.

Lemma attempts_ok_cons {T} (parse : string → option T) request first tries x sent :
  st_request x = request → delay_ok first (st_delay x) → verdict parse (st_outcome x) = None →
  attempts_ok parse request (first + 1) tries sent →
  attempts_ok parse request first (S tries) (x :: sent).
Proof.
  intros Hr Hd Hv [Hf Hs Hds Hrs]. split; simpl; [lia|by constructor|..].
  - intros [|i] y; simpl; [intros [= ->]; by rewrite Z.add_0_r|].
    intros Hy. apply Hds in Hy. by replace (first + Z.of_nat (S i)) with (first + 1 + Z.of_nat i) by lia.
  - intros [|i] y; simpl; [by intros [= ->]|]. intros Hy Hi. apply (Hrs i y Hy). lia.
Qed.

Lemma attempts_ok_one {T} (parse : string → option T) request first tries x :
  st_request x = request → delay_ok first (st_delay x) →
  attempts_ok parse request first (S tries) [x].
Proof.
  intros Hr Hd. split; simpl; [lia|by repeat constructor|..].
  - intros [|i] y; [|done]. intros [= ->]. by rewrite Z.add_0_r.
  - lia.
Qed.

Lemma attempts_trace {T} (parse : string → option T) request tries first e c r c' :
  http_attempts parse request (S tries) first e c = (r, c') →
  ∃ sent x, hi_sent c' = hi_sent c ++ sent ++ [x] ∧ same_client c c' ∧
    attempts_ok parse request first (S tries) (sent ++ [x]) ∧
    r = default (Err IisaServiceUnavailable) (verdict parse (st_outcome x)) ∧
    (verdict parse (st_outcome x) = None → length sent = tries).
Proof.
  revert first e c. induction tries as [|tries IH]; intros first e c; simpl;
    destruct (http_pause first c) as [delay c1] eqn:Ep; apply pause_in_bounds in Ep;
    destruct Ep as (Hd & He & Hc & Hs); unfold http_send at 1;
    destruct (exchange request (hi_world c1)) as [o w] eqn:Ex;
    set (x := mkSent delay request o).
  - intros H. exists [], x. destruct (verdict parse o) eqn:Ev; injection H as <- <-; simpl;
      rewrite Ev, Hs; (split; [done|]); (split; [done|]);
      (split; [by apply attempts_ok_one|done]).
  - destruct (verdict parse o) as [v|] eqn:Ev; intros H.
    { injection H as <- <-. exists [], x. simpl. rewrite Ev, Hs. split; [done|].
      split; [done|]. split; [by apply attempts_ok_one|done]. }
    apply (IH (first + 1) IisaServiceUnavailable) in H as (sent & y & Hl & [He' Hc'] & Ha & Hr & Hn).
    simpl in *. exists (x :: sent), y. split; [by rewrite Hl, Hs, <-!app_assoc|].
    split; [by split; congruence|]. split; [|split; [done|]].
    + by apply attempts_ok_cons.
    + intros Hy. simpl. by rewrite Hn.
Qed.

(** A selection with a target asks at least once and at most the configured
    number of times, always the same question; it asks again only after a
    server error or a failure of the network, waiting longer each time; the
    first outcome of another kind settles the call, and when there is none the
    service is reported unavailable after the last attempt. *)
Theorem selection_asks_until_settled dep n context (c : HttpIisaClient W) r c' :
  n ≠ 0 →
  http_select_indexers dep n context c = (r, c') →
  let asked := PostSelection (hi_endpoint c +:+ "select-indexers") (selection_request dep n context) in
  ∃ sent x, hi_sent c' = hi_sent c ++ sent ++ [x] ∧ same_client c c' ∧
    attempts_ok parse_selection asked 0 (S (hc_max_retries (hi_config c))) (sent ++ [x]) ∧
    r = match verdict parse_selection (st_outcome x) with
        | Some (Ok response) => Ok (omap read_entry response)
        | Some (Err e) => Err e
        | None => Err IisaServiceUnavailable
        end ∧
    (verdict parse_selection (st_outcome x) = None → length sent = hc_max_retries (hi_config c)).
Proof.
  intros Hn. unfold http_select_indexers. rewrite (proj2 (Z.eqb_neq n 0)) by done.
  unfold post_with_retry. destruct (http_attempts _ _ _ _ _ c) as [v c1] eqn:E. intros [= <- <-].
  destruct (attempts_trace _ _ _ _ _ _ _ _ E) as (sent & x & Hl & Hc & Ha & -> & Hx).
  exists sent, x. split; [done|]. split; [done|]. split; [done|]. split; [|done].
  by destruct (verdict _ _) as [[]|].
Qed.

(** The same of the question for the indexers that accept. *)
Lemma snapshot_asks_until_settled chain ceilings (c : HttpIisaClient W) r c' :
  http_dips_accepting_indexers chain ceilings c = (r, c') →
  let asked := GetDipsIndexers (hi_endpoint c +:+ "dips-indexers") (dips_query chain ceilings)
                 (hc_push_token (hi_config c)) in
  ∃ sent x, hi_sent c' = hi_sent c ++ sent ++ [x] ∧ same_client c c' ∧
    attempts_ok parse_dips_indexers asked 0 (S (hc_max_retries (hi_config c))) (sent ++ [x]) ∧
    r = match verdict parse_dips_indexers (st_outcome x) with
        | Some (Ok response) => Ok (read_dips_indexers response)
        | Some (Err e) => Err e
        | None => Err IisaServiceUnavailable
        end ∧
    (verdict parse_dips_indexers (st_outcome x) = None →
     length sent = hc_max_retries (hi_config c)).
Proof.
  unfold http_dips_accepting_indexers, get_dips_indexers.
  destruct (http_attempts _ _ _ _ _ c) as [v c1] eqn:E. intros [= <- <-].
  destruct (attempts_trace _ _ _ _ _ _ _ _ E) as (sent & x & Hl & Hc & Ha & -> & Hx).
  exists sent, x. split; [done|]. split; [done|]. split; [done|]. split; [|done].
  by destruct (verdict _ _) as [[]|].
Qed.

Lemma no_target_asks_nothing dep context (c : HttpIisaClient W) :
  http_select_indexers dep 0 context c = (Ok [], c).
Proof. done. Qed.

End client.

(** ** Requests *)

Section requests.
Context {texts : IisaTexts} {texts_ok : IisaTextsLaws}.

#[export] Instance show_indexer_inj : Inj (=) (=) show_indexer.
Proof.
  intros i j Hij. apply (f_equal parse_indexer) in Hij. rewrite !parse_show_indexer in Hij.
  by injection Hij.
Qed.

#[export] Instance show_deployment_injective : Inj (=) (=) show_deployment := show_deployment_inj.

#[export] Instance show_groups_inj : Inj (=) (=) show_groups.
Proof.
  intros m1 m2 Hm. unfold show_groups in Hm. apply (inj (kmap show_deployment)) in Hm.
  apply map_eq. intros k. apply (f_equal (.!! k)) in Hm. rewrite !lookup_fmap in Hm.
  apply (inj (fmap (M := option) (fmap (M := list) show_indexer)) _ _ Hm).
Qed.

(** [None] stands for the empty collection, and nothing else does. *)
Lemma unless_empty_inj {A B} (f : A → B) `{!Inj (=) (=) f} (e : A)
    (x y : A) `{!Decision (x = e)} `{!Decision (y = e)} :
  (if bool_decide (x = e) then None else Some (f x)) =
  (if bool_decide (y = e) then None else Some (f y)) → x = y.
Proof.
  do 2 case_bool_decide; [congruence|done..|]. intros [= Hxy]. by apply (inj f).
Qed.

(** The request tells IISA the whole question: two contexts, targets or
    deployments that differ make requests that differ, with an empty list or map
    left out and never mistaken for another. *)
Theorem requests_are_faithful dep1 n1 context1 dep2 n2 context2 :
  selection_request dep1 n1 context1 = selection_request dep2 n2 context2 ↔
  dep1 = dep2 ∧ n1 = n2 ∧ context1 = context2.
Proof.
  split; [|by intros (-> & -> & ->)]. unfold selection_request.
  destruct context1 as [e1 p1 b1 d1 c1 g1 h1 f1], context2 as [e2 p2 b2 d2 c2 g2 h2 f2].
  unfold format_existing_indexers, format_pending_agreements, format_blocklist,
    format_declined_indexers, format_optimistic_dips_fees. simpl.
  intros [= Hdep He Hp Hn Hb Hd -> -> -> Hf]. apply (inj show_deployment) in Hdep as ->.
  apply (unless_empty_inj (fmap (M := list) show_indexer)) in He as ->.
  apply (unless_empty_inj (fmap (M := list) show_indexer)) in Hb as ->.
  apply (unless_empty_inj show_groups) in Hp as ->.
  apply (unless_empty_inj show_groups) in Hd as ->.
  apply (unless_empty_inj (λ m : gmap N f64, kmap (M2 := gmap string) show_indexer m)) in Hf as ->.
  done.
Qed.

(** Indexers read back from the text dipper writes keep their order and their
    prices; entries that are no indexer are left out. *)
Lemma echoed_group_is_read (group : list SelectedIndexer) :
  read_selection ((λ s, WithPricing (show_indexer (si_id s)) (si_min_grt_per_30_days s)
    (si_min_grt_per_billion_entities_per_30_days s)) <$> group) = group.
Proof.
  unfold read_selection. induction group as [|[i a b] group IH]; [done|]. simpl.
  unfold read_entry at 1. rewrite parse_show_indexer. simpl. f_equal. exact IH.
Qed.

End requests.

(** ** Rejections *)

(** UTF-8 text as far as the cut sees it: characters of a leading byte and up to
    three more. *)
Fixpoint all_continuation (s : string) : Prop :=
  match s with
  | EmptyString => True
  | String c s => is_continuation c = true ∧ all_continuation s
  end.

Inductive utf8_text : string → Prop :=
| utf8_end : utf8_text EmptyString
| utf8_char lead more rest :
    is_continuation lead = false → all_continuation more → (String.length more ≤ 3)%nat →
    utf8_text rest → utf8_text (String lead (more +:+ rest)).

Lemma str_take_app a b : str_take (String.length a) (a +:+ b) = a.
Proof. induction a as [|c a IH]; simpl; [by destruct b|by f_equal]. Qed.

Lemma str_drop_app a b : str_drop (String.length a) (a +:+ b) = b.
Proof. by induction a. Qed.

Lemma str_drop_within n a b :
  (n < String.length a)%nat → all_continuation a →
  ∃ c s, str_drop n (a +:+ b) = String c s ∧ is_continuation c = true.
Proof.
  revert n. induction a as [|x a IH]; intros n; simpl; [lia|]. intros Hn [Hx Ha].
  destruct n; simpl; [eauto|]. apply IH; [lia|done].
Qed.

Lemma str_length_app a b :
  String.length (a +:+ b) = (String.length a + String.length b)%nat.
Proof. induction a as [|x a IH]; [done|]. simpl. by rewrite IH. Qed.

Lemma str_app_assoc (a b c : string) : a +:+ (b +:+ c) = (a +:+ b) +:+ c.
Proof. induction a as [|x a IH]; [done|]. exact (f_equal (String x) IH). Qed.

(** A split between characters. *)
Definition split_at (s : string) (n : nat) (a b : string) : Prop :=
  s = a +:+ b ∧ String.length a = n ∧ utf8_text a ∧ utf8_text b.

Lemma split_is_boundary s n a b : split_at s n a b → is_char_boundary s n = true.
Proof.
  intros (-> & <- & _ & Hb). unfold is_char_boundary. rewrite str_drop_app.
  apply orb_true_intro. right. destruct Hb as [|lead more rest -> _ _ _]; [|done].
  rewrite str_length_app. simpl. by rewrite Nat.add_0_r, Nat.eqb_refl.
Qed.

Lemma split_char lead more rest n a b :
  is_continuation lead = false → all_continuation more → (String.length more ≤ 3)%nat →
  split_at rest n a b →
  split_at (String lead (more +:+ rest)) (S (String.length more + n)) (String lead (more +:+ a)) b.
Proof.
  intros Hl Hm H3 (-> & <- & Ha & Hb). split; [simpl; by rewrite str_app_assoc|].
  split; [simpl; by rewrite str_length_app|]. split; [by apply utf8_char|done].
Qed.

Lemma boundary_splits s n :
  utf8_text s → (n ≤ String.length s)%nat → is_char_boundary s n = true → ∃ a b, split_at s n a b.
Proof.
  intros Hs. revert n. induction Hs as [|lead more rest Hl Hm H3 Hr IH]; intros n Hn Hb.
  { simpl in Hn. exists EmptyString, EmptyString. split; [done|]. simpl.
    split; [lia|by split; constructor]. }
  destruct n as [|n].
  { exists EmptyString. eexists. split; [done|]. split; [done|]. split; by constructor. }
  unfold is_char_boundary in Hb. simpl in Hb, Hn. rewrite str_length_app in Hn.
  destruct (decide (n < String.length more)%nat) as [Hlt|Hge].
  { destruct (str_drop_within n more rest Hlt Hm) as (c & s & E & Hc). rewrite E, Hc in Hb. done. }
  destruct (IH (n - String.length more)%nat) as (a & b & Hab); [lia| |].
  - unfold is_char_boundary. destruct (Nat.eqb_spec (n - String.length more) 0); [done|]. simpl.
    assert (str_drop n (more +:+ rest) = str_drop (n - String.length more) rest) as E.
    { clear -Hge. revert n Hge. induction more as [|x more IH]; intros n Hge; simpl in *.
      { by rewrite Nat.sub_0_r. } destruct n; [lia|]. simpl. apply IH. lia. }
    rewrite E in Hb. destruct (str_drop _ rest); [|done].
    rewrite str_length_app in Hb. apply Nat.eqb_eq in Hb. apply Nat.eqb_eq. lia.
  - exists (String lead (more +:+ a)), b.
    replace (S n) with (S (String.length more + (n - String.length more))) by lia.
    by apply split_char.
Qed.

Lemma split_nearby s n :
  utf8_text s → (n ≤ String.length s)%nat →
  ∃ k a b, (k ≤ 3 ∧ k ≤ n)%nat ∧ split_at s (n - k) a b.
Proof.
  intros Hs. revert n. induction Hs as [|lead more rest Hl Hm H3 Hr IH]; intros n Hn.
  { exists 0%nat, EmptyString, EmptyString. simpl in Hn. split; [lia|]. split; [done|].
    split; [simpl; lia|by split; constructor]. }
  simpl in Hn. rewrite str_length_app in Hn.
  destruct (decide (n ≤ String.length more)%nat) as [Hle|Hgt].
  { exists n, EmptyString, (String lead (more +:+ rest)). split; [lia|]. split; [done|].
    rewrite Nat.sub_diag. split; [done|]. split; by constructor. }
  destruct (IH (n - S (String.length more))%nat) as (k & a & b & Hk & Hab); [lia|].
  exists k, (String lead (more +:+ a)), b. split; [lia|].
  replace (n - k)%nat with (S (String.length more + (n - S (String.length more) - k))) by lia.
  by apply split_char.
Qed.

Lemma char_cut_spec s n :
  is_char_boundary s (char_cut s n) = true ∧ (char_cut s n ≤ n)%nat ∧
  ∀ m, (m ≤ n)%nat → is_char_boundary s m = true → (m ≤ char_cut s n)%nat.
Proof.
  induction n as [|n (IHb & IHn & IHm)]; simpl;
    [by split; [|split; [lia|intros; lia]]|].
  destruct (is_char_boundary s (S n)) eqn:E; [by split; [|split; [lia|]]|].
  split; [done|]. split; [lia|]. intros m Hm Hb.
  destruct (decide (m = S n)) as [->|]; [congruence|]. apply IHm; [lia|done].
Qed.

(** A rejection's body is kept whole up to 1024 bytes; a longer one is cut
    between characters, at most three bytes short of that, and says how long it
    was. *)
Theorem rejections_are_cut_between_characters body :
  utf8_text body →
  (String.length body ≤ 1024)%nat ∧ truncate_rejection_body body = body ∨
  ∃ kept lost, split_at body (String.length kept) kept lost ∧
    (1021 ≤ String.length kept ≤ 1024)%nat ∧ (1024 < String.length body)%nat ∧
    truncate_rejection_body body =
      kept +:+ "... (" +:+ pretty (String.length body) +:+ " bytes in total)".
Proof.
  intros Hu. unfold truncate_rejection_body. change MAX_REJECTION_BODY_BYTES with 1024%nat.
  destruct (Nat.leb_spec (String.length body) 1024) as [Hle|Hgt]; [by left|]. right.
  destruct (char_cut_spec body 1024) as (Hb & Hn & Hm).
  destruct (split_nearby body 1024 Hu ltac:(lia)) as (k & a & b & Hk & Hs).
  specialize (Hm (1024 - k)%nat ltac:(lia) (split_is_boundary _ _ _ _ Hs)).
  destruct (boundary_splits body (char_cut body 1024) Hu ltac:(clear -Hn Hgt; lia) Hb) as (kept & lost & Hsp).
  pose proof Hsp as (Hbody & Hlen & _). exists kept, lost. rewrite Hlen. split; [done|].
  split; [clear -Hn Hm Hk; lia|]. split; [done|]. by rewrite <-Hlen, Hbody, str_take_app, <-Hbody.
Qed.

(** ** A network that answers from a list *)

#[export] Instance ScriptedNet : IisaNet (list HttpOutcome) := {|
  exchange := λ _ w, match w with
                     | o :: w => (o, w)
                     | [] => (NotSent (mkReqwestError true false false false), [])
                     end;
  random_below := λ hi w, (hi / 2, w) |}.

#[export] Instance scripted_net_ok : IisaNetLaws (list HttpOutcome).
Proof.
  split. intros hi w Hhi. simpl. split; [apply Z.div_pos; lia|apply Z.div_lt; lia].
Qed.

(** Texts in unary; the answers name one indexer each. *)
Fixpoint unary (n : nat) : string :=
  match n with O => EmptyString | S n => String "x" (unary n) end.

Lemma unary_length n : String.length (unary n) = n.
Proof. induction n as [|n IH]; [done|]. simpl. by rewrite IH. Qed.

#[export] Instance UnaryTexts : IisaTexts := {|
  show_indexer := λ i, unary (N.to_nat i);
  parse_indexer := λ s, Some (N.of_nat (String.length s));
  show_deployment := λ d, unary (N.to_nat d);
  show_f64 := λ _, "0"%string;
  parse_selection := λ s, Some [LegacyId s];
  parse_dips_indexers := λ s, Some (mkDipsResponse None [s]) |}.

#[export] Instance unary_texts_ok : IisaTextsLaws.
Proof.
  split; simpl.
  - intros i. by rewrite unary_length, N2Nat.id.
  - intros i j Hij. apply (f_equal String.length) in Hij. rewrite !unary_length in Hij.
    by apply N2Nat.inj.
Qed.

Definition demo_context : SelectionContext := mkContext [2%N] ∅ [] {[7%N := [3%N]]} None None None ∅.

(** Two server errors and an answer: three attempts, and the indexer of the
    answer. *)
Definition demo_iisa_client : HttpIisaClient (list HttpOutcome) :=
  with_config "http://iisa" default_http_config
    [Answered 503 (Ok "busy"%string); Answered 500 (Ok "down"%string); Answered 200 (Ok "xxx"%string)].

Lemma selection_asks_until_settled_witness :
  ∃ c' : HttpIisaClient (list HttpOutcome),
    http_select_indexers 7 2 demo_context demo_iisa_client = (Ok [mkSelected 3 None None], c') ∧
    st_delay <$> hi_sent c' = [None; Some 100; Some 200] ∧
    ∃ sent x, hi_sent c' = hi_sent demo_iisa_client ++ sent ++ [x] ∧
      attempts_ok parse_selection (PostSelection "http://iisa/select-indexers"
        (selection_request 7 2 demo_context)) 0 4 (sent ++ [x]).
Proof.
  eexists. split; [vm_compute; reflexivity|]. split; [vm_compute; reflexivity|].
  destruct (selection_asks_until_settled 7 2 demo_context demo_iisa_client
              (http_select_indexers 7 2 demo_context demo_iisa_client).1
              (http_select_indexers 7 2 demo_context demo_iisa_client).2)
    as (sent & x & Hl & _ & Ha & _); [discriminate|by destruct (http_select_indexers _ _ _ _)|].
  exists sent, x. split; [exact Hl|exact Ha].
Defined.

Lemma requests_are_faithful_witness :
  selection_request 7 2 demo_context ≠ selection_request 7 3 demo_context.
Proof. intros H. apply (requests_are_faithful (texts_ok := unary_texts_ok)) in H. lia. Defined.

(** A body of 1023 bytes and a character of two more is cut before the
    character. *)
Definition long_body : string :=
  unary 1023 +:+ String (ascii_of_nat 195) (String (ascii_of_nat 169) (unary 10)).

Lemma utf8_unary n s : utf8_text s → utf8_text (unary n +:+ s).
Proof.
  intros Hs. induction n as [|n IH]; [done|].
  apply (utf8_char "x" EmptyString); [done..|simpl; lia|exact IH].
Qed.

Lemma rejections_are_cut_between_characters_witness :
  truncate_rejection_body long_body = unary 1023 +:+ "... (1035 bytes in total)" ∧
  ∃ kept lost, split_at long_body (String.length kept) kept lost ∧
    (1021 ≤ String.length kept ≤ 1024)%nat.
Proof.
  split; [vm_compute; reflexivity|].
  destruct (rejections_are_cut_between_characters long_body) as [[H _]|(kept & lost & Hs & Hk & _)].
  - apply utf8_unary. apply (utf8_char _ (String (ascii_of_nat 169) EmptyString) (unary 10));
      [reflexivity|by split|simpl; lia|]. apply (utf8_unary 10 EmptyString). constructor.
  - exfalso. vm_compute in H. lia.
  - exists kept, lost. split; [exact Hs|exact Hk].
Defined.

End IisaProps.
