(* ===== verification/Caches.v ===== *)
(** * The caches of the payments subgraph
    (network/service/indexer_urls.rs, network/service/entity_count_cache.rs,
    network/provider.rs)

    Two services read a whole collection of the subgraph page by page and keep
    it in memory: the URLs of the registered indexers, and how many entities each
    indexer stores of a deployment.  The subgraph is behind a class; the parsers
    of ids and URLs are parameters.  The loop over the pages is the code's, with
    fuel; that it ends is proved in [CachesProps].  The errors GraphQL sends
    beside a page are only logged. *)

From S2P Require Import Prelude JobQueue Worker ChainEvents SeenBlocks Selection Iisa.
Import ChainEvents Selection Iisa.
Local Open Scope Z_scope.

Module Caches.

Definition URL_PAGE_SIZE : nat := 1000.
Definition COUNT_PAGE_SIZE : nat := 1000.
Definition ZERO_ADDRESS_TEXT : string := "0x0000000000000000000000000000000000000000".

(** An answer's status, and its body as decoded: [PageResponse::data]. *)
Inductive PageReply (E : Type) : Type :=
| PageNotSent
| PageHttp (status : Z) (decoded : option (option (list E))).
Arguments PageNotSent {E}.
Arguments PageHttp {E} _ _.

(** The subgraph, asked for the page after an id. *)
Class PageHost (E W : Type) : Type :=
  post_page : string → W → PageReply E * W.

Inductive PageError : Type :=
| PageQueryFailed
| PageRefused (status : Z)
| PageUndecodable
| PageSubgraphErrors.

Section pages.
Context {E W : Type} `{!PageHost E W}.

Definition fetch_page (last_id : string) (w : W) : result PageError (option (list E)) * W :=
  let '(reply, w) := post_page last_id w in
  (match reply with
   | PageNotSent => Err PageQueryFailed
   | PageHttp status decoded =>
       if is_success status then from_option Ok (Err PageUndecodable) decoded
       else Err (PageRefused status)
   end, w).

Definition fetch_data (last_id : string) (w : W) : result PageError (list E) * W :=
  let '(page, w) := fetch_page last_id w in
  (match page with
   | Ok (Some entries) => Ok entries
   | Ok None => Err PageSubgraphErrors
   | Err e => Err e
   end, w).

(** The loop: the cursor moves with every entry, parsed or not. *)
Fixpoint walk_pages {A} (id_of : E → string) (add : A → E → A) (page_size fuel : nat)
    (last_id : string) (acc : A) (w : W) : option (option PageError * A * W) :=
  match fuel with
  | O => None
  | S fuel =>
      let '(page, w) := fetch_data last_id w in
      match page with
      | Err e => Some (Some e, acc, w)
      | Ok entries =>
          let '(last_id, acc) :=
            foldl (λ '(_, acc) entry, (id_of entry, add acc entry)) (last_id, acc) entries in
          if (length entries <? page_size)%nat then Some (None, acc, w)
          else walk_pages id_of add page_size fuel last_id acc w
      end
  end.

End pages.

(** An entry that parses is stored, another is skipped. *)
Definition add_parsed {E K V} `{Countable K} (parse : E → option (K * V)) (m : gmap K V) (entry : E)
    : gmap K V :=
  match parse entry with
  | Some (k, v) => <[k := v]> m
  | None => m
  end.

(** ** URLs *)

Record IndexerEntity : Type := mkIndexerEntity { ie_id : string; ie_url : string }.

(** The URL parser, and what it says of a URL. *)
Class Urls (U : Type) : Type := {
  parse_url : string → option U;
  url_scheme : U → string;
  url_has_host : U → bool }.

Section urls.
Context {U : Type} `{!Urls U} (parse_indexer_id : string → option N).

Definition UrlSnapshot : Type := gmap N U.

Definition parse_indexer_url (raw : string) : option U :=
  url ← parse_url raw;
  if (bool_decide (url_scheme url = "http"%string) || bool_decide (url_scheme url = "https"%string))
     && url_has_host url
  then Some url else None.

Definition parse_indexer_entry (entry : IndexerEntity) : option (N * U) :=
  i ← parse_indexer_id (ie_id entry);
  url ← parse_indexer_url (ie_url entry);
  Some (i, url).

Context {W : Type} `{!PageHost IndexerEntity W}.

Definition fetch_snapshot (fuel : nat) (w : W) : option (result PageError UrlSnapshot * W) :=
  '(e, snapshot, w) ← walk_pages ie_id (add_parsed parse_indexer_entry) URL_PAGE_SIZE fuel
                        ZERO_ADDRESS_TEXT ∅ w;
  Some (match e with Some e => Err e | None => Ok snapshot end, w).

(** What follows a tick: whether the service goes on, the snapshot it serves;
    [listening] says whether any handle is left. *)
Definition urls_tick (fuel : nat) (listening : bool) (snapshot : UrlSnapshot) (w : W)
    : option (bool * UrlSnapshot * W) :=
  '(fetched, w) ← fetch_snapshot fuel w;
  Some match fetched with
       | Err _ => (true, snapshot, w)
       | Ok fetched =>
           if bool_decide (size fetched = 0%nat) then (true, snapshot, w)
           else if listening then (true, fetched, w)
           else (false, snapshot, w)
       end.

Fixpoint urls_service (fuel : nat) (ticks : list bool) (snapshot : UrlSnapshot) (w : W)
    : option (UrlSnapshot * W) :=
  match ticks with
  | [] => Some (snapshot, w)
  | listening :: ticks =>
      '(goes_on, snapshot, w) ← urls_tick fuel listening snapshot w;
      if goes_on : bool then urls_service fuel ticks snapshot w else Some (snapshot, w)
  end.

Definition get_indexer_url (snapshot : UrlSnapshot) (i : N) : option U := snapshot !! i.

End urls.

(** ** Entity counts *)

Record LatestEntity : Type := mkLatest {
  le_id : string;
  le_indexer : string;
  le_subgraph_deployment_id : string;
  le_entities : string }.

Definition EntityCounts : Type := gmap (N * N) Z.

Section counts.
Context (parse_indexer_id parse_deployment_id : string → option N).

Definition parse_entity_entry (entry : LatestEntity) : option (N * N * Z) :=
  indexer_id ← parse_indexer_id (le_indexer entry);
  deployment_id ← parse_deployment_id (le_subgraph_deployment_id entry);
  entities ← parse_u64 (le_entities entry);
  Some (indexer_id, deployment_id, entities).

Context {W : Type} `{!PageHost LatestEntity W}.

Definition fetch_all_entity_counts (fuel : nat) (w : W) : option (EntityCounts * W) :=
  '(_, counts, w) ← walk_pages le_id (add_parsed parse_entity_entry) COUNT_PAGE_SIZE fuel
                      EmptyString ∅ w;
  Some (counts, w).

Definition refresh_cache (fuel : nat) (cache : EntityCounts) (w : W) : option (EntityCounts * W) :=
  '(counts, w) ← fetch_all_entity_counts fuel w;
  Some (if bool_decide (counts = ∅) then cache else counts, w).

(** [run]: a refresh at the start and one at each tick. *)
Fixpoint count_service (fuel ticks : nat) (cache : EntityCounts) (w : W)
    : option (EntityCounts * W) :=
  '(cache, w) ← refresh_cache fuel cache w;
  match ticks with
  | O => Some (cache, w)
  | S ticks => count_service fuel ticks cache w
  end.

End counts.

End Caches.
