(* ===== verification/CachesProps.v ===== *)
(** * What the subgraph caches hold
    (network/service/indexer_urls.rs, network/service/entity_count_cache.rs)

    Over a collection that does not change while it is read the loop ends and
    reads all of it; the URLs are replaced only by a complete reading that is not
    empty, the entity counts also by an incomplete one. *)

From S2P Require Import Prelude ChainEvents Selection Iisa Caches.
Import ChainEvents Selection Iisa Caches.
Local Open Scope Z_scope.

Module CachesProps.

(** ** Reading a collection that holds still *)

Section steady.
Context {E W : Type} `{!PageHost E W} (id_of : E → string).
(** The store's order of ids. *)
Context (id_lt : string → string → Prop) `{!StrictOrder id_lt} `{!RelDecision id_lt}.

(** Every query answers the next [n] entries of a collection sorted by id. *)
Record steady_host (n : nat) (entries : list E) (good : W → Prop) : Prop := {
  sh_sorted : StronglySorted id_lt (id_of <$> entries);
  sh_page : ∀ last_id w, good w → ∃ w', good w' ∧
    post_page last_id w =
      (PageHttp 200 (Some (Some (take n (filter (λ e, id_lt last_id (id_of e)) entries)))), w') }.

Lemma filter_after (l1 l2 : list E) x :
  StronglySorted id_lt (id_of <$> (l1 ++ x :: l2)) →
  filter (λ e, id_lt (id_of x) (id_of e)) (l1 ++ x :: l2) = l2.
Proof.
  induction l1 as [|y l1 IH]; csimpl; intros [Hs Hy]%StronglySorted_inv.
  - rewrite filter_cons_False by (apply irreflexivity, _).
    apply filter_all. rewrite Forall_fmap in Hy. exact Hy.
  - rewrite filter_cons_False; [by apply IH|].
    rewrite Forall_fmap, Forall_app, Forall_cons in Hy. destruct Hy as (_ & Hyx & _). simpl in Hyx.
    intros Hxy. apply (irreflexivity id_lt (id_of x)). by transitivity (id_of y).
Qed.

Lemma fold_page {A} (add : A → E → A) (entries : list E) last acc :
  foldl (λ '(_, acc) entry, (id_of entry, add acc entry)) (last, acc) entries
  = (default last (id_of <$> list.last entries), foldl add acc entries).
Proof.
  revert last acc. induction entries as [|x entries IH]; intros last acc; [done|].
  cbn [foldl]. rewrite IH, last_cons. by destruct (list.last entries).
Qed.

Lemma walk_rest {A} (add : A → E → A) n entries good :
  steady_host n entries good → (0 < n)%nat →
  ∀ fuel last rest acc w,
  filter (λ e, id_lt last (id_of e)) entries = rest → rest `suffix_of` entries →
  good w → (length rest / n < fuel)%nat →
  ∃ w', good w' ∧ walk_pages id_of add n fuel last acc w = Some (None, foldl add acc rest, w').
Proof.
  intros Hh Hn. induction fuel as [|fuel IH]; intros last rest acc w Hf [pre Hpre] Hw Hfuel; [lia|].
  simpl. destruct (sh_page _ _ _ Hh last w Hw) as (w1 & Hw1 & Hp). rewrite Hf in Hp.
  unfold fetch_data, fetch_page. rewrite Hp. simpl. rewrite fold_page.
  rewrite length_take. destruct (Nat.ltb_spec (Nat.min n (length rest)) n) as [Hlt|Hge].
  { exists w1. rewrite take_ge by lia. done. }
  assert (n ≤ length rest)%nat as Hlen by lia.
  destruct (lookup_lt_is_Some_2 rest (pred n)) as [x Hx]; [lia|].
  pose proof (take_S_r _ _ _ Hx) as Ht. replace (S (pred n)) with n in Ht by lia.
  assert (list.last (take n rest) = Some x) as -> by (rewrite Ht; apply last_snoc). simpl.
  destruct (IH (id_of x) (drop n rest) (foldl add acc (take n rest)) w1) as (w2 & Hw2 & Hwalk).
  - pose proof (take_drop n rest) as Hsplit. rewrite Ht, <-app_assoc in Hsplit. simpl in Hsplit.
    assert (entries = (pre ++ take (pred n) rest) ++ x :: drop n rest) as He.
    { by rewrite <-app_assoc, Hsplit. }
    rewrite He. apply filter_after. rewrite <-He. apply (sh_sorted _ _ _ Hh).
  - exists (pre ++ take n rest). by rewrite <-app_assoc, take_drop.
  - done.
  - rewrite length_drop.
    assert (length rest = n + (length rest - n))%nat as Hl by lia. rewrite Hl in Hfuel.
    replace (n + (length rest - n))%nat with (1 * n + (length rest - n))%nat in Hfuel by lia.
    rewrite Nat.div_add_l in Hfuel by lia. lia.
  - exists w2. split; [done|]. by rewrite Hwalk, <-foldl_app, take_drop.
Qed.

(** A page for every [n] entries and one more are enough: the loop ends, having
    added every entry once, in order. *)
Lemma walk_reads_all {A} (add : A → E → A) n entries good fuel first acc w :
  steady_host n entries good → (0 < n)%nat → Forall (λ e, id_lt first (id_of e)) entries →
  good w → (length entries / n < fuel)%nat →
  ∃ w', good w' ∧ walk_pages id_of add n fuel first acc w = Some (None, foldl add acc entries, w').
Proof.
  intros Hh Hn Hfirst Hw Hfuel. apply (walk_rest add n entries good Hh Hn); try done.
  by apply filter_all.
Qed.

End steady.
Arguments steady_host {E W _} _ _ {_} _ _ _.

(** ** What is stored *)

(** The last entry that parses to a key gives its value. *)
Lemma fold_parsed {E K V} `{Countable K} (parse : E → option (K * V)) (entries : list E) m :
  foldl (add_parsed parse) m entries = list_to_map (reverse (omap parse entries)) ∪ m.
Proof.
  revert m. induction entries as [|x entries IH]; intros m; simpl; [by rewrite (left_id_L ∅ (∪))|].
  rewrite IH. unfold add_parsed. destruct (parse x) as [[k v]|]; [|done].
  rewrite reverse_cons, list_to_map_app, <-(assoc_L (∪)). f_equal.
  rewrite insert_union_singleton_l. simpl. by rewrite insert_empty.
Qed.

Lemma stored_nonempty {K V} `{Countable K} (l : list (K * V)) :
  l ≠ [] → list_to_map (M := gmap K V) (reverse l) ≠ ∅.
Proof.
  destruct l as [|[k v] l]; [done|]. intros _ Hm. apply (f_equal (.!! k)) in Hm.
  rewrite lookup_empty in Hm. apply not_elem_of_list_to_map_2 in Hm.
  apply Hm. rewrite fmap_reverse, elem_of_reverse. by left.
Qed.

(** ** URLs *)

Section urls.
Context {U : Type} `{!Urls U} (parse_indexer_id : string → option N).
Context {W : Type} `{!PageHost IndexerEntity W}.
Context (id_lt : string → string → Prop) `{!StrictOrder id_lt} `{!RelDecision id_lt}.
Notation parse := (parse_indexer_entry parse_indexer_id).

(** A reading of a registry that holds still ends, with the URL of every indexer
    whose entry parses, however many pages it takes: one for every thousand
    indexers and one more are enough. *)
Theorem steady_urls_are_fetched entries good fuel w :
  steady_host ie_id id_lt URL_PAGE_SIZE entries good →
  Forall (λ e, id_lt ZERO_ADDRESS_TEXT (ie_id e)) entries → good w →
  (length entries / URL_PAGE_SIZE < fuel)%nat →
  ∃ w', good w' ∧
    fetch_snapshot parse_indexer_id fuel w =
      Some (Ok (list_to_map (reverse (omap parse entries))), w').
Proof.
  intros Hh Hf Hw Hfuel.
  destruct (walk_reads_all ie_id id_lt (add_parsed parse) URL_PAGE_SIZE entries good fuel
              ZERO_ADDRESS_TEXT ∅ w Hh ltac:(unfold URL_PAGE_SIZE; lia) Hf Hw Hfuel)
    as (w' & Hw' & E).
  exists w'. split; [done|]. unfold fetch_snapshot. rewrite E. simpl.
  by rewrite fold_parsed, (right_id_L ∅ (∪)).
Qed.

(** What the service serves is the snapshot it started with or one that a
    complete reading fetched and that has an indexer in it, whatever fails. *)
Theorem urls_are_never_wiped fuel ticks (init served : UrlSnapshot (U := U)) w w' :
  urls_service parse_indexer_id fuel ticks init w = Some (served, w') →
  served = init ∨
  served ≠ ∅ ∧ ∃ w1 w2, fetch_snapshot parse_indexer_id fuel w1 = Some (Ok served, w2).
Proof.
  revert init w. induction ticks as [|listening ticks IH]; intros init w; simpl.
  { intros [= -> _]. by left. }
  unfold urls_tick. destruct (fetch_snapshot parse_indexer_id fuel w) as [[[s|e] w1]|] eqn:E;
    [|simpl; apply IH|done]. simpl. case_bool_decide as Hs; [simpl; apply IH|].
  destruct listening; simpl; [|intros [= -> _]; by left].
  intros H. destruct (IH s w1 H) as [->|?]; [|by right]. right. split; [|eauto].
  intros ->. by apply Hs, (map_size_empty (M := gmap N)).
Qed.

End urls.

(** ** Entity counts *)

Section counts.
Context (parse_indexer_id parse_deployment_id : string → option N).
Context {W : Type} `{!PageHost LatestEntity W}.
Context (id_lt : string → string → Prop) `{!StrictOrder id_lt} `{!RelDecision id_lt}.
Notation parse := (parse_entity_entry parse_indexer_id parse_deployment_id).

Lemma steady_counts_are_fetched entries good fuel cache w :
  steady_host le_id id_lt COUNT_PAGE_SIZE entries good →
  Forall (λ e, id_lt EmptyString (le_id e)) entries → good w →
  (length entries / COUNT_PAGE_SIZE < fuel)%nat → omap parse entries ≠ [] →
  ∃ w', good w' ∧
    refresh_cache parse_indexer_id parse_deployment_id fuel cache w =
      Some (list_to_map (reverse (omap parse entries)), w').
Proof.
  intros Hh Hf Hw Hfuel Hne.
  destruct (walk_reads_all le_id id_lt (add_parsed parse) COUNT_PAGE_SIZE entries good fuel
              EmptyString ∅ w Hh ltac:(unfold COUNT_PAGE_SIZE; lia) Hf Hw Hfuel)
    as (w' & Hw' & E).
  exists w'. split; [done|]. unfold refresh_cache, fetch_all_entity_counts. rewrite E. simpl.
  rewrite fold_parsed, (right_id_L ∅ (∪)), bool_decide_false; [done|].
  by apply stored_nonempty.
Qed.

(** A page that fails after a full one that was read leaves the cache with that
    page alone: every count that is not on it is gone until a later refresh. *)
Theorem failing_page_forgets_counts page x e fuel cache w w1 w2 :
  fetch_data EmptyString w = (Ok page, w1) → (COUNT_PAGE_SIZE ≤ length page)%nat →
  list.last page = Some x → fetch_data (le_id x) w1 = (Err e, w2) → omap parse page ≠ [] →
  ∃ cache', refresh_cache parse_indexer_id parse_deployment_id (S (S fuel)) cache w
              = Some (cache', w2) ∧
    cache' = list_to_map (reverse (omap parse page)) ∧
    ∀ k, k ∉ (omap parse page).*1 → cache' !! k = None.
Proof.
  intros Hp Hlen Hx He Hne. eexists. split; [|split; [reflexivity|]].
  - unfold refresh_cache, fetch_all_entity_counts. simpl. rewrite Hp, fold_page.
    rewrite (proj2 (Nat.ltb_ge _ _)) by done. rewrite Hx. simpl. rewrite He. simpl.
    rewrite fold_parsed, (right_id_L ∅ (∪)), bool_decide_false; [done|].
    by apply stored_nonempty.
  - intros k Hk. apply not_elem_of_list_to_map_1. by rewrite fmap_reverse, elem_of_reverse.
Qed.

End counts.

(** ** Hosts for the examples *)

(** A registry that holds still, its ids in unary and ordered by length. *)
Definition shorter (a b : string) : Prop := (String.length a < String.length b)%nat.

#[export] Instance shorter_order : StrictOrder shorter.
Proof. unfold shorter. split; [intros a Ha; lia|intros a b c Ha Hb; lia]. Qed.

#[export] Instance shorter_dec : RelDecision shorter.
Proof. intros a b. unfold shorter. apply _. Defined.

#[export] Instance StillRegistry : PageHost IndexerEntity (list IndexerEntity) := λ last_id w,
  (PageHttp 200 (Some (Some (take URL_PAGE_SIZE (filter (λ e, shorter last_id (ie_id e)) w)))), w).

#[export] Instance PlainUrls : Urls string := {|
  parse_url := λ s, Some s; url_scheme := λ _, "https"%string; url_has_host := λ _, true |}.

Fixpoint strokes (n : nat) : string :=
  match n with O => EmptyString | S n => String (Ascii.ascii_of_nat 49) (strokes n) end.

Definition stroke_id (s : string) : option N := Some (N.of_nat (String.length s)).

Definition demo_registry : list IndexerEntity :=
  [mkIndexerEntity (strokes 50) "https://a"; mkIndexerEntity (strokes 51) "https://b"].

Lemma steady_urls_are_fetched_witness :
  ∃ w', fetch_snapshot (U := string) stroke_id 1 demo_registry =
    Some (Ok {[ 51%N := "https://b"%string; 50%N := "https://a"%string ]}, w').
Proof.
  destruct (steady_urls_are_fetched (U := string) stroke_id shorter demo_registry
              (λ w, w = demo_registry) 1 demo_registry) as (w' & _ & E).
  - split; [repeat constructor; vm_compute; lia|].
    intros last_id w ->. exists demo_registry. by split.
  - repeat constructor; vm_compute; lia.
  - reflexivity.
  - vm_compute. lia.
  - exists w'. rewrite E. vm_compute. reflexivity.
Defined.

Lemma urls_are_never_wiped_witness :
  let served := {[ 51%N := "https://b"%string; 50%N := "https://a"%string ]} in
  urls_service (U := string) stroke_id 1 [true; true] {[ 9%N := "x"%string ]} demo_registry
    = Some (served, demo_registry) ∧
  (served = {[ 9%N := "x"%string ]} ∨ served ≠ ∅).
Proof.
  split; [vm_compute; reflexivity|].
  destruct (urls_are_never_wiped (U := string) stroke_id 1 [true; true] {[ 9%N := "x"%string ]}
              {[ 51%N := "https://b"%string; 50%N := "https://a"%string ]}
              demo_registry demo_registry) as [Hs|[Hs _]];
    [vm_compute; reflexivity|left; exact Hs|right; exact Hs].
Defined.

(** A host that answers from a list, and then not at all. *)
#[export] Instance ScriptedCounts : PageHost LatestEntity (list (PageReply LatestEntity)) := λ _ w,
  match w with
  | reply :: w => (reply, w)
  | [] => (PageNotSent, [])
  end.

Definition full_page : list LatestEntity :=
  replicate 1000 (mkLatest (strokes 3) (strokes 1) (strokes 2) "40").

Lemma failing_page_forgets_counts_witness :
  ∃ cache', refresh_cache stroke_id stroke_id 2 {[ (7, 7)%N := 5 ]}
              [PageHttp 200 (Some (Some full_page)); PageHttp 429 None] = Some (cache', []) ∧
    cache' !! (1, 2)%N = Some 40 ∧ cache' !! (7, 7)%N = None.
Proof.
  edestruct (failing_page_forgets_counts stroke_id stroke_id full_page
              (mkLatest (strokes 3) (strokes 1) (strokes 2) "40") (PageRefused 429) 0
              {[ (7, 7)%N := 5 ]} [PageHttp 200 (Some (Some full_page)); PageHttp 429 None])
    as (cache' & E & Hc & Hk); [reflexivity|vm_compute; lia|vm_compute; reflexivity|reflexivity
    |vm_compute; discriminate|].
  exists cache'. split; [exact E|]. split; [rewrite Hc; vm_compute; reflexivity|].
  apply Hk. apply (bool_decide_unpack _). vm_compute. exact I.
Defined.

End CachesProps.
