(* ===== verification/Domain.v ===== *)
(** * The signing domain and the manager's role
    (chain_client/eip5267.rs, chain_client/manager_role.rs,
    network/service/domain_refresh.rs)

    Dipper signs agreements under the EIP-712 domain the collector itself reports
    (EIP-5267): read and checked at start-up and again at intervals, so that a
    running dipper follows an upgrade of the contract.  It also checks at
    start-up that its signer may drive the manager.  The endpoints and the ABI are
    behind a class and parameters; the walk over the endpoints is [RpcPool]'s.
    Error texts are shortened: nobody matches on them. *)

From S2P Require Import Prelude Worker ChainEvents Liveness Selection RpcPool RpcPoolProps.
Import Worker ChainEvents Liveness Selection RpcPool RpcPoolProps.
Local Open Scope Z_scope.

Module Domain.

Definition MAX_DOMAIN_FIELD_LEN : nat := 256.

(** [eip712DomainReturn]; the bitmap is a byte. *)
Record DomainReport : Type := mkReport {
  rp_fields : Z;
  rp_name : string;
  rp_version : string;
  rp_chain_id : Z;
  rp_verifying_contract : N;
  rp_extensions : list Z }.

Record Eip712Domain : Type := mkDomain {
  ed_name : option string;
  ed_version : option string;
  ed_chain_id : option Z;
  ed_verifying_contract : option N;
  ed_salt : option N }.

#[export] Instance Eip712Domain_eq_dec : EqDecision Eip712Domain.
Proof. solve_decision. Defined.

Definition field_len_ok (value : string) : bool :=
  negb (bool_decide (value = EmptyString)) && (String.length value <=? MAX_DOMAIN_FIELD_LEN)%nat.

Definition domain_from_report (report : DomainReport) (expected_chain_id : Z)
    (recurring_collector : N) : result ClientError Eip712Domain :=
  if negb (rp_fields report =? 15) then
    Err (CeConfigError "unexpected EIP-712 domain field bitmap")
  else if negb (bool_decide (rp_extensions report = [])) then
    Err (CeConfigError "EIP-5267 domain extensions")
  else if negb (field_len_ok (rp_name report)) then
    Err (CeConfigError "EIP-712 domain name of an unexpected length")
  else if negb (field_len_ok (rp_version report)) then
    Err (CeConfigError "EIP-712 domain version of an unexpected length")
  else if negb (rp_chain_id report =? expected_chain_id) then
    Err (CeConfigError "another chain id")
  else if negb (bool_decide (rp_verifying_contract report = recurring_collector)) then
    Err (CeConfigError "another verifying contract")
  else Ok (mkDomain (Some (rp_name report)) (Some (rp_version report)) (Some expected_chain_id)
             (Some recurring_collector) None).

(** The calls made at start-up. *)
Inductive StartupCall : Type :=
| Eip712DomainCall
| HasRoleCall (role account : N).

Class StartupEndpoints (X : Type) : Type := {
  eth_call : nat → N → StartupCall → X → result TransportError (list Z) * X;
  eth_sleep : Z → X → X }.

Section startup.
Context {X : Type} `{!StartupEndpoints X}.
Context (hash_text : N → string) (local_usage_text : string → string).
Context (decode_report : list Z → option DomainReport) (decode_bool : list Z → option bool).
(** [keccak256("AGREEMENT_MANAGER_ROLE")] *)
Context (AGREEMENT_MANAGER_ROLE : N).
(** Whether the HTTP client can be built is not modelled: a failure would end the
    call with a configuration error. *)
Context (pool : RpcPoolConfig).

(** A pool of its own for the one call, starting at the first endpoint. *)
Definition call_contract (operation : string) (to : N) (call : StartupCall) (x : X)
    : result ClientError (list Z) * X :=
  if bool_decide (pc_endpoints pool = [])
  then (Err (CeConfigError "At least one RPC provider URL is required"), x)
  else
    let '(r, (_, x)) := execute hash_text local_usage_text eth_sleep pool operation
                          (λ i, eth_call i to call) (mkPool 0 [], x) in
    (r, x).

Definition fetch_rca_eip712_domain (chain_id : Z) (recurring_collector : N) (x : X)
    : result ClientError Eip712Domain * X :=
  let '(output, x) := call_contract "eip712_domain" recurring_collector Eip712DomainCall x in
  (match output with
   | Err e => Err e
   | Ok output =>
       match decode_report output with
       | None => Err (CeConfigError "undecodable eip712Domain() data")
       | Some report => domain_from_report report chain_id recurring_collector
       end
   end, x).

(** Whether the domain changed, and the domain in use. *)
Definition refresh_rca_eip712_domain (chain_id : Z) (recurring_collector : N)
    (current : Eip712Domain) (x : X) : result ClientError bool * Eip712Domain * X :=
  let '(fetched, x) := fetch_rca_eip712_domain chain_id recurring_collector x in
  match fetched with
  | Err e => (Err e, current, x)
  | Ok fetched =>
      if bool_decide (current = fetched) then (Ok false, current, x) else (Ok true, fetched, x)
  end.

(** A tick of the refresh, or the stop that wins over it, also over a refresh
    under way. *)
Inductive domain_tick : Type :=
| DomainTick
| DomainStop.

Fixpoint domain_refresh_run (chain_id : Z) (recurring_collector : N) (ticks : list domain_tick)
    (current : Eip712Domain) (x : X) : Eip712Domain * X :=
  match ticks with
  | [] | DomainStop :: _ => (current, x)
  | DomainTick :: ticks =>
      let '(_, current, x) := refresh_rca_eip712_domain chain_id recurring_collector current x in
      domain_refresh_run chain_id recurring_collector ticks current x
  end.

Definition verify_signer_has_agreement_manager_role (manager signer : N) (x : X)
    : result ClientError () * X :=
  let '(output, x) := call_contract "has_agreement_manager_role" manager
                        (HasRoleCall AGREEMENT_MANAGER_ROLE signer) x in
  (match output with
   | Err e => Err e
   | Ok output =>
       match decode_bool output with
       | None => Err (CeConfigError "undecodable hasRole() data")
       | Some false => Err (CeConfigError "signer lacks AGREEMENT_MANAGER_ROLE")
       | Some true => Ok tt
       end
   end, x).

(** ** What is signed under *)

(** A report that signing reproduces: exactly the four fields, of sane length,
    for this chain and contract. *)
Record reproducible (chain_id : Z) (collector : N) (r : DomainReport) : Prop := {
  re_fields : rp_fields r = 15;
  re_extensions : rp_extensions r = [];
  re_name : (0 < String.length (rp_name r) ≤ 256)%nat;
  re_version : (0 < String.length (rp_version r) ≤ 256)%nat;
  re_chain : rp_chain_id r = chain_id;
  re_contract : rp_verifying_contract r = collector }.

Lemma field_len_ok_spec s : field_len_ok s = true ↔ (0 < String.length s ≤ 256)%nat.
Proof.
  unfold field_len_ok. rewrite andb_true_iff, negb_true_iff, bool_decide_eq_false, Nat.leb_le.
  change MAX_DOMAIN_FIELD_LEN with 256%nat. destruct s; simpl; [|split; intros; lia || by split; [|lia]].
  split; [by intros [? _]|lia].
Qed.

Lemma accepted_reports r chain_id collector d :
  domain_from_report r chain_id collector = Ok d ↔
  reproducible chain_id collector r ∧
  d = mkDomain (Some (rp_name r)) (Some (rp_version r)) (Some (rp_chain_id r))
        (Some (rp_verifying_contract r)) None.
Proof.
  unfold domain_from_report. split.
  - repeat case_match; try done; intros [= <-].
    repeat match goal with
           | H : negb _ = false |- _ => apply negb_false_iff in H
           | H : bool_decide _ = true |- _ => apply bool_decide_eq_true in H
           | H : field_len_ok _ = true |- _ => apply field_len_ok_spec in H
           | H : (_ =? _) = true |- _ => apply Z.eqb_eq in H
           end. subst. by split.
  - intros [[Hf Hx Hn Hv Hc Hk] ->]. apply field_len_ok_spec in Hn, Hv.
    destruct r; simpl in *; subst. rewrite Hn, Hv. simpl.
    by rewrite Z.eqb_refl, bool_decide_true.
Qed.

(** An answer is one an endpoint gave to this call. *)
Definition answered_by (to : N) (call : StartupCall) (output : list Z) : Prop :=
  ∃ i x1 x2, eth_call (X := X) i to call x1 = (Ok output, x2).

Lemma call_answered operation to call x output x' :
  call_contract operation to call x = (Ok output, x') → answered_by to call output.
Proof.
  unfold call_contract. case_bool_decide; [done|].
  destruct (execute _ _ _ _ _ _ _) as [r [p x1]] eqn:E. intros [= -> ->].
  assert (PreOrder (λ _ _ : X, True)) by by split.
  destruct (execute_found hash_text local_usage_text eth_sleep pool (λ i, eth_call i to call)
              (λ _ _, True) (λ _ _, I) (λ _ _, I) operation _ _ _ E) as [_ Hf].
  destruct (Hf _ eq_refl) as (i & x2 & x3 & _ & Hc & _). by exists i, x2, x3.
Qed.

(** The domain [d] was reported, and checked. *)
Definition reported (chain_id : Z) (collector : N) (d : Eip712Domain) : Prop :=
  ∃ output r, answered_by collector Eip712DomainCall output ∧ decode_report output = Some r ∧
    reproducible chain_id collector r ∧
    d = mkDomain (Some (rp_name r)) (Some (rp_version r)) (Some chain_id) (Some collector) None.

Lemma fetched_is_reported chain_id collector x d x' :
  fetch_rca_eip712_domain chain_id collector x = (Ok d, x') → reported chain_id collector d.
Proof.
  unfold fetch_rca_eip712_domain. destruct (call_contract _ _ _ x) as [[output|e] x1] eqn:E; [|done].
  destruct (decode_report output) as [r|] eqn:Ed; [|done]. intros [= Hr ->].
  apply accepted_reports in Hr as [Hr ->]. exists output, r. apply call_answered in E.
  split; [done|]. split; [done|]. split; [done|]. by rewrite (re_chain _ _ _ Hr), (re_contract _ _ _ Hr).
Qed.

(** Through any sequence of refreshes, answers and failures, the domain in use is
    the one of the start or one the collector reported, for this chain and this
    contract, in the shape signing reproduces; a refresh that fails changes
    nothing. *)
Theorem signing_follows_the_contract chain_id collector ticks start x :
  let d := (domain_refresh_run chain_id collector ticks start x).1 in
  d = start ∨ reported chain_id collector d.
Proof.
  simpl. revert start x. induction ticks as [|[] ticks IH]; intros start x; simpl; [by left| |by left].
  unfold refresh_rca_eip712_domain.
  destruct (fetch_rca_eip712_domain chain_id collector x) as [[f|e] x1] eqn:E; [|apply IH].
  case_bool_decide; [apply IH|]. destruct (IH f x1) as [->|Hd]; [|by right]. right.
  by eapply fetched_is_reported.
Qed.

(** The start-up check passes only when an endpoint said the signer has the
    role. *)
Lemma preflight_is_answered manager signer x x' :
  verify_signer_has_agreement_manager_role manager signer x = (Ok tt, x') →
  ∃ output, answered_by manager (HasRoleCall AGREEMENT_MANAGER_ROLE signer) output ∧
    decode_bool output = Some true.
Proof.
  unfold verify_signer_has_agreement_manager_role.
  destruct (call_contract _ _ _ x) as [[output|e] x1] eqn:E; [|done].
  destruct (decode_bool output) as [[]|] eqn:Ed; [|done..]. intros _. apply call_answered in E. eauto.
Qed.

(** A refresh says that it changed the domain exactly when it did, and a fetched
    domain is then the one in use. *)
Lemma refresh_reports_changes chain_id collector current x r d x' :
  refresh_rca_eip712_domain chain_id collector current x = (r, d, x') →
  (r = Ok true ↔ d ≠ current) ∧
  (is_ok r = true → (fetch_rca_eip712_domain chain_id collector x).1 = Ok d).
Proof.
  unfold refresh_rca_eip712_domain.
  destruct (fetch_rca_eip712_domain chain_id collector x) as [[f|e] x1]; simpl;
    [case_bool_decide|]; intros [= <- <- <-]; by split; [split|try congruence].
Qed.

End startup.
End Domain.
