(* ===== verification/Startup.v ===== *)
(** * Start-up and the stop sequence (bin/dipper-service/src/main.rs)

    What the process needs before it serves (the signing domain, the indexers'
    URLs, a healthy IISA, enough database connections), the services it runs, and
    the order and time in which they are stopped.  How long a service takes to
    stop is an oracle, [None] when it never does, and so is how its task ends;
    times are in nanoseconds.
    Building the components out of the configuration is wiring and left out. *)

From S2P Require Import Prelude JobQueue Worker ChainEvents Liveness Selection RpcPool RpcPoolProps.
From S2P Require Import SeenBlocks Iisa Caches Domain Supervisor.
Import JobQueue Worker ChainEvents Selection RpcPool SeenBlocks Iisa Caches Domain Supervisor.
Local Open Scope Z_scope.

Module Startup.

Definition RCA_DOMAIN_FETCH_MAX_RETRIES : nat := 5.
Definition INDEXER_URLS_FETCH_MAX_RETRIES : nat := 5.
Definition TEARDOWN_GRACE : Z := from_secs 75.
Definition STOP_STEP_TIMEOUT : Z := from_secs 5.

(** ** Waiting for what is needed *)

(** [2u64.pow(attempt.min(5))] seconds *)
Definition startup_delay (attempt : Z) : Z := from_secs (2 ^ Z.min attempt 5).

(** A loop that fetches until it succeeds or [retries] more attempts failed; the
    error is the last one. *)
Fixpoint fetch_until {E A W} (fetch : W → result E A * W) (sleep : Z → W → W) (retries : nat)
    (attempt : Z) (w : W) : result E A * W :=
  let '(r, w) := fetch w in
  match r, retries with
  | Ok a, _ => (Ok a, w)
  | Err e, O => (Err e, w)
  | Err _, S retries =>
      fetch_until fetch sleep retries (attempt + 1) (sleep (startup_delay (attempt + 1)) w)
  end.

Definition start_domain {X} `{!StartupEndpoints X} (hash_text : N → string)
    (local_usage_text : string → string) (decode_report : list Z → option DomainReport)
    (pool : RpcPoolConfig) (chain_id : Z) (recurring_collector : N)
    : X → result ClientError Eip712Domain * X :=
  fetch_until (fetch_rca_eip712_domain hash_text local_usage_text decode_report pool chain_id
                 recurring_collector)
    eth_sleep RCA_DOMAIN_FETCH_MAX_RETRIES 0.

(** Why the first URLs could not be had. *)
Inductive UrlsStartError : Type :=
| UrlsFetchFailed (e : PageError)
| NoIndexersRegistered.

(** A snapshot fetched for the start: an empty one only when allowed. *)
Definition accept_snapshot {U} (allow_empty : bool) (r : result PageError (UrlSnapshot (U := U)))
    : result UrlsStartError (UrlSnapshot (U := U)) :=
  match r with
  | Ok s => if negb (bool_decide (size s = 0%nat)) || allow_empty then Ok s
            else Err NoIndexersRegistered
  | Err e => Err (UrlsFetchFailed e)
  end.

(** [fuel] bounds the pages of one fetch; a fetch that does not end keeps the
    process from starting. *)
Fixpoint start_urls {U W} `{!Urls U} `{!PageHost IndexerEntity W}
    (parse_indexer_id : string → option N) (sleep : Z → W → W) (allow_empty : bool) (fuel : nat)
    (retries : nat) (attempt : Z) (w : W)
    : option (result UrlsStartError (UrlSnapshot (U := U)) * W) :=
  '(r, w) ← fetch_snapshot parse_indexer_id fuel w;
  match accept_snapshot allow_empty r, retries with
  | Ok s, _ => Some (Ok s, w)
  | Err e, O => Some (Err e, w)
  | Err _, S retries =>
      start_urls parse_indexer_id sleep allow_empty fuel retries (attempt + 1)
        (sleep (startup_delay (attempt + 1)) w)
  end.

(** [for attempt in 1..=3] *)
Fixpoint iisa_healthy {W} `{!IisaNet W} `{!IisaTexts} (sleep : Z → W → W) (attempts : nat)
    (c : HttpIisaClient W) : bool * HttpIisaClient W :=
  match attempts with
  | O => (false, c)
  | S attempts =>
      let '(r, c) := health_check c in
      match r with
      | Ok true => (true, c)
      | _ =>
          iisa_healthy sleep attempts
            (match attempts with
             | O => c
             | _ => mkClient (hi_endpoint c) (hi_config c) (sleep (from_secs 2) (hi_world c))
                      (hi_sent c)
             end)
      end
  end.

(** ** Database connections *)

Definition CONNECTIONS_PER_LOOP : Z := 3.
Definition SHARED_SERVICES_HEADROOM : Z := 2.

(** [usize], 64 bits, saturating. *)
Definition required_conns (worker_concurrency : Z) : Z :=
  Z.min (Z.min (worker_concurrency * CONNECTIONS_PER_LOOP) u64_max + SHARED_SERVICES_HEADROOM)
    u64_max.

Inductive SizingError : Type :=
| NoWorkerLoops
| PoolTooSmall (required max_conns : Z).

Definition check_sizing (worker_concurrency max_conns : Z) : result SizingError () :=
  if worker_concurrency =? 0 then Err NoWorkerLoops
  else if max_conns <? required_conns worker_concurrency
  then Err (PoolTooSmall (required_conns worker_concurrency) max_conns)
  else Ok tt.

(** ** The stop sequence *)

Inductive StopStep : Type :=
| StopAdminRpc | StopReassignment | StopExpiration | StopLiveness | StopDipsInfo
| StopChainListener | StopCancelRetry | StopEscrow | StopEntityCounts | StopDomainRefresh
| StopWorker | StopIndexerUrls | StopHealth | FlushEvents | CloseDbPool.

#[export] Instance StopStep_eq_dec : EqDecision StopStep.
Proof. solve_decision. Defined.

(** Which of the optional services run. *)
Record Running : Type := mkRunning {
  rn_reassignment : bool;
  rn_expiration : bool;
  rn_liveness : bool;
  rn_dips_info : bool;
  rn_chain_listener : bool;
  rn_escrow : bool;
  rn_entity_counts : bool;
  rn_health : bool }.

Definition when {A} (b : bool) (a : A) : list A := if b then [a] else [].

(** ** The task tree *)

Inductive ServiceTask : Type :=
| EntityCountsTask | IndexerUrlsTask | WorkerTask | DomainRefreshTask | ReassignmentTask
| ExpirationTask | LivenessTask | DipsInfoTask | ChainListenerTask | CancelRetryTask | EscrowTask
| HealthTask | AdminRpcTask | SignalHandlerTask.

#[export] Instance ServiceTask_eq_dec : EqDecision ServiceTask.
Proof. solve_decision. Defined.

(** The tasks spawned, in the order of the code; the last runs the stop sequence. *)
Definition spawned (running : Running) : list ServiceTask :=
  when (rn_entity_counts running) EntityCountsTask
  ++ [IndexerUrlsTask; WorkerTask; DomainRefreshTask]
  ++ when (rn_reassignment running) ReassignmentTask
  ++ when (rn_expiration running) ExpirationTask
  ++ when (rn_liveness running) LivenessTask
  ++ when (rn_dips_info running) DipsInfoTask
  ++ when (rn_chain_listener running) ChainListenerTask
  ++ [CancelRetryTask]
  ++ when (rn_escrow running) EscrowTask
  ++ when (rn_health running) HealthTask
  ++ [AdminRpcTask; SignalHandlerTask].

(** A number for each task, as the supervisor knows tasks by their ids. *)
Definition task_id (t : ServiceTask) : N :=
  match t with
  | SignalHandlerTask => 0 | EntityCountsTask => 1 | IndexerUrlsTask => 2 | WorkerTask => 3
  | DomainRefreshTask => 4 | ReassignmentTask => 5 | ExpirationTask => 6 | LivenessTask => 7
  | DipsInfoTask => 8 | ChainListenerTask => 9 | CancelRetryTask => 10 | EscrowTask => 11
  | HealthTask => 12 | AdminRpcTask => 13
  end%N.

Definition task_tree (running : Running) : gset N := list_to_set (task_id <$> spawned running).

(** ** The steps *)

(** Every step before the database pool. *)
Definition stop_steps (running : Running) : list StopStep :=
  [StopAdminRpc]
  ++ when (rn_reassignment running) StopReassignment
  ++ when (rn_expiration running) StopExpiration
  ++ when (rn_liveness running) StopLiveness
  ++ when (rn_dips_info running) StopDipsInfo
  ++ when (rn_chain_listener running) StopChainListener
  ++ [StopCancelRetry]
  ++ when (rn_escrow running) StopEscrow
  ++ when (rn_entity_counts running) StopEntityCounts
  ++ [StopDomainRefresh; StopWorker; StopIndexerUrls]
  ++ when (rn_health running) StopHealth
  ++ [FlushEvents].

(** Whether the step was over in time, and how long it took. *)
Definition stop_service (takes : option Z) : bool * Z :=
  match takes with
  | Some d => if d <=? STOP_STEP_TIMEOUT then (true, d) else (false, STOP_STEP_TIMEOUT)
  | None => (false, STOP_STEP_TIMEOUT)
  end.

(** The steps in turn: each with when it ended and whether in time. *)
Fixpoint stop_all (takes : StopStep → option Z) (steps : list StopStep) (now : Z)
    : list (StopStep * Z * bool) :=
  match steps with
  | [] => []
  | s :: steps =>
      let '(stopped, d) := stop_service (takes s) in
      (s, now + d, stopped) :: stop_all takes steps (now + d)
  end.

Definition all_stopped (log : list (StopStep * Z * bool)) : bool := forallb (λ e, e.2) log.

Definition ended_at (now : Z) (log : list (StopStep * Z * bool)) : Z :=
  default now ((λ e, e.1.2) <$> list.last log).

(** The whole sequence: the pool is closed only when every step was in time. *)
Definition stop_sequence (running : Running) (takes : StopStep → option Z) (now : Z)
    : list (StopStep * Z * bool) :=
  let log := stop_all takes (stop_steps running) now in
  if all_stopped log then log ++ stop_all takes [CloseDbPool] (ended_at now log) else log.

(** ** The signal handler's task *)

(** The task whose handle a step stops: [stop] returns once the task's end of the
    stop channel is gone, that is once the task has ended. *)
Definition stops (s : StopStep) : option ServiceTask :=
  match s with
  | StopAdminRpc => Some AdminRpcTask
  | StopReassignment => Some ReassignmentTask
  | StopExpiration => Some ExpirationTask
  | StopLiveness => Some LivenessTask
  | StopDipsInfo => Some DipsInfoTask
  | StopChainListener => Some ChainListenerTask
  | StopCancelRetry => Some CancelRetryTask
  | StopEscrow => Some EscrowTask
  | StopEntityCounts => Some EntityCountsTask
  | StopDomainRefresh => Some DomainRefreshTask
  | StopWorker => Some WorkerTask
  | StopIndexerUrls => Some IndexerUrlsTask
  | StopHealth => Some HealthTask
  | FlushEvents | CloseDbPool => None
  end.

(** How long a step takes: as long as its task goes on once it is told to stop,
    [None] when it never ends; [other] for the flush and the pool. *)
Definition step_takes (ends : ServiceTask → option Z) (other : StopStep → option Z) (s : StopStep)
    : option Z :=
  match stops s with Some t => ends t | None => other s end.

(** What wakes the handler: a signal, handlers that could not be registered, or a
    task that ended by itself, on which the supervisor asks for the shutdown. *)
Inductive Wake : Type :=
| WakeSignal
| WakeRegistrationFailed
| WakeTaskDied (t : ServiceTask) (how : TaskEnd).

Definition wake_event (wake : Wake) : sup_event :=
  match wake with
  | WakeSignal | WakeRegistrationFailed => ShutdownAsked
  | WakeTaskDied t how => TaskEnds (task_id t) how
  end.

Definition has_died (wake : Wake) (t : ServiceTask) : bool :=
  match wake with WakeTaskDied t' _ => bool_decide (t = t') | _ => false end.

(** A step over in time is a task that has ended, well or not, unless it had
    already.  A task whose step was given up is not told anything more. *)
Definition stop_event (how : ServiceTask → TaskEnd) (wake : Wake) (e : StopStep * Z * bool)
    : option (Z * sup_event) :=
  t ← stops e.1.1;
  if e.2 && negb (has_died wake t) then Some (e.1.2, TaskEnds (task_id t) (how t)) else None.

(** [match registration_error] *)
Definition handler_end (wake : Wake) : TaskEnd :=
  match wake with WakeRegistrationFailed => TaskErr | _ => TaskOk end.

(** What the supervisor sees from the handler's wake-up on: the services end as
    they are stopped, then the handler's own task. *)
Definition stop_world (running : Running) (ends : ServiceTask → option Z) (other : StopStep → option Z)
    (how : ServiceTask → TaskEnd) (wake : Wake) (now : Z) : list (Z * sup_event) :=
  let log := stop_sequence running (step_takes ends other) now in
  (now, wake_event wake)
  :: omap (stop_event how wake) log
  ++ [(ended_at now log, TaskEnds (task_id SignalHandlerTask) (handler_end wake))].

End Startup.
