(* ===== verification/StartupProps.v ===== *)
(** * What start-up and the stop sequence guarantee (bin/dipper-service/src/main.rs) *)

From S2P Require Import Prelude JobQueue Worker ChainEvents Liveness Selection RpcPool RpcPoolProps.
From S2P Require Import SeenBlocks Iisa Caches Domain Supervisor Startup.
Import JobQueue Worker ChainEvents Selection RpcPool SeenBlocks Iisa Caches Domain Supervisor Startup.
Local Open Scope Z_scope.

Module StartupProps.

(** ** Sizing *)

(** A start that passes the check leaves three connections for each loop and two
    for the others, however large the number of loops asked for. *)
Lemma sized_pool_fits concurrency max_conns :
  0 ≤ concurrency → max_conns < u64_max →
  check_sizing concurrency max_conns = Ok tt ↔ 1 ≤ concurrency ∧ 3 * concurrency + 2 ≤ max_conns.
Proof.
  intros Hc Hm. unfold check_sizing, required_conns, CONNECTIONS_PER_LOOP, SHARED_SERVICES_HEADROOM.
  destruct (Z.eqb_spec concurrency 0); [split; [done|lia]|].
  case_match eqn:E; [apply Z.ltb_lt in E; split; [done|lia]|].
  apply Z.ltb_ge in E. split; [|done]. intros _. lia.
Qed.

(** ** Waiting *)

(** The URLs dipper starts with are not empty unless the configuration allows it. *)
Lemma start_has_indexers {U W} `{!Urls U} `{!PageHost IndexerEntity W} parse_indexer_id
    (sleep : Z → W → W) fuel retries attempt w (s : UrlSnapshot (U := U)) w' :
  start_urls parse_indexer_id sleep false fuel retries attempt w = Some (Ok s, w') → s ≠ ∅.
Proof.
  revert attempt w. induction retries as [|retries IH]; intros attempt w; simpl;
    destruct (fetch_snapshot parse_indexer_id fuel w) as [[r w1]|]; try done; simpl;
    destruct r as [s1|e]; simpl; try case_bool_decide as Hs; simpl; try done; try apply IH.
  all: intros [= <- _] ->; apply Hs, (map_size_empty (M := gmap N)).
Qed.

(** ** The stop sequence *)

Lemma stop_service_time takes : (stop_service takes).2 ≤ STOP_STEP_TIMEOUT.
Proof. unfold stop_service. destruct takes as [d|]; [|done]. by destruct (Z.leb_spec d STOP_STEP_TIMEOUT). Qed.

Definition steps_time (steps : list StopStep) : Z := STOP_STEP_TIMEOUT * Z.of_nat (length steps).

Lemma stop_all_times takes steps now :
  Forall (λ e, e.1.2 ≤ now + steps_time steps) (stop_all takes steps now).
Proof.
  revert now. induction steps as [|s steps IH]; intros now; simpl; [constructor|].
  pose proof (stop_service_time (takes s)) as Hs. destruct (stop_service (takes s)) as [ok d].
  simpl in Hs. unfold steps_time in *. unfold STOP_STEP_TIMEOUT, from_secs in *.
  cbn [length]. constructor; [simpl; lia|].
  eapply Forall_impl; [apply IH|]. intros e He. simpl in *. lia.
Qed.

Lemma stop_all_ends takes steps now :
  ended_at now (stop_all takes steps now) ≤ now + steps_time steps.
Proof.
  unfold ended_at. destruct (list.last _) as [e|] eqn:E; simpl.
  - apply last_Some_elem_of in E. pose proof (stop_all_times takes steps now) as H.
    rewrite Forall_forall in H. by apply H.
  - unfold steps_time, STOP_STEP_TIMEOUT, from_secs. lia.
Qed.

Lemma stop_all_steps takes steps now : (stop_all takes steps now).*1.*1 = steps.
Proof.
  revert now. induction steps as [|s steps IH]; intros now; simpl; [done|].
  destruct (stop_service (takes s)). csimpl. by rewrite IH.
Qed.

Lemma few_steps running : (length (stop_steps running) ≤ 14)%nat.
Proof. by destruct running as [[] [] [] [] [] [] [] []]; simpl; lia. Qed.

Lemma no_pool_step running : CloseDbPool ∉ stop_steps running.
Proof.
  unfold stop_steps, when. rewrite !elem_of_app.
  destruct running as [[] [] [] [] [] [] [] []]; simpl; set_solver.
Qed.

Lemma ended_at_app now l1 l2 : ended_at now (l1 ++ l2) = ended_at (ended_at now l1) l2.
Proof.
  unfold ended_at. rewrite last_app. by destruct (list.last l2).
Qed.

(** However badly the services behave, the sequence is over within the teardown's
    grace period: 70 seconds when a step was given up, and then the database pool
    is left alone; the pool is closed exactly when every step before it was in
    time. *)
Theorem teardown_has_a_ceiling running takes now :
  let log := stop_sequence running takes now in
  ended_at now log ≤ now + TEARDOWN_GRACE ∧
  (CloseDbPool ∈ log.*1.*1 ↔ all_stopped (stop_all takes (stop_steps running) now) = true) ∧
  (CloseDbPool ∉ log.*1.*1 → ended_at now log ≤ now + from_secs 70).
Proof.
  cbv zeta. unfold stop_sequence. cbv zeta. set (log := stop_all takes (stop_steps running) now).
  pose proof (stop_all_ends takes (stop_steps running) now) as Ht. fold log in Ht.
  pose proof (few_steps running) as Hn.
  pose proof (no_pool_step running) as Hp. rewrite <-(stop_all_steps takes _ now) in Hp. fold log in Hp.
  unfold steps_time, TEARDOWN_GRACE, STOP_STEP_TIMEOUT, from_secs in *.
  destruct (all_stopped log) eqn:Hall.
  - rewrite ended_at_app. pose proof (stop_all_ends takes [CloseDbPool] (ended_at now log)) as Hc.
    unfold steps_time, STOP_STEP_TIMEOUT, from_secs in Hc. simpl in Hc.
    assert (CloseDbPool ∈ (log ++ stop_all takes [CloseDbPool] (ended_at now log)).*1.*1) as Hin.
    { rewrite !fmap_app, stop_all_steps. set_solver. }
    split; [simpl; lia|]. split; [split; [done|intros _; exact Hin]|]. intros []. exact Hin.
  - split; [lia|]. split; [by split; [intros ?%Hp|]|]. intros _. lia.
Qed.

(** The documented ceiling, 65 seconds for eleven services, is from before there
    were thirteen: when none of them stops the sequence takes 70. *)
Example stuck_services_take_70_seconds :
  let everything := mkRunning true true true true true true true true in
  ended_at 0 (stop_sequence everything (λ _, None) 0) = from_secs 70.
Proof. reflexivity. Qed.

(** ** Order *)

Definition queues_jobs (s : StopStep) : Prop :=
  s ∈ [StopAdminRpc; StopReassignment; StopExpiration; StopLiveness; StopChainListener;
       StopCancelRetry].

(** What comes before the worker. *)
Definition steps_before_worker (running : Running) : list StopStep :=
  [StopAdminRpc]
  ++ when (rn_reassignment running) StopReassignment
  ++ when (rn_expiration running) StopExpiration
  ++ when (rn_liveness running) StopLiveness
  ++ when (rn_dips_info running) StopDipsInfo
  ++ when (rn_chain_listener running) StopChainListener
  ++ [StopCancelRetry]
  ++ when (rn_escrow running) StopEscrow
  ++ when (rn_entity_counts running) StopEntityCounts
  ++ [StopDomainRefresh].

Definition steps_from_worker (running : Running) : list StopStep :=
  [StopWorker; StopIndexerUrls] ++ when (rn_health running) StopHealth ++ [FlushEvents].

Lemma stop_steps_split running :
  stop_steps running = steps_before_worker running ++ steps_from_worker running.
Proof. unfold stop_steps, steps_before_worker, steps_from_worker. by rewrite <-!app_assoc. Qed.

(** Whatever queues jobs is stopped before the worker, the worker before the
    events are flushed, and the health endpoint after every other service. *)
Lemma stops_in_dependency_order running s :
  queues_jobs s → s ∈ stop_steps running → s ∈ steps_before_worker running.
Proof.
  rewrite stop_steps_split, elem_of_app. intros Hs [Hin|Hin]; [done|]. exfalso.
  revert Hs Hin. unfold queues_jobs, steps_from_worker, when. rewrite !list_elem_of_In.
  destruct s, (rn_health running); simpl; intuition discriminate.
Qed.

(** ** The sequence under the supervisor *)

Lemma stop_all_outcome takes steps now e :
  e ∈ stop_all takes steps now → e.2 = (stop_service (takes e.1.1)).1.
Proof.
  revert now. induction steps as [|s steps IH]; intros now; simpl; [by intros ?%not_elem_of_nil|].
  destruct (stop_service (takes s)) as [ok d] eqn:E. intros [->|He]%elem_of_cons; [|by eapply IH].
  simpl. by rewrite E.
Qed.

Lemma task_id_inj t1 t2 : task_id t1 = task_id t2 → t1 = t2.
Proof. destruct t1, t2; simpl; congruence. Qed.

Lemma stops_inj s1 s2 t : stops s1 = Some t → stops s2 = Some t → s1 = s2.
Proof. destruct s1, s2; simpl; congruence. Qed.

Lemma elem_of_when {A} b (a x : A) : x ∈ when b a ↔ b = true ∧ x = a.
Proof. destruct b; simpl; set_solver. Qed.

(** The list of spawns against the list of stops: whatever is spawned, the handler
    itself apart, has a step of its own, and every step stops something spawned. *)
Lemma spawned_are_stopped running t :
  t ≠ SignalHandlerTask →
  t ∈ spawned running ↔ ∃ s, s ∈ stop_steps running ∧ stops s = Some t.
Proof.
  intros Ht. unfold spawned, stop_steps. split.
  - rewrite !elem_of_app, !elem_of_when, !elem_of_cons, !elem_of_nil. intros Hin.
    destruct t; try done;
      [exists StopEntityCounts|exists StopIndexerUrls|exists StopWorker|exists StopDomainRefresh
      |exists StopReassignment|exists StopExpiration|exists StopLiveness|exists StopDipsInfo
      |exists StopChainListener|exists StopCancelRetry|exists StopEscrow|exists StopHealth
      |exists StopAdminRpc]; (split; [|done]);
      rewrite !elem_of_app, !elem_of_when, !elem_of_cons, !elem_of_nil;
      intuition (try discriminate; auto 20).
  - intros (s & Hin & Hs). revert Hin.
    rewrite !elem_of_app, !elem_of_when, !elem_of_cons, !elem_of_nil.
    destruct s; simpl in Hs; simplify_eq; intuition (try discriminate; auto 20).
Qed.

Lemma sequence_times running takes now :
  Forall (λ e, e.1.2 ≤ now + TEARDOWN_GRACE) (stop_sequence running takes now).
Proof.
  unfold stop_sequence. set (log := stop_all takes (stop_steps running) now).
  pose proof (few_steps running) as Hn.
  assert (now + steps_time (stop_steps running) ≤ now + from_secs 70) as H70.
  { unfold steps_time, STOP_STEP_TIMEOUT, from_secs. lia. }
  assert (Forall (λ e, e.1.2 ≤ now + TEARDOWN_GRACE) log) as Hlog.
  { eapply Forall_impl; [apply stop_all_times|]. intros e He. unfold TEARDOWN_GRACE, from_secs in *.
    simpl in *. lia. }
  cbv zeta. destruct (all_stopped log); [|done]. apply Forall_app. split; [done|].
  eapply Forall_impl; [apply stop_all_times|]. intros e He.
  pose proof (stop_all_ends takes (stop_steps running) now) as Hend. fold log in Hend.
  unfold steps_time, TEARDOWN_GRACE, STOP_STEP_TIMEOUT, from_secs in *. cbn [length] in He. lia.
Qed.

Lemma sequence_steps running takes now s t :
  stops s = Some t →
  s ∈ (stop_sequence running takes now).*1.*1 ↔ s ∈ stop_steps running.
Proof.
  intros Hs. unfold stop_sequence. cbv zeta. destruct (all_stopped _); [|by rewrite stop_all_steps].
  rewrite !fmap_app, elem_of_app, !stop_all_steps, list_elem_of_singleton.
  split; [intros [?| ->]; [done|discriminate]|by left].
Qed.

Lemma sequence_outcome running takes now e :
  e ∈ stop_sequence running takes now → e.2 = (stop_service (takes e.1.1)).1.
Proof.
  unfold stop_sequence. cbv zeta. destruct (all_stopped _); [|apply stop_all_outcome].
  intros [He|He]%elem_of_app; by eapply stop_all_outcome.
Qed.

Lemma ended_at_le now log b :
  Forall (λ e : StopStep * Z * bool, e.1.2 ≤ b) log → now ≤ b → ended_at now log ≤ b.
Proof.
  intros Hl Hn. unfold ended_at. destruct (list.last log) as [e|] eqn:E; [|done]. simpl.
  apply last_Some_elem_of in E. rewrite Forall_forall in Hl. by apply Hl.
Qed.

Lemma elem_of_ended_ids t ends : t ∈ ended_ids ends ↔ ∃ at_ how, (at_, TaskEnds t how) ∈ ends.
Proof.
  unfold ended_ids. rewrite elem_of_list_to_set, list_elem_of_omap. split.
  - intros ([at_ [|t' how]] & He & Ht); simplify_eq/=. by exists at_, how.
  - intros (at_ & how & He). by exists (at_, TaskEnds t how).
Qed.

(** The ends of the world after a signal, task by task: how each spawned task ends
    and whether in time. *)
Section signal.
Context (running : Running) (ends : ServiceTask → option Z) (other : StopStep → option Z).
Context (how : ServiceTask → TaskEnd) (wake : Wake) (now : Z).
Context (Hcap : ∀ t d, ends t = Some d → d ≤ STOP_STEP_TIMEOUT).
Context (Hwake : ∀ t how', wake ≠ WakeTaskDied t how').

Let log := stop_sequence running (step_takes ends other) now.
Let tail := omap (stop_event how wake) log
  ++ [(ended_at now log, TaskEnds (task_id SignalHandlerTask) (handler_end wake))].

Lemma stop_service_ok s t :
  stops s = Some t → (stop_service (step_takes ends other s)).1 = true ↔ is_Some (ends t).
Proof.
  intros Hs. unfold step_takes, stop_service. rewrite Hs.
  destruct (ends t) as [d|] eqn:Hd; [|by split; [|intros []]].
  rewrite (proj2 (Z.leb_le _ _)) by eauto. by split.
Qed.

(** Every stop of the sequence is one of a spawned task, and every spawned task is
    stopped by it. *)
Lemma logged_stops s at_ ok t :
  (s, at_, ok) ∈ log → stops s = Some t → t ∈ spawned running ∧ (ok = true ↔ is_Some (ends t)).
Proof.
  intros Hl Hs. pose proof (sequence_outcome _ _ _ _ Hl) as Hok. simpl in Hok. subst ok.
  rewrite stop_service_ok by done. split; [|done].
  assert (s ∈ stop_steps running) as Hin.
  { apply (sequence_steps running (step_takes ends other) now s t Hs). rewrite <-list_fmap_compose.
    apply list_elem_of_fmap. eexists (s, at_, _). by split; [|exact Hl]. }
  destruct (decide (t = SignalHandlerTask)) as [->|Ht]; [by destruct s|].
  apply spawned_are_stopped; eauto.
Qed.

Lemma stops_logged t :
  t ≠ SignalHandlerTask → t ∈ spawned running →
  ∃ s at_ ok, (s, at_, ok) ∈ log ∧ stops s = Some t.
Proof.
  intros Ht (s & Hin & Hs)%spawned_are_stopped; [|done].
  apply (sequence_steps running (step_takes ends other) now s t Hs) in Hin.
  rewrite <-list_fmap_compose in Hin. apply list_elem_of_fmap in Hin as ([[s' at_] ok] & Heq & Hl).
  simpl in Heq. subst s'. eauto.
Qed.

Lemma tail_ends at_ id e :
  (at_, TaskEnds id e) ∈ tail ↔
  (∃ s t, (s, at_, true) ∈ log ∧ stops s = Some t ∧ id = task_id t ∧ e = how t) ∨
  (id = task_id SignalHandlerTask ∧ at_ = ended_at now log ∧ e = handler_end wake).
Proof.
  assert (∀ t, has_died wake t = false) as Hd.
  { intros t. destruct wake as [| |t' h]; [done..|by destruct (Hwake t' h)]. }
  unfold tail. rewrite elem_of_app, list_elem_of_omap, list_elem_of_singleton. split.
  - intros [([[s at'] ok] & He & Hs)|He]; [|right; by simplify_eq].
    left. unfold stop_event in Hs. simpl in Hs. destruct (stops s) as [t|] eqn:Hst; [|done].
    simpl in Hs. rewrite Hd in Hs. destruct ok; [|done]. simplify_eq/=. by exists s, t.
  - intros [(s & t & He & Hs & -> & ->)|(-> & -> & ->)]; [left|by right].
    exists (s, at_, true). split; [done|]. unfold stop_event. simpl. rewrite Hs. simpl. by rewrite Hd.
Qed.

Lemma handler_not_stopped s : stops s ≠ Some SignalHandlerTask.
Proof. by destruct s. Qed.

Lemma elem_of_task_tree t : t ∈ spawned running → task_id t ∈ task_tree running.
Proof. intros Ht. unfold task_tree. apply elem_of_list_to_set, list_elem_of_fmap. eauto. Qed.

(** When some beginning of the tail ends every task well, the tail's own account of
    each task is a good one. *)
Lemma tail_ended_well :
  ends_in_time (now + TEARDOWN_GRACE) (task_tree running) tail →
  handler_end wake = TaskOk ∧
  ∀ t, t ∈ spawned running → t ≠ SignalHandlerTask → is_Some (ends t) ∧ how t = TaskOk.
Proof.
  intros (first & rest & Hw & Hwell & Htree). rewrite Forall_forall in Hwell.
  assert (∀ t, t ∈ spawned running → ∃ at_, (at_, TaskEnds (task_id t) TaskOk) ∈ tail) as Hends.
  { intros t Ht%elem_of_task_tree. apply Htree, elem_of_ended_ids in Ht as (at_ & e & He).
    pose proof (Hwell _ He) as [_ Hok]. simpl in Hok. subst e. exists at_. rewrite Hw.
    apply elem_of_app. by left. }
  split.
  - destruct (Hends SignalHandlerTask) as [at_ He].
    { unfold spawned. rewrite !elem_of_app. set_solver. }
    apply tail_ends in He as [(s & t & _ & Hs & Hid%task_id_inj & _)|(_ & _ & ->)]; [|done].
    subst t. by destruct (handler_not_stopped s).
  - intros t Hsp Ht. destruct (Hends t Hsp) as [at_ He].
    apply tail_ends in He as [(s & t' & Hl & Hs & Hid%task_id_inj & ->)|(Hid%task_id_inj & _)];
      [subst t'|done]. split; [by apply (logged_stops _ _ _ _ Hl Hs)|done].
Qed.

Lemma tail_all_end :
  (∀ t, t ∈ spawned running → t ≠ SignalHandlerTask → is_Some (ends t)) →
  task_tree running ⊆ ended_ids tail.
Proof.
  intros Hall id Hid. unfold task_tree in Hid. apply elem_of_list_to_set in Hid.
  apply list_elem_of_fmap in Hid as (t & -> & Hsp). apply elem_of_ended_ids.
  setoid_rewrite tail_ends. destruct (decide (t = SignalHandlerTask)) as [->|Ht]; [naive_solver|].
  destruct (stops_logged t Ht Hsp) as (s & at_ & ok & Hl & Hs).
  pose proof (logged_stops _ _ _ _ Hl Hs) as [_ Hok].
  assert (ok = true) as -> by (apply Hok; auto). eexists _, _. left. eauto 10.
Qed.

Lemma tail_in_time :
  handler_end wake = TaskOk →
  (∀ t, t ∈ spawned running → t ≠ SignalHandlerTask → how t = TaskOk) →
  Forall (well_ended (now + TEARDOWN_GRACE)) tail.
Proof.
  intros Hh Hall. pose proof (sequence_times running (step_takes ends other) now) as Htimes.
  fold log in Htimes. apply Forall_forall. intros [at_ [|id e]] Hin.
  { unfold tail in Hin. rewrite elem_of_app, list_elem_of_omap, list_elem_of_singleton in Hin.
    destruct Hin as [([[s a] ok] & _ & Hs)|?]; [|done]. unfold stop_event in Hs. simpl in Hs.
    destruct (stops s) as [t|]; [|done]. simpl in Hs. by destruct (ok && _). }
  apply tail_ends in Hin as [(s & t & Hl & Hs & -> & ->)|(-> & -> & ->)].
  - rewrite Forall_forall in Htimes. split; [apply (Htimes _ Hl)|]. simpl. apply Hall.
    + apply (logged_stops _ _ _ _ Hl Hs).
    + intros ->. by apply (handler_not_stopped s).
  - split; [|done]. apply ended_at_le; [done|]. unfold TEARDOWN_GRACE, from_secs. lia.
Qed.

End signal.

Lemma tree_not_empty running : task_tree running ≠ ∅.
Proof.
  intros He. assert (task_id WorkerTask ∈ task_tree running) as Hin; [|rewrite He in Hin; set_solver].
  unfold task_tree. apply elem_of_list_to_set, list_elem_of_fmap. exists WorkerTask. split; [done|].
  unfold spawned. rewrite !elem_of_app. set_solver.
Qed.

(** C34: the process exits cleanly exactly when its shutdown was asked for by a signal
    and every task it spawned for a service that runs then ends without an error or a
    panic: the stop sequence leaves no spawned task out and fits the grace period the
    supervisor gives it, and a service that hangs, fails or panics while it is stopped,
    a task that ended before any shutdown, or signal handlers that could not be
    registered, are never reported as a clean exit.  How long each service takes to
    stop is arbitrary up to the five seconds a step is given, or never (one that ends
    by itself during the teardown counts as ending at its step); the flush of the
    events and the closing of the pool may take any time. *)
Theorem stops_decide_the_exit running ends other how wake now :
  (∀ t d, ends t = Some d → d ≤ STOP_STEP_TIMEOUT) →
  supervise TEARDOWN_GRACE (stop_world running ends other how wake now)
    (sup_start (task_tree running)) = Some (Ok tt) ↔
  wake = WakeSignal ∧
  ∀ t, t ∈ spawned running → t ≠ SignalHandlerTask → is_Some (ends t) ∧ how t = TaskOk.
Proof.
  intros Hcap. unfold stop_world. cbv zeta. rewrite exits_cleanly_iff by apply tree_not_empty.
  destruct wake as [| |t h]; cbn [wake_event]; [..|naive_solver].
  - assert (∀ t h, WakeSignal ≠ WakeTaskDied t h) as Hw by done. split.
    + intros [_ H]. apply tail_ended_well in H as [_ Hall]; auto.
    + intros [_ Hall]. split; [done|]. eexists _, []. rewrite app_nil_r. split; [done|].
      split; [apply tail_in_time|apply tail_all_end]; naive_solver.
  - split; [|naive_solver]. intros [_ H]. apply tail_ended_well in H as [? _]; done.
Qed.

Definition everything_on : Running := mkRunning true true true true true true true true.
Definition prompt_ends (t : ServiceTask) : option Z := Some (from_secs 1).
Definition listener_hangs (t : ServiceTask) : option Z :=
  if bool_decide (t = ChainListenerTask) then None else Some (from_secs 1).
Definition no_failures (t : ServiceTask) : TaskEnd := TaskOk.
Definition worker_fails (t : ServiceTask) : TaskEnd :=
  if bool_decide (t = WorkerTask) then TaskErr else TaskOk.
Definition stuck_broker (s : StopStep) : option Z := None.

(** Everything on and the broker unreachable: clean when all thirteen stop, not when
    the listener hangs, the worker fails as it is stopped or no handler could be
    registered. *)
Lemma stops_decide_the_exit_witness :
  let exit ends how wake := supervise TEARDOWN_GRACE
    (stop_world everything_on ends stuck_broker how wake 0) (sup_start (task_tree everything_on)) in
  exit prompt_ends no_failures WakeSignal = Some (Ok tt) ∧
  exit listener_hangs no_failures WakeSignal ≠ Some (Ok tt) ∧
  exit prompt_ends worker_fails WakeSignal ≠ Some (Ok tt) ∧
  exit prompt_ends no_failures WakeRegistrationFailed ≠ Some (Ok tt).
Proof.
  assert (∀ t d, prompt_ends t = Some d → d ≤ STOP_STEP_TIMEOUT) as Hp
    by (intros t d [= <-]; vm_compute; discriminate).
  assert (∀ t d, listener_hangs t = Some d → d ≤ STOP_STEP_TIMEOUT) as Hl
    by (unfold listener_hangs; intros t d; case_bool_decide; [discriminate|]; intros [= <-];
        vm_compute; discriminate).
  cbv zeta. split; [|split; [|split]].
  - apply (stops_decide_the_exit everything_on prompt_ends stuck_broker no_failures WakeSignal 0 Hp).
    split; [reflexivity|]. intros t _ _. split; [eexists|]; reflexivity.
  - intros [_ H]%(stops_decide_the_exit everything_on listener_hangs stuck_broker no_failures
      WakeSignal 0 Hl). destruct (H ChainListenerTask) as [[d Hd] _]; [|discriminate..].
    apply (bool_decide_unpack _). vm_compute. exact I.
  - intros [_ H]%(stops_decide_the_exit everything_on prompt_ends stuck_broker worker_fails
      WakeSignal 0 Hp). destruct (H WorkerTask) as [_ Hw]; [|discriminate..].
    apply (bool_decide_unpack _). vm_compute. exact I.
  - intros [H _]%(stops_decide_the_exit everything_on prompt_ends stuck_broker no_failures
      WakeRegistrationFailed 0 Hp). discriminate.
Defined.

End StartupProps.
