(* ===== verification/Config.v ===== *)
(** * The configuration (bin/dipper-service/src/config.rs, main.rs)

    The sections of the configuration the services read, their defaults, the
    checks a start refuses on, and the runtime form the services get.  Reading the
    JSON itself is a library's: a value here is one it decoded.  Durations are in
    nanoseconds; an [f64] is a binary64. *)

From Stdlib Require Import SpecFloat.
From S2P Require Import Prelude Schema Registry RegistryInv RegistryRuns RegistryOps RegistryQueries.
From S2P Require Import JobQueue Worker Rca CancelDispatch CancelDispatchProps ChainEvents.
From S2P Require Import ChainListener ChainReconcile Services Liveness Selection Reassess.
From S2P Require Import DipsInfo Escrow Reassignment Expiration Producer Supervisor.
Import Schema RegistryQueries JobQueue Worker CancelDispatch ChainEvents Liveness Selection.
Import Reassess DipsInfo Escrow Reassignment Expiration Producer Supervisor.
Local Open Scope Z_scope.

Module Config.

(** ** Agreements *)

Record DipsAgreementConfig : Type := mkDips {
  da_data_service : N;
  da_recurring_collector : N;
  da_recurring_agreement_manager : N;
  da_max_agreement_grt_per_30_days : f64;
  da_max_seconds_per_collection : Z;
  da_min_seconds_per_collection : Z;
  da_duration_seconds : option Z;
  da_deadline_seconds : Z;
  da_pricing_table : gmap Z IndexingAgreementChainPrices;
  da_max_grt_per_30_days : gmap string f64;
  da_fallback_max_grt_per_30_days : f64;
  da_max_grt_per_billion_entities_per_30_days : f64;
  da_declined_indexer_lookback_days : Z;
  da_price_rejection_lookback_days : Z;
  da_transient_rejection_lookback_minutes : Z;
  da_uncertain_rejection_lookback_days : Z;
  da_unresponsive_indexer_lookback_days : Z;
  da_mass_unresponsive_trip_fraction : f64;
  da_mass_unresponsive_reset_fraction : f64;
  da_dips_accepting_snapshot_max_age_hours : Z;
  da_dips_accepting_cache_ttl_seconds : Z;
  da_max_in_flight_offers_per_indexer : option Z;
  da_max_in_flight_offers_total : option Z }.

Definition MIN_SECONDS_COLLECTION_WINDOW : Z := 600.

Inductive DipsConfigError : Type :=
| ZeroManager
| UnusableAgreementCap
| UnusableEntityCeiling
| UnusableChainCeiling
| UnusableFallback
| ResetNotBelowTrip
| IndexerCapAboveTotal
| CollectionWindowTooShort
| EndsBeforeDeadline
| NoRoomForACollection.

(** [x.is_finite() && x > 0.0] *)
Definition is_positive (x : f64) : bool := is_finite x && SFltb f64_zero x.

Definition chain_ceilings_ok (m : gmap string f64) : bool :=
  forallb (λ p, is_positive p.2) (map_to_list m).

Definition indexer_cap_above_total (per_indexer total : option Z) : bool :=
  match per_indexer, total with
  | Some per_indexer, Some total => (0 <? total) && (total <? per_indexer)
  | _, _ => false
  end.

Definition validate_dips (c : DipsAgreementConfig) : result DipsConfigError () :=
  if bool_decide (da_recurring_agreement_manager c = 0%N) then Err ZeroManager
  else if negb (is_positive (da_max_agreement_grt_per_30_days c)) then Err UnusableAgreementCap
  else if negb (is_positive (da_max_grt_per_billion_entities_per_30_days c))
  then Err UnusableEntityCeiling
  else if negb (chain_ceilings_ok (da_max_grt_per_30_days c)) then Err UnusableChainCeiling
  else if negb (is_positive (da_fallback_max_grt_per_30_days c)) then Err UnusableFallback
  else if SFleb (da_mass_unresponsive_trip_fraction c) (da_mass_unresponsive_reset_fraction c)
  then Err ResetNotBelowTrip
  else if indexer_cap_above_total (da_max_in_flight_offers_per_indexer c)
            (da_max_in_flight_offers_total c)
  then Err IndexerCapAboveTotal
  else
    let min := da_min_seconds_per_collection c in
    let max := da_max_seconds_per_collection c in
    if (max <=? min) || (max - min <? MIN_SECONDS_COLLECTION_WINDOW)
    then Err CollectionWindowTooShort
    else
      match da_duration_seconds c with
      | None => Ok tt
      | Some duration =>
          if duration <=? da_deadline_seconds c then Err EndsBeforeDeadline
          else if duration - da_deadline_seconds c <? min + MIN_SECONDS_COLLECTION_WINDOW
          then Err NoRoomForACollection
          else Ok tt
      end.

(** The runtime form; how an address prints is a parameter. *)
Definition agreement_config (address_text : N → string) (c : DipsAgreementConfig)
    : OfferConfig * gmap Z IndexingAgreementChainPrices :=
  (mkOfferConfig
     (mkConfig (da_recurring_collector c) (address_text (da_recurring_agreement_manager c)))
     (da_data_service c) (da_recurring_agreement_manager c) (da_max_agreement_grt_per_30_days c)
     (da_max_seconds_per_collection c) (da_min_seconds_per_collection c)
     (default u64_max (da_duration_seconds c)) (da_deadline_seconds c) (da_max_grt_per_30_days c)
     (da_fallback_max_grt_per_30_days c) (da_max_grt_per_billion_entities_per_30_days c)
     (mkLookbacks (da_declined_indexer_lookback_days c) (da_price_rejection_lookback_days c)
        (da_transient_rejection_lookback_minutes c) (da_uncertain_rejection_lookback_days c))
     (da_unresponsive_indexer_lookback_days c) (da_mass_unresponsive_trip_fraction c)
     (da_mass_unresponsive_reset_fraction c) (da_dips_accepting_snapshot_max_age_hours c)
     (from_secs (da_dips_accepting_cache_ttl_seconds c)) (da_max_in_flight_offers_per_indexer c)
     (da_max_in_flight_offers_total c),
   da_pricing_table c).

(** *** Defaults *)

Definition INDEXER_RS_MIN_GRT_PER_30_DAYS : list (string * f64) :=
  [("arbitrum-one", as_f64 450); ("matic", as_f64 300); ("avalanche", as_f64 225);
   ("bsc", as_f64 200); ("base", as_f64 80); ("mainnet", as_f64 45); ("optimism", as_f64 30);
   ("base-sepolia", as_f64 15); ("sepolia", as_f64 5)]%string.

Definition PAYMENT_CEILING_MULTIPLIER : f64 := as_f64 10.

Definition default_max_grt_per_30_days : gmap string f64 :=
  list_to_map ((λ p, (p.1, f64_mul p.2 PAYMENT_CEILING_MULTIPLIER)) <$> INDEXER_RS_MIN_GRT_PER_30_DAYS).

(** [f64::max] *)
Definition f64_max (a b : f64) : f64 :=
  if is_nan a then b else if is_nan b then a else if SFltb a b then b else a.

Definition default_fallback_max_grt_per_30_days : f64 :=
  foldl f64_max f64_zero
    ((λ p, f64_mul p.2 PAYMENT_CEILING_MULTIPLIER) <$> INDEXER_RS_MIN_GRT_PER_30_DAYS).

Definition default_max_grt_per_billion_entities_per_30_days : f64 := as_f64 2000.
Definition default_max_agreement_grt_per_30_days : f64 := as_f64 20000.
Definition default_deadline_seconds : Z := 600.
Definition default_declined_indexer_lookback_days : Z := 30.
Definition default_price_rejection_lookback_days : Z := 1.
Definition default_transient_rejection_lookback_minutes : Z := 5.
Definition default_uncertain_rejection_lookback_days : Z := 1.
Definition default_unresponsive_indexer_lookback_days : Z := 1.
Definition default_mass_unresponsive_trip_fraction : f64 := f64_div (as_f64 1) (as_f64 2).
Definition default_mass_unresponsive_reset_fraction : f64 := f64_div (as_f64 1) (as_f64 4).
Definition default_dips_accepting_snapshot_max_age_hours : Z := 48.
Definition default_dips_accepting_cache_ttl_seconds : Z := 300.
Definition default_max_in_flight_offers_per_indexer : option Z := Some 5.
Definition default_max_in_flight_offers_total : option Z := Some 100.

(** A section that names only what it must. *)
Definition minimal_dips (data_service collector manager : N)
    (max_seconds_per_collection min_seconds_per_collection : Z) (duration_seconds : option Z)
    : DipsAgreementConfig :=
  mkDips data_service collector manager default_max_agreement_grt_per_30_days
    max_seconds_per_collection min_seconds_per_collection duration_seconds default_deadline_seconds
    ∅ default_max_grt_per_30_days default_fallback_max_grt_per_30_days
    default_max_grt_per_billion_entities_per_30_days default_declined_indexer_lookback_days
    default_price_rejection_lookback_days default_transient_rejection_lookback_minutes
    default_uncertain_rejection_lookback_days default_unresponsive_indexer_lookback_days
    default_mass_unresponsive_trip_fraction default_mass_unresponsive_reset_fraction
    default_dips_accepting_snapshot_max_age_hours default_dips_accepting_cache_ttl_seconds
    default_max_in_flight_offers_per_indexer default_max_in_flight_offers_total.

(** ** The other sections *)

(** A socket address by its port. *)
Record HealthConfig : Type := mkHealthConfig {
  hh_enabled : bool;
  hh_port : Z;
  hh_threshold : Z }.

Definition default_health_config : HealthConfig := mkHealthConfig true 8546 DEFAULT_HEALTH_THRESHOLD.

Inductive HealthConfigError : Type :=
| HealthPortZero
| HealthPortTaken (port : Z).

Definition validate_health (c : HealthConfig) (admin_rpc_port : Z) : result HealthConfigError () :=
  if negb (hh_enabled c) then Ok tt
  else if hh_port c =? 0 then Err HealthPortZero
  else if hh_port c =? admin_rpc_port then Err (HealthPortTaken (hh_port c))
  else Ok tt.

Definition validate_liveness (enabled : bool) (c : LivenessCheckerConfig) : bool :=
  if negb enabled then true
  else
    let fraction := lc_unreachable_trip_fraction c in
    negb (is_nan fraction || SFleb fraction f64_zero || SFltb (as_f64 1) fraction).

Record EventStreamingConfig : Type := mkEventStreaming {
  es_enabled : bool;
  es_event_queue_capacity : Z;
  es_kafka : option KafkaConfig }.

Definition default_event_queue_capacity : Z := 1024.

Definition validate_events (c : EventStreamingConfig) : bool :=
  negb (es_enabled c && bool_decide (es_kafka c = None)).

(** [create_subgraph_indexing_agreements_events_emitter]: the broker and the
    queue of an enabled emitter, [None] for a disabled one. *)
Definition create_emitter (config : option EventStreamingConfig) : option (KafkaConfig * Z) :=
  match config with
  | None => None
  | Some c =>
      if negb (es_enabled c) then None
      else (λ kafka, (kafka, es_event_queue_capacity c)) <$> es_kafka c
  end.

Definition DEFAULT_ALERT_EVENTS : list string :=
  ["agreement_cancel_stuck"; "rpc_blocks_refused"; "nonce_gap_fill_failed";
   "chain_listener_changes_skipped"; "chain_listener_fetch_failing";
   "stale_agreement_uncancellable"; "liveness_abandonment_paused"; "iisa_request_rejected";
   "dips_info_missing"; "dips_info_checks_paused"; "dips_info_missing_denylisted"]%string.

Definition default_events_left_out (events : list string) : list string :=
  filter (λ event, event ∉ events) DEFAULT_ALERT_EVENTS.

(** [deserialize_utc_hour], for a [u8] the JSON had. *)
Definition deserialize_utc_hour (hour : Z) : option Z := if 23 <? hour then None else Some hour.

Definition default_reassignment_config : ReassignmentConfig :=
  mkReassignmentConfig (from_secs 86400) 10 100 (from_secs 86400) (from_secs 3600).
Definition default_expiration_config : ExpirationConfig := mkExpirationConfig 100 300.
Definition default_escrow_config : EscrowReconcilerConfig :=
  mkEscrowConfig true (from_secs 600) 500 (from_secs 86400) 500.
Definition default_liveness_config : LivenessCheckerConfig :=
  mkLivenessConfig 4 500 (f64_div (as_f64 1) (as_f64 2)) 3.
Definition default_watcher_config : DipsInfoWatcherConfig :=
  mkWatcherConfig false (from_secs 300) 24 48 (from_secs 10) 16 (f64_div (as_f64 1) (as_f64 2)) 3.

(** ** The checks of a start, in order (main.rs) *)

Record CheckedConfig : Type := mkChecked {
  ck_dips : DipsAgreementConfig;
  ck_events : option EventStreamingConfig;
  ck_health : HealthConfig;
  ck_admin_rpc_port : Z;
  ck_liveness : option (bool * LivenessCheckerConfig);
  ck_watcher : option DipsInfoWatcherConfig }.

Inductive StartRefused : Type :=
| RefusedDips (e : DipsConfigError)
| RefusedEvents
| RefusedHealth (e : HealthConfigError)
| RefusedLiveness
| RefusedWatcher.

Definition check_config (c : CheckedConfig) : result StartRefused () :=
  match validate_dips (ck_dips c) with
  | Err e => Err (RefusedDips e)
  | Ok _ =>
      if negb (from_option validate_events true (ck_events c)) then Err RefusedEvents
      else
        match validate_health (ck_health c) (ck_admin_rpc_port c) with
        | Err e => Err (RefusedHealth e)
        | Ok _ =>
            if negb (from_option (λ p, validate_liveness p.1 p.2) true (ck_liveness c))
            then Err RefusedLiveness
            else if negb (from_option validate_watcher true (ck_watcher c)) then Err RefusedWatcher
            else Ok tt
        end
  end.

End Config.
