(* ===== verification/ConfigProps.v ===== *)
(** * What a start that was not refused can rely on (config.rs, main.rs) *)

From Stdlib Require Import SpecFloat.
From S2P Require Import Prelude Schema Registry RegistryInv RegistryRuns RegistryOps RegistryQueries.
From S2P Require Import JobQueue Worker Rca CancelDispatch CancelDispatchProps ChainEvents.
From S2P Require Import ChainListener ChainReconcile Services Liveness Selection Reassess.
From S2P Require Import DipsInfo Escrow Reassignment Expiration Producer Supervisor Config.
Import Schema RegistryQueries JobQueue Worker CancelDispatch ChainEvents Liveness Selection.
Import Reassess DipsInfo Escrow Reassignment Expiration Producer Supervisor Config.
Local Open Scope Z_scope.

Module ConfigProps.

(** ** Agreements *)

Record dips_ok (c : DipsAgreementConfig) : Prop := {
  ok_manager : da_recurring_agreement_manager c ≠ 0%N;
  ok_agreement_cap : is_positive (da_max_agreement_grt_per_30_days c) = true;
  ok_entity_ceiling : is_positive (da_max_grt_per_billion_entities_per_30_days c) = true;
  ok_chain_ceilings : ∀ chain x, da_max_grt_per_30_days c !! chain = Some x → is_positive x = true;
  ok_fallback : is_positive (da_fallback_max_grt_per_30_days c) = true;
  ok_fractions :
    SFleb (da_mass_unresponsive_trip_fraction c) (da_mass_unresponsive_reset_fraction c) = false;
  ok_caps : ∀ per total, da_max_in_flight_offers_per_indexer c = Some per →
    da_max_in_flight_offers_total c = Some total → 0 < total → per ≤ total;
  ok_window : da_min_seconds_per_collection c + 600 ≤ da_max_seconds_per_collection c;
  ok_duration : ∀ d, da_duration_seconds c = Some d →
    da_deadline_seconds c < d ∧
    da_deadline_seconds c + da_min_seconds_per_collection c + 600 ≤ d }.

Lemma chain_ceilings_ok_spec m :
  chain_ceilings_ok m = true ↔ ∀ chain x, m !! chain = Some x → is_positive x = true.
Proof.
  unfold chain_ceilings_ok. rewrite forallb_forall. setoid_rewrite <-list_elem_of_In. split.
  - intros H chain x Hx. apply (H (chain, x)). by apply elem_of_map_to_list.
  - intros H [chain x] Hx%elem_of_map_to_list. by eapply H.
Qed.

Lemma cap_order per total :
  indexer_cap_above_total per total = false ↔
  ∀ p t, per = Some p → total = Some t → 0 < t → p ≤ t.
Proof.
  unfold indexer_cap_above_total. destruct per as [p|], total as [t|]; try naive_solver.
  rewrite andb_false_iff, Z.ltb_ge, Z.ltb_ge. split; [intros H ? ? [= <-] [= <-]; lia|].
  intros H. destruct (decide (0 < t)); [right; by apply H|left; lia].
Qed.

(** The checks refuse nothing else and nothing less. *)
Lemma validate_dips_spec c : validate_dips c = Ok tt ↔ dips_ok c.
Proof.
  unfold validate_dips. change MIN_SECONDS_COLLECTION_WINDOW with 600. split.
  - destruct (bool_decide_reflect (da_recurring_agreement_manager c = 0%N)); [done|].
    destruct (is_positive (da_max_agreement_grt_per_30_days c)) eqn:?; [|done].
    destruct (is_positive (da_max_grt_per_billion_entities_per_30_days c)) eqn:?; [|done].
    destruct (chain_ceilings_ok (da_max_grt_per_30_days c)) eqn:Hc; [|done].
    destruct (is_positive (da_fallback_max_grt_per_30_days c)) eqn:?; [|done].
    destruct (SFleb _ _) eqn:?; [done|]. destruct (indexer_cap_above_total _ _) eqn:Hcap; [done|].
    simpl. destruct (_ || _) eqn:Hw; [done|]. apply orb_false_iff in Hw as [Hw1%Z.leb_gt Hw2%Z.ltb_ge].
    intros Hd. split; try done; [by apply chain_ceilings_ok_spec|by apply cap_order|lia|].
    intros d Hs. rewrite Hs in Hd. destruct (Z.leb_spec d (da_deadline_seconds c)); [done|].
    destruct (Z.ltb_spec (d - da_deadline_seconds c) (da_min_seconds_per_collection c + 600)); [done|].
    lia.
  - intros [Hm -> -> Hc%chain_ceilings_ok_spec -> -> Hcap%cap_order Hw Hd].
    rewrite Hc, Hcap, bool_decide_false by done. simpl.
    rewrite (proj2 (Z.leb_gt _ _)), (proj2 (Z.ltb_ge _ _)) by lia. simpl.
    destruct (da_duration_seconds c) as [d|]; [|done]. destruct (Hd d eq_refl).
    by rewrite (proj2 (Z.leb_gt _ _)), (proj2 (Z.ltb_ge _ _)) by lia.
Qed.

(** The collection rules of the RecurringCollector: a window of ten minutes, and
    room for one collection after an acceptance at the deadline. *)
Definition collectable (t : Terms) : Prop :=
  t_min_seconds_per_collection t + 600 ≤ t_max_seconds_per_collection t ∧
  t_deadline t + t_min_seconds_per_collection t + 600 ≤ t_ends_at t.

(** The sums of an offer saturate, and the checks bound none of the durations: the
    rules are kept exactly while the last moment they speak of fits 64 bits. *)
Lemma terms_fit address_text c signer_chain_id deployment chain now o :
  dips_ok c → 0 ≤ now → 0 ≤ da_deadline_seconds c → 0 ≤ da_min_seconds_per_collection c →
  collectable (offer_terms (agreement_config address_text c).1 signer_chain_id deployment chain now o) ↔
  now + da_deadline_seconds c + da_min_seconds_per_collection c + 600 ≤ u64_max.
Proof.
  intros Hok Hnow Hdl Hmin. pose proof (ok_window c Hok). pose proof (ok_duration c Hok) as Hd.
  unfold collectable. simpl. unfold sat_add_u64.
  destruct (da_duration_seconds c) as [d|]; simpl; [destruct (Hd d eq_refl)|]; unfold u64_max in *; lia.
Qed.

Lemma ceilings_positive address_text c chain :
  dips_ok c → is_positive (max_grt_per_30_days_for (agreement_config address_text c).1 chain) = true.
Proof.
  intros Hok. unfold max_grt_per_30_days_for. simpl.
  destruct (da_max_grt_per_30_days c !! chain) as [x|] eqn:E; simpl;
    [by eapply ok_chain_ceilings|by apply ok_fallback].
Qed.

Lemma emitter_of_valid c :
  from_option validate_events true c = true →
  create_emitter c = None ↔ from_option es_enabled false c = false.
Proof.
  destruct c as [[enabled cap kafka]|]; [|done]. unfold validate_events. simpl.
  destruct enabled, kafka; simpl; try done; try (by case_bool_decide).
Qed.

(** C38: what a configuration that is not refused gives.  An offer it makes keeps the
    collector's rules (a window of ten minutes, and room for one collection after an
    acceptance at the deadline) exactly when now, the deadline, the shortest time
    between collections and ten minutes add up to no more than 64 bits hold; the checks
    do not bound the deadline, so an absurd one starts and breaks the rules.  The
    agreement manager is set and every chain has a ceiling that is a positive number.
    The events have an emitter unless they are turned off.  The probe, when it is on,
    has a port and one that is not the admin server's. *)
Theorem started_config_is_usable address_text c signer_chain_id deployment chain now o :
  check_config c = Ok tt →
  0 ≤ now → 0 ≤ da_deadline_seconds (ck_dips c) → 0 ≤ da_min_seconds_per_collection (ck_dips c) →
  let conf := (agreement_config address_text (ck_dips c)).1 in
  (collectable (offer_terms conf signer_chain_id deployment chain now o) ↔
   now + da_deadline_seconds (ck_dips c) + da_min_seconds_per_collection (ck_dips c) + 600 ≤ u64_max) ∧
  oc_recurring_agreement_manager conf ≠ 0%N ∧
  (∀ name, is_positive (max_grt_per_30_days_for conf name) = true) ∧
  (create_emitter (ck_events c) = None ↔ from_option es_enabled false (ck_events c) = false) ∧
  (hh_enabled (ck_health c) = true →
   hh_port (ck_health c) ≠ 0 ∧ hh_port (ck_health c) ≠ ck_admin_rpc_port c).
Proof.
  unfold check_config. destruct (validate_dips (ck_dips c)) as [[]|] eqn:Hd; [|done].
  apply validate_dips_spec in Hd.
  destruct (from_option validate_events true (ck_events c)) eqn:He; [|done]. simpl.
  destruct (validate_health (ck_health c) (ck_admin_rpc_port c)) eqn:Hh; [|done].
  intros _ Hnow Hdl Hmin. split; [by apply terms_fit|]. split; [apply (ok_manager _ Hd)|].
  split; [intros; by apply ceilings_positive|]. split; [by apply emitter_of_valid|].
  intros Hen. unfold validate_health in Hh. rewrite Hen in Hh. simpl in Hh.
  destruct (Z.eqb_spec (hh_port (ck_health c)) 0); [done|].
  by destruct (Z.eqb_spec (hh_port (ck_health c)) (ck_admin_rpc_port c)).
Qed.

(** ** Defaults *)

(** A section that names only the contracts and a collection window starts,
    exactly when the manager is set and the window and duration fit. *)
Lemma defaults_are_valid data_service collector manager max min duration :
  validate_dips (minimal_dips data_service collector manager max min duration) = Ok tt ↔
  manager ≠ 0%N ∧ min + 600 ≤ max ∧ ∀ d, duration = Some d → 600 < d ∧ min + 1200 ≤ d.
Proof.
  rewrite validate_dips_spec. split.
  - intros [Hm _ _ _ _ _ _ Hw Hd]. split; [done|]. split; [done|]. intros d E.
    specialize (Hd d E). simpl in Hd. unfold default_deadline_seconds in Hd. lia.
  - intros (Hm & Hw & Hd). split; simpl; try done.
    + apply chain_ceilings_ok_spec. vm_compute. reflexivity.
    + by intros ? ? [= <-] [= <-].
    + intros d E. specialize (Hd d E). unfold default_deadline_seconds. lia.
Qed.

(** The default ceiling of other chains is the highest of the chains listed. *)
Example fallback_is_the_highest_ceiling :
  default_fallback_max_grt_per_30_days = as_f64 4500 ∧
  default_max_grt_per_30_days !! "arbitrum-one"%string = Some (as_f64 4500) ∧
  default_max_grt_per_30_days !! "sepolia"%string = Some (as_f64 50).
Proof. vm_compute. done. Qed.

Example other_defaults_are_valid :
  validate_watcher default_watcher_config = true ∧
  validate_liveness true default_liveness_config = true ∧
  deserialize_utc_hour (rc_run_at_utc_hour default_reassignment_config) = Some 10 ∧
  default_events_left_out DEFAULT_ALERT_EVENTS = [].
Proof. vm_compute. done. Qed.

Definition demo_checked_config : CheckedConfig :=
  mkChecked (minimal_dips 1 2 3 3600 600 None) None default_health_config 8545
    (Some (true, default_liveness_config)) (Some default_watcher_config).

(** A deadline of [u64::MAX] seconds is not refused. *)
Definition endless_deadline_dips : DipsAgreementConfig :=
  match minimal_dips 1 2 3 3600 600 None with
  | mkDips ds rc ra grt max min duration _ prices ceil fallback rate l1 l2 l3 l4 l5 trip reset age ttl
      per total =>
      mkDips ds rc ra grt max min duration u64_max prices ceil fallback rate l1 l2 l3 l4 l5 trip reset
        age ttl per total
  end.

Definition endless_config : CheckedConfig :=
  mkChecked endless_deadline_dips None default_health_config 8545 None None.

Definition demo_new_offer : NewOffer := mkNewOffer (mkIndexer 9 EmptyString) 1 1.

Lemma started_config_is_usable_witness :
  (check_config demo_checked_config = Ok tt ∧
   collectable (offer_terms (agreement_config (λ _, EmptyString) (ck_dips demo_checked_config)).1 1 5 1
     1700000000 demo_new_offer)) ∧
  check_config endless_config = Ok tt ∧
  ¬ collectable (offer_terms (agreement_config (λ _, EmptyString) (ck_dips endless_config)).1 1 5 1
     1700000000 demo_new_offer).
Proof.
  split; [split; [vm_compute; reflexivity|]|split; [vm_compute; reflexivity|]].
  - apply (started_config_is_usable (λ _, EmptyString) demo_checked_config 1 5 1 1700000000
             demo_new_offer); [vm_compute; reflexivity|vm_compute; discriminate..].
  - intros H. apply (started_config_is_usable (λ _, EmptyString) endless_config 1 5 1 1700000000
             demo_new_offer) in H; [|vm_compute; reflexivity|vm_compute; discriminate..].
    revert H. vm_compute. intros H. by apply H.
Defined.

End ConfigProps.
