(* ===== verification/QueueListener.v ===== *)
(** * The queue's notification listener (dipper-pgmq/src/listener.rs)

    A listener waits for job notifications and rebuilds its connection when it is
    lost.  Its caller races every wait against a timer, so a wait may be cancelled at
    any await, and what counts the reconnects outlives it.  A wait is a function of
    what its connection does, turn by turn; instants are in nanoseconds. *)

From S2P Require Import Prelude.
Local Open Scope Z_scope.

Module QueueListener.

Definition MAX_LISTENER_FAILURES : Z := 3.
Definition FAILURE_WINDOW : Z := 60 * 1000000000.

Record FailureRun : Type := mkRun { fr_count : Z; fr_last : option Z }.

Definition default_run : FailureRun := mkRun 0 None.

(** [now.duration_since(last)] is zero when [last] is later. *)
Definition in_window (last now : Z) : bool := Z.max 0 (now - last) <? FAILURE_WINDOW.

Definition record_failure (now : Z) (r : FailureRun) : Z * FailureRun :=
  let continues_run := match fr_last r with Some last => in_window last now | None => false end in
  let count := if continues_run then sat_add_u32 (fr_count r) 1 else 1 in
  (count, mkRun count (Some now)).

Definition clear_run (r : FailureRun) : FailureRun := mkRun 0 None.

(** ** Waiting *)

(** [ql_listener] is whether a connection is held. *)
Record PgQueueListener : Type := mkListener { ql_listener : bool; ql_failures : FailureRun }.

(** The bounded [subscribe]; the caller may cancel it. *)
Inductive sub_outcome : Type := Subscribed | SubscribeFailed | SubscribeElapsed | SubscribeCancelled.

(** [try_recv]: a notification, a lost connection, an error, or a cancelled wait. *)
Inductive recv_outcome : Type := Notification | ConnectionLost | ReceiveFailed | ReceiveCancelled.

(** What one turn of the loop meets. *)
Record ListenTurn : Type := mkTurn { tn_now : Z; tn_sub : sub_outcome; tn_recv : recv_outcome }.

Inductive WaitEnd : Type :=
| Delivered
| TooManyReconnects (failures : Z)
| ConnectionError.

Inductive turn_result : Type := Continue | Cancelled | Return (e : WaitEnd).

Definition listener_new (outcome : sub_outcome) : option PgQueueListener :=
  match outcome with
  | Subscribed => Some (mkListener true default_run)
  | SubscribeFailed | SubscribeElapsed | SubscribeCancelled => None
  end.

Definition receive (outcome : recv_outcome) (l : PgQueueListener) : turn_result * PgQueueListener :=
  match outcome with
  | Notification => (Return Delivered, mkListener (ql_listener l) (clear_run (ql_failures l)))
  | ConnectionLost => (Continue, mkListener false (ql_failures l))
  | ReceiveFailed => (Return ConnectionError, mkListener false (ql_failures l))
  | ReceiveCancelled => (Cancelled, l)
  end.

(** The body of the loop of [wait_for_notification]. *)
Definition wait_turn (t : ListenTurn) (l : PgQueueListener) : turn_result * PgQueueListener :=
  if ql_listener l then receive (tn_recv t) l
  else
    let '(failures, run) := record_failure (tn_now t) (ql_failures l) in
    if MAX_LISTENER_FAILURES <=? failures
    then (Return (TooManyReconnects failures), mkListener false (clear_run run))
    else match tn_sub t with
         | Subscribed => receive (tn_recv t) (mkListener true run)
         | SubscribeFailed | SubscribeElapsed => (Continue, mkListener false run)
         | SubscribeCancelled => (Cancelled, mkListener false run)
         end.

(** [None] when the wait is cancelled, or has met no end yet; with the turns left. *)
Fixpoint wait_for_notification (ts : list ListenTurn) (l : PgQueueListener)
    : option WaitEnd * list ListenTurn * PgQueueListener :=
  match ts with
  | [] => (None, [], l)
  | t :: ts =>
      match wait_turn t l with
      | (Continue, l) => wait_for_notification ts l
      | (Cancelled, l) => (None, ts, l)
      | (Return e, l) => (Some e, ts, l)
      end
  end.

(** A caller that waits again whenever a wait ends: what the waits return. *)
Fixpoint listen (ts : list ListenTurn) (l : PgQueueListener) : list WaitEnd :=
  match ts with
  | [] => []
  | t :: ts =>
      match wait_turn t l with
      | (Continue, l) | (Cancelled, l) => listen ts l
      | (Return e, l) => e :: listen ts l
      end
  end.

Lemma listen_waits ts l :
  let '(r, rest, l') := wait_for_notification ts l in
  listen ts l = option_list r ++ listen rest l'.
Proof.
  revert l. induction ts as [|t ts IH]; intros l; simpl; [done|].
  destruct (wait_turn t l) as [[] l']; [apply IH|done|done].
Qed.

(** ** The run a listener counts *)

(** The reference: the instants of the reconnects of the present run, the last
    first. *)
Definition note_instant (now : Z) (h : list Z) : list Z :=
  match h with
  | last :: _ => if in_window last now then now :: h else [now]
  | [] => [now]
  end.

Definition counts (r : FailureRun) (h : list Z) : Prop :=
  fr_count r = Z.of_nat (length h) ∧ fr_last r = head h.

Lemma record_counts now r h :
  counts r h → (length h < 3)%nat →
  let '(n, r') := record_failure now r in counts r' (note_instant now h) ∧ n = Z.of_nat (length (note_instant now h)).
Proof.
  intros [Hc Hl] Hlen. unfold record_failure, note_instant. rewrite Hl.
  destruct h as [|last h]; simpl in *; [done|].
  destruct (in_window last now); [|done].
  assert (sat_add_u32 (fr_count r) 1 = Z.of_nat (S (S (length h)))) as ->.
  { unfold sat_add_u32, u32_max. lia. }
  done.
Qed.

(** Each instant is within the window of the one before it. *)
Fixpoint in_a_run (h : list Z) : bool :=
  match h with
  | now :: (last :: _) as rest => in_window last now && in_a_run rest
  | _ => true
  end.

Lemma note_in_a_run now h : in_a_run h → in_a_run (note_instant now h).
Proof.
  destruct h as [|last h]; [done|]. intros H. unfold note_instant.
  destruct (in_window last now) eqn:Hw; [|done]. simpl. by rewrite Hw.
Qed.

(** What holds of a listener between turns: it counts a run of fewer than three
    reconnects, all of them among the instants [past]. *)
Record listening (l : PgQueueListener) (past h : list Z) : Prop := {
  ls_counts : counts (ql_failures l) h;
  ls_run : in_a_run h;
  ls_short : (length h < 3)%nat;
  ls_past : reverse h `sublist_of` past }.

Lemma listening_cleared b r past : listening (mkListener b (clear_run r)) past [].
Proof. split; [done|done|simpl; lia|apply sublist_nil_l]. Qed.

Lemma listening_keeps l b past now h :
  listening l past h → listening (mkListener b (ql_failures l)) (past ++ [now]) h.
Proof. intros [C R S P]. split; try done. by apply sublist_inserts_r. Qed.

Lemma note_past now h past :
  reverse h `sublist_of` past → reverse (note_instant now h) `sublist_of` past ++ [now].
Proof.
  intros H. assert (reverse (now :: h) `sublist_of` past ++ [now]) as Hc.
  { rewrite reverse_cons. by apply sublist_app. }
  destruct h as [|last h]; [exact Hc|]. unfold note_instant.
  destruct (in_window last now); [exact Hc|]. apply sublist_inserts_l. reflexivity.
Qed.

(** A turn of a wait keeps the listener's account of its run, whether it goes on,
    returns or is cancelled; and it gives up only on the third reconnect of a run. *)
Lemma turn_listening t l past h r l' :
  listening l past h → wait_turn t l = (r, l') →
  (∃ h', listening l' (past ++ [tn_now t]) h') ∧
  ∀ n, r = Return (TooManyReconnects n) →
    n = 3 ∧ ∃ a b, in_window a b ∧ in_window b (tn_now t) ∧
      [a; b; tn_now t] `sublist_of` past ++ [tn_now t].
Proof.
  intros Hl Ht. unfold wait_turn in Ht. destruct (ql_listener l).
  { unfold receive in Ht. destruct (tn_recv t); injection Ht as <- <-; (split; [|done]);
      eauto using listening_cleared, listening_keeps. 
    exists h. destruct l as [b run]. by apply (listening_keeps (mkListener b run) b). }
  pose proof Hl as [C R S P]. pose proof (record_counts (tn_now t) _ _ C S) as Hr.
  destruct (record_failure (tn_now t) (ql_failures l)) as [n run]. destruct Hr as [Hc ->].
  pose proof (note_past (tn_now t) h past P) as Hp. pose proof (note_in_a_run (tn_now t) h R) as Hin.
  unfold MAX_LISTENER_FAILURES in Ht.
  destruct (Z.leb_spec 3 (Z.of_nat (length (note_instant (tn_now t) h)))) as [H3|H3].
  - injection Ht as <- <-. split; [eauto using listening_cleared|].
    intros n [= <-]. destruct h as [|b [|a [|x h]]]; unfold note_instant in *; simpl in *; try lia;
      destruct (in_window b (tn_now t)) eqn:Hw; simpl in *; try lia.
    split; [done|]. exists a, b. rewrite Hw. split_and!; [|done|exact Hp].
    by destruct (in_window a b).
  - assert (∀ b, listening (mkListener b run) (past ++ [tn_now t]) (note_instant (tn_now t) h)) as Hk.
    { intros b. split; simpl; try done. lia. }
    destruct (tn_sub t); [|injection Ht as <- <-; split; [eauto|done]..].
    unfold receive in Ht. destruct (tn_recv t); injection Ht as <- <-; (split; [|done]);
      eauto using listening_cleared.
Qed.

Lemma listen_reports ts l past h n :
  listening l past h → TooManyReconnects n ∈ listen ts l →
  n = 3 ∧ ∃ a b c, in_window a b ∧ in_window b c ∧ [a; b; c] `sublist_of` past ++ (tn_now <$> ts).
Proof.
  revert l past h. induction ts as [|t ts IH]; intros l past h Hl Hin; simpl in *; [set_solver|].
  destruct (wait_turn t l) as [r l'] eqn:Ht.
  destruct (turn_listening t l past h r l' Hl Ht) as [[h' Hl'] Hn].
  assert (∀ xs : list Z, (past ++ [tn_now t]) ++ xs = past ++ tn_now t :: xs) as Hx.
  { intros xs. by rewrite <-app_assoc. }
  destruct r as [| |e]; [by rewrite <-Hx; eapply IH..|].
  apply elem_of_cons in Hin as [<-|Hin]; [|by rewrite <-Hx; eapply IH].
  destruct (Hn n eq_refl) as (-> & a & b & H1 & H2 & H3). split; [done|].
  exists a, b, (tn_now t). split_and!; [done..|]. rewrite <-Hx. by apply sublist_inserts_r.
Qed.

(** A listener that gives up had to reconnect three times, each within a
    minute of the one before, however its caller cut its waits; connections lost
    now and then are never reported. *)
Theorem report_means_a_run ts n :
  TooManyReconnects n ∈ listen ts (mkListener true default_run) →
  n = 3 ∧ ∃ a b c, in_window a b ∧ in_window b c ∧ [a; b; c] `sublist_of` (tn_now <$> ts).
Proof.
  apply (listen_reports ts _ [] []). split; [done..|simpl; lia|done].
Qed.

(** ** A broken connection is reported *)

(** A turn that ends without a connection: the reconnect failed, timed out or was
    cancelled, or the new connection was lost. *)
Definition fruitless (t : ListenTurn) : bool :=
  match tn_sub t, tn_recv t with
  | Subscribed, ConnectionLost => true
  | Subscribed, _ => false
  | _, _ => true
  end.

Lemma fruitless_turn t l r l' :
  ql_listener l = false → fruitless t → wait_turn t l = (r, l') →
  ql_listener l' = false ∧
  ((∃ n, r = Return (TooManyReconnects n)) ∨
   ((r = Continue ∨ r = Cancelled) ∧ ql_failures l' = (record_failure (tn_now t) (ql_failures l)).2)).
Proof.
  intros Hl Hf Ht. unfold wait_turn in Ht. rewrite Hl in Ht.
  destruct (record_failure (tn_now t) (ql_failures l)) as [n run].
  destruct (MAX_LISTENER_FAILURES <=? n); [injection Ht as <- <-; eauto|].
  unfold fruitless in Hf. destruct (tn_sub t), (tn_recv t); simpl in *; try done;
    injection Ht as <- <-; eauto.
Qed.

(** C36: three turns without a connection, each within a minute of the one before,
    are reported by the third at the latest, even when the caller cancelled the wait
    in every one of them. *)
Theorem broken_connection_is_reported l t1 t2 t3 rest :
  ql_listener l = false → 0 ≤ fr_count (ql_failures l) →
  fruitless t1 → fruitless t2 →
  in_window (tn_now t1) (tn_now t2) → in_window (tn_now t2) (tn_now t3) →
  ∃ n, TooManyReconnects n ∈ listen (t1 :: t2 :: t3 :: rest) l.
Proof.
  intros Hl H0 F1 F2 W1 W2. cbn [listen].
  destruct (wait_turn t1 l) as [r1 l1] eqn:E1.
  destruct (fruitless_turn t1 l r1 l1 Hl F1 E1) as [Hl1 [[n ->]|[Hr1 Hf1]]]; [exists n; set_solver|].
  destruct (wait_turn t2 l1) as [r2 l2] eqn:E2.
  destruct (fruitless_turn t2 l1 r2 l2 Hl1 F2 E2) as [Hl2 [[n ->]|[Hr2 Hf2]]].
  { exists n. destruct Hr1 as [-> | ->]; set_solver. }
  assert (1 ≤ fr_count (ql_failures l1) ∧ fr_last (ql_failures l1) = Some (tn_now t1)) as [C1 L1].
  { rewrite Hf1. unfold record_failure. simpl. split; [|done].
    destruct (match fr_last _ with Some _ => _ | None => _ end); [|lia].
    unfold sat_add_u32, u32_max. lia. }
  assert (2 ≤ fr_count (ql_failures l2) ∧ fr_last (ql_failures l2) = Some (tn_now t2)) as [C2 L2].
  { rewrite Hf2. unfold record_failure. rewrite L1. apply Is_true_true in W1. rewrite W1. simpl.
    split; [|done]. unfold sat_add_u32, u32_max. lia. }
  assert (∃ n l3, wait_turn t3 l2 = (Return (TooManyReconnects n), l3)) as (n & l3 & E3).
  { unfold wait_turn, record_failure. rewrite Hl2, L2. apply Is_true_true in W2. rewrite W2.
    unfold MAX_LISTENER_FAILURES. rewrite (proj2 (Z.leb_le 3 _)); [eauto|].
    unfold sat_add_u32, u32_max. lia. }
  exists n. destruct Hr1 as [-> | ->], Hr2 as [-> | ->]; rewrite E3; set_solver.
Qed.

(** ** Worked runs *)

Definition cut (at_ : Z) : ListenTurn := mkTurn (at_ * 1000000000) SubscribeCancelled ReceiveCancelled.

Lemma broken_connection_is_reported_witness :
  listen [cut 1; cut 2; cut 3] (mkListener false default_run) = [TooManyReconnects 3] ∧
  ∃ n, TooManyReconnects n ∈ listen [cut 1; cut 2; cut 3] (mkListener false default_run).
Proof.
  split; [vm_compute; reflexivity|].
  apply (broken_connection_is_reported (mkListener false default_run) (cut 1) (cut 2) (cut 3) []);
    vm_compute; intuition discriminate.
Defined.

Definition lost (at_ : Z) : ListenTurn := mkTurn (at_ * 1000000000) Subscribed ConnectionLost.

Lemma report_means_a_run_witness :
  listen (lost <$> [1; 2; 30; 61]) (mkListener true default_run) = [TooManyReconnects 3] ∧
  ∃ a b c, in_window a b ∧ in_window b c ∧
    [a; b; c] `sublist_of` (tn_now <$> (lost <$> [1; 2; 30; 61])).
Proof.
  split; [vm_compute; reflexivity|].
  destruct (report_means_a_run (lost <$> [1; 2; 30; 61]) 3) as [_ H]; [|exact H].
  vm_compute. left.
Defined.

(** A connection reaped once an hour is rebuilt and never reported. *)
Example hourly_losses_are_quiet :
  listen (lost <$> [0; 3600; 7200; 10800; 14400]) (mkListener true default_run) = [].
Proof. vm_compute. reflexivity. Qed.

End QueueListener.
