(* ===== verification/WorkerLoop.v ===== *)
(** * The worker's loops (worker/service.rs: [new], [run_loop], [process_job])

    Several loops drain the queue at once.  Each waits on its own subscription,
    ticks its watermark, pops a job, runs its handler under the backstop and
    settles the job; when one ends the others are told to stop.  The loops are a
    transition system over the shared queue, in which every interleaving is a run.
    Instants are in nanoseconds,
    watermarks in seconds. *)

From S2P Require Import Prelude Schema Registry RegistryInv RegistryRuns RegistryOps RegistryQueries.
From S2P Require Import JobQueue JobQueueProps Worker CancelDispatch ChainEvents ChainListener.
From S2P Require Import Services Supervisor.
Import ChainListener Services Supervisor JobQueue JobQueueProps Worker.
Local Open Scope Z_scope.

Module WorkerLoop.

(** ** Dispatch *)

(** The handlers, one for each message. *)
Record HandlerTable (A : Type) : Type := mkHandlers {
  on_reassess : N → N → Z → Z → A;
  on_proposal : string → N → N → N → Z → A;
  on_cancel_check : N → option ChainAccept → A;
  on_submit_offer : N → N → string → N → Z → A }.
Arguments on_reassess {A} _ _ _ _ _.
Arguments on_proposal {A} _ _ _ _ _ _.
Arguments on_cancel_check {A} _ _ _.
Arguments on_submit_offer {A} _ _ _ _ _ _.

Definition process_job {A} (handlers : HandlerTable A) (message : Message) : A :=
  match message with
  | ReassessIndexingRequest r d chain n => on_reassess handlers r d chain n
  | SendIndexingAgreementProposal url a r d chain => on_proposal handlers url a r d chain
  | CancelRejectedAgreementOnChain a accept => on_cancel_check handlers a accept
  | SubmitOffer a r url d chain => on_submit_offer handlers a r url d chain
  end.

(** ** The loops *)

Inductive LoopEnd : Type := LoopDone | LoopPanicked.

Section loops.
Context {D T : Type} (decode : D → option T).
Notation Queue := (Queue D).
Notation Guard := (JobGuard D T).

Inductive LoopState : Type :=
| Waiting (s : Subscription)
| Polling (s : Subscription)
| Working (s : Subscription) (g : Guard)
| Ended (e : LoopEnd)
| Joined (e : LoopEnd).

Record WorkerState : Type := mkWorker {
  wk_queue : Queue;
  wk_loops : list LoopState;
  wk_marks : list Z;
  wk_stop : bool;
  wk_first_err : bool }.

(** [new]: a loop and a watermark for each of [concurrency.max(1)]; [oks] says
    whose first subscription succeeds. *)
Definition worker_new (q : Queue) (concurrency : nat) (ok : nat → bool) (now : Z) : WorkerState :=
  let loops := seq 0 (Nat.max concurrency 1) in
  mkWorker q ((λ i, Waiting (subscription_start (ok i) now)) <$> loops)
    ((λ _, now / 1000000000) <$> loops) false false.

(** A waiting loop's [next_tick], and its watermark: [None] when the event cannot
    happen.  The select is biased, so once a stop was sent a wait ends in it. *)
Definition loop_wait (ev : wait_event) (ok : bool) (now : Z) (i : nat) (w : WorkerState)
    : option WorkerState :=
  match wk_loops w !! i with
  | Some (Waiting s) =>
      match next_tick ev ok now s with
      | None => None
      | Some (false, _) =>
          if wk_stop w
          then Some (mkWorker (wk_queue w) (<[i := Ended LoopDone]> (wk_loops w)) (wk_marks w)
                       (wk_stop w) (wk_first_err w))
          else None
      | Some (true, s) =>
          if wk_stop w then None
          else Some (mkWorker (wk_queue w) (<[i := Polling s]> (wk_loops w))
                       (tick i (now / 1000000000) (wk_marks w)) (wk_stop w) (wk_first_err w))
      end
  | _ => None
  end.

(** [queue.pop()]; [reachable] says whether the database answers. *)
Definition loop_pop (reachable : bool) (db_now : Z) (i : nat) (w : WorkerState)
    : option WorkerState :=
  match wk_loops w !! i with
  | Some (Polling s) =>
      let '(job, q) := match pop decode db_now (wk_queue w) with
                       | (Ok job, q) => if reachable then (job, q) else (None, wk_queue w)
                       | (Err _, q) => (None, if reachable then q else wk_queue w)
                       end in
      Some (mkWorker q (<[i := from_option (Working s) (Waiting s) job]> (wk_loops w))
              (wk_marks w) (wk_stop w) (wk_first_err w))
  | _ => None
  end.

(** The job's handler returned, or the backstop elapsed ([fut] is [None]), and
    the job was settled. *)
Definition loop_finish (fut : option JobResult) (wall : Z) (commits : bool) (i : nat)
    (w : WorkerState) : option WorkerState :=
  match wk_loops w !! i with
  | Some (Working s g) =>
      Some (mkWorker (finish_job wall g fut commits (wk_queue w))
              (<[i := Waiting s]> (wk_loops w)) (wk_marks w) (wk_stop w) (wk_first_err w))
  | _ => None
  end.

(** A panic drops the guard, and with it the transaction. *)
Definition loop_panic (i : nat) (w : WorkerState) : option WorkerState :=
  match wk_loops w !! i with
  | Some (Working _ g) =>
      Some (mkWorker (guard_drop g (wk_queue w)) (<[i := Ended LoopPanicked]> (wk_loops w))
              (wk_marks w) (wk_stop w) (wk_first_err w))
  | Some (Waiting _) | Some (Polling _) =>
      Some (mkWorker (wk_queue w) (<[i := Ended LoopPanicked]> (wk_loops w))
              (wk_marks w) (wk_stop w) (wk_first_err w))
  | _ => None
  end.

(** A loop that ended is joined: an error is kept, and the others are stopped. *)
Definition join_loop (i : nat) (w : WorkerState) : option WorkerState :=
  match wk_loops w !! i with
  | Some (Ended e) =>
      Some (mkWorker (wk_queue w) (<[i := Joined e]> (wk_loops w)) (wk_marks w) true
              (wk_first_err w || match e with LoopPanicked => true | LoopDone => false end))
  | _ => None
  end.

(** The future resolves once every loop was joined: [true] is [Ok]. *)
Definition worker_result (w : WorkerState) : option bool :=
  if forallb (λ l, match l with Joined _ => true | _ => false end) (wk_loops w)
  then Some (negb (wk_first_err w)) else None.

(** [Handle::stop] *)
Definition send_stop (w : WorkerState) : WorkerState :=
  mkWorker (wk_queue w) (wk_loops w) (wk_marks w) true (wk_first_err w).

(** A push by any part of the service. *)
Definition outside_push (queue_max now : Z) (i : N) (b : JobBuilder D) (w : WorkerState)
    : WorkerState :=
  mkWorker (queue_push queue_max now i b (wk_queue w)).2 (wk_loops w) (wk_marks w) (wk_stop w)
    (wk_first_err w).

(** What the loops, and the future that joins them, do. *)
Inductive lstep : WorkerState → WorkerState → Prop :=
| l_wait ev ok now i w w' : loop_wait ev ok now i w = Some w' → lstep w w'
| l_pop reachable db_now i w w' : loop_pop reachable db_now i w = Some w' → lstep w w'
| l_finish fut wall commits i w w' : loop_finish fut wall commits i w = Some w' → lstep w w'
| l_panic i w w' : loop_panic i w = Some w' → lstep w w'
| l_join i w w' : join_loop i w = Some w' → lstep w w'.

Inductive wstep : WorkerState → WorkerState → Prop :=
| w_loop w w' : lstep w w' → wstep w w'
| w_stop w : wstep w (send_stop w)
| w_push queue_max now i b w :
    1 ≤ default queue_max (bd_max_attempts b) ≤ i32_max →
    wstep w (outside_push queue_max now i b w).

Definition started (w : WorkerState) : Prop := ∃ concurrency ok now, w = worker_new empty_queue concurrency ok now.

(** ** The loops refine the queue's workers *)

Definition guard_of (l : LoopState) : option Guard :=
  match l with Working _ g => Some g | _ => None end.
Definition guards (w : WorkerState) : list Guard := omap guard_of (wk_loops w).

(** Some run of the queue's own machine has this queue, and the guards the loops
    hold. *)
Definition refines (w : WorkerState) : Prop :=
  ∃ c, rtc (qstep decode) start c ∧ queue c = wk_queue w ∧ held c ≡ₚ guards w.

Lemma guards_insert (ls : list LoopState) i l l' :
  ls !! i = Some l →
  option_list (guard_of l) ++ omap guard_of (<[i := l']> ls) ≡ₚ
  option_list (guard_of l') ++ omap guard_of ls.
Proof.
  intros Hi. rewrite <-(take_drop_middle ls i l Hi) at 2.
  rewrite insert_take_drop by (by eapply lookup_lt_Some).
  rewrite !omap_app. simpl. destruct (guard_of l), (guard_of l'); simpl; solve_Permutation.
Qed.

Lemma guards_held i s g w :
  wk_loops w !! i = Some (Working s g) → g ∈ guards w.
Proof.
  intros Hi. apply list_elem_of_omap. exists (Working s g). split; [by eapply list_elem_of_lookup_2|done].
Qed.

(** Settling a job a loop holds is a step of the queue. *)
Lemma refines_settle a i s g l w :
  refines w → wk_loops w !! i = Some (Working s g) → guard_of l = None →
  ∃ c, rtc (qstep decode) start c ∧ queue c = settle a g (wk_queue w) ∧
    held c ≡ₚ omap guard_of (<[i := l]> (wk_loops w)).
Proof.
  intros (c & Hr & Hq & Hh) Hi Hl. pose proof (guards_held _ _ _ _ Hi) as Hg.
  rewrite <-Hh in Hg. apply list_elem_of_split in Hg as (pre & post & Hp).
  destruct c as [q hs]. simpl in *. subst q hs. eexists. split; [|split].
  - eapply rtc_r; [exact Hr|]. apply (step_settle decode a).
  - done.
  - pose proof (guards_insert _ i _ l Hi) as Hins. rewrite Hl in Hins. simpl in *.
    apply (Permutation_cons_inv (a := g)). rewrite Hins. rewrite Permutation_middle. exact Hh.
Qed.

(** A loop that holds no job moves without touching the queue. *)
Lemma refines_quiet i l l' marks stop err w :
  refines w → wk_loops w !! i = Some l → guard_of l = None → guard_of l' = None →
  refines (mkWorker (wk_queue w) (<[i := l']> (wk_loops w)) marks stop err).
Proof.
  intros (c & Hr & Hq & Hh) Hi Hl Hl'. exists c. split; [done|]. split; [done|].
  pose proof (guards_insert _ i _ l' Hi) as H. rewrite Hl, Hl' in H. simpl in H.
  unfold guards. simpl. by rewrite H.
Qed.

Lemma pop_idle db_now q r q' :
  pop decode db_now q = (r, q') → (∀ g, r ≠ Ok (Some g)) → q' = q.
Proof.
  unfold pop. intros Hp Hn. destruct (order_by _ _) as [|j l]; [by simplify_eq|].
  destruct (decode _); simplify_eq; [|done]. by destruct (Hn _ eq_refl).
Qed.

Lemma refines_pop reachable db_now i w w' :
  loop_pop reachable db_now i w = Some w' → refines w → refines w'.
Proof.
  unfold loop_pop. intros Ht Hrf.
  destruct (wk_loops w !! i) as [[|s| | |]|] eqn:Hi; try done.
  destruct (pop decode db_now (wk_queue w)) as [popped q] eqn:Hp.
  destruct popped as [[g|]|err], reachable; injection Ht as <-;
    try (apply pop_idle in Hp as ->; [|done]); try (by eapply refines_quiet).
  destruct Hrf as (c & Hr & Hq & Hh).
  exists (mkConfig q (g :: held c)). split; [|split; [done|]].
  - eapply rtc_r; [exact Hr|]. apply (step_pop decode db_now). by rewrite Hq.
  - pose proof (guards_insert _ i _ (Working s g) Hi) as H. unfold guards. simpl in *.
    rewrite H. by constructor.
Qed.

Lemma lstep_refines w w' : lstep w w' → refines w → refines w'.
Proof.
  intros Hs Hrf. destruct Hs as [ev ok now i w w' Ht|re db i w w' Ht|fut wall commits i w w' Ht|i w w' Ht|i w w' Ht].
  - unfold loop_wait in Ht. destruct (wk_loops w !! i) as [[]|] eqn:Hi; try done.
    destruct (next_tick _ _ _ _) as [[[] ?]|], (wk_stop w); simplify_eq; by eapply refines_quiet.
  - by eapply refines_pop.
  - unfold loop_finish in Ht. destruct (wk_loops w !! i) as [[]|] eqn:Hi; simplify_eq.
    by eapply refines_settle.
  - unfold loop_panic in Ht. destruct (wk_loops w !! i) as [[]|] eqn:Hi; simplify_eq;
      try (by eapply refines_quiet). by eapply (refines_settle Drop).
  - unfold join_loop in Ht. destruct (wk_loops w !! i) as [[]|] eqn:Hi; simplify_eq.
    by eapply refines_quiet.
Qed.

Lemma wstep_refines w w' : wstep w w' → refines w → refines w'.
Proof.
  intros Hs Hrf. destruct Hs as [w w' Hl|w|qm now i b w Hb].
  - by eapply lstep_refines.
  - destruct Hrf as (c & Hr & Hq & Hh). by exists c.
  - destruct Hrf as (c & Hr & Hq & Hh). eexists. split; [|split].
    + eapply rtc_r; [exact Hr|]. by apply (step_push decode qm now i b).
    + simpl. by rewrite Hq.
    + exact Hh.
Qed.

Lemma started_guards w : started w → wk_queue w = empty_queue ∧ guards w = [].
Proof.
  intros (n & ok & now & ->). split; [done|]. unfold guards. simpl.
  generalize (seq 0 (Nat.max n 1)) as ks. intros ks. by induction ks.
Qed.

Lemma started_refines w : started w → refines w.
Proof.
  intros [Hq Hg]%started_guards. exists start. split; [apply rtc_refl|].
  by rewrite Hq, Hg.
Qed.

Lemma run_refines w0 w : started w0 → rtc wstep w0 w → refines w.
Proof.
  intros H0%started_refines Hr. induction Hr; eauto using wstep_refines.
Qed.

(** C13: worker loops share the queue without sharing a job.  In every
    interleaving of their waits, pops, settlements, panics and stops with pushes from the
    rest of the service, the queue and the jobs the loops hold are those of a run of
    the queue's own machine; so no two loops hold one job, the locked rows are
    exactly the held ones, and each is still there, queued, for its loop to
    settle. *)
Theorem worker_refines_queue w0 w :
  started w0 → rtc wstep w0 w →
  (∃ c, rtc (qstep decode) start c ∧ queue c = wk_queue w ∧ held c ≡ₚ guards w) ∧
  NoDup (jg_id <$> guards w) ∧
  locked (wk_queue w) = list_to_set (jg_id <$> guards w) ∧
  ∀ g, g ∈ guards w → holds_row decode (wk_queue w) g.
Proof.
  intros H0 Hr. destruct (run_refines w0 w H0 Hr) as (c & Hc & Hq & Hh).
  split; [by exists c|]. apply reach_inv in Hc as [_ _ L O H].
  rewrite <-Hq. split; [by rewrite <-Hh|]. split; [|intros g; rewrite <-Hh; apply H].
  rewrite L. apply leibniz_equiv. by rewrite Hh.
Qed.

(** ** Ending *)

Definition panicked (l : LoopState) : bool :=
  match l with Joined LoopPanicked => true | _ => false end.
Definition was_joined (l : LoopState) : bool :=
  match l with Joined _ => true | _ => false end.

(** The error kept is that of a joined loop that panicked, and a loop ends by itself
    only once the worker stops. *)
Record ends_ok (w : WorkerState) : Prop := {
  eo_err : wk_first_err w = existsb panicked (wk_loops w);
  eo_stop : ∀ l, l ∈ wk_loops w → l = Ended LoopDone ∨ was_joined l → wk_stop w = true;
  eo_marks : length (wk_marks w) = length (wk_loops w);
  eo_some : (0 < length (wk_loops w))%nat }.

Lemma existsb_insert (f : LoopState → bool) ls i l l' :
  ls !! i = Some l → f l = false → existsb f (<[i := l']> ls) = existsb f ls || f l'.
Proof.
  intros Hi Hf. apply Bool.eq_iff_eq_true. rewrite orb_true_iff, !existsb_exists. split.
  - intros (x & Hx & Ht). apply list_elem_of_In, list_elem_of_lookup in Hx as [k Hk].
    destruct (decide (k = i)) as [->|Hne].
    + rewrite list_lookup_insert_eq in Hk by (by eapply lookup_lt_Some). simplify_eq. by right.
    + rewrite list_lookup_insert_ne in Hk by done. left. exists x.
      by split; [eapply list_elem_of_In, list_elem_of_lookup_2|].
  - intros [(x & Hx & Ht)|Ht].
    + apply list_elem_of_In, list_elem_of_lookup in Hx as [k Hk]. exists x. split; [|done].
      apply list_elem_of_In, (list_elem_of_lookup_2 _ k). rewrite list_lookup_insert_ne; [done|].
      intros <-. simplify_eq. congruence.
    + exists l'. split; [|done]. apply list_elem_of_In, (list_elem_of_lookup_2 _ i).
      apply list_lookup_insert_eq. by eapply lookup_lt_Some.
Qed.

(** The loops' moves other than a join keep what was joined. *)
Lemma ends_ok_move i l l' q marks w :
  ends_ok w → wk_loops w !! i = Some l → was_joined l = false → was_joined l' = false →
  (l' = Ended LoopDone → wk_stop w = true) → length marks = length (wk_marks w) →
  ends_ok (mkWorker q (<[i := l']> (wk_loops w)) marks (wk_stop w) (wk_first_err w)).
Proof.
  intros [E S M P] Hi Hl Hl' Hd Hm. split; simpl.
  - rewrite E, (existsb_insert _ _ i l l' Hi); [|by destruct l].
    by destruct l', (existsb panicked (wk_loops w)).
  - intros x Hx Hx'. apply list_elem_of_lookup in Hx as [k Hk].
    apply list_lookup_insert_Some in Hk as [(-> & -> & _)|[_ Hk]].
    + destruct Hx' as [Hx'|Hx']; [by apply Hd|]. by rewrite Hl' in Hx'.
    + by eapply S; [eapply list_elem_of_lookup_2|].
  - by rewrite length_insert, Hm.
  - by rewrite length_insert.
Qed.

Lemma lstep_ends w w' : lstep w w' → ends_ok w → ends_ok w'.
Proof.
  intros Hs Ho. destruct Hs as [ev ok now i w w' Ht|re db i w w' Ht|fut wall commits i w w' Ht|i w w' Ht|i w w' Ht].
  - unfold loop_wait in Ht. destruct (wk_loops w !! i) as [[]|] eqn:Hi; try done.
    destruct (next_tick _ _ _ _) as [[[] ?]|], (wk_stop w) eqn:Hst; simplify_eq;
      rewrite <-Hst; eapply ends_ok_move; try done. apply length_insert.
  - unfold loop_pop in Ht. destruct (wk_loops w !! i) as [[]|] eqn:Hi; try done.
    destruct (pop decode db (wk_queue w)) as [[[]|] q], re; injection Ht as <-;
      by eapply ends_ok_move.
  - unfold loop_finish in Ht. destruct (wk_loops w !! i) as [[]|] eqn:Hi; simplify_eq.
    by eapply ends_ok_move.
  - unfold loop_panic in Ht. destruct (wk_loops w !! i) as [[]|] eqn:Hi; simplify_eq;
      by eapply ends_ok_move.
  - unfold join_loop in Ht. destruct (wk_loops w !! i) as [[| | |e|]|] eqn:Hi; simplify_eq.
    destruct Ho as [E S M P]. split; simpl; [|done|by rewrite length_insert..].
    by rewrite E, (existsb_insert _ _ i _ _ Hi) by done.
Qed.

Lemma wstep_ends w w' : wstep w w' → ends_ok w → ends_ok w'.
Proof.
  intros Hs Ho. destruct Hs as [w w' Hl|w|qm now i b w Hb]; [by eapply lstep_ends| |].
  - destruct Ho as [E S M P]. split; simpl; eauto.
  - destruct Ho as [E S M P]. by split.
Qed.

Lemma run_ends w0 w : started w0 → rtc wstep w0 w → ends_ok w.
Proof.
  intros (n & ok & now & ->) Hr. assert (ends_ok (worker_new empty_queue n ok now)) as H0.
  { split; simpl.
    - by induction (seq 0 (Nat.max n 1)).
    - intros l (k & -> & _)%list_elem_of_fmap [Hd|Hd]; [discriminate Hd|destruct Hd].
    - by rewrite !length_fmap.
    - rewrite length_fmap, length_seq. lia. }
  induction Hr; eauto using wstep_ends.
Qed.

(** The worker ends as one.  It resolves only when every loop was joined; then it
    had been told to stop, no loop holds a job and no row of the queue is locked, and
    it reports success exactly when no loop panicked. *)
Theorem worker_ends_as_one w0 w r :
  started w0 → rtc wstep w0 w → worker_result w = Some r →
  wk_stop w = true ∧ locked (wk_queue w) = ∅ ∧
  (r = true ↔ ∀ l, l ∈ wk_loops w → l = Joined LoopDone).
Proof.
  intros H0 Hr Hw. unfold worker_result in Hw.
  destruct (forallb _ (wk_loops w)) eqn:Hall; [|done]. injection Hw as <-.
  rewrite forallb_forall in Hall.
  assert (∀ l, l ∈ wk_loops w → ∃ e, l = Joined e) as Hj.
  { intros l Hl%list_elem_of_In. specialize (Hall l Hl). destruct l; eauto; done. }
  destruct (run_refines w0 w H0 Hr) as (c & Hc & Hq & Hh).
  pose proof (run_ends w0 w H0 Hr) as [E S _ P]. split; [|split].
  - destruct (wk_loops w) as [|l ls] eqn:Hl.
    { simpl in P. lia. }
    destruct (Hj l) as [e ->]; [by left|]. apply (S (Joined e)); [by left|by right].
  - apply reach_inv in Hc as [_ _ L _ _]. rewrite <-Hq, L.
    assert (guards w = []) as Hg.
    { unfold guards. apply elem_of_nil_inv. intros g (l & Hl & Hgl)%list_elem_of_omap.
      by destruct (Hj l Hl) as [e ->]. }
    rewrite Hg in Hh. symmetry in Hh. apply Permutation_nil in Hh. by rewrite Hh.
  - rewrite E, negb_true_iff, <-not_true_iff_false, existsb_exists. split.
    + intros Hn l Hl. destruct (Hj l Hl) as [[] ->]; [done|]. destruct Hn.
      exists (Joined LoopPanicked). by rewrite <-list_elem_of_In.
    + intros Hd (l & Hl%list_elem_of_In & Hp). by rewrite (Hd l Hl) in Hp.
Qed.

(** ** Draining *)

Definition rank (l : LoopState) : nat :=
  match l with Polling _ => 4 | Working _ _ => 3 | Waiting _ => 2 | Ended _ => 1 | Joined _ => 0 end.
Definition work_left (w : WorkerState) : nat := sum_list (rank <$> wk_loops w).

Lemma sum_insert (ls : list LoopState) i l l' :
  ls !! i = Some l →
  (rank l + sum_list (rank <$> <[i := l']> ls) = rank l' + sum_list (rank <$> ls))%nat.
Proof.
  revert i. induction ls as [|x ls IH]; intros [|i] Hi; simplify_eq/=; [lia|].
  specialize (IH i Hi). lia.
Qed.

Lemma lstep_drains w w' :
  wk_stop w = true → lstep w w' → wk_stop w' = true ∧ (work_left w' < work_left w)%nat.
Proof.
  intros Hst Hs. unfold work_left.
  destruct Hs as [ev ok now i w w' Ht|re db i w w' Ht|fut wall commits i w w' Ht|i w w' Ht|i w w' Ht].
  - unfold loop_wait in Ht. rewrite Hst in Ht. destruct (wk_loops w !! i) as [[]|] eqn:Hi; try done.
    destruct (next_tick _ _ _ _) as [[[] ?]|]; simplify_eq.
    pose proof (sum_insert _ i _ (Ended LoopDone) Hi) as H. simpl in *. split; [done|lia].
  - unfold loop_pop in Ht. destruct (wk_loops w !! i) as [[]|] eqn:Hi; try done.
    destruct (pop decode db (wk_queue w)) as [[[]|] q], re; injection Ht as <-; simpl;
      (split; [done|]); eapply Nat.add_lt_mono_l; rewrite (sum_insert _ i _ _ Hi); simpl; lia.
  - unfold loop_finish in Ht. destruct (wk_loops w !! i) as [[|  |s| |]|] eqn:Hi; simplify_eq.
    pose proof (sum_insert _ i _ (Waiting s) Hi) as H. simpl in *. split; [done|lia].
  - unfold loop_panic in Ht. destruct (wk_loops w !! i) as [[]|] eqn:Hi; simplify_eq;
      pose proof (sum_insert _ i _ (Ended LoopPanicked) Hi) as H; simpl in *; (split; [done|lia]).
  - unfold join_loop in Ht. destruct (wk_loops w !! i) as [[| | |e|]|] eqn:Hi; simplify_eq.
    pose proof (sum_insert _ i _ (Joined e) Hi) as H. simpl in *. split; [done|lia].
Qed.

(** A worker told to stop is stuck only once it has resolved. *)
Lemma stuck_is_resolved w :
  wk_stop w = true → (∀ w', ¬ lstep w w') → ∃ r, worker_result w = Some r.
Proof.
  intros Hst Hn. unfold worker_result.
  destruct (forallb _ (wk_loops w)) eqn:Hall; [by eexists|]. exfalso.
  apply not_true_iff_false in Hall. apply Hall, forallb_forall. intros l Hl%list_elem_of_In.
  apply list_elem_of_lookup in Hl as [i Hi]. destruct l as [s|s|s g|e|e]; [| | | |done]; exfalso.
  - eapply Hn, (l_wait StopRequested true 0 i). unfold loop_wait. by rewrite Hi, Hst.
  - eapply Hn, (l_panic i). unfold loop_panic. by rewrite Hi.
  - eapply Hn, (l_panic i). unfold loop_panic. by rewrite Hi.
  - eapply Hn, (l_join i). unfold join_loop. by rewrite Hi.
Qed.

Lemma rank_bound ls : (sum_list (rank <$> ls) ≤ 4 * length ls)%nat.
Proof. induction ls as [|l ls IH]; [done|]. rewrite fmap_cons. simpl. destruct l; simpl; lia. Qed.

(** C37: a stop drains the worker.  Once a stop was sent no run of its loops is longer
    than four steps a loop, and a run that can go no further has resolved. *)
Theorem stop_drains_the_worker w n w' :
  wk_stop w = true → nsteps lstep n w w' →
  (n ≤ 4 * length (wk_loops w))%nat ∧
  ((∀ w'', ¬ lstep w' w'') → ∃ r, worker_result w' = Some r).
Proof.
  intros Hst Hr. assert (wk_stop w' = true ∧ (n + work_left w' ≤ work_left w)%nat) as [H1 H2].
  { induction Hr as [w|n w w2 w3 Hs Hr IH]; [split; [done|lia]|].
    destruct (lstep_drains w w2 Hst Hs) as [H1 H2]. destruct (IH H1). split; [done|lia]. }
  pose proof (rank_bound (wk_loops w)). unfold work_left in H2. split; [lia|].
  by apply stuck_is_resolved.
Qed.

End loops.

(** ** A worked run: of two loops one holds the only job, then a stop ends both *)

Definition demo_w0 : WorkerState (D := Z) (T := Z) := worker_new empty_queue 2 (λ _, true) 0.
Definition demo_w1 : WorkerState := outside_push 3 100 1 (builder_new 7) demo_w0.
Definition after (f : WorkerState → option (WorkerState (D := Z) (T := Z))) (w : WorkerState)
    : WorkerState := default w (f w).
Definition demo_w3 : WorkerState :=
  after (loop_pop demo_decode true 200 1) (after (loop_wait Notified true 1000000000 1) demo_w1).
Definition demo_w5 : WorkerState :=
  after (loop_pop demo_decode true 300 0) (after (loop_wait PollElapsed true 2000000000 0) demo_w3).

Lemma rtc_same {A} (R : relation A) x y : x = y → rtc R x y.
Proof. intros ->. apply rtc_refl. Qed.

Lemma demo_run_loops : started demo_w0 ∧ rtc (wstep demo_decode) demo_w0 demo_w5.
Proof.
  split; [by exists 2%nat, (λ _, true), 0|].
  eapply rtc_l; [apply (w_push demo_decode 3 100 1 (builder_new 7)); simpl; unfold i32_max; lia|].
  eapply rtc_l; [apply w_loop, (l_wait _ Notified true 1000000000 1); vm_compute; reflexivity|].
  eapply rtc_l; [apply w_loop, (l_pop _ true 200 1); vm_compute; reflexivity|].
  eapply rtc_l; [apply w_loop, (l_wait _ PollElapsed true 2000000000 0); vm_compute; reflexivity|].
  eapply rtc_l; [apply w_loop, (l_pop _ true 300 0); vm_compute; reflexivity|].
  apply rtc_same. vm_compute. reflexivity.
Qed.

Lemma worker_refines_queue_witness :
  jg_id <$> guards demo_w5 = [1%N] ∧ locked (wk_queue demo_w5) = {[ 1%N ]}.
Proof.
  split; [vm_compute; reflexivity|].
  destruct (worker_refines_queue demo_decode demo_w0 demo_w5) as (_ & _ & H & _);
    [apply demo_run_loops..|].
  rewrite H. vm_compute. reflexivity.
Defined.

Definition demo_joined : WorkerState :=
  after (join_loop 1) (after (join_loop 0) (after (loop_wait StopRequested true 4000000000 1)
    (after (loop_wait StopRequested true 3000000000 0)
      (after (loop_finish (Some (Ok tt)) 1000000 true 1) (send_stop demo_w5))))).

Lemma demo_ends : rtc (wstep demo_decode) demo_w5 demo_joined.
Proof.
  eapply rtc_l; [apply w_stop|].
  eapply rtc_l; [apply w_loop, (l_finish _ (Some (Ok tt)) 1000000 true 1); vm_compute; reflexivity|].
  eapply rtc_l; [apply w_loop, (l_wait _ StopRequested true 3000000000 0); vm_compute; reflexivity|].
  eapply rtc_l; [apply w_loop, (l_wait _ StopRequested true 4000000000 1); vm_compute; reflexivity|].
  eapply rtc_l; [apply w_loop, (l_join _ 0); vm_compute; reflexivity|].
  eapply rtc_l; [apply w_loop, (l_join _ 1); vm_compute; reflexivity|].
  apply rtc_same. vm_compute. reflexivity.
Qed.

Lemma worker_ends_as_one_witness :
  worker_result demo_joined = Some true ∧ locked (wk_queue demo_joined) = ∅.
Proof.
  assert (worker_result demo_joined = Some true) as Hr by (vm_compute; reflexivity).
  split; [exact Hr|].
  apply (worker_ends_as_one demo_decode demo_w0 demo_joined true); [apply demo_run_loops| |exact Hr].
  transitivity demo_w5; [apply demo_run_loops|apply demo_ends].
Defined.

Lemma stop_drains_the_worker_witness :
  wk_stop (send_stop demo_w5) = true ∧
  (1 ≤ 4 * length (wk_loops (send_stop demo_w5)))%nat.
Proof.
  split; [reflexivity|].
  apply (stop_drains_the_worker demo_decode (send_stop demo_w5) 1
    (after (loop_wait StopRequested true 3000000000 0) (send_stop demo_w5)) eq_refl).
  apply nsteps_once, (l_wait _ StopRequested true 3000000000 0). vm_compute. reflexivity.
Defined.

End WorkerLoop.
