(* ===== verification/Cli.v ===== *)
(** * The command-line client
    (bin/dipper-cli/src/chain.rs, cmd/indexings.rs, cmd/agreements.rs;
    dipper-rpc/src/admin/message.rs)

    An operator sets a target with a signed call of the admin RPC.  The chain that
    is signed comes from the deployment's manifest unless a flag names one.  YAML,
    the networks registry, signing and the parsers of ids are parameters; texts
    that are printed are the values they show. *)

From S2P Require Import Prelude Schema Registry RegistryInv RegistryRuns RegistryOps RegistryQueries.
From S2P Require Import JobQueue Worker CancelDispatch CancelDispatchProps ChainEvents ChainReconcile.
From S2P Require Import Services RowOps AdminRpc AdminRpcProps.
Import Schema Registry RegistryInv RegistryRuns RegistryOps RegistryQueries.
Import JobQueue Worker CancelDispatch CancelDispatchProps ChainEvents ChainReconcile Services RowOps.
Import AdminRpc AdminRpcProps.
Local Open Scope Z_scope.

Module Cli.

(** ** The chain of a deployment *)

Definition CLI_HTTP_TIMEOUT : Z := from_secs 30.
Definition CHECK_TIMEOUT : Z := from_secs 5.

Inductive ChainOverride : Type := ByName (name : string) | ById (id : Z).

Inductive ChainError : Type :=
| FetchFailed
| NotYaml
| NamesNoNetwork
| NamesNetworks (networks : gset string)
| NotInRegistry (network : string)
| NoEvmChain (network caip2_id : string)
| NoManifestChain (cause : ChainError)
| NoChainIdOf (network : string) (cause : ChainError).

Inductive Notice : Type :=
| UsingManifest (network : string) (chain_id : Z)
| ManifestDiffers (network : string) (manifest_chain_id chain_id : Z)
| NotChecked (chain_id : Z) (cause : ChainError).

(** [str::strip_prefix] *)
Fixpoint strip_prefix (prefix s : string) : option string :=
  match prefix, s with
  | EmptyString, _ => Some s
  | String a p, String b r => if bool_decide (a = b) then strip_prefix p r else None
  | String _ _, EmptyString => None
  end.

(** A manifest's sources, each with the network it may name. *)
Record Manifest : Type := mkManifest {
  mf_data_sources : list (option string);
  mf_templates : list (option string) }.

Definition manifest_networks (m : Manifest) : gset string :=
  list_to_set (omap (λ source, source) (mf_data_sources m ++ mf_templates m)).

Definition res_bind {E A B} (f : A → result E B) (r : result E A) : result E B :=
  match r with Ok a => f a | Err e => Err e end.
Definition map_err {E F A} (f : E → F) (r : result E A) : result F A :=
  match r with Ok a => Ok a | Err e => Err (f e) end.

Section chain.
Context {R : Type} (caip2_of : R → string → option string).
Context (parse_yaml : string → option Manifest).

Definition chain_id_for_network (registry : R) (network : string) : result ChainError Z :=
  match caip2_of registry network with
  | None => Err (NotInRegistry network)
  | Some caip2 =>
      match strip_prefix "eip155:" caip2 ≫= parse_u64 with
      | Some id => Ok id
      | None => Err (NoEvmChain network caip2)
      end
  end.

Definition network_from_manifest (manifest : string) : result ChainError string :=
  match parse_yaml manifest with
  | None => Err NotYaml
  | Some m =>
      match elements (manifest_networks m) with
      | [network] => Ok network
      | [] => Err NamesNoNetwork
      | _ => Err (NamesNetworks (manifest_networks m))
      end
  end.

Definition choose_chain_id (chain : option ChainOverride) (manifest_network : result ChainError string)
    (registry : result ChainError R) : result ChainError (Z * option Notice) :=
  match chain with
  | None =>
      match manifest_network with
      | Err e => Err (NoManifestChain e)
      | Ok network =>
          match res_bind (λ r, chain_id_for_network r network) registry with
          | Err e => Err (NoChainIdOf network e)
          | Ok chain_id => Ok (chain_id, Some (UsingManifest network chain_id))
          end
      end
  | Some chain =>
      match match chain with
            | ByName name => res_bind (λ r, chain_id_for_network r name) registry
            | ById id => Ok id
            end with
      | Err e => Err e
      | Ok chain_id =>
          let manifest_chain :=
            res_bind (λ network,
              match res_bind (λ r, chain_id_for_network r network) registry with
              | Ok manifest_chain_id => Ok (network, manifest_chain_id)
              | Err e => Err e
              end) manifest_network in
          Ok (chain_id,
              match manifest_chain with
              | Ok (network, manifest_chain_id) =>
                  if manifest_chain_id =? chain_id then None
                  else Some (ManifestDiffers network manifest_chain_id chain_id)
              | Err e => Some (NotChecked chain_id e)
              end)
      end
  end.

(** The two fetches run side by side; each gets the time it may take. *)
Definition manifest_timeout (chain : option ChainOverride) : Z :=
  match chain with Some _ => CHECK_TIMEOUT | None => CLI_HTTP_TIMEOUT end.
Definition registry_timeout (chain : option ChainOverride) : Z :=
  match chain with Some (ById _) => CHECK_TIMEOUT | _ => CLI_HTTP_TIMEOUT end.

(** The fetches answer within the time they are given. *)
Context (fetch_manifest : N → Z → result ChainError string) (fetch_registry : Z → result ChainError R).

Definition resolve (deployment : N) (chain : option ChainOverride)
    : result ChainError (Z * option Notice) :=
  let manifest := fetch_manifest deployment (manifest_timeout chain) in
  let registry := fetch_registry (registry_timeout chain) in
  choose_chain_id chain (res_bind network_from_manifest manifest) registry.

(** ** What the chosen chain is *)

(** The sources that name a network all name this one, and some do. *)
Definition only_network (m : Manifest) (network : string) : Prop :=
  Some network ∈ mf_data_sources m ++ mf_templates m ∧
  ∀ n, Some n ∈ mf_data_sources m ++ mf_templates m → n = network.

Lemma manifest_networks_spec m n :
  n ∈ manifest_networks m ↔ Some n ∈ mf_data_sources m ++ mf_templates m.
Proof.
  unfold manifest_networks. rewrite elem_of_list_to_set, list_elem_of_omap. split.
  - intros (x & Hx & Heq). by rewrite <-Heq.
  - intros H. by exists (Some n).
Qed.

Lemma one_element (X : gset string) n : elements X = [n] ↔ X = {[ n ]}.
Proof.
  split; [|intros ->; apply elements_singleton]. intros He. apply leibniz_equiv. intros x.
  rewrite <-elem_of_elements, He. set_solver.
Qed.

Lemma network_from_manifest_iff text network :
  network_from_manifest text = Ok network ↔
  ∃ m, parse_yaml text = Some m ∧ only_network m network.
Proof.
  unfold network_from_manifest. destruct (parse_yaml text) as [m|]; [|naive_solver].
  assert (manifest_networks m = {[ network ]} ↔ only_network m network) as Hs.
  { unfold only_network. setoid_rewrite <-manifest_networks_spec. split; [set_solver|].
    intros [H1 H2]. set_solver. }
  rewrite <-one_element in Hs. transitivity (elements (manifest_networks m) = [network]).
  - destruct (elements (manifest_networks m)) as [|n [|n' l]]; naive_solver.
  - rewrite Hs. naive_solver.
Qed.

(** Without a flag the chain that is signed is the one of the only network the
    manifest names, as the registry lists it. *)
Lemma manifest_decides deployment id notice :
  resolve deployment None = Ok (id, notice) ↔
  ∃ text m network registry caip2 digits,
    fetch_manifest deployment CLI_HTTP_TIMEOUT = Ok text ∧ parse_yaml text = Some m ∧
    only_network m network ∧ fetch_registry CLI_HTTP_TIMEOUT = Ok registry ∧
    caip2_of registry network = Some caip2 ∧ strip_prefix "eip155:" caip2 = Some digits ∧
    parse_u64 digits = Some id ∧ notice = Some (UsingManifest network id).
Proof.
  unfold resolve, choose_chain_id, manifest_timeout, registry_timeout. split.
  - intros H. destruct (fetch_manifest _ _) as [text|] eqn:Hf; [|done]. simpl in H.
    destruct (network_from_manifest text) as [network|] eqn:Hn; [|done].
    apply network_from_manifest_iff in Hn as (m & Hm & Ho).
    destruct (fetch_registry _) as [r|] eqn:Hr; [|done]. simpl in H.
    unfold chain_id_for_network in H. destruct (caip2_of r network) as [caip2|] eqn:Hc; [|done].
    destruct (strip_prefix "eip155:" caip2) as [digits|] eqn:Hp; [|done]. simpl in H.
    destruct (parse_u64 digits) as [i|] eqn:Hd; [|done]. injection H as <- <-.
    by exists text, m, network, r, caip2, digits.
  - intros (text & m & network & r & caip2 & digits & Hf & Hm & Ho & Hr & Hc & Hp & Hd & ->).
    assert (network_from_manifest text = Ok network) as Hn
      by (apply network_from_manifest_iff; eauto).
    rewrite Hf. simpl. rewrite Hn, Hr. simpl. unfold chain_id_for_network.
    by rewrite Hc, Hp; simpl; rewrite Hd.
Qed.

(** A numeric flag wins whatever the fetches answer, and none of them may take
    longer than five seconds. *)
Lemma numeric_override_wins deployment id :
  (∃ notice, resolve deployment (Some (ById id)) = Ok (id, notice)) ∧
  manifest_timeout (Some (ById id)) = CHECK_TIMEOUT ∧
  registry_timeout (Some (ById id)) = CHECK_TIMEOUT.
Proof. split; [|done]. unfold resolve, choose_chain_id. by eexists. Qed.

(** A flag is used in silence exactly when the manifest's network has that chain. *)
Lemma silent_when_agreed chain manifest registry id notice :
  choose_chain_id (Some chain) manifest registry = Ok (id, notice) →
  notice = None ↔
  ∃ network r, manifest = Ok network ∧ registry = Ok r ∧ chain_id_for_network r network = Ok id.
Proof.
  unfold choose_chain_id. intros H.
  destruct (match chain with ByName _ => _ | ById _ => _ end) as [i|]; [|done].
  injection H as -> <-. destruct manifest as [network|e]; simpl;
    [|split; [done|by intros (? & ? & ? & _)]].
  destruct registry as [r|e]; simpl; [|split; [done|by intros (? & ? & _ & ? & _)]].
  destruct (chain_id_for_network r network) as [j|e] eqn:Hj.
  - destruct (Z.eqb_spec j id) as [->|Hne]; [split; [eauto|done]|]. split; [done|].
    intros (? & ? & [= <-] & [= <-] & ?). congruence.
  - split; [done|]. intros (? & ? & [= <-] & [= <-] & ?). congruence.
Qed.

End chain.

(** ** Signed messages on the wire *)

(** What alloy says of a signature: 65 bytes, of which the last is the parity in a
    form [normalize_v] reads. *)
Class SignatureBytes (Sig : Type) : Type := {
  as_bytes : Sig → list Z;
  normalize_v : Z → option bool;
  from_bytes_and_parity : list Z → bool → Sig }.

Class SignatureLaws (Sig : Type) `{!SignatureBytes Sig} : Prop := {
  sig_length : ∀ s, length (as_bytes s) = 65%nat;
  sig_parity : ∀ s, ∃ v parity, as_bytes s !! 64%nat = Some v ∧ normalize_v v = Some parity ∧
    from_bytes_and_parity (take 64 (as_bytes s)) parity = s }.

(** The message and the bytes that are base64 on the wire. *)
Record SignedMessageSer : Type := mkSer {
  ser_message : SetIndexingTargetCandidates;
  ser_signature : list Z }.

Section cli.
Context {C W Sig : Type} `{!ChainClient C} `{!MessageQueue W} `{!SignatureBytes Sig}.
Notation S := (S C W).
Notation SState := (SState C W).

Definition serialize_signed (m : SignedMessage Sig) : SignedMessageSer :=
  mkSer (sm_message m) (as_bytes (sm_signature m)).

(** [None]: not 65 bytes, or no parity. *)
Definition deserialize_signed (w : SignedMessageSer) : option (SignedMessage Sig) :=
  if bool_decide (length (ser_signature w) = 65%nat)
  then v ← ser_signature w !! 64%nat;
       parity ← normalize_v v;
       Some (mkSigned (ser_message w) (from_bytes_and_parity (take 64 (ser_signature w)) parity))
  else None.

Lemma signed_roundtrip `{!SignatureLaws Sig} m : deserialize_signed (serialize_signed m) = Some m.
Proof.
  unfold deserialize_signed, serialize_signed. simpl. rewrite bool_decide_true by apply sig_length.
  destruct (sig_parity (sm_signature m)) as (v & parity & Hv & Hp & Hs).
  rewrite Hv. simpl. rewrite Hp. simpl. rewrite Hs. by destruct m.
Qed.

(** ** Setting a target *)

Inductive SubgraphIdOrDeploymentId : Type := ASubgraph (id : N) | ADeployment (id : N).

Record SetTargetArgs : Type := mkArgs {
  sa_subgraph : SubgraphIdOrDeploymentId;
  sa_chain_name : option string;
  sa_chain_id : option Z;
  sa_num_candidates : option Z }.

Definition chain_override (args : SetTargetArgs) : option ChainOverride :=
  match sa_chain_name args, sa_chain_id args with
  | Some name, _ => Some (ByName name)
  | None, Some id => Some (ById id)
  | None, None => None
  end.

Inductive CliError : Type :=
| InvalidSubgraph (id : N)
| NoChain (e : ChainError)
| SigningFailed
| CallFailed
| CallRefused (e : ErrorObject).

Inductive Printed : Type := PrintedId (id : N) | PrintedNoOp (deployment : N) (chain_id : Z).

(** How a call over HTTP ends: it never arrives, its answer is lost, or neither. *)
Inductive exchange : Type := NotDelivered | AnswerLost | Answered.

Context (resolve_chain : N → option ChainOverride → result ChainError (Z * option Notice)).
Context (sign : SetIndexingTargetCandidatesSol → option Sig).
Context (recover_signer_address : SetIndexingTargetCandidatesSol → Sig → option N).

(** The server reads the message, or refuses a call it cannot read. *)
Definition call_server (ctx : AdminCtx) (new_id : N) (how : exchange) (m : SignedMessage Sig)
    : S (option (result ErrorObject (option N))) :=
  match how, deserialize_signed (serialize_signed m) with
  | NotDelivered, _ | _, None => mret None
  | AnswerLost, Some req =>
      rpc_set_indexing_target_candidates recover_signer_address ctx new_id req ;; mret None
  | Answered, Some req =>
      r ← rpc_set_indexing_target_candidates recover_signer_address ctx new_id req;
      mret (Some r.1)
  end.

Definition set_target (ctx : AdminCtx) (new_id : N) (how : exchange) (args : SetTargetArgs)
    : S (result CliError Printed) :=
  match sa_subgraph args with
  | ASubgraph id => mret (Err (InvalidSubgraph id))
  | ADeployment deployment =>
      match resolve_chain deployment (chain_override args) with
      | Err e => mret (Err (NoChain e))
      | Ok (chain_id, _) =>
          let message := mkSetTarget deployment chain_id (sa_num_candidates args) in
          match sign (to_sol_struct message) with
          | None => mret (Err SigningFailed)
          | Some signature =>
              r ← call_server ctx new_id how (mkSigned message signature);
              mret (match r with
                    | None => Err CallFailed
                    | Some (Err e) => Err (CallRefused e)
                    | Some (Ok (Some id)) => Ok (PrintedId id)
                    | Some (Ok None) => Ok (PrintedNoOp deployment chain_id)
                    end)
          end
      end
  end.

(** ** Reading *)

Inductive IndexingRequestSelector : Type :=
| SelectRequest (id : N) | SelectSubgraph (id : N) | SelectDeployment (id : N).

Inductive Listing : Type :=
| OneRequest (r : WireRequest) | Requests (rs : list WireRequest) | Agreements (ags : list WireAgreement).

Definition listing {A} (f : A → Listing) (answered : bool) (m : S (result ErrorObject A))
    : S (result CliError Listing) :=
  r ← m;
  mret (if answered
        then match r with Ok a => Ok (f a) | Err e => Err (CallRefused e) end
        else Err CallFailed).

Definition cli_list (answered : bool) : S (result CliError Listing) :=
  listing Requests answered rpc_all_indexing_requests.

Definition cli_status (answered : bool) (selector : IndexingRequestSelector)
    : S (result CliError Listing) :=
  match selector with
  | SelectRequest id => listing OneRequest answered (rpc_indexing_request_by_id id)
  | SelectDeployment id => listing Requests answered (rpc_indexing_requests_by_deployment_id id)
  | SelectSubgraph id => mret (Err (InvalidSubgraph id))
  end.

Definition cli_agreements (answered : bool) (request : N) : S (result CliError Listing) :=
  listing Agreements answered (rpc_agreements_by_indexing_request_id request).

Context (parse_uuid parse_deployment parse_subgraph : string → option N).

Definition subgraph_or_deployment_from_str (val : string) : option SubgraphIdOrDeploymentId :=
  match parse_deployment val with
  | Some id => Some (ADeployment id)
  | None => ASubgraph <$> parse_subgraph val
  end.

Definition selector_from_str (val : string) : option IndexingRequestSelector :=
  match parse_uuid val with
  | Some id => Some (SelectRequest id)
  | None =>
      match parse_deployment val with
      | Some id => Some (SelectDeployment id)
      | None => SelectSubgraph <$> parse_subgraph val
      end
  end.

(** ** What is printed is done *)

Context `{!SignatureLaws Sig}.

Definition asked_of (ctx : AdminCtx) (args : SetTargetArgs) : Z :=
  default (ac_max_candidates ctx) (sa_num_candidates args).

(** The part of [target_call] the key of the call is in. *)
Lemma target_call_sets ctx q (req : SignedMessage Sig) (s s' : SState) id_opt events :
  target_call ctx q req s s' (Ok id_opt) events →
  let key := (q, stc_deployment_id (sm_message req), stc_chain_id (sm_message req)) in
  (∀ k, target (sdb s') k =
     if bool_decide (k = key) then target_after (asked_for ctx req) else target (sdb s) k) ∧
  (if id_opt is Some id then names key (sdb s') id else asked_for ctx req = 0).
Proof.
  intros H. remember (Ok id_opt) as r eqn:Hr.
  destruct H as [id_opt' key Ht Hn Hd Hp|id queued key Hne [_ Ha] Hn Hp|]; [| |done].
  - injection Hr as ->. rewrite Hd. split; [|done]. intros k. case_bool_decide; by subst.
  - destruct queued; [|done]. injection Hr as <-. done.
Qed.

(** A command that prints was answered by the server. *)
Lemma call_answers ctx new_id how req (s : SState) printed s' deployment chain_id :
  (r ← call_server ctx new_id how req;
   mret (match r with
         | None => Err CallFailed
         | Some (Err e) => Err (CallRefused e)
         | Some (Ok (Some id)) => Ok (PrintedId id)
         | Some (Ok None) => Ok (PrintedNoOp deployment chain_id)
         end) : S (result CliError Printed)) s = (Ok printed, s') →
  ∃ id_opt events,
    rpc_set_indexing_target_candidates recover_signer_address ctx new_id req s
      = ((Ok id_opt, events), s') ∧
    printed = match id_opt with Some id => PrintedId id | None => PrintedNoOp deployment chain_id end.
Proof.
  unfold call_server. rewrite signed_roundtrip. unfold mbind, S_bind. intros H.
  destruct how; [done| |].
  - by destruct (rpc_set_indexing_target_candidates _ _ _ _ s) as [r s1].
  - destruct (rpc_set_indexing_target_candidates _ _ _ _ s) as [[res events] s1]. simpl in H.
    unfold mret, S_ret in H. destruct res as [[id|]|e]; simplify_eq; eauto.
Qed.

(** C39: what the command reports as done is done.  When it prints a request's id
    or that there is nothing to cancel, the operator is allowlisted and, on the
    database as other tasks left it, the target of (operator, deployment, chosen
    chain) is the count that was asked for, or the server's default; the call
    changed no other key's target, and the id printed is a request of that key. *)
Theorem cli_sets_the_target ctx new_id how args address (s s' : SState) printed :
  (∀ sol sig, sign sol = Some sig → recover_signer_address sol sig = Some address) →
  reg_inv (sdb s) → others_ok s → 0 ≤ asked_of ctx args →
  requests (run_ops (hd [] (ss_others s)) (sdb s)) !! new_id = None →
  set_target ctx new_id how args s = (Ok printed, s') →
  address ∈ ac_gateway_operator_allowlist ctx ∧ asked_of ctx args ≤ MAX_NUM_CANDIDATES ∧
  ∃ deployment chain_id notice s1,
    sa_subgraph args = ADeployment deployment ∧
    resolve_chain deployment (chain_override args) = Ok (chain_id, notice) ∧ interfered s s1 ∧
    (∀ k, target (sdb s') k =
       if bool_decide (k = (address, deployment, chain_id)) then target_after (asked_of ctx args)
       else target (sdb s1) k) ∧
    match printed with
    | PrintedId id => names (address, deployment, chain_id) (sdb s') id
    | PrintedNoOp d c => d = deployment ∧ c = chain_id ∧ asked_of ctx args = 0
    end.
Proof.
  intros Hsign Hi Ho Hn Hnew Hrun. unfold set_target in Hrun.
  destruct (sa_subgraph args) as [|deployment] eqn:Hsub; [done|].
  destruct (resolve_chain deployment (chain_override args)) as [[chain_id notice]|e] eqn:Hres; [|done].
  destruct (sign _) as [sig|] eqn:Hsig; [|done]. apply Hsign in Hsig.
  set (req := mkSigned (mkSetTarget deployment chain_id (sa_num_candidates args)) sig) in *.
  destruct (call_answers ctx new_id how req s printed s' deployment chain_id Hrun)
    as (id_opt & events & Hcall & Hprinted).
  destruct (admitted recover_signer_address ctx req) as [q|e] eqn:Had.
  2:{ rewrite (refused_call recover_signer_address ctx new_id req e s Had) in Hcall. done. }
  destruct (wp_run _ _ _ _ _ (wp_target_call recover_signer_address ctx new_id q req s Had Hi Ho Hn Hnew) Hcall)
    as (_ & s1 & Hs1 & _ & Htc).
  unfold admitted in Had. simpl in Had. rewrite Hsig in Had.
  case_bool_decide as Hin; [|done].
  destruct (Z.leb_spec (asked_for ctx req) MAX_NUM_CANDIDATES) as [Hm|]; [|done].
  injection Had as <-. split; [done|]. split; [exact Hm|].
  apply target_call_sets in Htc as [Hk Hid].
  exists deployment, chain_id, notice, s1. split_and!; [done|done|done|exact Hk|].
  destruct id_opt; subst printed; [exact Hid|by split_and!].
Qed.

End cli.

(** ** A worked command *)

(** A signature is 64 bytes of its signer's number and the parity 27. *)
#[local] Instance DemoBytes : SignatureBytes N := {|
  as_bytes s := Z.of_N s :: replicate 63 0 ++ [27];
  normalize_v v := if v =? 27 then Some false else if v =? 28 then Some true else None;
  from_bytes_and_parity bs _ := Z.to_N (hd 0 bs) |}.

#[local] Instance DemoLaws : SignatureLaws N.
Proof.
  split; [done|]. intros s. exists 27, false. split; [done|]. split; [done|].
  cbn [from_bytes_and_parity as_bytes DemoBytes]. simpl. apply N2Z.id.
Qed.

Definition demo_caip2 (_ : ()) (network : string) : option string :=
  if bool_decide (network = "arbitrum-one"%string) then Some "eip155:42161"%string else None.
Definition demo_yaml (_ : string) : option Manifest :=
  Some (mkManifest [Some "arbitrum-one"%string; None] [Some "arbitrum-one"%string]).
Definition demo_resolve : N → option ChainOverride → result ChainError (Z * option Notice) :=
  resolve demo_caip2 demo_yaml (λ _ _, Ok "manifest"%string) (λ _, Ok tt).
Definition demo_args : SetTargetArgs := mkArgs (ADeployment 7%N) None None (Some 3).

Lemma cli_sets_the_target_witness :
  let run := set_target demo_resolve (λ _, Some 5%N) demo_recover demo_ctx 90%N Answered demo_args
               (demo_run demo_targets [] []) in
  run.1 = Ok (PrintedId 1%N) ∧ target (sdb run.2) (5%N, 7%N, 42161) = Some 3.
Proof.
  intros run. assert (run.1 = Ok (PrintedId 1%N)) as Hp by (vm_compute; reflexivity).
  split; [exact Hp|]. destruct run as [r s'] eqn:E. simpl in Hp. subst r.
  destruct (cli_sets_the_target demo_resolve (λ _, Some 5%N) demo_recover demo_ctx 90%N Answered
    demo_args 5%N (demo_run demo_targets [] []) s' (PrintedId 1%N)
    ltac:(by intros ? ? [= <-]) demo_targets_inv ltac:(constructor)
    ltac:(vm_compute; discriminate) ltac:(vm_compute; reflexivity) E)
    as (_ & _ & d & c & n & s1 & Hd & Hc & _ & Hk & _).
  injection Hd as <-. vm_compute in Hc. injection Hc as <- <-. rewrite Hk. vm_compute. reflexivity.
Defined.

End Cli.
